(* ===== verification/_CoqProject ===== *)
-Q . S2P
Prelude.v
Float.v
Rand.v
Ranges.v
Text.v
Tcp.v
Ring.v
Heap.v
Concurrent.v
Prefix.v
IpPmap.v
Addresses.v
Minecraft.v
Config.v
PortGraph.v
Database.v
Session.v
Xdp.v
Umem.v
Completer.v
Sender.v
Link.v
Native.v
Receiver.v
Deque.v
Stealing.v
PortPmap.v
Pool.v
Feeder.v
Responder.v
Handshake.v
Answer.v
Saturator.v
Socket.v
Setup.v
Run.v
Interleave.v
Ending.v
Main.v
