(* ===== verification/Prelude.v ===== *)
(** * Farsight: a verification development

    Farsight finds Minecraft servers on the Internet.  It sends SYN packets
    straight from memory shared with the network card (AF_XDP), keeps no state
    for a host until the host has echoed a cookie, asks hosts that answer for
    their status, and stores what they say.  Which addresses and ports are
    tried is learned from what was found before.

    ** The program and its parts

    A start-up part finds the link (the hardware addresses of the gateway and
    of the interface, the source address), shares out the packet memory of each
    queue of the card and loads the packet filter.  The main loop then runs one
    session after the other: it chooses the scope (all addresses, or those
    known), takes the opt-outs away and starts the threads of the session.
      - the feeder takes addresses from the address strategy and first ports
        from the port strategy, and queues probes and deadlines;
      - a saturator per queue of the card sends the queued probes (scanner),
        answers what arrives (responder) and collects completions (completer);
      - the housekeeping thread prints the rates, gives port states back whose
        deadline has passed, and writes the answers to the database.
    The threads share the two strategies, the queues of probes and deadlines,
    the channel of answers, a flag and, within a saturator, the packet memory.

    ** Files, and what they model under [src/farsight/src]

    - [Prelude]: machine integers, bytes, outcomes, results, total orders, the
      tactics and the lemmas the other files share.
    - [Float], [Rand]: binary64 and the interface of random generators.
    - [Ranges]: [net/range.rs].  [Text]: [str], [exclude.rs] and the parser of
      [xdp/page.rs].  [Tcp]: [net/tcp.rs].  [Link]: [net/mac.rs], [net/ip.rs],
      [net/interface.rs], [net/gateway.rs], the start of [Controller::new].
    - [Ring]: [xdp/ring.rs].  [Umem]: [xdp/umem.rs], [xdp/page.rs],
      [xdp/tx_metadata.rs].  [Xdp]: [farsight-ebpf/src/xdp.rs].
    - [Native]: memory of the kernel and of the C library: the mapping of a
      ring, the iterator of [net/interface.rs], [net/nic.rs], [ip::parse].
    - [Heap], [Concurrent]: [controller/strategy/pmap/heap.rs], the sequential
      heap and the one behind locks.  [Prefix], [PortGraph]:
      [controller/strategy/pmap/graph].  [IpPmap], [PortPmap]:
      [controller/strategy/ip/pmap.rs], [controller/strategy/port/pmap.rs];
      [Addresses]: the address strategy, and [Pool]: the pool of port states,
      when calls overlap.
    - [Minecraft]: [controller/protocol].  [Config]: [config.rs],
      [controller/shared.rs].  [Database]: [database/mod.rs],
      [controller/strategy/selector.rs], [Controller::session].
    - [Completer], [Sender], [Receiver], [Responder] (the code), [Handshake] and
      [Answer] (its proofs), [Deque], [Feeder]: the files of these names under
      [controller].  [Stealing]: the deque when its calls overlap.
    - [Session]: the housekeeping thread of [controller/session.rs], and
      [controller/printer.rs].  [Saturator]: [controller/scanner.rs] and
      [spawn_saturator].  [Run]: a whole session, [Session::start];
      [Ending]: its turns as schedules, and how it ends; [Interleave]: one turn
      of a saturator while other threads work on the strategies.
    - [Socket]: [xdp/socket.rs], the allocator of [xdp/ring.rs], [Umem::bind];
      every system call with its arguments, on the history of the calls so far.
      [Setup]: the queues of [Controller::new] and the checks of [main.rs].
      [Main]: the start as a whole and the loop of [main.rs].

    ** How the code is rendered

    A struct is a record, an enum an inductive type, a function a definition of
    the same name where that is free; a method takes and returns its object.
    Unsigned arithmetic wraps as in the release profile ([u32_of] and the like
    are written where the code computes).  A panic, an access outside memory
    and a loop cut short are values of [outcome] ([Fault Panic], [Fault
    Undefined], [Fault OutOfFuel]); [Result] is [result].  The responder is
    written in a state monad with errors, with its memory, clock and kernel as
    parts of the state.  Maps and sets are finite maps and sets, [Vec]s lists,
    time is in nanoseconds.  What the kernel, the clock, other threads and the
    network do is an argument (a list of answers to come, a function of the
    history of system calls, or a step of a relation).

    Code outside the repository is an interface with the laws that its
    documentation states: generators ([Rng], [FairRng]), the permutation
    ([PerfectRng]), the iteration of hash maps ([HashIter]), the bounded queue
    ([ArrayQueue]), [serde_json] ([SerdeJson]), the hash ([Hash64]), the
    database server ([Clickhouse], [ClickhouseLaws]), constants of the kernel
    and of the C library ([LibcConsts], with [LibcLaws]: names, offsets and
    flags differ).
    Each has an instance in the witnesses.  The interfaces of the program
    itself ([PortAdapter] with [PortAdapterLaws], [IpAdapter], [Payload],
    [Parser]) are what the responder is proved against; [Run] gives the
    strategies as instances and discharges the laws.

    ** What the theorems show

    - Scope.  Excluding the opt-outs leaves exactly the other addresses, the
      compiled table numbers them, a printed opt-out list is read back and
      respected, and the table of a session holds what was asked for less the
      opt-outs (a rescan of no address reads one all the same; [Ranges], [Text],
      [Database]).
    - Selection.  No address is handed out twice and none in scope is forgotten;
      the heap refines a priority queue; calls on the shared heap cannot
      deadlock; whatever the accesses of overlapping calls to the pool, every
      port state is in it, in the map, in a hand or went with a guard dropped
      unused; budgets and honeypot thresholds hold, hits raise ports to their
      conditional probability, exploration ends ([IpPmap], [Heap], [Concurrent],
      [PortPmap], [Pool], [PortGraph]).
    - Wire.  Every packet sent has the fields asked for and is valid (with a
      body, when checksums are not left to the device), batches
      are sent whole, sends return once the ring has room, the fast checksums
      are the Internet checksum, the filter of the started program hands just
      the answers to probes to the socket of their queue, the link is the right
      one ([Sender], [Tcp], [Xdp], [Main], [Link]).
    - Rings and memory.  Producers never overwrite, consumers read in order,
      every received buffer goes back, the start-up calls the kernel in an order
      that the rules of AF_XDP allow ([rules], an automaton on the history),
      shares the memory out without overlap, and a turn of a saturator keeps it
      that way, also among the steps of other threads; every entry of a ring
      lies in its mapping ([Ring], [Receiver], [Socket], [Setup], [Interleave],
      [Native]).
    - Answers.  The responder refines a small connection machine, in which a
      packet that asks for something is not passed over; it opens no
      connection without the cookie, puts the streams of peers whose FINs carry
      no data together right, keeps its table bounded and drains its deadlines; a
      server that answers in order is recorded; the parser is right on every
      prefix of a response; with batches that fit the queue refines a FIFO list,
      also while a worker and many stealers use it at once ([Handshake],
      [Answer], [Minecraft], [Deque], [Stealing]).
    - Sessions.  A tick of the feeder takes new addresses and queues them with
      their deadlines.  However the turns of all threads interleave and whatever
      the queues hold, the strategies stay consistent, no address is handed out
      twice, what the saturators hold stays fit for use, every answer found is in
      exactly one write, and when the time is over a session ends as soon as
      every thread has had its turn.  As long as the batches of the feeder fit
      their queues, nothing faults either, and the queues stay consistent
      ([Feeder], [Session], [Run], [Ending]).
    - The program.  The start fails with an error or brings up all queues, and
      session after session no saturator is lost and what the saturators hold
      stays fit for the next one; no turn faults as long as the batches fit
      ([Main]).

    ** Fuel and bounds

    Loops that are not structural have fuel that is proved to be enough:
    [exclude_fuel], the lengths of the tables for the searches, the size of the
    heap for [try_pick], the size of the scope for [next], the entries of the
    state for [next_port], [expire_fuel] for the deadlines, the batch for the
    frames of a tick.  Two loops wait for something outside: a send waits for
    room in its ring (its fuel is the list of what the kernel does next, and
    [send_returns] says when it returns), and exploration waits for a fair
    generator ([explore_untried]).  Only these can end in [OutOfFuel].  Counters
    of the deque are taken below 2^58, rings divide 2^32, as the code requires.

    [push] of the deque makes sure of room for one task and then writes a whole
    batch.  A batch that does not fit overwrites tasks that are queued
    ([push_overwrites], and [unfit_batch] for the batches of the default
    configuration) or is written past the buffer ([push_out_of_bounds]).  What
    is proved of the queues therefore has the condition that batches fit: it is
    a hypothesis of [deque_fifo], [stealing_linear] ([room]) and
    [feeder_tick_batches] ([takes]), and in [Run] and [Main] turns of the feeder
    without it ([anytime]) and with it ([batch_fits]) are told apart.

    ** Not modelled

    Reading files, logging, the TOML parser, the netlink and ClickHouse clients,
    loading and attaching the eBPF program, what the kernel does in a system
    call, thread affinity and the asynchronous runtime are I/O or libraries;
    whether they succeed is part of [machine].  Unmapping memory and closing
    sockets at the end of the process is left out.  Memory
    is sequentially consistent in the model: the weaker orderings of the atomics
    of the deque are left out.  Old buffers of the deque stay readable for the
    whole session: the scanners, the feeder and the housekeeping thread pin the
    epoch when they start and hold it to the end ([scanner.rs], [feeder.rs],
    [session.rs]), so that no buffer is reclaimed before.  In [Run] the turns of
    the threads of a session are interleaved as wholes; finer interleavings are
    taken up one by one: what other threads do to the strategies during a tick
    of the feeder ([Feeder]) and between the accesses of a turn of a saturator to
    the strategies ([Interleave]), the accesses to the pool of port states
    ([Pool]) and to the entries and the heap of the address strategy
    ([Addresses]), the steps of calls on the shared heap ([Concurrent]) and on a
    deque ([Stealing]). *)

From Stdlib Require Export ZArith Lia.
From stdpp Require Export gmap sorting list.

Open Scope Z_scope.

(** ** Machine integers

    A value of an unsigned machine type of [w] bits is a [Z] between 0 and
    [2 ^ w - 1].  The release profile the project is built with has no
    overflow checks, so [+], [-] and [*] wrap; [wrap w] is that wrap-around. *)

Definition wrap (w z : Z) : Z := z mod 2 ^ w.

Definition in_width (w z : Z) : Prop := 0 <= z < 2 ^ w.

(** Two's complement: the signed value of width [w] that agrees with [z]
    modulo [2 ^ w]. *)
Definition swrap (w z : Z) : Z := wrap w (z + 2 ^ (w - 1)) - 2 ^ (w - 1).

Definition u8_of (z : Z) : Z := wrap 8 z.
Definition u16_of (z : Z) : Z := wrap 16 z.
Definition u32_of (z : Z) : Z := wrap 32 z.
Definition u64_of (z : Z) : Z := wrap 64 z.
Definition i32_of (z : Z) : Z := swrap 32 z.
Definition isize_of (z : Z) : Z := swrap 64 z.

Abbreviation in_u8 := (in_width 8).
Abbreviation in_u16 := (in_width 16).
Abbreviation in_u32 := (in_width 32).
Abbreviation in_u64 := (in_width 64).

(** The length of a slice, as the [usize] it is. *)
Abbreviation zlen l := (Z.of_nat (length l)).

(** ** Bytes and addresses *)

(** [u16::from_be_bytes]. *)
Definition be16 (hi lo : Z) : Z := hi * 256 + lo.

(** [u32::from_be_bytes]. *)
Definition be32 (b0 b1 b2 b3 : Z) : Z := ((b0 * 256 + b1) * 256 + b2) * 256 + b3.

(** [to_be_bytes] of a 16-bit and of a 32-bit value. *)
Definition be16_bytes (v : Z) : list Z := [Z.land (Z.shiftr v 8) 255; Z.land v 255].
Definition be32_bytes (v : Z) : list Z :=
  [Z.land (Z.shiftr v 24) 255; Z.land (Z.shiftr v 16) 255; Z.land (Z.shiftr v 8) 255;
   Z.land v 255].

(** An [Ipv4Addr] is its value [to_bits()]; the derived order on its octets
    is the order of these values. *)
Definition Ipv4Addr : Type := Z.

Definition octets (ip : Ipv4Addr) : list Z := be32_bytes ip.

(** [u32::from_ne_bytes(ip.octets())] on the little-endian hosts the program
    runs on: the first octet is the least significant byte. *)
Definition ne_bits (ip : Ipv4Addr) : Z :=
  match octets ip with
  | [a; b; c; d] => ((d * 256 + c) * 256 + b) * 256 + a
  | _ => 0
  end.

(** ** Outcomes

    What a Rust function that can fail to return normally does: it returns,
    it panics, it performs an access the language leaves undefined, or (in
    the model only) it runs out of the fuel given to a loop. *)

Inductive fault : Set :=
  | Panic
  | Undefined
  | OutOfFuel.

Inductive outcome (A : Type) : Type :=
  | Ret (a : A)
  | Fault (f : fault).
Arguments Ret {A} a.
Arguments Fault {A} f.

Global Instance outcome_ret : MRet outcome := @Ret.
Global Instance outcome_bind : MBind outcome :=
  fun A B k m => match m with Ret a => k a | Fault f => Fault f end.

(** [Result<A, E>]. *)
Inductive result (E A : Type) : Type :=
  | Ok (a : A)
  | Err (e : E).
Arguments Ok {E A} a.
Arguments Err {E A} e.

Global Instance result_ret E : MRet (result E) := @Ok E.
Global Instance result_bind E : MBind (result E) :=
  fun A B k m => match m with Ok a => k a | Err e => Err e end.

Global Instance fault_eq_dec : EqDecision fault.
Proof. solve_decision. Defined.
Global Instance outcome_eq_dec `{EqDecision A} : EqDecision (outcome A).
Proof. solve_decision. Defined.
Global Instance result_eq_dec `{EqDecision E, EqDecision A} :
  EqDecision (result E A).
Proof. solve_decision. Defined.

(** ** Tactics *)

(** Splits every boolean comparison of integers in the goal or a hypothesis
    into the two propositions it decides. *)
Ltac case_cmp_step :=
  match goal with
  | |- context [Z.ltb ?a ?b] => destruct (Z.ltb_spec a b)
  | |- context [Z.leb ?a ?b] => destruct (Z.leb_spec a b)
  | |- context [Z.eqb ?a ?b] => destruct (Z.eqb_spec a b)
  | H : context [Z.ltb ?a ?b] |- _ => destruct (Z.ltb_spec a b)
  | H : context [Z.leb ?a ?b] |- _ => destruct (Z.leb_spec a b)
  | H : context [Z.eqb ?a ?b] |- _ => destruct (Z.eqb_spec a b)
  end.
Ltac case_cmp := repeat (case_cmp_step; simpl in *; try lia).

(** ** Arithmetic *)

Create HintDb farsight.
#[export] Hint Extern 1 (_ <= _) => lia : farsight.
#[export] Hint Extern 1 (_ < _) => lia : farsight.

Lemma wrap_small w z : in_width w z -> wrap w z = z.
Proof. apply Z.mod_small. Qed.

Lemma wrap_width w z : 0 <= w -> in_width w (wrap w z).
Proof. intros. apply Z.mod_pos_bound. lia. Qed.

Lemma wrap_wrap w z : wrap w (wrap w z) = wrap w z.
Proof. apply Zmod_mod. Qed.

Lemma wrap_add_l w a b : wrap w (wrap w a + b) = wrap w (a + b).
Proof. apply Zplus_mod_idemp_l. Qed.

Lemma wrap_add_r w a b : wrap w (a + wrap w b) = wrap w (a + b).
Proof. apply Zplus_mod_idemp_r. Qed.

Lemma wrap_sub_l w a b : wrap w (wrap w a - b) = wrap w (a - b).
Proof. apply Zminus_mod_idemp_l. Qed.

Lemma wrap_sub_r w a b : wrap w (a - wrap w b) = wrap w (a - b).
Proof. apply Zminus_mod_idemp_r. Qed.

Lemma wrap_mul_l w a b : wrap w (wrap w a * b) = wrap w (a * b).
Proof. apply Zmult_mod_idemp_l. Qed.

Create Rewrite HintDb wrap.
#[export] Hint Rewrite wrap_wrap wrap_add_l wrap_add_r wrap_sub_l wrap_sub_r
  wrap_mul_l : wrap.

(** Masking and shifting by whole bytes, as division. *)
Lemma land_255 z : Z.land z 255 = z mod 256.
Proof. change 255 with (Z.ones 8). by rewrite Z.land_ones. Qed.

Lemma land_65535 z : Z.land z 65535 = z mod 65536.
Proof. change 65535 with (Z.ones 16). by rewrite Z.land_ones. Qed.

Lemma shiftr_div z n : 0 <= n -> Z.shiftr z n = z / 2 ^ n.
Proof. apply Z.shiftr_div_pow2. Qed.

(** Joining bit fields that do not overlap is addition. *)
Lemma lor_disjoint a b n : 0 <= n -> 0 <= a < 2 ^ n -> Z.lor a (b * 2 ^ n) = a + b * 2 ^ n.
Proof.
  intros Hn Ha. rewrite <- Z.add_lor_land. enough (Z.land a (b * 2 ^ n) = 0) by lia.
  apply Z.bits_inj'. intros i Hi. rewrite Z.land_spec, Z.bits_0.
  destruct (Z.ltb_spec i n); [rewrite Z.mul_pow2_bits_low by lia; apply andb_false_r|].
  replace a with (a mod 2 ^ n) by (by apply Z.mod_small).
  by rewrite Z.mod_pow2_bits_high by lia.
Qed.

Lemma be16_bytes_alt v : be16_bytes v = [(v / 256) mod 256; v mod 256].
Proof. unfold be16_bytes. by rewrite !land_255, shiftr_div. Qed.

Lemma be32_bytes_alt v :
  be32_bytes v = [(v / 16777216) mod 256; (v / 65536) mod 256; (v / 256) mod 256; v mod 256].
Proof. unfold be32_bytes. by rewrite !land_255, !shiftr_div. Qed.

(** Reading back a big-endian field gives the value written. *)
Lemma be16_bytes_read v hi lo : in_u16 v -> be16_bytes v = [hi; lo] -> be16 hi lo = v.
Proof.
  unfold in_width, be16. rewrite be16_bytes_alt. intros ? [= <- <-].
  pose proof (Z.div_mod v 256). assert (v / 256 < 256) by (apply Z.div_lt_upper_bound; lia).
  rewrite (Z.mod_small (v / 256)); [lia|]. split; [apply Z.div_pos|]; lia.
Qed.

(** The four base-256 digits of a 32-bit value. *)
Lemma digits32 v :
  in_u32 v -> exists b3 b2 b1 b0,
    v = be32 b3 b2 b1 b0
    /\ (in_u8 b3 /\ in_u8 b2 /\ in_u8 b1 /\ in_u8 b0)
    /\ be32_bytes v = [b3; b2; b1; b0].
Proof.
  unfold in_width, be32. intros Hv.
  exists (v / 256 / 256 / 256), (v / 256 / 256 mod 256), (v / 256 mod 256), (v mod 256).
  pose proof (Z.div_mod v 256). pose proof (Z.div_mod (v / 256) 256).
  pose proof (Z.div_mod (v / 256 / 256) 256).
  pose proof (Z.mod_pos_bound v 256). pose proof (Z.mod_pos_bound (v / 256) 256).
  pose proof (Z.mod_pos_bound (v / 256 / 256) 256).
  rewrite be32_bytes_alt. change 16777216 with (256 * (256 * 256)). change 65536 with (256 * 256).
  rewrite <- !Z.div_div, (Z.mod_small (v / 256 / 256 / 256)) by lia. split_and!; lia || done.
Qed.

Lemma ne_bits_bytes ip a b c d :
  octets ip = [a; b; c; d] -> ne_bits ip = ((d * 256 + c) * 256 + b) * 256 + a.
Proof. unfold ne_bits. by intros ->. Qed.

(** Reading the octets in the host's order loses nothing. *)
Lemma ne_bits_inj a b : in_u32 a -> in_u32 b -> ne_bits a = ne_bits b -> a = b.
Proof.
  intros (? & ? & ? & ? & -> & Ha & Ea)%digits32 (? & ? & ? & ? & -> & Hb & Eb)%digits32.
  rewrite (ne_bits_bytes _ _ _ _ _ Ea), (ne_bits_bytes _ _ _ _ _ Eb).
  unfold in_width, be32 in *. lia.
Qed.

Lemma ne_bits_width ip : in_u32 ip -> in_u32 (ne_bits ip).
Proof.
  intros (? & ? & ? & ? & -> & Ha & Ea)%digits32.
  rewrite (ne_bits_bytes _ _ _ _ _ Ea). unfold in_width, be32 in *. lia.
Qed.

(** ** Total orders

    What [Ord] promises and [BinaryHeap] and the sorts rely on. *)

Class TotalOrd (A : Type) : Type := {
  tle : A -> A -> bool;
  tle_total x y : tle x y = true \/ tle y x = true;
  tle_trans x y z : tle x y = true -> tle y z = true -> tle x z = true;
  tle_antisym x y : tle x y = true -> tle y x = true -> x = y }.

Lemma tle_refl `{TotalOrd A} (x : A) : tle x x = true.
Proof. by destruct (tle_total x x). Qed.

Lemma tle_false `{TotalOrd A} (x y : A) : tle x y = false -> tle y x = true /\ x <> y.
Proof.
  intros Hf. destruct (tle_total x y) as [|]; [congruence|]. split; [done|].
  intros ->. rewrite tle_refl in Hf. done.
Qed.

Global Program Instance Z_total_ord : TotalOrd Z := {| tle := Z.leb |}.
Next Obligation. intros. rewrite !Z.leb_le. lia. Qed.
Next Obligation. intros x y z. rewrite !Z.leb_le. lia. Qed.
Next Obligation. intros x y. rewrite !Z.leb_le. lia. Qed.

(** Tuples compare lexicographically. *)
Definition lex_le `{TotalOrd A, TotalOrd B} (p q : A * B) : bool :=
  if tle q.1 p.1 then (if tle p.1 q.1 then tle p.2 q.2 else false) else true.

Global Program Instance prod_total_ord `{TotalOrd A, TotalOrd B} : TotalOrd (A * B) :=
  {| tle := lex_le |}.
Next Obligation.
  intros A ? B ? [a b] [a' b']. unfold lex_le. simpl.
  destruct (tle a' a) eqn:E1, (tle a a') eqn:E2; auto using tle_total.
Qed.
Next Obligation.
  intros A ? B ? [a b] [a' b'] [a'' b'']. unfold lex_le. simpl.
  destruct (tle a' a) eqn:E1, (tle a a') eqn:E2; try done;
    destruct (tle a'' a') eqn:E3, (tle a' a'') eqn:E4; try done;
    destruct (tle a'' a) eqn:E5, (tle a a'') eqn:E6; try done; intros Hp Hq;
    try (by eapply tle_trans);
    repeat match goal with
    | H : tle _ _ = false |- _ => apply tle_false in H as [? ?]
    end; exfalso; eauto using tle_antisym, tle_trans.
Qed.
Next Obligation.
  intros A ? B ? [a b] [a' b']. unfold lex_le. simpl.
  destruct (tle a' a) eqn:E1, (tle a a') eqn:E2; try done;
    repeat match goal with
    | H : tle _ _ = false |- _ => apply tle_false in H as [? ?]
    end; intros Hp Hq; f_equal; eauto using tle_antisym;
    exfalso; eauto using tle_antisym.
Qed.

Lemma tle_fst `{TotalOrd A, TotalOrd B} (a a' : A) (b b' : B) :
  tle (a, b) (a', b') = true -> tle a a' = true.
Proof.
  cbn. unfold lex_le. simpl. destruct (tle a' a) eqn:E1.
  - by destruct (tle a a').
  - intros _. by apply tle_false in E1 as [? _].
Qed.

(** [filter_map] of a function that always answers. *)
Lemma omap_total {A B} (f : A -> option B) (l : list A) :
  (forall x, is_Some (f x)) ->
  length (omap f l) = length l /\ (forall i, omap f l !! i = l !! i ≫= f)
  /\ (forall m, take m (omap f l) = omap f (take m l)).
Proof.
  intros Hf. induction l as [|x l (IH1 & IH2 & IH3)]; simpl.
  { split_and!; [done|by intros []|by intros []]. }
  destruct (Hf x) as [y Hy]. rewrite Hy. simpl. split_and!.
  - by f_equal.
  - intros [|i]; simpl; [by rewrite Hy|apply IH2].
  - intros [|m]; simpl; [done|]. by rewrite Hy, IH3.
Qed.

(** A sum after one of its terms has changed. *)
Lemma sum_list_insert (l : list nat) i x y :
  l !! i = Some x -> (sum_list (<[i := y]> l) + x = sum_list l + y)%nat.
Proof.
  revert i. induction l as [|z l IH]; intros [|i] Hi; simplify_eq/=; [lia|]. specialize (IH i Hi). lia.
Qed.
