(* ===== verification/Float.v ===== *)
(** * Binary64 arithmetic

    [f64] as IEEE 754 binary64 with round-to-nearest-even, on the executable
    floats of the standard library; only the operations the sources use. *)

From Stdlib Require Import SpecFloat.
From S2P Require Import Prelude.

Definition f64 : Type := spec_float.
Definition prec : Z := 53.
Definition emax : Z := 1024.

Global Instance spec_float_eq_dec : EqDecision spec_float.
Proof. solve_decision. Defined.

(** [n as f64] for an unsigned integer. *)
Definition f64_of_Z (n : Z) : f64 := binary_normalize prec emax n 0 false.

Definition f64_add (a b : f64) : f64 := SFadd prec emax a b.
Definition f64_sub (a b : f64) : f64 := SFsub prec emax a b.
Definition f64_mul (a b : f64) : f64 := SFmul prec emax a b.
Definition f64_div (a b : f64) : f64 := SFdiv prec emax a b.

(** [a < b] and [a >= b]; both are false on NaN. *)
Definition f64_lt (a b : f64) : bool := SFltb a b.
Definition f64_ge (a b : f64) : bool := SFleb b a.

(** [f64::min]: a NaN argument is ignored. *)
Definition f64_min (a b : f64) : f64 :=
  match a, b with
  | S754_nan, _ => b
  | _, S754_nan => a
  | _, _ => if SFltb b a then b else a
  end.

(** [f64::floor]. *)
Definition f64_floor (a : f64) : f64 :=
  match a with
  | S754_finite s m e =>
      if e <? 0 then
        let v := if s then - Zpos m else Zpos m in
        binary_normalize prec emax (v / 2 ^ (- e)) 0 s
      else a
  | _ => a
  end.

(** [a as u32]: truncation, saturating at both ends; NaN gives 0. *)
Definition f64_as_u32 (a : f64) : Z :=
  match a with
  | S754_zero _ | S754_nan => 0
  | S754_infinity s => if s then 0 else 2 ^ 32 - 1
  | S754_finite s m e =>
      if s then 0
      else Z.min (2 ^ 32 - 1) (if e <? 0 then Zpos m / 2 ^ (- e) else Zpos m * 2 ^ e)
  end.

(** [f64::round]: to the nearest integer, halves away from zero. *)
Definition f64_round (a : f64) : f64 :=
  match a with
  | S754_finite s m e =>
      if e <? 0 then
        let v := (2 * Zpos m + 2 ^ (- e)) / (2 * 2 ^ (- e)) in
        binary_normalize prec emax (if s then - v else v) 0 s
      else a
  | _ => a
  end.

(** [a as u64]. *)
Definition f64_as_u64 (a : f64) : Z :=
  match a with
  | S754_zero _ | S754_nan => 0
  | S754_infinity s => if s then 0 else 2 ^ 64 - 1
  | S754_finite s m e =>
      if s then 0
      else Z.min (2 ^ 64 - 1) (if e <? 0 then Zpos m / 2 ^ (- e) else Zpos m * 2 ^ e)
  end.

(** [Duration::as_secs_f64] of a duration in nanoseconds. *)
Definition as_secs_f64 (ns : Z) : f64 :=
  f64_add (f64_of_Z (ns / 1000000000))
    (f64_div (f64_of_Z (ns mod 1000000000)) (f64_of_Z 1000000000)).

(** [n / d] to the nearest integer, halves to even. *)
Definition round_half_even (n d : Z) : Z :=
  let q := n / d in
  let r := n mod d in
  if 2 * r <? d then q else if d <? 2 * r then q + 1 else if Z.even q then q else q + 1.

(** [Duration::from_secs_f64], in nanoseconds: panics on a negative value, on
    one that is not finite and from 2^64 seconds on. *)
Definition from_secs_f64 (a : f64) : outcome Z :=
  match a with
  | S754_zero _ => Ret 0
  | S754_finite false m e =>
      if e <? 0 then
        if 2 ^ 64 * 2 ^ (- e) <=? Zpos m then Fault Panic
        else Ret (round_half_even (Zpos m * 1000000000) (2 ^ (- e)))
      else if 2 ^ 64 <=? Zpos m * 2 ^ e then Fault Panic
      else Ret (Zpos m * 2 ^ e * 1000000000)
  | _ => Fault Panic
  end.

(** ** Non-negative floats

    Scores and probabilities are sums and ratios of counts: never negative,
    never NaN.  On these floats the comparison is a total order. *)

Definition nonneg (a : f64) : bool :=
  match a with
  | S754_zero false | S754_infinity false | S754_finite false _ _ => true
  | _ => false
  end.

Definition positive64 (a : f64) : bool :=
  match a with
  | S754_infinity false | S754_finite false _ _ => true
  | _ => false
  end.

Definition finite_pos (a : f64) : bool :=
  match a with S754_finite false _ _ => true | _ => false end.

(** ** Lemmas: rounding *)

(** The nearest integer is at most half away. *)
Lemma round_half_even_near n d : 0 < d -> 2 * Z.abs (round_half_even n d * d - n) <= d.
Proof.
  intros Hd. unfold round_half_even. pose proof (Z.div_mod n d ltac:(lia)). pose proof (Z.mod_pos_bound n d Hd).
  repeat case_cmp_step; try destruct (Z.even _); nia.
Qed.

(** The duration of a number of seconds is off by at most half a nanosecond. *)
Lemma from_secs_near m e t :
  from_secs_f64 (S754_finite false m e) = Ret t ->
  0 <= t /\ 2 * Z.abs (t * 2 ^ Z.max 0 (- e) - Zpos m * 2 ^ Z.max 0 e * 1000000000) <= 2 ^ Z.max 0 (- e).
Proof.
  simpl. destruct (Z.ltb_spec e 0) as [He|He].
  - destruct (Z.leb_spec (2 ^ 64 * 2 ^ (- e)) (Zpos m)) as [_|_]; [done|]. intros [= <-].
    rewrite Z.max_r, (Z.max_l 0 e), Z.mul_1_r by lia. assert (Hp : 0 < 2 ^ (- e)) by (apply Z.pow_pos_nonneg; lia).
    split; [|by apply round_half_even_near]. unfold round_half_even.
    pose proof (Z.div_pos (Zpos m * 1000000000) (2 ^ (- e)) ltac:(lia) Hp). repeat case_match; lia.
  - destruct (Z.leb_spec (2 ^ 64) (Zpos m * 2 ^ e)) as [_|_]; [done|]. intros [= <-].
    rewrite (Z.max_l 0 (- e)), (Z.max_r 0 e) by lia. assert (0 <= 2 ^ e) by (apply Z.pow_nonneg; lia). lia.
Qed.

Lemma shr_1_m mrs : 0 <= shr_m mrs -> shr_m (shr_1 mrs) = shr_m mrs / 2.
Proof.
  destruct mrs as [[|p|p] r s]; cbn [shr_m]; intros Hp; try done; try lia.
  destruct p; cbn [shr_1 shr_m]; [| |done].
  - apply (Z.div_unique _ 2 _ 1); lia.
  - apply (Z.div_unique _ 2 _ 0); lia.
Qed.

Lemma iter_shr_m n : forall mrs,
  0 <= shr_m mrs -> shr_m (SpecFloat.iter_pos shr_1 n mrs) = shr_m mrs / 2 ^ Zpos n.
Proof.
  induction n as [n IH|n IH|]; intros mrs Hm; cbn [SpecFloat.iter_pos].
  - assert (0 <= shr_m (shr_1 mrs)) by (rewrite shr_1_m by done; apply Z.div_pos; lia).
    rewrite IH, IH, shr_1_m; [|done|done|rewrite IH by done; apply Z.div_pos; lia].
    rewrite !Z.div_div by lia. f_equal. rewrite <- !Z.pow_add_r, <- (Z.pow_1_r 2) at 1 by lia.
    rewrite <- Z.pow_add_r by lia. f_equal. lia.
  - rewrite IH, IH; [|done|rewrite IH by done; apply Z.div_pos; lia].
    rewrite Z.div_div by lia. f_equal. rewrite <- Z.pow_add_r by lia. f_equal. lia.
  - apply shr_1_m. done.
Qed.

Abbreviation digits p := (Zpos (digits2_pos p)).

Lemma digits_spec p : 2 ^ (digits p - 1) <= Zpos p < 2 ^ digits p.
Proof.
  induction p as [p IH|p IH|]; cbn [digits2_pos]; [| |simpl; lia];
    rewrite Pos2Z.inj_succ, Z.sub_succ_l, !Z.pow_succ_r by lia; lia.
Qed.

Lemma digits_unique p d : 0 < d -> 2 ^ (d - 1) <= Zpos p < 2 ^ d -> digits p = d.
Proof.
  intros Hd Hp. pose proof (digits_spec p) as Hs.
  destruct (Z.lt_total (digits p) d) as [H|[H|H]]; [|done|].
  - assert (2 ^ digits p <= 2 ^ (d - 1)) by (apply Z.pow_le_mono_r; lia). lia.
  - assert (2 ^ d <= 2 ^ (digits p - 1)) by (apply Z.pow_le_mono_r; lia). lia.
Qed.

(** Shifting a mantissa to the target exponent divides it. *)
Lemma shr_fexp_m m e l :
  0 <= m -> exists k, 0 <= k /\ k = Z.max 0 (fexp prec emax (Zdigits2 m + e) - e)
    /\ shr_m (shr_fexp prec emax m e l).1 = m / 2 ^ k
    /\ (shr_fexp prec emax m e l).2 = e + k.
Proof.
  intros Hm. unfold shr_fexp, shr.
  assert (Hl : shr_m (shr_record_of_loc m l) = m) by (by destruct l as [|[]]).
  destruct (fexp prec emax (Zdigits2 m + e) - e) as [|n|n] eqn:E; cbn [fst snd].
  - exists 0. rewrite Hl, Z.div_1_r. split_and!; lia.
  - exists (Zpos n). rewrite iter_shr_m, Hl by (rewrite Hl; lia). split_and!; done || lia.
  - exists 0. rewrite Hl, Z.div_1_r. split_and!; lia.
Qed.

Lemma round_nearest_even_range m l : m <= round_nearest_even m l <= m + 1.
Proof. destruct l as [|[]]; simpl; try lia. destruct (Z.even m); lia. Qed.

Lemma binary_round_aux_nonneg m e l :
  0 <= m -> nonneg (binary_round_aux prec emax false m e l) = true.
Proof.
  intros Hm. unfold binary_round_aux.
  destruct (shr_fexp_m m e l Hm) as (k & Hk & _ & H1 & H2).
  destruct (shr_fexp prec emax m e l) as [mrs e1]. cbn [fst snd] in *.
  pose proof (round_nearest_even_range (shr_m mrs) (loc_of_shr_record mrs)) as Hr.
  assert (0 <= shr_m mrs) by (rewrite H1; apply Z.div_pos; lia).
  destruct (shr_fexp_m (round_nearest_even (shr_m mrs) (loc_of_shr_record mrs)) e1 loc_Exact)
    as (k2 & Hk2 & _ & H3 & H4); [lia|].
  destruct (shr_fexp prec emax (round_nearest_even _ _) e1 loc_Exact) as [mrs2 e2].
  cbn [fst snd] in *. destruct (shr_m mrs2) as [|p|p] eqn:E; [done|by case_cmp_step|].
  assert (0 <= shr_m mrs2) by (rewrite E, H3; apply Z.div_pos; lia). lia.
Qed.

(** A mantissa of at least 53 digits and a moderate exponent round to a
    finite positive float. *)
Lemma binary_round_aux_finite p e l :
  53 <= digits p <= 64 -> -1000 <= e <= 900 ->
  finite_pos (binary_round_aux prec emax false (Zpos p) e l) = true.
Proof.
  intros Hd He. unfold binary_round_aux.
  destruct (shr_fexp_m (Zpos p) e l) as (k & Hk & Hk' & H1 & H2); [lia|].
  destruct (shr_fexp prec emax (Zpos p) e l) as [mrs e1]. cbn [fst snd] in *.
  unfold fexp, emin, prec, emax in Hk'. cbn [Zdigits2] in Hk'.
  assert (Hkd : k = digits p - 53) by lia. clear Hk'.
  pose proof (digits_spec p) as Hs.
  assert (Hm : 2 ^ 52 <= shr_m mrs < 2 ^ 53).
  { rewrite H1. split.
    - apply Z.div_le_lower_bound; [lia|]. rewrite <- Z.pow_add_r by lia.
      etrans; [|apply Hs]. apply Z.pow_le_mono_r; lia.
    - apply Z.div_lt_upper_bound; [lia|]. rewrite <- Z.pow_add_r by lia.
      eapply Z.lt_le_trans; [apply Hs|]. apply Z.pow_le_mono_r; lia. }
  pose proof (round_nearest_even_range (shr_m mrs) (loc_of_shr_record mrs)) as Hr.
  destruct (round_nearest_even _ _) as [|q|q] eqn:Eq; [lia| |lia].
  destruct (shr_fexp_m (Zpos q) e1 loc_Exact) as (k2 & Hk2 & Hk2' & H3 & H4); [lia|].
  destruct (shr_fexp prec emax (Zpos q) e1 loc_Exact) as [mrs2 e2]. cbn [fst snd] in *.
  unfold fexp, emin, prec, emax in Hk2'. cbn [Zdigits2] in Hk2'.
  assert (Hq : digits q <= 54).
  { pose proof (digits_spec q). destruct (decide (digits q <= 54)); [done|].
    assert (2 ^ 54 <= 2 ^ (digits q - 1)) by (apply Z.pow_le_mono_r; lia). lia. }
  assert (0 < shr_m mrs2).
  { rewrite H3. apply Z.div_str_pos. split; [lia|].
    etrans; [apply (Z.pow_le_mono_r 2 k2 1)|]; lia. }
  destruct (shr_m mrs2) as [|p2|p2]; [lia| |lia].
  rewrite (proj2 (Z.leb_le _ _)); [done|]. unfold prec, emax. lia.
Qed.

Lemma Pos_iter_xO p k : Zpos (Pos.iter xO p k) = Zpos p * 2 ^ Zpos k.
Proof.
  induction k as [|k IH] using Pos.peano_ind; [simpl; lia|].
  rewrite Pos.iter_succ, Pos2Z.inj_xO, IH, Pos2Z.inj_succ, Z.pow_succ_r by lia. lia.
Qed.

Lemma f64_of_Z_finite n : 0 < n < 2 ^ 64 -> finite_pos (f64_of_Z n) = true.
Proof.
  intros Hn. unfold f64_of_Z, binary_normalize. destruct n as [|p|p]; try lia.
  unfold binary_round. pose proof (digits_spec p) as Hs.
  assert (Hd : digits p <= 64).
  { destruct (decide (digits p <= 64)); [done|].
    assert (2 ^ 64 <= 2 ^ (digits p - 1)) by (apply Z.pow_le_mono_r; lia). lia. }
  unfold shl_align, fexp, emin, prec, emax.
  destruct (Z.max (digits p + 0 - 53) (3 - 1024 - 53) - 0) as [|k|k] eqn:E.
  - apply binary_round_aux_finite; lia.
  - apply binary_round_aux_finite; lia.
  - apply binary_round_aux_finite; [|lia].
    rewrite (digits_unique _ 53); [lia|lia|]. rewrite Pos_iter_xO.
    assert (Hk : Zpos k = 53 - digits p) by lia. rewrite Hk. split.
    + replace (53 - 1) with (digits p - 1 + (53 - digits p)) by lia.
      rewrite Z.pow_add_r by lia. nia.
    + replace 53 with (digits p + (53 - digits p)) at 2 by lia.
      rewrite (Z.pow_add_r 2 (digits p)) by lia. nia.
Qed.

Lemma f64_of_Z_nonneg n : 0 <= n -> nonneg (f64_of_Z n) = true.
Proof.
  intros Hn. unfold f64_of_Z, binary_normalize. destruct n as [|p|p]; [done| |lia].
  unfold binary_round. destruct (shl_align _ _ _) as [mz ez].
  by apply binary_round_aux_nonneg.
Qed.

(** A ratio of a non-negative float by a finite positive one is no NaN. *)
Lemma f64_div_nonneg a b :
  nonneg a = true -> finite_pos b = true -> nonneg (f64_div a b) = true.
Proof.
  intros Ha Hb. destruct b as [| | |[] mb eb]; try done.
  destruct a as [[]|[]| |[] ma ea]; try done. unfold f64_div, SFdiv. cbn [xorb].
  unfold SFdiv_core_binary.
  set (m' := match _ with Z0 => _ | Zpos _ => _ | Zneg _ => _ end).
  assert (0 <= m').
  { unfold m'. destruct (_ - _ - _); [lia| |lia]. apply Z.shiftl_nonneg. lia. }
  destruct (Z.div_eucl m' (Zpos mb)) as [q r] eqn:E.
  apply binary_round_aux_nonneg. pose proof (Z.div_pos m' (Zpos mb)) as Hd.
  unfold Z.div in Hd. rewrite E in Hd. lia.
Qed.

Lemma f64_add_nonneg a b :
  nonneg a = true -> nonneg b = true -> nonneg (f64_add a b) = true.
Proof.
  intros Ha Hb. destruct a as [[]|[]| |[] ma ea], b as [[]|[]| |[] mb eb]; try done.
  unfold f64_add, SFadd, binary_normalize. cbn [cond_Zopp].
  destruct (_ + _) as [|p|p] eqn:E; [done| |lia].
  unfold binary_round. destruct (shl_align p _ _) as [mz ez].
  by apply binary_round_aux_nonneg.
Qed.

(** ** The type of scores *)

Definition score : Type := { a : f64 | nonneg a = true }.

Lemma score_eq (a b : score) : `a = `b -> a = b.
Proof.
  destruct a as [a Ha], b as [b Hb]. simpl. intros ->. f_equal.
  apply Eqdep_dec.UIP_dec. apply bool_eq_dec.
Qed.

(** [OrderedFloat]'s comparison, on the floats that occur. *)
Definition score_le (a b : score) : bool := SFleb (`a) (`b).

Lemma finite_compare m1 e1 m2 e2 :
  SFcompare (S754_finite false m1 e1) (S754_finite false m2 e2)
  = Some (match e1 ?= e2 with Lt => Lt | Gt => Gt | Eq => (m1 ?= m2)%positive end).
Proof. done. Qed.

Global Program Instance score_total_ord : TotalOrd score := {| tle := score_le |}.
Next Obligation.
  intros [a Ha] [b Hb]. unfold score_le, SFleb. simpl.
  destruct a as [[]|[]| |[] m1 e1], b as [[]|[]| |[] m2 e2]; try done; auto.
  rewrite !finite_compare, (Z.compare_antisym e1 e2), (Pos.compare_antisym m1 m2).
  destruct (e1 ?= e2), (m1 ?= m2)%positive; simpl; auto.
Qed.
Next Obligation.
  intros [a Ha] [b Hb] [c Hc]. unfold score_le, SFleb. simpl.
  destruct a as [[]|[]| |[] m1 e1], b as [[]|[]| |[] m2 e2], c as [[]|[]| |[] m3 e3]; try done.
  rewrite !finite_compare.
  destruct (Z.compare_spec e1 e2), (Z.compare_spec e2 e3), (Z.compare_spec e1 e3); subst;
    try done; try lia.
  destruct (Pos.compare_spec m1 m2), (Pos.compare_spec m2 m3), (Pos.compare_spec m1 m3);
    subst; try done; lia.
Qed.
Next Obligation.
  intros [a Ha] [b Hb]. unfold score_le, SFleb. intros H1 H2. apply score_eq. revert H1 H2. simpl.
  destruct a as [[]|[]| |[] m1 e1], b as [[]|[]| |[] m2 e2]; try done.
  rewrite !finite_compare.
  destruct (Z.compare_spec e1 e2), (Z.compare_spec e2 e1); subst; try done; try lia.
  destruct (Pos.compare_spec m1 m2), (Pos.compare_spec m2 m1); subst; done || lia.
Qed.

(** [n as f64] for a count. *)
Program Definition score_of_count (n : Z) : score := f64_of_Z (Z.max 0 n).
Next Obligation. intros n. apply f64_of_Z_nonneg. lia. Qed.

(** [current + 1.0]. *)
Program Definition score_incr (a : score) : score := f64_add (`a) (f64_of_Z 1).
Next Obligation. intros [a Ha]. apply f64_add_nonneg; done. Qed.

(** [n as f64 / d as f64] for a positive [u64] divisor; the sources divide by
    nothing else. *)
Definition ratio64 (n d : Z) : f64 :=
  if decide (0 < d < 2 ^ 64) then f64_div (f64_of_Z (Z.max 0 n)) (f64_of_Z d)
  else S754_zero false.

Lemma ratio64_nonneg n d : nonneg (ratio64 n d) = true.
Proof.
  unfold ratio64. case_decide; [|done].
  apply f64_div_nonneg; [apply f64_of_Z_nonneg; lia|by apply f64_of_Z_finite].
Qed.

Definition score_ratio (n d : Z) : score := exist _ (ratio64 n d) (ratio64_nonneg n d).

Lemma score_ratio_val n d :
  0 <= n -> 0 < d < 2 ^ 64 -> proj1_sig (score_ratio n d) = f64_div (f64_of_Z n) (f64_of_Z d).
Proof.
  intros Hn Hd. unfold score_ratio, ratio64. cbn [proj1_sig]. rewrite decide_True by done.
  by rewrite Z.max_r.
Qed.

Global Instance score_eq_dec : EqDecision score.
Proof.
  intros a b. destruct (spec_float_eq_dec (proj1_sig a) (proj1_sig b)) as [He|Hn].
  - left. by apply score_eq.
  - right. by intros ->.
Defined.
