(* ===== verification/Rand.v ===== *)
(** * Random numbers

    The generators of the [rand] crates are outside the repository.  The code
    relies on one documented fact: a draw from an inclusive range lies in it. *)

From Stdlib Require Import SpecFloat.
From S2P Require Import Prelude Float.

Class Rng (R : Type) : Type := {
  (** [random_range(lo..=hi)] on integers. *)
  random_range : R -> Z -> Z -> Z * R;
  (** [random_range::<f64, _>(0f64..=1f64)]. *)
  random_unit : R -> f64 * R;
  random_range_in r lo hi : lo <= hi -> lo <= (random_range r lo hi).1 <= hi }.

(** A generator that replays a list of draws (reduced to the range asked for)
    and then counts; for closed examples. *)
Record replay : Type := mkReplay { draws : list Z; units : list f64; tick : Z }.

Definition replay_range (r : replay) (lo hi : Z) : Z * replay :=
  match draws r with
  | d :: ds => (lo + d mod Z.max 1 (hi - lo + 1), mkReplay ds (units r) (tick r))
  | [] => (lo + tick r mod Z.max 1 (hi - lo + 1), mkReplay [] (units r) (tick r + 1))
  end.

Definition replay_unit (r : replay) : f64 * replay :=
  match units r with
  | u :: us => (u, mkReplay (draws r) us (tick r))
  | [] => (S754_zero false, r)
  end.

Lemma replay_range_in r lo hi : lo <= hi -> lo <= (replay_range r lo hi).1 <= hi.
Proof.
  intros Hle. unfold replay_range.
  destruct (draws r) as [|d ds]; cbn [fst]; rewrite Z.max_r by lia.
  - pose proof (Z.mod_pos_bound (tick r) (hi - lo + 1)). lia.
  - pose proof (Z.mod_pos_bound d (hi - lo + 1)). lia.
Qed.

Global Instance replay_rng : Rng replay :=
  {| random_range := replay_range; random_unit := replay_unit;
     random_range_in := replay_range_in |}.

(** ** Fairness

    Loops that draw until a value fits rely on every value of the range coming
    up at some point. *)

Fixpoint nth_draw {R} `{Rng R} (n : nat) (rng : R) (lo hi : Z) : Z :=
  let '(v, rng) := random_range rng lo hi in
  match n with
  | O => v
  | S n => nth_draw n rng lo hi
  end.

Class FairRng (R : Type) `{Rng R} : Prop :=
  fair (rng : R) lo hi v : lo <= v <= hi -> exists n, nth_draw n rng lo hi = v.

Lemma nth_draw_tick n : forall us t lo hi,
  lo <= hi -> nth_draw n (mkReplay [] us t) lo hi = lo + (t + Z.of_nat n) mod (hi - lo + 1).
Proof.
  induction n as [|n IH]; intros us t lo hi Hle; simpl.
  - rewrite Z.max_r by lia. do 2 f_equal. lia.
  - rewrite IH by done. do 2 f_equal. lia.
Qed.

Global Instance replay_fair : FairRng replay.
Proof.
  intros [ds us t] lo hi v Hv. induction ds as [|d ds [n IH]].
  - exists (Z.to_nat ((v - lo - t) mod (hi - lo + 1))).
    pose proof (Z.mod_pos_bound (v - lo - t) (hi - lo + 1)).
    rewrite nth_draw_tick, Z2Nat.id, Zplus_mod_idemp_r by lia.
    replace (t + (v - lo - t)) with (v - lo) by lia. rewrite Z.mod_small; lia.
  - by exists (S n).
Qed.
