(* ===== verification/Ranges.v ===== *)
(** * Address ranges: [net/range.rs]

    The scan scope is a list of inclusive IPv4 ranges.  [exclude] subtracts
    the opt-out list from it, [compile] numbers the addresses that remain and
    [index] maps a number back to its address by binary search. *)

From S2P Require Import Prelude.

Record RangeInclusive : Type := mkRange { r_start : Z; r_last : Z }.

Record CompilationInfo : Type := mkInfo { ci_index : Z; ci_count : Z }.

Record Ranges (E C : Type) : Type :=
  mkRanges { inner : list (RangeInclusive * E); total : C }.
Arguments mkRanges {E C} _ _.
Arguments inner {E C} _.
Arguments total {E C} _.

Definition Ipv4Ranges : Type := Ranges unit unit.
Definition CompiledRanges : Type := Ranges CompilationInfo Z.

Definition into_inner {E C} (self : Ranges E C) : list (RangeInclusive * E) :=
  inner self.

(** [impl From<Vec<T>>]: one singleton range per address. *)
Definition from_addrs (value : list Ipv4Addr) : Ipv4Ranges :=
  mkRanges ((fun t => (mkRange t t, tt)) <$> value) tt.

(** [impl From<RangeInclusive<T>>]. *)
Definition from_range (value : RangeInclusive) : Ipv4Ranges :=
  mkRanges [(value, tt)] tt.

(** [impl From<Vec<RangeInclusive<T>>>]. *)
Definition from_ranges (value : list RangeInclusive) : Ipv4Ranges :=
  mkRanges ((fun range => (range, tt)) <$> value) tt.

(** ** [Ipv4Ranges::exclude] *)

(** The [loop] of [exclude]: [scan_range] and [exclude_range] are the current
    ranges, [scan_ranges] and [exclude_ranges] the iterators, [out] what has
    been pushed to [self.inner].  On [break] the rest of the scan iterator is
    appended. *)
Fixpoint exclude_loop (fuel : nat) (scan_range : RangeInclusive)
    (scan_ranges : list (RangeInclusive * unit)) (exclude_range : RangeInclusive)
    (exclude_ranges : list (RangeInclusive * unit))
    (out : list (RangeInclusive * unit)) : outcome (list (RangeInclusive * unit)) :=
  match fuel with
  | O => Fault OutOfFuel
  | S fuel =>
      let next_scan out :=
        match scan_ranges with
        | (new_range, _) :: scan_ranges =>
            exclude_loop fuel new_range scan_ranges exclude_range exclude_ranges out
        | [] => Ret out
        end in
      if r_last scan_range <? r_start exclude_range then
        next_scan (out ++ [(scan_range, tt)])
      else if r_last exclude_range <? r_start scan_range then
        match exclude_ranges with
        | (new_range, _) :: exclude_ranges =>
            exclude_loop fuel scan_range scan_ranges new_range exclude_ranges out
        | [] => Ret (out ++ [(scan_range, tt)] ++ scan_ranges)
        end
      else if (r_start scan_range <? r_start exclude_range)
              && (r_last exclude_range <? r_last scan_range) then
        let new_range := mkRange (r_start scan_range) (u32_of (r_start exclude_range - 1)) in
        exclude_loop fuel (mkRange (u32_of (r_last exclude_range + 1)) (r_last scan_range))
          scan_ranges exclude_range exclude_ranges (out ++ [(new_range, tt)])
      else if r_start scan_range <? r_start exclude_range then
        let new_range := mkRange (r_start scan_range) (u32_of (r_start exclude_range - 1)) in
        next_scan (out ++ [(new_range, tt)])
      else if r_last exclude_range <? r_last scan_range then
        exclude_loop fuel (mkRange (u32_of (r_last exclude_range + 1)) (r_last scan_range))
          scan_ranges exclude_range exclude_ranges out
      else next_scan out
  end.

(** Every iteration consumes a scan range, consumes an exclude range or moves
    the scan range past the current exclude range. *)
Definition exclude_fuel (scan exclude : list (RangeInclusive * unit)) : nat :=
  2 * length exclude + length scan + 1.

(** [mem::take] empties [self.inner] before the scan iterator is inspected,
    and an empty exclude list returns first. *)
Definition exclude (self exclude_ranges : Ipv4Ranges) : outcome Ipv4Ranges :=
  match inner exclude_ranges with
  | [] => Ret self
  | (exclude_range, _) :: exclude_rest =>
      match inner self with
      | [] => Ret (mkRanges [] (total self))
      | (scan_range, _) :: scan_rest =>
          match exclude_loop (exclude_fuel (inner self) (inner exclude_ranges))
                  scan_range scan_rest exclude_range exclude_rest [] with
          | Ret out => Ret (mkRanges out (total self))
          | Fault f => Fault f
          end
      end
  end.

(** ** [Ipv4Ranges::compile] *)

Fixpoint compile_loop (l : list (RangeInclusive * unit)) (ix : Z)
    : list (RangeInclusive * CompilationInfo) * Z :=
  match l with
  | [] => ([], ix)
  | (range, _) :: l =>
      let cnt := u64_of (r_last range - r_start range + 1) in
      let '(ranges, ix') := compile_loop l (u64_of (ix + cnt)) in
      ((mkRange (r_start range) (r_last range), mkInfo ix cnt) :: ranges, ix')
  end.

Definition compile (self : Ipv4Ranges) : CompiledRanges :=
  let '(ranges, ix) := compile_loop (inner self) 0 in
  mkRanges ranges ix.

(** ** [CompiledRanges::index] *)

(** The [while start < end] loop.  [get_unchecked] past the end of the vector
    is undefined behaviour; falling out of the loop panics. *)
Fixpoint index_loop (fuel : nat) (self : CompiledRanges) (ix lo hi : Z) : outcome Z :=
  match fuel with
  | O => Fault OutOfFuel
  | S fuel =>
      if lo <? hi then
        let mid := u64_of (lo + hi) / 2 in
        match inner self !! Z.to_nat mid with
        | None => Fault Undefined
        | Some (range, info) =>
            if u64_of (ci_index info + ci_count info) <=? ix then
              index_loop fuel self ix (mid + 1) hi
            else if ix <? ci_index info then index_loop fuel self ix lo mid
            else Ret (u32_of (r_start range + u32_of (ix - ci_index info)))
        end
      else Fault Panic
  end.

Definition index_fuel (self : CompiledRanges) : nat := S (length (inner self)).

Definition index (self : CompiledRanges) (ix : Z) : outcome Z :=
  index_loop (index_fuel self) self ix 0 (zlen (inner self)).

(** ** Specification *)

(** The set of addresses a list of ranges denotes. *)
Definition covers {E} (l : list (RangeInclusive * E)) (x : Z) : Prop :=
  Exists (fun p => r_start p.1 <= x <= r_last p.1) l.

(** Non-empty, pairwise disjoint ranges of 32-bit addresses in increasing
    order, none below [lo]. *)
Fixpoint ordered_from {E} (lo : Z) (l : list (RangeInclusive * E)) : Prop :=
  match l with
  | [] => True
  | p :: l =>
      lo <= r_start p.1 <= r_last p.1 /\ r_last p.1 < 2 ^ 32
      /\ ordered_from (r_last p.1 + 1) l
  end.

(** Non-empty ranges of 32-bit addresses in increasing order of their start;
    they may overlap and nest. *)
Fixpoint starts_sorted {E} (lo : Z) (l : list (RangeInclusive * E)) : Prop :=
  match l with
  | [] => True
  | p :: l =>
      lo <= r_start p.1 <= r_last p.1 /\ r_last p.1 < 2 ^ 32
      /\ starts_sorted (r_start p.1) l
  end.

(** The addresses of a list of ranges, in order. *)
Definition addrs {E} (l : list (RangeInclusive * E)) : list Z :=
  l ≫= (fun p => seqZ (r_start p.1) (r_last p.1 - r_start p.1 + 1)).
Arguments addrs : simpl never.

(** ** Lemmas *)

Lemma covers_nil {E} x : covers (@nil (RangeInclusive * E)) x <-> False.
Proof. unfold covers. rewrite Exists_nil. done. Qed.

Lemma covers_cons {E} (p : RangeInclusive * E) l x :
  covers (p :: l) x <-> r_start p.1 <= x <= r_last p.1 \/ covers l x.
Proof. apply Exists_cons. Qed.

Lemma covers_app {E} (l k : list (RangeInclusive * E)) x :
  covers (l ++ k) x <-> covers l x \/ covers k x.
Proof. apply Exists_app. Qed.

Create Rewrite HintDb covers.
#[export] Hint Rewrite @covers_nil @covers_cons @covers_app : covers.

Lemma ordered_from_weaken {E} lo lo' (l : list (RangeInclusive * E)) :
  lo' <= lo -> ordered_from lo l -> ordered_from lo' l.
Proof. destruct l; simpl; [done|]. intros ? (? & ? & ?). auto with lia. Qed.

Lemma ordered_from_bound {E} lo (l : list (RangeInclusive * E)) x :
  ordered_from lo l -> covers l x -> lo <= x < 2 ^ 32.
Proof.
  revert lo. induction l as [|p l IH]; intros lo Ho Hc.
  - by apply covers_nil in Hc.
  - destruct Ho as (? & ? & Ho). apply covers_cons in Hc as [?|Hc]; [lia|].
    specialize (IH _ Ho Hc). lia.
Qed.

Lemma starts_sorted_bound {E} lo (l : list (RangeInclusive * E)) x :
  starts_sorted lo l -> covers l x -> lo <= x.
Proof.
  revert lo. induction l as [|p l IH]; intros lo Ho Hc.
  - by apply covers_nil in Hc.
  - destruct Ho as (? & ? & Ho). apply covers_cons in Hc as [?|Hc]; [lia|].
    specialize (IH _ Ho Hc). lia.
Qed.

(** What the loop has still to produce: the difference of what is left of the
    two lists, in order. *)
Definition exclude_spec (lo : Z) (scan exclude r : list (RangeInclusive * unit)) : Prop :=
  ordered_from lo r /\ forall x, covers r x <-> covers scan x /\ ~ covers exclude x.

(** One lemma per branch of the loop body.  Throughout, [(s, tt) :: ss] is
    what is left to scan and [(e, tt) :: es] what is left to exclude. *)
Section branches.
Context (lo lo' : Z) (s e : RangeInclusive) (ss es : list (RangeInclusive * unit)).
Context (Hscan : ordered_from lo ((s, tt) :: ss)).
Context (Hexclude : starts_sorted lo' ((e, tt) :: es)).

Local Ltac unfold_spec :=
  destruct Hscan as (? & ? & ?), Hexclude as (? & ? & ?); simpl in *;
  intros [Ho Hr]; split;
    [simpl; repeat split; try lia; eapply ordered_from_weaken; [|exact Ho]; lia|];
  intros x; rewrite ?covers_cons, Hr, ?covers_cons; simpl;
  pose proof (starts_sorted_bound (r_start e) es x);
  pose proof (ordered_from_bound (r_last s + 1) ss x).

Lemma spec_keep r :
  r_last s < r_start e -> exclude_spec (r_last s + 1) ss ((e, tt) :: es) r ->
  exclude_spec lo ((s, tt) :: ss) ((e, tt) :: es) ((s, tt) :: r).
Proof. intros Hc. unfold_spec. intuition lia. Qed.

Lemma spec_next_exclude r :
  r_last e < r_start s -> exclude_spec lo ((s, tt) :: ss) es r ->
  exclude_spec lo ((s, tt) :: ss) ((e, tt) :: es) r.
Proof. intros Hc. unfold_spec. intuition lia. Qed.

Lemma spec_cut r :
  r_start s < r_start e <= r_last s -> r_last e < r_last s ->
  exclude_spec (r_last e + 1) ((mkRange (r_last e + 1) (r_last s), tt) :: ss)
    ((e, tt) :: es) r ->
  exclude_spec lo ((s, tt) :: ss) ((e, tt) :: es)
    ((mkRange (r_start s) (r_start e - 1), tt) :: r).
Proof.
  intros Hc1 Hc2. unfold_spec.
  destruct (decide (x < r_start e)), (decide (x <= r_last e)); intuition lia.
Qed.

Lemma spec_left r :
  r_start s < r_start e <= r_last s -> r_last s <= r_last e ->
  exclude_spec (r_last s + 1) ss ((e, tt) :: es) r ->
  exclude_spec lo ((s, tt) :: ss) ((e, tt) :: es)
    ((mkRange (r_start s) (r_start e - 1), tt) :: r).
Proof.
  intros Hc1 Hc2. unfold_spec.
  destruct (decide (x < r_start e)), (decide (x <= r_last e)); intuition lia.
Qed.

Lemma spec_right r :
  r_start e <= r_start s <= r_last e -> r_last e < r_last s ->
  exclude_spec (r_last e + 1) ((mkRange (r_last e + 1) (r_last s), tt) :: ss)
    ((e, tt) :: es) r ->
  exclude_spec lo ((s, tt) :: ss) ((e, tt) :: es) r.
Proof.
  intros Hc1 Hc2. unfold_spec. destruct (decide (x <= r_last e)); intuition lia.
Qed.

Lemma spec_drop r :
  r_start e <= r_start s -> r_last s <= r_last e ->
  exclude_spec (r_last s + 1) ss ((e, tt) :: es) r ->
  exclude_spec lo ((s, tt) :: ss) ((e, tt) :: es) r.
Proof. intros Hc1 Hc2. unfold_spec. intuition lia. Qed.

End branches.

Lemma spec_no_exclude lo scan :
  ordered_from lo scan -> exclude_spec lo scan [] scan.
Proof. intros Ho. split; [done|]. intros x. rewrite covers_nil. tauto. Qed.

Lemma spec_no_scan lo ee : exclude_spec lo [] ee [].
Proof. split; [done|]. intros x. rewrite covers_nil. tauto. Qed.

(** Every turn of the loop makes this smaller. *)
Definition exclude_measure (s e : RangeInclusive) (ss es : list (RangeInclusive * unit))
    : nat :=
  2 * length es + length ss + (if r_start s <=? r_last e then 1 else 0).

Lemma u32_of_small z : 0 <= z < 2 ^ 32 -> u32_of z = z.
Proof. apply wrap_small. Qed.

Lemma exclude_loop_ok fuel : forall lo s ss e es lo' out,
  (exclude_measure s e ss es < fuel)%nat -> 0 <= lo -> 0 <= lo' ->
  ordered_from lo ((s, tt) :: ss) -> starts_sorted lo' ((e, tt) :: es) ->
  exists r, exclude_loop fuel s ss e es out = Ret (out ++ r)
    /\ exclude_spec lo ((s, tt) :: ss) ((e, tt) :: es) r.
Proof.
  induction fuel as [|fuel IH]; intros lo s ss e es lo' out Hm Hlo Hlo' Hss Hes; [lia|].
  pose proof Hss as (Hs1 & Hs2 & Hss'). pose proof Hes as (He1 & He2 & Hes').
  unfold exclude_measure in *. simpl in *.
  (* the loop goes on with the next scan range, if there is one *)
  assert (Hnext : forall out', r_start s <= r_last e -> exists r,
    match ss with
    | [] => Ret out'
    | (new_range, _) :: scan_ranges => exclude_loop fuel new_range scan_ranges e es out'
    end = Ret (out' ++ r) /\ exclude_spec (r_last s + 1) ss ((e, tt) :: es) r).
  { intros out' Hf. destruct ss as [|[s' []] ss'].
    - exists []. rewrite app_nil_r. eauto using spec_no_scan.
    - eapply (IH _ _ _ _ _ lo'); simpl in *; eauto with lia. case_cmp. }
  (* the loop goes on with the part of the scan range behind the exclude range *)
  assert (Hmove : forall out', r_start s <= r_last e < r_last s -> exists r,
    exclude_loop fuel (mkRange (u32_of (r_last e + 1)) (r_last s)) ss e es out' = Ret (out' ++ r)
    /\ exclude_spec (r_last e + 1) ((mkRange (r_last e + 1) (r_last s), tt) :: ss)
         ((e, tt) :: es) r).
  { intros out' Hf. rewrite u32_of_small by lia.
    eapply (IH _ _ _ _ _ lo'); simpl; eauto with lia. case_cmp. }
  case_cmp_step.
  { destruct (Hnext (out ++ [(s, tt)])) as (r & -> & Hr); [lia|].
    rewrite <- app_assoc. eauto using spec_keep. }
  case_cmp_step.
  { destruct es as [|[e' []] es']; [eauto 6 using spec_next_exclude, spec_no_exclude|].
    destruct (IH lo s ss e' es' (r_start e) out) as (r & Hr & Hspec); simpl; eauto with lia.
    { case_cmp. }
    eauto using spec_next_exclude. }
  clear Hm. repeat case_cmp_step; cbn [andb]; try rewrite (u32_of_small (r_start e - 1)) by lia.
  - destruct (Hmove (out ++ [(mkRange (r_start s) (r_start e - 1), tt)])) as (r & -> & Hr);
      [lia|]. rewrite <- app_assoc. eauto using spec_cut.
  - destruct (Hnext (out ++ [(mkRange (r_start s) (r_start e - 1), tt)])) as (r & -> & Hr);
      [lia|]. rewrite <- app_assoc. eauto using spec_left.
  - destruct (Hmove out) as (r & -> & Hr); [lia|]. eauto using spec_right.
  - destruct (Hnext out) as (r & -> & Hr); [lia|]. eauto using spec_drop.
Qed.

Lemma exclude_fuel_ok s e ss es :
  (exclude_measure s e ss es < exclude_fuel ((s, tt) :: ss) ((e, tt) :: es))%nat.
Proof. unfold exclude_measure, exclude_fuel. simpl. case_cmp. Qed.

Lemma exclude_ok lo lo' self ex :
  0 <= lo -> 0 <= lo' -> ordered_from lo (inner self) -> starts_sorted lo' (inner ex) ->
  exists r, exclude self ex = Ret r /\ exclude_spec lo (inner self) (inner ex) (inner r).
Proof.
  destruct self as [scan []], ex as [exc []]. unfold exclude. simpl. intros ?? Hs He.
  destruct exc as [|[e []] es]; [eauto using spec_no_exclude|].
  destruct scan as [|[s []] ss]; [eauto using spec_no_scan|].
  destruct (exclude_loop_ok _ lo s ss e es lo' [] (exclude_fuel_ok s e ss es))
    as (r & -> & Hr); simpl; eauto.
Qed.

(** ** Compilation *)

Lemma addrs_cons {E} (p : RangeInclusive * E) l :
  addrs (p :: l) = seqZ (r_start p.1) (r_last p.1 - r_start p.1 + 1) ++ addrs l.
Proof. done. Qed.

Lemma addrs_app {E} (l k : list (RangeInclusive * E)) : addrs (l ++ k) = addrs l ++ addrs k.
Proof. apply bind_app. Qed.

Lemma elem_of_addrs {E} (l : list (RangeInclusive * E)) x : x ∈ addrs l <-> covers l x.
Proof.
  induction l as [|p l IH]; [by rewrite covers_nil, elem_of_nil|].
  rewrite addrs_cons, elem_of_app, covers_cons, IH, elem_of_seqZ. intuition lia.
Qed.

Lemma addrs_NoDup {E} lo (l : list (RangeInclusive * E)) :
  ordered_from lo l -> NoDup (addrs l).
Proof.
  revert lo. induction l as [|p l IH]; intros lo Ho; [constructor|].
  destruct Ho as (? & ? & Ho). rewrite addrs_cons. apply NoDup_app.
  split_and!; [apply NoDup_seqZ| |eauto].
  intros x Hx Hl. apply elem_of_seqZ in Hx. apply elem_of_addrs in Hl.
  eapply ordered_from_bound in Hl; [|done]. lia.
Qed.

Lemma length_addrs_cons {E} (p : RangeInclusive * E) l :
  r_start p.1 <= r_last p.1 ->
  zlen (addrs (p :: l)) = r_last p.1 - r_start p.1 + 1 + zlen (addrs l).
Proof. intros. rewrite addrs_cons, length_app, length_seqZ. lia. Qed.

Lemma length_addrs_bound {E} lo (l : list (RangeInclusive * E)) :
  0 <= lo <= 2 ^ 32 -> ordered_from lo l -> zlen (addrs l) <= 2 ^ 32 - lo.
Proof.
  revert lo. induction l as [|p l IH]; intros lo Hlo Ho; [simpl; lia|].
  destruct Ho as (? & ? & Ho). rewrite length_addrs_cons by lia.
  specialize (IH (r_last p.1 + 1) ltac:(lia) Ho). lia.
Qed.

Lemma length_le_addrs {E} lo (l : list (RangeInclusive * E)) :
  ordered_from lo l -> (length l <= length (addrs l))%nat.
Proof.
  revert lo. induction l as [|p l IH]; intros lo Ho; [simpl; lia|].
  destruct Ho as (? & ? & Ho). rewrite addrs_cons, length_app, length_seqZ. simpl.
  specialize (IH _ Ho). lia.
Qed.

(** The prefix of the table before entry [i], the invariant of a compiled
    table: each entry starts where the addresses before it end. *)
Definition compiled_entry (l : list (RangeInclusive * unit)) (base : Z) (i : nat)
    (r : RangeInclusive) (info : CompilationInfo) : Prop :=
  l !! i = Some (r, tt) /\ ci_index info = base + zlen (addrs (take i l))
  /\ ci_count info = r_last r - r_start r + 1.

Lemma compile_loop_ok lo l : forall base,
  0 <= lo <= 2 ^ 32 -> ordered_from lo l -> 0 <= base <= lo ->
  (compile_loop l base).2 = base + zlen (addrs l)
  /\ length (compile_loop l base).1 = length l
  /\ forall i r info, (compile_loop l base).1 !! i = Some (r, info) ->
       compiled_entry l base i r info.
Proof.
  revert lo. induction l as [|[s []] l IH]; intros lo base Hlo Ho Hb.
  { simpl. split_and!; [lia|done|by intros]. }
  pose proof (length_addrs_bound _ _ Hlo Ho) as Hlen.
  destruct Ho as (Hs & Hs2 & Ho). simpl in Hs, Hs2, Ho.
  rewrite length_addrs_cons in Hlen by (simpl; lia). simpl in Hlen.
  cbn [compile_loop].
  assert (Hc : u64_of (r_last s - r_start s + 1) = r_last s - r_start s + 1)
    by (apply wrap_small; unfold in_width; lia).
  rewrite Hc. assert (Hb2 : u64_of (base + (r_last s - r_start s + 1))
    = base + (r_last s - r_start s + 1)) by (apply wrap_small; unfold in_width; lia).
  rewrite Hb2.
  destruct (IH (r_last s + 1) (base + (r_last s - r_start s + 1))) as (IH1 & IH2 & IH3);
    [lia|done|lia|].
  destruct (compile_loop l _) as [t ix]. simpl in *. rewrite addrs_cons, length_app, length_seqZ.
  simpl. split; [lia|]. split; [lia|].
  intros [|i] r info Hi; simpl in Hi.
  - simplify_eq. unfold compiled_entry. simpl. destruct s. split_and!; [done|lia|done].
  - apply IH3 in Hi as (? & Hix & ?). unfold compiled_entry in *. simpl.
    split_and!; [done| |done]. rewrite addrs_cons, length_app, length_seqZ. simpl. lia.
Qed.

(** ** Lookup by binary search *)

(** The addresses before entry [i + 1] are those before entry [i] and the
    entry's own. *)
Lemma length_addrs_take_S {E} (l : list (RangeInclusive * E)) i p :
  l !! i = Some p -> r_start p.1 <= r_last p.1 ->
  zlen (addrs (take (S i) l)) = zlen (addrs (take i l)) + (r_last p.1 - r_start p.1 + 1).
Proof.
  intros Hi Hp. rewrite (take_S_r l i p Hi), addrs_app, length_app, addrs_cons, length_app.
  rewrite length_seqZ. simpl. lia.
Qed.

Lemma length_addrs_take_le {E} (l : list (RangeInclusive * E)) i j :
  (i <= j)%nat -> (length (addrs (take i l)) <= length (addrs (take j l)))%nat.
Proof.
  intros Hij. rewrite <- (take_drop i (take j l)), addrs_app, length_app, take_take.
  rewrite (Nat.min_l i j) by lia. lia.
Qed.

Lemma lookup_addrs {E} (l : list (RangeInclusive * E)) i p k :
  l !! i = Some p -> 0 <= k <= r_last p.1 - r_start p.1 ->
  addrs l !! (length (addrs (take i l)) + Z.to_nat k)%nat = Some (r_start p.1 + k).
Proof.
  intros Hi Hk. assert (addrs l = addrs (take i l) ++ addrs (p :: drop (S i) l)) as ->.
  { by rewrite <- addrs_app, take_drop_middle. }
  rewrite lookup_app_r by lia. rewrite addrs_cons, lookup_app_l by (rewrite length_seqZ; lia).
  rewrite lookup_seqZ. lia.
Qed.

Lemma ordered_from_lookup {E} lo (l : list (RangeInclusive * E)) i p :
  ordered_from lo l -> l !! i = Some p ->
  lo <= r_start p.1 <= r_last p.1 /\ r_last p.1 < 2 ^ 32.
Proof.
  revert lo i. induction l as [|q l IH]; intros lo [|i] Ho Hi; simplify_eq/=; [lia|].
  destruct Ho as (? & ? & Ho). destruct (IH _ _ Ho Hi). lia.
Qed.

Section index_search.
Context (r : Ipv4Ranges) (lo : Z) (Hlo : 0 <= lo <= 2 ^ 32).
Context (Hord : ordered_from lo (inner r)).

(** The table the search runs on: as many entries as ranges, each with the
    range and the number of addresses before it. *)
Lemma compile_entry i :
  (i < length (inner r))%nat -> exists s info,
    inner (compile r) !! i = Some (s, info) /\ compiled_entry (inner r) 0 i s info
    /\ 0 <= r_start s <= r_last s /\ r_last s < 2 ^ 32.
Proof.
  intros Hi. destruct (compile_loop_ok lo (inner r) 0) as (_ & Hlen & Hent); [lia|done|lia|].
  unfold compile. destruct (compile_loop (inner r) 0) as [t ix]. simpl in *.
  destruct (lookup_lt_is_Some_2 t i) as [[s info] Hs]; [lia|].
  exists s, info. pose proof (Hent _ _ _ Hs) as He. split; [done|]. split; [done|].
  destruct He as (Hl & _). apply (ordered_from_lookup lo) in Hl; simpl in *; auto with lia.
Qed.

Lemma compile_length : length (inner (compile r)) = length (inner r).
Proof.
  destruct (compile_loop_ok lo (inner r) 0) as (_ & Hlen & _); [lia|done|lia|].
  unfold compile. by destruct (compile_loop (inner r) 0).
Qed.

Lemma compile_total : total (compile r) = zlen (addrs (inner r)).
Proof.
  destruct (compile_loop_ok lo (inner r) 0) as (Ht & _); [lia|done|lia|].
  unfold compile. by destruct (compile_loop (inner r) 0).
Qed.

(** What the loop reads at the midpoint of [a, b). *)
Lemma index_mid a b :
  (a < b <= length (inner r))%nat -> exists mid s info,
    u64_of (Z.of_nat a + Z.of_nat b) / 2 = Z.of_nat mid /\ (a <= mid < b)%nat
    /\ inner (compile r) !! mid = Some (s, info) /\ inner r !! mid = Some (s, tt)
    /\ ci_index info = zlen (addrs (take mid (inner r)))
    /\ u64_of (ci_index info + ci_count info) = zlen (addrs (take (S mid) (inner r)))
    /\ zlen (addrs (take (S mid) (inner r))) = ci_index info + (r_last s - r_start s + 1)
    /\ zlen (addrs (take (S mid) (inner r))) <= zlen (addrs (inner r)) <= 2 ^ 32
    /\ 0 <= r_start s <= r_last s /\ r_last s < 2 ^ 32.
Proof.
  intros Hab. pose proof (length_le_addrs _ _ Hord).
  pose proof (length_addrs_bound lo (inner r) Hlo Hord).
  assert (exists mid, u64_of (Z.of_nat a + Z.of_nat b) / 2 = Z.of_nat mid /\ (a <= mid < b)%nat)
    as (mid & Heq & Hmid).
  { exists ((a + b) / 2)%nat. unfold u64_of.
    rewrite wrap_small, Nat2Z.inj_div by (unfold in_width; lia). split; [f_equal; lia|].
    split; [apply Nat.div_le_lower_bound|apply Nat.Div0.div_lt_upper_bound]; lia. }
  destruct (compile_entry mid) as (s & info & ? & (He1 & He2 & He3) & Hs); [lia|].
  exists mid, s, info.
  pose proof (length_addrs_take_S _ _ _ He1 ltac:(simpl; lia)) as HS. cbn [fst] in HS.
  pose proof (length_addrs_take_le (inner r) (S mid) (length (inner r)) ltac:(lia)) as HT.
  rewrite firstn_all in HT. unfold u64_of in *.
  rewrite (wrap_small 64 (ci_index info + _)) by (unfold in_width; lia).
  split_and!; done || lia.
Qed.

(** The search keeps the sought number between the addresses before entry
    [a] and the addresses before entry [b]. *)
Lemma index_loop_ok fuel : forall a b ix,
  (a <= b <= length (inner r))%nat -> (b - a < fuel)%nat ->
  zlen (addrs (take a (inner r))) <= ix < zlen (addrs (take b (inner r))) ->
  exists x, index_loop fuel (compile r) ix (Z.of_nat a) (Z.of_nat b) = Ret x
    /\ addrs (inner r) !! Z.to_nat ix = Some x.
Proof.
  induction fuel as [|fuel IH]; intros a b ix Hab Hf Hix; [lia|].
  assert (a < b)%nat as Hlt by (destruct (decide (a = b)) as [->|]; lia).
  cbn [index_loop]. rewrite (proj2 (Z.ltb_lt _ _)) by lia. cbv zeta.
  destruct (index_mid a b) as (mid & s & info & -> & Hmid & Hl & He & Hci & Hsum & HS & HT & Hs);
    [lia|]. rewrite Nat2Z.id, Hl, Hsum.
  destruct (Z.leb_spec (zlen (addrs (take (S mid) (inner r)))) ix).
  { replace (Z.of_nat mid + 1) with (Z.of_nat (S mid)) by lia. apply IH; lia. }
  case_cmp_step; [apply IH; lia|].
  assert (Hk : 0 <= ix - ci_index info <= r_last s - r_start s) by lia.
  exists (r_start s + (ix - ci_index info)). unfold u32_of.
  rewrite (wrap_small 32 (ix - _)), wrap_small by (unfold in_width; lia). split; [done|].
  pose proof (lookup_addrs _ _ _ _ He Hk) as HL. simpl in HL. rewrite <- HL. f_equal. lia.
Qed.

Lemma index_loop_panics fuel : forall a ix,
  (a <= length (inner r) < fuel + a)%nat -> zlen (addrs (inner r)) <= ix ->
  index_loop fuel (compile r) ix (Z.of_nat a) (zlen (inner r)) = Fault Panic.
Proof.
  induction fuel as [|fuel IH]; intros a ix Ha Hix; [lia|]. cbn [index_loop].
  destruct (Z.ltb_spec (Z.of_nat a) (zlen (inner r))); [|done]. cbv zeta.
  destruct (index_mid a (length (inner r)))
    as (mid & s & info & -> & Hmid & Hl & He & Hci & Hsum & HS & HT & Hs); [lia|].
  rewrite Nat2Z.id, Hl, Hsum, (proj2 (Z.leb_le _ _)) by lia.
  replace (Z.of_nat mid + 1) with (Z.of_nat (S mid)) by lia. apply IH; lia.
Qed.

Lemma index_ok ix x :
  0 <= ix -> addrs (inner r) !! Z.to_nat ix = Some x -> index (compile r) ix = Ret x.
Proof.
  intros Hix Hx. pose proof (lookup_lt_Some _ _ _ Hx).
  destruct (index_loop_ok (index_fuel (compile r)) 0 (length (inner r)) ix) as (y & Hy & Hl).
  - lia.
  - unfold index_fuel. rewrite compile_length. lia.
  - rewrite firstn_all. unfold addrs at 1. simpl. lia.
  - unfold index. rewrite compile_length. simplify_eq. done.
Qed.

Lemma index_panics ix : total (compile r) <= ix -> index (compile r) ix = Fault Panic.
Proof.
  rewrite compile_total. intros Hix. unfold index, index_fuel. rewrite compile_length.
  apply (index_loop_panics _ 0); [lia|done].
Qed.

End index_search.

(** ** Properties *)

(** C1: subtracting the opt-out list terminates without a fault and leaves
    exactly the addresses that were in scope and are not opted out, as ranges
    that are again ordered and disjoint; the opt-out ranges may overlap and
    nest, as those of [exclude.conf] do. *)
Theorem exclude_correct (self ex : Ipv4Ranges) :
  ordered_from 0 (inner self) -> starts_sorted 0 (inner ex) ->
  exists r, exclude self ex = Ret r
    /\ ordered_from 0 (inner r)
    /\ forall x, covers (inner r) x <-> covers (inner self) x /\ ~ covers (inner ex) x.
Proof.
  intros Hs He. destruct (exclude_ok 0 0 self ex) as (r & ? & ?); [lia..|done|done|].
  by exists r.
Qed.

(** A compiled table counts the addresses of the ranges and looks up the
    [ix]-th of them, in order, for every index below the count; from the count
    on the lookup panics.  No access outside the table happens. *)
Theorem compile_index (r : Ipv4Ranges) (ix : Z) :
  ordered_from 0 (inner r) -> 0 <= ix ->
  NoDup (addrs (inner r)) /\ (forall x, x ∈ addrs (inner r) <-> covers (inner r) x)
  /\ total (compile r) = zlen (addrs (inner r))
  /\ index (compile r) ix =
       match addrs (inner r) !! Z.to_nat ix with Some x => Ret x | None => Fault Panic end.
Proof.
  intros Ho Hix. split_and!; [by eapply addrs_NoDup|apply elem_of_addrs| |].
  - by apply (compile_total _ 0).
  - destruct (addrs (inner r) !! Z.to_nat ix) as [x|] eqn:E.
    + by apply (index_ok r 0).
    + apply (index_panics r 0); [lia|done|]. rewrite (compile_total r 0) by (done || lia).
      apply lookup_ge_None in E. lia.
Qed.

(** ** Witnesses *)

Definition ex_scan : Ipv4Ranges := from_range (mkRange 0 (2 ^ 32 - 1)).
Definition ex_exclude : Ipv4Ranges :=
  from_ranges [mkRange 0 16777215; mkRange 3221225472 3221225727;
               mkRange 3221225472 3221225479; mkRange 3758096384 4294967295].

Lemma exclude_correct_witness :
  exists r, exclude ex_scan ex_exclude = Ret r
    /\ ordered_from 0 (inner r)
    /\ forall x, covers (inner r) x <-> covers (inner ex_scan) x /\ ~ covers (inner ex_exclude) x.
Proof. apply (exclude_correct ex_scan ex_exclude); cbn; lia. Defined.

Lemma compile_index_witness :
  index (compile (from_ranges [mkRange 5 6; mkRange 9 9])) 2 = Ret 9.
Proof.
  destruct (compile_index (from_ranges [mkRange 5 6; mkRange 9 9]) 2) as (_ & _ & _ & H);
    [cbn; lia|lia|exact H].
Defined.
