(* ===== verification/Text.v ===== *)
(** * Text: what the sources use of [str], and [exclude.rs]

    A string is the list of its characters, as code points.  [exclude.rs]
    reads the opt-out list, [xdp/page.rs] the size of a huge page. *)

From S2P Require Import Prelude Ranges.

Abbreviation str := (list Z).

(** ** [str] *)

(** [char::is_whitespace]. *)
Definition is_whitespace (c : Z) : bool :=
  ((9 <=? c) && (c <=? 13)) || (c =? 32) || (c =? 133) || (c =? 160) || (c =? 5760)
  || ((8192 <=? c) && (c <=? 8202)) || (c =? 8232) || (c =? 8233) || (c =? 8239) || (c =? 8287)
  || (c =? 12288).

Fixpoint trim_start (s : str) : str :=
  match s with
  | c :: s' => if is_whitespace c then trim_start s' else s
  | [] => []
  end.

Definition trim (s : str) : str := rev (trim_start (rev (trim_start s))).

(** A line ends with a line feed, or with a carriage return and a line feed. *)
Definition strip_cr (line : str) : str :=
  match rev line with
  | c :: r => if c =? 13 then rev r else line
  | [] => line
  end.

Fixpoint lines_loop (s line : str) : list str :=
  match s with
  | [] => match line with [] => [] | _ => [line] end
  | c :: s => if c =? 10 then strip_cr line :: lines_loop s [] else lines_loop s (line ++ [c])
  end.

Definition lines (s : str) : list str := lines_loop s [].

(** [split] by a character: the first piece and the others. *)
Fixpoint split_on (sep : Z) (s : str) : str * list str :=
  match s with
  | [] => ([], [])
  | c :: s =>
      let '(p, ps) := split_on sep s in
      if c =? sep then ([], p :: ps) else (c :: p, ps)
  end.

Definition contains_char (s : str) (c : Z) : bool := existsb (Z.eqb c) s.

Fixpoint strip_prefix (s prefix : str) : option str :=
  match prefix with
  | [] => Some s
  | p :: prefix =>
      match s with
      | c :: s => if c =? p then strip_prefix s prefix else None
      | [] => None
      end
  end.

(** [split_whitespace]: the pieces that are not empty. *)
Fixpoint split_ws_loop (s word : str) : list str :=
  match s with
  | [] => match word with [] => [] | _ => [word] end
  | c :: s =>
      if is_whitespace c then
        match word with [] => split_ws_loop s [] | _ => word :: split_ws_loop s [] end
      else split_ws_loop s (word ++ [c])
  end.

Definition split_whitespace (s : str) : list str := split_ws_loop s [].

Definition digit (c : Z) : option Z := if (48 <=? c) && (c <=? 57) then Some (c - 48) else None.

(** [parse] of an unsigned integer type with maximum [max]. *)
Fixpoint parse_digits (max acc : Z) (s : str) : option Z :=
  match s with
  | [] => Some acc
  | c :: s =>
      d ← digit c;
      let acc := acc * 10 + d in
      if max <? acc then None else parse_digits max acc s
  end.

Definition parse_uint (max : Z) (s : str) : option Z :=
  match s with
  | [] => None
  | c :: rest =>
      if c =? 43 then match rest with [] => None | _ => parse_digits max 0 rest end
      else parse_digits max 0 s
  end.

(** ** [Ipv4Addr::from_str] *)

(** [read_number] of a byte in decimal: at most three digits, no leading zero. *)
Fixpoint read_octet_loop (s : str) (acc count : Z) : option (Z * Z * str) :=
  match s with
  | [] => Some (acc, count, [])
  | c :: s' =>
      match digit c with
      | None => Some (acc, count, s)
      | Some d =>
          let acc := acc * 10 + d in
          if (255 <? acc) || (3 <? count + 1) then None else read_octet_loop s' acc (count + 1)
      end
  end.

Definition read_octet (s : str) : option (Z * str) :=
  '(v, count, rest) ← read_octet_loop s 0 0;
  if count =? 0 then None
  else if bool_decide (head s = Some 48) && (1 <? count) then None
  else Some (v, rest).

Definition read_char (c : Z) (s : str) : option str :=
  match s with x :: s => if x =? c then Some s else None | [] => None end.

Definition ipv4_from_str (s : str) : option Ipv4Addr :=
  if 15 <? zlen s then None
  else
    '(a, s) ← read_octet s;
    s ← read_char 46 s; '(b, s) ← read_octet s;
    s ← read_char 46 s; '(c, s) ← read_octet s;
    s ← read_char 46 s; '(d, s) ← read_octet s;
    match s with [] => Some (be32 a b c d) | _ => None end.

(** ** [exclude.rs] *)

(** [?] on an [Option] seen as a [Result]. *)
Definition ok_or {T} (o : option T) : result unit T :=
  match o with Some x => Ok x | None => Err tt end.

(** The range of [ip/mask]; [32 - mask] is a [u8] and [2u32.pow] a [u32], and
    both wrap. *)
Definition cidr (ip : Ipv4Addr) (mask : Z) : RangeInclusive :=
  let mask := u8_of (32 - mask) in
  let mask_bits := u32_of (u32_of (2 ^ mask) - 1) in
  mkRange (Z.land ip (u32_of (Z.lnot mask_bits))) (Z.lor ip mask_bits).

(** What is left of a line without its remark. *)
Definition parse_range (line : str) : result unit RangeInclusive :=
  let is_slash := contains_char line 47 in
  let is_hypen := contains_char line 45 in
  if is_slash && is_hypen then Err tt
  else if is_slash then
    let '(ip, parts) := split_on 47 line in
    match parts with
    | [] => Err tt
    | mask :: _ =>
        mask ← ok_or (parse_uint 255 mask);
        ip ← ok_or (ipv4_from_str ip);
        Ok (cidr ip mask)
    end
  else if is_hypen then
    let '(ip_start, parts) := split_on 45 line in
    match parts with
    | [] => Err tt
    | ip_end :: _ =>
        ip_start ← ok_or (ipv4_from_str ip_start);
        ip_end ← ok_or (ipv4_from_str ip_end);
        if ip_end <? ip_start then Err tt else Ok (mkRange ip_start ip_end)
    end
  else
    ip ← ok_or (ipv4_from_str line);
    Ok (mkRange ip ip).

(** One turn of the [for]; [None] is [continue]. *)
Definition parse_line (line : str) : result unit (option RangeInclusive) :=
  let line := trim line in
  if bool_decide (line = []) || bool_decide (head line = Some 35) then Ok None
  else
    range ← parse_range (trim (split_on 35 line).1);
    Ok (Some range).

Fixpoint parse_lines (ls : list str) (ranges : list RangeInclusive)
    : result unit (list RangeInclusive) :=
  match ls with
  | [] => Ok ranges
  | line :: ls =>
      r ← parse_line line;
      parse_lines ls (match r with Some range => ranges ++ [range] | None => ranges end)
  end.

Definition start_le (a b : RangeInclusive) : Prop := r_start a <= r_start b.
Global Instance start_le_dec a b : Decision (start_le a b).
Proof. unfold start_le. apply _. Defined.

(** [parse]; [sort_by_key] is stable, and so is the sort used here. *)
Definition parse (input : str) : result unit Ipv4Ranges :=
  ranges ← parse_lines (lines input) [];
  Ok (from_ranges (merge_sort start_le ranges)).

(** ** [page.rs] *)

(** "Hugepagesize:" and "kB". *)
Definition hugepagesize : str := [72; 117; 103; 101; 112; 97; 103; 101; 115; 105; 122; 101; 58].
Definition kB : str := [107; 66].

Fixpoint hugepage_lines (ls : list str) : option Z :=
  match ls with
  | [] => None
  | line :: ls =>
      match strip_prefix line hugepagesize with
      | None => hugepage_lines ls
      | Some rest =>
          match split_whitespace rest with
          | [] => None
          | size :: parts =>
              size ← parse_uint (2 ^ 64 - 1) size;
              multiplier ← match parts with
                           | [] => Some 1
                           | unit :: _ => if bool_decide (unit = kB) then Some 1024 else None
                           end;
              Some (u64_of (size * multiplier))
          end
      end
  end.

Definition parse_hugepage_size (s : str) : option Z := hugepage_lines (lines s).

(** ** Specification: opt-out lists *)

(** What a line of the list says, with an optional remark behind it. *)
Inductive entry : Type :=
  | Blank
  | Remark (text : str)
  | Single (a : Ipv4Addr) (remark : option str)
  | Cidr (a : Ipv4Addr) (bits : Z) (remark : option str)
  | Span (a b : Ipv4Addr) (remark : option str).

Definition text_ok (text : str) : Prop := Forall (fun c => c <> 10 /\ c <> 13) text.
Definition remark_ok (remark : option str) : Prop := forall text, remark = Some text -> text_ok text.

Definition entry_ok (e : entry) : Prop :=
  match e with
  | Blank => True
  | Remark text => text_ok text
  | Single a r => in_u32 a /\ remark_ok r
  | Cidr a bits r => in_u32 a /\ 0 <= bits <= 32 /\ remark_ok r
  | Span a b r => in_u32 a /\ in_u32 b /\ a <= b /\ remark_ok r
  end.

Global Instance remark_ok_dec r : Decision (remark_ok r).
Proof.
  refine (match r with Some text => cast_if (decide (text_ok text)) | None => left _ end);
    unfold remark_ok, text_ok in *; naive_solver.
Defined.

Global Instance entry_ok_dec e : Decision (entry_ok e).
Proof. destruct e; unfold entry_ok, text_ok, in_width; apply _. Defined.

(** The addresses an entry opts out. *)
Definition opts_out (e : entry) (x : Ipv4Addr) : Prop :=
  match e with
  | Blank | Remark _ => False
  | Single a _ => x = a
  | Cidr a bits _ => in_u32 x /\ x / 2 ^ (32 - bits) = a / 2 ^ (32 - bits)
  | Span a b _ => a <= x <= b
  end.

(** How people write it. *)
Definition show_byte (b : Z) : str :=
  if b <? 10 then [48 + b]
  else if b <? 100 then [48 + b / 10; 48 + b mod 10]
  else [48 + b / 100; 48 + (b / 10) mod 10; 48 + b mod 10].

Definition show_ip (a : Ipv4Addr) : str :=
  match octets a with
  | [a; b; c; d] => show_byte a ++ [46] ++ show_byte b ++ [46] ++ show_byte c ++ [46] ++ show_byte d
  | _ => []
  end.

Definition show_remark (remark : option str) : str :=
  match remark with Some text => [32; 35] ++ text | None => [] end.

Definition show_entry (e : entry) : str :=
  match e with
  | Blank => []
  | Remark text => 35 :: text
  | Single a r => show_ip a ++ show_remark r
  | Cidr a bits r => (show_ip a ++ [47] ++ show_byte bits) ++ show_remark r
  | Span a b r => (show_ip a ++ [45] ++ show_ip b) ++ show_remark r
  end.

Definition show (es : list entry) : str := es ≫= (fun e => show_entry e ++ [10]).

(** ** Lemmas: numbers and addresses *)

Lemma digit_of d : 0 <= d < 10 -> digit (48 + d) = Some d.
Proof. intros Hd. unfold digit. rewrite !(proj2 (Z.leb_le _ _)) by lia. simpl. f_equal. lia. Qed.

(** The digits of a byte. *)
Lemma show_byte_cases b :
  0 <= b < 256 ->
  (b < 10 /\ show_byte b = [48 + b])
  \/ (10 <= b < 100 /\ exists x y, show_byte b = [48 + x; 48 + y] /\ 1 <= x < 10 /\ 0 <= y < 10
        /\ b = x * 10 + y)
  \/ (100 <= b /\ exists x y z, show_byte b = [48 + x; 48 + y; 48 + z] /\ 1 <= x < 10
        /\ 0 <= y < 10 /\ 0 <= z < 10 /\ b = (x * 10 + y) * 10 + z).
Proof.
  intros Hb. unfold show_byte. destruct (Z.ltb_spec b 10); [by left|].
  destruct (Z.ltb_spec b 100).
  - right. left. split; [lia|]. exists (b / 10), (b mod 10). split; [done|]. Z.div_mod_to_equations. lia.
  - right. right. split; [lia|]. exists (b / 100), ((b / 10) mod 10), (b mod 10). split; [done|].
    assert (b / 100 = b / 10 / 10) as -> by (rewrite Z.div_div by lia; done).
    Z.div_mod_to_equations. lia.
Qed.

(** Nothing that continues a number. *)
Definition stops (rest : str) : Prop := match rest with [] => True | c :: _ => digit c = None end.

Lemma read_octet_stop rest acc count :
  stops rest -> read_octet_loop rest acc count = Some (acc, count, rest).
Proof. destruct rest as [|c rest]; simpl; [done|]. by intros ->. Qed.

Lemma read_octet_show b rest :
  0 <= b < 256 -> stops rest -> read_octet (show_byte b ++ rest) = Some (b, rest).
Proof.
  intros Hb Hr. unfold read_octet.
  destruct (show_byte_cases b Hb)
    as [[Hlt ->]|[(? & x & y & -> & Hx & Hy & ->)|(? & x & y & z & -> & Hx & Hy & Hz & ->)]];
    cbn [app read_octet_loop]; rewrite !digit_of by lia;
    rewrite !(proj2 (Z.ltb_ge _ _)) by lia; cbn [orb]; rewrite read_octet_stop by done; cbn.
  - by rewrite andb_false_r.
  - rewrite bool_decide_eq_false_2 by (intros [= ?]; lia). simpl. do 2 f_equal.
  - rewrite bool_decide_eq_false_2 by (intros [= ?]; lia). simpl. do 2 f_equal.
Qed.

Lemma show_byte_length b : 0 <= b < 256 -> (1 <= length (show_byte b) <= 3)%nat.
Proof.
  intros Hb. destruct (show_byte_cases b Hb) as [[_ ->]|[(_ & x & y & -> & _)|(_ & x & y & z & -> & _)]];
    simpl; lia.
Qed.

(** The octets of an address. *)
Lemma octets_bytes a : in_u32 a -> exists b0 b1 b2 b3, octets a = [b0; b1; b2; b3]
  /\ 0 <= b0 < 256 /\ 0 <= b1 < 256 /\ 0 <= b2 < 256 /\ 0 <= b3 < 256 /\ be32 b0 b1 b2 b3 = a.
Proof.
  intros Ha. unfold octets, be32_bytes, be32. do 4 eexists. split; [done|].
  rewrite !land_255, !shiftr_div by lia. unfold in_width in Ha.
  change (2 ^ 24) with 16777216. change (2 ^ 16) with 65536. change (2 ^ 8) with 256.
  change (2 ^ 32) with 4294967296 in Ha. Z.div_mod_to_equations. lia.
Qed.

Lemma ipv4_from_str_show a : in_u32 a -> ipv4_from_str (show_ip a) = Some a.
Proof.
  intros Ha. destruct (octets_bytes a Ha) as (b0 & b1 & b2 & b3 & Ho & H0 & H1 & H2 & H3 & <-).
  unfold ipv4_from_str, show_ip. rewrite Ho.
  pose proof (show_byte_length b0 H0). pose proof (show_byte_length b1 H1).
  pose proof (show_byte_length b2 H2). pose proof (show_byte_length b3 H3).
  rewrite (proj2 (Z.ltb_ge _ _)) by (rewrite !length_app; simpl; lia).
  rewrite read_octet_show by done. cbn [mbind option_bind app read_char Z.eqb Pos.eqb].
  rewrite read_octet_show by done. cbn [mbind option_bind app read_char Z.eqb Pos.eqb].
  rewrite read_octet_show by done. cbn [mbind option_bind app read_char Z.eqb Pos.eqb].
  rewrite <- (app_nil_r (show_byte b3)), read_octet_show by done. done.
Qed.

Lemma parse_uint_show b : 0 <= b < 256 -> parse_uint 255 (show_byte b) = Some b.
Proof.
  intros Hb.
  destruct (show_byte_cases b Hb)
    as [[Hlt ->]|[(? & x & y & -> & Hx & Hy & ->)|(? & x & y & z & -> & Hx & Hy & Hz & ->)]];
    cbn [parse_uint]; rewrite (proj2 (Z.eqb_neq _ _)) by lia; cbn [parse_digits];
    rewrite !digit_of by lia; cbn [mbind option_bind];
    rewrite !(proj2 (Z.ltb_ge _ _)) by lia; f_equal; lia.
Qed.

Lemma digit_range c d : digit c = Some d -> 0 <= d < 10.
Proof.
  unfold digit. destruct (_ && _) eqn:E; [|done]. intros [= <-].
  apply andb_true_iff in E as [?%Z.leb_le ?%Z.leb_le]. lia.
Qed.

Lemma read_octet_range s v rest : read_octet s = Some (v, rest) -> 0 <= v < 256.
Proof.
  assert (Hl : forall s acc count v n rest, 0 <= acc < 256 ->
    read_octet_loop s acc count = Some (v, n, rest) -> 0 <= v < 256).
  { clear s v rest. induction s as [|c s IH]; intros acc count v n rest Ha; simpl; [by intros [= <- _ _]|].
    destruct (digit c) as [d|] eqn:Ed; [|by intros [= <- _ _]]. apply digit_range in Ed.
    destruct (_ || _) eqn:E; [done|]. apply orb_false_iff in E as [E%Z.ltb_ge _]. apply IH. lia. }
  unfold read_octet. destruct (read_octet_loop s 0 0) as [[[v' n] r]|] eqn:E; simpl; [|done].
  destruct (n =? 0); [done|]. destruct (_ && _); [done|]. intros [= <- _]. by eapply Hl, E.
Qed.

Lemma ipv4_from_str_range s a : ipv4_from_str s = Some a -> in_u32 a.
Proof.
  unfold ipv4_from_str. destruct (_ <? _); [done|]. intros Hs.
  repeat (apply bind_Some in Hs as ([? ?] & ?Ho & Hs); try apply bind_Some in Hs as (? & _ & Hs)).
  repeat match goal with H : read_octet _ = Some _ |- _ => apply read_octet_range in H end.
  destruct l2; [|done]. injection Hs as <-. unfold be32, in_width.
  change (2 ^ 32) with 4294967296. lia.
Qed.

(** ** Lemmas: the text of a line *)

(** The characters of addresses and masks. *)
Definition plain (c : Z) : Prop := 48 <= c <= 57 \/ c = 46.

Lemma show_byte_plain b : 0 <= b < 256 -> Forall plain (show_byte b) /\ show_byte b <> [].
Proof.
  intros Hb. destruct (show_byte_cases b Hb)
    as [[Hlt ->]|[(? & x & y & -> & Hx & Hy & ->)|(? & x & y & z & -> & Hx & Hy & Hz & ->)]];
    (split; [repeat constructor; lia|done]).
Qed.

Lemma show_ip_plain a : in_u32 a -> Forall plain (show_ip a) /\ show_ip a <> [].
Proof.
  intros Ha. destruct (octets_bytes a Ha) as (b0 & b1 & b2 & b3 & Ho & H0 & H1 & H2 & H3 & _).
  unfold show_ip. rewrite Ho. destruct (show_byte_plain b0 H0), (show_byte_plain b1 H1),
    (show_byte_plain b2 H2), (show_byte_plain b3 H3).
  split; [|by destruct (show_byte b0)].
  repeat (apply Forall_app_2; [done|apply Forall_app_2; [repeat constructor; unfold plain; lia|]]). done.
Qed.

(** Characters of an entry without its remark. *)
Definition body_char (c : Z) : Prop := plain c \/ c = 47 \/ c = 45.

Lemma body_char_ws c : body_char c -> is_whitespace c = false.
Proof. unfold body_char, plain, is_whitespace. intros Hc. case_cmp. Qed.

Lemma trim_start_id s : Forall (fun c => is_whitespace c = false) (option_list (head s)) -> trim_start s = s.
Proof. destruct s as [|c s]; [done|]. intros [Hc _]%Forall_cons. cbn [trim_start]. by rewrite Hc. Qed.

Lemma trim_start_stop s c r :
  is_whitespace c = false -> exists s', trim_start (s ++ c :: r) = s' ++ c :: r.
Proof.
  intros Hc. induction s as [|x s IH]; cbn [app trim_start].
  - rewrite Hc. by exists [].
  - destruct (is_whitespace x); [done|]. by exists (x :: s).
Qed.

(** A text between two characters that are no white space is kept. *)
Lemma trim_id s :
  Forall (fun c => is_whitespace c = false) (option_list (head s) ++ option_list (head (rev s))) ->
  trim s = s.
Proof.
  intros [H1 H2]%Forall_app. unfold trim. rewrite (trim_start_id s) by done.
  rewrite trim_start_id by done. apply rev_involutive.
Qed.

Lemma body_ends s : Forall body_char s ->
  Forall (fun c => is_whitespace c = false) (option_list (head s) ++ option_list (head (rev s))).
Proof.
  intros Hs. assert (Hh : forall s, Forall body_char s ->
    Forall (fun c => is_whitespace c = false) (option_list (head s))).
  { clear s Hs. intros [|c s] Hs; simpl; [constructor|]. apply Forall_cons in Hs as [Hc _].
    constructor; [by apply body_char_ws|constructor]. }
  apply Forall_app. split; apply Hh; [done|]. by apply Forall_rev.
Qed.

Lemma split_on_body sep s rest :
  Forall (fun c => c <> sep) s ->
  (split_on sep (s ++ sep :: rest)).1 = s
  /\ (split_on sep (s ++ sep :: rest)).2 = (split_on sep rest).1 :: (split_on sep rest).2.
Proof.
  induction 1 as [|c s Hc Hs [IH1 IH2]]; simpl.
  - destruct (split_on sep rest) as [p ps]. by rewrite Z.eqb_refl.
  - destruct (split_on sep (s ++ sep :: rest)) as [p ps]. simpl in *.
    by rewrite (proj2 (Z.eqb_neq _ _) Hc), IH1, IH2.
Qed.

Lemma split_on_none sep s : Forall (fun c => c <> sep) s -> split_on sep s = (s, []).
Proof.
  induction 1 as [|c s Hc Hs IH]; simpl; [done|]. by rewrite IH, (proj2 (Z.eqb_neq _ _) Hc).
Qed.

(** The remark behind an entry does not matter. *)
Lemma parse_line_body s r :
  Forall body_char s -> s <> [] ->
  parse_line (s ++ show_remark r) = (range ← parse_range s; Ok (Some range)).
Proof.
  intros Hs Hne. pose proof (body_ends s Hs) as He.
  assert (Hn35 : Forall (fun c => c <> 35) (s ++ [32])).
  { apply Forall_app_2; [|by repeat constructor]. eapply Forall_impl; [exact Hs|].
    unfold body_char, plain. intros c Hc. lia. }
  assert (Hhead : forall rest, bool_decide (s ++ rest = []) = false /\
    bool_decide (head (s ++ rest) = Some 35) = false).
  { intros rest. destruct s as [|c s]; [done|]. split; [done|]. simpl.
    apply bool_decide_eq_false_2. intros [= ->]. apply Forall_cons in Hs as [Hc _].
    unfold body_char, plain in Hc. lia. }
  unfold parse_line. destruct r as [text|]; cbn [show_remark].
  - assert (exists t', trim (s ++ [32; 35] ++ text) = (s ++ [32]) ++ 35 :: t') as [t' ->].
    { unfold trim. rewrite (trim_start_id (s ++ _)).
      2: { destruct s; [done|]. by apply Forall_app in He as [He _]. }
      rewrite !rev_app_distr. simpl. rewrite <- !app_assoc. simpl.
      destruct (trim_start_stop (rev text) 35 (32 :: rev s) eq_refl) as [s' ->].
      exists (rev s'). rewrite rev_app_distr. simpl. rewrite rev_involutive, <- !app_assoc. done. }
    rewrite <- app_assoc. destruct (Hhead ([32] ++ 35 :: t')) as [-> ->]. cbn [orb].
    rewrite app_assoc. destruct (split_on_body 35 (s ++ [32]) t' Hn35) as [-> _].
    assert (trim (s ++ [32]) = s) as ->; [|done].
    unfold trim. rewrite (trim_start_id (s ++ _)).
    2: { destruct s; [done|]. by apply Forall_app in He as [He _]. }
    rewrite rev_app_distr. simpl. rewrite trim_start_id by (by apply Forall_app in He as [_ He]).
    apply rev_involutive.
  - rewrite app_nil_r, (trim_id s) by done. destruct (Hhead []) as [H1 H2].
    rewrite app_nil_r in H1, H2. rewrite H1, H2. cbn [orb].
    apply Forall_app in Hn35 as [Hn35 _]. rewrite split_on_none by done. simpl. by rewrite trim_id.
Qed.

(** ** Lemmas: ranges *)

Lemma lor_ones ip k : 0 <= k -> 0 <= ip -> Z.lor ip (2 ^ k - 1) = ip / 2 ^ k * 2 ^ k + (2 ^ k - 1).
Proof.
  intros Hk Hip. pose proof (Z.mod_pos_bound ip (2 ^ k) ltac:(lia)) as Hm.
  assert (Hsplit : ip = Z.lor (ip mod 2 ^ k) (ip / 2 ^ k * 2 ^ k)).
  { rewrite lor_disjoint by lia. pose proof (Z.div_mod ip (2 ^ k)). lia. }
  rewrite Hsplit at 1. rewrite (Z.lor_comm (ip mod 2 ^ k)), <- Z.lor_assoc.
  assert (Z.lor (ip mod 2 ^ k) (2 ^ k - 1) = 2 ^ k - 1) as ->.
  { replace (2 ^ k - 1) with (Z.ones k) by (rewrite Z.ones_equiv; lia).
    destruct (decide (ip mod 2 ^ k = 0)) as [->|Hne]; [done|].
    apply Z.lor_ones_low; [lia|]. apply Z.log2_lt_pow2; lia. }
  rewrite Z.lor_comm, lor_disjoint by lia. lia.
Qed.

Lemma land_not_ones ip k :
  0 <= k <= 32 -> in_u32 ip -> Z.land ip (u32_of (Z.lnot (2 ^ k - 1))) = ip / 2 ^ k * 2 ^ k.
Proof.
  intros Hk Hip. rewrite <- Z.shiftr_div_pow2, <- Z.shiftl_mul_pow2 by lia.
  replace (2 ^ k - 1) with (Z.ones k) by (rewrite Z.ones_equiv; lia).
  rewrite <- Z.ldiff_ones_r by lia. unfold u32_of, wrap. rewrite <- Z.land_ones by lia.
  rewrite (Z.land_comm (Z.lnot _)), Z.land_assoc, Z.land_ones by lia.
  rewrite Z.mod_small by done. by rewrite Z.ldiff_land.
Qed.

(** Masks up to 32 give the block of addresses that share the prefix. *)
Lemma cidr_spec ip bits :
  in_u32 ip -> 0 <= bits <= 32 ->
  let k := 32 - bits in
  cidr ip bits = mkRange (ip / 2 ^ k * 2 ^ k) (ip / 2 ^ k * 2 ^ k + (2 ^ k - 1)).
Proof.
  intros Hip Hb k. unfold cidr, u8_of. rewrite (wrap_small 8) by (unfold in_width; lia). fold k.
  assert (Hm : u32_of (u32_of (2 ^ k) - 1) = 2 ^ k - 1).
  { unfold u32_of. rewrite wrap_sub_l. apply wrap_small. unfold in_width.
    assert (0 < 2 ^ k <= 2 ^ 32); [|lia]. split; [lia|]. apply Z.pow_le_mono_r; lia. }
  rewrite Hm, land_not_ones, lor_ones by (unfold in_width in *; lia). done.
Qed.

Definition range_ok (r : RangeInclusive) : Prop := 0 <= r_start r <= r_last r /\ r_last r < 2 ^ 32.

(** Whatever the mask, the range of an address is one. *)
Lemma cidr_ok ip mask : in_u32 ip -> 0 <= mask <= 255 -> range_ok (cidr ip mask).
Proof.
  intros Hip Hm. destruct (decide (mask <= 32)) as [Hle|Hgt].
  - rewrite cidr_spec by (done || lia). set (k := 32 - mask).
    assert (Hp : 0 < 2 ^ k) by lia. assert (Hk : 2 ^ 32 = 2 ^ mask * 2 ^ k)
      by (rewrite <- Z.pow_add_r by lia; f_equal; lia).
    unfold in_width in Hip. assert (ip / 2 ^ k < 2 ^ mask) by (apply Z.div_lt_upper_bound; nia).
    assert (0 <= ip / 2 ^ k) by (apply Z.div_pos; lia). split; simpl; nia.
  - unfold cidr.
    assert (Hbits : u32_of (u32_of (2 ^ u8_of (32 - mask)) - 1) = 2 ^ 32 - 1).
    { assert (Hs : 33 <= u8_of (32 - mask)) by (unfold u8_of, wrap; Z.div_mod_to_equations; lia).
      unfold u32_of at 2, wrap. replace (u8_of (32 - mask)) with (u8_of (32 - mask) - 32 + 32) by lia.
      rewrite Z.pow_add_r, Z.mod_mul by lia. done. }
    rewrite Hbits. change (2 ^ 32 - 1) with (Z.ones 32).
    assert (Hl : Z.lor ip (Z.ones 32) = Z.ones 32).
    { destruct (decide (ip = 0)) as [->|]; [done|]. unfold in_width in Hip.
      apply Z.lor_ones_low; [lia|apply Z.log2_lt_pow2; lia]. }
    rewrite Hl. change (u32_of (Z.lnot (Z.ones 32))) with 0. rewrite Z.land_0_r. vm_compute. done.
Qed.

Lemma parse_uint_range max s v : parse_uint max s = Some v -> 0 <= max -> 0 <= v <= max.
Proof.
  assert (Hd : forall s acc v, 0 <= acc <= max -> parse_digits max acc s = Some v -> 0 <= v <= max).
  { clear s v. induction s as [|c s IH]; intros acc v Ha; simpl; [by intros [= <-]|].
    intros (d & Hd & Hs)%bind_Some. apply digit_range in Hd.
    destruct (Z.ltb_spec max (acc * 10 + d)); [done|]. eapply IH, Hs. lia. }
  unfold parse_uint. destruct s as [|c s]; [done|]. intros Hp Hmax.
  destruct (c =? 43); [destruct s as [|c' s]; [done|]|]; (eapply Hd; [|exact Hp]); lia.
Qed.

Lemma parse_range_ok line r : parse_range line = Ok r -> range_ok r.
Proof.
  unfold parse_range. destruct (_ && _); [done|]. destruct (contains_char line 47).
  - destruct (split_on 47 line) as [ip [|mask parts]]; [done|].
    destruct (parse_uint 255 mask) as [m|] eqn:Em; simpl; [|done].
    destruct (ipv4_from_str ip) as [a|] eqn:Ea; simpl; [|done]. intros [= <-].
    apply cidr_ok; [by eapply ipv4_from_str_range|by apply (parse_uint_range 255 mask)].
  - destruct (contains_char line 45).
    + destruct (split_on 45 line) as [ip [|ip2 parts]]; [done|].
      destruct (ipv4_from_str ip) as [a|] eqn:Ea; simpl; [|done].
      destruct (ipv4_from_str ip2) as [b|] eqn:Eb; simpl; [|done].
      destruct (Z.ltb_spec b a); [done|]. intros [= <-].
      apply ipv4_from_str_range in Ea, Eb. unfold in_width in *. split; simpl; lia.
    + destruct (ipv4_from_str line) as [a|] eqn:Ea; simpl; [|done]. intros [= <-].
      apply ipv4_from_str_range in Ea. unfold in_width in *. split; simpl; lia.
Qed.

(** ** Lemmas: whole files *)

Lemma starts_sorted_from_ranges rs : forall lo,
  StronglySorted start_le rs -> Forall range_ok rs -> Forall (fun r => lo <= r_start r) rs ->
  starts_sorted lo ((fun range => (range, tt)) <$> rs).
Proof.
  induction rs as [|r rs IH]; intros lo Hs Hok Hlo; simpl; [done|].
  apply StronglySorted_inv in Hs as [Hs Hr]. apply Forall_cons in Hok as [[H1 H2] Hok].
  apply Forall_cons in Hlo as [Hl _]. split_and!; [done|lia|done|]. by apply IH.
Qed.

Lemma covers_from_ranges rs x :
  covers (inner (from_ranges rs)) x <-> exists r, r ∈ rs /\ r_start r <= x <= r_last r.
Proof.
  unfold covers, from_ranges. simpl. rewrite Exists_exists. split.
  - intros ([r u] & Hin & Hx). apply list_elem_of_fmap in Hin as (r' & [= -> ->] & Hin). eauto.
  - intros (r & Hin & Hx). exists (r, tt). split; [|done]. apply list_elem_of_fmap. eauto.
Qed.

Global Instance start_le_total : Total start_le.
Proof. intros a b. unfold start_le. lia. Qed.
Global Instance start_le_trans : Transitive start_le.
Proof. intros a b c. unfold start_le. lia. Qed.

Lemma sorted_ranges rs :
  Forall range_ok rs -> starts_sorted 0 (inner (from_ranges (merge_sort start_le rs))).
Proof.
  intros Hok. assert (Hok' : Forall range_ok (merge_sort start_le rs))
    by (eapply Permutation_Forall; [symmetry; apply (merge_sort_Permutation start_le)|exact Hok]).
  apply starts_sorted_from_ranges; [apply (StronglySorted_merge_sort start_le)|done|].
  eapply Forall_impl; [exact Hok'|]. intros r [[Hr _] _]. exact Hr.
Qed.

Lemma parse_lines_ok ls : forall acc rs,
  parse_lines ls acc = Ok rs -> Forall range_ok acc -> Forall range_ok rs.
Proof.
  induction ls as [|line ls IH]; intros acc rs; simpl; [by intros [= <-]|].
  destruct (parse_line line) as [o|] eqn:El; simpl; [|done]. intros Hp Hacc. eapply IH; [exact Hp|].
  destruct o as [r|]; [|done]. apply Forall_app_2; [done|]. constructor; [|constructor].
  unfold parse_line in El. destruct (_ || _); [done|].
  destruct (parse_range _) as [r'|] eqn:Er; simpl in El; [|done]. simplify_eq. by eapply parse_range_ok.
Qed.

(** The range of an entry. *)
Definition entry_range (e : entry) : option RangeInclusive :=
  match e with
  | Blank | Remark _ => None
  | Single a _ => Some (mkRange a a)
  | Cidr a bits _ => Some (cidr a bits)
  | Span a b _ => Some (mkRange a b)
  end.

Lemma contains_char_in s c : contains_char s c = true <-> c ∈ s.
Proof.
  unfold contains_char. rewrite existsb_exists. split.
  - intros (x & Hin & ->%Z.eqb_eq). by apply list_elem_of_In.
  - intros Hin. exists c. rewrite Z.eqb_refl. split; [by apply list_elem_of_In|done].
Qed.

Lemma plain_lacks s c : Forall plain s -> ~ plain c -> contains_char s c = false /\ Forall (fun x => x <> c) s.
Proof.
  intros Hs Hc. assert (Hf : Forall (fun x => x <> c) s).
  { eapply Forall_impl; [exact Hs|]. by intros x Hx ->. }
  split; [|done]. destruct (contains_char s c) eqn:E; [|done]. apply contains_char_in in E.
  by apply (proj1 (Forall_forall _ _) Hf) in E.
Qed.

Lemma contains_app s s' c : contains_char (s ++ s') c = contains_char s c || contains_char s' c.
Proof. apply existsb_app. Qed.

(** Two plain parts around a slash or a hyphen. *)
Lemma two_parts sep other s s' :
  Forall plain s -> s <> [] -> Forall plain s' -> (sep = 47 /\ other = 45 \/ sep = 45 /\ other = 47) ->
  let line := s ++ [sep] ++ s' in
  Forall body_char line /\ line <> [] /\ contains_char line sep = true
  /\ contains_char line other = false /\ split_on sep line = (s, [s']).
Proof.
  intros Hs Hne Hs' Hsep line.
  assert (N1 : ~ plain sep) by (unfold plain; lia). assert (N2 : ~ plain other) by (unfold plain; lia).
  destruct (plain_lacks s sep Hs N1) as [_ F1], (plain_lacks s other Hs N2) as [E2 _],
    (plain_lacks s' sep Hs' N1) as [_ F3], (plain_lacks s' other Hs' N2) as [E4 _].
  unfold line. split_and!.
  - repeat apply Forall_app_2; [by eapply Forall_impl; [exact Hs|by left]| |by eapply Forall_impl; [exact Hs'|by left]].
    constructor; [right; lia|constructor].
  - by destruct s.
  - rewrite !contains_app. simpl. by rewrite Z.eqb_refl, orb_true_r.
  - rewrite !contains_app, E2, E4. simpl. rewrite (proj2 (Z.eqb_neq _ _)) by lia. done.
  - destruct (split_on_body sep s s' F1) as [H1 H2]. cbn [app].
    destruct (split_on sep (s ++ sep :: s')) as [p ps]. simpl in *. by rewrite H1, H2, split_on_none.
Qed.

Lemma parse_show_entry e : entry_ok e -> parse_line (show_entry e) = Ok (entry_range e).
Proof.
  destruct e as [|text|a r|a bits r|a b r]; cbn [show_entry entry_range entry_ok].
  - done.
  - intros Ht. unfold parse_line, trim. cbn [trim_start]. change (is_whitespace 35) with false. cbv iota.
    cbn [rev]. destruct (trim_start_stop (rev text) 35 [] eq_refl) as [s' ->].
    by rewrite rev_app_distr.
  - intros [Ha Hr]. destruct (show_ip_plain a Ha) as [Hp Hne].
    rewrite parse_line_body; [|by eapply Forall_impl; [exact Hp|by left]|done]. unfold parse_range.
    destruct (plain_lacks _ 47 Hp) as [-> _]; [unfold plain; lia|].
    destruct (plain_lacks _ 45 Hp) as [-> _]; [unfold plain; lia|].
    cbn [andb]. by rewrite ipv4_from_str_show.
  - intros (Ha & Hb & Hr). destruct (show_ip_plain a Ha) as [Hp Hne].
    destruct (show_byte_plain bits) as [Hpb _]; [lia|].
    destruct (two_parts 47 45 (show_ip a) (show_byte bits)) as (Hc & Hn & E1 & E2 & E3); [done..|by left|].
    rewrite parse_line_body by done. unfold parse_range. rewrite E1, E2, E3. cbn [andb].
    rewrite parse_uint_show by lia. cbn [ok_or mbind result_bind]. by rewrite ipv4_from_str_show.
  - intros (Ha & Hb & Hab & Hr). destruct (show_ip_plain a Ha) as [Hp Hne].
    destruct (show_ip_plain b Hb) as [Hpb _].
    destruct (two_parts 45 47 (show_ip a) (show_ip b)) as (Hc & Hn & E1 & E2 & E3); [done..|by right|].
    rewrite parse_line_body by done. unfold parse_range. rewrite E1, E2, E3. cbn [andb].
    rewrite !ipv4_from_str_show by done. cbn [ok_or mbind result_bind].
    by rewrite (proj2 (Z.ltb_ge _ _)).
Qed.

Lemma parse_lines_show es : forall acc,
  Forall entry_ok es -> parse_lines (show_entry <$> es) acc = Ok (acc ++ omap entry_range es).
Proof.
  induction es as [|e es IH]; intros acc Hok; simpl; [by rewrite app_nil_r|].
  apply Forall_cons in Hok as [He Hok]. rewrite parse_show_entry by done. cbn [mbind result_bind].
  rewrite IH by done. destruct (entry_range e); simpl; [by rewrite <- app_assoc|done].
Qed.

Lemma lines_loop_line s rest : forall line,
  Forall (fun c => c <> 10 /\ c <> 13) s -> Forall (fun c => c <> 13) line ->
  lines_loop (s ++ 10 :: rest) line = (line ++ s) :: lines_loop rest [].
Proof.
  induction s as [|c s IH]; intros line Hs Hl; cbn [app lines_loop].
  - rewrite Z.eqb_refl, app_nil_r. f_equal. unfold strip_cr.
    destruct (rev line) as [|c r] eqn:E; [done|]. rewrite (proj2 (Z.eqb_neq _ _)); [done|].
    apply Forall_rev in Hl. rewrite E in Hl. by apply Forall_cons in Hl as [? _].
  - apply Forall_cons in Hs as [[H1 H2] Hs]. rewrite (proj2 (Z.eqb_neq _ _)) by done.
    rewrite IH, <- app_assoc; [done|done|]. apply Forall_app_2; [done|by repeat constructor].
Qed.

Lemma plain_text s : Forall plain s -> text_ok s.
Proof. intros Hs. eapply Forall_impl; [exact Hs|]. unfold plain. simpl. lia. Qed.

Lemma show_entry_text e : entry_ok e -> text_ok (show_entry e).
Proof.
  assert (Hrem : forall r, remark_ok r -> text_ok (show_remark r)).
  { intros [text|] Hr; [|constructor]. repeat constructor; try done. by apply Hr. }
  unfold text_ok in *. destruct e as [|text|a r|a bits r|a b r]; cbn [show_entry entry_ok].
  - constructor.
  - intros Ht. by constructor.
  - intros [Ha Hr]. apply Forall_app_2; [by apply plain_text, show_ip_plain|by apply Hrem].
  - intros (Ha & Hb & Hr). rewrite !Forall_app. split_and!;
      [by apply plain_text, show_ip_plain|by repeat constructor| |by apply Hrem].
    apply plain_text, show_byte_plain. lia.
  - intros (Ha & Hb & _ & Hr). rewrite !Forall_app. split_and!;
      [by apply plain_text, show_ip_plain|by repeat constructor|by apply plain_text, show_ip_plain|by apply Hrem].
Qed.

Lemma lines_show es : Forall entry_ok es -> lines (show es) = show_entry <$> es.
Proof.
  unfold lines, show. induction 1 as [|e es He Hes IH]; simpl; [done|].
  rewrite <- app_assoc. cbn [app]. rewrite lines_loop_line; [|by apply show_entry_text|constructor].
  cbn [app]. f_equal. exact IH.
Qed.

Lemma entry_range_covers e r x :
  entry_ok e -> entry_range e = Some r -> r_start r <= x <= r_last r <-> opts_out e x.
Proof.
  destruct e as [|text|a q|a bits q|a b q]; cbn [entry_range entry_ok opts_out]; try done;
    intros Hok [= <-]; cbn [r_start r_last]; try lia.
  destruct Hok as (Ha & Hb & _). pose proof (cidr_ok a bits Ha ltac:(lia)) as [Hr1 Hr2].
  rewrite cidr_spec in * by (done || lia). cbn [r_start r_last] in *. set (k := 32 - bits) in *.
  assert (Hp : 0 < 2 ^ k) by lia. unfold in_width. split.
  - intros Hx. split; [lia|]. symmetry. apply (Z.div_unique _ _ _ (x - a / 2 ^ k * 2 ^ k)); lia.
  - intros [Hx <-]. pose proof (Z.div_mod x (2 ^ k)). pose proof (Z.mod_pos_bound x (2 ^ k)). lia.
Qed.

Lemma entry_range_none e x : entry_range e = None -> ~ opts_out e x.
Proof. destruct e; simpl; try done; auto. Qed.

Lemma parse_show es :
  Forall entry_ok es ->
  exists r, parse (show es) = Ok r /\ starts_sorted 0 (inner r)
    /\ forall x, covers (inner r) x <-> exists e, e ∈ es /\ opts_out e x.
Proof.
  intros Hok. unfold parse. rewrite lines_show, parse_lines_show by done. cbn [mbind result_bind app].
  eexists. split; [done|]. split.
  - apply sorted_ranges. eapply (parse_lines_ok (show_entry <$> es) []); [by apply parse_lines_show|done].
  - intros x. rewrite covers_from_ranges. split.
    + intros (r & Hin & Hx). rewrite merge_sort_Permutation in Hin.
      apply list_elem_of_omap in Hin as (e & He & Hr). exists e. split; [done|].
      eapply entry_range_covers; [|exact Hr|exact Hx]. by apply (proj1 (Forall_forall _ _) Hok).
    + intros (e & He & Hx). destruct (entry_range e) as [r|] eqn:Hr; [|by apply entry_range_none in Hx].
      exists r. rewrite merge_sort_Permutation. split; [apply list_elem_of_omap; eauto|].
      eapply entry_range_covers; [|exact Hr|exact Hx]. by apply (proj1 (Forall_forall _ _) Hok).
Qed.

(** Every line counts, and the first bad one ends it. *)
Lemma parse_lines_cases ls : forall acc,
  match parse_lines ls acc with
  | Ok rs => (forall r, r ∈ rs <-> r ∈ acc \/ exists line, line ∈ ls /\ parse_line line = Ok (Some r))
      /\ forall line, line ∈ ls -> parse_line line <> Err tt
  | Err _ => exists line, line ∈ ls /\ parse_line line = Err tt
  end.
Proof.
  induction ls as [|line ls IH]; intros acc; simpl; [set_solver|].
  destruct (parse_line line) as [o|[]] eqn:El; simpl; [|set_solver].
  specialize (IH (match o with Some range => acc ++ [range] | None => acc end)).
  destruct (parse_lines _ _) as [rs|[]]; [|set_solver]. destruct IH as [Hin Hok]. split.
  - intros r. rewrite Hin. assert (Hcons : forall l', l' ∈ line :: ls <-> l' = line \/ l' ∈ ls) by set_solver.
    setoid_rewrite Hcons. destruct o; rewrite ?elem_of_app, ?list_elem_of_singleton; naive_solver congruence.
  - intros line' Hl. assert (line' = line \/ line' ∈ ls) as [->|?] by set_solver; [by rewrite El|auto].
Qed.

(** ** Theorems *)

(** C36: an opt-out list is respected.  For every list of well-formed entries
    (single addresses, blocks with masks of at most 32 bits, spans, remarks and
    blank lines, in any order and overlapping or not), written out as text,
    [parse] succeeds and [exclude] of any ordered ranges by the result returns
    ordered ranges with exactly the addresses that no entry opts out. *)
Theorem optout_respected (es : list entry) (self : Ipv4Ranges) :
  Forall entry_ok es -> ordered_from 0 (inner self) ->
  exists ex r, parse (show es) = Ok ex /\ exclude self ex = Ret r
    /\ ordered_from 0 (inner r)
    /\ forall x, covers (inner r) x <->
         covers (inner self) x /\ forall e, e ∈ es -> ~ opts_out e x.
Proof.
  intros Hes Hself. destruct (parse_show es Hes) as (ex & Hp & Hs & Hc).
  destruct (exclude_ok 0 0 self ex) as (r & Hr & Ho & Hx); [lia..|done|done|].
  exists ex, r. split_and!; [done..|]. intros x. rewrite Hx, Hc. naive_solver.
Qed.

(** A list with every kind of entry, out of order. *)
Definition demo_entries : list entry :=
  [Remark [111; 112; 116]; Span 167772165 167772170 (Some [32; 97]); Blank; Cidr 167772163 30 None;
   Single 167772175 (Some [])].

Definition demo_scan : Ipv4Ranges := from_ranges [mkRange 167772160 167772175].

Lemma optout_respected_witness :
  exists ex r, parse (show demo_entries) = Ok ex /\ exclude demo_scan ex = Ret r
    /\ ordered_from 0 (inner r)
    /\ forall x, covers (inner r) x <->
         covers (inner demo_scan) x /\ forall e, e ∈ demo_entries -> ~ opts_out e x.
Proof.
  refine (optout_respected demo_entries demo_scan _ _).
  - apply (bool_decide_unpack _). by vm_compute.
  - by vm_compute.
Defined.

(** 10.0.0.4 and 10.0.0.11 to 10.0.0.14 are left of that scan. *)
Example optout_demo :
  match parse (show demo_entries) with
  | Ok ex =>
      match exclude demo_scan ex with
      | Ret r => Some (map fst (inner r))
      | _ => None
      end
  | Err _ => None
  end = Some [mkRange 167772164 167772164; mkRange 167772171 167772174].
Proof. vm_compute. reflexivity. Qed.

(** C37: the list is taken as a whole.  [parse] fails exactly when some line
    does (a line with both signs, a span that ends before it starts, a mask
    that is no [u8], text that is no address), so no opt-out is dropped
    silently; and what it accepts is sorted by start, with ranges of addresses
    that do not end before they start, which is what [exclude] relies on. *)
Theorem parse_all_or_nothing (input : str) :
  match parse input with
  | Ok ex => starts_sorted 0 (inner ex)
      /\ (forall x, covers (inner ex) x <-> exists line r, line ∈ lines input
            /\ parse_line line = Ok (Some r) /\ r_start r <= x <= r_last r)
      /\ forall line, line ∈ lines input -> parse_line line <> Err tt
  | Err _ => exists line, line ∈ lines input /\ parse_line line = Err tt
  end.
Proof.
  unfold parse. pose proof (parse_lines_cases (lines input) []) as Hc.
  destruct (parse_lines (lines input) []) as [rs|[]] eqn:Ep; cbn [mbind result_bind]; [|done].
  destruct Hc as [Hin Hok]. split_and!; [|intros x|done].
  - apply sorted_ranges. by eapply parse_lines_ok; [exact Ep|].
  - rewrite covers_from_ranges. setoid_rewrite (merge_sort_Permutation start_le rs).
    setoid_rewrite Hin. set_solver.
Qed.

(** The mask is a [u8] of which only 0 to 32 make sense; 33 wraps, and the
    whole address space is opted out. *)
Example mask_wraps :
  parse_line [49; 46; 50; 46; 51; 46; 52; 47; 51; 51] = Ok (Some (mkRange 0 (2 ^ 32 - 1))).
Proof. vm_compute. reflexivity. Qed.
