(* ===== verification/Tcp.v ===== *)
(** * TCP and IPv4 wire format: [net/tcp.rs]

    The packet template, the packed header views that are laid over a frame,
    the sequence-number cookie and the pieces of the incremental checksum. *)

From S2P Require Import Prelude.

(** [TCP_PACKET]: Ethernet [0..14], IPv4 [14..34], TCP with options [34..62]. *)
Definition TCP_PACKET : list Z :=
  [0; 0; 0; 0; 0; 0;            (* dst mac *)
   0; 0; 0; 0; 0; 0;            (* src mac *)
   0x08; 0x00;                  (* proto *)
   0x45; 0x00;                  (* version, header length; dsf *)
   0x00; 0x30;                  (* total length = 48 *)
   0x00; 0x01;                  (* identification *)
   0x40; 0x00;                  (* flags: don't fragment *)
   0x40; 0x06;                  (* ttl = 64, protocol = TCP *)
   0x00; 0x00;                  (* checksum *)
   0; 0; 0; 0;                  (* src ip *)
   0; 0; 0; 0;                  (* dst ip *)
   0x00; 0x00;                  (* src port *)
   0x00; 0x00;                  (* dst port *)
   0x00; 0x00; 0x00; 0x00;      (* sequence number *)
   0x00; 0x00; 0x00; 0x00;      (* acknowledgment number *)
   0x70; 0x00;                  (* data offset, flags *)
   0x80; 0x00;                  (* window size = 32768 *)
   0x00; 0x00;                  (* checksum *)
   0x00; 0x00;                  (* urgent pointer *)
   0x02; 0x04; 0x05; 0x3C;      (* mss 1340 *)
   0x01; 0x01;                  (* nop, nop *)
   0x04; 0x02].                 (* sack-perm *)

Record PacketTemplate : Type :=
  mkTemplate { t_source_port : Z; t_ip : Ipv4Addr; t_destination_port : Z }.

Global Instance PacketTemplate_eq_dec : EqDecision PacketTemplate.
Proof. solve_decision. Defined.

(** ** [EthTcpIpHdr]

    The packed struct names the bytes of a frame that a send rewrites; setting
    a field writes its big-endian bytes at the field's offset. *)

Definition EthTcpIpHdr_size : nat := 52.

Definition set_len (v : Z) (data : list Z) : list Z := list_inserts 16 (be16_bytes v) data.
Definition set_ip_checksum (v : Z) (data : list Z) : list Z :=
  list_inserts 24 (be16_bytes v) data.
Definition set_dest_addr (v : list Z) (data : list Z) : list Z := list_inserts 30 v data.
Definition set_source_port (v : Z) (data : list Z) : list Z :=
  list_inserts 34 (be16_bytes v) data.
Definition set_dest_port (v : Z) (data : list Z) : list Z :=
  list_inserts 36 (be16_bytes v) data.
Definition set_seq (v : Z) (data : list Z) : list Z := list_inserts 38 (be32_bytes v) data.
Definition set_ack (v : Z) (data : list Z) : list Z := list_inserts 42 (be32_bytes v) data.
Definition set_flags (v : Z) (data : list Z) : list Z := list_inserts 47 [v] data.
Definition set_tcp_checksum (v : Z) (data : list Z) : list Z :=
  list_inserts 50 (be16_bytes v) data.

(** ** [TcpHdr]

    The view of the first 14 bytes of a received TCP header;
    [ref_from_bytes] succeeds exactly on slices of that size. *)

Record TcpHdr : Type := mkTcpHdr {
  h_source_port : Z; h_dest_port : Z; h_seq : Z; h_ack : Z; h_flags : Z }.

Definition TcpHdr_size : nat := 14.

Definition TcpHdr_ref_from_bytes (data : list Z) : option TcpHdr :=
  match data with
  | [a0; a1; b0; b1; c0; c1; c2; c3; d0; d1; d2; d3; _; f] =>
      Some (mkTcpHdr (be16 a0 a1) (be16 b0 b1) (be32 c0 c1 c2 c3) (be32 d0 d1 d2 d3) f)
  | _ => None
  end.

(** ** [TcpFlags] *)

Definition Fin : Z := 0x01.
Definition Syn : Z := 0x02.
Definition Rst : Z := 0x04.
Definition Psh : Z := 0x08.
Definition Ack : Z := 0x10.
Definition Urg : Z := 0x20.
Definition Ece : Z := 0x40.
Definition Cwr : Z := 0x80.

(** [bitflags]' [contains]: every bit of [other] is set. *)
Definition contains (self other : Z) : bool := Z.land self other =? other.

(** ** [cookie] *)

Definition K : Z := 0xf1357aea2e62a9c5.

Definition wrapping_mul (a b : Z) : Z := u64_of (a * b).
Definition wrapping_add (a b : Z) : Z := u64_of (a + b).

Definition cookie (addr : Ipv4Addr) (port seed : Z) : Z :=
  u32_of
    (wrapping_mul
      (wrapping_add
        (wrapping_mul
          (wrapping_add (wrapping_mul (ne_bits addr) K) port) K) seed) K).

(** ** Checksums *)

Definition ipv4_sum (addr : list Z) : Z :=
  match addr with
  | [a; b; c; d] => u32_of (be16 a b + be16 c d)
  | _ => 0
  end.

Definition fold (sum : Z) : Z :=
  let sum := u32_of (Z.shiftr sum 16 + Z.land sum 0xffff) in
  u16_of (u32_of (sum + Z.shiftr sum 16)).

(** [chunks_exact(2)], then the remainder padded with a zero byte. *)
Fixpoint sum_body_loop (data : list Z) (sum : Z) : Z :=
  match data with
  | hi :: lo :: data => sum_body_loop data (u32_of (sum + be16 hi lo))
  | [last] => u32_of (sum + u32_of (Z.shiftl last 8))
  | [] => sum
  end.

Definition sum_body (data : list Z) : Z := sum_body_loop data 0.

(** [!x] on a [u16]. *)
Definition not16 (x : Z) : Z := 65535 - x.

(** ** Specification *)

(** RFC 1071: the 16-bit words of a message, an odd last byte padded. *)
Fixpoint words (data : list Z) : list Z :=
  match data with
  | hi :: lo :: data => be16 hi lo :: words data
  | [last] => [be16 last 0]
  | [] => []
  end.

(** Addition with end-around carry. *)
Definition onec_add (a b : Z) : Z :=
  let s := a + b in if s <? 65536 then s else s - 65535.

Definition onec_sum (ws : list Z) : Z := foldr onec_add 0 ws.

(** What a receiver checks: the one's complement sum of all words, the
    transmitted checksum among them, is all ones. *)
Definition checksum_valid (ws : list Z) : Prop := onec_sum ws = 65535.

Definition zsum (l : list Z) : Z := foldr Z.add 0 l.

Abbreviation is_word w := (0 <= w <= 65535).
Abbreviation is_byte b := (0 <= b < 256).

(** ** Lemmas: one's complement arithmetic *)

Lemma onec_add_spec a b :
  is_word a -> is_word b ->
  is_word (onec_add a b) /\ (onec_add a b = 0 <-> a + b = 0)
  /\ exists q, onec_add a b = a + b - q * 65535.
Proof.
  intros. unfold onec_add. case_cmp_step; (split; [lia|]; split; [lia|]);
    [exists 0|exists 1]; lia.
Qed.

(** The end-around sum is the representative of the integer sum modulo
    65535 that is 0 only for 0. *)
Lemma onec_sum_spec ws :
  Forall (fun w => is_word w) ws ->
  is_word (onec_sum ws) /\ (onec_sum ws = 0 <-> zsum ws = 0) /\ 0 <= zsum ws
  /\ exists q, onec_sum ws = zsum ws - q * 65535.
Proof.
  induction 1 as [|w ws Hw Hws (IH1 & IH2 & IH3 & q & IH4)]; simpl.
  { split_and!; try done. by exists 0. }
  destruct (onec_add_spec w (onec_sum ws)) as (H1 & H2 & q' & H3); [done..|].
  split_and!; try lia. exists (q + q'). lia.
Qed.

Lemma checksum_valid_iff ws :
  Forall (fun w => is_word w) ws ->
  checksum_valid ws <-> 0 < zsum ws /\ exists q, zsum ws = q * 65535.
Proof.
  intros (H1 & H2 & H3 & q & H4)%onec_sum_spec. unfold checksum_valid. split.
  - intros He. split; [lia|]. exists (q + 1). lia.
  - intros [Hp [q' Hq]]. assert (0 < onec_sum ws) by lia. nia.
Qed.

Lemma fold_spec s :
  0 <= s < 2 ^ 32 ->
  is_word (fold s) /\ (fold s = 0 <-> s = 0) /\ exists q, fold s = s - q * 65535.
Proof.
  intros Hs. unfold fold, u32_of, u16_of. rewrite land_65535, !shiftr_div by lia.
  change (2 ^ 16) with 65536. pose proof (Z.div_mod s 65536 ltac:(lia)) as Hd.
  pose proof (Z.mod_pos_bound s 65536 ltac:(lia)) as Hm.
  assert (0 <= s / 65536 < 65536) as Hq
    by (split; [apply Z.div_pos|apply Z.div_lt_upper_bound]; lia).
  set (hi := s / 65536) in *. set (lo := s mod 65536) in *. clearbody hi lo.
  rewrite (wrap_small 32 (hi + lo)) by (unfold in_width; lia).
  rewrite (wrap_small 32) by (unfold in_width; Z.div_mod_to_equations; lia).
  destruct (decide (hi + lo < 65536)) as [Hc|Hc].
  - rewrite (Z.div_small (hi + lo)), wrap_small by (unfold in_width; lia).
    split_and!; try lia. exists hi. lia.
  - assert ((hi + lo) / 65536 = 1) as -> by (Z.div_mod_to_equations; lia).
    unfold wrap. change (2 ^ 16) with 65536.
    replace (hi + lo + 1) with (hi + lo - 65535 + 1 * 65536) by lia.
    rewrite Z_mod_plus_full, Z.mod_small by lia.
    split_and!; try lia. exists (hi + 1). lia.
Qed.

(** The checksum computed from the sum of the other words makes the packet
    valid. *)
Lemma checksum_complement ws s c :
  Forall (fun w => is_word w) ws -> 0 < s < 2 ^ 32 -> c = not16 (fold s) ->
  zsum ws = s + c -> checksum_valid ws.
Proof.
  intros Hws Hs -> Hsum. apply checksum_valid_iff; [done|].
  destruct (fold_spec s) as (H1 & H2 & q & H3); [lia|]. unfold not16 in *.
  split; [lia|]. exists (q + 1). lia.
Qed.

(** ** Lemmas: the byte sums *)

Lemma words_is_word data :
  Forall (fun b => is_byte b) data -> Forall (fun w => is_word w) (words data).
Proof.
  assert (Hn : forall n data, (length data <= n)%nat -> Forall (fun b => is_byte b) data ->
    Forall (fun w => is_word w) (words data)); [|eauto].
  induction n as [|n IH]; intros [|a [|b l]] Hl Hb; simpl in *; try lia; try constructor.
  - decompose_Forall_hyps. unfold be16. lia.
  - constructor.
  - decompose_Forall_hyps. unfold be16. lia.
  - decompose_Forall_hyps. apply IH; [lia|done].
Qed.

Lemma zsum_nonneg ws : Forall (fun w => is_word w) ws -> 0 <= zsum ws.
Proof. induction 1; simpl; lia. Qed.

Lemma zsum_app l k : zsum (l ++ k) = zsum l + zsum k.
Proof. induction l; simpl; lia. Qed.

Lemma zsum_bound ws : Forall (fun w => is_word w) ws -> zsum ws <= 65535 * zlen ws.
Proof. induction 1; simpl length; simpl zsum; lia. Qed.

Lemma words_app_even l k : Nat.Even (length l) -> words (l ++ k) = words l ++ words k.
Proof.
  intros [n Hn]. revert l Hn. induction n as [|n IH]; intros [|a [|b l]] Hn; simpl in *; try lia.
  - done.
  - f_equal. apply IH. lia.
Qed.

Lemma length_words l : (2 * length (words l) <= length l + 1)%nat.
Proof.
  assert (Hn : forall n l, (length l <= n)%nat -> (2 * length (words l) <= length l + 1)%nat);
    [|eauto].
  clear l. induction n as [|n IH]; intros [|a [|b l]] Hl; simpl in *; try lia.
  specialize (IH l ltac:(lia)). lia.
Qed.

Lemma sum_body_loop_spec data : forall acc,
  Forall (fun b => is_byte b) data -> 0 <= acc -> acc + zsum (words data) < 2 ^ 32 ->
  sum_body_loop data acc = acc + zsum (words data).
Proof.
  assert (Hn : forall n data acc, (length data <= n)%nat ->
    Forall (fun b => is_byte b) data -> 0 <= acc -> acc + zsum (words data) < 2 ^ 32 ->
    sum_body_loop data acc = acc + zsum (words data)); [|eauto].
  clear data. unfold u32_of.
  induction n as [|n IH]; intros [|a [|b l]] acc Hl Hb Ha Hs; simpl in *; try lia.
  - decompose_Forall_hyps. unfold u32_of, be16 in *. rewrite Z.shiftl_mul_pow2 by lia.
    change (2 ^ 8) with 256 in *. rewrite (wrap_small 32 (a * 256)), wrap_small;
      unfold in_width; lia.
  - decompose_Forall_hyps. unfold u32_of.
    pose proof (zsum_nonneg (words l) ltac:(by apply words_is_word)).
    assert (0 <= be16 a b) by (unfold be16; lia).
    rewrite wrap_small by (unfold in_width; lia). rewrite IH; try lia. done.
Qed.

Lemma sum_body_spec data :
  Forall (fun b => is_byte b) data -> zlen data < 131072 ->
  sum_body data = zsum (words data) /\ 0 <= sum_body data < 65535 * 65537.
Proof.
  intros Hb Hl. pose proof (words_is_word data Hb) as Hw.
  pose proof (zsum_bound _ Hw). pose proof (zsum_nonneg _ Hw). pose proof (length_words data).
  unfold sum_body. rewrite sum_body_loop_spec; [lia|done|lia|lia].
Qed.

(** ** Lemmas: the cookie *)

(** [K] is odd, so multiplication by it can be undone modulo [2 ^ 32]. *)
Definition K_inv : Z := 1571482893.

Lemma wrap_K_inj a b : wrap 32 (a * K) = wrap 32 (b * K) -> wrap 32 a = wrap 32 b.
Proof.
  intros H. assert (Hm : forall z, wrap 32 z = wrap 32 (wrap 32 (z * K) * K_inv)).
  { intros z. rewrite wrap_mul_l, <- Z.mul_assoc. unfold wrap. rewrite <- Z.mul_mod_idemp_r by lia.
    change (K * K_inv mod 2 ^ 32) with 1. f_equal. lia. }
  rewrite (Hm a), (Hm b), H. done.
Qed.

Lemma wrap_64_32 z : wrap 32 (wrap 64 z) = wrap 32 z.
Proof.
  unfold wrap. change (2 ^ 64) with (2 ^ 32 * 2 ^ 32). rewrite Z.rem_mul_r by lia.
  rewrite (Z.mul_comm (2 ^ 32)), Z_mod_plus_full. apply Zmod_mod.
Qed.

Lemma cookie_width addr port seed : in_u32 (cookie addr port seed).
Proof. apply wrap_width. lia. Qed.

Lemma cookie_alt addr port seed :
  cookie addr port seed = wrap 32 (((ne_bits addr * K + port) * K + seed) * K).
Proof.
  unfold cookie, wrapping_mul, wrapping_add, u64_of, u32_of.
  rewrite (wrap_add_l 64 _ port), (wrap_mul_l 64 (_ + port)), (wrap_add_l 64 _ seed).
  rewrite wrap_mul_l. apply wrap_64_32.
Qed.

Lemma cookie_eq_iff a p s a' p' s' :
  cookie a p s = cookie a' p' s' <->
  wrap 32 ((ne_bits a * K + p) * K + s) = wrap 32 ((ne_bits a' * K + p') * K + s').
Proof.
  rewrite !cookie_alt. split; [apply wrap_K_inj|].
  intros H. by rewrite <- wrap_mul_l, H, wrap_mul_l.
Qed.

Lemma wrap_add_cancel w a b c : wrap w (a + c) = wrap w (b + c) -> wrap w a = wrap w b.
Proof.
  intros H. replace a with (a + c - c) by lia. replace b with (b + c - c) by lia.
  by rewrite <- wrap_sub_l, H, wrap_sub_l.
Qed.

(** ** Properties *)

(** The cookie is the documented multiplicative hash, and within a session
    (one seed) it tells targets apart: two addresses never share a cookie on
    the same port, nor two ports on the same address; and a cookie of another
    session matches only if the seeds agree modulo [2 ^ 32]. *)
Theorem cookie_distinguishes (a a' : Ipv4Addr) (p p' s s' : Z) :
  in_u32 a -> in_u32 a' -> in_u16 p -> in_u16 p' ->
  cookie a p s = ((ne_bits a * K + p) * K + s) * K mod 2 ^ 32
  /\ (cookie a p s = cookie a' p s -> a = a')
  /\ (cookie a p s = cookie a p' s -> p = p')
  /\ (cookie a p s = cookie a p s' <-> s mod 2 ^ 32 = s' mod 2 ^ 32).
Proof.
  intros Ha Ha' Hp Hp'. split; [apply cookie_alt|]. rewrite !cookie_eq_iff. split_and!.
  - intros H%wrap_add_cancel%wrap_K_inj%wrap_add_cancel%wrap_K_inj.
    rewrite !wrap_small in H by (by apply ne_bits_width). by apply ne_bits_inj.
  - rewrite !(Z.add_comm (ne_bits a * K)).
    intros H%wrap_add_cancel%wrap_K_inj%wrap_add_cancel.
    unfold in_width in *. rewrite !wrap_small in H; unfold in_width; lia.
  - rewrite !(Z.add_comm (_ * K)). split; [apply wrap_add_cancel|].
    intros H. unfold wrap. by rewrite <- Zplus_mod_idemp_l, H, Zplus_mod_idemp_l.
Qed.

(** C29: the folded sum of any [u32] accumulator is its one's complement sum,
    and the byte sum of a body is the sum of its 16-bit words, for every body
    that fits in a frame; so complementing the folded sum of the other words
    yields a checksum every receiver accepts. *)
Theorem fold_sum_checksum (data rest : list Z) :
  Forall (fun b => 0 <= b < 256) data -> zlen data < 131072 ->
  Forall (fun w => 0 <= w <= 65535) rest ->
  0 < zsum rest + sum_body data < 2 ^ 32 ->
  checksum_valid (not16 (fold (zsum rest + sum_body data)) :: rest ++ words data).
Proof.
  intros Hd Hl Hr Hs. destruct (sum_body_spec data Hd Hl) as [He _].
  destruct (fold_spec (zsum rest + sum_body data)) as [Hf _]; [lia|].
  eapply checksum_complement; [|exact Hs|done|].
  - constructor; [unfold not16; lia|]. apply Forall_app; auto using words_is_word.
  - simpl. rewrite zsum_app. lia.
Qed.

(** ** Witnesses *)

Lemma cookie_distinguishes_witness :
  cookie 3232235777 25565 12345
  = ((ne_bits 3232235777 * K + 25565) * K + 12345) * K mod 2 ^ 32
  /\ cookie 3232235777 25565 12345 <> cookie 3232235778 25565 12345.
Proof.
  destruct (cookie_distinguishes 3232235777 3232235778 25565 25565 12345 12345)
    as (He & Hne & _); [unfold in_width; lia..|].
  split; [exact He|]. intros Hc. apply Hne in Hc. discriminate Hc.
Defined.

Lemma fold_sum_checksum_witness :
  checksum_valid (not16 (fold (6 + 28 + sum_body [1; 2; 3])) :: [6; 28] ++ words [1; 2; 3]).
Proof.
  apply (fold_sum_checksum [1; 2; 3] [6; 28]); [repeat constructor; lia|simpl; lia
    |repeat constructor; lia|vm_compute; done].
Defined.
