(* ===== verification/Ring.v ===== *)
(** * AF_XDP rings: [xdp/ring.rs]

    A ring is a single-producer single-consumer queue in memory shared with
    the kernel.  The [prod] and [cons] counters of the shared area are [u32]
    and wrap; user space works on cached copies of them.  For the fill and TX
    rings user space produces and the kernel consumes, for the RX and
    completion rings it is the other way round. *)

From S2P Require Import Prelude.

Record Descriptor : Type := mkDesc { d_addr : Z; d_len : Z; d_options : Z }.

Record RingOffset : Type :=
  mkOffset { o_producer : Z; o_consumer : Z; o_desc : Z; o_flags : Z }.

Record MmapOffsets : Type :=
  mkOffsets { off_rx : RingOffset; off_tx : RingOffset;
              off_fr : RingOffset; off_cr : RingOffset }.

Inductive RingKind : Set := Fill | Complete | Tx | Rx.

Definition get_offset (self : MmapOffsets) (kind : RingKind) : RingOffset :=
  match kind with
  | Fill => off_fr self
  | Complete => off_cr self
  | Tx => off_tx self
  | Rx => off_rx self
  end.

(** The cells of the shared area the code reads and writes with atomics. *)
Record Shared : Type := mkShared { prod : Z; cons : Z; flags : Z }.

Record Ring (T : Type) : Type := mkRing {
  cached_prod : Z;
  cached_cons : Z;
  size : Z;
  ring : list T }.
Arguments mkRing {T} _ _ _ _.
Arguments cached_prod {T} _.
Arguments cached_cons {T} _.
Arguments size {T} _.
Arguments ring {T} _.

(** [fetch_add_u32] on the two counters; the value before the addition is
    returned and wrap-around is that of [AtomicU32]. *)
Definition fetch_add_prod (sh : Shared) (value : Z) : Z * Shared :=
  (prod sh, mkShared (u32_of (prod sh + value)) (cons sh) (flags sh)).
Definition fetch_add_cons (sh : Shared) (value : Z) : Z * Shared :=
  (cons sh, mkShared (prod sh) (u32_of (cons sh + value)) (flags sh)).

(** The cached counters a fresh ring starts with, by kind. *)
Definition initial_counters (kind : RingKind) (sh : Shared) (sz : Z) : Z * Z :=
  match kind with
  | Fill => (0, sz)
  | Complete => (0, 0)
  | Tx => (prod sh, u32_of (cons sh + sz))
  | Rx => (prod sh, cons sh)
  end.

Definition ring_new {T} (kind : RingKind) (sh : Shared) (sz : Z) (area : list T) : Ring T :=
  let '(p, c) := initial_counters kind sh sz in mkRing p c sz area.

(** [RingFlags::needs_wakeup]; the bit is the kernel header's
    [XDP_RING_NEED_WAKEUP]. *)
Definition needs_wakeup (wakeup_bit : Z) (sh : Shared) : bool :=
  negb (Z.land (flags sh) wakeup_bit =? 0).

Section ops.
Context {T : Type}.
Implicit Types (r : Ring T) (sh : Shared).

(** [Index] and [IndexMut]: the position of an index is its remainder modulo
    the size of the ring. *)
Definition slot_of r (ix : Z) : Z := ix mod size r.

Definition ring_get r (ix : Z) : option T := ring r !! Z.to_nat (slot_of r ix).

Definition ring_set r (ix : Z) (v : T) : Ring T :=
  mkRing (cached_prod r) (cached_cons r) (size r)
    (<[Z.to_nat (slot_of r ix) := v]> (ring r)).

(** ** [Producer] *)

Definition free r sh (batch_size : Z) : Z * Ring T :=
  let free_entries := u32_of (cached_cons r - cached_prod r) in
  if batch_size <=? free_entries then (free_entries, r)
  else
    let r := mkRing (cached_prod r) (u32_of (cons sh + size r)) (size r) (ring r) in
    (u32_of (cached_cons r - cached_prod r), r).

Definition reserve r sh (batch_size : Z) : option Z * Ring T :=
  let '(n, r) := free r sh batch_size in
  if n <? batch_size then (None, r)
  else
    let ix := cached_prod r in
    (Some ix, mkRing (u32_of (cached_prod r + batch_size)) (cached_cons r) (size r) (ring r)).

Definition submit sh (batch_size : Z) : Z * Shared := fetch_add_prod sh batch_size.

(** ** [Consumer] *)

Definition available r sh (batch_size : Z) : Z * Ring T :=
  let entries := u32_of (cached_prod r - cached_cons r) in
  if entries <? batch_size then
    let r := mkRing (prod sh) (cached_cons r) (size r) (ring r) in
    (Z.min (u32_of (cached_prod r - cached_cons r)) batch_size, r)
  else (Z.min entries batch_size, r).

Definition peek r sh (batch_size : Z) : option (Z * Z) * Ring T :=
  let '(entries, r) := available r sh batch_size in
  if entries =? 0 then (None, r)
  else
    let ix := cached_cons r in
    (Some (ix, entries),
     mkRing (cached_prod r) (u32_of (cached_cons r + entries)) (size r) (ring r)).

Definition unpeek r (entries : Z) : Ring T :=
  mkRing (cached_prod r) (u32_of (cached_cons r - entries)) (size r) (ring r).

Definition release sh (batch_size : Z) : Z * Shared := fetch_add_cons sh batch_size.

End ops.

(** ** The producer's side as a state machine

    [pending] lists the indices reserved and not yet submitted, [inflight]
    those submitted and not yet consumed by the kernel, oldest first.  They
    are bookkeeping: no operation reads them. *)

Record producer_side : Type := mkPS {
  p_ring : Ring Z;
  p_shared : Shared;
  pending : list Z;
  inflight : list Z }.

(** The indices of a reservation: consecutive, with [u32] wrap-around. *)
Definition reservation (ix n : Z) : list Z := (fun i => u32_of (ix + i)) <$> seqZ 0 n.

Inductive pstep : producer_side -> producer_side -> Prop :=
  | step_reserve r sh pend infl n ix r' :
      0 <= n < 2 ^ 32 -> reserve r sh n = (Some ix, r') ->
      pstep (mkPS r sh pend infl) (mkPS r' sh (pend ++ reservation ix n) infl)
  | step_reserve_fails r sh pend infl n r' :
      0 <= n < 2 ^ 32 -> reserve r sh n = (None, r') ->
      pstep (mkPS r sh pend infl) (mkPS r' sh pend infl)
  | step_write r sh pend infl ix v :
      ix ∈ pend ->
      pstep (mkPS r sh pend infl) (mkPS (ring_set r ix v) sh pend infl)
  | step_submit r sh pend infl n old sh' :
      0 <= n <= zlen pend -> submit sh n = (old, sh') ->
      pstep (mkPS r sh pend infl)
        (mkPS r sh' (drop (Z.to_nat n) pend) (infl ++ take (Z.to_nat n) pend))
  | step_kernel r sh pend infl k :
      (* the kernel advances the consumer counter past submitted entries *)
      0 <= k <= zlen infl ->
      pstep (mkPS r sh pend infl)
        (mkPS r (mkShared (prod sh) (u32_of (cons sh + k)) (flags sh)) pend
           (drop (Z.to_nat k) infl)).

(** A producer ring as the allocator hands it out: the kernel's counters are
    equal (nothing is in flight) and the cached counters come from [new]. *)
Definition producer_start (c : producer_side) : Prop :=
  exists kind sh sz area, c = mkPS (ring_new kind sh sz area) sh [] []
    /\ prod sh = cons sh /\ in_u32 (prod sh) /\ 0 < sz < 2 ^ 32
    /\ (kind = Tx \/ (kind = Fill /\ prod sh = 0)).

(** ** The consumer's side as a state machine

    [produced] lists the indices the kernel has produced and user space has
    not peeked, [peeked] those peeked and not yet released, oldest first. *)

Record consumer_side : Type := mkCS {
  c_ring : Ring Z;
  c_shared : Shared;
  peeked : list Z;
  produced : list Z }.

Inductive cstep : consumer_side -> consumer_side -> Prop :=
  | step_peek r sh pk pd n ix k r' :
      0 <= n < 2 ^ 32 -> peek r sh n = (Some (ix, k), r') ->
      cstep (mkCS r sh pk pd)
        (mkCS r' sh (pk ++ take (Z.to_nat k) pd) (drop (Z.to_nat k) pd))
  | step_peek_empty r sh pk pd n r' :
      0 <= n < 2 ^ 32 -> peek r sh n = (None, r') ->
      cstep (mkCS r sh pk pd) (mkCS r' sh pk pd)
  | step_unpeek r sh pk1 pk2 pd :
      (* the entries of the last peek are put back *)
      cstep (mkCS r sh (pk1 ++ pk2) pd) (mkCS (unpeek r (zlen pk2)) sh pk1 (pk2 ++ pd))
  | step_release r sh pk pd n old sh' :
      0 <= n <= zlen pk -> release sh n = (old, sh') ->
      cstep (mkCS r sh pk pd) (mkCS r sh' (drop (Z.to_nat n) pk) pd)
  | step_kernel_produce r sh pk pd k :
      (* the kernel produces into slots that have been released *)
      0 <= k -> zlen pk + zlen pd + k <= size r ->
      cstep (mkCS r sh pk pd)
        (mkCS r (mkShared (u32_of (prod sh + k)) (cons sh) (flags sh)) pk
           (pd ++ reservation (prod sh) k)).

Definition consumer_start (c : consumer_side) : Prop :=
  exists kind sh sz area, c = mkCS (ring_new kind sh sz area) sh [] []
    /\ prod sh = cons sh /\ in_u32 (prod sh) /\ 0 < sz < 2 ^ 32
    /\ (kind = Rx \/ (kind = Complete /\ prod sh = 0)).

(** ** Lemmas: runs of consecutive indices *)

Definition run (c n : Z) : list Z := (fun i => u32_of (c + i)) <$> seqZ 0 n.

Lemma reservation_run c n : reservation (u32_of c) n = run c n.
Proof. apply list_fmap_ext. intros i x _. apply wrap_add_l. Qed.

Lemma length_run c n : 0 <= n -> zlen (run c n) = n.
Proof. intros. unfold run. rewrite length_fmap, length_seqZ. lia. Qed.

Lemma run_app c n m : 0 <= n -> 0 <= m -> run c (n + m) = run c n ++ run (c + n) m.
Proof.
  intros. unfold run. rewrite seqZ_app, fmap_app by lia. f_equal.
  rewrite (Z.add_comm 0 n), <- fmap_add_seqZ, <- list_fmap_compose.
  apply list_fmap_ext. intros i x _. simpl. f_equal. lia.
Qed.

Lemma run_split c n k : 0 <= k <= n ->
  take (Z.to_nat k) (run c n) = run c k /\ drop (Z.to_nat k) (run c n) = run (c + k) (n - k).
Proof.
  intros Hk. replace n with (k + (n - k)) at 1 2 by lia. rewrite run_app by lia.
  pose proof (length_run c k). rewrite take_app_length', drop_app_length' by lia. done.
Qed.

(** The pieces of a run that is cut in two. *)
Lemma run_cut c n (l k : list Z) :
  0 <= n -> l ++ k = run c n ->
  l = run c (zlen l) /\ k = run (c + zlen l) (zlen k) /\ n = zlen l + zlen k.
Proof.
  intros Hn Hlk. assert (Hlen : n = zlen l + zlen k).
  { rewrite <- (length_run c n Hn), <- Hlk, length_app. lia. }
  destruct (run_split c n (zlen l)) as [H1 H2]; [lia|].
  rewrite <- Hlk, Nat2Z.id, take_app_length in H1.
  rewrite <- Hlk, Nat2Z.id, drop_app_length in H2.
  split_and!; [done| |done]. rewrite H2 at 1. f_equal. lia.
Qed.

(** Counters that differ by less than the width are told apart by wrapped
    subtraction. *)
Lemma u32_sub_run a b : 0 <= a - b < 2 ^ 32 -> u32_of (u32_of a - u32_of b) = a - b.
Proof. intros. unfold u32_of. rewrite wrap_sub_l, wrap_sub_r. by apply wrap_small. Qed.

(** When the size divides [2 ^ 32], a run no longer than the ring occupies
    distinct slots, also across the wrap-around of the counters. *)
Lemma run_slots_NoDup (r : Ring Z) c n :
  0 < size r -> (size r | 2 ^ 32) -> 0 <= n <= size r -> NoDup (slot_of r <$> run c n).
Proof.
  intros Hs Hd Hn. unfold run. rewrite <- list_fmap_compose.
  apply NoDup_fmap_2_strong; [|apply NoDup_seqZ].
  intros i j Hi Hj He. apply elem_of_seqZ in Hi, Hj. simpl in He.
  unfold slot_of, u32_of, wrap in He.
  rewrite !Z.mod_mod_divide in He by done.
  assert (He' : (i - j) mod size r = 0).
  { replace (i - j) with (c + i - (c + j)) by lia.
    rewrite Zminus_mod, He, Z.sub_diag. apply Z.mod_0_l. lia. }
  apply Z.mod_divide in He' as [q Hq]; [|lia].
  destruct (decide (q = 0)) as [->|]; [lia|]. assert (q <= -1 \/ 1 <= q) as [?|?] by lia; nia.
Qed.

(** Nearby indices have different slots. *)
Lemma slots_differ (sz i j : Z) : 0 < i - j < sz -> Z.to_nat (i mod sz) <> Z.to_nat (j mod sz).
Proof.
  intros Hd He. pose proof (Z.mod_pos_bound i sz ltac:(lia)). pose proof (Z.mod_pos_bound j sz ltac:(lia)).
  apply Z2Nat.inj in He; [|lia..]. pose proof (Z.div_mod i sz ltac:(lia)).
  pose proof (Z.div_mod j sz ltac:(lia)).
  assert (Hq : i - j = sz * (i / sz - j / sz)) by lia.
  destruct (decide (i / sz - j / sz <= 0)); nia.
Qed.

Lemma slot_u32 {T} (r : Ring T) x :
  (size r | 2 ^ 32) -> slot_of r (u32_of x) = slot_of r x.
Proof. intros Hd. unfold slot_of, u32_of, wrap. by apply Z.mod_mod_divide. Qed.

(** Slots of a batch no longer than the ring are apart. *)
Lemma batch_slots {T} (r : Ring T) index i j :
  (size r | 2 ^ 32) -> i <> j -> 0 <= i < size r -> 0 <= j < size r ->
  slot_of r (u32_of (index + i)) <> slot_of r (u32_of (index + j)).
Proof.
  intros Hd Hne Hi Hj He. rewrite !slot_u32 in He by done. unfold slot_of in He.
  destruct (decide (j < i)).
  - apply (slots_differ (size r) (index + i) (index + j)); [lia|]. by rewrite He.
  - apply (slots_differ (size r) (index + j) (index + i)); [lia|]. by rewrite He.
Qed.

(** What a reservation does to the ring. *)
Lemma reserve_facts {T} (r : Ring T) sh k o r' :
  reserve r sh k = (o, r') ->
  size r' = size r /\ ring r' = ring r
  /\ match o with
     | Some ix => ix = cached_prod r /\ cached_prod r' = u32_of (cached_prod r + k)
     | None => cached_prod r' = cached_prod r
               /\ u32_of (u32_of (cons sh + size r) - cached_prod r) < k
     end.
Proof.
  unfold reserve, free. intros E. destruct (k <=? _) eqn:E1; simpl in E;
    (destruct (_ <? k) eqn:E2; simplify_eq; simpl; split_and!; try done).
  - apply Z.leb_le in E1. apply Z.ltb_lt in E2. lia.
  - by apply Z.ltb_lt.
Qed.

(** What a look at the consumer's ring does. *)
Lemma peek_size {T} (r : Ring T) sh n o r' : peek r sh n = (o, r') -> size r' = size r.
Proof. unfold peek, available. destruct (_ <? n); simpl; destruct (_ =? 0); by intros [= _ <-]. Qed.

Lemma peek_facts {T} (r : Ring T) sh n ix k r' :
  peek r sh n = (Some (ix, k), r') -> 0 <= n ->
  0 < k <= n /\ size r' = size r /\ ring r' = ring r
  /\ cached_cons r' = u32_of (cached_cons r + k) /\ ix = cached_cons r.
Proof.
  unfold peek, available. intros E Hn.
  assert (Hw : forall x, 0 <= u32_of x) by (intros; apply wrap_width; lia).
  pose proof (Hw (cached_prod r - cached_cons r)). pose proof (Hw (prod sh - cached_cons r)).
  destruct (_ <? n) eqn:E1; simpl in E; (destruct (_ =? 0) eqn:E2; [done|]);
    apply Z.eqb_neq in E2; simplify_eq; simpl; split_and!; try done; lia.
Qed.

(** ** Lemmas: the producer's invariant *)

(** [c] counts the entries consumed since the ring was created, [c0] those
    consumed when the cached counter was last refreshed. *)
Definition pinv_at (c c0 : Z) (s : producer_side) : Prop :=
  let r := p_ring s in let n := zlen (inflight s ++ pending s) in
  inflight s ++ pending s = run c n
  /\ cons (p_shared s) = u32_of c
  /\ prod (p_shared s) = u32_of (c + zlen (inflight s))
  /\ cached_prod r = u32_of (c + n)
  /\ cached_cons r = u32_of (c0 + size r)
  /\ c0 <= c /\ c + n <= c0 + size r /\ 0 < size r < 2 ^ 32.

Definition pinv (s : producer_side) : Prop := exists c c0, pinv_at c c0 s.

Lemma pinv_start s : producer_start s -> pinv s.
Proof.
  intros (kind & sh & sz & area & -> & Hpc & Hw & Hsz & Hk). exists (cons sh), (cons sh).
  destruct sh as [p c f]; simpl in *; subst p.
  destruct Hk as [-> | [-> ->]]; unfold pinv_at; simpl; unfold u32_of; rewrite ?Z.add_0_r;
    rewrite ?(wrap_small 32 c) by done; split_and!; try done; try lia.
  rewrite wrap_small; [lia|]. unfold in_width. lia.
Qed.

(** What [free] computes under the invariant. *)
Lemma free_spec c c0 r sh n pend infl :
  pinv_at c c0 (mkPS r sh pend infl) -> 0 <= n ->
  exists c0' r', free r sh n = (c0' + size r - (c + zlen (infl ++ pend)), r')
    /\ pinv_at c c0' (mkPS r' sh pend infl) /\ size r' = size r
    /\ (n <= c0' + size r - (c + zlen (infl ++ pend)) <-> zlen (infl ++ pend) + n <= size r).
Proof.
  intros (Hrun & Hc & Hp & Hcp & Hcc & Hle & Hb & Hs) Hn. simpl in *.
  unfold free. rewrite Hcc, Hcp, u32_sub_run by lia. case_cmp_step; simpl.
  - exists c0, r. split_and!; done || lia.
  - assert (Hcs : u32_of (cons sh + size r) = u32_of (c + size r)).
    { rewrite Hc. apply wrap_add_l. }
    rewrite Hcs, u32_sub_run by lia. exists c. eexists. split; [done|].
    unfold pinv_at. simpl. split_and!; done || lia.
Qed.

Lemma reserve_spec c c0 r sh n pend infl :
  pinv_at c c0 (mkPS r sh pend infl) -> 0 <= n ->
  exists c0' r', pinv_at c c0' (mkPS r' sh pend infl) /\ size r' = size r
    /\ (zlen (infl ++ pend) + n <= size r ->
        c + zlen (infl ++ pend) + n <= c0' + size r)
    /\ reserve r sh n =
        if decide (zlen (infl ++ pend) + n <= size r)
        then (Some (u32_of (c + zlen (infl ++ pend))),
              mkRing (u32_of (c + zlen (infl ++ pend) + n)) (cached_cons r') (size r') (ring r'))
        else (None, r').
Proof.
  intros Hi Hn. destruct (free_spec c c0 r sh n pend infl Hi Hn) as (c0' & r' & Hf & Hi' & Hs & Hiff).
  exists c0', r'. split; [done|]. split; [done|]. split; [lia|].
  unfold reserve. rewrite Hf. pose proof Hi' as (_ & _ & _ & Hcp & _). simpl in Hcp.
  case_decide; case_cmp_step; try lia; [|done].
  rewrite Hcp. unfold u32_of. by rewrite wrap_add_l.
Qed.

Lemma pinv_step s s' : pstep s s' -> pinv s -> pinv s'.
Proof.
  intros Hst [c [c0 Hi]]. destruct Hst as
    [r sh pend infl n ix r' Hn Hr | r sh pend infl n r' Hn Hr | r sh pend infl ix v Hv
    | r sh pend infl n old sh' Hn Hsub | r sh pend infl k Hk].
  - destruct (reserve_spec c c0 r sh n pend infl Hi) as (c0' & r2 & Hi2 & Hsz & Hfit & Hres); [lia|].
    rewrite Hr in Hres. case_decide; simplify_eq. exists c, c0'.
    destruct Hi2 as (Hrun & Hc & Hp & Hcp & Hcc & Hle & Hb & Hs). unfold pinv_at. simpl in *.
    set (m := zlen (infl ++ pend)) in *. rewrite reservation_run, app_assoc.
    assert (zlen ((infl ++ pend) ++ run (c + m) n) = m + n) as ->.
    { rewrite length_app, Nat2Z.inj_add, length_run by lia. done. }
    split_and!; try done; try lia; [|f_equal; lia].
    rewrite run_app by lia. congruence.
  - destruct (reserve_spec c c0 r sh n pend infl Hi) as (c0' & r2 & Hi2 & Hsz & Hfit & Hres); [lia|].
    rewrite Hr in Hres. case_decide; simplify_eq. by exists c, c0'.
  - by exists c, c0.
  - unfold submit, fetch_add_prod in Hsub. simplify_eq. exists c, c0.
    destruct Hi as (Hrun & Hc & Hp & Hcp & Hcc & Hle & Hb & Hs). unfold pinv_at. simpl in *.
    rewrite <- app_assoc, take_drop. split_and!; try done; try lia.
    rewrite Hp, length_app, length_take, Nat2Z.inj_add. unfold u32_of. rewrite wrap_add_l. f_equal. lia.
  - exists (c + k), c0.
    destruct Hi as (Hrun & Hc & Hp & Hcp & Hcc & Hle & Hb & Hs). unfold pinv_at. simpl in *.
    pose proof (run_split c (zlen (infl ++ pend)) k) as [_ Hd]; [rewrite length_app; lia|].
    rewrite <- Hrun, drop_app_le in Hd by lia.
    assert (Hl : zlen (drop (Z.to_nat k) infl ++ pend) = zlen (infl ++ pend) - k).
    { rewrite !length_app, length_drop. lia. }
    rewrite Hl. split_and!; try done; try lia.
    + rewrite Hc. apply wrap_add_l.
    + rewrite Hp, length_drop. f_equal. lia.
    + rewrite Hcp. f_equal. lia.
Qed.

Lemma pinv_reachable s0 s : producer_start s0 -> rtc pstep s0 s -> pinv s.
Proof.
  intros Hs Hr. apply pinv_start in Hs. induction Hr; eauto using pinv_step.
Qed.

(** ** Lemmas: the consumer's invariant *)

(** [c] counts the entries released since the ring was created, [p0] those
    produced when the cached counter was last refreshed. *)
Definition cinv_at (c p0 : Z) (s : consumer_side) : Prop :=
  let r := c_ring s in let n := zlen (peeked s ++ produced s) in
  peeked s ++ produced s = run c n
  /\ cons (c_shared s) = u32_of c
  /\ prod (c_shared s) = u32_of (c + n)
  /\ cached_cons r = u32_of (c + zlen (peeked s))
  /\ cached_prod r = u32_of p0
  /\ c + zlen (peeked s) <= p0 <= c + n /\ n <= size r /\ 0 < size r < 2 ^ 32.

Definition cinv (s : consumer_side) : Prop := exists c p0, cinv_at c p0 s.

Lemma cinv_start s : consumer_start s -> cinv s.
Proof.
  intros (kind & sh & sz & area & -> & Hpc & Hw & Hsz & Hk). exists (cons sh), (cons sh).
  destruct sh as [p c f]; simpl in *; subst p.
  destruct Hk as [-> | [-> ->]]; unfold cinv_at; simpl; unfold u32_of; rewrite ?Z.add_0_r;
    rewrite ?(wrap_small 32 c) by done; split_and!; done || lia.
Qed.

Lemma available_spec c p0 r sh n pk pd :
  cinv_at c p0 (mkCS r sh pk pd) -> 0 <= n ->
  exists p0' r', available r sh n = (Z.min (p0' - (c + zlen pk)) n, r')
    /\ cinv_at c p0' (mkCS r' sh pk pd) /\ size r' = size r
    /\ (p0' - (c + zlen pk) < n -> p0' - (c + zlen pk) = zlen pd).
Proof.
  intros (Hrun & Hc & Hp & Hcc & Hcp & Hle & Hb & Hs) Hn. simpl in *.
  rewrite length_app in *. unfold available. rewrite Hcc, Hcp, u32_sub_run by lia.
  case_cmp_step; simpl.
  - rewrite Hp, u32_sub_run by lia. eexists (c + zlen (pk ++ pd)). eexists.
    rewrite length_app. split; [done|]. unfold cinv_at. simpl. rewrite length_app.
    split_and!; done || lia.
  - exists p0, r. unfold cinv_at. simpl. rewrite length_app. split_and!; done || lia.
Qed.

Lemma peek_spec c p0 r sh n pk pd :
  cinv_at c p0 (mkCS r sh pk pd) -> 0 <= n ->
  exists p0' r' k, cinv_at c p0' (mkCS r' sh pk pd) /\ size r' = size r
    /\ 0 <= k <= Z.min n (p0' - (c + zlen pk)) /\ k <= zlen pd
    /\ (k = 0 <-> n = 0 \/ pd = []) /\ (k < n -> k = zlen pd)
    /\ peek r sh n =
        if decide (k = 0) then (None, r')
        else (Some (u32_of (c + zlen pk), k),
              mkRing (cached_prod r') (u32_of (c + zlen pk + k)) (size r') (ring r')).
Proof.
  intros Hi Hn. destruct (available_spec c p0 r sh n pk pd Hi Hn) as (p0' & r' & Ha & Hi' & Hs & Hiff).
  exists p0', r', (Z.min (p0' - (c + zlen pk)) n). split; [done|]. split; [done|].
  pose proof Hi' as (_ & _ & _ & Hcc & _ & Hle & _). simpl in Hcc, Hle. rewrite length_app in Hle.
  split_and!; try lia.
  - destruct pd; simpl in *; [split; [by right|lia]|].
    split; [|intros [|]; [lia|done]]. left. lia.
  - unfold peek. rewrite Ha. case_decide; case_cmp_step; try lia; [done|].
    rewrite Hcc. unfold u32_of. by rewrite wrap_add_l.
Qed.

Lemma cinv_step s s' : cstep s s' -> cinv s -> cinv s'.
Proof.
  intros Hst [c [p0 Hi]]. destruct Hst as
    [r sh pk pd n ix k r' Hn Hr | r sh pk pd n r' Hn Hr | r sh pk1 pk2 pd
    | r sh pk pd n old sh' Hn Hrel | r sh pk pd k Hk Hfit].
  - destruct (peek_spec c p0 r sh n pk pd Hi) as (p0' & r2 & k2 & Hi2 & Hsz & Hk & Hk2 & _ & _ & Hp);
      [lia|]. rewrite Hr in Hp. case_decide; simplify_eq. exists c, p0'.
    destruct Hi2 as (Hrun & Hc & Hpr & Hcc & Hcp & Hle & Hb & Hs). unfold cinv_at. simpl in *.
    rewrite <- app_assoc, take_drop. rewrite !length_app in *. rewrite length_take.
    split_and!; try done; try lia. f_equal. lia.
  - destruct (peek_spec c p0 r sh n pk pd Hi) as (p0' & r2 & k2 & Hi2 & Hsz & Hk & Hk2 & _ & _ & Hp);
      [lia|]. rewrite Hr in Hp. case_decide; simplify_eq. by exists c, p0'.
  - destruct Hi as (Hrun & Hc & Hpr & Hcc & Hcp & Hle & Hb & Hs). exists c, p0. unfold cinv_at.
    simpl in *. rewrite <- app_assoc in *. rewrite !length_app in *.
    split_and!; try done; try lia. rewrite Hcc. unfold u32_of. rewrite wrap_sub_l. f_equal. lia.
  - unfold release, fetch_add_cons in Hrel. simplify_eq. exists (c + n), p0.
    destruct Hi as (Hrun & Hc & Hpr & Hcc & Hcp & Hle & Hb & Hs). unfold cinv_at. simpl in *.
    pose proof (run_split c (zlen (pk ++ pd)) n) as [_ Hd]; [rewrite length_app; lia|].
    rewrite <- Hrun, drop_app_le in Hd by lia.
    assert (Hl : zlen (drop (Z.to_nat n) pk ++ pd) = zlen (pk ++ pd) - n).
    { rewrite !length_app, length_drop. lia. }
    rewrite Hl, length_drop. split_and!; try done; try lia.
    + rewrite Hc. apply wrap_add_l.
    + rewrite Hpr. f_equal. lia.
    + rewrite Hcc. f_equal. lia.
  - destruct Hi as (Hrun & Hc & Hpr & Hcc & Hcp & Hle & Hb & Hs). exists c, p0. unfold cinv_at.
    simpl in *. rewrite Hpr, reservation_run, app_assoc.
    assert (zlen ((pk ++ pd) ++ run (c + zlen (pk ++ pd)) k) = zlen (pk ++ pd) + k) as ->.
    { rewrite length_app, Nat2Z.inj_add, length_run by lia. done. }
    rewrite length_app in *. split_and!; try done; try lia.
    + rewrite run_app by lia. rewrite <- Nat2Z.inj_add in *. congruence.
    + unfold u32_of. rewrite wrap_add_l. f_equal. lia.
Qed.

Lemma cinv_reachable s0 s : consumer_start s0 -> rtc cstep s0 s -> cinv s.
Proof.
  intros Hs Hr. apply cinv_start in Hs. induction Hr; eauto using cinv_step.
Qed.

(** ** Properties *)

(** C24: whatever the kernel and the program have done to a producer ring, the
    entries reserved or handed to the kernel and not yet consumed occupy
    distinct slots, also after the 32-bit counters have wrapped, and a
    reservation succeeds exactly when that many slots are really free. *)
Theorem producer_no_overwrite (s0 s : producer_side) (n : Z) :
  producer_start s0 -> rtc pstep s0 s -> (size (p_ring s) | 2 ^ 32) -> 0 <= n < 2 ^ 32 ->
  NoDup (slot_of (p_ring s) <$> inflight s ++ pending s)
  /\ (is_Some (reserve (p_ring s) (p_shared s) n).1
      <-> zlen (inflight s ++ pending s) + n <= size (p_ring s)).
Proof.
  intros Hs Hr Hd Hn. destruct (pinv_reachable _ _ Hs Hr) as (c & c0 & Hi).
  destruct s as [r sh pend infl]. simpl in *.
  destruct (reserve_spec c c0 r sh n pend infl Hi) as (c0' & r' & _ & _ & _ & ->); [lia|].
  destruct Hi as (Hrun & _ & _ & _ & _ & ? & ? & ?). simpl in *. split.
  - rewrite Hrun. apply run_slots_NoDup; [lia|done|lia].
  - case_decide; simpl; [|rewrite is_Some_alt]; intuition (done || lia).
Qed.

(** C25: a consumer ring delivers what the kernel produced once and in order:
    a peek returns the oldest undelivered entries, as many as were asked for
    when there are enough, and returns nothing only when nothing is there (or
    nothing was asked for). *)
Theorem consumer_in_order (s0 s : consumer_side) (n : Z) :
  consumer_start s0 -> rtc cstep s0 s -> 0 < n < 2 ^ 32 ->
  match (peek (c_ring s) (c_shared s) n).1 with
  | None => produced s = []
  | Some (ix, k) => 0 < k <= n /\ k <= zlen (produced s)
      /\ (k < n -> k = zlen (produced s))
      /\ take (Z.to_nat k) (produced s) = reservation ix k
  end.
Proof.
  intros Hs Hr Hn. destruct (cinv_reachable _ _ Hs Hr) as (c & p0 & Hi).
  destruct s as [r sh pk pd]. simpl in *.
  destruct (peek_spec c p0 r sh n pk pd Hi)
    as (p0' & r' & k & Hi2 & _ & Hk & Hkd & Hk0 & Hkn & ->); [lia|].
  case_decide; simpl; [naive_solver lia|]. split_and!; try done; try lia.
  destruct Hi as (Hrun & _). simpl in Hrun.
  apply run_cut in Hrun as (_ & -> & _); [|lia]. rewrite reservation_run.
  destruct (run_split (c + zlen pk) (zlen pd) k) as [<- _]; [lia|done].
Qed.

(** ** Witnesses *)

Definition ex_shared : Shared := mkShared (2 ^ 32 - 1) (2 ^ 32 - 1) 0.
Definition ex_producer : producer_side :=
  mkPS (ring_new Tx ex_shared 4 [0; 0; 0; 0]) ex_shared [] [].

Lemma producer_no_overwrite_witness :
  exists s, rtc pstep ex_producer s /\ inflight s ++ pending s = [2 ^ 32 - 1; 0; 1]
    /\ NoDup (slot_of (p_ring s) <$> inflight s ++ pending s).
Proof.
  assert (H : exists s, rtc pstep ex_producer s /\ inflight s ++ pending s = [2 ^ 32 - 1; 0; 1]
    /\ size (p_ring s) = 4).
  { eexists. split.
    - eapply rtc_l; [|apply rtc_refl].
      apply (step_reserve _ _ _ _ 3 (2 ^ 32 - 1)); [lia|vm_compute; reflexivity].
    - split; vm_compute; reflexivity. }
  destruct H as (s & Hr & He & Hs). exists s. split; [done|]. split; [done|].
  apply (producer_no_overwrite ex_producer s 1); [|done| |lia].
  - exists Tx, ex_shared, 4, [0; 0; 0; 0]. unfold in_width. simpl. intuition lia.
  - rewrite Hs. by exists (2 ^ 30).
Defined.

Definition ex_consumer : consumer_side :=
  mkCS (ring_new Rx ex_shared 4 [0; 0; 0; 0]) ex_shared [] [].

Lemma consumer_in_order_witness :
  match (peek (c_ring ex_consumer) (c_shared ex_consumer) 8).1 with
  | None => produced ex_consumer = []
  | Some (ix, k) => 0 < k <= 8 /\ k <= zlen (produced ex_consumer)
      /\ (k < 8 -> k = zlen (produced ex_consumer))
      /\ take (Z.to_nat k) (produced ex_consumer) = reservation ix k
  end.
Proof.
  apply (consumer_in_order ex_consumer ex_consumer 8); [|apply rtc_refl|lia].
  exists Rx, ex_shared, 4, [0; 0; 0; 0]. unfold in_width. simpl. intuition lia.
Defined.
