(* ===== verification/Heap.v ===== *)
(** * Lazy-deletion heaps: [controller/strategy/pmap/heap.rs]

    A priority queue of keys whose priorities can be updated.  An update
    leaves the old entry in [current] and records it in [stale]; entries that
    are at the top of both heaps are dropped when the top is asked for. *)

From S2P Require Import Prelude.

(** ** [BinaryHeap]

    A max-heap is observed only through its greatest element, so it is kept
    here as its elements in descending order. *)

Section binary_heap.
Context {E : Type} `{TotalOrd E}.

Fixpoint bh_push (x : E) (h : list E) : list E :=
  match h with
  | [] => [x]
  | y :: h' => if tle y x then x :: h else y :: bh_push x h'
  end.

Definition bh_peek (h : list E) : option E := head h.

Definition bh_pop (h : list E) : option E * list E :=
  match h with [] => (None, []) | x :: h' => (Some x, h') end.

End binary_heap.

(** ** [LazyHeap] and [ConcurrentLazyHeap]

    [ConcurrentLazyHeap] has the same operations with each container behind a
    lock; the definitions model a call of either that runs without
    interference. *)

Record LazyHeap (K V : Type) `{Countable K} : Type := mkHeap {
  values : gmap K V;
  current : list (V * K);
  stale : list (V * K) }.
Arguments mkHeap {K V _ _} _ _ _.
Arguments values {K V _ _} _.
Arguments current {K V _ _} _.
Arguments stale {K V _ _} _.

Section lazy_heap.
Context {K V : Type} `{Countable K, !TotalOrd K, !TotalOrd V, !EqDecision V}.
Implicit Types (h : LazyHeap K V) (key : K) (value : V).

Definition heap_default : LazyHeap K V := mkHeap ∅ [] [].

(** The [loop] of [_top]: each turn drops an entry from both heaps, so it
    runs at most as often as [stale] is long. *)
Fixpoint top_loop (cur stl : list (V * K)) : list (V * K) * list (V * K) :=
  match cur, stl with
  | a :: cur', b :: stl' => if decide (a = b) then top_loop cur' stl' else (cur, stl)
  | _, _ => (cur, stl)
  end.

Definition _top h : LazyHeap K V :=
  let '(cur, stl) := top_loop (current h) (stale h) in mkHeap (values h) cur stl.

Definition top h : option K * LazyHeap K V :=
  let h := _top h in (snd <$> bh_peek (current h), h).

Definition pop h : LazyHeap K V :=
  let h := _top h in
  match bh_pop (current h) with
  | (Some (_, k), cur) => mkHeap (delete k (values h)) cur (stale h)
  | (None, cur) => mkHeap (values h) cur (stale h)
  end.

Definition query h key : option V := values h !! key.

Definition update h key value : LazyHeap K V :=
  let stl :=
    match values h !! key with
    | Some old => bh_push (old, key) (stale h)
    | None => stale h
    end in
  mkHeap (<[key := value]> (values h)) (bh_push (value, key) (current h)) stl.

Definition clear h : LazyHeap K V := mkHeap ∅ [] [].

(** ** Specification

    The abstract queue is the map of live priorities.  Its top is the live
    entry that is greatest by priority, then by key. *)

Definition live (m : gmap K V) : list (V * K) := prod_swap <$> map_to_list m.

Definition is_max (m : gmap K V) (k : K) : Prop :=
  exists v, m !! k = Some v /\
    forall k' v', m !! k' = Some v' -> tle (v', k') (v, k) = true.

(** Both heaps are in order, and [current] holds the live entries and the
    stale ones. *)
Definition descending (l : list (V * K)) : Prop :=
  StronglySorted (fun a b => tle b a = true) l.

Definition heap_wf h : Prop :=
  descending (current h) /\ descending (stale h)
  /\ current h ≡ₚ live (values h) ++ stale h.

(** The operations as a client sees them: one call, what it returns, the state
    after it. *)
Inductive op : Type :=
  | OpTop
  | OpPop
  | OpQuery (key : K)
  | OpUpdate (key : K) (value : V)
  | OpClear.

Inductive answer : Type :=
  | AKey (k : option K)
  | AValue (v : option V)
  | ADone.

Definition exec (o : op) h : answer * LazyHeap K V :=
  match o with
  | OpTop => let '(k, h') := top h in (AKey k, h')
  | OpPop => (ADone, pop h)
  | OpQuery key => (AValue (query h key), h)
  | OpUpdate key value => (ADone, update h key value)
  | OpClear => (ADone, clear h)
  end.

Fixpoint exec_all (os : list op) h : list answer * LazyHeap K V :=
  match os with
  | [] => ([], h)
  | o :: os =>
      let '(a, h) := exec o h in
      let '(answers, h) := exec_all os h in (a :: answers, h)
  end.

(** The abstract priority queue. *)
Inductive spec_exec : op -> gmap K V -> answer -> gmap K V -> Prop :=
  | spec_top_none : spec_exec OpTop ∅ (AKey None) ∅
  | spec_top m k : is_max m k -> spec_exec OpTop m (AKey (Some k)) m
  | spec_pop_none : spec_exec OpPop ∅ ADone ∅
  | spec_pop m k : is_max m k -> spec_exec OpPop m ADone (delete k m)
  | spec_query m k : spec_exec (OpQuery k) m (AValue (m !! k)) m
  | spec_update m k v : spec_exec (OpUpdate k v) m ADone (<[k := v]> m)
  | spec_clear m : spec_exec OpClear m ADone ∅.

Inductive spec_run : list op -> gmap K V -> list answer -> gmap K V -> Prop :=
  | spec_run_nil m : spec_run [] m [] m
  | spec_run_cons o os m a m' answers m'' :
      spec_exec o m a m' -> spec_run os m' answers m'' ->
      spec_run (o :: os) m (a :: answers) m''.

(** ** Lemmas *)

Lemma bh_push_perm (x : V * K) l : bh_push x l ≡ₚ x :: l.
Proof.
  induction l as [|y l IH]; simpl; [done|].
  destruct (lex_le y x); [done|]. rewrite IH. apply Permutation_swap.
Qed.

Lemma descending_cons (x : V * K) l :
  descending (x :: l) <-> descending l /\ forall y, y ∈ l -> tle y x = true.
Proof.
  unfold descending. split.
  - intros Hs. inversion Hs; subst. split; [done|]. by apply Forall_forall.
  - intros [Hs Hl]. constructor; [done|]. by apply Forall_forall.
Qed.

Lemma bh_push_descending (x : V * K) l : descending l -> descending (bh_push x l).
Proof.
  induction l as [|y l IH]; cbn [bh_push]; intros Hd.
  { apply descending_cons. split; [done|]. intros z Hz. by apply elem_of_nil in Hz. }
  apply descending_cons in Hd as [Hd Hy]. destruct (tle y x) eqn:E.
  - apply descending_cons. split; [by apply descending_cons|].
    intros z [->|Hz]%elem_of_cons; [done|]. eauto using tle_trans.
  - apply descending_cons. split; [auto|]. intros z Hz.
    rewrite bh_push_perm in Hz. apply elem_of_cons in Hz as [->|Hz]; [|auto].
    by apply tle_false in E as [? _].
Qed.

(** The entries dropped by [_top] are a common prefix of the two heaps, and
    afterwards their heads differ. *)
Lemma top_loop_spec cur : forall stl cur' stl',
  top_loop cur stl = (cur', stl') ->
  (exists p, cur = p ++ cur' /\ stl = p ++ stl')
  /\ forall a b, head cur' = Some a -> head stl' = Some b -> a <> b.
Proof.
  induction cur as [|a cur IH]; intros [|b stl] cur' stl' Ht; simpl in Ht;
    try (simplify_eq; split; [by exists []|done]).
  case_decide as Hab; simplify_eq.
  - apply IH in Ht as [(p & -> & ->) Hh]. split; [by exists (b :: p)|done].
  - split; [by exists []|]. simpl. naive_solver.
Qed.

Lemma descending_app_r p l : descending (p ++ l) -> descending l.
Proof. induction p; simpl; [done|]. rewrite descending_cons. tauto. Qed.

Lemma _top_wf h : heap_wf h -> heap_wf (_top h) /\ values (_top h) = values h.
Proof.
  intros (Hc & Hs & Hp). unfold _top. destruct (top_loop _ _) as [cur stl] eqn:E.
  apply top_loop_spec in E as [(p & Ec & Es) _]. rewrite Ec in *. rewrite Es in *.
  split; [|done]. unfold heap_wf. simpl. split_and!; eauto using descending_app_r.
  rewrite (Permutation_app_comm (live (values h))), <- app_assoc in Hp.
  apply Permutation_app_inv_l in Hp. by rewrite (Permutation_app_comm stl) in Hp.
Qed.

Lemma elem_of_live (m : gmap K V) v k : (v, k) ∈ live m <-> m !! k = Some v.
Proof.
  unfold live. rewrite list_elem_of_fmap, <- elem_of_map_to_list. split.
  - intros ([k' v'] & [=-> ->] & Hx). done.
  - intros Hx. by exists (k, v).
Qed.

Lemma live_insert (m : gmap K V) k v :
  m !! k = None -> live (<[k := v]> m) ≡ₚ (v, k) :: live m.
Proof. intros Hk. unfold live. by rewrite map_to_list_insert. Qed.

Lemma live_delete (m : gmap K V) k v :
  m !! k = Some v -> live m ≡ₚ (v, k) :: live (delete k m).
Proof.
  intros Hk. rewrite <- live_insert by apply lookup_delete_eq.
  by rewrite insert_delete_eq, insert_id.
Qed.

(** After [_top] the head of [current] is live, and greatest. *)
Lemma _top_head h :
  heap_wf h ->
  match head (current (_top h)) with
  | None => values h = ∅
  | Some (v, k) => values h !! k = Some v /\ is_max (values h) k
  end.
Proof.
  intros Hwf. pose proof (_top_wf h Hwf) as [(Hc & Hs & Hp) Hv]. rewrite Hv in Hp.
  assert (Hh : forall a b, head (current (_top h)) = Some a ->
    head (stale (_top h)) = Some b -> a <> b).
  { unfold _top. destruct (top_loop _ _) as [cur stl] eqn:E. by apply top_loop_spec in E as [_ ?]. }
  destruct (current (_top h)) as [|[v k] cur]; simpl in *.
  { symmetry in Hp. apply Permutation_nil_r, app_eq_nil in Hp as [Hl _]. unfold live in Hl.
    apply fmap_nil_inv, map_to_list_empty_iff in Hl. done. }
  apply descending_cons in Hc as [Hc Hmax].
  assert (Hall : forall a, a ∈ (v, k) :: cur -> tle a (v, k) = true).
  { intros a [->|?]%elem_of_cons; [apply tle_refl|auto]. }
  assert (Hin : (v, k) ∈ live (values h)).
  { assert (Hin : (v, k) ∈ live (values h) ++ stale (_top h)) by (rewrite <- Hp; set_solver).
    apply elem_of_app in Hin as [|Hst]; [done|]. exfalso.
    destruct (stale (_top h)) as [|b stl]; [by apply elem_of_nil in Hst|].
    apply (Hh (v, k) b); [done..|]. apply descending_cons in Hs as [_ Hs].
    apply tle_antisym.
    - apply elem_of_cons in Hst as [->|?]; [apply tle_refl|auto].
    - apply Hall. rewrite Hp. set_solver. }
  apply elem_of_live in Hin. split; [done|]. exists v. split; [done|].
  intros k' v' Hk'. apply Hall. rewrite Hp. apply elem_of_app. left. by apply elem_of_live.
Qed.

Lemma pop_wf h :
  heap_wf h ->
  heap_wf (pop h) /\
  values (pop h) =
    match (top h).1 with Some k => delete k (values h) | None => values h end.
Proof.
  intros Hwf. pose proof (_top_head h Hwf) as Hh.
  pose proof (_top_wf h Hwf) as [(Hc & Hs & Hp) Hv].
  unfold pop, top, bh_peek, bh_pop. simpl.
  destruct (current (_top h)) as [|[v k] cur] eqn:E; simpl in *.
  { unfold heap_wf. simpl. done. }
  rewrite Hv in *. split; [|done]. apply descending_cons in Hc as [Hc _].
  unfold heap_wf. simpl. split_and!; [done..|]. destruct Hh as [Hk _].
  rewrite (live_delete _ _ _ Hk) in Hp. by apply (Permutation_cons_inv) in Hp.
Qed.

Lemma update_wf h key value :
  heap_wf h ->
  heap_wf (update h key value) /\ values (update h key value) = <[key := value]> (values h).
Proof.
  intros (Hc & Hs & Hp). split; [|done]. unfold heap_wf, update. simpl. split_and!.
  - by apply bh_push_descending.
  - destruct (values h !! key); [by apply bh_push_descending|done].
  - rewrite bh_push_perm, Hp. destruct (values h !! key) as [old|] eqn:E.
    + rewrite bh_push_perm, (live_delete _ _ _ E).
      rewrite <- (insert_delete_eq (values h)), live_insert by apply lookup_delete_eq.
      simpl. rewrite Permutation_middle. done.
    + by rewrite live_insert.
Qed.

Lemma heap_default_wf : heap_wf heap_default.
Proof. split_and!; [constructor|constructor|done]. Qed.

Lemma top_wf h :
  heap_wf h ->
  heap_wf (top h).2 /\ values (top h).2 = values h
  /\ match (top h).1 with None => values h = ∅ | Some k => is_max (values h) k end.
Proof.
  intros Hwf. pose proof (_top_wf h Hwf) as [? ?]. pose proof (_top_head h Hwf) as Hh.
  unfold top, bh_peek. simpl. split_and!; [done..|].
  destruct (head (current (_top h))) as [[v k]|]; naive_solver.
Qed.

Lemma exec_refines o h :
  heap_wf h ->
  heap_wf (exec o h).2 /\ spec_exec o (values h) (exec o h).1 (values (exec o h).2).
Proof.
  intros Hwf. destruct o as [| |key|key value|]; cbn [exec].
  - pose proof (top_wf h Hwf) as (Hw & Hv & Ht). destruct (top h) as [[k|] h']; simpl in *.
    + split; [done|]. rewrite Hv. by constructor.
    + split; [done|]. rewrite Hv, Ht. constructor.
  - pose proof (pop_wf h Hwf) as [Hw Hv]. pose proof (top_wf h Hwf) as (_ & _ & Ht).
    split; [done|]. simpl. rewrite Hv. destruct (top h).1.
    + by constructor.
    + rewrite Ht. constructor.
  - split; [done|]. constructor.
  - pose proof (update_wf h key value Hwf) as [Hw Hv]. split; [done|]. simpl. constructor.
  - split; [apply heap_default_wf|]. simpl. constructor.
Qed.

Lemma exec_all_refines os : forall h,
  heap_wf h ->
  heap_wf (exec_all os h).2
  /\ spec_run os (values h) (exec_all os h).1 (values (exec_all os h).2).
Proof.
  induction os as [|o os IH]; intros h Hwf; cbn [exec_all].
  { split; [done|constructor]. }
  pose proof (exec_refines o h Hwf) as [Hw Hs]. destruct (exec o h) as [a h'].
  specialize (IH h' Hw) as [Hw' Hs']. destruct (exec_all os h') as [answers h''].
  split; [done|]. simpl in *. econstructor; eauto.
Qed.

End lazy_heap.

(** ** Properties *)

(** C26: every sequence of calls on a fresh lazy-deletion heap answers as the
    abstract priority queue does: [top] is the key of greatest current
    priority (the greater key among equals), [pop] removes that key, [query]
    is the priority last set, whatever stale entries are still stored. *)
Theorem heap_refines {K V : Type} `{Countable K, !TotalOrd K, !TotalOrd V, !EqDecision V}
    (os : list (@op K V)) :
  spec_run os ∅ (exec_all os heap_default).1 (values (exec_all os heap_default).2).
Proof. by destruct (exec_all_refines os heap_default heap_default_wf). Qed.

(** Three updates of one key, one of another, then two pops. *)
Example heap_run :
  (exec_all [OpUpdate 5 10; OpUpdate 7 30; OpUpdate 5 40; OpTop; OpPop; OpTop; OpQuery 5;
             OpPop; OpTop] (@heap_default Z Z _ _)).1
  = [ADone; ADone; ADone; AKey (Some 5); ADone; AKey (Some 7); AValue None; ADone; AKey None].
Proof. vm_compute. reflexivity. Qed.

Create HintDb heap.
#[export] Hint Resolve _top_wf pop_wf update_wf : heap.
