(* ===== verification/Concurrent.v ===== *)
(** * The shared heap: [ConcurrentLazyHeap] of
      [controller/strategy/pmap/heap.rs]

    The heap of the address strategy is used by the feeder and by all
    responders.  Its three containers have a lock each: [current] and [stale]
    are mutexes, [values] is a [DashMap], whose entries are read and written
    under a lock.  A call is cut at the places where it waits for a lock; what
    it does until the next such place is one step. *)

From S2P Require Import Prelude Heap.

Section concurrent.
Context {K V : Type} `{Countable K, !TotalOrd K, !TotalOrd V, !EqDecision V}.

(** ** The state of a call

    [TopLocked] and [PopRemove] hold [current], [UpdateStale] holds an entry of
    [values] for reading. *)
Inductive pc : Type :=
  | TopLock (popping : bool)
  | TopLocked (popping : bool)
  | PopRemove (k : K)
  | QueryGet (k : K)
  | UpdateGet (k : K) (v : V)
  | UpdateStale (k : K) (v old : V)
  | UpdateInsert (k : K) (v : V)
  | UpdatePush (k : K) (v : V)
  | ClearStale
  | ClearCurrent
  | ClearValues
  | Returned (a : @answer K V).

(** Where a call starts. *)
Definition enter (o : @op K V) : pc :=
  match o with
  | OpTop => TopLock false
  | OpPop => TopLock true
  | OpQuery k => QueryGet k
  | OpUpdate k v => UpdateGet k v
  | OpClear => ClearStale
  end.

Definition holds_current (p : pc) : bool :=
  match p with TopLocked _ | PopRemove _ => true | _ => false end.
Definition holds_values (p : pc) : bool := match p with UpdateStale _ _ _ => true | _ => false end.
Definition returned (p : pc) : bool := match p with Returned _ => true | _ => false end.

(** The heap and the calls under way. *)
Record shared_heap : Type := mkSharedHeap {
  heap_of : LazyHeap K V;
  calls : list pc }.

(** What the next step of a call does when [current] and the entry of [values]
    are free or not; [None] when it has to wait or has returned. *)
Definition advance (current_free values_free : bool) (h : LazyHeap K V) (p : pc)
    : option (LazyHeap K V * pc) :=
  match p with
  | TopLock popping => if current_free then Some (h, TopLocked popping) else None
  | TopLocked popping =>
      let h := _top h in
      if popping then
        match bh_pop (current h) with
        | (Some (_, k), cur) => Some (mkHeap (values h) cur (stale h), PopRemove k)
        | (None, _) => Some (h, Returned ADone)
        end
      else Some (h, Returned (AKey (snd <$> bh_peek (current h))))
  | PopRemove k =>
      if values_free then Some (mkHeap (delete k (values h)) (current h) (stale h), Returned ADone) else None
  | QueryGet k => Some (h, Returned (AValue (values h !! k)))
  | UpdateGet k v =>
      match values h !! k with
      | Some old => Some (h, UpdateStale k v old)
      | None => Some (h, UpdateInsert k v)
      end
  | UpdateStale k v old =>
      Some (mkHeap (values h) (current h) (bh_push (old, k) (stale h)), UpdateInsert k v)
  | UpdateInsert k v =>
      if values_free then Some (mkHeap (<[k := v]> (values h)) (current h) (stale h), UpdatePush k v) else None
  | UpdatePush k v =>
      if current_free then
        Some (mkHeap (values h) (bh_push (v, k) (current h)) (stale h), Returned ADone)
      else None
  | ClearStale => Some (mkHeap (values h) (current h) [], ClearCurrent)
  | ClearCurrent => if current_free then Some (mkHeap (values h) [] (stale h), ClearValues) else None
  | ClearValues => if values_free then Some (mkHeap ∅ (current h) (stale h), Returned ADone) else None
  | Returned _ => None
  end.

Definition current_free (s : shared_heap) : bool := negb (existsb holds_current (calls s)).
Definition values_free (s : shared_heap) : bool := negb (existsb holds_values (calls s)).

(** A step of call [i]. *)
Definition conc_step (i : nat) (s : shared_heap) : option shared_heap :=
  p ← calls s !! i;
  '(h, p) ← advance (current_free s) (values_free s) (heap_of s) p;
  Some (mkSharedHeap h (<[i := p]> (calls s))).

(** The steps a schedule makes; a call that has to wait is passed over. *)
Fixpoint conc_run (schedule : list nat) (s : shared_heap) : shared_heap :=
  match schedule with
  | [] => s
  | i :: schedule => conc_run schedule (default s (conc_step i s))
  end.

Inductive conc_steps : nat -> shared_heap -> shared_heap -> Prop :=
  | steps_refl s : conc_steps 0 s s
  | steps_step n s s' s'' i : conc_step i s = Some s' -> conc_steps n s' s'' -> conc_steps (S n) s s''.

(** ** Lemmas *)

(** How many steps a call has left at most. *)
Definition steps_left (p : pc) : nat :=
  match p with
  | TopLock _ => 3 | TopLocked _ => 2 | PopRemove _ => 1 | QueryGet _ => 1
  | UpdateGet _ _ => 4 | UpdateStale _ _ _ => 3 | UpdateInsert _ _ => 2 | UpdatePush _ _ => 1
  | ClearStale => 3 | ClearCurrent => 2 | ClearValues => 1 | Returned _ => 0
  end%nat.

Definition work (s : shared_heap) : nat := sum_list (steps_left <$> calls s).

Lemma advance_less cf vf h p h' p' :
  advance cf vf h p = Some (h', p') -> (steps_left p' < steps_left p)%nat.
Proof.
  destruct p as [[]|[]| | | | | | | | | |]; simpl; repeat case_match; intros; simplify_eq; simpl; lia.
Qed.

Lemma conc_step_less i s s' : conc_step i s = Some s' -> (work s' < work s)%nat.
Proof.
  unfold conc_step, work. destruct (calls s !! i) as [p|] eqn:Ei; [|done]. simpl.
  destruct (advance _ _ _ p) as [[h p']|] eqn:Ea; [|done]. simpl. intros [= <-]. cbn [calls].
  apply advance_less in Ea. rewrite list_fmap_insert.
  pose proof (sum_list_insert (steps_left <$> calls s) i (steps_left p) (steps_left p')) as Hsum.
  rewrite list_lookup_fmap, Ei in Hsum. specialize (Hsum eq_refl). lia.
Qed.

Lemma conc_steps_bound n s s' : conc_steps n s s' -> (n + work s' <= work s)%nat.
Proof. induction 1 as [|n s s1 s2 i Hs _ IH]; [lia|]. apply conc_step_less in Hs. lia. Qed.

(** A call that need not wait can go on. *)
Lemma step_of i s p :
  calls s !! i = Some p -> (exists x, advance (current_free s) (values_free s) (heap_of s) p = Some x) ->
  exists s', conc_step i s = Some s'.
Proof. intros Ei [[h p'] Ea]. unfold conc_step. rewrite Ei. simpl. rewrite Ea. simpl. eauto. Qed.

Lemma holder (f : pc -> bool) s : existsb f (calls s) = true -> exists i p, calls s !! i = Some p /\ f p = true.
Proof.
  intros (p & Hin & Hf)%existsb_exists. apply list_elem_of_In, list_elem_of_lookup in Hin as [i Hi]. eauto.
Qed.

(** Some call can go on: the holders of an entry never wait, the holder of
    [current] waits for those only. *)
Lemma conc_progress s :
  Forall (fun p => returned p = true) (calls s) \/ exists i s', conc_step i s = Some s'.
Proof.
  destruct (existsb holds_values (calls s)) eqn:Ev.
  { right. destruct (holder _ _ Ev) as (i & p & Hi & Hp). exists i. eapply step_of; [exact Hi|].
    destruct p; try done. simpl. eauto. }
  destruct (existsb holds_current (calls s)) eqn:Ec.
  { right. destruct (holder _ _ Ec) as (i & p & Hi & Hp). exists i. eapply step_of; [exact Hi|].
    unfold values_free. rewrite Ev. destruct p; try done; simpl; repeat case_match; eauto. }
  destruct (existsb (fun p => negb (returned p)) (calls s)) eqn:Er.
  - right. destruct (holder _ _ Er) as (i & p & Hi & Hp). exists i. eapply step_of; [exact Hi|].
    unfold values_free, current_free. rewrite Ev, Ec. destruct p; try done; simpl; repeat case_match; eauto.
  - left. apply Forall_forall. intros p Hin. destruct (returned p) eqn:E; [done|]. exfalso.
    assert (Ht : existsb (fun p => negb (returned p)) (calls s) = true); [|congruence].
    apply existsb_exists. exists p. split; [by apply list_elem_of_In|by rewrite E].
Qed.

(** ** Mutual exclusion *)

Definition holders (s : shared_heap) : nat := sum_list ((fun p => if holds_current p then 1 else 0)%nat <$> calls s).

Lemma holders_zero (l : list pc) :
  existsb holds_current l = false ->
  sum_list ((fun p => if holds_current p then 1 else 0)%nat <$> l) = 0%nat.
Proof.
  induction l as [|p l IH]; simpl; [done|]. intros [Hp Hl]%orb_false_iff. rewrite Hp. by apply IH.
Qed.

(** [current] is entered only when it is free. *)
Lemma advance_enters cf vf h p h' p' :
  advance cf vf h p = Some (h', p') -> holds_current p' = true -> holds_current p = true \/ cf = true.
Proof.
  destruct p as [[]|[]| | | | | | | | | |]; simpl; repeat case_match; intros; simplify_eq; auto.
Qed.

Lemma conc_step_exclusive i s s' : conc_step i s = Some s' -> (holders s <= 1)%nat -> (holders s' <= 1)%nat.
Proof.
  unfold conc_step, holders. destruct (calls s !! i) as [p|] eqn:Ei; [|done]. simpl.
  destruct (advance _ _ _ p) as [[h p']|] eqn:Ea; [|done]. simpl. intros [= <-] Hle. cbn [calls].
  set (f := fun p : pc => if holds_current p then 1%nat else 0%nat) in *. rewrite list_fmap_insert.
  pose proof (sum_list_insert (f <$> calls s) i (f p) (f p')) as Hsum.
  rewrite list_lookup_fmap, Ei in Hsum. specialize (Hsum eq_refl).
  assert (Hf : forall q, f q = if holds_current q then 1%nat else 0%nat) by done. rewrite Hf. rewrite !Hf in Hsum.
  destruct (holds_current p') eqn:E'; [|destruct (holds_current p); lia].
  destruct (advance_enters _ _ _ _ _ _ Ea E') as [Hp|Hfree]; [rewrite Hp in Hsum; lia|].
  apply negb_true_iff, holders_zero in Hfree. fold f in Hfree. lia.
Qed.

Lemma conc_steps_exclusive n s s' : conc_steps n s s' -> (holders s <= 1)%nat -> (holders s' <= 1)%nat.
Proof. induction 1 as [|n s s1 s2 i Hs _ IH]; [done|]. eauto using conc_step_exclusive. Qed.

Lemma enter_work (os : list (@op K V)) h : (work (mkSharedHeap h (enter <$> os)) <= 4 * length os)%nat.
Proof.
  unfold work. cbn [calls]. induction os as [|o os IH]; [simpl; lia|]. rewrite !fmap_cons.
  assert (Ho : (steps_left (enter o) <= 4)%nat) by (destruct o; simpl; lia). cbn. cbn in IH. lia.
Qed.

Lemma enter_holders (os : list (@op K V)) h : holders (mkSharedHeap h (enter <$> os)) = 0%nat.
Proof.
  unfold holders. cbn [calls]. apply holders_zero. induction os as [|o os IH]; [done|]. by destruct o.
Qed.

(** ** A call without interference *)

Lemma existsb_insert (f : pc -> bool) (l : list pc) i q p :
  l !! i = Some q -> existsb f l = false -> existsb f (<[i := p]> l) = f p.
Proof.
  revert i. induction l as [|x l IH]; intros [|i] Hi; simplify_eq/=; intros [Hx Hl]%orb_false_iff.
  - by rewrite Hl, orb_false_r.
  - rewrite Hx. by apply (IH i).
Qed.

(** One step of call [i] when no other call holds a lock. *)
Lemma step_alone i (l : list pc) h h0 p h' p' :
  (i < length l)%nat -> existsb holds_current (<[i := Returned ADone]> l) = false ->
  existsb holds_values (<[i := Returned ADone]> l) = false ->
  advance (negb (holds_current p)) (negb (holds_values p)) h p = Some (h', p') ->
  default h0 (conc_step i (mkSharedHeap h (<[i := p]> l))) = mkSharedHeap h' (<[i := p']> l).
Proof.
  intros Hi Hc Hv Ha. unfold conc_step, current_free, values_free. cbn [calls heap_of].
  rewrite list_lookup_insert_eq by done. simpl.
  assert (Hl : forall f, existsb f (<[i := Returned ADone]> l) = false -> existsb f (<[i := p]> l) = f p).
  { intros f Hf. rewrite <- (list_insert_insert_eq l i p (Returned ADone)).
    eapply existsb_insert; [|exact Hf]. by apply list_lookup_insert_eq. }
  rewrite (Hl _ Hc), (Hl _ Hv), Ha. simpl. by rewrite list_insert_insert_eq.
Qed.

(** A call that is not interrupted is the call of the plain heap. *)
Lemma call_alone i s o :
  calls s !! i = Some (enter o) -> existsb holds_current (calls s) = false ->
  existsb holds_values (calls s) = false ->
  conc_run (replicate 4 i) s
  = mkSharedHeap (exec o (heap_of s)).2 (<[i := Returned (exec o (heap_of s)).1]> (calls s)).
Proof.
  intros Ei Hc Hv. destruct s as [h l]. cbn [calls heap_of] in *.
  pose proof (lookup_lt_Some _ _ _ Ei) as Hi. rewrite <- (list_insert_id l i (enter o)) at 1 by done.
  assert (Hc' : existsb holds_current (<[i := Returned ADone]> l) = false) by (by erewrite existsb_insert).
  assert (Hv' : existsb holds_values (<[i := Returned ADone]> l) = false) by (by erewrite existsb_insert).
  pose proof (fun h h0 p h' p' => step_alone i l h h0 p h' p' Hi Hc' Hv') as Hstep.
  assert (Hend : forall h a n, conc_run (replicate n i) (mkSharedHeap h (<[i := Returned a]> l))
    = mkSharedHeap h (<[i := Returned a]> l)).
  { intros h' a n. induction n as [|n IH]; [done|]. cbn [replicate conc_run]. unfold conc_step.
    cbn [calls]. rewrite list_lookup_insert_eq by done. exact IH. }
  destruct o as [| |k|k v|]; cbn [enter exec].
  - change (replicate 4 i) with (i :: i :: replicate 2 i). cbn [conc_run].
    erewrite Hstep by done. erewrite Hstep by done. apply Hend.
  - change (replicate 4 i) with (i :: i :: i :: replicate 1 i). cbn [conc_run].
    erewrite Hstep by done. unfold pop. destruct (bh_pop (current (_top h))) as [[[v k]|] cur] eqn:Ep.
    + erewrite Hstep by (simpl; by rewrite Ep). erewrite Hstep by done. apply Hend.
    + erewrite Hstep by (simpl; by rewrite Ep). etransitivity; [exact (Hend _ _ 2%nat)|].
      destruct (_top h) as [vs c st]. by destruct c; simplify_eq/=.
  - change (replicate 4 i) with (i :: replicate 3 i). cbn [conc_run]. erewrite Hstep by done. apply Hend.
  - cbn [replicate conc_run]. unfold update. destruct (values h !! k) as [old|] eqn:Ek.
    + erewrite Hstep by (simpl; by rewrite Ek). erewrite Hstep by done. erewrite Hstep by done.
      by erewrite Hstep by done.
    + erewrite Hstep by (simpl; by rewrite Ek). erewrite Hstep by done. erewrite Hstep by done.
      apply (Hend _ _ 1%nat).
  - change (replicate 4 i) with (i :: i :: i :: replicate 1 i). cbn [conc_run].
    erewrite Hstep by done. erewrite Hstep by done. erewrite Hstep by done. apply Hend.
Qed.

End concurrent.

(** ** Theorem *)

(** C39: the calls on the shared heap never block each other for good.
    However the steps of any number of calls interleave, at most one of them
    holds [current]; each call makes at most four steps; and unless all have
    returned some call can make its next step, so that every schedule that goes
    on completes all of them.  A call that is not interrupted does what the
    plain heap does. *)
Theorem calls_complete {K V : Type} `{Countable K, !TotalOrd K, !TotalOrd V, !EqDecision V}
    (h : LazyHeap K V) (os : list (@op K V)) (n : nat) (s : @shared_heap K V _ _) :
  conc_steps n (mkSharedHeap h (enter <$> os)) s ->
  (n <= 4 * length os)%nat /\ (holders s <= 1)%nat
  /\ (Forall (fun p => returned p = true) (calls s) \/ exists i s', conc_step i s = Some s')
  /\ forall i o, calls s !! i = Some (enter o) -> current_free s = true -> values_free s = true ->
       conc_run (replicate 4 i) s
       = mkSharedHeap (exec o (heap_of s)).2 (<[i := Returned (exec o (heap_of s)).1]> (calls s)).
Proof.
  intros Hs. split_and!.
  - pose proof (conc_steps_bound _ _ _ Hs). pose proof (enter_work os h). lia.
  - eapply conc_steps_exclusive; [exact Hs|]. rewrite enter_holders. lia.
  - apply conc_progress.
  - intros i o Ei Hc%negb_true_iff Hv%negb_true_iff. by apply call_alone.
Qed.

(** ** Witness and a race *)

Definition race_heap : LazyHeap Z Z := update (update heap_default 5 10) 7 20.

Lemma calls_complete_witness :
  exists s : @shared_heap Z Z _ _,
    conc_steps 2 (mkSharedHeap race_heap (enter <$> [OpUpdate 5 30; OpPop])) s
    /\ (2 <= 4 * 2)%nat /\ (holders s <= 1)%nat
    /\ (Forall (fun p => returned p = true) (calls s) \/ exists i s', conc_step i s = Some s').
Proof.
  assert (Hs : exists s, conc_steps 2 (mkSharedHeap race_heap (enter <$> [OpUpdate 5 30; OpPop])) s).
  { eexists. eapply (steps_step _ _ _ _ 0); [reflexivity|]. eapply (steps_step _ _ _ _ 1); [reflexivity|].
    apply steps_refl. }
  destruct Hs as [s Hs]. exists s. split; [exact Hs|].
  destruct (calls_complete race_heap [OpUpdate 5 30; OpPop] 2 s Hs) as (H1 & H2 & H3 & _).
  split; [exact H1|]. split; [exact H2|exact H3].
Defined.

(** Two threads report results for one key at the same time: both find the
    priority 10, one sets 50 and then the other 15.  Only the entry with 10 is
    recorded as stale (twice), so the one with 50 stays: [top] is the key 5,
    although its priority is 15 and that of the key 7 is 20. *)
Example lost_update :
  let s := conc_run [0; 1; 0; 1; 0; 1; 0; 1]%nat
             (mkSharedHeap race_heap (enter <$> [OpUpdate 5 50; OpUpdate 5 15])) in
  (forallb returned (calls s), (top (heap_of s)).1, query (heap_of s) 5, query (heap_of s) 7)
  = (true, Some 5, Some 15, Some 20).
Proof. vm_compute. reflexivity. Qed.

(** Between [top] and [pop] of [try_pick] another thread may raise another
    key: [pop] then removes that key and not the one [top] gave. *)
Example pop_removes_other :
  (exec_all [OpTop; OpUpdate 5 50; OpPop; OpQuery 5; OpQuery 7] race_heap).1
  = [AKey (Some 7); ADone; ADone; AValue None; AValue (Some 20)].
Proof. vm_compute. reflexivity. Qed.
