(* ===== verification/Prefix.v ===== *)
(** * /24 prefixes: [controller/strategy/pmap/graph/prefix.rs]

    The historical hit counts per prefix, and the bitmap of the addresses of
    one prefix that have been scanned in the session. *)

From S2P Require Import Prelude Rand.

Record PrefixGraph : Type := mkPrefixGraph { historical_hits : gmap Z Z }.

Definition from_counts (hits : gmap Z Z) : PrefixGraph := mkPrefixGraph hits.

Definition historical_score (self : PrefixGraph) (prefix_id : Z) : Z :=
  default 0 (historical_hits self !! prefix_id).

(** [bitmap] is a [[u8; 32]] and offsets are [u8], so [offset / 8] is always
    in range. *)
Record PrefixState : Type := mkPrefix { bitmap : list Z; remaining : Z }.

Definition prefix_new : PrefixState := mkPrefix (replicate 32 0) 256.

Definition bitmap_byte (self : PrefixState) (offset : Z) : Z :=
  nth (Z.to_nat (offset / 8)) (bitmap self) 0.

Definition is_unscanned (self : PrefixState) (offset : Z) : bool :=
  negb (Z.land (Z.shiftr (bitmap_byte self offset) (offset mod 8)) 1 =? 1).

Definition mark_scanned (self : PrefixState) (offset : Z) : bool * PrefixState :=
  let byte := bitmap_byte self offset in
  let bit := u8_of (Z.shiftl 1 (offset mod 8)) in
  if negb (Z.land byte bit =? 0) then (true, self)
  else (false, mkPrefix (<[Z.to_nat (offset / 8) := Z.lor byte bit]> (bitmap self))
                 (u16_of (remaining self - 1))).

Section fetch.
Context `{Rng R}.

(** [for _ in 0..50]: random candidates. *)
Fixpoint fetch_random (tries : nat) (self : PrefixState) (rng : R) : option Z * R :=
  match tries with
  | O => (None, rng)
  | S tries =>
      let '(v, rng) := random_range rng 0 255 in
      let candidate := u8_of v in
      if is_unscanned self candidate then (Some candidate, rng)
      else fetch_random tries self rng
  end.

Definition fetch_unscanned (self : PrefixState) (rng : R) : option Z * R :=
  if remaining self =? 0 then (None, rng)
  else
    match fetch_random 50 self rng with
    | (Some c, rng) => (Some c, rng)
    | (None, rng) => (find (is_unscanned self) (seqZ 0 256), rng)
    end.

End fetch.

(** ** Specification *)

Definition unscanned (self : PrefixState) : list Z :=
  List.filter (is_unscanned self) (seqZ 0 256).

(** [remaining] counts the offsets whose bit is clear. *)
Definition prefix_wf (self : PrefixState) : Prop :=
  length (bitmap self) = 32%nat /\ remaining self = zlen (unscanned self).

(** ** Lemmas *)

Lemma land_1 z : Z.land z 1 = z mod 2.
Proof. change 1 with (Z.ones 1). by rewrite Z.land_ones. Qed.

Lemma is_unscanned_testbit self o :
  0 <= o -> is_unscanned self o = negb (Z.testbit (bitmap_byte self o) (o mod 8)).
Proof.
  intros Ho. unfold is_unscanned. f_equal. pose proof (Z.mod_pos_bound o 8).
  rewrite land_1, shiftr_div by lia. pose proof (Z.testbit_spec' (bitmap_byte self o) (o mod 8)).
  destruct (Z.testbit _ _); simpl in *; case_cmp; done || lia.
Qed.

Lemma elem_of_unscanned self o :
  o ∈ unscanned self <-> 0 <= o < 256 /\ is_unscanned self o = true.
Proof.
  unfold unscanned. rewrite !list_elem_of_In, filter_In, <- list_elem_of_In, elem_of_seqZ. intuition lia.
Qed.

Lemma unscanned_NoDup self : NoDup (unscanned self).
Proof. apply NoDup_ListNoDup, List.NoDup_filter, NoDup_ListNoDup, NoDup_seqZ. Qed.

Lemma unscanned_length self : zlen (unscanned self) <= 256.
Proof.
  unfold unscanned. pose proof (filter_length_le (is_unscanned self) (seqZ 0 256)) as Hl.
  rewrite length_seqZ in Hl. lia.
Qed.

Lemma bitmap_byte_set self o byte r p :
  length (bitmap self) = 32%nat -> 0 <= o < 256 -> 0 <= p < 256 ->
  bitmap_byte (mkPrefix (<[Z.to_nat (o / 8) := byte]> (bitmap self)) r) p
  = if p / 8 =? o / 8 then byte else bitmap_byte self p.
Proof.
  intros Hl Ho Hp. unfold bitmap_byte. simpl. rewrite !nth_lookup.
  assert (o / 8 < 32) by (apply Z.div_lt_upper_bound; lia).
  assert (0 <= o / 8) by (apply Z.div_pos; lia). assert (0 <= p / 8) by (apply Z.div_pos; lia).
  destruct (Z.eqb_spec (p / 8) (o / 8)) as [->|Hne].
  - rewrite list_lookup_insert_eq by lia. done.
  - rewrite list_lookup_insert_ne by lia. done.
Qed.

Lemma testbit_one_shift n i : 0 <= n < 8 -> 0 <= i ->
  Z.testbit (u8_of (Z.shiftl 1 n)) i = (i =? n).
Proof.
  intros Hn Hi. unfold u8_of. rewrite wrap_small.
  - rewrite Z.shiftl_1_l, Z.pow2_bits_eqb by lia. apply Z.eqb_sym.
  - unfold in_width. rewrite Z.shiftl_1_l. split; [lia|]. apply Z.pow_lt_mono_r; lia.
Qed.

(** The guard of [mark_scanned] tests the bit of the offset. *)
Lemma mark_guard self o :
  0 <= o -> (Z.land (bitmap_byte self o) (u8_of (Z.shiftl 1 (o mod 8))) =? 0)
            = is_unscanned self o.
Proof.
  intros Ho. pose proof (Z.mod_pos_bound o 8). rewrite is_unscanned_testbit by done.
  set (b := bitmap_byte self o). destruct (Z.testbit b (o mod 8)) eqn:E; simpl.
  - apply Z.eqb_neq. intros Hz. apply (f_equal (fun z => Z.testbit z (o mod 8))) in Hz.
    rewrite Z.land_spec, E, testbit_one_shift, Z.eqb_refl, Z.bits_0 in Hz by lia. done.
  - apply Z.eqb_eq. apply Z.bits_inj'. intros i Hi.
    rewrite Z.land_spec, Z.bits_0, testbit_one_shift by lia.
    destruct (Z.eqb_spec i (o mod 8)) as [->|]; [by rewrite E|by rewrite andb_false_r].
Qed.

(** Setting the bit of [o] clears [o] from the unscanned offsets and no other. *)
Lemma is_unscanned_set self o r p :
  length (bitmap self) = 32%nat -> 0 <= o < 256 -> 0 <= p < 256 ->
  is_unscanned
    (mkPrefix (<[Z.to_nat (o / 8) := Z.lor (bitmap_byte self o) (u8_of (Z.shiftl 1 (o mod 8)))]>
                 (bitmap self)) r) p
  = is_unscanned self p && negb (p =? o).
Proof.
  intros Hl Ho Hp. pose proof (Z.mod_pos_bound o 8). pose proof (Z.mod_pos_bound p 8).
  pose proof (Z.div_mod o 8). pose proof (Z.div_mod p 8).
  rewrite !is_unscanned_testbit, bitmap_byte_set by lia.
  destruct (Z.eqb_spec (p / 8) (o / 8)) as [Hd|Hd].
  - rewrite Z.lor_spec, testbit_one_shift by lia.
    assert (bitmap_byte self o = bitmap_byte self p) as ->.
    { unfold bitmap_byte. by rewrite Hd. }
    replace (p mod 8 =? o mod 8) with (p =? o) by (case_cmp; lia). apply negb_orb.
  - replace (p =? o) with false by (case_cmp; lia). by rewrite andb_true_r.
Qed.

Lemma mark_scanned_wf self o :
  prefix_wf self -> 0 <= o < 256 ->
  (mark_scanned self o).1 = negb (is_unscanned self o)
  /\ prefix_wf (mark_scanned self o).2
  /\ forall p, 0 <= p < 256 ->
       is_unscanned (mark_scanned self o).2 p = is_unscanned self p && negb (p =? o).
Proof.
  intros [Hl Hr] Ho. unfold mark_scanned. rewrite mark_guard by lia.
  destruct (is_unscanned self o) eqn:E; simpl.
  2:{ split_and!; [done|done|]. intros p Hp.
      destruct (Z.eqb_spec p o) as [->|]; [by rewrite E|by rewrite andb_true_r]. }
  split_and!; [done| |intros p Hp; by apply is_unscanned_set].
  split; [cbn [bitmap]; by rewrite length_insert|]. simpl.
  set (s' := mkPrefix _ _).
  assert (Hp : unscanned self ≡ₚ o :: unscanned s').
  { apply NoDup_Permutation; [apply unscanned_NoDup| |].
    - constructor; [|apply unscanned_NoDup]. rewrite elem_of_unscanned. intros [_ Hu].
      unfold s' in Hu. rewrite is_unscanned_set, Z.eqb_refl, andb_false_r in Hu by done. done.
    - intros p. rewrite elem_of_cons, !elem_of_unscanned. unfold s'. split.
      + intros [Hp Hu]. destruct (Z.eqb_spec p o); [by left|]. right. split; [done|].
        rewrite is_unscanned_set, Hu by done. case_cmp; done.
      + intros [->|[Hp Hu]]; [done|]. split; [done|].
        rewrite is_unscanned_set in Hu by done. by apply andb_true_iff in Hu as [? _]. }
  apply Permutation_length in Hp. cbn [length] in Hp. pose proof (unscanned_length self) as Hb.
  change (u16_of (remaining self - 1) = zlen (unscanned s')).
  rewrite Hr. rewrite Hp in Hb |- *. clear -Hb.
  unfold u16_of. rewrite wrap_small; [|unfold in_width]; lia.
Qed.

Lemma prefix_new_wf : prefix_wf prefix_new.
Proof. split; vm_compute; reflexivity. Qed.

Lemma prefix_new_unscanned o : 0 <= o < 256 -> is_unscanned prefix_new o = true.
Proof.
  intros Ho. assert (Hall : forallb (is_unscanned prefix_new) (seqZ 0 256) = true)
    by (vm_compute; reflexivity).
  rewrite forallb_forall in Hall. apply Hall. apply list_elem_of_In, elem_of_seqZ. lia.
Qed.

Section fetch_lemmas.
Context `{Rng R}.

Lemma fetch_random_ok tries self : forall (rng : R) o rng',
  fetch_random tries self rng = (Some o, rng') -> o ∈ unscanned self.
Proof.
  induction tries as [|tries IH]; intros rng o rng' Hf; [done|]. simpl in Hf.
  pose proof (random_range_in rng 0 255 ltac:(lia)) as Hr.
  destruct (random_range rng 0 255) as [v rng'']. simpl in Hr.
  destruct (is_unscanned self (u8_of v)) eqn:E; [|by eapply IH]. simplify_eq.
  apply elem_of_unscanned. split; [|done]. apply (wrap_width 8). lia.
Qed.

Lemma fetch_unscanned_wf self (rng : R) :
  prefix_wf self ->
  match (fetch_unscanned self rng).1 with
  | Some o => o ∈ unscanned self
  | None => remaining self = 0
  end.
Proof.
  intros [_ Hr]. unfold fetch_unscanned. case_cmp_step; [done|].
  destruct (fetch_random 50 self rng) as [[o|] rng'] eqn:E; cbn [fst].
  { by eapply fetch_random_ok. }
  destruct (find _ _) as [o|] eqn:Ef.
  - apply find_some in Ef as [Hin Hu]. apply list_elem_of_In, elem_of_seqZ in Hin.
    apply elem_of_unscanned. split; [lia|done].
  - rewrite Hr. destruct (unscanned self) as [|o l] eqn:Eu; [done|].
    assert (Ho : o ∈ unscanned self) by (rewrite Eu; apply elem_of_cons; by left).
    apply elem_of_unscanned in Ho as [Ho Hu]. exfalso.
    rewrite (find_none _ _ Ef o) in Hu; [done|]. apply list_elem_of_In, elem_of_seqZ. lia.
Qed.

End fetch_lemmas.

#[export] Hint Resolve prefix_new_wf : farsight.

(** ** Properties *)

(** The offsets marked, in order. *)
Fixpoint mark_all (self : PrefixState) (os : list Z) : PrefixState :=
  match os with
  | [] => self
  | o :: os => mark_all (mark_scanned self o).2 os
  end.

Lemma mark_all_wf os : forall self,
  prefix_wf self -> Forall in_u8 os ->
  prefix_wf (mark_all self os)
  /\ forall p, in_u8 p -> is_unscanned (mark_all self os) p
       = is_unscanned self p && negb (bool_decide (p ∈ os)).
Proof.
  induction os as [|o os IH]; intros self Hwf Hos; simpl.
  { split; [done|]. intros p _. by rewrite andb_true_r. }
  apply Forall_cons in Hos as [Ho Hos].
  pose proof (mark_scanned_wf self o Hwf Ho) as (_ & Hw & Hu).
  destruct (IH _ Hw Hos) as [Hw' Hu']. split; [done|]. intros p Hp.
  rewrite Hu', Hu, <- andb_assoc by done. f_equal.
  rewrite <- negb_orb. f_equal. destruct (Z.eqb_spec p o) as [->|Hne]; simpl.
  - symmetry. apply bool_decide_eq_true. set_solver.
  - apply bool_decide_ext. set_solver.
Qed.

(** After any marks on a fresh prefix, [remaining] is 256 less the number
    of distinct offsets marked, [is_unscanned] holds exactly of the offsets
    not marked, marking reports whether the offset was marked before, and
    [fetch_unscanned] gives an unmarked offset whatever the generator draws,
    or nothing exactly when all 256 are marked. *)
Theorem prefix_bitmap {R} `{Rng R} (os : list Z) (o : Z) (rng : R) :
  Forall in_u8 os -> in_u8 o ->
  remaining (mark_all prefix_new os) = 256 - zlen (remove_dups os)
  /\ (is_unscanned (mark_all prefix_new os) o = true <-> o ∉ os)
  /\ ((mark_scanned (mark_all prefix_new os) o).1 = true <-> o ∈ os)
  /\ match (fetch_unscanned (mark_all prefix_new os) rng).1 with
     | Some c => in_u8 c /\ c ∉ os
     | None => forall c, in_u8 c -> c ∈ os
     end.
Proof.
  intros Hos Ho. destruct (mark_all_wf os prefix_new prefix_new_wf Hos) as [Hwf Hu].
  assert (Hun : forall p, in_u8 p ->
    is_unscanned (mark_all prefix_new os) p = negb (bool_decide (p ∈ os))).
  { intros p Hp. by rewrite Hu, prefix_new_unscanned. }
  set (s := mark_all prefix_new os) in *.
  assert (Hin : forall p, p ∈ unscanned s <-> in_u8 p /\ p ∉ os).
  { intros p. rewrite elem_of_unscanned. split; intros [Hp Hq]; split; try done;
      rewrite Hun in * by done; [by apply negb_true_iff, bool_decide_eq_false in Hq|].
    by rewrite bool_decide_false. }
  split_and!.
  - destruct Hwf as [_ Hr]. rewrite Hr. enough (Hp : unscanned s ++ remove_dups os ≡ₚ seqZ 0 256).
    { apply Permutation_length in Hp. rewrite length_app, length_seqZ in Hp. lia. }
    apply NoDup_Permutation; [|apply NoDup_seqZ|].
    + apply NoDup_app. split_and!; [apply unscanned_NoDup| |apply NoDup_remove_dups].
      intros p Hp%Hin. rewrite elem_of_remove_dups. tauto.
    + intros p. rewrite elem_of_app, Hin, elem_of_remove_dups, elem_of_seqZ.
      rewrite Forall_forall in Hos. specialize (Hos p). unfold in_width in *.
      destruct (decide (p ∈ os)); intuition lia.
  - rewrite Hun, negb_true_iff, bool_decide_eq_false by done. done.
  - rewrite (proj1 (mark_scanned_wf s o Hwf Ho)), Hun, negb_involutive, bool_decide_eq_true
      by done. done.
  - pose proof (fetch_unscanned_wf s rng Hwf) as Hf. destruct (fetch_unscanned s rng).1 as [c|].
    + by apply Hin.
    + intros c Hc. destruct (decide (c ∈ os)) as [|Hn]; [done|]. exfalso.
      assert (Hcu : c ∈ unscanned s) by (by apply Hin). destruct Hwf as [_ Hr].
      rewrite Hf in Hr. destruct (unscanned s); [by apply elem_of_nil in Hcu|done].
Qed.

Lemma prefix_bitmap_witness :
  remaining (mark_all prefix_new [7; 8; 7]) = 254
  /\ (mark_scanned (mark_all prefix_new [7; 8; 7]) 7).1 = true.
Proof.
  destruct (prefix_bitmap [7; 8; 7] 7 (mkReplay [] [] 0)) as (Hr & _ & Hm & _).
  - repeat constructor; vm_compute; congruence.
  - vm_compute. split; congruence.
  - split; [exact Hr|]. apply Hm. apply elem_of_cons. by left.
Defined.
