(* ===== verification/IpPmap.v ===== *)
(** * Address selection: [controller/strategy/ip/pmap.rs]

    [PmapIpAdapter] walks a pseudo-random permutation of the compiled ranges
    ([next]) and, with probability [1 - epsilon], prefers an unscanned address
    of the /24 that has answered most ([try_pick]). *)

From Stdlib Require Import SpecFloat.
From S2P Require Import Prelude Float Rand Ranges Heap Prefix.

(** [PerfectRng::shuffle] of the [perfect_rand] crate, by range and seed: for
    every seed it is documented to be a permutation of [0 .. range - 1]. *)
Class PerfectRng : Type := {
  shuffle : Z -> Z -> Z -> Z;
  shuffle_in range seed i : 0 <= i < range -> 0 <= shuffle range seed i < range;
  shuffle_inj range seed i j :
    0 <= i < range -> 0 <= j < range ->
    shuffle range seed i = shuffle range seed j -> i = j }.

Record PmapIpAdapter : Type := mkIpAdapter {
  ranges : CompiledRanges;
  seed : Z;
  graph : PrefixGraph;
  heap : LazyHeap Z score;
  actives : gmap Z PrefixState;
  epsilon : f64 }.

Definition with_heap (self : PmapIpAdapter) (h : LazyHeap Z score) : PmapIpAdapter :=
  mkIpAdapter (ranges self) (seed self) (graph self) h (actives self) (epsilon self).

(** Writes the entry of a prefix back to [actives]. *)
Definition put_state (self : PmapIpAdapter) (prefix_id : Z) (state : PrefixState)
    : PmapIpAdapter :=
  mkIpAdapter (ranges self) (seed self) (graph self) (heap self)
    (<[prefix_id := state]> (actives self)) (epsilon self).

Definition heap_pop (self : PmapIpAdapter) : PmapIpAdapter :=
  with_heap self (pop (heap self)).

(** [actives.entry(prefix_id).or_insert_with(PrefixState::new)]. *)
Definition entry (self : PmapIpAdapter) (prefix_id : Z) : PrefixState :=
  default prefix_new (actives self !! prefix_id).

(** [(prefix_id << 8) | offset as u32]. *)
Definition join (prefix_id offset : Z) : Ipv4Addr :=
  Z.lor (u32_of (Z.shiftl prefix_id 8)) offset.

Definition ip_new (graph : PrefixGraph) (epsilon : f64) (ranges : CompiledRanges) (seed : Z)
    : PmapIpAdapter :=
  mkIpAdapter ranges seed graph heap_default ∅ epsilon.

Section adapter.
Context `{PerfectRng} `{Rng R}.

(** The [loop] of [try_pick].  A turn that does not return pops the heap. *)
Fixpoint try_pick_loop (fuel : nat) (self : PmapIpAdapter) (rng : R)
    : outcome (option Ipv4Addr * PmapIpAdapter * R) :=
  match fuel with
  | O => Fault OutOfFuel
  | S fuel =>
      match top (heap self) with
      | (None, h) => Ret (None, with_heap self h, rng)
      | (Some prefix_id, h) =>
          let self := with_heap self h in
          let state := entry self prefix_id in
          let self := put_state self prefix_id state in
          if remaining state =? 0 then try_pick_loop fuel (heap_pop self) rng
          else
            match fetch_unscanned state rng with
            | (Some offset, rng) =>
                let '(_, state) := mark_scanned state offset in
                let self := put_state self prefix_id state in
                let self := if remaining state =? 0 then heap_pop self else self in
                Ret (Some (join prefix_id offset), self, rng)
            | (None, rng) => try_pick_loop fuel (heap_pop self) rng
            end
      end
  end.

Definition try_pick_fuel (self : PmapIpAdapter) : nat := S (size (values (heap self))).

Definition try_pick (self : PmapIpAdapter) (rng : R)
    : outcome (option Ipv4Addr * PmapIpAdapter * R) :=
  try_pick_loop (try_pick_fuel self) self rng.

(** The [loop] of [next]; [index] is the caller's cursor. *)
Fixpoint next_loop (fuel : nat) (self : PmapIpAdapter) (index : Z)
    : outcome (option Ipv4Addr * PmapIpAdapter * Z) :=
  match fuel with
  | O => Fault OutOfFuel
  | S fuel =>
      if total (ranges self) <=? index then Ret (None, self, index)
      else
        let shuffled := shuffle (total (ranges self)) (seed self) index in
        let index := u64_of (index + 1) in
        addr ← Ranges.index (ranges self) shuffled;
        let prefix_id := Z.shiftr addr 8 in
        let offset := Z.land addr 255 in
        match mark_scanned (entry self prefix_id) offset with
        | (true, state) => next_loop fuel (put_state self prefix_id state) index
        | (false, state) =>
            let self := put_state self prefix_id state in
            let self :=
              if (0 <? remaining state) && bool_decide (query (heap self) prefix_id = None)
              then with_heap self
                     (update (heap self) prefix_id
                        (score_of_count (historical_score (graph self) prefix_id)))
              else self in
            Ret (Some addr, self, index)
        end
  end.

Definition next_fuel (self : PmapIpAdapter) (index : Z) : nat :=
  S (Z.to_nat (total (ranges self) - index)).

Definition next (self : PmapIpAdapter) (index : Z)
    : outcome (option Ipv4Addr * PmapIpAdapter * Z) :=
  next_loop (next_fuel self index) self index.

(** [self.next(index).or_else(|| self.try_pick(rng))]. *)
Definition next_or_pick (self : PmapIpAdapter) (index : Z) (rng : R)
    : outcome (option Ipv4Addr * PmapIpAdapter * Z * R) :=
  '(a, self, index) ← next self index;
  match a with
  | Some a => Ret (Some a, self, index, rng)
  | None =>
      '(a, self, rng) ← try_pick self rng;
      Ret (a, self, index, rng)
  end.

Definition next_address (self : PmapIpAdapter) (index : Z) (rng : R)
    : outcome (option Ipv4Addr * PmapIpAdapter * Z * R) :=
  let '(u, rng) := random_unit rng in
  if f64_ge u (epsilon self) then
    '(a, self, rng) ← try_pick self rng;
    match a with
    | Some a => Ret (Some a, self, index, rng)
    | None => next_or_pick self index rng
    end
  else next_or_pick self index rng.

Definition on_result (self : PmapIpAdapter) (addr : Ipv4Addr) : PmapIpAdapter :=
  let prefix_id := Z.shiftr addr 8 in
  let has_room :=
    match actives self !! prefix_id with
    | Some s => 0 <? remaining s
    | None => true
    end in
  if has_room then
    let current :=
      match query (heap self) prefix_id with
      | Some current => current
      | None => score_of_count (historical_score (graph self) prefix_id)
      end in
    with_heap self (update (heap self) prefix_id (score_incr current))
  else self.

(** ** Calls in sequence: the cursor and the generator are the feeder's. *)

Inductive ip_call : Type :=
  | CallNext
  | CallResult (addr : Ipv4Addr).

(** The addresses handed out, and whether the last call of [next_address]
    found none. *)
Fixpoint ip_run (calls : list ip_call) (self : PmapIpAdapter) (index : Z) (rng : R)
    : outcome (list (option Ipv4Addr)) :=
  match calls with
  | [] => Ret []
  | CallNext :: calls =>
      '(a, self, index, rng) ← next_address self index rng;
      answers ← ip_run calls self index rng;
      Ret (a :: answers)
  | CallResult addr :: calls => ip_run calls (on_result self addr) index rng
  end.

End adapter.

(** ** Specification *)

Definition scanned (self : PmapIpAdapter) (a : Ipv4Addr) : bool :=
  match actives self !! (a / 256) with
  | Some s => negb (is_unscanned s (a mod 256))
  | None => false
  end.

(** ** Lemmas *)

Lemma split_u32 a : in_u32 a -> in_width 24 (a / 256) /\ 0 <= a mod 256 < 256.
Proof.
  unfold in_width. intros Ha. pose proof (Z.mod_pos_bound a 256).
  split; [|lia]. split; [apply Z.div_pos; lia|]. apply Z.div_lt_upper_bound; lia.
Qed.

Lemma join_split k o :
  in_width 24 k -> 0 <= o < 256 ->
  in_u32 (join k o) /\ join k o / 256 = k /\ join k o mod 256 = o.
Proof.
  unfold in_width. intros Hk Ho. assert (Hj : join k o = k * 256 + o).
  { unfold join, u32_of. rewrite Z.shiftl_mul_pow2, wrap_small by (unfold in_width; lia).
    rewrite Z.lor_comm, lor_disjoint by lia. lia. }
  rewrite Hj. split_and!; [lia..| |].
  - rewrite Z.div_add_l, Z.div_small; lia.
  - rewrite Z.add_comm, Z.mod_add, Z.mod_small; lia.
Qed.

Lemma split_inj a b : a / 256 = b / 256 -> a mod 256 = b mod 256 -> a = b.
Proof. pose proof (Z.div_mod a 256). pose proof (Z.div_mod b 256). lia. Qed.

Section proofs.
Context `{PerfectRng} `{Rng R}.
Context (r : Ipv4Ranges) (Hord : ordered_from 0 (inner r)) (sd : Z).

(** The prefixes that may be probed. *)
Context (allowed : Z -> Prop).
Context (Hallowed : forall x, covers (inner r) x -> allowed (x / 256)).

(** [hist] are the addresses handed out so far, and exactly those are marked. *)
Record ip_inv (hist : list Z) (self : PmapIpAdapter) : Prop := {
  inv_ranges : ranges self = compile r;
  inv_seed : seed self = sd;
  inv_heap : heap_wf (heap self);
  inv_keys k v : values (heap self) !! k = Some v -> in_width 24 k /\ allowed k;
  inv_states k s : actives self !! k = Some s -> prefix_wf s;
  inv_scanned a : in_u32 a -> (scanned self a = true <-> a ∈ hist) }.

(** The addresses at the first [index] places of the permutation are handed out. *)
Definition cursor_inv (hist : list Z) (index : Z) : Prop :=
  0 <= index <= total (compile r)
  /\ forall i, 0 <= i < index ->
       exists x, Ranges.index (compile r) (shuffle (total (compile r)) sd i) = Ret x /\ x ∈ hist.

Lemma entry_wf hist self k : ip_inv hist self -> prefix_wf (entry self k).
Proof.
  intros Hi. unfold entry. destruct (actives self !! k) eqn:E; simpl.
  - by eapply inv_states.
  - apply prefix_new_wf.
Qed.

Lemma scanned_entry self a :
  scanned self a = negb (is_unscanned (entry self (a / 256)) (a mod 256)).
Proof.
  unfold scanned, entry. destruct (actives self !! (a / 256)); simpl; [done|].
  rewrite prefix_new_unscanned; [done|]. apply Z.mod_pos_bound. lia.
Qed.

Lemma entry_put self k s k' :
  entry (put_state self k s) k' = if decide (k' = k) then s else entry self k'.
Proof.
  unfold entry. simpl. case_decide as E; [subst; by rewrite lookup_insert_eq|].
  by rewrite lookup_insert_ne.
Qed.

Lemma with_heap_inv hist self h :
  ip_inv hist self -> heap_wf h ->
  (forall k v, values h !! k = Some v -> in_width 24 k /\ allowed k) ->
  ip_inv hist (with_heap self h).
Proof. intros [] Hh Hk. by constructor. Qed.

Lemma put_entry_inv hist self k : ip_inv hist self -> ip_inv hist (put_state self k (entry self k)).
Proof.
  intros Hi. pose proof (entry_wf _ _ k Hi). destruct Hi as [? ? ? ? Hst Hsc].
  constructor; try done.
  - simpl. intros k' s [[<- <-]|[? ?]]%lookup_insert_Some; eauto.
  - intros a Ha. rewrite <- Hsc, !scanned_entry, entry_put by done.
    case_decide as E; [by rewrite E|done].
Qed.

Lemma mark_inv hist self a :
  ip_inv hist self -> in_u32 a ->
  ip_inv (a :: hist)
    (put_state self (a / 256) (mark_scanned (entry self (a / 256)) (a mod 256)).2).
Proof.
  intros Hi Ha. pose proof (split_u32 a Ha) as [_ Hoff].
  pose proof (mark_scanned_wf _ _ (entry_wf _ _ (a / 256) Hi) Hoff) as (_ & Hwf & Hu).
  destruct Hi as [? ? ? ? Hst Hsc]. constructor; try done.
  - simpl. intros k' s [[<- <-]|[? ?]]%lookup_insert_Some; eauto.
  - intros b Hb. rewrite elem_of_cons, <- Hsc, !scanned_entry, entry_put by done.
    pose proof (split_u32 b Hb) as [_ Hboff]. case_decide as E.
    + rewrite Hu, E, negb_andb, negb_involutive, orb_true_iff, Z.eqb_eq by done.
      split; [intros [|]; [by right|left; by apply split_inj]|].
      intros [->|]; [by right|by left].
    + split; [by right|]. intros [->|]; done.
Qed.

Lemma pop_inv hist self : ip_inv hist self -> ip_inv hist (heap_pop self).
Proof.
  intros Hi. pose proof (pop_wf _ (inv_heap _ _ Hi)) as [Hw Hv].
  apply with_heap_inv; [done..|]. rewrite Hv. intros k v Hk. eapply (inv_keys _ _ Hi k v).
  destruct (top _).1; [|done]. by apply lookup_delete_Some in Hk as [_ ?].
Qed.

Lemma update_inv hist self k v :
  ip_inv hist self -> in_width 24 k -> allowed k ->
  ip_inv hist (with_heap self (update (heap self) k v)).
Proof.
  intros Hi Hk Ha. pose proof (update_wf _ k v (inv_heap _ _ Hi)) as [Hw Hv].
  apply with_heap_inv; [done..|]. rewrite Hv.
  intros k' v' [[<- <-]|[_ ?]]%lookup_insert_Some; [done|]. by eapply inv_keys.
Qed.

(** A pop on a non-empty queue makes it smaller. *)
Lemma pop_size (h : LazyHeap Z score) :
  heap_wf h -> values h <> ∅ -> (size (values (pop h)) < size (values h))%nat.
Proof.
  intros Hh Hne. pose proof (pop_wf h Hh) as [_ ->]. pose proof (top_wf h Hh) as (_ & _ & Ht).
  destruct (top h).1 as [k|]; [|done]. destruct Ht as (v & Hv & _).
  rewrite map_size_delete_Some by done.
  assert (size (values h) <> 0%nat) by (by rewrite map_size_empty_iff).
  lia.
Qed.

(** Popping is needed for the invariant only where it happens. *)
Lemma maybe_pop_inv hist self (b : bool) :
  ip_inv hist self -> ip_inv hist (if b then heap_pop self else self).
Proof. destruct b; auto using pop_inv. Qed.

Definition picked (hist : list Z) (a : option Z) (self : PmapIpAdapter) : Prop :=
  match a with
  | Some a => in_u32 a /\ (a ∉ hist) /\ allowed (a / 256) /\ ip_inv (a :: hist) self
  | None => ip_inv hist self /\ values (heap self) = ∅
  end.

Lemma try_pick_loop_ok fuel : forall hist self (rng : R),
  ip_inv hist self -> (size (values (heap self)) < fuel)%nat ->
  exists a self' rng', try_pick_loop fuel self rng = Ret (a, self', rng')
    /\ picked hist a self'.
Proof.
  induction fuel as [|fuel IH]; intros hist self rng Hi Hf; [lia|]. cbn [try_pick_loop].
  pose proof (top_wf _ (inv_heap _ _ Hi)) as (Hw & Hv & Ht).
  destruct (top (heap self)) as [[k|] h] eqn:Et; cbn [fst snd] in *.
  2:{ eexists _, _, _. split; [done|]. split; [|by simpl; congruence].
      apply with_heap_inv; [done..|]. rewrite Hv. apply (inv_keys _ _ Hi). }
  assert (Hne : values h <> ∅).
  { rewrite Hv. destruct Ht as (v & Hk & _). intros He. by rewrite He in Hk. }
  assert (Hkey : in_width 24 k /\ allowed k).
  { destruct Ht as (v & Hk & _). by eapply inv_keys. }
  assert (Hi' : ip_inv hist (with_heap self h)).
  { apply with_heap_inv; [done..|]. rewrite Hv. apply (inv_keys _ _ Hi). }
  set (self1 := with_heap self h) in *.
  pose proof (put_entry_inv hist self1 k Hi') as Hp. set (self2 := put_state self1 k _) in *.
  assert (Hpop : (size (values (heap (heap_pop self2))) < fuel)%nat).
  { pose proof (pop_size h Hw Hne). rewrite Hv in *. simpl. lia. }
  pose proof (pop_inv _ _ Hp). pose proof (entry_wf _ _ k Hi') as Hst.
  assert (He : entry self2 k = entry self1 k) by (unfold self2; by rewrite entry_put, decide_True).
  destruct (remaining (entry self1 k) =? 0); [by apply IH|].
  pose proof (fetch_unscanned_wf _ rng Hst) as Hfetch.
  destruct (fetch_unscanned (entry self1 k) rng) as [[o|] rng']; cbn [fst] in *; [|by apply IH].
  apply elem_of_unscanned in Hfetch as [Ho Hu].
  destruct (join_split k o ltac:(tauto) Ho) as (Hj & Hdiv & Hmod).
  pose proof (mark_inv _ _ _ Hp Hj) as Hm. rewrite Hdiv, Hmod, He in Hm.
  destruct (mark_scanned (entry self1 k) o) as [b st]. cbn [snd] in Hm.
  eexists _, _, _. split; [done|]. split_and!; [done| |rewrite Hdiv; tauto|by apply maybe_pop_inv].
  rewrite <- (inv_scanned _ _ Hp), scanned_entry, Hdiv, Hmod, He, Hu by done. done.
Qed.

Lemma try_pick_ok hist self (rng : R) :
  ip_inv hist self ->
  exists a self' rng', try_pick self rng = Ret (a, self', rng') /\ picked hist a self'.
Proof. intros Hi. apply try_pick_loop_ok; [done|]. unfold try_pick_fuel. lia. Qed.

Lemma cursor_weaken a hist index : cursor_inv hist index -> cursor_inv (a :: hist) index.
Proof.
  intros [? Hc]. split; [done|]. intros i Hi. destruct (Hc i Hi) as (x & ? & ?).
  exists x. split; [done|]. apply elem_of_cons. by right.
Qed.

(** The address at a place of the permutation. *)
Lemma place index :
  0 <= index < total (compile r) ->
  exists x, Ranges.index (compile r) (shuffle (total (compile r)) sd index) = Ret x
    /\ covers (inner r) x.
Proof.
  intros Hix. pose proof (shuffle_in (total (compile r)) sd index Hix) as Hs.
  pose proof (compile_total r 0 ltac:(lia) Hord) as Ht.
  destruct (addrs (inner r) !! Z.to_nat (shuffle (total (compile r)) sd index)) as [x|] eqn:E.
  - exists x. split; [apply (index_ok r 0); try done; lia|]. apply elem_of_addrs.
    by eapply list_elem_of_lookup_2.
  - apply lookup_ge_None in E. lia.
Qed.

Lemma cursor_step hist index x :
  cursor_inv hist index -> index < total (compile r) -> x ∈ hist ->
  Ranges.index (compile r) (shuffle (total (compile r)) sd index) = Ret x ->
  u64_of (index + 1) = index + 1 /\ cursor_inv hist (index + 1).
Proof.
  intros [Hix Hc] Hlt Hx He. pose proof (length_addrs_bound 0 (inner r) ltac:(lia) Hord).
  rewrite <- (compile_total r 0) in * by (done || lia). split.
  { apply wrap_small. unfold in_width. lia. }
  split; [lia|]. intros i Hi. destruct (decide (i = index)) as [->|]; [by exists x|].
  apply Hc. lia.
Qed.

Definition walked (hist : list Z) (a : option Z) (self : PmapIpAdapter) (index : Z) : Prop :=
  match a with
  | Some a => in_u32 a /\ (a ∉ hist) /\ covers (inner r) a
              /\ ip_inv (a :: hist) self /\ cursor_inv (a :: hist) index
  | None => ip_inv hist self /\ cursor_inv hist index /\ index = total (compile r)
  end.

Lemma next_loop_ok fuel : forall hist self index,
  ip_inv hist self -> cursor_inv hist index ->
  (Z.to_nat (total (compile r) - index) < fuel)%nat ->
  exists a self' index', next_loop fuel self index = Ret (a, self', index')
    /\ walked hist a self' index'.
Proof.
  induction fuel as [|fuel IH]; intros hist self index Hi Hc Hf; [lia|]. cbn [next_loop].
  rewrite (inv_ranges _ _ Hi), (inv_seed _ _ Hi).
  destruct (Z.leb_spec (total (compile r)) index) as [Hge|Hlt].
  { eexists _, _, _. split; [done|]. split_and!; [done..|]. destruct Hc. lia. }
  destruct (place index ltac:(destruct Hc; lia)) as (x & Hx & Hcov). rewrite Hx. simpl mbind.
  pose proof (ordered_from_bound 0 _ _ Hord Hcov) as Hxb. assert (Hx32 : in_u32 x) by apply Hxb.
  rewrite (shiftr_div x 8), land_255 by lia. change (2 ^ 8) with 256.
  pose proof (split_u32 x Hx32) as [Hpre Hoff].
  pose proof (mark_scanned_wf _ _ (entry_wf _ _ (x / 256) Hi) Hoff) as (Hb & _ & _).
  pose proof (mark_inv _ _ _ Hi Hx32) as Hm.
  assert (Hiff : (mark_scanned (entry self (x / 256)) (x mod 256)).1 = true <-> x ∈ hist).
  { by rewrite Hb, <- scanned_entry, <- (inv_scanned _ _ Hi). }
  destruct (mark_scanned (entry self (x / 256)) (x mod 256)) as [[] st] eqn:Em; cbn [fst snd] in *.
  - assert (Hin : x ∈ hist) by tauto.
    destruct (cursor_step hist index x Hc Hlt Hin Hx) as [-> Hc'].
    apply IH; [|done|lia]. unfold mark_scanned in Em.
    destruct (negb _) in Em; [|done]. simplify_eq. by apply put_entry_inv.
  - destruct (cursor_step (x :: hist) index x (cursor_weaken _ _ _ Hc) Hlt) as [-> Hc'];
      [apply elem_of_cons; by left|done|].
    eexists _, _, _. split; [done|]. split_and!; [done| |done| |done].
    { intros Hin%Hiff. done. }
    destruct (_ && _); [|exact Hm]. apply (update_inv _ _ _ _ Hm); auto.
Qed.

Lemma next_ok hist self index :
  ip_inv hist self -> cursor_inv hist index ->
  exists a self' index', next self index = Ret (a, self', index')
    /\ walked hist a self' index'.
Proof.
  intros Hi Hc. apply next_loop_ok; [done..|]. unfold next_fuel.
  rewrite (inv_ranges _ _ Hi). lia.
Qed.

(** A permutation reaches every place. *)
Lemma cursor_end hist x :
  cursor_inv hist (total (compile r)) -> covers (inner r) x -> x ∈ hist.
Proof.
  intros [_ Hc] [j Hj]%elem_of_addrs%list_elem_of_lookup.
  set (n := total (compile r)) in *. pose proof (compile_total r 0 ltac:(lia) Hord) as Hn.
  assert (Hperm : seqZ 0 n ≡ₚ shuffle n sd <$> seqZ 0 n).
  { symmetry. apply submseteq_length_Permutation; [|by rewrite length_fmap].
    apply NoDup_submseteq.
    - apply NoDup_fmap_2_strong; [|apply NoDup_seqZ]. intros i k Hik Hk.
      rewrite elem_of_seqZ in *. apply shuffle_inj; lia.
    - intros k (i & -> & Hik)%list_elem_of_fmap. rewrite elem_of_seqZ in *.
      pose proof (shuffle_in n sd i). lia. }
  apply lookup_lt_Some in Hj as Hlt.
  assert (Hin : Z.of_nat j ∈ seqZ 0 n) by (apply elem_of_seqZ; lia).
  rewrite Hperm in Hin. apply list_elem_of_fmap in Hin as (i & Hji & Hi).
  apply elem_of_seqZ in Hi. destruct (Hc i ltac:(lia)) as (y & Hy & Hin).
  rewrite <- Hji, (index_ok r 0 ltac:(lia) Hord (Z.of_nat j) x) in Hy; [by simplify_eq|lia|].
  by rewrite Nat2Z.id.
Qed.

Definition answered (hist : list Z) (a : option Z) (self : PmapIpAdapter) (index : Z) : Prop :=
  match a with
  | Some a => in_u32 a /\ (a ∉ hist) /\ allowed (a / 256)
              /\ ip_inv (a :: hist) self /\ cursor_inv (a :: hist) index
  | None => ip_inv hist self /\ cursor_inv hist index
            /\ forall x, covers (inner r) x -> x ∈ hist
  end.

Lemma next_or_pick_ok hist self index (rng : R) :
  ip_inv hist self -> cursor_inv hist index ->
  exists a self' index' rng', next_or_pick self index rng = Ret (a, self', index', rng')
    /\ answered hist a self' index'.
Proof.
  intros Hi Hc. unfold next_or_pick.
  destruct (next_ok hist self index Hi Hc) as ([a|] & self' & index' & -> & Hw); simpl.
  - destruct Hw as (? & ? & ? & ? & ?). eexists _, _, _, _. split; [done|].
    split_and!; auto.
  - destruct Hw as (Hi' & Hc' & ->).
    destruct (try_pick_ok hist self' rng Hi') as ([a|] & self'' & rng' & -> & Hp); simpl;
      eexists _, _, _, _; (split; [done|]); simpl in Hp.
    + destruct Hp as (? & ? & ? & ?). split_and!; auto using cursor_weaken.
    + destruct Hp. split_and!; [done..|]. intros x Hx. by apply cursor_end.
Qed.

Lemma next_address_ok hist self index (rng : R) :
  ip_inv hist self -> cursor_inv hist index ->
  exists a self' index' rng', next_address self index rng = Ret (a, self', index', rng')
    /\ answered hist a self' index'.
Proof.
  intros Hi Hc. unfold next_address. destruct (random_unit rng) as [u rng'].
  destruct (f64_ge u (epsilon self)); [|by apply next_or_pick_ok].
  destruct (try_pick_ok hist self rng' Hi) as ([a|] & self' & rng'' & -> & Hp); simpl in *.
  - destruct Hp as (? & ? & ? & ?). eexists _, _, _, _. split; [done|].
    split_and!; auto using cursor_weaken.
  - destruct Hp. by apply next_or_pick_ok.
Qed.

Lemma on_result_inv hist self a :
  ip_inv hist self -> in_u32 a -> allowed (a / 256) -> ip_inv hist (on_result self a).
Proof.
  intros Hi Ha Hal. unfold on_result. rewrite (shiftr_div a 8) by lia. change (2 ^ 8) with 256.
  pose proof (split_u32 a Ha) as [? _].
  destruct (actives self !! (a / 256)) as [s|]; [destruct (0 <? remaining s); [|done]|];
    by apply update_inv.
Qed.

Lemma ip_run_ok calls : forall hist self index (rng : R),
  ip_inv hist self -> cursor_inv hist index ->
  (forall a, CallResult a ∈ calls -> in_u32 a /\ allowed (a / 256)) ->
  exists answers, ip_run calls self index rng = Ret answers
    /\ NoDup (omap id answers)
    /\ (forall a, Some a ∈ answers -> in_u32 a /\ (a ∉ hist) /\ allowed (a / 256))
    /\ (None ∈ answers -> forall x, covers (inner r) x -> x ∈ hist \/ Some x ∈ answers).
Proof.
  induction calls as [|[|addr] calls IH]; intros hist self index rng Hi Hc Hres; cbn [ip_run].
  - exists []. split_and!; [done|constructor|intros a Ha|intros Ha]; by apply elem_of_nil in Ha.
  - destruct (next_address_ok hist self index rng Hi Hc)
      as ([a|] & self' & index' & rng' & -> & Ha); cbn [answered] in Ha; simpl mbind.
    + destruct Ha as (Ha32 & Hnew & Hal & Hi' & Hc').
      destruct (IH (a :: hist) self' index' rng' Hi' Hc') as (answers & -> & Hnd & Hans & Hnone).
      { intros b Hb. apply Hres. apply elem_of_cons. by right. }
      exists (Some a :: answers). simpl. split_and!; [done| | |].
      * constructor; [|done]. intros (o & Ho & Heq)%list_elem_of_omap. unfold id in Heq. subst.
        destruct (Hans _ Ho) as (_ & Hni & _). set_solver.
      * intros b [[= ->]|Hb]%elem_of_cons; [done|]. destruct (Hans _ Hb) as (? & ? & ?). set_solver.
      * intros [|Hn]%elem_of_cons x Hx; [done|]. destruct (Hnone Hn x Hx) as [|]; set_solver.
    + destruct Ha as (Hi' & Hc' & Hall).
      destruct (IH hist self' index' rng' Hi' Hc') as (answers & -> & Hnd & Hans & Hnone).
      { intros b Hb. apply Hres. apply elem_of_cons. by right. }
      exists (None :: answers). simpl. split_and!; [done..| |].
      * intros b [|Hb]%elem_of_cons; [done|]. auto.
      * intros _ x Hx. left. auto.
  - destruct (Hres addr) as [Ha Hal]; [apply elem_of_cons; by left|].
    apply IH; [by apply on_result_inv|done|]. intros b Hb. apply Hres. apply elem_of_cons. by right.
Qed.

Lemma ip_new_inv g eps : ip_inv [] (ip_new g eps (compile r) sd) /\ cursor_inv [] 0.
Proof.
  split; [constructor; try done|].
  - apply heap_default_wf.
  - intros a _. split; [done|]. intros Ha. by apply elem_of_nil in Ha.
  - split; [rewrite (compile_total r 0) by (done || lia); lia|]. intros. lia.
Qed.

End proofs.

(** A permutation for closed examples: rotation by the seed. *)
Definition rotate (range seed i : Z) : Z := (i + seed) mod range.

Global Program Instance rotation_rng : PerfectRng := {| shuffle := rotate |}.
Next Obligation. intros range seed i Hi. apply Z.mod_pos_bound. lia. Qed.
Next Obligation.
  unfold rotate. intros range seed i j Hi Hj He.
  assert (Hz : (i - j) mod range = 0).
  { replace (i - j) with ((i + seed) - (j + seed)) by lia.
    rewrite Zminus_mod, He, Z.sub_diag. by rewrite Z.mod_0_l by lia. }
  apply Z.mod_divide in Hz as [q Hq]; [|lia]. assert (q = 0) by nia. lia.
Qed.

(** ** Properties *)

(** The /24 of [a] holds an address in scope, or one that has answered. *)
Definition near (r : Ipv4Ranges) (calls : list ip_call) (a : Z) : Prop :=
  exists b, a / 256 = b / 256 /\ (covers (inner r) b \/ CallResult b ∈ calls).

(** C13: whatever the generators draw and however [on_result] is interleaved,
    address selection neither faults nor loops, hands out no address twice,
    and stays in the /24 prefixes of the addresses in scope or of the
    addresses whose results are reported. *)
Theorem ip_no_repeat {R} `{PerfectRng, Rng R} (r : Ipv4Ranges) (calls : list ip_call)
    (g : PrefixGraph) (eps : f64) (sd : Z) (rng : R) :
  ordered_from 0 (inner r) -> (forall a, CallResult a ∈ calls -> in_u32 a) ->
  exists answers, ip_run calls (ip_new g eps (compile r) sd) 0 rng = Ret answers
    /\ NoDup (omap id answers)
    /\ forall a, Some a ∈ answers -> in_u32 a /\ near r calls a.
Proof.
  intros Hord Hres. set (allowed k := exists b, k = b / 256
    /\ (covers (inner r) b \/ CallResult b ∈ calls)).
  assert (Hallowed : forall x, covers (inner r) x -> allowed (x / 256)).
  { intros x Hx. exists x. auto. }
  destruct (ip_new_inv r Hord sd allowed g eps) as [Hi Hc].
  destruct (ip_run_ok r Hord sd allowed Hallowed calls [] _ 0 rng Hi Hc)
    as (answers & Hrun & Hnd & Hans & _).
  { intros a Ha. split; [auto|]. exists a. auto. }
  exists answers. split_and!; [done..|]. intros a Ha. destruct (Hans a Ha) as (? & _ & ?). done.
Qed.

(** C14: when address selection reports that nothing is left, every address
    in scope has been handed out. *)
Theorem ip_exhaustive {R} `{PerfectRng, Rng R} (r : Ipv4Ranges) (calls : list ip_call)
    (g : PrefixGraph) (eps : f64) (sd : Z) (rng : R) (answers : list (option Ipv4Addr)) :
  ordered_from 0 (inner r) -> (forall a, CallResult a ∈ calls -> in_u32 a) ->
  ip_run calls (ip_new g eps (compile r) sd) 0 rng = Ret answers -> None ∈ answers ->
  forall x, covers (inner r) x -> Some x ∈ answers.
Proof.
  intros Hord Hres Hrun Hnone x Hx.
  destruct (ip_new_inv r Hord sd (fun _ => True) g eps) as [Hi Hc].
  destruct (ip_run_ok r Hord sd (fun _ => True) ltac:(done) calls [] _ 0 rng Hi Hc)
    as (answers' & Hrun' & _ & _ & Hall).
  { intros a Ha. split; [auto|done]. }
  rewrite Hrun in Hrun'. simplify_eq. destruct (Hall Hnone x Hx) as [Hn|]; [|done].
  by apply elem_of_nil in Hn.
Qed.

(** *** Witnesses *)

Definition ex_graph : PrefixGraph := from_counts {[ 655360 := 3 ]}.
Definition ex_ranges : Ipv4Ranges := from_ranges [mkRange 167772160 167772161; mkRange 167772416 167772416].
Definition ex_rng : replay := mkReplay [9; 11] [] 0.

Lemma ip_no_repeat_witness :
  exists answers, ip_run [CallNext; CallResult 167772160; CallNext; CallNext]
      (ip_new ex_graph (f64_of_Z 1) (compile ex_ranges) 1) 0 ex_rng = Ret answers
    /\ NoDup (omap id answers)
    /\ forall a, Some a ∈ answers ->
         in_u32 a /\ near ex_ranges [CallNext; CallResult 167772160; CallNext; CallNext] a.
Proof.
  apply (ip_no_repeat ex_ranges).
  - vm_compute. intuition congruence.
  - intros a Ha. assert (a = 167772160) as -> by set_solver. vm_compute. intuition congruence.
Defined.

(** Two addresses of two prefixes; the rest of their /24s is picked later. *)
Lemma ip_exhaustive_witness :
  Some 167772416 ∈ default [] (match ip_run (replicate 513 CallNext)
      (ip_new ex_graph (f64_of_Z 1) (compile ex_ranges) 1) 0 ex_rng
      with Ret l => Some l | Fault _ => None end).
Proof.
  refine (ip_exhaustive ex_ranges (replicate 513 CallNext) ex_graph (f64_of_Z 1) 1 ex_rng _
    _ _ _ _ 167772416 _).
  - vm_compute. intuition congruence.
  - intros a [Ha _]%elem_of_replicate. done.
  - vm_compute. reflexivity.
  - eapply bool_decide_unpack. vm_compute. exact I.
  - apply covers_cons. right. apply covers_cons. left. vm_compute. split; congruence.
Defined.

(** An address handed out need not be in scope: the prefix of 10.0.0.5, the
    only address in scope, is enough for 10.0.0.9 to be picked. *)
Example picked_out_of_scope :
  ip_run [CallNext; CallNext] (ip_new ex_graph (S754_zero false)
    (compile (from_range (mkRange 167772165 167772165))) 0) 0 ex_rng
  = Ret [Some 167772165; Some 167772169]
  /\ ~ covers (inner (from_range (mkRange 167772165 167772165))) 167772169.
Proof.
  split; [vm_compute; reflexivity|]. intros Hc. apply covers_cons in Hc as [Hc|Hc].
  - simpl in Hc. lia.
  - by apply covers_nil in Hc.
Qed.
