(* ===== verification/Addresses.v ===== *)
(** * The address strategy under contention: [controller/strategy/ip/pmap.rs]

    The feeder asks for addresses while the responders report results.  Each
    access to [actives] and each access of the shared heap ([Concurrent]) is a
    step of its own, and the steps of all threads interleave in any order.  A
    thread that keeps an entry or a lock while it goes on keeps others out for
    longer; here they may go on, so that more interleavings are allowed than
    can happen. *)

From S2P Require Import Prelude Float Rand Ranges Heap Concurrent Prefix IpPmap.

Abbreviation heap_call := (@pc Z score).

Section addresses.
Context `{PerfectRng} `{Rng R}.

(** ** Calls *)

(** Where a thread is: in [try_pick] ([last] when nothing follows it), in the
    loop of [next], in [on_result], or not in a call. *)
Inductive ip_visit : Type :=
  | PickTop (p : heap_call) (last : bool)
  | PickEntry (prefix_id : Z) (last : bool)
  | PickPop (p : heap_call) (found : option Ipv4Addr) (last : bool)
  | NextEntry
  | NextQuery (p : heap_call) (addr : Ipv4Addr)
  | NextUpdate (p : heap_call) (addr : Ipv4Addr)
  | ReportGet (addr : Ipv4Addr)
  | ReportQuery (p : heap_call) (prefix_id : Z)
  | ReportUpdate (p : heap_call)
  | IpReturned (a : option Ipv4Addr).

(** The strategy, the cursor and the generator of the feeder, and the addresses
    it was given so far. *)
Record ip_state : Type := mkIpState {
  is_adapter : PmapIpAdapter;
  is_index : Z;
  is_rng : R;
  is_handed : list Ipv4Addr }.

Definition set_adapter (s : ip_state) (a : PmapIpAdapter) : ip_state :=
  mkIpState a (is_index s) (is_rng s) (is_handed s).

(** ** Steps *)

(** One access of a call of the heap. *)
Definition heap_access (s : ip_state) (p : heap_call) : ip_state * heap_call :=
  match advance true true (heap (is_adapter s)) p with
  | Some (h, p) => (set_adapter s (with_heap (is_adapter s) h), p)
  | None => (s, p)
  end.

(** [next_address] begins: the draw decides whether [try_pick] comes first. *)
Definition next_begin (s : ip_state) : ip_state * ip_visit :=
  let '(u, rng) := random_unit (is_rng s) in
  (mkIpState (is_adapter s) (is_index s) rng (is_handed s),
   if f64_ge u (epsilon (is_adapter s)) then PickTop (enter OpTop) false else NextEntry).

(** The entry of a prefix in [try_pick]. *)
Definition pick_entry (s : ip_state) (prefix_id : Z) (last : bool) : ip_state * ip_visit :=
  let self := is_adapter s in
  let state := entry self prefix_id in
  let self := put_state self prefix_id state in
  if remaining state =? 0 then (set_adapter s self, PickPop (enter OpPop) None last)
  else
    match fetch_unscanned state (is_rng s) with
    | (Some offset, rng) =>
        let '(_, state) := mark_scanned state offset in
        let addr := join prefix_id offset in
        (mkIpState (put_state self prefix_id state) (is_index s) rng (addr :: is_handed s),
         if remaining state =? 0 then PickPop (enter OpPop) (Some addr) last else IpReturned (Some addr))
    | (None, rng) => (mkIpState self (is_index s) rng (is_handed s), PickPop (enter OpPop) None last)
    end.

(** A turn of the [loop] of [next], up to the use of the heap. *)
Definition next_entry (s : ip_state) : outcome (ip_state * ip_visit) :=
  let self := is_adapter s in
  let index := is_index s in
  if total (ranges self) <=? index then Ret (s, PickTop (enter OpTop) true)
  else
    let shuffled := shuffle (total (ranges self)) (IpPmap.seed self) index in
    let index := u64_of (index + 1) in
    addr ← Ranges.index (ranges self) shuffled;
    let prefix_id := Z.shiftr addr 8 in
    match mark_scanned (entry self prefix_id) (Z.land addr 255) with
    | (true, state) => Ret (mkIpState (put_state self prefix_id state) index (is_rng s) (is_handed s), NextEntry)
    | (false, state) =>
        Ret (mkIpState (put_state self prefix_id state) index (is_rng s) (addr :: is_handed s),
             if 0 <? remaining state then NextQuery (enter (OpQuery prefix_id)) addr else IpReturned (Some addr))
    end.

(** One access, and what the thread does until the next one. *)
Definition ip_access (s : ip_state) (v : ip_visit) : outcome (ip_state * ip_visit) :=
  match v with
  | PickTop p last =>
      let '(s, p) := heap_access s p in
      Ret (s, match p with
              | Returned (AKey (Some prefix_id)) => PickEntry prefix_id last
              | Returned _ => if last then IpReturned None else NextEntry
              | p => PickTop p last
              end)
  | PickEntry prefix_id last => Ret (pick_entry s prefix_id last)
  | PickPop p found last =>
      let '(s, p) := heap_access s p in
      Ret (s, match p, found with
              | Returned _, Some addr => IpReturned (Some addr)
              | Returned _, None => PickTop (enter OpTop) last
              | p, found => PickPop p found last
              end)
  | NextEntry => next_entry s
  | NextQuery p addr =>
      let prefix_id := Z.shiftr addr 8 in
      let '(s, p) := heap_access s p in
      Ret (s, match p with
              | Returned (AValue None) =>
                  NextUpdate (enter (OpUpdate prefix_id
                    (score_of_count (historical_score (graph (is_adapter s)) prefix_id)))) addr
              | Returned _ => IpReturned (Some addr)
              | p => NextQuery p addr
              end)
  | NextUpdate p addr =>
      let '(s, p) := heap_access s p in
      Ret (s, match p with Returned _ => IpReturned (Some addr) | p => NextUpdate p addr end)
  | ReportGet addr =>
      let prefix_id := Z.shiftr addr 8 in
      let has_room :=
        match actives (is_adapter s) !! prefix_id with
        | Some s => 0 <? remaining s
        | None => true
        end in
      Ret (s, if has_room then ReportQuery (enter (OpQuery prefix_id)) prefix_id else IpReturned None)
  | ReportQuery p prefix_id =>
      let '(s, p) := heap_access s p in
      Ret (s, match p with
              | Returned a =>
                  let current :=
                    match a with
                    | AValue (Some current) => current
                    | _ => score_of_count (historical_score (graph (is_adapter s)) prefix_id)
                    end in
                  ReportUpdate (enter (OpUpdate prefix_id (score_incr current)))
              | p => ReportQuery p prefix_id
              end)
  | ReportUpdate p =>
      let '(s, p) := heap_access s p in
      Ret (s, match p with Returned _ => IpReturned None | p => ReportUpdate p end)
  | IpReturned _ => Ret (s, v)
  end.

(** ** Threads *)

(** The strategy, the feeder and the threads that report. *)
Record ip_world : Type := mkIpWorld {
  iw_state : ip_state;
  iw_feeder : ip_visit;
  iw_reports : list ip_visit }.

(** A thread begins a call when it is in none, or makes a step. *)
Inductive ip_move : Type :=
  | FeederBegin
  | FeederStep
  | ReportBegin (i : nat) (addr : Ipv4Addr)
  | ReportStep (i : nat).

Definition ip_moved (m : ip_move) (w : ip_world) : outcome ip_world :=
  match m with
  | FeederBegin =>
      match iw_feeder w with
      | IpReturned _ => let '(s, v) := next_begin (iw_state w) in Ret (mkIpWorld s v (iw_reports w))
      | _ => Ret w
      end
  | FeederStep =>
      '(s, v) ← ip_access (iw_state w) (iw_feeder w);
      Ret (mkIpWorld s v (iw_reports w))
  | ReportBegin i addr =>
      match iw_reports w !! i with
      | Some (IpReturned _) => Ret (mkIpWorld (iw_state w) (iw_feeder w) (<[i := ReportGet addr]> (iw_reports w)))
      | _ => Ret w
      end
  | ReportStep i =>
      match iw_reports w !! i with
      | Some v =>
          '(s, v) ← ip_access (iw_state w) v;
          Ret (mkIpWorld s (iw_feeder w) (<[i := v]> (iw_reports w)))
      | None => Ret w
      end
  end.

Fixpoint ip_moves (l : list ip_move) (w : ip_world) : outcome ip_world :=
  match l with
  | [] => Ret w
  | m :: l => w ← ip_moved m w; ip_moves l w
  end.

(** A call that is not interrupted. *)
Fixpoint ip_visit_run (n : nat) (s : ip_state) (v : ip_visit) : outcome (ip_state * ip_visit) :=
  match n with
  | O => Ret (s, v)
  | S n => '(s, v) ← ip_access s v; ip_visit_run n s v
  end.

(** ** Specification *)

(** How many steps a report has left at most. *)
Definition report_left (v : ip_visit) : nat :=
  match v with
  | ReportGet _ => 6
  | ReportQuery p _ => 4 + steps_left p
  | ReportUpdate p => steps_left p
  | _ => 0
  end.

Definition is_report (v : ip_visit) : bool :=
  match v with ReportGet _ | ReportQuery _ _ | ReportUpdate _ | IpReturned _ => true | _ => false end.

(** Keys are prefixes of 24 bits. *)
Definition is_prefix (k : Z) : Prop := in_width 24 k.

Definition keys_ok (h : LazyHeap Z score) : Prop := Forall (fun e => is_prefix e.2) (current h).

Definition call_ok (p : heap_call) : Prop :=
  match p with
  | UpdateGet k _ | UpdateStale k _ _ | UpdateInsert k _ | UpdatePush k _ => is_prefix k
  | Returned (AKey (Some k)) => is_prefix k
  | _ => True
  end.

Definition visit_ok (v : ip_visit) : Prop :=
  match v with
  | PickTop p _ | PickPop p _ _ => call_ok p
  | PickEntry prefix_id _ => is_prefix prefix_id
  | NextEntry | IpReturned _ => True
  | NextQuery p addr | NextUpdate p addr => call_ok p /\ in_u32 addr
  | ReportGet addr => in_u32 addr
  | ReportQuery p prefix_id => call_ok p /\ is_prefix prefix_id /\ returned p = false
  | ReportUpdate p => call_ok p /\ returned p = false
  end.

Context (r : Ipv4Ranges) (Hord : ordered_from 0 (inner r)) (sd : Z).
Abbreviation anywhere := (fun _ : Z => True).

(** Exactly the addresses handed out are marked, none of them twice; what is in
    the heap does not matter for that, apart from its keys. *)
Record ip_state_ok (s : ip_state) : Prop := {
  is_marks : ip_inv r sd anywhere (is_handed s) (with_heap (is_adapter s) heap_default);
  is_keys : keys_ok (heap (is_adapter s));
  is_cursor : cursor_inv r sd (is_handed s) (is_index s);
  is_distinct : NoDup (is_handed s) }.

Record ip_world_ok (w : ip_world) : Prop := {
  iw_state_ok : ip_state_ok (iw_state w);
  iw_feeder_ok : visit_ok (iw_feeder w);
  iw_reports_ok : Forall (fun v => visit_ok v /\ is_report v = true) (iw_reports w) }.

Definition move_ok (m : ip_move) : Prop := match m with ReportBegin _ addr => in_u32 addr | _ => True end.

(** ** Lemmas: the heap *)

Lemma top_loop_suffix (cur stl : list (score * Z)) : (top_loop cur stl).1 `suffix_of` cur.
Proof.
  revert stl. induction cur as [|a cur IH]; intros [|b stl]; simpl; try done. case_decide; [|done].
  apply suffix_cons_r, IH.
Qed.

Lemma top_keys h : keys_ok h -> keys_ok (_top h).
Proof.
  unfold keys_ok, _top. intros Hk. pose proof (top_loop_suffix (current h) (stale h)) as [l Hl].
  destruct (top_loop (current h) (stale h)) as [cur stl]. cbn in *. rewrite Hl in Hk. by apply Forall_app in Hk as [_ ?].
Qed.

Lemma push_keys k v cur :
  is_prefix k -> Forall (fun e : score * Z => is_prefix e.2) cur -> Forall (fun e => is_prefix e.2) (bh_push (v, k) cur).
Proof. intros Hk Hc. eapply Permutation_Forall; [symmetry; apply bh_push_perm|]. by constructor. Qed.

(** A step of a call of the heap keeps the keys, and brings it nearer to its
    end. *)
Lemma advance_keys h p :
  keys_ok h -> call_ok p -> returned p = false ->
  exists h' p', advance true true h p = Some (h', p') /\ keys_ok h' /\ call_ok p' /\ (steps_left p' < steps_left p)%nat.
Proof.
  intros Hh Hp Hr. pose proof (top_keys h Hh) as Ht.
  assert (exists h' p', advance true true h p = Some (h', p') /\ keys_ok h' /\ call_ok p') as (h' & p' & E & ? & ?).
  { destruct p as [popping|popping|k|k|k v|k v old|k v|k v| | | |a]; cbn [advance]; try done;
      try (by eexists _, _; split_and!; [reflexivity|..]).
    - pose proof Ht as Ht'. unfold keys_ok in Ht'. destruct (current (_top h)) as [|[v k] cur].
      + destruct popping; by eexists _, _; split_and!; [reflexivity|..].
      + apply Forall_cons in Ht' as [Hk Ht']. destruct popping; by eexists _, _; split_and!; [reflexivity|..].
    - destruct (values h !! k); by eexists _, _.
    - eexists _, _. split_and!; [reflexivity| |done]. by apply push_keys.
    - eexists _, _. split_and!; [reflexivity|constructor|done]. }
  exists h', p'. split_and!; try done. by eapply advance_less.
Qed.

(** The strategy with another heap. *)
Lemma set_heap_ok s h : ip_state_ok s -> keys_ok h -> ip_state_ok (set_adapter s (with_heap (is_adapter s) h)).
Proof. intros [Hm Hk Hc Hd] Hh. by constructor. Qed.

Lemma heap_access_ok s p :
  ip_state_ok s -> call_ok p ->
  ip_state_ok (heap_access s p).1 /\ call_ok (heap_access s p).2
  /\ is_handed (heap_access s p).1 = is_handed s
  /\ (returned p = false -> (steps_left (heap_access s p).2 < steps_left p)%nat).
Proof.
  intros Hs Hp. unfold heap_access. destruct (returned p) eqn:Er.
  { destruct p; try done. }
  destruct (advance_keys _ p (is_keys _ Hs) Hp Er) as (h & p' & -> & Hk & Hp' & Hl). cbn.
  split_and!; [by apply set_heap_ok|done..].
Qed.

(** ** Lemmas: the entries *)

Lemma prefix_of_addr addr : in_u32 addr -> is_prefix (Z.shiftr addr 8).
Proof. intros Ha. rewrite shiftr_div by lia. by apply split_u32. Qed.

Lemma put_entry_ok s k : ip_state_ok s -> ip_state_ok (set_adapter s (put_state (is_adapter s) k (entry (is_adapter s) k))).
Proof.
  intros [Hm Hk Hc Hd]. constructor; try done. exact (put_entry_inv r sd anywhere _ _ k Hm).
Qed.

(** An address that was not marked is marked. *)
Lemma mark_ok s a index (rng : R) :
  ip_state_ok s -> in_u32 a -> is_unscanned (entry (is_adapter s) (a / 256)) (a mod 256) = true ->
  cursor_inv r sd (a :: is_handed s) index ->
  ip_state_ok (mkIpState (put_state (is_adapter s) (a / 256)
    (mark_scanned (entry (is_adapter s) (a / 256)) (a mod 256)).2) index rng (a :: is_handed s)).
Proof.
  intros [Hm Hk Hc Hd] Ha Hu Hc'. constructor; cbn; try done.
  - exact (mark_inv r sd anywhere _ _ a Hm Ha).
  - constructor; [|done]. rewrite <- (inv_scanned _ _ _ _ _ Hm) by done. rewrite scanned_entry.
    change (entry (with_heap (is_adapter s) heap_default) (a / 256)) with (entry (is_adapter s) (a / 256)). by rewrite Hu.
Qed.

Lemma entry_is_wf s k : ip_state_ok s -> prefix_wf (entry (is_adapter s) k).
Proof. intros [Hm _ _ _]. exact (entry_wf r sd anywhere _ _ k Hm). Qed.

(** What a step of the feeder or of a report achieves. *)
Definition stepped (s : ip_state) (x : ip_state * ip_visit) : Prop :=
  ip_state_ok x.1 /\ visit_ok x.2 /\ is_handed s `suffix_of` is_handed x.1.

Lemma pick_entry_ok s k last : ip_state_ok s -> is_prefix k -> stepped s (pick_entry s k last).
Proof.
  intros Hs Hk. unfold pick_entry. pose proof (put_entry_ok s k Hs) as Hp. pose proof (entry_is_wf s k Hs) as Hw.
  destruct (remaining (entry (is_adapter s) k) =? 0); [by split_and!|].
  pose proof (fetch_unscanned_wf _ (is_rng s) Hw) as Hf.
  destruct (fetch_unscanned (entry (is_adapter s) k) (is_rng s)) as [[o|] rng]; cbn [fst] in Hf.
  - apply elem_of_unscanned in Hf as [Ho Hu]. destruct (join_split k o Hk Ho) as (Hj & Hdiv & Hmod).
    set (s1 := set_adapter s (put_state (is_adapter s) k (entry (is_adapter s) k))) in *.
    assert (He : entry (is_adapter s1) k = entry (is_adapter s) k) by (cbn; by rewrite entry_put, decide_True).
    pose proof (mark_ok s1 (join k o) (is_index s) rng Hp Hj) as Hm. rewrite Hdiv, Hmod, He in Hm.
    destruct (mark_scanned (entry (is_adapter s) k) o) as [b st]. cbn [snd] in Hm. split_and!.
    + apply Hm; [done|]. apply cursor_weaken, Hs.
    + cbn. by case_match.
    + by apply suffix_cons_r.
  - split_and!; [|done..]. destruct Hp as [? ? ? ?]. by constructor.
Qed.

Lemma next_entry_ok s : ip_state_ok s -> exists x, next_entry s = Ret x /\ stepped s x.
Proof.
  intros Hs. unfold next_entry. pose proof Hs as [Hm Hk Hc Hd].
  pose proof (inv_ranges _ _ _ _ _ Hm) as Hr. pose proof (inv_seed _ _ _ _ _ Hm) as Hsd. cbn in Hr, Hsd. rewrite Hr, Hsd.
  destruct (Z.leb_spec (total (compile r)) (is_index s)) as [Hge|Hlt]; [by eexists; split; [reflexivity|split_and!]|].
  destruct (place r Hord sd (is_index s)) as (x & Hx & Hcov); [destruct Hc; lia|]. rewrite Hx. cbn [mbind outcome_bind].
  pose proof (ordered_from_bound 0 _ _ Hord Hcov) as Hxb. assert (Hx32 : in_u32 x) by apply Hxb.
  rewrite (shiftr_div x 8), land_255 by lia. change (2 ^ 8) with 256. pose proof (split_u32 x Hx32) as [Hpre Hoff].
  pose proof (mark_scanned_wf _ _ (entry_is_wf s (x / 256) Hs) Hoff) as (Hb & _ & _).
  pose proof (mark_ok s x) as Hmark.
  destruct (mark_scanned (entry (is_adapter s) (x / 256)) (x mod 256)) as [[] st] eqn:Em; cbn [fst snd] in *.
  - assert (Hin : x ∈ is_handed s).
    { rewrite <- (inv_scanned _ _ _ _ _ Hm) by done. rewrite scanned_entry. symmetry. exact Hb. }
    destruct (cursor_step r Hord sd _ _ x Hc Hlt Hin Hx) as [-> Hc'].
    assert (st = entry (is_adapter s) (x / 256)) as ->.
    { unfold mark_scanned in Em. destruct (negb _) in Em; [|done]. by simplify_eq. }
    eexists. split; [reflexivity|]. split_and!; [|done..].
    destruct (put_entry_ok s (x / 256) Hs) as [? ? _ ?]. by constructor.
  - destruct (cursor_step r Hord sd (x :: is_handed s) _ x (cursor_weaken _ _ _ _ _ Hc) Hlt) as [-> Hc'];
      [apply elem_of_cons; by left|done|].
    eexists. split; [reflexivity|]. split_and!.
    + apply Hmark; [done..| |done]. by destruct (is_unscanned _ _).
    + cbn. case_match; [|done]. by split.
    + by apply suffix_cons_r.
Qed.

(** ** Lemmas: steps *)

Lemma ip_access_ok s v :
  ip_state_ok s -> visit_ok v -> exists x, ip_access s v = Ret x /\ stepped s x.
Proof.
  intros Hs Hv. unfold stepped. destruct v as [p last|k last|p found last| |p addr|p addr|addr|p k|p|a]; cbn [ip_access visit_ok] in *.
  1,3,5,6,8,9: destruct (heap_access_ok s p Hs ltac:(tauto)) as (Hs' & Hp' & Hh & _);
    destruct (heap_access s p) as [s' p']; cbn [fst snd] in *; eexists; (split; [reflexivity|]); cbn [fst snd];
    rewrite Hh; (split; [done|]); (split; [|done]).
  - destruct p' as [| | | | | | | | | | |a]; try done. by destruct a as [[k|]|v|], last.
  - by destruct p', found.
  - destruct Hv as [_ Ha]. destruct p' as [| | | | | | | | | | |a]; try done. destruct a as [k|[v|]|]; try done.
    split; [by apply prefix_of_addr|done].
  - destruct Hv as [_ Ha]. by destruct p'.
  - destruct Hv as (_ & Hk & _). by destruct p'.
  - by destruct p'.
  - eexists. split; [reflexivity|]. by apply pick_entry_ok.
  - by apply next_entry_ok.
  - eexists. split; [reflexivity|]. cbn. split_and!; [done| |done].
    destruct (match actives _ !! _ with Some _ => _ | None => _ end); [|done].
    split_and!; [done|by apply prefix_of_addr|done].
  - eexists. split; [reflexivity|]. by split_and!.
Qed.

(** A report goes on to its end, without waiting. *)
Lemma report_step s v x :
  ip_state_ok s -> visit_ok v -> is_report v = true -> ip_access s v = Ret x ->
  is_report x.2 = true /\ (report_left x.2 <= pred (report_left v))%nat.
Proof.
  intros Hs Hv Hr. destruct v as [| | | | | |addr|p k|p|a]; try done; cbn [ip_access visit_ok report_left] in *.
  - intros [= <-]. cbn. destruct (match actives _ !! _ with Some _ => _ | None => _ end); cbn; split; done || lia.
  - destruct Hv as (Hp & _ & Hn). destruct (heap_access_ok s p Hs Hp) as (_ & _ & _ & Hl). specialize (Hl Hn).
    destruct (heap_access s p) as [s' p']. cbn [snd] in Hl. intros [= <-].
    destruct p'; cbn [snd is_report report_left]; (split; [done|]); cbn [steps_left enter] in *; lia.
  - destruct Hv as [Hp Hn]. destruct (heap_access_ok s p Hs Hp) as (_ & _ & _ & Hl). specialize (Hl Hn).
    destruct (heap_access s p) as [s' p']. cbn [snd] in Hl. intros [= <-].
    destruct p'; cbn [snd is_report report_left]; (split; [done|]); cbn [steps_left] in *; lia.
  - by intros [= <-].
Qed.

Lemma next_begin_ok s : ip_state_ok s -> stepped s (next_begin s).
Proof.
  intros [? ? ? ?]. unfold next_begin. destruct (random_unit (is_rng s)) as [u rng].
  split_and!; [by constructor| |done]. cbn. by case_match.
Qed.

(** A move of any thread: it does not fault, and no address is given twice. *)
Lemma ip_moved_ok m w :
  ip_world_ok w -> move_ok m ->
  exists w', ip_moved m w = Ret w' /\ ip_world_ok w' /\ is_handed (iw_state w) `suffix_of` is_handed (iw_state w').
Proof.
  intros Hw Hm. pose proof Hw as [Hs Hf Hr]. destruct m as [| |i addr|i]; cbn [ip_moved].
  - pose proof (next_begin_ok _ Hs) as (H1' & H2' & H3'). destruct (next_begin (iw_state w)) as [s v].
    destruct (iw_feeder w); try (by exists w). eexists. split; [reflexivity|]. split; [by constructor|done].
  - destruct (ip_access_ok _ _ Hs Hf) as ([s v] & -> & H1' & H2' & H3'). eexists. split; [reflexivity|].
    split; [by constructor|done].
  - destruct (iw_reports w !! i) as [v|]; [|by exists w]. destruct v; try (by exists w).
    eexists. split; [reflexivity|]. split; [|done]. constructor; try done. by apply Forall_insert.
  - destruct (iw_reports w !! i) as [v|] eqn:Ev; [|by exists w].
    destruct (Forall_lookup_1 _ _ _ _ Hr Ev) as [Hv Hrv].
    destruct (ip_access_ok _ _ Hs Hv) as (x & E & H1' & H2' & H3'). destruct (report_step _ _ _ Hs Hv Hrv E) as [Hrep _].
    rewrite E. destruct x as [s v']. eexists. split; [reflexivity|]. split; [|done].
    constructor; try done. by apply Forall_insert.
Qed.

Lemma ip_moves_ok l : forall w,
  ip_world_ok w -> Forall move_ok l ->
  exists w', ip_moves l w = Ret w' /\ ip_world_ok w' /\ is_handed (iw_state w) `suffix_of` is_handed (iw_state w').
Proof.
  induction l as [|m l IH]; intros w Hw Hl; [by exists w|]. apply Forall_cons in Hl as [Hm Hl].
  destruct (ip_moved_ok m w Hw Hm) as (w1 & E & Hw1 & Hs1). cbn [ip_moves]. rewrite E. cbn [mbind outcome_bind].
  destruct (IH w1 Hw1 Hl) as (w2 & -> & Hw2 & Hs2). exists w2. split_and!; [done|done|]. by etrans.
Qed.

(** ** Calls that are not interrupted *)

Definition runs (s : ip_state) (v : ip_visit) (s' : ip_state) (v' : ip_visit) : Prop :=
  exists n, ip_visit_run n s v = Ret (s', v').

Lemma runs_refl s v : runs s v s v.
Proof. by exists 0%nat. Qed.
Lemma runs_step s v s1 v1 s' v' : ip_access s v = Ret (s1, v1) -> runs s1 v1 s' v' -> runs s v s' v'.
Proof. intros E [n Hn]. exists (S n). cbn [ip_visit_run]. by rewrite E. Qed.
Lemma runs_enter s k last s' v' :
  runs (pick_entry s k last).1 (pick_entry s k last).2 s' v' -> runs s (PickEntry k last) s' v'.
Proof. apply runs_step. cbn. by destruct (pick_entry s k last). Qed.
Lemma runs_trans s v s1 v1 s' v' : runs s v s1 v1 -> runs s1 v1 s' v' -> runs s v s' v'.
Proof.
  intros [n Hn]. revert s v Hn. induction n as [|n IH]; intros s v; [by intros [= -> ->]|]. cbn [ip_visit_run].
  destruct (ip_access s v) as [[s2 v2]|] eqn:E; [|done]. intros Hn Hr. eapply runs_step; [exact E|]. by apply IH.
Qed.

Abbreviation with_h s h := (set_adapter s (with_heap (is_adapter s) h)).

Ltac run_on := eapply runs_step; [reflexivity|cbn].

Lemma top_runs s last :
  runs s (PickTop (enter OpTop) last) (with_h s (top (heap (is_adapter s))).2)
    (match (top (heap (is_adapter s))).1 with
     | Some k => PickEntry k last | None => if last then IpReturned None else NextEntry end).
Proof. run_on. run_on. apply runs_refl. Qed.

Lemma pop_runs s found last :
  runs s (PickPop (enter OpPop) found last) (set_adapter s (heap_pop (is_adapter s)))
    (match found with Some a => IpReturned (Some a) | None => PickTop (enter OpTop) last end).
Proof.
  run_on. unfold heap_pop, pop. destruct (current (_top (heap (is_adapter s)))) as [|[v k] cur] eqn:E; cbn.
  - assert (Hh : mkHeap (values (_top (heap (is_adapter s)))) [] (stale (_top (heap (is_adapter s))))
      = _top (heap (is_adapter s))) by (rewrite <- E; by destruct (_top _)).
    rewrite Hh. eapply runs_step; [cbn; unfold heap_access; cbn; rewrite E; reflexivity|]. destruct found; apply runs_refl.
  - eapply runs_step; [cbn; unfold heap_access; cbn; rewrite E; reflexivity|]. run_on. destruct found; apply runs_refl.
Qed.

(** The steps of [update], whoever makes them. *)
Lemma update_runs s (at_ : heap_call -> ip_visit) (end_ : ip_visit) k v :
  (forall s p, ip_access s (at_ p) = Ret (let '(s, p) := heap_access s p in
     (s, match p with Returned _ => end_ | p => at_ p end))) ->
  runs s (at_ (enter (OpUpdate k v))) (with_h s (update (heap (is_adapter s)) k v)) end_.
Proof.
  intros Hat. unfold update. destruct (values (heap (is_adapter s)) !! k) as [old|] eqn:E.
  - eapply runs_step; [rewrite Hat; unfold heap_access; cbn; rewrite E; reflexivity|].
    do 2 (eapply runs_step; [rewrite Hat; reflexivity|]). eapply runs_step; [rewrite Hat; reflexivity|]. apply runs_refl.
  - eapply runs_step; [rewrite Hat; unfold heap_access; cbn; rewrite E; reflexivity|].
    eapply runs_step; [rewrite Hat; reflexivity|]. eapply runs_step; [rewrite Hat; reflexivity|]. apply runs_refl.
Qed.

(** [on_result] in one go. *)
Lemma report_runs s addr : runs s (ReportGet addr) (set_adapter s (on_result (is_adapter s) addr)) (IpReturned None).
Proof.
  eapply runs_step; [reflexivity|]. unfold on_result.
  destruct (match actives _ !! _ with Some _ => _ | None => _ end); [|destruct s; apply runs_refl].
  eapply runs_step; [reflexivity|]. cbn. unfold query.
  eapply runs_trans; [apply update_runs; intros s' p; cbn; by destruct (heap_access s' p)|]. cbn.
  destruct (values (heap (is_adapter s)) !! Z.shiftr addr 8); apply runs_refl.
Qed.

(** [try_pick], [next] and [next_address] in one go. *)
Lemma try_pick_runs fuel : forall s last a self' (rng' : R),
  try_pick_loop fuel (is_adapter s) (is_rng s) = Ret (a, self', rng') ->
  runs s (PickTop (enter OpTop) last) (mkIpState self' (is_index s) rng' (option_list a ++ is_handed s))
    (match a with Some _ => IpReturned a | None => if last then IpReturned None else NextEntry end).
Proof.
  induction fuel as [|fuel IH]; intros s last a self' rng'; cbn [try_pick_loop]; [done|]. intros E.
  eapply runs_trans; [apply top_runs|]. destruct (top (heap (is_adapter s))) as [[k|] h]; cbn [fst snd];
    [|injection E as <- <- <-; apply runs_refl].
  set (s1 := with_h s h) in *. apply runs_enter. unfold pick_entry.
  change (is_adapter s1) with (with_heap (is_adapter s) h). change (is_rng s1) with (is_rng s).
  set (st := entry (with_heap (is_adapter s) h) k) in *. set (self1 := put_state (with_heap (is_adapter s) h) k st) in *.
  assert (Hloop : forall rng, try_pick_loop fuel (heap_pop self1) rng = Ret (a, self', rng') ->
    runs (mkIpState self1 (is_index s) rng (is_handed s)) (PickPop (enter OpPop) None last)
      (mkIpState self' (is_index s) rng' (option_list a ++ is_handed s))
      (match a with Some _ => IpReturned a | None => if last then IpReturned None else NextEntry end)).
  { intros rng Er. eapply runs_trans; [apply pop_runs|]. cbn. apply (IH (mkIpState (heap_pop self1) (is_index s) rng (is_handed s)) last a self' rng' Er). }
  destruct (remaining st =? 0); [by apply Hloop|].
  destruct (fetch_unscanned st (is_rng s)) as [[o|] rng]; [|by apply Hloop].
  destruct (mark_scanned st o) as [b st']. injection E as <- <- <-.
  destruct (remaining st' =? 0); [|apply runs_refl]. eapply runs_trans; [apply pop_runs|]. apply runs_refl.
Qed.

Lemma next_runs fuel : forall s a self' index',
  next_loop fuel (is_adapter s) (is_index s) = Ret (a, self', index') ->
  runs s NextEntry (mkIpState self' index' (is_rng s) (option_list a ++ is_handed s))
    (match a with Some _ => IpReturned a | None => PickTop (enter OpTop) true end).
Proof.
  induction fuel as [|fuel IH]; intros s a self' index'; cbn [next_loop]; [done|]. intros E.
  destruct (total (ranges (is_adapter s)) <=? is_index s) eqn:El.
  { injection E as <- <- <-. eapply runs_step; [cbn; unfold next_entry; rewrite El; reflexivity|].
    destruct s. apply runs_refl. }
  destruct (Ranges.index _ _) as [x|] eqn:Ex; [|done]. cbn [mbind outcome_bind] in E.
  destruct (mark_scanned (entry (is_adapter s) (Z.shiftr x 8)) (Z.land x 255)) as [[] st] eqn:Em.
  { eapply runs_step; [cbn; unfold next_entry; rewrite El, Ex; cbn; rewrite Em; reflexivity|].
    apply (IH (mkIpState _ _ _ _) a self' index' E). }
  eapply runs_step; [cbn; unfold next_entry; rewrite El, Ex; cbn; rewrite Em; reflexivity|].
  destruct (0 <? remaining st); cbn [andb] in E; [|injection E as <- <- <-; apply runs_refl].
  run_on. unfold query in E. cbn in E. destruct (values (heap (is_adapter s)) !! Z.shiftr x 8) as [v|].
  - rewrite bool_decide_false in E by done. injection E as <- <- <-. destruct s as [[] ? ? ?]. apply runs_refl.
  - rewrite bool_decide_true in E by done. injection E as <- <- <-.
    eapply runs_trans; [apply (update_runs _ (fun p => NextUpdate p x)); intros s' p; cbn; by destruct (heap_access s' p)|].
    apply runs_refl.
Qed.

Lemma next_address_runs s a self' index' rng' :
  next_address (is_adapter s) (is_index s) (is_rng s) = Ret (a, self', index', rng') ->
  runs (next_begin s).1 (next_begin s).2 (mkIpState self' index' rng' (option_list a ++ is_handed s)) (IpReturned a).
Proof.
  unfold next_address, next_begin. destruct (random_unit (is_rng s)) as [u rng]. cbn [fst snd].
  assert (Hnext : forall self index rng0, next_or_pick self index rng0 = Ret (a, self', index', rng') ->
    runs (mkIpState self index rng0 (is_handed s)) NextEntry
      (mkIpState self' index' rng' (option_list a ++ is_handed s)) (IpReturned a)).
  { intros self index rng0 E. unfold next_or_pick in E. destruct (next self index) as [[[[x|] self1] index1]|] eqn:En; [| |done];
      cbn [mbind outcome_bind] in E.
    - injection E as <- <- <- <-. apply (next_runs _ (mkIpState self index rng0 (is_handed s)) (Some x) _ _ En).
    - eapply runs_trans; [apply (next_runs _ (mkIpState self index rng0 (is_handed s)) None _ _ En)|]. cbn.
      destruct (try_pick self1 rng0) as [[[x self2] rng1]|] eqn:Ep; [|done]. injection E as <- <- <- <-.
      pose proof (try_pick_runs _ (mkIpState self1 index1 rng0 (is_handed s)) true _ _ _ Ep) as Hr. by destruct x. }
  destruct (f64_ge u (epsilon (is_adapter s))); [|apply Hnext].
  destruct (try_pick (is_adapter s) rng) as [[[x self1] rng1]|] eqn:Ep; [|done]. cbn [mbind outcome_bind].
  pose proof (try_pick_runs _ (mkIpState (is_adapter s) (is_index s) rng (is_handed s)) false _ _ _ Ep) as Hr.
  destruct x as [x|]; [by intros [= <- <- <- <-]|]. intros E. eapply runs_trans; [exact Hr|]. by apply Hnext.
Qed.

End addresses.
