(* ===== verification/Minecraft.v ===== *)
(** * Server-list ping: [controller/protocol/minecraft.rs] and
    [controller/protocol/mod.rs]

    VarInts, the status request and the parser of the status response. *)

From S2P Require Import Prelude.

Inductive ParseError : Set := Invalid | Incomplete.

Global Instance ParseError_eq_dec : EqDecision ParseError.
Proof. solve_decision. Defined.

(** [trait Parser]. *)
Class Parser (Output : Type) : Type := { parse : list Z -> result ParseError Output }.

(** [impl<T: Deref<Target = [u8]>> Payload for T]: the bytes themselves,
    whatever the address. *)
Definition payload_build (self : list Z) (_ip : Ipv4Addr) (_port : Z) : result unit (list Z) :=
  Ok self.

(** ** VarInts

    [i32] values are [Z]s between [- 2^31] and [2^31 - 1]. *)

(** One turn of the [while] loop per byte. *)
Fixpoint write_varint_loop (fuel : nat) (writer : list Z) (value : Z) : outcome (list Z) :=
  if value =? 0 then Ret writer
  else
    match fuel with
    | O => Fault OutOfFuel
    | S fuel =>
        let buffer := u8_of (Z.land value 127) in
        let value := Z.land (Z.shiftr value 7) (Z.shiftr (2 ^ 31 - 1) 6) in
        let buffer := if value =? 0 then buffer else Z.lor buffer 128 in
        write_varint_loop fuel (writer ++ [buffer]) value
    end.

(** Five bytes hold 35 bits, so five turns are enough for an [i32]. *)
Definition write_varint (writer : list Z) (value : Z) : outcome (list Z) :=
  let writer := if value =? 0 then writer ++ [0] else writer in
  write_varint_loop 5 writer value.

(** [for i in 0..5], with [i] counted up and [n] the turns left.  The reader
    is the bytes it has not read yet. *)
Fixpoint read_varint_loop (n : nat) (i ans : Z) (reader : list Z)
    : result ParseError (Z * list Z) :=
  match n with
  | O => Ok (ans, reader)
  | S n =>
      match reader with
      | [] => Err Incomplete
      | buffer :: reader =>
          let ans := Z.lor ans (i32_of (Z.shiftl (Z.land buffer 127) (7 * i))) in
          if Z.land buffer 128 =? 0 then Ok (ans, reader)
          else read_varint_loop n (i + 1) ans reader
      end
  end.

Definition read_varint (reader : list Z) : result ParseError (Z * list Z) :=
  read_varint_loop 5 0 0 reader.

(** ** The request *)

Definition build_latest_request (hostname : list Z) (port protocol_version : Z)
    : outcome (list Z) :=
  buffer ← write_varint [0] protocol_version;
  buffer ← write_varint buffer (i32_of (zlen hostname));
  let buffer := buffer ++ hostname in
  let buffer := buffer ++ [u8_of (Z.shiftr port 8); u8_of (Z.land port 255); 1] in
  full_buffer ← write_varint [] (i32_of (zlen buffer));
  Ret ((full_buffer ++ buffer) ++ [1; 0]).

(** ** [String::from_utf8_lossy] *)

Definition is_cont (b : Z) : bool := (128 <=? b) && (b <=? 191).

(** The bytes that may follow the first byte of a sequence of three, of four. *)
Definition second_of_3 (b0 b1 : Z) : bool :=
  if b0 =? 224 then (160 <=? b1) && (b1 <=? 191)
  else if b0 =? 237 then (128 <=? b1) && (b1 <=? 159)
  else is_cont b1.
Definition second_of_4 (b0 b1 : Z) : bool :=
  if b0 =? 240 then (144 <=? b1) && (b1 <=? 191)
  else if b0 =? 244 then (128 <=? b1) && (b1 <=? 143)
  else is_cont b1.

(** The next sequence of [b0 :: l]: whether it is well formed, and its length
    (of an ill-formed one, the length of its longest acceptable part). *)
Definition utf8_seq (b0 : Z) (l : list Z) : bool * nat :=
  let b i := nth i l 0 in
  if b0 <? 128 then (true, 1%nat)
  else if (194 <=? b0) && (b0 <=? 223) then
    if is_cont (b 0%nat) then (true, 2%nat) else (false, 1%nat)
  else if (224 <=? b0) && (b0 <=? 239) then
    if second_of_3 b0 (b 0%nat) then
      if is_cont (b 1%nat) then (true, 3%nat) else (false, 2%nat)
    else (false, 1%nat)
  else if (240 <=? b0) && (b0 <=? 244) then
    if second_of_4 b0 (b 0%nat) then
      if is_cont (b 1%nat) then
        if is_cont (b 2%nat) then (true, 4%nat) else (false, 3%nat)
      else (false, 2%nat)
    else (false, 1%nat)
  else (false, 1%nat).

Fixpoint lossy_loop (fuel : nat) (l : list Z) : list Z :=
  match fuel, l with
  | S fuel, b0 :: l' =>
      let '(ok, n) := utf8_seq b0 l' in
      (if ok then take n l else [239; 191; 189]) ++ lossy_loop fuel (drop n l)
  | _, _ => []
  end.

(** Every turn takes a byte or more. *)
Definition from_utf8_lossy (l : list Z) : list Z := lossy_loop (length l) l.

(** [std::str::from_utf8(..).is_ok()], for the specification. *)
Fixpoint utf8_valid_loop (fuel : nat) (l : list Z) : bool :=
  match fuel, l with
  | S fuel, b0 :: l' =>
      let '(ok, n) := utf8_seq b0 l' in ok && utf8_valid_loop fuel (drop n l)
  | _, _ => true
  end.
Definition utf8_valid (l : list Z) : bool := utf8_valid_loop (length l) l.

(** ** The response *)

(** [serde_json::from_slice::<Value>(..).is_ok()], from outside the
    repository. *)
Class SerdeJson : Type := { json_ok : list Z -> bool }.

Definition slp_parse `{SerdeJson} (data : list Z) : result ParseError (list Z) :=
  '(_, stream) ← read_varint data;
  '(packet_id, stream) ← read_varint stream;
  '(response_length, stream) ← read_varint stream;
  if negb (packet_id =? 0) || (response_length <=? 0) then Err Invalid
  else if zlen stream <? response_length then Err Incomplete
  else
    let status_buffer := take (Z.to_nat response_length) stream in
    if json_ok status_buffer then Ok (from_utf8_lossy status_buffer) else Err Invalid.

Global Instance SLPParser `{SerdeJson} : Parser (list Z) := {| parse := slp_parse |}.

(** ** Specification *)

Definition in_i32 (v : Z) : Prop := - 2 ^ 31 <= v < 2 ^ 31.

(** The little-endian base-128 digits of [u], the high bit set on all but the
    last. *)
Fixpoint leb128 (fuel : nat) (u : Z) : list Z :=
  match fuel with
  | O => []
  | S fuel => if u <? 128 then [u] else (u mod 128 + 128) :: leb128 fuel (u / 128)
  end.

(** The encoding of an [i32]: the digits of its unsigned value. *)
Definition varint (v : Z) : list Z := leb128 5 (u32_of v).

(** A status response as a server sends it. *)
Definition status_frame (packet_len : Z) (body : list Z) : list Z :=
  varint packet_len ++ varint 0 ++ varint (zlen body) ++ body.

(** What a server reads from a handshake and the request that follows it. *)
Definition decode_request (data : list Z) : result ParseError (Z * list Z * Z * Z * list Z) :=
  '(n, rest) ← read_varint data;
  let packet := take (Z.to_nat n) rest in
  '(packet_id, packet) ← read_varint packet;
  '(version, packet) ← read_varint packet;
  '(len, packet) ← read_varint packet;
  let host := take (Z.to_nat len) packet in
  match packet_id, drop (Z.to_nat len) packet with
  | 0, [hi; lo; state] => Ok (version, host, be16 hi lo, state, drop (Z.to_nat n) rest)
  | _, _ => Err Invalid
  end.

(** ** Lemmas *)

Lemma land_127 z : Z.land z 127 = z mod 128.
Proof. change 127 with (Z.ones 7). by rewrite Z.land_ones. Qed.

(** The high bit of a byte. *)
Lemma land_128 b : 0 <= b < 256 -> (Z.land b 128 =? 0) = (b <? 128).
Proof.
  intros Hb. assert (Hall : forallb (fun b => Bool.eqb (Z.land b 128 =? 0) (b <? 128)) (seqZ 0 256) = true)
    by (vm_compute; reflexivity).
  rewrite forallb_forall in Hall. apply eqb_prop, Hall, list_elem_of_In, elem_of_seqZ. lia.
Qed.

(** The turn of the writing loop, on the unsigned value. *)
Lemma write_step v :
  in_i32 v ->
  u8_of (Z.land v 127) = u32_of v mod 128
  /\ Z.land (Z.shiftr v 7) (Z.shiftr (2 ^ 31 - 1) 6) = u32_of v / 128.
Proof.
  unfold in_i32, u8_of, u32_of, wrap. intros Hv. rewrite land_127.
  change (Z.shiftr (2 ^ 31 - 1) 6) with (Z.ones 25). rewrite Z.land_ones, shiftr_div by lia.
  change (2 ^ 7) with 128. change (2 ^ 8) with 256. split.
  - rewrite (Z.mod_small (v mod 128)) by (pose proof (Z.mod_pos_bound v 128); lia).
    change (2 ^ 32) with (128 * 2 ^ 25). rewrite Z.rem_mul_r by lia.
    rewrite (Z.mul_comm 128), Z.mod_add, Z.mod_mod by lia. done.
  - change (2 ^ 32) with (128 * 2 ^ 25). rewrite Z.rem_mul_r by lia.
    rewrite (Z.mul_comm 128), Z.div_add by lia.
    rewrite (Z.div_small (v mod 128)); [lia|]. apply Z.mod_pos_bound. lia.
Qed.

Lemma lor_128 b : 0 <= b < 128 -> Z.lor b 128 = b + 128.
Proof. intros Hb. apply (lor_disjoint b 1 7); lia. Qed.

Lemma write_varint_loop_ok fuel : forall w v,
  in_i32 v -> v <> 0 -> u32_of v < 2 ^ (7 * Z.of_nat fuel) ->
  write_varint_loop fuel w v = Ret (w ++ leb128 fuel (u32_of v)).
Proof.
  induction fuel as [|fuel IH]; intros w v Hv Hne Hb; cbn [write_varint_loop].
  { exfalso. pose proof (wrap_width 32 v ltac:(lia)) as Hw. change (wrap 32) with u32_of in Hw.
    unfold in_width in Hw. assert (He : u32_of v = 0) by (simpl in Hb; lia).
    unfold u32_of, wrap in He. apply Z.mod_divide in He as [q Hq]; [|lia]. unfold in_i32 in Hv. lia. }
  rewrite (proj2 (Z.eqb_neq v 0) Hne). destruct (write_step v Hv) as [-> ->].
  pose proof (wrap_width 32 v ltac:(lia)) as Hw. change (wrap 32) with u32_of in Hw.
  unfold in_width in Hw. cbn [leb128]. set (u := u32_of v) in *.
  pose proof (Z.mod_pos_bound u 128). pose proof (Z.div_mod u 128).
  destruct (Z.ltb_spec u 128).
  - rewrite (Z.div_small u), (Z.mod_small u) by lia. by destruct fuel.
  - assert (Hq : 1 <= u / 128 < 2 ^ 25).
    { split; [apply Z.div_le_lower_bound|apply Z.div_lt_upper_bound]; lia. }
    assert (Hu : u32_of (u / 128) = u / 128) by (apply wrap_small; unfold in_width; lia).
    rewrite (proj2 (Z.eqb_neq (u / 128) 0)), lor_128 by lia.
    rewrite IH, Hu, <- app_assoc; [done|unfold in_i32; lia|lia|]. rewrite Hu.
    apply Z.div_lt_upper_bound; [lia|]. change 128 with (2 ^ 7).
    rewrite <- Z.pow_add_r by lia. eapply Z.lt_le_trans; [exact Hb|]. apply Z.pow_le_mono_r; lia.
Qed.

Lemma write_varint_ok w v : in_i32 v -> write_varint w v = Ret (w ++ varint v).
Proof.
  intros Hv. unfold write_varint, varint. destruct (Z.eqb_spec v 0) as [Hz|Hz].
  - subst. done.
  - apply write_varint_loop_ok; [done..|]. pose proof (wrap_width 32 v ltac:(lia)) as Hw.
    unfold u32_of. unfold in_width in Hw. simpl. lia.
Qed.

Lemma i32_of_spec z :
  0 <= z < 2 ^ 32 -> i32_of z = if z <? 2 ^ 31 then z else z - 2 ^ 32.
Proof.
  intros Hz. unfold i32_of, swrap, wrap. change (32 - 1) with 31. case_cmp_step.
  - rewrite Z.mod_small; lia.
  - replace (z + 2 ^ 31) with (z - 2 ^ 31 + 1 * 2 ^ 32) by lia.
    rewrite Z.mod_add, Z.mod_small; lia.
Qed.

Lemma i32_of_u32 v : in_i32 v -> i32_of (u32_of v) = v.
Proof.
  unfold in_i32. intros Hv. pose proof (wrap_width 32 v ltac:(lia)) as Hw. unfold in_width in Hw.
  unfold u32_of. rewrite i32_of_spec by done. unfold wrap in *.
  destruct (Z.leb_spec 0 v).
  - rewrite Z.mod_small by lia. case_cmp.
  - replace (v mod 2 ^ 32) with (v + 2 ^ 32).
    + case_cmp.
    + replace v with (v + 2 ^ 32 + (-1) * 2 ^ 32) at 2 by lia.
      rewrite Z.mod_add, Z.mod_small; lia.
Qed.

(** A digit joined to the digits below it. *)
Lemma join_digit i ans d :
  0 <= i <= 4 -> 0 <= ans < 2 ^ (7 * i) -> 0 <= d < 128 -> d * 2 ^ (7 * i) + ans < 2 ^ 32 ->
  Z.lor ans (i32_of (Z.shiftl d (7 * i))) = i32_of (ans + d * 2 ^ (7 * i)).
Proof.
  intros Hi Ha Hd Hb. rewrite Z.shiftl_mul_pow2 by lia.
  assert (Hi' : i = 0 \/ i = 1 \/ i = 2 \/ i = 3 \/ i = 4) by lia.
  assert (Hs : exists b, i32_of (d * 2 ^ (7 * i)) = b * 2 ^ (7 * i)
    /\ i32_of (ans + d * 2 ^ (7 * i)) = ans + b * 2 ^ (7 * i)).
  { rewrite !i32_of_spec by (clear Hi'; split; [|lia]; nia).
    exists (if d * 2 ^ (7 * i) <? 2 ^ 31 then d else d - 2 ^ (32 - 7 * i)).
    destruct Hi' as [->|[->|[->|[->| ->]]]]; simpl Z.pow in *; case_cmp; lia. }
  destruct Hs as (b & -> & ->). by apply lor_disjoint; [lia|].
Qed.

Lemma read_step n i ans b rest :
  read_varint_loop (S n) i ans (b :: rest)
  = let ans := Z.lor ans (i32_of (Z.shiftl (Z.land b 127) (7 * i))) in
    if Z.land b 128 =? 0 then Ok (ans, rest) else read_varint_loop n (i + 1) ans rest.
Proof. done. Qed.

Lemma leb128_step n u :
  leb128 (S n) u = if u <? 128 then [u] else (u mod 128 + 128) :: leb128 n (u / 128).
Proof. done. Qed.

Lemma read_leb128 n : forall i ans u rest,
  i + Z.of_nat n = 4 -> 0 <= i -> 0 <= ans < 2 ^ (7 * i) -> 0 <= u ->
  u * 2 ^ (7 * i) + ans < 2 ^ 32 ->
  read_varint_loop (S n) i ans (leb128 (S n) u ++ rest)
  = Ok (i32_of (ans + u * 2 ^ (7 * i)), rest).
Proof.
  induction n as [|n IH]; intros i ans u rest Hin Hi Ha Hu Hb;
    rewrite leb128_step; destruct (Z.ltb_spec u 128) as [Hlt|Hge];
    rewrite <- ?app_comm_cons, read_step; cbv zeta.
  1, 3: rewrite land_128, land_127, (Z.mod_small u), (proj2 (Z.ltb_lt u 128)), join_digit by lia; done.
  { exfalso. assert (i = 4) as -> by lia. simpl Z.pow in *. lia. }
  pose proof (Z.mod_pos_bound u 128). pose proof (Z.div_mod u 128).
  assert (Hp : 2 ^ (7 * (i + 1)) = 128 * 2 ^ (7 * i)).
  { replace (7 * (i + 1)) with (7 + 7 * i) by lia. by rewrite Z.pow_add_r by lia. }
  assert (0 < 2 ^ (7 * i)) by (apply Z.pow_pos_nonneg; lia).
  assert (Hdig : ans + u mod 128 * 2 ^ (7 * i) < 2 ^ (7 * (i + 1))) by (rewrite Hp; nia).
  assert (2 ^ (7 * (i + 1)) <= 2 ^ 28) by (apply Z.pow_le_mono_r; lia).
  rewrite land_128, land_127, (proj2 (Z.ltb_ge (u mod 128 + 128) 128)) by lia.
  replace ((u mod 128 + 128) mod 128) with (u mod 128)
    by (change (u mod 128 + 128) with (u mod 128 + 1 * 128); rewrite Z.mod_add, Z.mod_mod; lia).
  rewrite join_digit, i32_of_spec, (proj2 (Z.ltb_lt _ (2 ^ 31))) by nia.
  pose proof (Z.div_pos u 128). rewrite IH by (rewrite ?Hp; nia). do 2 f_equal.
  f_equal. rewrite Hp. nia.
Qed.

Lemma read_varint_ok v rest : in_i32 v -> read_varint (varint v ++ rest) = Ok (v, rest).
Proof.
  intros Hv. pose proof (wrap_width 32 v ltac:(lia)) as Hw. unfold in_width in Hw.
  unfold read_varint, varint. change (wrap 32 v) with (u32_of v) in Hw.
  rewrite read_leb128; [|lia..]. 
  change (7 * 0) with 0. by rewrite Z.pow_0_r, Z.mul_1_r, Z.add_0_l, i32_of_u32.
Qed.

(** A strict prefix of an encoding is incomplete. *)
Lemma read_leb128_prefix n : forall i ans u p q,
  leb128 n u = p ++ q -> q <> [] -> 0 <= u -> read_varint_loop n i ans p = Err Incomplete.
Proof.
  induction n as [|n IH]; intros i ans u p q Hpq Hq Hu.
  { by destruct p, q. }
  rewrite leb128_step in Hpq. destruct p as [|b p]; [done|]. rewrite read_step. cbv zeta.
  destruct (Z.ltb_spec u 128).
  { exfalso. apply (f_equal length) in Hpq. simpl in Hpq. rewrite length_app in Hpq.
    destruct q; [done|]. simpl in Hpq. lia. }
  simplify_eq/=. pose proof (Z.mod_pos_bound u 128).
  rewrite land_128, (proj2 (Z.ltb_ge _ 128)) by lia. eapply IH; [done..|]. apply Z.div_pos; lia.
Qed.

Lemma read_varint_prefix v p q : varint v = p ++ q -> q <> [] -> read_varint p = Err Incomplete.
Proof. intros Hpq Hq. eapply read_leb128_prefix; [exact Hpq|done|]. apply wrap_width. lia. Qed.

Lemma leb128_length n : forall u, (1 <= length (leb128 (S n) u) <= S n)%nat.
Proof.
  induction n as [|n IH]; intros u; rewrite leb128_step; case_match; [simpl; lia..|].
  specialize (IH (u / 128)). cbn [length]. lia.
Qed.

Lemma varint_length v : (1 <= length (varint v) <= 5)%nat.
Proof. apply leb128_length. Qed.

(** A prefix of [a ++ x] that lacks something ends inside [a] or after it. *)
Lemma prefix_split (a x p q : list Z) :
  a ++ x = p ++ q ->
  (exists k, a = p ++ k /\ k <> []) \/ (exists k, p = a ++ k /\ x = k ++ q).
Proof.
  intros [[|z k] [[-> ->]|[-> ->]]]%app_eq_app.
  - right. exists []. by rewrite !app_nil_r.
  - right. exists []. done.
  - left. by exists (z :: k).
  - right. by exists (z :: k).
Qed.

Lemma utf8_seq_bound b l : (1 <= (utf8_seq b l).2 <= 4)%nat.
Proof. unfold utf8_seq. repeat case_match; simpl; lia. Qed.

(** Well-formed text is copied unchanged. *)
Lemma lossy_loop_id fuel : forall l,
  (length l <= fuel)%nat -> utf8_valid_loop fuel l = true -> lossy_loop fuel l = l.
Proof.
  induction fuel as [|fuel IH]; intros [|b l] Hl Hv; cbn [lossy_loop utf8_valid_loop] in *;
    try done; [simpl in Hl; lia|].
  pose proof (utf8_seq_bound b l). destruct (utf8_seq b l) as [ok n].
  apply andb_true_iff in Hv as [-> Hv]. rewrite IH; [apply take_drop| |done].
  cbn [snd] in *. rewrite length_drop. simpl in *. lia.
Qed.

Lemma from_utf8_lossy_id l : utf8_valid l = true -> from_utf8_lossy l = l.
Proof. by apply lossy_loop_id. Qed.

Section response.
Context `{SerdeJson}.

Lemma slp_parse_frame plen body rest :
  in_i32 plen -> 0 < zlen body < 2 ^ 31 ->
  slp_parse (status_frame plen body ++ rest)
  = if json_ok body then Ok (from_utf8_lossy body) else Err Invalid.
Proof.
  intros Hp Hb. unfold slp_parse, status_frame. rewrite <- !app_assoc.
  rewrite read_varint_ok by done. cbn [mbind result_bind].
  rewrite read_varint_ok by done. cbn [mbind result_bind].
  rewrite read_varint_ok by (unfold in_i32; lia). cbn [mbind result_bind].
  rewrite (proj2 (Z.leb_gt (zlen body) 0)), (proj2 (Z.ltb_ge _ (zlen body))) by
    (rewrite ?length_app; lia).
  by rewrite Nat2Z.id, take_app_length.
Qed.

Lemma slp_parse_prefix plen body p q :
  in_i32 plen -> 0 < zlen body < 2 ^ 31 -> status_frame plen body = p ++ q -> q <> [] ->
  slp_parse p = Err Incomplete.
Proof.
  intros Hp Hb Hpq Hq. unfold slp_parse, status_frame in *.
  apply prefix_split in Hpq as [(k & Hk & Hne)|(p1 & -> & Hpq)].
  { by rewrite (read_varint_prefix _ _ _ Hk). }
  rewrite read_varint_ok by done. cbn [mbind result_bind].
  apply prefix_split in Hpq as [(k & Hk & Hne)|(p2 & -> & Hpq)].
  { by rewrite (read_varint_prefix _ _ _ Hk). }
  rewrite read_varint_ok by done. cbn [mbind result_bind].
  apply prefix_split in Hpq as [(k & Hk & Hne)|(p3 & -> & Hpq)].
  { by rewrite (read_varint_prefix _ _ _ Hk). }
  rewrite read_varint_ok by (unfold in_i32; lia). cbn [mbind result_bind].
  rewrite (proj2 (Z.leb_gt (zlen body) 0)), (proj2 (Z.ltb_lt _ (zlen body))); [done| |lia].
  rewrite Hpq, length_app. destruct q; [done|]. simpl. lia.
Qed.

End response.

(** ** Properties *)

(** Every [i32] is written as one to five bytes, without a fault, and
    reading those bytes back gives the value and leaves what follows them. *)
Theorem varint_roundtrip (v : Z) (rest : list Z) :
  - 2 ^ 31 <= v < 2 ^ 31 ->
  exists bytes, write_varint [] v = Ret bytes /\ (1 <= length bytes <= 5)%nat
    /\ read_varint (bytes ++ rest) = Ok (v, rest).
Proof.
  intros Hv. exists (varint v). rewrite write_varint_ok by done.
  split_and!; [done|apply varint_length..|by apply read_varint_ok].
Qed.

(** C30: the parser's answer on a status response that arrives in pieces: on
    every strict prefix of the frame it asks for more, and on the whole frame,
    whatever follows it, it accepts exactly the bodies that are JSON and
    returns their text. *)
Theorem slp_parse_stream `{SerdeJson} (packet_len : Z) (body received missing rest : list Z) :
  - 2 ^ 31 <= packet_len < 2 ^ 31 -> 0 < zlen body < 2 ^ 31 ->
  status_frame packet_len body = received ++ missing ->
  (json_ok body = true -> utf8_valid body = true) ->
  slp_parse (status_frame packet_len body ++ rest)
    = (if json_ok body then Ok body else Err Invalid)
  /\ (missing <> [] -> slp_parse received = Err Incomplete).
Proof.
  intros Hp Hb Hs Hu. split; [|by apply (slp_parse_prefix packet_len body)].
  rewrite slp_parse_frame by done. destruct (json_ok body); [|done].
  by rewrite from_utf8_lossy_id by auto.
Qed.

(** The request is built without a fault, and a server that reads it
    finds the handshake packet with the version, the host name, the port and
    the status state it was built from, then the one-byte status request. *)
Theorem build_request_decodes (hostname : list Z) (port protocol_version : Z) :
  zlen hostname < 2 ^ 30 -> in_u16 port -> - 2 ^ 31 <= protocol_version < 2 ^ 31 ->
  exists bytes, build_latest_request hostname port protocol_version = Ret bytes
    /\ decode_request bytes = Ok (protocol_version, hostname, port, 1, [1; 0]).
Proof.
  intros Hh Hp Hv. unfold build_latest_request.
  pose proof (varint_length protocol_version). pose proof (varint_length (zlen hostname)).
  assert (Hi : forall n, 0 <= n < 2 ^ 31 -> i32_of n = n).
  { intros n Hn. rewrite i32_of_spec by lia. case_cmp. }
  rewrite write_varint_ok by done. cbn [mbind outcome_bind].
  rewrite Hi, write_varint_ok by (unfold in_i32; lia). cbn [mbind outcome_bind].
  set (buffer := (_ ++ hostname) ++ _).
  assert (Hlen : zlen buffer < 2 ^ 31).
  { unfold buffer. rewrite !length_app. simpl. lia. }
  rewrite Hi, write_varint_ok by (unfold in_i32; lia). eexists. split; [done|].
  unfold decode_request. rewrite app_nil_l, <- app_assoc, read_varint_ok by (unfold in_i32; lia).
  cbn [mbind result_bind]. rewrite Nat2Z.id, take_app_length, drop_app_length.
  unfold buffer. rewrite <- !app_assoc. change [0] with (varint 0).
  rewrite read_varint_ok by done. cbn [mbind result_bind].
  rewrite read_varint_ok by done. cbn [mbind result_bind].
  rewrite read_varint_ok by (unfold in_i32; lia). cbn [mbind result_bind].
  rewrite Nat2Z.id, take_app_length, drop_app_length. do 4 f_equal.
  apply be16_bytes_read; [done|]. unfold be16_bytes, u8_of, wrap.
  rewrite !land_255. change (2 ^ 8) with 256. by rewrite Z.mod_mod.
Qed.

(** *** Witnesses *)

(** A JSON checker that accepts one body. *)
Definition ex_body : list Z := [123; 34; 195; 169; 34; 58; 49; 125].
Definition ex_json : SerdeJson := {| json_ok := fun l => bool_decide (l = ex_body) |}.

Lemma varint_roundtrip_witness :
  exists bytes, write_varint [] (-1) = Ret bytes /\ (1 <= length bytes <= 5)%nat
    /\ read_varint (bytes ++ [7]) = Ok (-1, [7]).
Proof. apply varint_roundtrip. lia. Defined.

Lemma slp_parse_stream_witness :
  @slp_parse ex_json (status_frame 10 ex_body ++ [9]) = Ok ex_body
  /\ @slp_parse ex_json (take 5 (status_frame 10 ex_body)) = Err Incomplete.
Proof.
  destruct (@slp_parse_stream ex_json 10 ex_body (take 5 (status_frame 10 ex_body))
    (drop 5 (status_frame 10 ex_body)) [9]) as [Hw Hp].
  - lia.
  - vm_compute. split; congruence.
  - by rewrite take_drop.
  - intros _. vm_compute. reflexivity.
  - split; [exact Hw|]. apply Hp. vm_compute. congruence.
Defined.

Lemma build_request_decodes_witness :
  exists bytes, build_latest_request [108; 111] 25565 (-1) = Ret bytes
    /\ decode_request bytes = Ok (-1, [108; 111], 25565, 1, [1; 0]).
Proof.
  apply (build_request_decodes [108; 111] 25565 (-1)).
  - vm_compute. reflexivity.
  - vm_compute. split; congruence.
  - lia.
Defined.
