(* ===== verification/Config.v ===== *)
(** * Configuration: [config.rs], [controller/shared.rs]

    The port range of the configuration and the operations on it, and the
    values that are shared by all parts.  Durations are nanoseconds, strings
    their bytes.  The file is read by the library [toml]. *)

From S2P Require Import Prelude Float Rand.

Inductive PortRange : Type :=
  | Range (start last : Z)
  | Single (port : Z).

(** [(start..=end).collect()]. *)
Definition as_vec (self : PortRange) : list Z :=
  match self with
  | Range start last => seqZ start (last - start + 1)
  | Single port => [port]
  end.

(** [random_range] panics on an empty range. *)
Definition sample {R} `{Rng R} (self : PortRange) (rand : R) : outcome (Z * R) :=
  match self with
  | Range start last => if start <=? last then Ret (random_range rand start last) else Fault Panic
  | Single port => Ret (port, rand)
  end.

Definition start (self : PortRange) : Z :=
  match self with Range start _ => start | Single port => port end.

Definition last (self : PortRange) : Z :=
  match self with Range _ last => last | Single port => port end.

(** ** Lemmas *)

(** A range is usable when it holds a port. *)
Definition port_range_ok (self : PortRange) : Prop := start self <= last self.

Lemma elem_of_as_vec self p : p ∈ as_vec self <-> start self <= p <= last self.
Proof.
  destruct self; simpl; [rewrite elem_of_seqZ; lia|]. rewrite list_elem_of_singleton. lia.
Qed.

Lemma sample_ok {R} `{Rng R} self (rand : R) :
  port_range_ok self ->
  exists p rand', sample self rand = Ret (p, rand') /\ p ∈ as_vec self.
Proof.
  unfold port_range_ok. destruct self as [s l|p]; simpl; intros Hok.
  - rewrite (proj2 (Z.leb_le s l)) by done. pose proof (random_range_in rand s l Hok).
    destruct (random_range rand s l) as [p rand']. exists p, rand'. split; [done|].
    rewrite elem_of_seqZ. simpl in *. lia.
  - exists p, rand. split; [done|]. by apply list_elem_of_singleton.
Qed.

(** ** The configuration *)

Record ControllerConfig : Type := mkControllerConfig {
  c_source_port : PortRange;
  c_interface : list Z;
  c_print_every : Z;
  c_max_rate : f64 }.

Record DatabaseConfig : Type := mkDatabaseConfig {
  c_url : list Z;
  c_user : list Z;
  c_password : list Z;
  c_database : list Z;
  c_table : list Z;
  c_flush_interval : Z;
  c_flush_capacity : Z }.

Record EpsilonConfig : Type := mkEpsilonConfig { c_epsilon_ip : f64; c_epsilon_port : f64 }.

Record StrategyConfig : Type := mkStrategyConfig {
  c_max_in_flight : Z;
  c_budget_per_address : Z;
  c_epsilon : EpsilonConfig;
  c_catchall_threshold : Z;
  c_timeout_batch : nat;
  c_seed_ports : list PortRange }.

Record RescanConfig : Type := mkRescanConfig { c_max_count : Z; c_rescan_epsilon : f64 }.

Record SessionConfig : Type := mkSessionConfig {
  c_duration : Z;
  c_batch_size : nat;
  c_rescan : RescanConfig }.

Record PingConfig : Type := mkPingConfig { c_host : list Z; c_port : Z; c_protocol_version : Z }.

Record TcpConfig : Type := mkTcpConfig { c_max_reorder_segments : Z; c_max_reorder_bytes : Z }.

Inductive XdpMode : Set := Copy | ZeroCopy | Fallback.
Inductive XdpAttachMode : Set := Driver | Hardware | Skb.

Record BusyPollingConfig : Type := mkBusyPollingConfig {
  c_enabled : bool;
  c_microseconds : Z;
  c_budget : Z }.

Record BatchesConfig : Type := mkBatchesConfig { c_completion : Z; c_rx : Z }.

Record XdpConfig : Type := mkXdpConfig {
  c_mode : XdpMode;
  c_attach_mode : XdpAttachMode;
  c_huge_pages : bool;
  c_checksum_offload : bool;
  c_ring_size : Z;
  c_busy_polling : BusyPollingConfig;
  c_batches : BatchesConfig }.

Record Config : Type := mkConfig {
  c_controller : ControllerConfig;
  c_db : DatabaseConfig;
  c_strategy : StrategyConfig;
  c_session : SessionConfig;
  c_ping : PingConfig;
  c_xdp : XdpConfig;
  c_tcp : TcpConfig }.

(** [SharedData]. *)
Record SharedData : Type := mkSharedData {
  sh_source_ip : Z;
  sh_gateway : list Z;
  sh_interface : list Z;
  sh_config : Config;
  sh_timeout : Z }.
