(* ===== verification/PortGraph.v ===== *)
(** * Port statistics: [controller/strategy/pmap/graph/banner.rs]

    How often ports, and pairs of ports, were found open: the order in which
    ports are recommended, their probabilities, and the exploration of others. *)

From S2P Require Import Prelude Float Rand.

(** The order in which a hash map is iterated over is not specified.  Every
    iteration goes through this interface, whose one law is that each entry
    comes up once. *)
Class HashIter : Type := {
  hiter {K A} `{Countable K} (m : gmap K A) : list (K * A);
  hiter_perm {K A} `{Countable K} (m : gmap K A) : hiter m ≡ₚ map_to_list m }.

Record PortGraph : Type := mkPortGraph {
  singles : gmap Z Z;
  doubles : gmap Z (gmap Z Z);
  pg_total : Z;
  recommendations : list Z;
  threshold : Z }.

(** [b.1.cmp(&a.1)]: by count, the greatest first. *)
Definition count_order (a b : Z * Z) : Prop := b.2 <= a.2.

Global Instance count_order_dec : RelDecision count_order.
Proof. intros a b. unfold count_order. apply _. Defined.
Global Instance count_order_total : Total count_order.
Proof. intros a b. unfold count_order. lia. Qed.
Global Instance count_order_trans : Transitive count_order.
Proof. intros a b c. unfold count_order. lia. Qed.

Section graph.
Context `{HashIter}.

(** [doubles.entry(i).or_default().insert(j, count)]. *)
Definition insert_double (doubles : gmap Z (gmap Z Z)) (e : (Z * Z) * Z)
    : gmap Z (gmap Z Z) :=
  let '((i, j), count) := e in
  <[i := <[j := count]> (default ∅ (doubles !! i))]> doubles.

(** [sort_unstable_by] may leave entries of one count in any order; the order
    of the iteration that feeds the sort is arbitrary, so a stable sort here
    has the same possible results. *)
Definition PortGraph_from_counts (singles : gmap Z Z) (co_banner_counts : gmap (Z * Z) Z)
    (total_addresses : Z) (seed_ports : list Z) (threshold : Z) : PortGraph :=
  let doubles := foldl insert_double ∅ (hiter co_banner_counts) in
  let ordered := merge_sort count_order (hiter singles) in
  let recommendations := ordered.*1 in
  let already_present : gset Z := list_to_set recommendations in
  let recommendations :=
    foldl (fun r port => if bool_decide (port ∈ already_present) then r else r ++ [port])
      recommendations seed_ports in
  mkPortGraph singles doubles (Z.max total_addresses 1) recommendations threshold.

End graph.

Definition open_count (self : PortGraph) (port : Z) : Z := default 0 (singles self !! port).

(** [count as f64 / total as f64]. *)
Definition base_prob (self : PortGraph) (port : Z) : score :=
  score_ratio (default 0 (singles self !! port)) (pg_total self).

Definition co_occurring (self : PortGraph) (port : Z) : option (gmap Z Z) :=
  doubles self !! port.

Definition recommend_at (self : PortGraph) (index : Z) : option Z :=
  recommendations self !! Z.to_nat index.

Section explore.
Context `{Rng R}.

Definition explore_empty (rng : R) : Z * R := random_range rng 1 65535.

(** The [loop] of [explore]. *)
Fixpoint explore_loop (fuel : nat) (tried : gset Z) (rng : R) : outcome (option Z * R) :=
  match fuel with
  | O => Fault OutOfFuel
  | S fuel =>
      let '(candidate, rng) := explore_empty rng in
      if bool_decide (candidate ∈ tried) then explore_loop fuel tried rng
      else Ret (Some candidate, rng)
  end.

Definition explore (fuel : nat) (tried : gset Z) (rng : R) : outcome (option Z * R) :=
  if 65535 <=? Z.of_nat (size tried) then Ret (None, rng) else explore_loop fuel tried rng.

(** ** Lemmas *)

Lemma explore_loop_ok fuel : forall tried (rng rng' : R) o,
  explore_loop fuel tried rng = Ret (o, rng') ->
  exists p, o = Some p /\ 1 <= p <= 65535 /\ p ∉ tried.
Proof.
  induction fuel as [|fuel IH]; intros tried rng rng' o He; simpl in He; [done|].
  pose proof (random_range_in rng 1 65535 ltac:(lia)) as Hr. unfold explore_empty in He.
  destruct (random_range rng 1 65535) as [c rng'']. simpl in Hr.
  case_bool_decide as Hc; [by eapply IH|]. simplify_eq. by exists c.
Qed.

Lemma explore_ok fuel tried (rng rng' : R) p :
  explore fuel tried rng = Ret (Some p, rng') -> 1 <= p <= 65535 /\ p ∉ tried.
Proof.
  unfold explore. case_cmp_step; [done|]. intros (q & [= <-] & ?)%explore_loop_ok. done.
Qed.

(** The guard leaves a port to find. *)
Lemma untried_exists (tried : gset Z) :
  Z.of_nat (size tried) < 65535 -> exists p, 1 <= p <= 65535 /\ p ∉ tried.
Proof.
  intros Hs. destruct (decide (Forall (.∈ tried) (seqZ 1 65535))) as [Hall|Hn].
  - exfalso. assert (Hsub : list_to_set (seqZ 1 65535) ⊆ tried).
    { intros p Hp%elem_of_list_to_set. rewrite Forall_forall in Hall. auto. }
    apply subseteq_size in Hsub.
    rewrite size_list_to_set, length_seqZ in Hsub by apply NoDup_seqZ. lia.
  - apply not_Forall_Exists in Hn; [|apply _]. apply Exists_exists in Hn as (p & Hp & Hn).
    exists p. rewrite elem_of_seqZ in Hp. split; [lia|done].
Qed.

Lemma explore_loop_hits n : forall tried (rng : R),
  nth_draw n rng 1 65535 ∉ tried ->
  exists p rng', explore_loop (S n) tried rng = Ret (Some p, rng').
Proof.
  induction n as [|n IH]; intros tried rng Hn; cbn [explore_loop nth_draw] in *;
    unfold explore_empty; destruct (random_range rng 1 65535) as [c rng'].
  - rewrite bool_decide_false by done. eauto.
  - case_bool_decide; [by apply IH|eauto].
Qed.

(** With a fair generator the search ends. *)
Lemma explore_total `{!FairRng R} tried (rng : R) :
  exists fuel o rng', explore fuel tried rng = Ret (o, rng').
Proof.
  unfold explore. destruct (Z.leb_spec 65535 (Z.of_nat (size tried))) as [|Hlt].
  { by exists 0%nat, None, rng. }
  destruct (untried_exists tried) as (p & Hp & Hn); [lia|].
  destruct (fair rng 1 65535 p Hp) as [n Hd]. exists (S n).
  destruct (explore_loop_hits n tried rng) as (q & rng' & He); [by rewrite Hd|]. eauto.
Qed.

End explore.

Lemma explore_loop_mono {R} `{Rng R} fuel fuel' : forall tried (rng : R) a,
  explore_loop fuel tried rng = Ret a -> (fuel <= fuel')%nat -> explore_loop fuel' tried rng = Ret a.
Proof.
  revert fuel'. induction fuel as [|fuel IH]; intros [|fuel'] tried rng a He Hle; try done; [lia|].
  simpl in *. destruct (explore_empty rng) as [c rng']. case_bool_decide; [|done].
  apply IH; [done|lia].
Qed.

Section graph_lemmas.
Context `{HashIter}.

Lemma merge_sort_singles (m : gmap Z Z) :
  merge_sort count_order (hiter m) ≡ₚ map_to_list m.
Proof. by rewrite merge_sort_Permutation, hiter_perm. Qed.

Lemma elem_of_recommended (m : gmap Z Z) p :
  p ∈ (merge_sort count_order (hiter m)).*1 <-> is_Some (m !! p).
Proof.
  rewrite merge_sort_singles, list_elem_of_fmap. split.
  - intros ([k v] & -> & Hk%elem_of_map_to_list). by exists v.
  - intros [v Hv]. exists (p, v). split; [done|]. by apply elem_of_map_to_list.
Qed.

(** The seed ports that are not counted follow, in order. *)
Lemma append_seeds (present : gset Z) seeds : forall r : list Z,
  foldl (fun r port => if bool_decide (port ∈ present) then r else r ++ [port]) r seeds
  = r ++ filter (.∉ present) seeds.
Proof.
  induction seeds as [|p seeds IH]; intros r; simpl; [by rewrite app_nil_r|].
  rewrite IH, filter_cons. case_bool_decide; case_decide; try done. by rewrite <- app_assoc.
Qed.

Lemma recommendations_eq singles co total seeds th :
  recommendations (PortGraph_from_counts singles co total seeds th)
  = (merge_sort count_order (hiter singles)).*1
    ++ filter (fun p => singles !! p = None) seeds.
Proof.
  unfold PortGraph_from_counts. cbn [recommendations]. rewrite append_seeds. f_equal.
  apply list_filter_iff. intros p. rewrite elem_of_list_to_set, elem_of_recommended.
  by rewrite eq_None_not_Some.
Qed.

Lemma insert_double_lookup d i j c i' j' :
  default ∅ (insert_double d ((i, j), c) !! i') !! j'
  = if decide ((i', j') = (i, j)) then Some c else default ∅ (d !! i') !! j'.
Proof.
  simpl. destruct (decide (i' = i)) as [->|Hi].
  - rewrite lookup_insert_eq. simpl. destruct (decide (j' = j)) as [->|Hj].
    + rewrite lookup_insert_eq, decide_True; done.
    + rewrite lookup_insert_ne, decide_False by congruence. done.
  - rewrite lookup_insert_ne, decide_False by congruence. done.
Qed.

Lemma fold_doubles (l : list ((Z * Z) * Z)) : forall d i j,
  NoDup l.*1 ->
  default ∅ (foldl insert_double d l !! i) !! j
  = match (list_to_map l : gmap (Z * Z) Z) !! (i, j) with
    | Some c => Some c
    | None => default ∅ (d !! i) !! j
    end.
Proof.
  induction l as [|[[i' j'] c] l IH]; intros d i j Hnd; [done|].
  apply NoDup_cons in Hnd as [Hn Hnd]. cbn [foldl]. rewrite IH, insert_double_lookup by done.
  cbn [list_to_map foldr]. simpl. case_decide as He.
  - rewrite He, lookup_insert_eq, not_elem_of_list_to_map_1 by done. done.
  - by rewrite lookup_insert_ne by congruence.
Qed.

Lemma doubles_lookup singles co total seeds th i j :
  default ∅ (co_occurring (PortGraph_from_counts singles co total seeds th) i) !! j
  = co !! (i, j).
Proof.
  unfold co_occurring, PortGraph_from_counts. cbn [doubles].
  assert (Hp := hiter_perm co). rewrite fold_doubles.
  - rewrite (list_to_map_proper _ _) by (try exact Hp; rewrite Hp; apply NoDup_fst_map_to_list).
    rewrite list_to_map_to_list. destruct (co !! (i, j)); [done|]. by rewrite lookup_empty.
  - rewrite Hp. apply NoDup_fst_map_to_list.
Qed.

End graph_lemmas.

(** ** Properties *)

(** The statistics are stored as counted, whatever order the hash maps
    are iterated in: the pair counts can be looked up, the recommended ports
    are the counted ports in descending order of count followed by the seed
    ports never seen, and none but a repeated seed port is listed twice. *)
Lemma port_graph_counts `{HashIter} (singles : gmap Z Z) (co : gmap (Z * Z) Z)
    (total : Z) (seeds : list Z) (th : Z) :
  let g := PortGraph_from_counts singles co total seeds th in
  (forall i j, default ∅ (co_occurring g i) !! j = co !! (i, j))
  /\ (forall p, p ∈ recommendations g <-> is_Some (singles !! p) \/ p ∈ seeds)
  /\ (NoDup seeds -> NoDup (recommendations g))
  /\ StronglySorted (fun p q => open_count g q <= open_count g p)
       (take (size singles) (recommendations g))
  /\ Forall (fun p => singles !! p = None) (drop (size singles) (recommendations g)).
Proof.
  intros g. pose proof (recommendations_eq singles co total seeds th) as Hr. fold g in Hr.
  set (counted := merge_sort count_order (hiter singles)) in *.
  assert (Hlen : length counted.*1 = size singles).
  { unfold counted. by rewrite length_fmap, merge_sort_singles, length_map_to_list. }
  rewrite Hr, <- Hlen, take_app_length, drop_app_length. split_and!.
  - apply doubles_lookup.
  - intros p. unfold counted. rewrite elem_of_app, elem_of_recommended, list_elem_of_filter.
    destruct (singles !! p) eqn:E; split; intros [|]; naive_solver.
  - intros Hs. apply NoDup_app. split_and!.
    + unfold counted. rewrite merge_sort_singles. apply NoDup_fst_map_to_list.
    + unfold counted. intros p Hp%elem_of_recommended (Hn & _)%list_elem_of_filter.
      rewrite Hn in Hp. by destruct Hp.
    + by apply NoDup_filter.
  - assert (Hcnt : forall e, e ∈ counted -> open_count g e.1 = e.2).
    { intros [p c]. unfold counted. rewrite merge_sort_singles, elem_of_map_to_list.
      unfold open_count. simpl. by intros ->. }
    pose proof (StronglySorted_merge_sort count_order (hiter singles)) as Hs. fold counted in Hs.
    clearbody counted. clear Hlen Hr. induction Hs as [|e l Hs IH Hall]; simpl; constructor.
    + apply IH. intros e' He'. apply Hcnt, elem_of_cons. by right.
    + apply Forall_fmap, Forall_forall. intros e' He'. rewrite Forall_forall in Hall.
      specialize (Hall e' He'). unfold count_order in Hall. simpl.
      rewrite !Hcnt by (apply elem_of_cons; auto). done.
  - apply Forall_forall. intros p (Hn & _)%list_elem_of_filter. done.
Qed.

(** C33: exploring a port at random returns a port from 1 to 65535 that has
    not been tried, gives up only when 65535 ports have been tried, and ends
    whenever the generator brings up every port at some point. *)
Theorem explore_untried {R} `{FairRng R} (tried : gset Z) (rng : R) :
  exists fuel o rng', explore fuel tried rng = Ret (o, rng')
    /\ match o with
       | Some p => 1 <= p <= 65535 /\ p ∉ tried
       | None => 65535 <= Z.of_nat (size tried)
       end.
Proof.
  destruct (explore_total tried rng) as (fuel & o & rng' & He). exists fuel, o, rng'.
  split; [done|]. destruct o as [p|]; [by eapply explore_ok|]. unfold explore in He.
  case_cmp_step; [done|]. by apply explore_loop_ok in He as (? & ? & _).
Qed.

(** Iteration in the order of the keys. *)
Global Program Instance ordered_iter : HashIter := {| hiter K A _ _ m := map_to_list m |}.
Next Obligation. done. Qed.

Lemma explore_untried_witness :
  exists fuel o rng', explore fuel ({[ 80; 443 ]} : gset Z) (mkReplay [79; 442; 4] [] 0)
      = Ret (o, rng')
    /\ match o with
       | Some p => 1 <= p <= 65535 /\ p ∉ ({[ 80; 443 ]} : gset Z)
       | None => 65535 <= Z.of_nat (size ({[ 80; 443 ]} : gset Z))
       end.
Proof. apply explore_untried. Defined.
