(* ===== verification/Database.v ===== *)
(** * The database and what is scanned: [database/mod.rs],
    [controller/strategy/selector.rs], [Controller::session]

    The answers of the database server are parameters; what the program makes
    of them (the statistics of ports and prefixes, the addresses of a rescan)
    is modelled, as is the choice of the targets of a session. *)

From S2P Require Import Prelude Ranges Text Prefix Rand PortGraph.

(** ** The server *)

(** A query that streams its rows: [next] gives them one by one and can fail
    at any of them. *)
Abbreviation cursor A := (list (result unit A)).

(** The client library, with one operation per statement of the sources. *)
Class Clickhouse (Db Row : Type) : Type := {
  Insertion : Type;
  select_count_ips : Db -> result unit Z;
  select_ports : Db -> result unit (list (Z * Z));
  select_pairs : Db -> result unit (list (Z * Z * Z));
  fetch_hits : Db -> result unit (cursor (Ipv4Addr * Z));
  fetch_ips : Db -> result unit (cursor Ipv4Addr);
  insert_open : Db -> Db * result unit Insertion;
  insert_write : Db -> Insertion -> Row -> Db * result unit Insertion;
  insert_end : Db -> Insertion -> Db * result unit unit }.

(** The rows that came before the first failure, and whether there was none. *)
Definition oks {A} (c : cursor A) : list A :=
  omap (fun r => match r with Ok a => Some a | Err _ => None end) c.
Definition intact {A} (c : cursor A) : Prop := Forall (fun r => r <> Err tt) c.

Global Instance intact_dec {A} (c : cursor A) : Decision (intact c).
Proof.
  refine (@Forall_dec _ _ _ c). intros [a|[]]; [left; done|right; naive_solver].
Defined.

Section database.
Context {Db Row : Type} `{Clickhouse Db Row} `{HashIter}.

(** ** Reading *)

(** [collect] into a map: of two rows with one key the later one stays. *)
Definition collect_map {K} `{Countable K} (rows : list (K * Z)) : gmap K Z :=
  foldl (fun m e => <[e.1 := e.2]> m) ∅ rows.

Definition build_graph (db : Db) (seed_ports : list Z) (catchall_threshold : Z)
    : result unit PortGraph :=
  total ← select_count_ips db;
  if total =? 0 then Ok (PortGraph_from_counts ∅ ∅ 0 seed_ports catchall_threshold)
  else
    port_rows ← select_ports db;
    let banner_counts := collect_map port_rows in
    co_rows ← select_pairs db;
    let co_banner_counts := collect_map ((fun '(i, j, c) => ((i, j), c)) <$> co_rows) in
    Ok (PortGraph_from_counts banner_counts co_banner_counts total seed_ports catchall_threshold).

(** [*prefix_hits.entry(ip >> 8).or_insert(0) += cnt]. *)
Fixpoint prefix_hits_loop (fetch : cursor (Ipv4Addr * Z)) (prefix_hits : gmap Z Z)
    : result unit (gmap Z Z) :=
  match fetch with
  | [] => Ok prefix_hits
  | row :: fetch =>
      '(ip, cnt) ← row;
      let prefix := Z.shiftr ip 8 in
      prefix_hits_loop fetch
        (<[prefix := u64_of (default 0 (prefix_hits !! prefix) + cnt)]> prefix_hits)
  end.

Definition build_prefix_graph (db : Db) : result unit PrefixGraph :=
  fetch ← fetch_hits db;
  prefix_hits ← prefix_hits_loop fetch ∅;
  Ok (from_counts prefix_hits).

(** The [while] of [read_ranges]; it stops once [count] addresses are read. *)
Fixpoint read_ranges_loop (fetch : cursor Ipv4Addr) (count : Z) (ranges : list Ipv4Addr)
    : result unit (list Ipv4Addr) :=
  match fetch with
  | [] => Ok ranges
  | row :: fetch =>
      ip ← row;
      let ranges := ranges ++ [ip] in
      if count <=? zlen ranges then Ok ranges else read_ranges_loop fetch count ranges
  end.

Definition read_ranges (db : Db) (count : Z) : result unit (list Ipv4Addr) :=
  fetch ← fetch_ips db;
  ranges ← read_ranges_loop fetch count [];
  Ok (merge_sort Z.le ranges).

(** ** Writing *)

Fixpoint write_rows (db : Db) (insert : Insertion) (rows : list Row) : Db * result unit Insertion :=
  match rows with
  | [] => (db, Ok insert)
  | row :: rows =>
      match insert_write db insert row with
      | (db, Ok insert) => write_rows db insert rows
      | (db, Err e) => (db, Err e)
      end
  end.

Definition write_many (db : Db) (rows : list Row) : Db * result unit unit :=
  match rows with
  | [] => (db, Ok tt)
  | _ =>
      match insert_open db with
      | (db, Err e) => (db, Err e)
      | (db, Ok insert) =>
          match write_rows db insert rows with
          | (db, Err e) => (db, Err e)
          | (db, Ok insert) => insert_end db insert
          end
      end
  end.

(** ** Selecting the targets of a session *)

Inductive Selector : Type :=
  | AllSelector
  | RescanSelector (count : Z).

Definition select (self : Selector) (db : Db) : result unit Ipv4Ranges :=
  match self with
  | AllSelector => Ok (from_range (mkRange 0 (2 ^ 32 - 1)))
  | RescanSelector count => ranges ← read_ranges db count; Ok (from_addrs ranges)
  end.

(** [Controller::session]: the ranges of the new session. *)
Definition session (db : Db) (excludes : Ipv4Ranges) (selector : Selector)
    : outcome (result unit CompiledRanges) :=
  match select selector db with
  | Err e => Ret (Err e)
  | Ok ranges => ranges ← exclude ranges excludes; Ret (Ok (compile ranges))
  end.

End database.

(** ** What the server promises

    [table] are the rows stored, by address and port.  The laws say what the
    statements mean; a failing query promises nothing. *)

(** [count(DISTINCT ip)] of the rows that satisfy [P]. *)
Definition distinct_ips (rows : list (Ipv4Addr * Z)) : Z := zlen (remove_dups rows.*1).

(** The addresses with both ports. *)
Definition with_both (rows : list (Ipv4Addr * Z)) (i j : Z) : list (Ipv4Addr * Z) :=
  filter (fun r => r.2 = i /\ (r.1, j) ∈ rows) rows.

Class ClickhouseLaws (Db Row : Type) `{Clickhouse Db Row} : Type := {
  table : Db -> list (Ipv4Addr * Z);
  row_key : Row -> Ipv4Addr * Z;
  pending : Insertion -> list Row;
  table_width db : Forall (fun r => in_u32 r.1) (table db);
  count_ips_law db n : select_count_ips db = Ok n -> n = distinct_ips (table db);
  ports_law db rows : select_ports db = Ok rows ->
    NoDup rows.*1 /\ forall p c, (p, c) ∈ rows <->
      p ∈ (table db).*2 /\ c = distinct_ips (filter (fun r => r.2 = p) (table db));
  pairs_law db rows : select_pairs db = Ok rows ->
    NoDup rows.*1 /\ forall i j c, (i, j, c) ∈ rows <->
      i <> j /\ with_both (table db) i j <> [] /\ c = distinct_ips (with_both (table db) i j);
  hits_law db c : fetch_hits db = Ok c -> intact c ->
    NoDup (oks c).*1 /\ forall ip n, (ip, n) ∈ oks c <->
      ip ∈ (table db).*1 /\ n = zlen (filter (fun r => r.1 = ip) (table db));
  ips_law db c : fetch_ips db = Ok c ->
    NoDup (oks c) /\ (forall ip, ip ∈ oks c -> ip ∈ (table db).*1)
    /\ (intact c -> forall ip, ip ∈ (table db).*1 -> ip ∈ oks c);
  open_law db db' i : insert_open db = (db', Ok i) ->
    table db' ++ (row_key <$> pending i) = table db;
  write_law db i row db' i' : insert_write db i row = (db', Ok i') ->
    table db' ++ (row_key <$> pending i') = table db ++ (row_key <$> pending i) ++ [row_key row];
  end_law db i db' : insert_end db i = (db', Ok tt) ->
    table db' = table db ++ (row_key <$> pending i) }.

(** ** Lemmas: collecting *)

Lemma foldl_insert_lookup {K} `{Countable K} (rows : list (K * Z)) : forall (m : gmap K Z) k,
  NoDup rows.*1 ->
  foldl (fun m e => <[e.1 := e.2]> m) m rows !! k
  = match (list_to_map rows : gmap K Z) !! k with Some v => Some v | None => m !! k end.
Proof.
  induction rows as [|[k' v] rows IH]; intros m k Hnd; [done|].
  apply NoDup_cons in Hnd as [Hn Hnd]. cbn [foldl list_to_map foldr fst snd]. rewrite IH by done.
  destruct (decide (k = k')) as [->|Hk].
  - by rewrite !lookup_insert_eq, not_elem_of_list_to_map_1.
  - by rewrite !lookup_insert_ne.
Qed.

Lemma collect_map_lookup {K} `{Countable K} (rows : list (K * Z)) k v :
  NoDup rows.*1 -> collect_map rows !! k = Some v <-> (k, v) ∈ rows.
Proof.
  intros Hnd. unfold collect_map. rewrite foldl_insert_lookup by done.
  rewrite (elem_of_list_to_map (M := gmap K)) by done.
  destruct (list_to_map rows !! k); [done|]. by rewrite lookup_empty.
Qed.

(** ** Lemmas: reading addresses *)

Lemma intact_cons {A} (r : result unit A) c : intact (r :: c) <-> r <> Err tt /\ intact c.
Proof. unfold intact. by rewrite Forall_cons. Qed.

(** How many rows [read_ranges] takes from the stream. *)
Definition rows_read (count : Z) (already : nat) : nat := Z.to_nat (Z.max 1 (count - Z.of_nat already)).

Lemma read_ranges_loop_eq (c : cursor Ipv4Addr) count : forall acc,
  read_ranges_loop c count acc
  = if decide (intact (take (rows_read count (length acc)) c))
    then Ok (acc ++ oks (take (rows_read count (length acc)) c)) else Err tt.
Proof.
  induction c as [|r c IH]; intros acc; simpl.
  { rewrite !take_nil, decide_True by constructor. by rewrite app_nil_r. }
  assert (Hone : rows_read count (length acc) = S (rows_read count (length acc) - 1)) by (unfold rows_read; lia).
  rewrite Hone. cbn [take]. destruct r as [ip|[]]; cbn [mbind result_bind].
  2: { destruct (decide _) as [[Hn _]%intact_cons|]; [done|done]. }
  rewrite length_app. simpl. destruct (Z.leb_spec count (Z.of_nat (length acc + 1))) as [Hc|Hc].
  - assert (rows_read count (length acc) - 1 = 0)%nat as -> by (unfold rows_read; lia).
    rewrite decide_True by (apply intact_cons; split; [done|constructor]). done.
  - rewrite IH, length_app. simpl.
    assert (rows_read count (length acc) - 1 = rows_read count (length acc + 1))%nat as ->
      by (unfold rows_read; lia).
    destruct (decide (intact (take (rows_read count (length acc + 1)) c))).
    + rewrite decide_True by (by apply intact_cons). by rewrite <- app_assoc.
    + rewrite decide_False by (rewrite intact_cons; tauto). done.
Qed.

Lemma oks_take {A} n (c : cursor A) : oks (take n c) `sublist_of` oks c.
Proof.
  revert n. induction c as [|[a|e] c IH]; intros [|n]; simpl; try apply sublist_nil_l.
  - by apply sublist_skip.
  - apply IH.
Qed.

(** Sorted distinct addresses are ordered ranges. *)
Lemma ordered_addrs l : forall lo,
  StronglySorted Z.le l -> NoDup l -> Forall in_u32 l -> Forall (fun x => lo <= x) l ->
  ordered_from lo (inner (from_addrs l)).
Proof.
  induction l as [|x l IH]; intros lo Hs Hnd Hw Hlo; simpl; [done|].
  apply StronglySorted_inv in Hs as [Hs Hx]. apply NoDup_cons in Hnd as [Hn Hnd].
  apply Forall_cons in Hw as [[_ Hw1] Hw]. apply Forall_cons in Hlo as [Hl _].
  split_and!; [lia|lia|lia|]. apply IH; [done..|].
  apply Forall_forall. intros y Hy. rewrite Forall_forall in Hx. specialize (Hx y Hy).
  assert (x <> y) by congruence. lia.
Qed.

Lemma covers_addrs l x : covers (inner (from_addrs l)) x <-> x ∈ l.
Proof.
  unfold covers, from_addrs. simpl. rewrite Exists_exists. split.
  - intros (p & (y & -> & Hy)%list_elem_of_fmap & Hx). simpl in Hx. by replace x with y by lia.
  - intros Hx. exists (mkRange x x, tt). split; [|simpl; lia]. apply list_elem_of_fmap. eauto.
Qed.

(** ** Lemmas: sums over groups *)

Lemma filter_iff_in {A} (P Q : A -> Prop) `{!forall x, Decision (P x), !forall x, Decision (Q x)} (l : list A) :
  (forall x, x ∈ l -> P x <-> Q x) -> filter P l = filter Q l.
Proof.
  induction l as [|x l IH]; intros Hl; [done|]. rewrite !filter_cons.
  rewrite IH by (intros; apply Hl, elem_of_cons; auto).
  pose proof (Hl x (list_elem_of_here _ _)). repeat case_decide; tauto || done.
Qed.

(** One row counts for exactly one of distinct keys. *)
Lemma sum_one (ks : list Z) x :
  NoDup ks -> sum_list_with (fun k => if decide (x = k) then 1%nat else 0%nat) ks
  = if decide (x ∈ ks) then 1%nat else 0%nat.
Proof.
  induction 1 as [|k ks Hn Hnd IH]; simpl; [done|]. rewrite IH.
  destruct (decide (x = k)) as [->|Hne].
  - rewrite decide_False by done. rewrite decide_True by (apply elem_of_cons; auto). done.
  - destruct (decide (x ∈ ks)).
    + rewrite decide_True by (apply elem_of_cons; auto). done.
    + rewrite decide_False by (rewrite elem_of_cons; tauto). done.
Qed.

(** Counting the rows of every key of a list, and adding up, counts the rows
    whose key is in the list. *)
Lemma sum_groups (ks : list Z) (rows : list (Z * Z)) :
  NoDup ks ->
  sum_list_with (fun k => length (filter (fun r => r.1 = k) rows)) ks
  = length (filter (fun r => r.1 ∈ ks) rows).
Proof.
  intros Hnd. induction rows as [|r rows IH]; simpl.
  { induction ks as [|k ks IHk]; simpl; [done|]. apply NoDup_cons in Hnd as [_ Hnd]. auto. }
  rewrite filter_cons. pose proof (sum_one ks r.1 Hnd) as Hone.
  assert (Hstep : sum_list_with (fun k => length (filter (fun r => r.1 = k) (r :: rows))) ks
    = (sum_list_with (fun k => if decide (r.1 = k) then 1%nat else 0%nat) ks
       + sum_list_with (fun k => length (filter (fun r => r.1 = k) rows)) ks)%nat).
  { clear. induction ks as [|k ks IH]; simpl; [done|]. rewrite IH, filter_cons.
    repeat case_decide; done || (simpl; lia). }
  simpl in Hstep. rewrite Hstep, IH, Hone. repeat case_decide; done || (simpl; lia).
Qed.

(** ** Lemmas: prefixes *)

(** What a stream adds to a prefix. *)
Definition added (p : Z) (rows : list (Ipv4Addr * Z)) : Z :=
  foldr (fun e n => (if Z.shiftr e.1 8 =? p then e.2 else 0) + n) 0 rows.

Definition counters_ok (m : gmap Z Z) : Prop := forall p, in_u64 (default 0 (m !! p)).

Lemma prefix_hits_loop_eq (c : cursor (Ipv4Addr * Z)) : forall m,
  counters_ok m ->
  match prefix_hits_loop c m with
  | Ok m' => intact c /\ forall p, default 0 (m' !! p) = u64_of (default 0 (m !! p) + added p (oks c))
  | Err _ => ~ intact c
  end.
Proof.
  induction c as [|r c IH]; intros m Hm; simpl.
  { split; [constructor|]. intros p. rewrite Z.add_0_r. symmetry. apply wrap_small, Hm. }
  destruct r as [[ip n]|[]]; cbn [mbind result_bind]; [|by intros [? _]%intact_cons].
  set (q := Z.shiftr ip 8). set (m1 := <[q := _]> m).
  assert (Hm1 : forall p, default 0 (m1 !! p)
    = if q =? p then u64_of (default 0 (m !! p) + n) else default 0 (m !! p)).
  { intros p. unfold m1. destruct (Z.eqb_spec q p) as [<-|Hne];
      [by rewrite lookup_insert_eq|by rewrite lookup_insert_ne]. }
  specialize (IH m1). destruct (prefix_hits_loop c m1) as [m'|[]].
  - destruct IH as [Hi Hp].
    { intros p. rewrite Hm1. destruct (q =? p); [by apply wrap_width|apply Hm]. }
    split; [by apply intact_cons|]. intros p. rewrite Hp, Hm1. cbn. fold q.
    destruct (q =? p); [|done]. unfold u64_of. rewrite wrap_add_l. f_equal. symmetry. apply Z.add_assoc.
  - intros [_ Hi]%intact_cons. apply IH; [|done].
    intros p. rewrite Hm1. destruct (q =? p); [by apply wrap_width|apply Hm].
Qed.

(** The keys of the pair counts. *)
Lemma pair_lookup (rows : list (Z * Z * Z)) i j c :
  NoDup rows.*1 ->
  collect_map ((fun '(i, j, c) => ((i, j), c)) <$> rows) !! (i, j) = Some c <-> (i, j, c) ∈ rows.
Proof.
  intros Hnd. assert (((fun '(i, j, c) => ((i, j), c)) <$> rows) = rows) as ->.
  { clear. induction rows as [|[[i j] c] rows IH]; [done|]. cbn. by f_equal. }
  by apply collect_map_lookup.
Qed.

Section server.
Context {Db Row : Type} `{ClickhouseLaws Db Row} `{HashIter}.

Lemma added_groups p (rows t : list (Z * Z)) :
  (forall ip n, (ip, n) ∈ rows -> n = zlen (filter (fun r => r.1 = ip) t)) ->
  added p rows
  = Z.of_nat (sum_list_with (fun k => length (filter (fun r => r.1 = k) t))
      (filter (fun ip => Z.shiftr ip 8 = p) rows.*1)).
Proof.
  induction rows as [|[ip n] rows IH]; intros Hg; [done|]. cbn [added foldr fst fmap list_fmap].
  fold (added p rows). rewrite IH by (intros; apply Hg; apply elem_of_cons; auto).
  rewrite filter_cons. cbn [fst snd]. rewrite (Hg ip n) by (apply elem_of_cons; auto).
  destruct (Z.eqb_spec (Z.shiftr ip 8) p); case_decide; try done. simpl. lia.
Qed.

Lemma prefix_counts db c p :
  fetch_hits db = Ok c -> intact c ->
  added p (oks c) = zlen (filter (fun r => Z.shiftr r.1 8 = p) (table db)).
Proof.
  intros Hf Hi. destruct (hits_law db c Hf Hi) as [Hnd Hin].
  rewrite (added_groups p (oks c) (table db)) by (intros ip n Hn; by apply Hin in Hn as [_ ?]).
  rewrite sum_groups by (by apply NoDup_filter). do 2 f_equal.
  apply filter_iff_in. intros r Hr. rewrite list_elem_of_filter. split; [tauto|].
  intros Hp. split; [done|]. apply list_elem_of_fmap.
  exists (r.1, zlen (filter (fun r' => r'.1 = r.1) (table db))). split; [done|].
  apply Hin. split; [|done]. apply list_elem_of_fmap. eauto.
Qed.

Lemma distinct_zero rows : distinct_ips rows = 0 -> rows = [].
Proof.
  unfold distinct_ips. destruct rows as [|r rows]; [done|]. intros Hz.
  assert (Hin : r.1 ∈ remove_dups (r :: rows).*1) by (apply elem_of_remove_dups; simpl; apply elem_of_cons; auto).
  destruct (remove_dups (r :: rows).*1); [by apply elem_of_nil in Hin|simpl in Hz; lia].
Qed.

Lemma no_port_zero p (t : list (Ipv4Addr * Z)) :
  p ∉ t.*2 -> filter (fun r => r.2 = p) t = [].
Proof.
  intros Hp. apply elem_of_nil_inv. intros r [Hr1 Hr2]%list_elem_of_filter.
  apply Hp, list_elem_of_fmap. eauto.
Qed.

Lemma graph_counts db seeds th g :
  build_graph db seeds th = Ok g ->
  (forall p, open_count g p = distinct_ips (filter (fun r => r.2 = p) (table db)))
  /\ (forall i j, i <> j ->
       default 0 (default ∅ (co_occurring g i) !! j) = distinct_ips (with_both (table db) i j))
  /\ pg_total g = Z.max 1 (distinct_ips (table db))
  /\ (forall p, p ∈ recommendations g <-> p ∈ (table db).*2 \/ p ∈ seeds).
Proof.
  unfold build_graph. destruct (select_count_ips db) as [n|] eqn:En; simpl; [|done].
  apply count_ips_law in En as ->. destruct (Z.eqb_spec (distinct_ips (table db)) 0) as [Hz|Hz].
  { intros [= <-]. destruct (port_graph_counts ∅ ∅ 0 seeds th) as (Hco & Hrec & _).
    apply distinct_zero in Hz as ->. split_and!; [done|intros i j _; by rewrite Hco|done|].
    intros p. rewrite Hrec, lookup_empty. simpl. rewrite elem_of_nil. unfold is_Some. naive_solver. }
  destruct (select_ports db) as [ports|] eqn:Ep; simpl; [|done].
  destruct (select_pairs db) as [pairs|] eqn:Ec; simpl; [|done]. intros [= <-].
  destruct (ports_law db ports Ep) as [Hnd Hports]. destruct (pairs_law db pairs Ec) as [Hnd2 Hpairs].
  set (singles := collect_map ports). set (co := collect_map _).
  destruct (port_graph_counts singles co (distinct_ips (table db)) seeds th) as (Hco & Hrec & _).
  split_and!.
  - intros p. change (default 0 (singles !! p) = distinct_ips (filter (fun r => r.2 = p) (table db))).
    destruct (singles !! p) as [c|] eqn:Es; simpl.
    + apply (collect_map_lookup ports p c Hnd), Hports in Es as [_ ->]. done.
    + rewrite no_port_zero; [done|]. intros Hp. set (c := distinct_ips (filter (fun r => r.2 = p) (table db))).
      assert (Hin : (p, c) ∈ ports) by (by apply Hports).
      apply collect_map_lookup in Hin; [|done]. unfold singles in Es. congruence.
  - intros i j Hij. rewrite Hco. destruct (co !! (i, j)) as [c|] eqn:Es; simpl.
    + apply (pair_lookup pairs i j c Hnd2), Hpairs in Es as (_ & _ & ->). done.
    + destruct (with_both (table db) i j) as [|r l] eqn:Ew; [done|].
      assert (Hin : (i, j, distinct_ips (r :: l)) ∈ pairs) by (apply Hpairs; by rewrite Ew).
      apply pair_lookup in Hin; [|done]. unfold co in Es. congruence.
  - unfold PortGraph_from_counts. simpl. lia.
  - intros p. rewrite Hrec. apply or_iff_compat_r. split.
    + intros [c Hc]. by apply (collect_map_lookup ports p c Hnd), Hports in Hc as [? _].
    + intros Hp. eexists. apply collect_map_lookup; [done|]. by apply Hports.
Qed.

End server.

Section writing.
Context {Db Row : Type} `{ClickhouseLaws Db Row}.

Lemma write_rows_table rows : forall db i db' i',
  write_rows db i rows = (db', Ok i') ->
  table db' ++ (row_key <$> pending i') = table db ++ (row_key <$> pending i) ++ (row_key <$> rows).
Proof.
  induction rows as [|row rows IH]; intros db i db' i'; simpl.
  { intros [= -> ->]. by rewrite app_nil_r. }
  destruct (insert_write db i row) as [db1 [i1|e]] eqn:Ew; [|done]. intros Hr.
  apply IH in Hr. apply write_law in Ew. rewrite Hr, app_assoc, Ew, <- !app_assoc. done.
Qed.

Lemma write_many_table db rows db' :
  write_many db rows = (db', Ok tt) -> table db' = table db ++ (row_key <$> rows).
Proof.
  unfold write_many. destruct rows as [|row rows]; [intros [= ->]; by rewrite app_nil_r|].
  destruct (insert_open db) as [db1 [i|e]] eqn:Eo; [|done].
  destruct (write_rows db1 i (row :: rows)) as [db2 [i2|e]] eqn:Ew; [|done]. intros He.
  apply open_law in Eo. apply write_rows_table in Ew. apply end_law in He as ->.
  rewrite Ew, app_assoc, Eo. done.
Qed.

End writing.

(** ** Lemmas: targets *)

(** The numbers below the total are those of the addresses, one each. *)
Lemma compile_numbers (r : Ipv4Ranges) :
  ordered_from 0 (inner r) ->
  (forall x, (exists ix, 0 <= ix < total (compile r) /\ index (compile r) ix = Ret x)
     <-> covers (inner r) x)
  /\ (forall i j x, 0 <= i -> 0 <= j ->
       index (compile r) i = Ret x -> index (compile r) j = Ret x -> i = j)
  /\ forall ix, total (compile r) <= ix -> index (compile r) ix = Fault Panic.
Proof.
  intros Ho. pose proof (compile_total r 0 ltac:(lia) Ho) as Ht.
  assert (Hix : forall ix, 0 <= ix < total (compile r) -> exists x,
    addrs (inner r) !! Z.to_nat ix = Some x /\ index (compile r) ix = Ret x).
  { intros ix Hix. destruct (lookup_lt_is_Some_2 (addrs (inner r)) (Z.to_nat ix)) as [x Hx]; [lia|].
    exists x. split; [done|]. apply (index_ok r 0); [lia|done|lia|done]. }
  assert (Hout : forall ix, total (compile r) <= ix -> index (compile r) ix = Fault Panic)
    by (intros; by apply (index_panics r 0)).
  split_and!; [|intros i j x Hi Hj Ei Ej|done].
  - intros x. rewrite <- elem_of_addrs, list_elem_of_lookup. split.
    + intros (ix & Hb & He). destruct (Hix ix Hb) as (y & Hy & Hy'). exists (Z.to_nat ix). congruence.
    + intros [n Hn]. pose proof (lookup_lt_Some _ _ _ Hn). exists (Z.of_nat n). split; [lia|].
      apply (index_ok r 0); [lia|done|lia|]. by rewrite Nat2Z.id.
  - destruct (decide (i < total (compile r))) as [Hi'|]; [|by rewrite Hout in Ei by lia].
    destruct (decide (j < total (compile r))) as [Hj'|]; [|by rewrite Hout in Ej by lia].
    destruct (Hix i ltac:(lia)) as (y & Hy & Hy'), (Hix j ltac:(lia)) as (z & Hz & Hz').
    assert (y = x) as -> by congruence. assert (z = x) as -> by congruence.
    pose proof (NoDup_lookup _ _ _ _ (addrs_NoDup 0 (inner r) Ho) Hy Hz). lia.
Qed.

Section targets.
Context {Db Row : Type} `{ClickhouseLaws Db Row}.

(** The addresses the first [n] rows of a rescan name. *)
Definition among (n : nat) (db : Db) (x : Ipv4Addr) : Prop :=
  exists c, fetch_ips db = Ok c /\ x ∈ oks (take n c).

(** The addresses a selector asks for: all, or those of the first [count] rows,
    as the documentation of [max_count] says. *)
Definition asked (self : Selector) (db : Db) (x : Ipv4Addr) : Prop :=
  match self with
  | AllSelector => in_u32 x
  | RescanSelector count => among (Z.to_nat count) db x
  end.

(** The addresses that are read: a rescan reads one row at least. *)
Definition selected (self : Selector) (db : Db) (x : Ipv4Addr) : Prop :=
  match self with
  | AllSelector => in_u32 x
  | RescanSelector count => among (rows_read count 0) db x
  end.

(** A rescan of one address or more. *)
Definition some_wanted (self : Selector) : Prop :=
  match self with AllSelector => True | RescanSelector count => 0 < count end.

Lemma selected_asked self db x : some_wanted self -> selected self db x <-> asked self db x.
Proof.
  destruct self as [|count]; [done|]. simpl. intros Hc. unfold rows_read.
  replace (Z.max 1 (count - Z.of_nat 0)) with count by lia. done.
Qed.

(** The rows a rescan needs do not arrive. *)
Definition unanswered (self : Selector) (db : Db) : Prop :=
  match self with
  | AllSelector => False
  | RescanSelector count =>
      match fetch_ips db with Ok c => ~ intact (take (rows_read count 0) c) | Err _ => True end
  end.

Lemma select_spec self db :
  match select self db with
  | Ok r => ordered_from 0 (inner r) /\ (forall x, covers (inner r) x <-> selected self db x)
  | Err _ => unanswered self db
  end.
Proof.
  destruct self as [|count]; simpl.
  { split; [lia|]. intros x. unfold covers, in_width. rewrite Exists_cons, Exists_nil. simpl. lia. }
  unfold read_ranges. destruct (fetch_ips db) as [c|[]] eqn:Ef; cbn [mbind result_bind]; [|done].
  rewrite read_ranges_loop_eq. cbn [length]. destruct (decide _) as [Hi|Hi]; cbn [mbind result_bind]; [|done].
  rewrite app_nil_l. destruct (ips_law db c Ef) as (Hnd & Hin & _).
  set (l := oks (take (rows_read count 0) c)). pose proof (oks_take (rows_read count 0) c) as Hsub. fold l in Hsub.
  assert (Hw : Forall in_u32 l).
  { apply Forall_forall. intros x Hx. eapply elem_of_sublist in Hx; [|exact Hsub].
    apply Hin in Hx. apply list_elem_of_fmap in Hx as (r & -> & Hr).
    by apply (proj1 (Forall_forall _ _) (table_width db)). }
  pose proof (merge_sort_Permutation Z.le l) as Hp. split.
  - apply ordered_addrs; [apply (StronglySorted_merge_sort Z.le)|..].
    + rewrite Hp. by eapply sublist_NoDup.
    + eapply Permutation_Forall; [symmetry; exact Hp|done].
    + eapply Permutation_Forall; [symmetry; exact Hp|]. eapply Forall_impl; [exact Hw|]. by intros x [? _].
  - intros x. rewrite covers_addrs, Hp. unfold among. split; [by exists c|].
    intros (c' & E & Hx). rewrite Ef in E. by injection E as <-.
Qed.

End targets.

(** ** Theorems *)

(** C32: the statistics the strategies start from say what is stored.  Every
    count of the port graph that is built is the number of distinct addresses
    with that port (with both ports, for pairs), the total is the number of
    addresses (at least 1), the ports on offer are those stored and the seeds;
    and the score of a prefix is the number of rows of its addresses.  When a
    query or a row of one fails, there is an error and no graph. *)
Theorem statistics_counts {Db Row} `{ClickhouseLaws Db Row} `{HashIter} (db : Db) (seeds : list Z) (th : Z) :
  (forall g, build_graph db seeds th = Ok g ->
     (forall p, open_count g p = distinct_ips (filter (fun r => r.2 = p) (table db)))
     /\ (forall i j, i <> j ->
          default 0 (default ∅ (co_occurring g i) !! j) = distinct_ips (with_both (table db) i j))
     /\ pg_total g = Z.max 1 (distinct_ips (table db))
     /\ (forall p, p ∈ recommendations g <-> p ∈ (table db).*2 \/ p ∈ seeds))
  /\ match build_prefix_graph db with
     | Ok g => forall p, historical_score g p
                 = u64_of (zlen (filter (fun r => Z.shiftr r.1 8 = p) (table db)))
     | Err _ => fetch_hits db = Err tt \/ exists c, fetch_hits db = Ok c /\ ~ intact c
     end.
Proof.
  split; [apply graph_counts|]. unfold build_prefix_graph.
  destruct (fetch_hits db) as [c|[]] eqn:Ef; cbn [mbind result_bind]; [|by left].
  pose proof (prefix_hits_loop_eq c ∅) as Hl.
  destruct (prefix_hits_loop c ∅) as [m|[]]; cbn [mbind result_bind].
  - destruct Hl as [Hi Hp]; [by intros p; rewrite lookup_empty|]. intros p.
    change (historical_score (from_counts m) p) with (default 0 (m !! p)).
    rewrite Hp, lookup_empty. simpl. by rewrite (prefix_counts db c p Ef Hi).
  - right. exists c. split; [done|]. apply Hl. intros p. by rewrite lookup_empty.
Qed.


(** ** A server in memory *)

Definition mem_table (db : list (Z * Z)) : list (Ipv4Addr * Z) := (fun r => (u32_of r.1, r.2)) <$> db.

(** Grouping by a key: each key once, with a count. *)
Definition grouped {K} `{EqDecision K} (f : K -> Z) (ks : list K) : list (K * Z) :=
  (fun k => (k, f k)) <$> remove_dups ks.

Lemma grouped_fst {K} `{EqDecision K} (f : K -> Z) ks : (grouped f ks).*1 = remove_dups ks.
Proof. unfold grouped. rewrite <- list_fmap_compose. apply list_fmap_id. Qed.

Lemma elem_of_grouped {K} `{EqDecision K} (f : K -> Z) ks k c :
  (k, c) ∈ grouped f ks <-> k ∈ ks /\ c = f k.
Proof.
  unfold grouped. rewrite list_elem_of_fmap. setoid_rewrite elem_of_remove_dups. naive_solver.
Qed.

Definition pair_keys (t : list (Ipv4Addr * Z)) : list (Z * Z) :=
  filter (fun k => k.1 <> k.2 /\ with_both t k.1 k.2 <> []) (i ← t.*2; j ← t.*2; [(i, j)]).

Lemma elem_of_pair_keys t i j : (i, j) ∈ pair_keys t <-> i <> j /\ with_both t i j <> [].
Proof.
  unfold pair_keys. rewrite list_elem_of_filter. simpl. split; [tauto|]. intros [Hij Hw].
  split; [done|]. destruct (with_both t i j) as [|r l] eqn:E; [done|].
  assert (Hr : r ∈ with_both t i j) by (rewrite E; constructor).
  apply list_elem_of_filter in Hr as [[Hr1 Hr2] Hr3].
  rewrite list_elem_of_bind. exists i. rewrite list_elem_of_bind. split.
  - exists j. split; [by apply list_elem_of_singleton|]. apply list_elem_of_fmap. by exists (r.1, j).
  - apply list_elem_of_fmap. by exists r.
Qed.

Lemma oks_all {A} (l : list A) : oks (Ok <$> l) = l /\ intact (Ok <$> l).
Proof.
  induction l as [|a l [IH1 IH2]]; [split; [done|constructor]|]. cbn. split; [by f_equal|by apply intact_cons].
Qed.

Definition mem_clickhouse {Row} (key : Row -> Z * Z) : Clickhouse (list (Z * Z)) Row := {|
  Insertion := list Row;
  select_count_ips db := Ok (distinct_ips (mem_table db));
  select_ports db := Ok (grouped (fun p => distinct_ips (filter (fun r => r.2 = p) (mem_table db)))
                           (mem_table db).*2);
  select_pairs db := Ok (grouped (fun k => distinct_ips (with_both (mem_table db) k.1 k.2))
                           (pair_keys (mem_table db)));
  fetch_hits db := Ok (Ok <$> grouped (fun ip => zlen (filter (fun r => r.1 = ip) (mem_table db)))
                                (mem_table db).*1);
  fetch_ips db := Ok (Ok <$> remove_dups (mem_table db).*1);
  insert_open db := (db, Ok []);
  insert_write db i row := (db, Ok (i ++ [row]));
  insert_end db i := (db ++ (key <$> i), Ok tt) |}.

Program Definition mem_clickhouse_laws {Row} (key : Row -> Z * Z)
    : @ClickhouseLaws (list (Z * Z)) Row (mem_clickhouse key) := {|
  table := mem_table;
  row_key r := (u32_of (key r).1, (key r).2);
  pending i := i |}.
Next Obligation.
  intros Row key db. apply Forall_fmap, Forall_forall. intros r _. by apply wrap_width.
Qed.
Next Obligation. by intros Row key db n [= <-]. Qed.
Next Obligation.
  intros Row key db rows [= <-]. rewrite grouped_fst. split; [apply NoDup_remove_dups|]. intros p c. by rewrite elem_of_grouped.
Qed.
Next Obligation.
  intros Row key db rows [= <-]. rewrite grouped_fst. split; [apply NoDup_remove_dups|]. intros i j c.
  rewrite elem_of_grouped, elem_of_pair_keys. simpl. tauto.
Qed.
Next Obligation.
  intros Row key db c [= <-] _. rewrite (proj1 (oks_all _)), grouped_fst.
  split; [apply NoDup_remove_dups|]. intros ip n. by rewrite elem_of_grouped.
Qed.
Next Obligation.
  intros Row key db c [= <-]. rewrite (proj1 (oks_all _)). split; [apply NoDup_remove_dups|].
  split; [|intros _]; intros ip; by rewrite elem_of_remove_dups.
Qed.
Next Obligation. intros Row key db db' i [= <- <-]. apply app_nil_r. Qed.
Next Obligation. intros Row key db i row db' i' [= <- <-]. by rewrite fmap_app. Qed.
Next Obligation.
  intros Row key db i db' [= <-]. unfold mem_table. by rewrite fmap_app, <- list_fmap_compose.
Qed.
Global Instance mem_server : Clickhouse (list (Z * Z)) (Z * Z) := mem_clickhouse id.
Global Instance mem_server_laws : ClickhouseLaws (list (Z * Z)) (Z * Z) := mem_clickhouse_laws id.

Definition demo_db : list (Z * Z) :=
  [(167772165, 25565); (167772160, 25565); (167772160, 25566); (167772175, 25565); (2130706433, 22)].

Lemma statistics_counts_witness :
  exists g, build_graph demo_db [19132] 3 = Ok g
    /\ open_count g 25565 = distinct_ips (filter (fun r => r.2 = 25565) (mem_table demo_db))
    /\ historical_score (match build_prefix_graph demo_db with Ok g => g | Err _ => from_counts ∅ end) 655360 = 4.
Proof.
  destruct (statistics_counts demo_db [19132] 3) as [Hg Hp].
  destruct (build_graph demo_db [19132] 3) as [g|e] eqn:E; [|by vm_compute in E].
  exists g. split; [done|]. split; [apply (Hg g eq_refl)|]. by vm_compute.
Defined.


(** A rescan of no address is one of one. *)
Example rescan_none : read_ranges demo_db 0 = Ok [167772165].
Proof. by vm_compute. Qed.
