(* ===== verification/Session.v ===== *)
(** * The housekeeping thread: [spawn_printer_and_database] of
    [controller/session.rs], [controller/printer.rs]

    One thread of a session prints the counters, expires port states and
    writes the hits to the database in batches. *)

From S2P Require Import Prelude Float Ranges Prefix Rand PortGraph Database.

(** ** [printer.rs] *)

Record Printer : Type := mkPrinter { print_every : Z; last_print : Z }.

Inductive pps_unit : Set := Mpps | Kpps | Pps.

(** The unit and the number printed for a rate. *)
Definition shown (pps : f64) : pps_unit * Z :=
  if f64_lt (f64_of_Z 10000000) pps then (Mpps, f64_as_u64 (f64_round (f64_div pps (f64_of_Z 1000000))))
  else if f64_lt (f64_of_Z 10000) pps then (Kpps, f64_as_u64 (f64_round (f64_div pps (f64_of_Z 1000))))
  else (Pps, f64_as_u64 (f64_round pps)).

(** What is printed, if anything, the printer and the two counters after. *)
Definition printer_tick (self : Printer) (now completed filled : Z)
    : option (pps_unit * Z * (pps_unit * Z)) * Printer * Z * Z :=
  let elapsed := Z.max 0 (now - last_print self) in
  if elapsed <? print_every self then (None, self, completed, filled)
  else
    let tx := shown (f64_div (f64_of_Z completed) (as_secs_f64 elapsed)) in
    let rx := shown (f64_div (f64_of_Z filled) (as_secs_f64 elapsed)) in
    (Some (tx, rx), mkPrinter (print_every self) now, 0, 0).

(** ** [spawn_printer_and_database] *)

(** [PortExpirer]. *)
Class PortExpirer (E : Type) : Type := { expirer_expire : E -> Z -> E }.

(** A write handed to the runtime, which may already have run. *)
Inductive write_task (Row : Type) : Type :=
  | Queued (rows : list Row)
  | Finished.
Arguments Queued {Row} _.
Arguments Finished {Row}.

(** What [select!] finds: rows from the queue (the one received and all that
    [try_recv] gives behind it), the tick of the interval, or the end of the
    queue; and whether the runtime ran the pending write meanwhile.  The clock
    is read up to three times in a turn. *)
Inductive select_event (Row : Type) : Type :=
  | Received (row : Row) (more : list Row)
  | Housekeeping
  | Closed.
Arguments Received {Row} _ _.
Arguments Housekeeping {Row}.
Arguments Closed {Row}.

Record wake (Row : Type) : Type := mkWake {
  w_event : select_event Row;
  w_ran : bool;
  w_now : Z;
  w_checked : Z;
  w_flushed : Z;
  w_completed : Z;
  w_filled : Z }.
Arguments mkWake {Row} _ _ _ _ _ _ _.
Arguments w_event {Row} _.
Arguments w_ran {Row} _.
Arguments w_now {Row} _.
Arguments w_checked {Row} _.
Arguments w_flushed {Row} _.
Arguments w_completed {Row} _.
Arguments w_filled {Row} _.

Section writer.
Context {Db Row E : Type} `{Clickhouse Db Row} `{PortExpirer E}.

(** [attempts] are the calls of [write_many], in order, with whether each
    succeeded. *)
Record writer : Type := mkWriter {
  wr_batch : list Row;
  wr_last_flush : Z;
  wr_printer : Printer;
  wr_task : option (write_task Row);
  wr_expirer : E;
  wr_db : Db;
  wr_attempts : list (list Row * bool) }.

Definition writer_new (db : Db) (e : E) (now every : Z) : writer :=
  mkWriter [] now (mkPrinter every now) None e db [].

(** One call of [write_many]; an error is logged. *)
Definition perform (rows : list Row) (self : writer) : writer :=
  let '(db, r) := write_many (wr_db self) rows in
  mkWriter (wr_batch self) (wr_last_flush self) (wr_printer self) (wr_task self) (wr_expirer self) db
    (wr_attempts self ++ [(rows, match r with Ok _ => true | Err _ => false end)]).

Definition set_task (t : option (write_task Row)) (self : writer) : writer :=
  mkWriter (wr_batch self) (wr_last_flush self) (wr_printer self) t (wr_expirer self) (wr_db self)
    (wr_attempts self).

Definition set_batch (b : list Row) (now : Z) (self : writer) : writer :=
  mkWriter b now (wr_printer self) (wr_task self) (wr_expirer self) (wr_db self) (wr_attempts self).

(** The runtime runs the pending write. *)
Definition run_task (self : writer) : writer :=
  match wr_task self with
  | Some (Queued rows) => set_task (Some Finished) (perform rows self)
  | _ => self
  end.

(** [if let Some(handle) = write_task.take() { handle.await }]. *)
Definition join (self : writer) : writer := set_task None (run_task self).

(** The flush at the end of a turn. *)
Definition flush (flush_capacity flush_interval : Z) (t : wake Row) (self : writer) : writer :=
  if (flush_capacity <=? zlen (wr_batch self))
     || (negb (bool_decide (length (wr_batch self) = 0%nat))
         && (flush_interval <=? w_checked t - wr_last_flush self))
  then
    let self := join self in
    let to_write := wr_batch self in
    set_batch [] (w_flushed t) (set_task (Some (Queued to_write)) self)
  else self.

(** One turn of the [loop]; [inr] is [break]. *)
Definition wake_up (flush_capacity flush_interval : Z) (t : wake Row) (self : writer) : writer + writer :=
  let self := if w_ran t then run_task self else self in
  let turn b :=
    let '(_, printer, _, _) := printer_tick (wr_printer self) (w_now t) (w_completed t) (w_filled t) in
    let self := mkWriter b (wr_last_flush self) printer (wr_task self)
                  (expirer_expire (wr_expirer self) (w_now t)) (wr_db self) (wr_attempts self) in
    inl (flush flush_capacity flush_interval t self) in
  match w_event t with
  | Received row more => turn (wr_batch self ++ row :: more)
  | Housekeeping => turn (wr_batch self)
  | Closed => inr self
  end.

(** After the loop: the pending write, then what is left. *)
Definition wind_up (self : writer) : writer :=
  let self := join self in
  match wr_batch self with
  | [] => self
  | b => perform b self
  end.

(** The loop and what follows it.  [inl] when the wake-ups are used up and
    the queue is still open. *)
Fixpoint writer_run (flush_capacity flush_interval : Z) (ts : list (wake Row)) (self : writer)
    : writer + writer :=
  match ts with
  | [] => inl self
  | t :: ts =>
      match wake_up flush_capacity flush_interval t self with
      | inl self => writer_run flush_capacity flush_interval ts self
      | inr self => inr (wind_up self)
      end
  end.

End writer.

(** ** Specification of the writer *)

(** The rows that arrive. *)
Definition arrived {Row} (ts : list (wake Row)) : list Row :=
  ts ≫= fun t => match w_event t with Received row more => row :: more | _ => [] end.

Definition closes {Row} (t : wake Row) : bool := match w_event t with Closed => true | _ => false end.

Section writer_lemmas.
Context {Db Row E : Type} `{ClickhouseLaws Db Row} `{PortExpirer E}.
Implicit Types self : @writer Db Row E.

Definition in_task (t : option (write_task Row)) : list Row :=
  match t with Some (Queued rows) => rows | _ => [] end.

Definition attempted self : list Row := concat (wr_attempts self).*1.

(** Every row is in a write that was made, in the one that is pending, or in
    the batch, in the order of arrival. *)
Definition handed self : list Row := attempted self ++ in_task (wr_task self) ++ wr_batch self.

(** Without failed writes the table has grown by what was written. *)
Definition stored (db : Db) self : Prop :=
  Forall (fun a => a.2 = true) (wr_attempts self) ->
  table (wr_db self) = table db ++ (row_key <$> attempted self).

Lemma perform_ok db rows self :
  stored db self -> stored db (perform rows self) /\ attempted (perform rows self) = attempted self ++ rows
  /\ wr_batch (perform rows self) = wr_batch self /\ wr_task (perform rows self) = wr_task self.
Proof.
  intros Hs. unfold perform, attempted. destruct (write_many (wr_db self) rows) as [db' r] eqn:Ew.
  cbn [wr_attempts wr_batch wr_task]. rewrite fmap_app, concat_app. simpl. rewrite app_nil_r.
  split_and!; try done. unfold stored, attempted. cbn [wr_attempts wr_db].
  rewrite Forall_app, fmap_app, concat_app. simpl. rewrite app_nil_r, fmap_app, app_assoc.
  intros [Ha Hr]. apply Forall_cons in Hr as [Hr _]. destruct r as [[]|]; [|done].
  apply write_many_table in Ew as ->. f_equal. by apply Hs.
Qed.

Lemma run_task_ok db self :
  stored db self -> stored db (run_task self) /\ handed (run_task self) = handed self
  /\ wr_batch (run_task self) = wr_batch self /\ in_task (wr_task (run_task self)) = [].
Proof.
  intros Hs. unfold run_task. destruct (wr_task self) as [[rows|]|] eqn:Et; [|by rewrite Et..].
  destruct (perform_ok db rows self Hs) as (Hp & Ha & Hb & _). split_and!; [done| |done|done].
  unfold handed. change (attempted (set_task (Some Finished) (perform rows self))) with (attempted (perform rows self)).
  rewrite Ha, Et. simpl. by rewrite Hb, <- app_assoc.
Qed.

Lemma join_ok db self :
  stored db self -> stored db (join self) /\ handed (join self) = handed self
  /\ wr_batch (join self) = wr_batch self /\ wr_task (join self) = None.
Proof.
  intros Hs. destruct (run_task_ok db self Hs) as (Hp & Ha & Hb & Ht). unfold join.
  split_and!; [done| |done|done]. rewrite <- Ha. unfold handed. rewrite Ht. done.
Qed.

(** Nothing waits longer than it may. *)
Definition not_overdue (flush_capacity flush_interval : Z) (t : wake Row) self : Prop :=
  wr_batch self = [] \/ (zlen (wr_batch self) < flush_capacity
                         /\ w_checked t - wr_last_flush self < flush_interval).

Lemma flush_ok db fc fi t self :
  stored db self -> stored db (flush fc fi t self) /\ handed (flush fc fi t self) = handed self
  /\ not_overdue fc fi t (flush fc fi t self).
Proof.
  intros Hs. unfold flush, not_overdue.
  destruct (Z.leb_spec fc (zlen (wr_batch self))) as [Hc|Hc]; cbn [orb].
  2: destruct (bool_decide _) eqn:Eb; cbn [negb andb].
  2: { apply bool_decide_eq_true, length_zero_iff_nil in Eb. split_and!; [done..|by left]. }
  2: destruct (Z.leb_spec fi (w_checked t - wr_last_flush self)) as [Hi|Hi].
  3: { split_and!; [done..|by right]. }
  all: destruct (join_ok db self Hs) as (Hp & Ha & Hb & Ht); split_and!; [done| |by left];
    rewrite <- Ha; unfold handed; rewrite Ht; cbn; by rewrite app_nil_r.
Qed.

Lemma wake_up_ok db fc fi t self :
  stored db self ->
  match wake_up fc fi t self with
  | inl self' => closes t = false /\ stored db self' /\ handed self' = handed self ++ arrived [t]
                 /\ not_overdue fc fi t self'
  | inr self' => closes t = true /\ stored db self' /\ handed self' = handed self
  end.
Proof.
  intros Hs. unfold wake_up, closes. assert (Harr : arrived [t] = match w_event t with
    Received row more => row :: more | _ => [] end) by apply app_nil_r.
  rewrite Harr. clear Harr.
  set (self1 := if w_ran t then run_task self else self).
  assert (Hs1 : stored db self1 /\ handed self1 = handed self).
  { unfold self1. destruct (w_ran t); [|done]. destruct (run_task_ok db self Hs) as (? & ? & _). done. }
  destruct Hs1 as [Hs1 <-]. clearbody self1.
  assert (Hturn : forall b more printer e, b = wr_batch self1 ++ more ->
    let self2 := mkWriter b (wr_last_flush self1) printer (wr_task self1) e (wr_db self1) (wr_attempts self1) in
    stored db self2 /\ handed self2 = handed self1 ++ more).
  { intros b more printer e -> self2. split; [done|]. unfold handed. cbn. by rewrite !app_assoc. }
  destruct (w_event t) as [row more| |]; simpl; [| |done];
    destruct (printer_tick (wr_printer self1) (w_now t) (w_completed t) (w_filled t)) as [[[? printer] ?] ?].
  - destruct (Hturn (wr_batch self1 ++ row :: more) (row :: more) printer
      (expirer_expire (wr_expirer self1) (w_now t)) eq_refl) as [H1' H2'].
    edestruct (flush_ok db fc fi t _ H1') as (? & Hh & ?). split_and!; [done..| |done]. by rewrite Hh, H2'.
  - destruct (Hturn (wr_batch self1) [] printer (expirer_expire (wr_expirer self1) (w_now t))) as [H1' H2'];
      [by rewrite app_nil_r|].
    edestruct (flush_ok db fc fi t _ H1') as (? & Hh & ?). split_and!; [done..| |done]. rewrite Hh, H2'. done.
Qed.

Lemma arrived_app (a b : list (wake Row)) : arrived (a ++ b) = arrived a ++ arrived b.
Proof. unfold arrived. apply bind_app. Qed.

Lemma writer_run_open db fc fi ts : forall self,
  stored db self -> Forall (fun t => closes t = false) ts ->
  exists self', (forall rest, writer_run fc fi (ts ++ rest) self = writer_run fc fi rest self')
    /\ stored db self' /\ handed self' = handed self ++ arrived ts.
Proof.
  induction ts as [|t ts IH]; intros self Hs Ho.
  { exists self. unfold arrived. simpl. rewrite app_nil_r. done. }
  apply Forall_cons in Ho as [Ht Ho]. pose proof (wake_up_ok db fc fi t self Hs) as Hw.
  destruct (wake_up fc fi t self) as [self1|self1] eqn:Ew; [|destruct Hw as [Hc _]; congruence].
  destruct Hw as (_ & Hs1 & Hh1 & _). destruct (IH self1 Hs1 Ho) as (self' & Hr & Hs' & Hh').
  exists self'. split_and!; [intros rest; simpl; by rewrite Ew, Hr|done|].
  rewrite Hh', Hh1, <- app_assoc, <- arrived_app. done.
Qed.

Lemma wind_up_ok db self :
  stored db self -> stored db (wind_up self) /\ attempted (wind_up self) = handed self
  /\ wr_task (wind_up self) = None.
Proof.
  intros Hs. destruct (join_ok db self Hs) as (Hs1 & Hh & Hb & Ht). unfold wind_up.
  rewrite <- Hh. unfold handed. rewrite Ht. cbn [in_task].
  destruct (wr_batch (join self)) as [|row rows] eqn:Eb.
  - split_and!; [done| |done]. by rewrite !app_nil_r.
  - destruct (perform_ok db (row :: rows) (join self) Hs1) as (Hs2 & Ha & _ & Ht2).
    split_and!; [done|by rewrite Ha|by rewrite Ht2].
Qed.

End writer_lemmas.

(** ** Theorem: the writer *)

(** No hit is lost on the way to the database.  However rows, ticks of
    the interval and the runtime interleave: while the queue is open, every
    row that has arrived is in a write that was made, in the one write that is
    pending, or in the batch, in order of arrival and once, and at the end of a
    turn the batch is neither full nor overdue; when the queue closes, the
    loop ends, no write is pending and the writes made are exactly the rows
    that arrived, in order, so that without failures the table has grown by
    just them. *)
Theorem writer_complete {Db Row E} `{ClickhouseLaws Db Row} `{PortExpirer E} (fc fi : Z) (db : Db) (e : E)
    (now every : Z) (ts : list (wake Row)) (t : wake Row) :
  Forall (fun t => closes t = false) ts ->
  match writer_run fc fi (ts ++ [t]) (writer_new db e now every) with
  | inl self => closes t = false /\ handed self = arrived (ts ++ [t]) /\ not_overdue fc fi t self
  | inr self => closes t = true /\ wr_task self = None /\ attempted self = arrived ts
      /\ (Forall (fun a => a.2 = true) (wr_attempts self) ->
          table (wr_db self) = table db ++ (row_key <$> arrived ts))
  end.
Proof.
  intros Ho. assert (Hs0 : stored db (writer_new (Row := Row) db e now every)).
  { intros _. symmetry. apply app_nil_r. }
  destruct (writer_run_open db fc fi ts (writer_new db e now every) Hs0 Ho) as (self & -> & Hs & Hh).
  simpl. pose proof (wake_up_ok db fc fi t self Hs) as Hw.
  destruct (wake_up fc fi t self) as [self1|self1].
  - destruct Hw as (? & ? & Hh1 & ?). split_and!; [done| |done]. rewrite Hh1, Hh, arrived_app. done.
  - destruct Hw as (? & Hs1 & Hh1). destruct (wind_up_ok db self1 Hs1) as (Hs2 & Ha & Ht).
    assert (Hall : attempted (wind_up self1) = arrived ts) by (rewrite Ha, Hh1, Hh; done).
    split_and!; [done..|]. intros Hok. rewrite <- Hall. by apply Hs2.
Qed.

(** ** Witness *)

Global Instance no_expirer : PortExpirer unit := {| expirer_expire e _ := e |}.

Definition demo_wakes : list (wake (Z * Z)) :=
  [mkWake (Received (5, 80) [(6, 80)]) false 10 10 10 100 100; mkWake Housekeeping false 20 20 20 0 0;
   mkWake (Received (7, 81) []) true 30 30 31 0 0; mkWake (Received (8, 81) [(9, 9)]) false 40 40 41 0 0].
Definition demo_close : wake (Z * Z) := mkWake Closed false 50 50 50 0 0.

Lemma writer_complete_witness :
  match writer_run 2 15 (demo_wakes ++ [demo_close]) (writer_new demo_db tt 0 1000) with
  | inl self => closes demo_close = false /\ handed self = arrived (demo_wakes ++ [demo_close])
      /\ not_overdue 2 15 demo_close self
  | inr self => closes demo_close = true /\ wr_task self = None /\ attempted self = arrived demo_wakes
      /\ (Forall (fun a => a.2 = true) (wr_attempts self) ->
          table (wr_db self) = table demo_db ++ (row_key <$> arrived demo_wakes))
  end.
Proof.
  refine (writer_complete 2 15 demo_db tt 0 1000 demo_wakes demo_close _).
  repeat constructor.
Defined.

Example demo_writes :
  match writer_run 2 15 (demo_wakes ++ [demo_close]) (writer_new demo_db tt 0 1000) with
  | inl _ => []
  | inr self => wr_attempts self
  end = [([(5, 80); (6, 80)], true); ([(7, 81)], true); ([(8, 81); (9, 9)], true)].
Proof. vm_compute. reflexivity. Qed.
