(* ===== verification/Xdp.v ===== *)
(** * The packet filter: [farsight-ebpf/src/xdp.rs]

    The program the kernel runs on every frame the interface receives: it
    steers the answers to our probes into the sockets and lets everything else
    pass to the network stack. *)

From S2P Require Import Prelude.

(** What the filter uses of the [network-types] crate: [Ipv4Hdr::ihl], on the
    first byte of the header, gives the header length in 32-bit words. *)
Class NetworkTypes : Type := {
  ihl : Z -> Z;
  ihl_spec b : 0 <= b < 256 -> ihl b = Z.land b 15 }.

(** The globals the loader sets. *)
Record Globals : Type := mkGlobals {
  SOURCE_PORT_START : Z;
  SOURCE_PORT_END : Z;
  USABLE_QUEUES : Z }.

Inductive verdict : Type :=
  | XDP_PASS
  | XDP_REDIRECT (queue : Z).

Definition EthHdr_LEN : Z := 14.
Definition Ipv4Hdr_LEN : Z := 20.
Definition TcpHdr_LEN : Z := 20.

Section xdp.
Context `{NetworkTypes}.
(** Whether the map has a socket for a queue. *)
Context (SOCKS : Z -> bool).

(** [ptr_at]: the offset, if that many bytes are inside the frame. *)
Definition ptr_at (data : list Z) (offset len : Z) : result unit Z :=
  if zlen data <? offset + len then Err tt else Ok offset.

Definition byte (data : list Z) (i : Z) : Z := nth (Z.to_nat i) data 0.

(** [try_farsight_xdp]; a remainder by zero reaches the panic handler, which
    is declared unreachable. *)
Definition try_farsight_xdp (g : Globals) (data : list Z) (rx_queue_index : Z)
    : outcome (result unit verdict) :=
  if SOURCE_PORT_START g =? 0 then Ret (Err tt)
  else if SOURCE_PORT_END g =? 0 then Ret (Err tt)
  else
    match ptr_at data 0 EthHdr_LEN with
    | Err e => Ret (Err e)
    | Ok ethhdr =>
        if negb (be16 (byte data (ethhdr + 12)) (byte data (ethhdr + 13)) =? 0x0800) then Ret (Ok XDP_PASS)
        else
          match ptr_at data EthHdr_LEN Ipv4Hdr_LEN with
          | Err e => Ret (Err e)
          | Ok ipv4hdr =>
              if negb (byte data (ipv4hdr + 9) =? 6) then Ret (Ok XDP_PASS)
              else
                let ihl := ihl (byte data ipv4hdr) in
                if ihl <? 5 then Ret (Ok XDP_PASS)
                else
                  match ptr_at data (EthHdr_LEN + 4 * ihl) TcpHdr_LEN with
                  | Err e => Ret (Err e)
                  | Ok tcphdr =>
                      let dest := be16 (byte data (tcphdr + 2)) (byte data (tcphdr + 3)) in
                      if (dest <? SOURCE_PORT_START g) || (SOURCE_PORT_END g <? dest) then
                        Ret (Ok XDP_PASS)
                      else if USABLE_QUEUES g =? 0 then Fault Undefined
                      else
                        let queue := rx_queue_index mod USABLE_QUEUES g in
                        Ret (Ok (if SOCKS queue then XDP_REDIRECT queue else XDP_PASS))
                  end
          end
    end.

Definition farsight_xdp (g : Globals) (data : list Z) (rx_queue_index : Z) : outcome verdict :=
  r ← try_farsight_xdp g data rx_queue_index;
  Ret match r with Ok v => v | Err _ => XDP_PASS end.

(** ** Specification *)

(** The frame is a whole TCP segment over IPv4, as far as its headers go, to
    one of the ports probes are sent from. *)
Definition for_us (g : Globals) (data : list Z) : Prop :=
  let words := Z.land (byte data 14) 15 in
  let tcp := 14 + 4 * words in
  be16 (byte data 12) (byte data 13) = 0x0800 /\ byte data 23 = 6 /\ 5 <= words
  /\ tcp + 20 <= zlen data
  /\ SOURCE_PORT_START g <= be16 (byte data (tcp + 2)) (byte data (tcp + 3)) <= SOURCE_PORT_END g.

Definition is_bytes (data : list Z) : Prop := Forall (fun b => 0 <= b < 256) data.

Lemma byte_range data i : is_bytes data -> 0 <= byte data i < 256.
Proof.
  intros Hb. unfold byte. destruct (nth_in_or_default (Z.to_nat i) data 0) as [Hin| ->]; [|lia].
  by apply (proj1 (Forall_forall _ _) Hb), list_elem_of_In.
Qed.

(** ** Properties *)

(** With its globals set, the filter takes exactly the frames that are for
    us, to the socket of the queue they arrived on (modulo the queues in use)
    if that queue has one; every other frame passes to the network stack. *)
Theorem xdp_filter_exact (g : Globals) (data : list Z) (q : Z) :
  is_bytes data -> 0 < SOURCE_PORT_START g -> 0 < SOURCE_PORT_END g -> 0 < USABLE_QUEUES g ->
  exists v, farsight_xdp g data q = Ret v
    /\ (for_us g data -> v = if SOCKS (q mod USABLE_QUEUES g)
                             then XDP_REDIRECT (q mod USABLE_QUEUES g) else XDP_PASS)
    /\ (~ for_us g data -> v = XDP_PASS).
Proof.
  intros Hb Hs He Hq. unfold farsight_xdp, try_farsight_xdp, ptr_at, for_us.
  unfold EthHdr_LEN, Ipv4Hdr_LEN, TcpHdr_LEN. cbv zeta.
  rewrite !(proj2 (Z.eqb_neq _ 0)) by lia.
  set (w := Z.land (byte data 14) 15). set (d := be16 (byte data (14 + 4 * w + 2)) _).
  assert (0 <= w) by (apply Z.land_nonneg; right; lia).
  destruct (Z.ltb_spec (zlen data) (0 + 14)); cbn [mbind outcome_bind].
  { eexists. split; [done|]. split; [intros (_ & _ & _ & ? & _); lia|done]. }
  change (0 + 12) with 12. change (0 + 13) with 13.
  destruct (Z.eqb_spec (be16 (byte data 12) (byte data 13)) 0x0800); cbn [mbind outcome_bind negb].
  2: { eexists. split; [done|]. split; [tauto|done]. }
  destruct (Z.ltb_spec (zlen data) (14 + 20)); cbn [mbind outcome_bind].
  { eexists. split; [done|]. split; [intros (_ & _ & _ & ? & _); lia|done]. }
  change (14 + 9) with 23.
  destruct (Z.eqb_spec (byte data 23) 6); cbn [mbind outcome_bind negb].
  2: { eexists. split; [done|]. split; [tauto|done]. }
  rewrite ihl_spec by (by apply byte_range). fold w.
  destruct (Z.ltb_spec w 5); cbn [mbind outcome_bind].
  { eexists. split; [done|]. split; [intros (_ & _ & ? & _); lia|done]. }
  destruct (Z.ltb_spec (zlen data) (14 + 4 * w + 20)); cbn [mbind outcome_bind].
  { eexists. split; [done|]. split; [intros (_ & _ & _ & ? & _); lia|done]. }
  fold d.
  destruct (Z.ltb_spec d (SOURCE_PORT_START g)), (Z.ltb_spec (SOURCE_PORT_END g) d);
    cbn [mbind outcome_bind orb].
  1-3: eexists; split; [done|]; split; [intros (_ & _ & _ & _ & ?); lia|done].
  eexists. split; [done|]. split; [done|]. intros Hn. exfalso. apply Hn. split_and!; done.
Qed.

End xdp.

(** ** Witnesses *)

#[local] Program Instance ex_types : NetworkTypes := {| ihl b := Z.land b 15 |}.
Next Obligation. done. Qed.

(** A SYN and ACK from port 25565 to port 40000. *)
Definition ex_frame : list Z :=
  [0;0;0;0;0;0; 0;0;0;0;0;0; 8;0; 69;0; 0;40; 0;1; 64;0; 64;6; 0;0; 1;2;3;4; 10;0;0;1;
   99;221; 156;64; 0;0;0;9; 0;0;0;5; 80;18; 0;0; 0;0; 0;0].

Lemma xdp_filter_exact_witness :
  farsight_xdp (fun q => q =? 1) (mkGlobals 40000 41000 2) ex_frame 5 = Ret (XDP_REDIRECT 1).
Proof.
  destruct (xdp_filter_exact (fun q => q =? 1) (mkGlobals 40000 41000 2) ex_frame 5)
    as (v & Hv & Hfor & _); [repeat constructor; lia|simpl; lia..|].
  rewrite Hv, Hfor; [reflexivity|]. vm_compute. split_and!; congruence.
Defined.
