(* ===== verification/Umem.v ===== *)
(** * Packet memory: [xdp/umem.rs], [xdp/page.rs], [xdp/tx_metadata.rs]

    The mapped area is its bytes.  A descriptor names a place in it; the code
    views the [frame_size] bytes from there. *)

From S2P Require Import Prelude Ring.

(** ** [page.rs] *)

Definition align_to (size align : Z) : Z :=
  Z.land (u64_of (u64_of (size + align) - 1)) (u64_of (Z.lnot (u64_of (align - 1)))).

(** ** [tx_metadata.rs]

    [TxMetadata] is the flags and the larger arm of the union: a [u64], then
    two [u16]s, four bytes of padding and a [u64]. *)

Record TxMetadata : Type := mkMeta {
  m_flags : Z;
  csum_start : Z;
  csum_offset : Z;
  launch_time : Z }.

Definition TxMetadata_LEN : Z := 24.

Definition TxMetadata_request (flags csum_start csum_offset launch_time : Z) : TxMetadata :=
  mkMeta flags csum_start csum_offset launch_time.

(** Little-endian bytes of a value, [n] of them. *)
Fixpoint le_bytes (n : nat) (v : Z) : list Z :=
  match n with
  | O => []
  | S n => Z.land v 255 :: le_bytes n (Z.shiftr v 8)
  end.

(** The bytes [ptr::write] stores; the padding is left as zeros. *)
Definition TxMetadata_bytes (m : TxMetadata) : list Z :=
  le_bytes 8 (m_flags m) ++ le_bytes 2 (csum_start m) ++ le_bytes 2 (csum_offset m)
  ++ [0; 0; 0; 0] ++ le_bytes 8 (launch_time m).

(** ** [umem.rs] *)

Record Umem : Type := mkUmem { area : list Z; frame_size : Z }.

(** The size asked for: [saturating_mul], then alignment. *)
Definition umem_size (frame_size frame_count page_size : Z) : Z :=
  align_to (Z.min (frame_size * frame_count) (2 ^ 32 - 1)) page_size.

(** [Umem::new] on a successful [mmap], which hands out zeroed pages. *)
Definition umem_new (frame_size frame_count page_size : Z) : Umem :=
  mkUmem (replicate (Z.to_nat (umem_size frame_size frame_count page_size)) 0) frame_size.

(** Reading and writing bytes of the area; outside it is undefined. *)
Definition load (u : Umem) (addr len : Z) : outcome (list Z) :=
  if (0 <=? addr) && (0 <=? len) && (addr + len <=? zlen (area u)) then
    Ret (take (Z.to_nat len) (drop (Z.to_nat addr) (area u)))
  else Fault Undefined.

Definition store (u : Umem) (addr : Z) (bytes : list Z) : outcome Umem :=
  if (0 <=? addr) && (addr + zlen bytes <=? zlen (area u)) then
    Ret (mkUmem (list_inserts (Z.to_nat addr) bytes (area u)) (frame_size u))
  else Fault Undefined.

(** ** Lemmas *)

(** [align_to] rounds up to a power of two. *)
Lemma align_to_spec size k :
  0 <= k < 63 -> 0 <= size < 2 ^ 63 ->
  align_to size (2 ^ k) = (size + 2 ^ k - 1) / 2 ^ k * 2 ^ k.
Proof.
  intros Hk Hs. assert (Hp : 1 <= 2 ^ k < 2 ^ 63).
  { split; [|apply Z.pow_lt_mono_r; lia]. pose proof (Z.pow_pos_nonneg 2 k). lia. }
  unfold align_to, u64_of. rewrite wrap_sub_l, (wrap_small 64 (2 ^ k - 1)) by (unfold in_width; lia).
  rewrite wrap_small by (unfold in_width; lia). set (x := size + 2 ^ k - 1).
  assert (Hx : 0 <= x < 2 ^ 64) by (unfold x; lia).
  apply Z.bits_inj'. intros i Hi. unfold wrap. rewrite Z.land_spec.
  rewrite <- Z.shiftr_div_pow2 by lia. rewrite <- Z.shiftl_mul_pow2 by lia.
  destruct (Z.ltb_spec i 64) as [Hlt|Hge].
  - rewrite Z.mod_pow2_bits_low, Z.lnot_spec by lia.
    replace (2 ^ k - 1) with (Z.ones k) by (rewrite Z.ones_equiv; lia).
    destruct (Z.ltb_spec i k).
    + rewrite Z.ones_spec_low, Z.shiftl_spec_low by lia. by rewrite andb_false_r.
    + rewrite Z.ones_spec_high, Z.shiftl_spec, Z.shiftr_spec by lia.
      rewrite andb_true_r. f_equal. lia.
  - rewrite Z.mod_pow2_bits_high, andb_false_r by lia. symmetry.
    destruct (Z.ltb_spec i k); [by apply Z.shiftl_spec_low|].
    rewrite Z.shiftl_spec, Z.shiftr_spec by lia. replace (i - k + k) with i by lia.
    rewrite <- (Z.mod_small x (2 ^ 64)) by lia. by apply Z.mod_pow2_bits_high.
Qed.

Lemma align_to_bounds size k :
  0 <= k < 63 -> 0 <= size < 2 ^ 63 ->
  size <= align_to size (2 ^ k) < size + 2 ^ k /\ (2 ^ k | align_to size (2 ^ k)).
Proof.
  intros Hk Hs. rewrite align_to_spec by done.
  assert (0 < 2 ^ k) by (apply Z.pow_pos_nonneg; lia).
  pose proof (Z.div_mod (size + 2 ^ k - 1) (2 ^ k)).
  pose proof (Z.mod_pos_bound (size + 2 ^ k - 1) (2 ^ k)).
  split; [lia|]. apply Z.divide_factor_r.
Qed.

Lemma load_ok u addr len :
  0 <= addr -> 0 <= len -> addr + len <= zlen (area u) ->
  exists bytes, load u addr len = Ret bytes /\ zlen bytes = len
    /\ forall i, (Z.of_nat i < len) -> bytes !! i = area u !! (Z.to_nat addr + i)%nat.
Proof.
  intros Ha Hl Hb. unfold load. rewrite !(proj2 (Z.leb_le _ _)) by lia. simpl.
  eexists. split; [done|]. split; [rewrite length_take, length_drop; lia|].
  intros i Hi. rewrite lookup_take_lt, lookup_drop by lia. done.
Qed.

Lemma store_ok u addr bytes :
  0 <= addr -> addr + zlen bytes <= zlen (area u) ->
  exists u', store u addr bytes = Ret u' /\ frame_size u' = frame_size u
    /\ length (area u') = length (area u)
    /\ (forall a n, 0 <= a -> 0 <= n -> a + n <= addr \/ addr + zlen bytes <= a ->
          load u' a n = load u a n)
    /\ load u' addr (zlen bytes) = Ret bytes.
Proof.
  intros Ha Hb. unfold store. rewrite !(proj2 (Z.leb_le _ _)) by lia. simpl.
  eexists. split; [done|]. split; [done|]. cbn [area]. rewrite length_inserts.
  split; [done|]. split.
  - intros a n Ha' Hn Hd. unfold load. cbn [area]. rewrite length_inserts.
    destruct (_ && _) eqn:E; [|done]. apply andb_true_iff in E as [_ E%Z.leb_le].
    f_equal. apply list_eq. intros i. destruct (decide (i < Z.to_nat n)%nat).
    + rewrite !lookup_take_lt, !lookup_drop by done.
      destruct Hd; [apply list_lookup_inserts_lt|apply list_lookup_inserts_ge]; lia.
    + by rewrite !lookup_take_ge by lia.
  - unfold load. cbn [area]. rewrite length_inserts, !(proj2 (Z.leb_le _ _)) by lia. simpl.
    f_equal. rewrite Nat2Z.id. apply list_eq. intros i. destruct (decide (i < length bytes)%nat).
    + rewrite lookup_take_lt, lookup_drop, list_lookup_inserts by lia. f_equal. lia.
    + rewrite lookup_take_ge, lookup_ge_None_2 by lia. done.
Qed.

Lemma load_inv u a n bytes :
  load u a n = Ret bytes -> 0 <= a /\ 0 <= n /\ a + n <= zlen (area u) /\ zlen bytes = n.
Proof.
  unfold load. intros Hl. destruct (_ && _) eqn:E; [|done]. simplify_eq.
  apply andb_true_iff in E as [[E1%Z.leb_le E2%Z.leb_le]%andb_true_iff E3%Z.leb_le].
  split_and!; try done. rewrite length_take, length_drop. lia.
Qed.

Lemma load_eq u a n :
  0 <= a -> 0 <= n -> a + n <= zlen (area u) ->
  load u a n = Ret (take (Z.to_nat n) (drop (Z.to_nat a) (area u))).
Proof. intros Ha Hn Hb. unfold load. by rewrite !(proj2 (Z.leb_le _ _)) by lia. Qed.

(** A run of bytes is read in two parts. *)
Lemma load_app u a n m x y :
  load u a (n + m) = Ret (x ++ y) -> zlen x = n -> 0 <= m ->
  load u a n = Ret x /\ load u (a + n) m = Ret y.
Proof.
  intros Hl Hx Hm. pose proof (load_inv _ _ _ _ Hl) as (Ha & Hnm & Hb & _).
  rewrite load_eq in Hl by lia. rewrite !load_eq by lia. injection Hl as Hl.
  rewrite Z2Nat.inj_add, <- take_take_drop in Hl by lia.
  apply app_inj_1 in Hl as [Hl1 Hl2]; [|rewrite length_take, length_drop; lia].
  rewrite drop_drop in Hl2. split; f_equal; [done|]. rewrite <- Hl2. f_equal. f_equal. lia.
Qed.

Lemma load_join u a n m x y :
  load u a n = Ret x -> load u (a + n) m = Ret y -> load u a (n + m) = Ret (x ++ y).
Proof.
  intros Hx Hy. pose proof (load_inv _ _ _ _ Hx) as (? & ? & ? & ?).
  pose proof (load_inv _ _ _ _ Hy) as (? & ? & ? & ?).
  rewrite load_eq in Hx, Hy |- * by lia. injection Hx as <-. injection Hy as <-. f_equal.
  rewrite Z2Nat.inj_add, <- take_take_drop, drop_drop by lia. f_equal. f_equal. f_equal. lia.
Qed.

(** Writing inside a run of bytes that has been read. *)
Lemma store_within u a n bytes o x :
  load u a n = Ret bytes -> 0 <= o -> o + zlen x <= n ->
  exists u', store u (a + o) x = Ret u' /\ frame_size u' = frame_size u
    /\ length (area u') = length (area u)
    /\ (forall b m, 0 <= b -> 0 <= m -> b + m <= a + o \/ a + o + zlen x <= b ->
          load u' b m = load u b m)
    /\ load u' a n = Ret (list_inserts (Z.to_nat o) x bytes).
Proof.
  intros Hload Ho Hx. pose proof (load_inv _ _ _ _ Hload) as (Ha & Hn & Hb & Hlen).
  destruct (store_ok u (a + o) x) as (u' & Hst & Hfs & Hl & Hsame & Hread); [lia..|].
  exists u'. split_and!; try done. rewrite load_eq in Hload by lia. injection Hload as <-.
  rewrite load_eq by lia. f_equal. unfold store in Hst.
  rewrite !(proj2 (Z.leb_le _ _)) in Hst by lia. simpl in Hst. simplify_eq. simpl.
  apply list_eq. intros i. destruct (decide (i < Z.to_nat n)%nat).
  - rewrite lookup_take_lt, lookup_drop by done.
    destruct (decide (i < Z.to_nat o)%nat); [|destruct (decide (i < Z.to_nat o + length x)%nat)].
    + rewrite !list_lookup_inserts_lt, lookup_take_lt, lookup_drop by lia. done.
    + rewrite !list_lookup_inserts by (rewrite ?length_take, ?length_drop; lia). f_equal. lia.
    + rewrite !list_lookup_inserts_ge, lookup_take_lt, lookup_drop by lia. done.
  - rewrite !lookup_ge_None_2; [done|..];
      rewrite ?length_inserts, length_take, ?length_drop, ?length_inserts; lia.
Qed.
