(* ===== verification/Completer.v ===== *)
(** * Pacing and completion: [controller/completer.rs]

    The completion ring is drained in batches whose size a token bucket
    limits. *)

From S2P Require Import Prelude Float Ring.

Record Completer : Type := mkCompleter {
  cr : Ring Z;
  cr_shared : Shared;
  completed : Z;
  rate : f64;
  tokens : f64;
  last_refill : Z;
  batch_size : Z }.

Definition completer_new (ring : Ring Z) (sh : Shared) (rate : f64) (now batch : Z) : Completer :=
  mkCompleter ring sh 0 rate (f64_of_Z 0) now batch.

Definition next_batch (self : Completer) (now : Z) : Z * Completer :=
  let elapsed := as_secs_f64 (now - last_refill self) in
  let tokens1 := f64_min (f64_add (tokens self) (f64_mul elapsed (rate self)))
                   (f64_of_Z (batch_size self)) in
  let upd tok := mkCompleter (cr self) (cr_shared self) (completed self) (rate self) tok now
                   (batch_size self) in
  if f64_lt tokens1 (f64_of_Z 1) then (0, upd tokens1)
  else
    let take := f64_floor tokens1 in
    (f64_as_u32 take, upd (f64_sub tokens1 take)).

(** [tick]; [sh] are the shared cells as the kernel has them when the ring is
    looked at. *)
Definition completer_tick (self : Completer) (sh : Shared) (now : Z) : bool * Completer :=
  let '(batch, self) := next_batch self now in
  match peek (cr self) sh batch with
  | (Some (_, count), ring) =>
      let '(_, sh) := release sh count in
      (true, mkCompleter ring sh (u64_of (completed self + count)) (rate self)
               (f64_add (tokens self) (f64_of_Z (u32_of (batch - count)))) (last_refill self)
               (batch_size self))
  | (None, ring) =>
      (false, mkCompleter ring sh (completed self) (rate self)
                (f64_add (tokens self) (f64_of_Z batch)) (last_refill self) (batch_size self))
  end.
