(* ===== verification/Sender.v ===== *)
(** * Sending: [controller/sender.rs]

    A sender owns a transmit ring whose descriptors point at frames that hold
    a prepared TCP packet; a send rewrites the fields that change and submits
    the descriptor. *)

From S2P Require Import Prelude Float Tcp Ring Umem Completer.

(** Constants of the kernel headers. *)
Class KernelConsts : Type := {
  NEED_WAKEUP : Z;      (* XDP_RING_NEED_WAKEUP *)
  TX_METADATA : Z;      (* XDP_TX_METADATA *)
  TXMD_CHECKSUM : Z }.  (* XDP_TXMD_FLAGS_CHECKSUM *)

(** What one look at the outside world finds: the consumer counter and the
    flags the kernel has written to the transmit ring, whether [sendto]
    succeeds if it is called, the time, and the completion ring's cells. *)
Record turn : Type := mkTurn {
  k_cons : Z;
  k_flags : Z;
  k_sendto : bool;
  k_now : Z;
  k_cr : Shared }.

Record Sender : Type := mkSender {
  tcp_checksum : Z;
  ipv4_checksum : Z;
  tx : Ring Descriptor;
  (** the producer counter in the shared area; only the sender writes it *)
  tx_prod : Z;
  checksum_offload : bool }.

(** Everything a send touches; [env] are the looks still to come. *)
Record net : Type := mkNet {
  sender : Sender;
  umem : Umem;
  completer : Completer;
  env : list turn }.

Section sender.
Context `{KernelConsts}.

(** ** [Sender::new] *)

(** The descriptor [tx[index]]; the ring's area has [size] of them. *)
Definition desc_at (r : Ring Descriptor) (index : Z) : outcome Descriptor :=
  match ring_get r index with Some d => Ret d | None => Fault Undefined end.

(** One turn of the [for]: the descriptor, the metadata and the template of
    frame [index]. *)
Definition init_frame (gateway interface source_ip : list Z) (offload : bool) (index : Z)
    (s : Ring Descriptor * Umem) : outcome (Ring Descriptor * Umem) :=
  let '(tx, u) := s in
  let meta_addr := index * frame_size u in
  let addr := meta_addr + TxMetadata_LEN in
  d ← desc_at tx index;
  let tx := ring_set tx index
              (mkDesc addr (d_len d) (if offload then TX_METADATA else d_options d)) in
  u ← (if offload then
         store u meta_addr (TxMetadata_bytes (TxMetadata_request TXMD_CHECKSUM 34 16 0))
       else Ret u);
  u ← store u addr TCP_PACKET;
  u ← store u addr gateway;
  u ← store u (addr + 6) interface;
  u ← store u (addr + 26) source_ip;
  Ret (tx, u).

Fixpoint init_frames (n : nat) (gateway interface source_ip : list Z) (offload : bool)
    (index : Z) (s : Ring Descriptor * Umem) : outcome (Ring Descriptor * Umem) :=
  match n with
  | O => Ret s
  | S n =>
      s ← init_frame gateway interface source_ip offload index s;
      init_frames n gateway interface source_ip offload (index + 1) s
  end.

Definition sender_new (gateway interface : list Z) (source_ip : Ipv4Addr) (offload : bool)
    (u : Umem) (tx : Ring Descriptor) (prod starting_frame : Z) : outcome (Sender * Umem) :=
  let n := u32_of (starting_frame + size tx) - starting_frame in
  '(tx, u) ← init_frames (Z.to_nat n) gateway interface (octets source_ip) offload
              starting_frame (tx, u);
  let source_ip_sum := ipv4_sum (octets source_ip) in
  Ret (mkSender
         (if offload then u32_of (6 + 28 + source_ip_sum)
          else u32_of (6 + 28 + sum_body (take 28 (drop 34 TCP_PACKET)) + source_ip_sum))
         (u32_of (sum_body (take 20 (drop 14 TCP_PACKET)) + source_ip_sum))
         tx prod offload, u).

(** ** Reserving and submitting *)

Definition with_tx (s : Sender) (r : Ring Descriptor) : Sender :=
  mkSender (tcp_checksum s) (ipv4_checksum s) r (tx_prod s) (checksum_offload s).

Definition tx_shared (s : Sender) (t : turn) : Shared := mkShared (tx_prod s) (k_cons t) (k_flags t).

(** The [loop] every send starts with: wakes the kernel up if it asks for it,
    reserves, and ticks the completer while the ring is full. *)
Fixpoint acquire_loop (e : list turn) (batch_size : Z) (s : Sender) (u : Umem) (c : Completer)
    : outcome (result unit Z * net) :=
  match e with
  | [] => Fault OutOfFuel
  | t :: e =>
      let sh := tx_shared s t in
      if needs_wakeup NEED_WAKEUP sh && negb (k_sendto t) then Ret (Err tt, mkNet s u c e)
      else
        match reserve (tx s) sh batch_size with
        | (Some index, r) => Ret (Ok index, mkNet (with_tx s r) u c e)
        | (None, r) =>
            let '(_, c) := completer_tick c (k_cr t) (k_now t) in
            acquire_loop e batch_size (with_tx s r) u c
        end
  end.

Definition acquire (batch_size : Z) (n : net) : outcome (result unit Z * net) :=
  acquire_loop (env n) batch_size (sender n) (umem n) (completer n).

(** [submit], then the wake-up if the kernel asks for it. *)
Definition finish (batch_size : Z) (n : net) : outcome (result unit unit * net) :=
  match env n with
  | [] => Fault OutOfFuel
  | t :: e =>
      let s := sender n in
      let '(_, sh) := submit (tx_shared s t) batch_size in
      let s := mkSender (tcp_checksum s) (ipv4_checksum s) (tx s) (prod sh) (checksum_offload s) in
      let n := mkNet s (umem n) (completer n) e in
      if needs_wakeup NEED_WAKEUP sh && negb (k_sendto t) then Ret (Err tt, n) else Ret (Ok tt, n)
  end.

(** ** Writing a frame *)

(** [EthTcpIpHdr::mut_from_bytes(&mut data[..52])] and the writes through it. *)
Definition edit_header (u : Umem) (addr : Z) (f : list Z -> list Z) : outcome Umem :=
  if frame_size u <? Z.of_nat EthTcpIpHdr_size then Fault Panic
  else
    hdr ← load u addr (Z.of_nat EthTcpIpHdr_size);
    store u addr (f hdr).

Definition put_desc (n : net) (index : Z) (d : Descriptor) (u : Umem) : net :=
  mkNet (with_tx (sender n) (ring_set (tx (sender n)) index d)) u (completer n) (env n).

(** The body of [send_syn], and of each turn of the loop of [send_syn_batch]. *)
Definition write_syn (index : Z) (packet : PacketTemplate) (seed : Z) (n : net) : outcome net :=
  let s := sender n in
  let '(mkTemplate source_port ip destination_port) := packet in
  let seq := cookie ip destination_port seed in
  d ← desc_at (tx s) index;
  let dest_sum := ipv4_sum (octets ip) in
  u ← edit_header (umem n) (d_addr d) (fun hdr =>
    let hdr := set_dest_addr (octets ip) hdr in
    let hdr := set_ack 0 hdr in
    let hdr := set_seq seq hdr in
    let hdr := set_len 48 hdr in
    let hdr := set_dest_port destination_port hdr in
    let hdr := set_source_port source_port hdr in
    let hdr := set_ip_checksum (not16 (fold (u32_of (ipv4_checksum s + dest_sum)))) hdr in
    let hdr := set_tcp_checksum
      (if checksum_offload s then fold (u32_of (tcp_checksum s + dest_sum))
       else not16 (fold (u32_of (tcp_checksum s + dest_sum + source_port + destination_port
                                  + Z.shiftr seq 16 + Z.land seq 65535 + 2)))) hdr in
    set_flags Syn hdr);
  Ret (put_desc n index (mkDesc (d_addr d) 62 (d_options d)) u).

(** [send::<FLAGS>]. *)
Definition write_flags (index : Z) (flags : Z) (ip : Ipv4Addr) (source_port port seq ack : Z)
    (n : net) : outcome net :=
  let s := sender n in
  d ← desc_at (tx s) index;
  let dest_sum := ipv4_sum (octets ip) in
  u ← edit_header (umem n) (d_addr d) (fun hdr =>
    let hdr := set_len 48 hdr in
    let hdr := set_dest_addr (octets ip) hdr in
    let hdr := set_ack ack hdr in
    let hdr := set_seq seq hdr in
    let hdr := set_dest_port port hdr in
    let hdr := set_source_port source_port hdr in
    let hdr := set_ip_checksum (not16 (fold (u32_of (ipv4_checksum s + dest_sum)))) hdr in
    let hdr := set_tcp_checksum
      (if checksum_offload s then fold (u32_of (tcp_checksum s + dest_sum))
       else not16 (fold (u32_of (tcp_checksum s + dest_sum + source_port + port
                                  + Z.shiftr seq 16 + Z.land seq 65535
                                  + Z.shiftr ack 16 + Z.land ack 65535 + flags)))) hdr in
    set_flags flags hdr);
  Ret (put_desc n index (mkDesc (d_addr d) 62 (d_options d)) u).

(** [send_with_data]; the [assert_unchecked]s make a body that does not fit
    the view undefined. *)
Definition write_data (index : Z) (ip : Ipv4Addr) (source_port port seq ack : Z) (body : list Z)
    (n : net) : outcome net :=
  let s := sender n in
  d ← desc_at (tx s) index;
  let data_len := zlen body in
  if frame_size (umem n) <? 62 + data_len then Fault Undefined
  else
    u ← store (umem n) (d_addr d + 62) body;
    let dest_sum := ipv4_sum (octets ip) in
    u ← edit_header u (d_addr d) (fun hdr =>
      let hdr := set_dest_addr (octets ip) hdr in
      let hdr := set_ack ack hdr in
      let hdr := set_seq seq hdr in
      let hdr := set_len (u16_of (48 + u16_of data_len)) hdr in
      let hdr := set_dest_port port hdr in
      let hdr := set_source_port source_port hdr in
      let hdr := set_ip_checksum
        (not16 (fold (u32_of (ipv4_checksum s + dest_sum + u32_of data_len)))) hdr in
      let hdr := set_tcp_checksum
        (if checksum_offload s then fold (u32_of (tcp_checksum s + dest_sum))
         else not16 (fold (u32_of (tcp_checksum s + dest_sum + source_port + port
                                    + Z.shiftr seq 16 + Z.land seq 65535
                                    + Z.shiftr ack 16 + Z.land ack 65535
                                    + 24 + u32_of data_len + sum_body body)))) hdr in
      set_flags (Z.lor Psh Ack) hdr);
    Ret (put_desc n index (mkDesc (d_addr d) (u32_of (62 + u32_of data_len)) (d_options d)) u).

(** ** The sends *)

Definition send_with (write : Z -> net -> outcome net) (n : net)
    : outcome (result unit unit * net) :=
  '(r, n) ← acquire 1 n;
  match r with
  | Err e => Ret (Err e, n)
  | Ok index => n ← write index n; finish 1 n
  end.

Definition send_syn (packet : PacketTemplate) (seed : Z) (n : net)
    : outcome (result unit unit * net) :=
  send_with (fun index => write_syn index packet seed) n.

Definition send (flags : Z) (ip : Ipv4Addr) (source_port port seq ack : Z) (n : net)
    : outcome (result unit unit * net) :=
  send_with (fun index => write_flags index flags ip source_port port seq ack) n.

Definition send_with_data (ip : Ipv4Addr) (source_port port seq ack : Z) (body : list Z) (n : net)
    : outcome (result unit unit * net) :=
  send_with (fun index => write_data index ip source_port port seq ack body) n.

(** [packets.drain(..).enumerate()]. *)
Fixpoint write_syns (index i : Z) (packets : list PacketTemplate) (seed : Z) (n : net)
    : outcome net :=
  match packets with
  | [] => Ret n
  | packet :: packets =>
      n ← write_syn (u32_of (index + i)) packet seed n;
      write_syns index (i + 1) packets seed n
  end.

Definition send_syn_batch (packets : list PacketTemplate) (seed : Z) (n : net)
    : outcome (result unit unit * net) :=
  let batch_size := u32_of (zlen packets) in
  '(r, n) ← acquire batch_size n;
  match r with
  | Err e => Ret (Err e, n)
  | Ok index => n ← write_syns index 0 packets seed n; finish batch_size n
  end.

End sender.

(** ** Specification: the packets on the wire *)

(** The addresses that are the same in every packet of a sender. *)
Record link : Type := mkLink { gateway : list Z; interface : list Z; source_ip : Ipv4Addr }.

Definition link_ok (l : link) : Prop :=
  length (gateway l) = 6%nat /\ length (interface l) = 6%nat /\ in_u32 (source_ip l)
  /\ Forall (fun b => 0 <= b < 256) (gateway l ++ interface l).

(** The fields that vary. *)
Record fields : Type := mkFields {
  f_len : Z; f_ip_checksum : Z; f_dst : Ipv4Addr; f_sport : Z; f_dport : Z; f_seq : Z;
  f_ack : Z; f_flags : Z; f_tcp_checksum : Z }.

(** The first 52 bytes of a frame, and the ten that never change. *)
Definition header (l : link) (f : fields) : list Z :=
  (gateway l ++ interface l ++ [8; 0; 69; 0]) ++ be16_bytes (f_len f) ++ [0; 1; 64; 0; 64; 6]
  ++ be16_bytes (f_ip_checksum f) ++ octets (source_ip l) ++ octets (f_dst f)
  ++ be16_bytes (f_sport f) ++ be16_bytes (f_dport f) ++ be32_bytes (f_seq f)
  ++ be32_bytes (f_ack f) ++ [112] ++ [f_flags f] ++ [128; 0] ++ be16_bytes (f_tcp_checksum f).

Definition trailer : list Z := [0; 0; 2; 4; 5; 60; 1; 1; 4; 2].

(** What a receiver computes from the bytes of a frame. *)
Definition byte_at (frame : list Z) (i : nat) : Z := nth i frame 0.
Definition ip_total (frame : list Z) : Z := be16 (byte_at frame 16) (byte_at frame 17).
Definition ip_header (frame : list Z) : list Z := take 20 (drop 14 frame).
Definition tcp_segment (frame : list Z) : list Z :=
  take (Z.to_nat (ip_total frame - 20)) (drop 34 frame).
Definition pseudo_header (frame : list Z) : list Z :=
  words (take 8 (drop 26 frame)) ++ [6; ip_total frame - 20].

(** The frame ends where the IP header says, and both checksums verify. *)
Definition packet_valid (frame : list Z) : Prop :=
  zlen frame = 14 + ip_total frame
  /\ checksum_valid (words (ip_header frame))
  /\ checksum_valid (pseudo_header frame ++ words (tcp_segment frame)).

(** The frame of a slot holds the template. *)
Definition frame_ready (l : link) (u : Umem) (addr : Z) : Prop :=
  0 <= addr /\ addr + 62 <= zlen (area u)
  /\ exists f, load u addr 62 = Ret (header l f ++ trailer).

(** ** Lemmas: the header *)

Lemma length_header l f : link_ok l -> length (header l f) = 52%nat.
Proof. intros (Hg & Hi & _). unfold header. rewrite !length_app, Hg, Hi. done. Qed.

Section setters.
Context (l : link) (Hl : link_ok l).

(** Both sides are lists of 52 bytes once the two addresses are taken apart. *)
Local Ltac field :=
  destruct Hl as (Hg & Hi & _); unfold header;
  cbn [f_len f_ip_checksum f_dst f_sport f_dport f_seq f_ack f_flags f_tcp_checksum];
  destruct (gateway l) as [|? [|? [|? [|? [|? [|? []]]]]]]; try discriminate Hg;
  destruct (interface l) as [|? [|? [|? [|? [|? [|? []]]]]]]; try discriminate Hi;
  reflexivity.

Lemma header_set_len v a b c d e g h i j :
  set_len v (header l (mkFields a b c d e g h i j)) = header l (mkFields v b c d e g h i j).
Proof. field. Qed.
Lemma header_set_ip_checksum v a b c d e g h i j :
  set_ip_checksum v (header l (mkFields a b c d e g h i j)) = header l (mkFields a v c d e g h i j).
Proof. field. Qed.
Lemma header_set_dest_addr v a b c d e g h i j :
  set_dest_addr (octets v) (header l (mkFields a b c d e g h i j))
  = header l (mkFields a b v d e g h i j).
Proof. field. Qed.
Lemma header_set_source_port v a b c d e g h i j :
  set_source_port v (header l (mkFields a b c d e g h i j)) = header l (mkFields a b c v e g h i j).
Proof. field. Qed.
Lemma header_set_dest_port v a b c d e g h i j :
  set_dest_port v (header l (mkFields a b c d e g h i j)) = header l (mkFields a b c d v g h i j).
Proof. field. Qed.
Lemma header_set_seq v a b c d e g h i j :
  set_seq v (header l (mkFields a b c d e g h i j)) = header l (mkFields a b c d e v h i j).
Proof. field. Qed.
Lemma header_set_ack v a b c d e g h i j :
  set_ack v (header l (mkFields a b c d e g h i j)) = header l (mkFields a b c d e g v i j).
Proof. field. Qed.
Lemma header_set_flags v a b c d e g h i j :
  set_flags v (header l (mkFields a b c d e g h i j)) = header l (mkFields a b c d e g h v j).
Proof. field. Qed.
Lemma header_set_tcp_checksum v a b c d e g h i j :
  set_tcp_checksum v (header l (mkFields a b c d e g h i j)) = header l (mkFields a b c d e g h i v).
Proof. field. Qed.

End setters.

Create Rewrite HintDb header.
#[export] Hint Rewrite header_set_len header_set_ip_checksum header_set_dest_addr
  header_set_source_port header_set_dest_port header_set_seq header_set_ack header_set_flags
  header_set_tcp_checksum using assumption : header.

(** ** Lemmas: the words of a packet *)

Lemma be16_val v : in_u16 v -> be16 (Z.land (Z.shiftr v 8) 255) (Z.land v 255) = v.
Proof. intros Hv. by apply be16_bytes_read. Qed.

Lemma be32_words v :
  in_u32 v ->
  be16 (Z.land (Z.shiftr v 24) 255) (Z.land (Z.shiftr v 16) 255) = Z.shiftr v 16
  /\ be16 (Z.land (Z.shiftr v 8) 255) (Z.land v 255) = Z.land v 65535.
Proof.
  intros Hv. assert (Hs : in_u16 (Z.shiftr v 16)).
  { unfold in_width in *. rewrite shiftr_div by lia. split; [apply Z.div_pos; lia|].
    apply Z.div_lt_upper_bound; lia. }
  split.
  - rewrite <- (be16_val _ Hs) at 2. by rewrite Z.shiftr_shiftr by lia.
  - assert (Hm : in_u16 (Z.land v 65535)).
    { rewrite land_65535. unfold in_width. apply Z.mod_pos_bound. lia. }
    rewrite <- (be16_val _ Hm). f_equal.
    + apply Z.bits_inj'. intros i Hi. rewrite !Z.land_spec, !Z.shiftr_spec, Z.land_spec by lia.
      change 65535 with (Z.ones 16). change 255 with (Z.ones 8).
      rewrite !Z.testbit_ones_nonneg by lia. case_cmp; rewrite ?andb_true_r, ?andb_false_r; done || lia.
    + rewrite <- Z.land_assoc. done.
Qed.

Lemma u32_halves v : in_u32 v -> is_word (Z.shiftr v 16) /\ is_word (Z.land v 65535).
Proof.
  intros Hv. unfold in_width in Hv. rewrite land_65535, shiftr_div by lia.
  change (2 ^ 16) with 65536. pose proof (Z.mod_pos_bound v 65536).
  assert (v / 65536 < 65536) by (apply Z.div_lt_upper_bound; lia).
  pose proof (Z.div_pos v 65536). lia.
Qed.

Lemma ipv4_sum_octets ip :
  in_u32 ip -> ipv4_sum (octets ip) = Z.shiftr ip 16 + Z.land ip 65535.
Proof.
  intros Hip. unfold ipv4_sum, octets, be32_bytes. destruct (be32_words ip Hip) as [-> ->].
  pose proof (u32_halves ip Hip). unfold u32_of. rewrite wrap_small; [done|unfold in_width; lia].
Qed.

(** Fields within their widths. *)
Definition fields_ok (f : fields) : Prop :=
  in_u16 (f_len f) /\ in_u16 (f_ip_checksum f) /\ in_u32 (f_dst f) /\ in_u16 (f_sport f)
  /\ in_u16 (f_dport f) /\ in_u32 (f_seq f) /\ in_u32 (f_ack f) /\ in_u8 (f_flags f)
  /\ in_u16 (f_tcp_checksum f).

Section packet.
Context (l : link) (Hl : link_ok l) (f : fields) (Hf : fields_ok f) (body : list Z).

Local Ltac open_header :=
  destruct Hl as (Hg & Hi & Hs & _), Hf as (? & ? & Hd & ? & ? & Hq & Ha & ? & ?);
  destruct (gateway l) as [|? [|? [|? [|? [|? [|? []]]]]]] eqn:?; try discriminate Hg;
  destruct (interface l) as [|? [|? [|? [|? [|? [|? []]]]]]] eqn:?; try discriminate Hi.

Abbreviation frame := (header l f ++ trailer ++ body).

Lemma frame_total : ip_total frame = f_len f.
Proof.
  unfold ip_total, byte_at, header, be16_bytes. open_header. cbn [app nth]. by apply be16_val.
Qed.

Lemma frame_ip_words :
  words (ip_header frame)
  = [17664; f_len f; 1; 16384; 16390; f_ip_checksum f;
     Z.shiftr (source_ip l) 16; Z.land (source_ip l) 65535;
     Z.shiftr (f_dst f) 16; Z.land (f_dst f) 65535].
Proof.
  unfold ip_header, header, be16_bytes, octets, be32_bytes. open_header.
  cbn [app take drop words]. rewrite !be16_val by done.
  destruct (be32_words (source_ip l) Hs) as [-> ->], (be32_words (f_dst f) Hd) as [-> ->].
  done.
Qed.

Lemma frame_pseudo :
  pseudo_header frame
  = [Z.shiftr (source_ip l) 16; Z.land (source_ip l) 65535;
     Z.shiftr (f_dst f) 16; Z.land (f_dst f) 65535; 6; f_len f - 20].
Proof.
  unfold pseudo_header. rewrite frame_total.
  unfold header, be16_bytes, octets, be32_bytes. open_header. cbn [app take drop words].
  destruct (be32_words (source_ip l) Hs) as [-> ->], (be32_words (f_dst f) Hd) as [-> ->].
  done.
Qed.

Lemma frame_segment :
  f_len f = 48 + zlen body ->
  words (tcp_segment frame)
  = [f_sport f; f_dport f; Z.shiftr (f_seq f) 16; Z.land (f_seq f) 65535;
     Z.shiftr (f_ack f) 16; Z.land (f_ack f) 65535; 28672 + f_flags f; 32768;
     f_tcp_checksum f; 0; 516; 1340; 257; 1026] ++ words body.
Proof.
  intros Hlen. unfold tcp_segment. rewrite frame_total, Hlen.
  rewrite (app_assoc (header l f)), drop_app_le
    by (rewrite length_app, (length_header l f Hl); simpl; lia).
  rewrite take_ge by (rewrite length_app, length_drop, length_app, (length_header l f Hl); simpl; lia).
  rewrite words_app_even by
    (rewrite length_drop, length_app, (length_header l f Hl); by exists 14%nat).
  f_equal. unfold header, be16_bytes, octets, be32_bytes. open_header.
  cbn [app take drop words].
  destruct (be32_words (f_seq f) Hq) as [-> ->], (be32_words (f_ack f) Ha) as [-> ->].
  by rewrite !be16_val by done.
Qed.

Lemma zsum_be32 v : in_u32 v -> zsum (words (be32_bytes v)) = Z.shiftr v 16 + Z.land v 65535.
Proof.
  intros Hv. unfold be32_bytes. cbn [words]. destruct (be32_words v Hv) as [-> ->]. simpl. lia.
Qed.

(** When the IPv4 checksum complements its sum and the segment verifies, the
    packet is valid. *)
Lemma packet_valid_of_ip ip_sum :
  f_len f = 48 + zlen body ->
  f_ip_checksum f = not16 (fold ip_sum) -> 0 < ip_sum < 2 ^ 32 ->
  ip_sum = 50439 + f_len f + zsum (words (octets (source_ip l))) + zsum (words (octets (f_dst f))) ->
  checksum_valid (pseudo_header frame ++ words (tcp_segment frame)) -> packet_valid frame.
Proof.
  intros Hlen Hic His Heis Htcp. pose proof Hl as (_ & _ & Hs & _).
  pose proof Hf as (? & ? & Hd & _). unfold octets in *. rewrite !zsum_be32 in Heis by done.
  pose proof (u32_halves _ Hs). pose proof (u32_halves _ Hd). unfold in_width in *. split_and!; [| |done].
  - rewrite frame_total, !length_app, (length_header l f Hl). simpl. lia.
  - rewrite frame_ip_words. apply (checksum_complement _ ip_sum (f_ip_checksum f)); try done.
    + repeat constructor; lia.
    + simpl. lia.
Qed.

(** The words of the pseudo header and the segment. *)
Lemma frame_tcp_words :
  Forall (fun b => is_byte b) body -> f_len f = 48 + zlen body ->
  Forall (fun w => is_word w) (pseudo_header frame)
  /\ Forall (fun w => is_word w) (words (tcp_segment frame)).
Proof.
  intros Hb Hlen. pose proof Hl as (_ & _ & Hs & _).
  pose proof Hf as (? & ? & Hd & ? & ? & Hq & Ha & ? & ?).
  rewrite frame_pseudo, frame_segment by done.
  pose proof (u32_halves _ Hs). pose proof (u32_halves _ Hd).
  pose proof (u32_halves _ Hq). pose proof (u32_halves _ Ha). unfold in_width in *.
  split; [repeat constructor; lia|].
  apply Forall_app_2; [repeat constructor; lia|by apply words_is_word].
Qed.

(** When both checksums of the header complement the sums, the packet is valid. *)
Lemma packet_valid_of_sums ip_sum tcp_sum :
  Forall (fun b => is_byte b) body -> f_len f = 48 + zlen body ->
  f_ip_checksum f = not16 (fold ip_sum) -> 0 < ip_sum < 2 ^ 32 ->
  f_tcp_checksum f = not16 (fold tcp_sum) -> 0 < tcp_sum < 2 ^ 32 ->
  ip_sum = 50439 + f_len f + zsum (words (octets (source_ip l))) + zsum (words (octets (f_dst f))) ->
  tcp_sum = zsum (words (octets (source_ip l))) + zsum (words (octets (f_dst f))) + 6
    + (f_len f - 20) + f_sport f + f_dport f + zsum (words (be32_bytes (f_seq f)))
    + zsum (words (be32_bytes (f_ack f))) + 28672 + f_flags f + 32768 + 3139 + zsum (words body) ->
  packet_valid frame.
Proof.
  intros Hb Hlen Hic His Htc Hts Heis Hets. apply (packet_valid_of_ip ip_sum); try done.
  destruct (frame_tcp_words Hb Hlen) as [Hw1 Hw2].
  apply (checksum_complement _ tcp_sum (f_tcp_checksum f)); try done; [by apply Forall_app_2|].
  pose proof Hl as (_ & _ & Hs & _). pose proof Hf as (? & ? & Hd & ? & ? & Hq & Ha & ? & ?).
  unfold octets in *. rewrite !zsum_be32 in Hets by done.
  rewrite frame_pseudo, frame_segment, !zsum_app by done. simpl. lia.
Qed.

End packet.

(** ** Lemmas: checksum offload *)

(** What the kernel documents of a frame whose metadata asks for a checksum:
    the device sums the frame from byte [start], the seed the program left in
    the checksum field included, and stores the complement at [start + offset]. *)
Class TxChecksum : Type := {
  tx_checksum : nat -> nat -> list Z -> list Z;
  tx_checksum_spec start offset frame : (start + offset + 2 <= length frame)%nat ->
    tx_checksum start offset frame
    = list_inserts (start + offset) (be16_bytes (not16 (onec_sum (words (drop start frame))))) frame }.

Definition with_tcp_checksum (f : fields) (c : Z) : fields :=
  mkFields (f_len f) (f_ip_checksum f) (f_dst f) (f_sport f) (f_dport f) (f_seq f) (f_ack f)
    (f_flags f) c.

Lemma offload_valid `{TxChecksum} l f ip_sum :
  link_ok l -> fields_ok f -> f_len f = 48 ->
  f_ip_checksum f = not16 (fold ip_sum) -> 0 < ip_sum < 2 ^ 32 ->
  ip_sum = 50439 + f_len f + zsum (words (octets (source_ip l))) + zsum (words (octets (f_dst f))) ->
  f_tcp_checksum f = fold (34 + zsum (words (octets (source_ip l))) + zsum (words (octets (f_dst f)))) ->
  exists c, tx_checksum 34 16 (header l f ++ trailer ++ []) = header l (with_tcp_checksum f c) ++ trailer ++ []
    /\ packet_valid (header l (with_tcp_checksum f c) ++ trailer ++ []).
Proof.
  intros Hl Hf Hlen Hic His Heis Hseed. pose proof (length_header l f Hl) as Hhl.
  destruct (frame_tcp_words l Hl f Hf []) as [Hw1 Hw2]; [done|done|].
  assert (Hseg : words (drop 34 (header l f ++ trailer ++ []))
                 = words (tcp_segment (header l f ++ trailer ++ []))).
  { unfold tcp_segment. rewrite frame_total, Hlen by done. rewrite take_ge; [done|].
    rewrite length_drop, !length_app, Hhl. simpl. lia. }
  rewrite tx_checksum_spec by (rewrite !length_app, Hhl; simpl; lia). rewrite Hseg.
  destruct (onec_sum_spec _ Hw2) as (Ho & _ & Hz & q & Hq).
  set (c := not16 _). exists c. assert (Hc : in_u16 c) by (unfold c, not16, in_width; lia).
  assert (Hf' : fields_ok (with_tcp_checksum f c)) by (unfold fields_ok in *; simpl; tauto).
  split.
  { pose proof (fun a b d e g h i j k => header_set_tcp_checksum l Hl c a b d e g h i j k) as Hset.
    unfold set_tcp_checksum, be16_bytes in *. cbn [list_inserts Nat.add] in *.
    rewrite !insert_app_l by (rewrite ?length_insert; lia). f_equal.
    destruct f as [a b d e g h i j k]. apply Hset. }
  apply (packet_valid_of_ip l Hl _ Hf' [] ip_sum); try done.
  destruct (frame_tcp_words l Hl _ Hf' []) as [Hw1' Hw2']; [done|done|].
  apply checksum_valid_iff; [by apply Forall_app_2|]. rewrite zsum_app.
  pose proof Hl as (_ & _ & Hs & _). pose proof Hf as (_ & _ & Hd & _).
  pose proof (u32_halves _ Hs). pose proof (u32_halves _ Hd).
  unfold octets in Hseed. rewrite !zsum_be32 in Hseed by done.
  edestruct fold_spec as (_ & _ & q' & Hq'); [|rewrite Hq' in Hseed]; [lia|].
  assert (Hdiff : zsum (words (tcp_segment (header l (with_tcp_checksum f c) ++ trailer ++ [])))
    = zsum (words (tcp_segment (header l f ++ trailer ++ []))) - f_tcp_checksum f + c)
    by (rewrite !frame_segment by done; simpl; lia).
  assert (Hps : zsum (pseudo_header (header l (with_tcp_checksum f c) ++ trailer ++ []))
    = 34 + (Z.shiftr (source_ip l) 16 + Z.land (source_ip l) 65535)
      + (Z.shiftr (f_dst f) 16 + Z.land (f_dst f) 65535))
    by (rewrite frame_pseudo by done; simpl; lia).
  pose proof (zsum_nonneg _ Hw2').
  assert (Hcv : c = 65535 - onec_sum (words (tcp_segment (header l f ++ trailer ++ [])))) by done.
  clearbody c. split; [lia|]. exists (q + q' + 1). lia.
Qed.

(** ** Lemmas: writing frames *)

(** [u'] differs from [u] at most in the [n] bytes from [addr]. *)
Definition same_but (addr n : Z) (u u' : Umem) : Prop :=
  frame_size u' = frame_size u /\ length (area u') = length (area u)
  /\ forall a m, 0 <= a -> 0 <= m -> a + m <= addr \/ addr + n <= a -> load u' a m = load u a m.

Lemma same_but_trans addr n u u1 u2 :
  same_but addr n u u1 -> same_but addr n u1 u2 -> same_but addr n u u2.
Proof.
  intros (H1 & H2 & H3) (H4 & H5 & H6). split_and!; [congruence..|].
  intros a m Ha Hm Hd. rewrite H6, H3; done.
Qed.

Lemma same_but_weaken addr n addr' n' u u' :
  same_but addr n u u' -> addr' <= addr -> addr + n <= addr' + n' -> same_but addr' n' u u'.
Proof. intros (H1 & H2 & H3) Ha Hn. split_and!; [done..|]. intros a m ? ? Hd. apply H3; lia. Qed.

Section writes.
Context (l : link) (Hl : link_ok l).

Lemma edit_header_ok u addr g f :
  frame_ready l u addr -> 52 <= frame_size u ->
  (forall f0, g (header l f0) = header l f) ->
  exists u', edit_header u addr g = Ret u' /\ same_but addr 52 u u'
    /\ load u' addr 62 = Ret (header l f ++ trailer).
Proof.
  intros (Ha & Hb & f0 & Hload) Hfs Hg. unfold edit_header.
  change (Z.of_nat EthTcpIpHdr_size) with 52. rewrite (proj2 (Z.ltb_ge _ _)) by lia.
  change 62 with (52 + 10) in *.
  assert (Hh : forall f, zlen (header l f) = 52) by (intros; by rewrite (length_header l _ Hl)).
  destruct (load_app u addr 52 10 (header l f0) trailer Hload (Hh f0)) as [H1 H2]; [lia|].
  rewrite H1. cbn [mbind outcome_bind]. rewrite Hg.
  destruct (store_ok u addr (header l f)) as (u' & -> & Hfs' & Hlen & Hsame & Hread);
    [lia|rewrite Hh; lia|].
  rewrite Hh in Hsame, Hread. exists u'. split_and!; try done.
  apply load_join; [done|]. rewrite Hsame; [done|lia..].
Qed.

(** *** The sums a sender starts from *)

Definition src_sum : Z := Z.shiftr (source_ip l) 16 + Z.land (source_ip l) 65535.

Definition sender_ok (s : Sender) : Prop :=
  tcp_checksum s = (if checksum_offload s then 34 + src_sum else 34 + 64579 + src_sum)
  /\ ipv4_checksum s = 50487 + src_sum.

Lemma src_sum_bound : 0 <= src_sum <= 131070.
Proof. destruct Hl as (_ & _ & Hs & _). pose proof (u32_halves _ Hs). unfold src_sum. lia. Qed.

Lemma not16_word x : is_word (fold x) -> in_u16 (not16 (fold x)).
Proof. unfold not16, in_width. lia. Qed.

Lemma fold_word x : 0 <= x < 2 ^ 32 -> is_word (fold x).
Proof. intros Hx. by destruct (fold_spec x Hx). Qed.

Lemma u32_small x : 0 <= x < 2 ^ 32 -> u32_of x = x.
Proof. apply wrap_small. Qed.

(** What the sends have in common: with the sums of [s] and the fields asked
    for, the packet is valid. *)
Lemma sent_valid s ip sp dp seq ack flags body :
  sender_ok s -> checksum_offload s = false ->
  in_u32 ip -> in_u16 sp -> in_u16 dp -> in_u32 seq -> in_u32 ack -> in_u8 flags ->
  Forall (fun b => is_byte b) body -> zlen body <= 65000 ->
  let dest_sum := ipv4_sum (octets ip) in
  let f := mkFields (48 + zlen body) (not16 (fold (u32_of (ipv4_checksum s + dest_sum + zlen body))))
    ip sp dp seq ack flags
    (not16 (fold (u32_of (tcp_checksum s + dest_sum + sp + dp + Z.shiftr seq 16
      + Z.land seq 65535 + Z.shiftr ack 16 + Z.land ack 65535 + flags + zlen body
      + sum_body body)))) in
  packet_valid (header l f ++ trailer ++ body).
Proof.
  intros [Htc Hic] Hoff Hip Hsp Hdp Hseq Hack Hfl Hb Hlb dest_sum f. rewrite Hoff in Htc.
  destruct (sum_body_spec body Hb) as [Hsb Hsbb]; [lia|].
  pose proof src_sum_bound. pose proof (words_is_word body Hb) as Hww.
  pose proof (zsum_bound _ Hww). pose proof (length_words body).
  assert (Hds : dest_sum = Z.shiftr ip 16 + Z.land ip 65535) by (by apply ipv4_sum_octets).
  pose proof (u32_halves _ Hip). pose proof (u32_halves _ Hseq). pose proof (u32_halves _ Hack).
  unfold in_width in *. pose proof Hl as (_ & _ & Hs & _).
  assert (E1 : 0 < ipv4_checksum s + dest_sum + zlen body < 2 ^ 32) by lia.
  assert (E2 : 0 < tcp_checksum s + dest_sum + sp + dp + Z.shiftr seq 16
      + Z.land seq 65535 + Z.shiftr ack 16 + Z.land ack 65535 + flags + zlen body
      + sum_body body < 2 ^ 32) by lia.
  eapply (packet_valid_of_sums l Hl f); try done; unfold octets; rewrite ?u32_small by lia;
    try done; cbn [f f_len f_dst f_sport f_dport f_seq f_ack f_flags].
  - unfold fields_ok, f. cbn [f_len f_ip_checksum f_dst f_sport f_dport f_seq f_ack f_flags
      f_tcp_checksum]. rewrite !u32_small by lia.
    split_and!; try apply not16_word, fold_word; unfold in_width; lia.
  - rewrite !zsum_be32 by done. unfold src_sum in *. lia.
  - rewrite !zsum_be32 by done. unfold src_sum in *. lia.
Qed.

(** *** Slots *)

(** Every descriptor points at a prepared frame, and the frames are apart. *)
Definition slots_ready (r : Ring Descriptor) (u : Umem) : Prop :=
  forall i d, ring r !! i = Some d ->
    frame_ready l u (d_addr d) /\ d_addr d + frame_size u - TxMetadata_LEN <= zlen (area u)
    /\ forall j d', i <> j -> ring r !! j = Some d' ->
         d_addr d + frame_size u <= d_addr d' \/ d_addr d' + frame_size u <= d_addr d.

Record net_ok (k : Z) (n : net) : Prop := {
  ok_sums : sender_ok (sender n);
  ok_slots : slots_ready (tx (sender n)) (umem n);
  ok_ring : zlen (ring (tx (sender n))) = Ring.size (tx (sender n))
            /\ 0 < Ring.size (tx (sender n)) < 2 ^ 32;
  (** [k] descriptors are reserved and not yet submitted *)
  ok_prod : cached_prod (tx (sender n)) = u32_of (tx_prod (sender n) + k)
            /\ in_u32 (tx_prod (sender n));
  ok_frame : 62 + TxMetadata_LEN <= frame_size (umem n) }.

Lemma desc_at_ok (r : Ring Descriptor) index :
  zlen (ring r) = Ring.size r -> 0 < Ring.size r ->
  exists d, desc_at r index = Ret d /\ ring r !! Z.to_nat (slot_of r index) = Some d.
Proof.
  intros Hlen Hs. unfold desc_at, ring_get, slot_of. pose proof (Z.mod_pos_bound index _ Hs).
  destruct (ring r !! _) as [d|] eqn:E; [by exists d|]. apply lookup_ge_None in E. lia.
Qed.

(** Rewriting the frame of a slot keeps every slot ready. *)
Lemma slots_ready_write r u u' index d d' f :
  slots_ready r u -> ring r !! Z.to_nat (slot_of r index) = Some d ->
  same_but (d_addr d) (frame_size u) u u' -> load u' (d_addr d) 62 = Ret (header l f ++ trailer) ->
  d_addr d' = d_addr d -> 62 <= frame_size u -> slots_ready (ring_set r index d') u'.
Proof.
  intros Hr Hd (Hfs & Hlen & Hsame) Hload Had Hf i e Hi. simpl in Hi.
  assert (Hentry : forall k e, <[Z.to_nat (slot_of r index):=d']> (ring r) !! k = Some e ->
    exists e0, ring r !! k = Some e0 /\ d_addr e = d_addr e0).
  { intros k e0 [(<- & <- & _)|[_ Hk]]%list_lookup_insert_Some; eauto. }
  destruct (Hentry i e Hi) as (e0 & Hi0 & ->). destruct (Hr i e0 Hi0) as (Hready & Hroom & Hapart).
  rewrite Hfs, Hlen. split_and!; [|done|].
  - destruct (decide (i = Z.to_nat (slot_of r index))) as [->|Hne].
    + assert (e0 = d) as -> by congruence. destruct Hready as (? & ? & _).
      split_and!; [done|lia|by exists f].
    + destruct Hready as (Ha & Hb & f0 & Hl0). split_and!; [done|lia|]. exists f0.
      rewrite Hsame by (first [lia | destruct (Hapart _ _ Hne Hd); lia]). done.
  - intros j e1 Hne Hj. destruct (Hentry j e1 Hj) as (e2 & Hj2 & ->). by apply (Hapart j).
Qed.

(** The packet at [index] after a write: its bytes and its descriptor. *)
Definition holds (n : net) (index : Z) (f : fields) (body : list Z) : Prop :=
  exists d, desc_at (tx (sender n)) index = Ret d /\ d_len d = 62 + zlen body
    /\ load (umem n) (d_addr d) (d_len d) = Ret (header l f ++ trailer ++ body).

Lemma desc_at_set (r : Ring Descriptor) index d d0 :
  ring r !! Z.to_nat (slot_of r index) = Some d0 -> desc_at (ring_set r index d) index = Ret d.
Proof.
  intros Hd. unfold desc_at, ring_get, ring_set, slot_of in *. simpl.
  rewrite list_lookup_insert_eq; [done|]. by eapply lookup_lt_Some.
Qed.

(** The bytes from [a] on are in none of the frames of the transmit ring. *)
Definition apart (n : net) (a m : Z) : Prop :=
  Forall (fun x => a + m <= x \/ x + frame_size (umem n) - TxMetadata_LEN <= a)
    (d_addr <$> ring (tx (sender n))).

(** The descriptors name the same frames, and memory outside them is the same. *)
Definition untouched (n n' : net) : Prop :=
  (d_addr <$> ring (tx (sender n'))) = (d_addr <$> ring (tx (sender n)))
  /\ frame_size (umem n') = frame_size (umem n)
  /\ length (area (umem n')) = length (area (umem n))
  /\ forall a m, 0 <= a -> 0 <= m -> apart n a m -> load (umem n') a m = load (umem n) a m.

#[global] Instance untouched_preorder : PreOrder untouched.
Proof.
  split; [done|]. intros x y z (E1 & E2 & E3 & E4) (F1 & F2 & F3 & F4). split_and!; [congruence..|].
  intros a m Ha Hm Hap. rewrite F4, E4; try done. unfold apart in *. by rewrite E1, E2.
Qed.

(** The packets at the other slots stay as they are. *)
Definition keeps (n : net) (index : Z) (n' : net) : Prop :=
  Ring.size (tx (sender n')) = Ring.size (tx (sender n))
  /\ frame_size (umem n') = frame_size (umem n)
  /\ checksum_offload (sender n') = checksum_offload (sender n)
  /\ (forall j f body,
       slot_of (tx (sender n)) j <> slot_of (tx (sender n)) index ->
       62 + zlen body <= frame_size (umem n) -> holds n j f body -> holds n' j f body)
  /\ untouched n n'.

Lemma put_desc_ok k n index d d' u' f body :
  net_ok k n -> ring (tx (sender n)) !! Z.to_nat (slot_of (tx (sender n)) index) = Some d ->
  d_addr d' = d_addr d -> d_len d' = 62 + zlen body ->
  same_but (d_addr d) (62 + zlen body) (umem n) u' ->
  62 + TxMetadata_LEN + zlen body <= frame_size (umem n) ->
  load u' (d_addr d) (62 + zlen body) = Ret (header l f ++ trailer ++ body) ->
  net_ok k (put_desc n index d' u') /\ holds (put_desc n index d' u') index f body
  /\ keeps n index (put_desc n index d' u').
Proof.
  intros [Hsum Hsl [Hr1 Hr2] Hp Hfr] Hd Ha Hlen Hsame Hfit' Hload.
  assert (Hfit : 62 + zlen body <= frame_size (umem n)) by (unfold TxMetadata_LEN in Hfit'; lia).
  assert (Hhl : zlen (header l f) = 52) by (by rewrite (length_header l _ Hl)).
  destruct (load_app u' (d_addr d) 62 (zlen body) (header l f ++ trailer) body) as [Hl62 _];
    [by rewrite <- app_assoc|rewrite length_app; simpl; lia|lia|].
  split; [|split].
  - constructor; simpl; try done.
    + eapply slots_ready_write; try done; [|lia].
      eapply same_but_weaken; [exact Hsame|lia..].
    + by rewrite length_insert.
    + destruct Hsame as (-> & _). done.
  - exists d'. simpl. split_and!; [by eapply desc_at_set|done|]. by rewrite Ha, Hlen.
  - destruct Hsame as (Hfs & Hal & Hsame). split_and!; [done..| |split_and!; [|done..|]].
    2: { simpl. rewrite list_fmap_insert, Ha. apply list_insert_id. by rewrite list_lookup_fmap, Hd. }
    2: { intros a m H0 H1 Hap. apply Hsame; [done..|]. unfold apart in Hap. rewrite Forall_fmap in Hap.
         apply (Forall_lookup_1 _ _ _ _ Hap) in Hd. simpl in Hd. lia. }
    intros j g b Hj Hb (e & He & Hel & Hload'). exists e. simpl. unfold desc_at, ring_get in *. simpl.
    change (slot_of (ring_set _ _ _) j) with (slot_of (tx (sender n)) j).
    destruct (ring (tx (sender n)) !! Z.to_nat (slot_of (tx (sender n)) j)) as [e'|] eqn:Ej; [|done].
    simplify_eq. unfold slot_of in *.
    pose proof (Z.mod_pos_bound j (Ring.size (tx (sender n)))).
    pose proof (Z.mod_pos_bound index (Ring.size (tx (sender n)))).
    assert (Hne : Z.to_nat (j mod Ring.size (tx (sender n)))
                  <> Z.to_nat (index mod Ring.size (tx (sender n)))) by lia.
    rewrite list_lookup_insert_ne by done. rewrite Ej. split_and!; [done..|].
    pose proof (load_inv _ _ _ _ Hload') as (? & ? & _).
    destruct (Hsl _ _ Ej) as (_ & _ & Hap). destruct (Hap _ _ Hne Hd);
      rewrite Hsame; try done; lia.
Qed.

(** The fields of a prepared frame. *)
Definition blank : fields := mkFields 48 0 0 0 0 0 0 0 0.

Lemma template_header :
  list_inserts 26 (octets (source_ip l))
    (list_inserts 6 (interface l) (list_inserts 0 (gateway l) TCP_PACKET))
  = header l blank ++ trailer.
Proof.
  destruct Hl as (Hg & Hi & _). unfold header.
  destruct (gateway l) as [|? [|? [|? [|? [|? [|? []]]]]]]; try discriminate Hg.
  destruct (interface l) as [|? [|? [|? [|? [|? [|? []]]]]]]; try discriminate Hi.
  unfold octets, be32_bytes. reflexivity.
Qed.

(** *** The three writes *)

(** From here on the fields are moved by the lemmas above only. *)
Local Opaque set_len set_ip_checksum set_dest_addr set_source_port set_dest_port set_seq set_ack
  set_flags set_tcp_checksum header cookie fold not16.

(** Runs the header edit of a write, which leaves the fields [f]. *)
Local Ltac edit_with f :=
  match goal with
  | |- context [edit_header ?u ?a ?g] =>
      destruct (edit_header_ok u a g f) as (u' & -> & Hsame & Hload);
      [done|unfold TxMetadata_LEN in *; lia| |]
  end.

(** The fields each of them asks for; the TCP checksum is given apart. *)
Definition asked (s : Sender) (ip : Ipv4Addr) (sp dp seq ack flags len tcp_ck : Z) : fields :=
  mkFields (48 + len) (not16 (fold (u32_of (ipv4_checksum s + ipv4_sum (octets ip) + len))))
    ip sp dp seq ack flags tcp_ck.

Lemma write_syn_ok k n index sp ip dp seed :
  net_ok k n ->
  let s := sender n in
  let seq := cookie ip dp seed in
  exists n', write_syn index (mkTemplate sp ip dp) seed n = Ret n' /\ net_ok k n' /\ keeps n index n'
    /\ env n' = env n /\ tx_prod (sender n') = tx_prod s
    /\ holds n' index (asked s ip sp dp seq 0 Syn 0
         (if checksum_offload s then fold (u32_of (tcp_checksum s + ipv4_sum (octets ip)))
          else not16 (fold (u32_of (tcp_checksum s + ipv4_sum (octets ip) + sp + dp
                 + Z.shiftr seq 16 + Z.land seq 65535 + 2))))) [].
Proof.
  intros Hn s seq. pose proof Hn as [_ Hsl [Hr1 Hr2] _ Hfr]. unfold write_syn.
  destruct (desc_at_ok (tx (sender n)) index Hr1) as (d & -> & Hd); [lia|].
  cbn [mbind outcome_bind]. destruct (Hsl _ _ Hd) as (Hready & _ & _).
  set (ck := if checksum_offload s then _ else _).
  edit_with (asked s ip sp dp seq 0 Syn 0 ck).
  { intros [a b c e g h i j x]. cbv zeta. autorewrite with header. unfold asked. by rewrite !Z.add_0_r. }
  cbn [mbind outcome_bind]. eexists. split; [done|].
  destruct (put_desc_ok k n index d (mkDesc (d_addr d) 62 (d_options d)) u'
    (asked s ip sp dp seq 0 Syn 0 ck) []) as (Hok & Hh & Hk); try done.
  eapply same_but_weaken; [exact Hsame|simpl; lia..].
Qed.

Lemma write_flags_ok k n index flags ip sp dp seq ack :
  net_ok k n ->
  let s := sender n in
  exists n', write_flags index flags ip sp dp seq ack n = Ret n' /\ net_ok k n' /\ keeps n index n'
    /\ env n' = env n /\ tx_prod (sender n') = tx_prod s
    /\ holds n' index (asked s ip sp dp seq ack flags 0
         (if checksum_offload s then fold (u32_of (tcp_checksum s + ipv4_sum (octets ip)))
          else not16 (fold (u32_of (tcp_checksum s + ipv4_sum (octets ip) + sp + dp
                 + Z.shiftr seq 16 + Z.land seq 65535 + Z.shiftr ack 16 + Z.land ack 65535
                 + flags))))) [].
Proof.
  intros Hn s. pose proof Hn as [_ Hsl [Hr1 Hr2] _ Hfr]. unfold write_flags.
  destruct (desc_at_ok (tx (sender n)) index Hr1) as (d & -> & Hd); [lia|].
  cbn [mbind outcome_bind]. destruct (Hsl _ _ Hd) as (Hready & _ & _).
  set (ck := if checksum_offload s then _ else _).
  edit_with (asked s ip sp dp seq ack flags 0 ck).
  { intros [a b c e g h i j x]. cbv zeta. autorewrite with header. unfold asked. by rewrite !Z.add_0_r. }
  cbn [mbind outcome_bind]. eexists. split; [done|].
  destruct (put_desc_ok k n index d (mkDesc (d_addr d) 62 (d_options d)) u'
    (asked s ip sp dp seq ack flags 0 ck) []) as (Hok & Hh & Hk); try done.
  eapply same_but_weaken; [exact Hsame|simpl; lia..].
Qed.

Lemma write_data_ok k n index ip sp dp seq ack body :
  net_ok k n -> 62 + TxMetadata_LEN + zlen body <= frame_size (umem n) -> zlen body <= 65000 ->
  let s := sender n in
  exists n', write_data index ip sp dp seq ack body n = Ret n' /\ net_ok k n' /\ keeps n index n'
    /\ env n' = env n /\ tx_prod (sender n') = tx_prod s
    /\ holds n' index (asked s ip sp dp seq ack 24 (zlen body)
         (if checksum_offload s then fold (u32_of (tcp_checksum s + ipv4_sum (octets ip)))
          else not16 (fold (u32_of (tcp_checksum s + ipv4_sum (octets ip) + sp + dp
                 + Z.shiftr seq 16 + Z.land seq 65535 + Z.shiftr ack 16 + Z.land ack 65535
                 + 24 + zlen body + sum_body body))))) body.
Proof.
  intros Hn Hfit Hlb s. pose proof Hn as [_ Hsl [Hr1 Hr2] _ Hfr]. unfold write_data.
  unfold TxMetadata_LEN in *.
  destruct (desc_at_ok (tx (sender n)) index Hr1) as (d & -> & Hd); [lia|].
  cbn [mbind outcome_bind]. destruct (Hsl _ _ Hd) as ((Ha & Hb & f0 & Hl0) & Hroom & _).
  rewrite (proj2 (Z.ltb_ge (frame_size (umem n)) _)) by lia.
  rewrite (u32_small (zlen body)), (u32_small (62 + zlen body)) by lia.
  assert (u16_of (48 + u16_of (zlen body)) = 48 + zlen body) as ->
    by (unfold u16_of; rewrite (wrap_small 16 (zlen body)), wrap_small; unfold in_width; lia).
  destruct (store_ok (umem n) (d_addr d + 62) body) as (u1 & -> & Hfs1 & Hlen1 & Hsame1 & Hread1);
    [lia|unfold TxMetadata_LEN in Hroom; lia|].
  cbn [mbind outcome_bind].
  assert (Hready1 : frame_ready l u1 (d_addr d)).
  { split_and!; [done|lia|]. exists f0. rewrite Hsame1 by lia. done. }
  assert (Hsb1 : same_but (d_addr d) (62 + zlen body) (umem n) u1).
  { split_and!; [done..|]. intros a m ? ? ?. apply Hsame1; lia. }
  set (ck := if checksum_offload s then _ else _).
  edit_with (asked s ip sp dp seq ack 24 (zlen body) ck).
  { intros [a b c e g h i j x]. cbv zeta. autorewrite with header. done. }
  cbn [mbind outcome_bind]. eexists. split; [done|].
  destruct (put_desc_ok k n index d (mkDesc (d_addr d) (62 + zlen body) (d_options d)) u'
    (asked s ip sp dp seq ack 24 (zlen body) ck) body) as (Hok & Hh & Hk); try done.
  - eapply same_but_trans; [exact Hsb1|]. eapply same_but_weaken; [exact Hsame|lia..].
  - rewrite app_assoc. apply load_join; [exact Hload|].
    destruct Hsame as (_ & _ & ->); [done|lia..].
Qed.

Context `{KernelConsts}.

(** *** Preparing the frames *)

Lemma init_frame_ok offload index r u :
  zlen (ring r) = size r -> 0 < size r -> 0 <= index ->
  (index + 1) * frame_size u <= zlen (area u) -> 62 + TxMetadata_LEN <= frame_size u ->
  exists d u', init_frame (gateway l) (interface l) (octets (source_ip l)) offload index (r, u)
      = Ret (ring_set r index d, u')
    /\ d_addr d = index * frame_size u + TxMetadata_LEN
    /\ same_but (index * frame_size u) (frame_size u) u u'
    /\ load u' (d_addr d) 62 = Ret (header l blank ++ trailer).
Proof.
  intros Hlen Hs Hi Hroom Hfs. unfold init_frame, TxMetadata_LEN in *.
  destruct (desc_at_ok r index Hlen Hs) as (d0 & -> & _). cbn [mbind outcome_bind].
  set (a := index * frame_size u) in *. assert (Ha : 0 <= a) by (unfold a; nia).
  assert (Hm : exists u0, (if offload then store u a (TxMetadata_bytes
      (TxMetadata_request TXMD_CHECKSUM 34 16 0)) else Ret u) = Ret u0 /\ same_but a (frame_size u) u u0).
  { destruct offload; [|by exists u].
    destruct (store_ok u a (TxMetadata_bytes (TxMetadata_request TXMD_CHECKSUM 34 16 0)))
      as (u0 & -> & ? & ? & Hsame & _); [lia|simpl; lia|]. exists u0. split_and!; try done.
    split_and!; try done. intros. apply Hsame; simpl; lia. }
  destruct Hm as (u0 & -> & H0 & H0' & H0s). cbn [mbind outcome_bind].
  destruct (store_ok u0 (a + 24) TCP_PACKET) as (u1 & -> & H1 & H1' & H1s & Hl1);
    [lia|change (zlen TCP_PACKET) with 62; lia|]. change (zlen TCP_PACKET) with 62 in *.
  cbn [mbind outcome_bind]. destruct Hl as (Hg & Hif & _).
  destruct (store_within _ _ _ _ 0 (gateway l) Hl1) as (u2 & E2 & H2 & H2' & H2s & Hl2); [lia|lia|].
  rewrite Z.add_0_r in E2. rewrite E2. cbn [mbind outcome_bind].
  destruct (store_within _ _ _ _ 6 (interface l) Hl2) as (u3 & -> & H3 & H3' & H3s & Hl3); [lia|lia|].
  cbn [mbind outcome_bind].
  destruct (store_within _ _ _ _ 26 (octets (source_ip l)) Hl3) as (u4 & -> & H4 & H4' & H4s & Hl4);
    [lia|simpl; lia|].
  cbn [mbind outcome_bind]. eexists _, u4. split; [done|]. simpl. split; [done|].
  rewrite <- template_header. split; [|exact Hl4].
  split_and!; [congruence|congruence|]. intros b m ? ? ?. simpl in H4s.
  rewrite H4s, H3s, H2s, H1s, H0s; try done; lia.
Qed.

(** The frames from [start] on, [j] of them, are prepared. *)
Definition prepared (start j : Z) (fs : Z) (r : Ring Descriptor) (u : Umem) : Prop :=
  forall i, start <= i < start + j ->
    exists d, ring r !! Z.to_nat (slot_of r i) = Some d /\ d_addr d = i * fs + TxMetadata_LEN
      /\ load u (d_addr d) 62 = Ret (header l blank ++ trailer).

Lemma init_frames_ok offload start m : forall j r u,
  zlen (ring r) = size r -> 0 <= start -> 0 <= j -> j + Z.of_nat m <= size r -> 0 < size r ->
  (start + size r) * frame_size u <= zlen (area u) -> 62 + TxMetadata_LEN <= frame_size u ->
  prepared start j (frame_size u) r u ->
  exists r' u', init_frames m (gateway l) (interface l) (octets (source_ip l)) offload (start + j) (r, u)
      = Ret (r', u')
    /\ size r' = size r /\ cached_prod r' = cached_prod r /\ length (ring r') = length (ring r)
    /\ same_but (start * frame_size u) (size r * frame_size u) u u'
    /\ prepared start (j + Z.of_nat m) (frame_size u) r' u'.
Proof.
  induction m as [|m IH]; intros j r u Hlen Hst Hj Hjm Hs Hroom Hfs Hp; cbn [init_frames].
  { exists r, u. rewrite Z.add_0_r. by split_and!. }
  destruct (init_frame_ok offload (start + j) r u) as (d & u1 & -> & Hd & Hsame & Hload);
    [done|done|lia|nia|done|].
  cbn [mbind outcome_bind]. replace (start + j + 1) with (start + (j + 1)) by lia.
  pose proof Hsame as (Hf1 & Hl1 & Hs1).
  assert (Hslot : (Z.to_nat (slot_of r (start + j)) < length (ring r))%nat).
  { unfold slot_of. pose proof (Z.mod_pos_bound (start + j) (size r)). lia. }
  destruct (IH (j + 1) (ring_set r (start + j) d) u1) as (r' & u' & -> & E1 & E2 & E3 & E4 & E5);
    simpl; rewrite ?length_insert, ?Hf1; try done; try lia.
  - intros i Hi. change (slot_of (ring_set r (start + j) d) i) with (slot_of r i).
    destruct (decide (i = start + j)) as [->|Hne]; simpl.
    + exists d. by rewrite list_lookup_insert_eq.
    + destruct (Hp i ltac:(lia)) as (e & He & Ha & Hle). exists e.
      rewrite list_lookup_insert_ne; [|apply slots_differ; lia]. split_and!; try done.
      unfold TxMetadata_LEN in *. rewrite Hs1; [done|nia..].
  - exists r', u'. simpl in *. rewrite length_insert in E3. rewrite Hf1 in *.
    replace (j + Z.of_nat (S m)) with (j + 1 + Z.of_nat m) by lia. split_and!; try done.
    eapply same_but_trans; [|exact E4]. unfold TxMetadata_LEN in Hfs.
    eapply same_but_weaken; [exact Hsame|nia..].
Qed.

Lemma start_sums (offload : bool) r prod :
  sender_ok (mkSender
    (if offload then u32_of (6 + 28 + ipv4_sum (octets (source_ip l)))
     else u32_of (6 + 28 + sum_body (take 28 (drop 34 TCP_PACKET)) + ipv4_sum (octets (source_ip l))))
    (u32_of (sum_body (take 20 (drop 14 TCP_PACKET)) + ipv4_sum (octets (source_ip l))))
    r prod offload).
Proof.
  unfold sender_ok. cbn [tcp_checksum ipv4_checksum checksum_offload].
  rewrite ipv4_sum_octets by apply Hl. fold src_sum. pose proof src_sum_bound.
  change (sum_body (take 28 (drop 34 TCP_PACKET))) with 64579.
  change (sum_body (take 20 (drop 14 TCP_PACKET))) with 50487.
  destruct offload; rewrite !u32_small by lia; lia.
Qed.

(** The frame behind a slot. *)
Lemma prepared_slot start fs r u i d :
  prepared start (size r) fs r u -> zlen (ring r) = size r -> ring r !! i = Some d ->
  exists k, 0 <= k < size r /\ i = Z.to_nat (slot_of r (start + k))
    /\ d_addr d = (start + k) * fs + TxMetadata_LEN /\ load u (d_addr d) 62 = Ret (header l blank ++ trailer).
Proof.
  intros Hp Hlen Hi. pose proof (lookup_lt_Some _ _ _ Hi).
  exists ((Z.of_nat i - start) mod size r). assert (Hk := Z.mod_pos_bound (Z.of_nat i - start) (size r) ltac:(lia)).
  assert (Hslot : i = Z.to_nat (slot_of r (start + (Z.of_nat i - start) mod size r))).
  { unfold slot_of. rewrite Zplus_mod_idemp_r. replace (start + (Z.of_nat i - start)) with (Z.of_nat i) by lia.
    rewrite Z.mod_small; lia. }
  destruct (Hp (start + (Z.of_nat i - start) mod size r)) as (d0 & Hd0 & Ha & Hload); [lia|].
  rewrite <- Hslot in Hd0. assert (d0 = d) as -> by congruence. done.
Qed.

(** Prepared frames, one per slot, are what the sends need. *)
Lemma slots_ready_prepared start fs r u :
  prepared start (size r) fs r u -> zlen (ring r) = size r -> fs = frame_size u ->
  0 <= start -> (start + size r) * fs <= zlen (area u) -> 62 + TxMetadata_LEN <= fs ->
  slots_ready r u.
Proof.
  intros Hp Hlen -> Hst Hroom Hfs i d Hi.
  destruct (prepared_slot _ _ _ _ _ _ Hp Hlen Hi) as (k & Hk & -> & Ha & Hload). unfold TxMetadata_LEN in *.
  split; [split_and!; [nia|nia|by exists blank]|]. split; [nia|].
  intros j d' Hne Hj. destruct (prepared_slot _ _ _ _ _ _ Hp Hlen Hj) as (k' & Hk' & -> & Ha' & _).
  assert (k <> k') by congruence. unfold TxMetadata_LEN in *. rewrite Ha, Ha'. nia.
Qed.

Lemma sender_new_ok (offload : bool) (u : Umem) (r : Ring Descriptor) (prod start : Z) c e :
  zlen (ring r) = size r -> 0 < size r -> 0 <= start -> start + size r < 2 ^ 32 ->
  cached_prod r = prod -> in_u32 prod ->
  (start + size r) * frame_size u <= zlen (area u) -> 62 + TxMetadata_LEN <= frame_size u ->
  exists s u', sender_new (gateway l) (interface l) (source_ip l) offload u r prod start = Ret (s, u')
    /\ net_ok 0 (mkNet s u' c e) /\ checksum_offload s = offload /\ tx_prod s = prod
    /\ size (tx s) = size r
    /\ same_but (start * frame_size u) (size r * frame_size u) u u'
    /\ forall d, d ∈ ring (tx s) -> exists i, start <= i < start + size r
         /\ d_addr d = i * frame_size u + TxMetadata_LEN.
Proof.
  intros Hlen Hs Hst Hend Hcp Hpr Hroom Hfs. unfold sender_new.
  rewrite (u32_small (start + size r)) by lia. replace (start + size r - start) with (size r) by lia.
  destruct (init_frames_ok offload start (Z.to_nat (size r)) 0 r u)
    as (r' & u' & Hrun & E1 & E2 & E3 & E4 & E5); try done; try lia.
  { intros i Hi. lia. }
  rewrite !Z.add_0_r in Hrun. rewrite Hrun. cbn [mbind outcome_bind].
  replace (0 + Z.of_nat (Z.to_nat (size r))) with (size r') in E5 by lia.
  eexists _, u'. split; [done|]. split_and!; try done.
  2: { intros d [i Hi]%list_elem_of_lookup. cbn [tx] in Hi.
       destruct (prepared_slot _ _ _ _ _ _ E5 ltac:(lia) Hi) as (k & Hk & _ & Ha & _).
       exists (start + k). split; [lia|done]. }
  destruct E4 as (F1 & F2 & F3). constructor; cbn [sender umem tx tx_prod].
  - by apply start_sums.
  - apply slots_ready_prepared with start (frame_size u); try done; try lia.
  - rewrite E1, E3. lia.
  - rewrite E2, Z.add_0_r, u32_small; done.
  - by rewrite F1.
Qed.

(** *** Reserving and submitting *)

(** What an [acquire] may change of the state. *)
Definition only_reserved (n n' : net) : Prop :=
  umem n' = umem n /\ tx_prod (sender n') = tx_prod (sender n)
  /\ checksum_offload (sender n') = checksum_offload (sender n)
  /\ size (tx (sender n')) = size (tx (sender n))
  /\ ring (tx (sender n')) = ring (tx (sender n)).

Lemma only_reserved_untouched n n' : only_reserved n n' -> untouched n n'.
Proof. intros (Hu & _ & _ & _ & Hr). unfold untouched. by rewrite Hu, Hr. Qed.

Lemma net_ok_with_tx k s u c e r :
  net_ok 0 (mkNet s u c e) -> size r = size (tx s) -> ring r = ring (tx s) ->
  cached_prod r = u32_of (tx_prod s + k) -> forall c' e', net_ok k (mkNet (with_tx s r) u c' e').
Proof.
  intros [Hsum Hsl Hr Hp Hfr] Hs Hri Hcp c' e'. simpl in *. constructor; simpl; try done.
  - intros i d. simpl. rewrite Hri. apply Hsl.
  - by rewrite Hs, Hri.
  - by split; [|apply Hp].
Qed.

Lemma acquire_ok n k :
  net_ok 0 n ->
  match acquire k n with
  | Ret (Ok index, n') => index = tx_prod (sender n) /\ net_ok k n' /\ only_reserved n n'
  | Ret (Err _, n') => net_ok 0 n' /\ only_reserved n n'
  | Fault f => f = OutOfFuel
  end.
Proof.
  destruct n as [s u c e]. unfold acquire. simpl. revert s c.
  induction e as [|t e IH]; intros s c Hn; [done|]. simpl.
  assert (Hcp : cached_prod (tx s) = tx_prod s).
  { destruct Hn as [_ _ _ [Hc Hw] _]. simpl in *. rewrite Hc, Z.add_0_r. by apply wrap_small. }
  destruct (_ && _); [split; [destruct Hn; by constructor|done]|].
  destruct (reserve _ _ _) as [[ix|] r] eqn:Er; apply reserve_facts in Er as (Hs & Hr & Hf).
  - destruct Hf as [-> Hf]. split; [done|]. split; [|done]. eapply net_ok_with_tx; try done. congruence.
  - destruct Hf as [Hf _]. destruct (completer_tick _ _ _) as [b c'].
    assert (Hn' : net_ok 0 (mkNet (with_tx s r) u c' e)).
    { eapply net_ok_with_tx; try done. rewrite Z.add_0_r, u32_small; [congruence|].
      by destruct Hn as [_ _ _ [_ Hw] _]. }
    specialize (IH _ c' Hn'). unfold only_reserved in *. simpl in *. destruct (acquire_loop _ _ _ _ _) as [[[index|?] n']|f];
      [destruct IH as (-> & ? & ? & ? & ? & ? & ?)|destruct IH as (? & ? & ? & ? & ? & ?)|done];
      split_and!; congruence.
Qed.

Lemma finish_ok n k :
  0 <= k -> net_ok k n ->
  match finish k n with
  | Ret (_, n') => net_ok 0 n' /\ tx_prod (sender n') = u32_of (tx_prod (sender n) + k)
                  /\ tx (sender n') = tx (sender n) /\ umem n' = umem n
  | Fault f => f = OutOfFuel
  end.
Proof.
  intros Hk [Hsum Hsl Hr [Hp Hw] Hfr]. unfold finish. destruct (env n) as [|t e]; [done|]. simpl.
  assert (Hok : forall c e', net_ok 0 (mkNet (mkSender (tcp_checksum (sender n))
     (ipv4_checksum (sender n)) (tx (sender n)) (u32_of (tx_prod (sender n) + k))
     (checksum_offload (sender n))) (umem n) c e')).
  { intros c e'. constructor; simpl; try done. split; [|apply wrap_width; lia].
    rewrite Z.add_0_r, Hp. unfold u32_of. by rewrite wrap_wrap. }
  by destruct (_ && _); split_and!.
Qed.

Lemma sent_valid_nil s ip sp dp seq ack flags sum :
  sender_ok s -> checksum_offload s = false ->
  in_u32 ip -> in_u16 sp -> in_u16 dp -> in_u32 seq -> in_u32 ack -> in_u8 flags ->
  sum = tcp_checksum s + ipv4_sum (octets ip) + sp + dp + Z.shiftr seq 16 + Z.land seq 65535
        + Z.shiftr ack 16 + Z.land ack 65535 + flags ->
  packet_valid (header l (asked s ip sp dp seq ack flags 0 (not16 (fold (u32_of sum))))
                ++ trailer ++ []).
Proof.
  intros Hs Hoff Hip Hsp Hdp Hseq Hack Hfl ->.
  assert (Hv := sent_valid s ip sp dp seq ack flags [] Hs Hoff Hip Hsp Hdp Hseq Hack Hfl).
  cbv zeta in Hv. change (zlen []) with 0 in Hv. change (sum_body []) with 0 in Hv.
  rewrite !Z.add_0_r in Hv. unfold asked. rewrite !Z.add_0_r. apply Hv; [constructor|lia].
Qed.

(** The loop ends as soon as a look finds room, or earlier. *)
Definition has_room (k : Z) (s : Sender) (t : turn) : Prop :=
  k <= u32_of (u32_of (k_cons t + size (tx s)) - tx_prod s).

Lemma acquire_returns k e1 t e2 s u c :
  net_ok 0 (mkNet s u c (e1 ++ t :: e2)) -> has_room k s t ->
  Forall (fun t => k_sendto t = true) (e1 ++ t :: e2) ->
  exists n' e3, acquire k (mkNet s u c (e1 ++ t :: e2)) = Ret (Ok (tx_prod s), n')
    /\ net_ok k n' /\ only_reserved (mkNet s u c (e1 ++ t :: e2)) n' /\ env n' = e3 ++ e2
    /\ Forall (fun t => k_sendto t = true) (env n').
Proof.
  intros Hn Hroom Hsend. pose proof (acquire_ok _ k Hn) as Hok.
  assert (Hret : exists n' ix e3, acquire k (mkNet s u c (e1 ++ t :: e2)) = Ret (Ok ix, n')
    /\ env n' = e3 ++ e2 /\ Forall (fun t => k_sendto t = true) (env n')).
  { clear Hok. unfold acquire. simpl. revert s c Hn Hroom.
    induction e1 as [|t1 e1 IH]; intros s c Hn Hroom; simpl.
    all: apply Forall_cons in Hsend as [Hs1 Hsend]; rewrite Hs1, andb_false_r.
    all: destruct (reserve _ _ _) as [[ix|] r] eqn:Er;
      [eexists _, ix, _; split; [done|]; split; [|done]; simpl;
       first [instantiate (1 := []); done | instantiate (1 := e1 ++ [t]); by rewrite <- app_assoc]|].
    all: apply reserve_facts in Er as (Hs & Hr & Hf & Hlt).
    all: assert (Hcp : cached_prod (tx s) = tx_prod s)
      by (destruct Hn as [_ _ _ [Hc Hw] _]; simpl in *; rewrite Hc, Z.add_0_r; by apply wrap_small).
    - unfold has_room in Hroom. simpl in Hlt. rewrite Hcp in Hlt. lia.
    - destruct (completer_tick _ _ _) as [b c']. apply IH; [done| |].
      + eapply net_ok_with_tx; try done. rewrite Z.add_0_r, u32_small; [congruence|].
        by destruct Hn as [_ _ _ [_ Hw] _].
      + unfold has_room in *. simpl. by rewrite Hs. }
  destruct Hret as (n' & ix & e3 & Hret & He & Hfa). rewrite Hret in Hok.
  destruct Hok as (-> & ? & ?). exists n', e3. by split_and!.
Qed.

(** What a send promises: it leaves the sender ready for the next one, and
    either it fails before the memory is touched, or it submits the one
    descriptor at the producer counter and the frame that descriptor names
    satisfies [wire].  The only other end is that the ring stays full for all
    of [env]. *)
Definition submits (n : net) (wire : list Z -> Prop) (o : outcome (result unit unit * net)) : Prop :=
  match o with
  | Ret (r, n') =>
      net_ok 0 n'
      /\ ((r = Err tt /\ tx_prod (sender n') = tx_prod (sender n) /\ umem n' = umem n)
          \/ (tx_prod (sender n') = u32_of (tx_prod (sender n) + 1)
              /\ exists d frame, desc_at (tx (sender n')) (tx_prod (sender n)) = Ret d
                   /\ load (umem n') (d_addr d) (d_len d) = Ret frame /\ wire frame))
  | Fault f => f = OutOfFuel
  end.

(** The frame is a TCP packet from this host with these fields. *)
Definition is_tcp (ip : Ipv4Addr) (sp dp seq ack flags : Z) (body frame : list Z) : Prop :=
  exists ip_ck tcp_ck,
    frame = header l (mkFields (48 + zlen body) ip_ck ip sp dp seq ack flags tcp_ck)
            ++ trailer ++ body.

Lemma send_with_ok n write (wire : list Z -> Prop) body :
  net_ok 0 n ->
  (forall m, net_ok 1 m -> only_reserved n m ->
     exists m' f, write (tx_prod (sender n)) m = Ret m' /\ net_ok 1 m'
       /\ tx_prod (sender m') = tx_prod (sender n)
       /\ holds m' (tx_prod (sender n)) f body
       /\ (sender_ok (sender m) -> wire (header l f ++ trailer ++ body))) ->
  submits n wire (send_with write n).
Proof.
  intros Hn Hw. unfold send_with. pose proof (acquire_ok n 1 Hn) as Ha.
  destruct (acquire 1 n) as [[[index|[]] m]|f]; simpl; [|destruct Ha as [Ha1 (Ha2 & Ha3 & _)]; auto|done].
  destruct Ha as (-> & Hm & Hres). destruct (Hw m Hm Hres) as (m' & f & -> & Hm' & Hp & Hh & Hwire).
  cbn [mbind outcome_bind]. pose proof (finish_ok m' 1 ltac:(lia) Hm') as Hf.
  destruct (finish 1 m') as [[r n']|f']; [|done]. destruct Hf as (Hn' & Hpr & Htx & Hu).
  split; [done|]. right. rewrite Hpr, Hp. split; [done|]. destruct Hh as (d & Hd & Hlen & Hload).
  exists d, (header l f ++ trailer ++ body). rewrite Htx, Hu. split_and!; try done.
  apply Hwire. apply Hm.
Qed.

Local Ltac fields :=
  cbn [f_len f_ip_checksum f_dst f_sport f_dport f_seq f_ack f_flags f_tcp_checksum asked].

Lemma offloaded `{TxChecksum} s ip sp dp seq ack flags :
  sender_ok s -> checksum_offload s = true ->
  in_u32 ip -> in_u16 sp -> in_u16 dp -> in_u32 seq -> in_u32 ack -> in_u8 flags ->
  let frame := header l (asked s ip sp dp seq ack flags 0
    (fold (u32_of (tcp_checksum s + ipv4_sum (octets ip))))) ++ trailer ++ [] in
  is_tcp ip sp dp seq ack flags [] (tx_checksum 34 16 frame)
  /\ packet_valid (tx_checksum 34 16 frame).
Proof.
  intros [Htc Hic] Hoff Hip Hsp Hdp Hseq Hack Hfl frame. rewrite Hoff in Htc.
  pose proof Hl as (_ & _ & Hs & _). pose proof src_sum_bound. pose proof (u32_halves _ Hip).
  assert (Hds := ipv4_sum_octets ip Hip).
  assert (Hw : forall x, 0 <= x < 2 ^ 32 -> in_u16 (fold x) /\ in_u16 (not16 (fold x))).
  { intros x Hx. pose proof (fold_word x Hx). split; [unfold in_width; lia|by apply not16_word]. }
  unfold frame. edestruct (offload_valid l (asked s ip sp dp seq ack flags 0
      (fold (u32_of (tcp_checksum s + ipv4_sum (octets ip)))))
      (ipv4_checksum s + ipv4_sum (octets ip))) as (c & -> & Hv); try done.
  - unfold fields_ok, asked. fields. rewrite !u32_small by lia.
    split_and!; try done; apply Hw; lia.
  - fields. by rewrite Z.add_0_r, u32_small by lia.
  - lia.
  - fields. unfold octets in *. rewrite !zsum_be32 by done. unfold src_sum in *. lia.
  - fields. rewrite u32_small by lia. f_equal. unfold octets in *. rewrite !zsum_be32 by done.
    unfold src_sum in *. lia.
  - split; [|done]. by do 2 eexists.
Qed.

(** *** Batches *)

Definition template_ok (p : PacketTemplate) : Prop :=
  in_u16 (t_source_port p) /\ in_u32 (t_ip p) /\ in_u16 (t_destination_port p).

(** The frame is the SYN for a template. *)
Definition is_syn (seed : Z) (p : PacketTemplate) (frame : list Z) : Prop :=
  is_tcp (t_ip p) (t_source_port p) (t_destination_port p)
    (cookie (t_ip p) (t_destination_port p) seed) 0 Syn [] frame
  /\ packet_valid frame.

Lemma write_syns_ok k seed index packets : forall i n,
  net_ok k n -> checksum_offload (sender n) = false -> Forall template_ok packets ->
  (size (tx (sender n)) | 2 ^ 32) -> 0 <= i -> i + zlen packets <= size (tx (sender n)) ->
  exists n', write_syns index i packets seed n = Ret n' /\ net_ok k n'
    /\ tx_prod (sender n') = tx_prod (sender n)
    /\ (forall j f, 0 <= j < i -> holds n (u32_of (index + j)) f [] ->
          holds n' (u32_of (index + j)) f [])
    /\ (forall m p, packets !! m = Some p -> exists f,
          holds n' (u32_of (index + (i + Z.of_nat m))) f []
          /\ is_syn seed p (header l f ++ trailer ++ [])).
Proof.
  induction packets as [|[sp ip dp] packets IH]; intros i n Hn Hoff Hp Hdiv Hi Hlen.
  { exists n. by split_and!. }
  apply Forall_cons in Hp as [(Hsp & Hip & Hdp) Hp]. cbn [t_source_port t_ip t_destination_port] in *.
  cbn [write_syns length] in *.
  destruct (write_syn_ok k n (u32_of (index + i)) sp ip dp seed Hn)
    as (n1 & -> & Hn1 & (Hsz & Hfs & Hoffn & Hkeep & _) & _ & Hpr & Hh). cbn [mbind outcome_bind].
  rewrite Hoff in Hh. pose proof (ok_frame _ _ Hn) as Hfr. unfold TxMetadata_LEN in Hfr.
  assert (Hoff1 : checksum_offload (sender n1) = false) by congruence.
  destruct (IH (i + 1) n1) as (n' & -> & Hn' & Hpr' & Hold & Hnew); try done; try lia.
  1: by rewrite Hsz. 
  exists n'. split_and!; [done|done|congruence| |].
  - intros j f Hj Hhj. apply Hold; [lia|]. apply Hkeep; [apply batch_slots; (done || lia)|simpl; lia|done].
  - intros [|m] p Hm; simpl in Hm.
    + simplify_eq. rewrite Z.add_0_r. eexists. split; [apply Hold; [lia|exact Hh]|].
      split; [by do 2 eexists|]. apply sent_valid_nil; try done; [apply Hn|apply cookie_width|].
      change (Z.shiftr 0 16) with 0. change (Z.land 0 65535) with 0. simpl. unfold Syn. lia.
    + destruct (Hnew m p Hm) as (f & Hf1 & Hf2). exists f.
      by replace (i + Z.of_nat (S m)) with (i + 1 + Z.of_nat m) by lia.
Qed.

(** *** What other components rely on *)

(** A sender ready to send, with frames of [fs] bytes. *)
Definition ready (fs : Z) (n : net) : Prop := net_ok 0 n /\ frame_size (umem n) = fs.

(** Afterwards it is ready again, and memory outside its frames is the same. *)
Definition stays_ready (fs : Z) (n : net) (o : outcome (result unit unit * net)) : Prop :=
  match o with Ret (_, n') => ready fs n' /\ untouched n n' | Fault f => f = OutOfFuel end.

Lemma finish_stays fs n m k :
  0 <= k -> net_ok k m -> untouched n m -> frame_size (umem n) = fs -> stays_ready fs n (finish k m).
Proof.
  intros Hk Hm Hu Hfs. pose proof (finish_ok m k Hk Hm) as Hf.
  destruct (finish k m) as [[r n']|f]; [|done]. destruct Hf as (Hn' & _ & Ht & Hu').
  assert (Hun : untouched n n') by (etrans; [exact Hu|]; unfold untouched; by rewrite Ht, Hu').
  split; [|done]. split; [done|]. destruct Hun as (_ & -> & _). done.
Qed.

Lemma send_with_safe fs n write :
  ready fs n ->
  (forall m, net_ok 1 m -> umem m = umem n -> exists m', write (tx_prod (sender n)) m = Ret m'
     /\ net_ok 1 m' /\ untouched m m') ->
  stays_ready fs n (send_with write n).
Proof.
  intros [Hn Hfs] Hw. unfold send_with. pose proof (acquire_ok n 1 Hn) as Ha.
  destruct (acquire 1 n) as [[[index|[]] m]|f]; simpl; [| |done].
  - destruct Ha as (-> & Hm & Hr). destruct (Hw m Hm (proj1 Hr)) as (m' & -> & Hm' & Hu').
    cbn [mbind outcome_bind]. apply finish_stays; [lia|done| |done].
    etrans; [by apply only_reserved_untouched|done].
  - destruct Ha as [Hm Hr]. pose proof (only_reserved_untouched _ _ Hr) as Hu.
    split; [|done]. split; [done|]. destruct Hu as (_ & -> & _). done.
Qed.

Lemma sends_safe fs n :
  ready fs n ->
  (forall p sd, stays_ready fs n (send_syn p sd n))
  /\ (forall flags ip sp dp seq ack, stays_ready fs n (send flags ip sp dp seq ack n))
  /\ (forall ip sp dp seq ack body, zlen body <= 65000 -> 62 + TxMetadata_LEN + zlen body <= fs ->
        stays_ready fs n (send_with_data ip sp dp seq ack body n)).
Proof.
  intros Hn. split_and!; intros; apply send_with_safe; try done; intros m Hm Hu.
  - destruct p as [psp pip pdp].
    destruct (write_syn_ok 1 m (tx_prod (sender n)) psp pip pdp sd Hm)
      as (m' & ? & ? & (_ & _ & _ & _ & ?) & _). eauto.
  - destruct (write_flags_ok 1 m (tx_prod (sender n)) flags ip sp dp seq ack Hm)
      as (m' & ? & ? & (_ & _ & _ & _ & ?) & _). eauto.
  - destruct Hn as [_ Hfs]. destruct (write_data_ok 1 m (tx_prod (sender n)) ip sp dp seq ack body Hm)
      as (m' & ? & ? & (_ & _ & _ & _ & ?) & _); [by rewrite Hu, Hfs|done|]. eauto.
Qed.

Lemma write_syns_safe k seed index packets : forall i n,
  net_ok k n -> exists n', write_syns index i packets seed n = Ret n' /\ net_ok k n' /\ untouched n n'.
Proof.
  induction packets as [|[sp ip dp] packets IH]; intros i n Hn; [by exists n|]. cbn [write_syns].
  destruct (write_syn_ok k n (u32_of (index + i)) sp ip dp seed Hn)
    as (n1 & -> & Hn1 & (_ & _ & _ & _ & Hu) & _). cbn [mbind outcome_bind].
  destruct (IH (i + 1) n1 Hn1) as (n' & -> & Hn' & Hu'). exists n'. split_and!; [done..|]. by etrans.
Qed.

Lemma send_syn_batch_safe fs n packets seed :
  ready fs n -> stays_ready fs n (send_syn_batch packets seed n).
Proof.
  intros [Hn Hfs]. unfold send_syn_batch. set (k := u32_of (zlen packets)).
  pose proof (acquire_ok n k Hn) as Ha.
  destruct (acquire k n) as [[[index|[]] m]|f]; simpl; [| |done].
  - destruct Ha as (-> & Hm & Hr).
    destruct (write_syns_safe k seed (tx_prod (sender n)) packets 0 m Hm) as (m' & -> & Hm' & Hu').
    cbn [mbind outcome_bind]. apply finish_stays; [|done| |done].
    + unfold k. apply (wrap_width 32); lia.
    + etrans; [by apply only_reserved_untouched|done].
  - destruct Ha as [Hm Hr]. pose proof (only_reserved_untouched _ _ Hr) as Hu.
    split; [|done]. split; [done|]. destruct Hu as (_ & -> & _). done.
Qed.

(** A send ends once a look finds room and nothing fails. *)
Lemma send_with_returns n write e1 t t' e2 :
  net_ok 0 n -> env n = e1 ++ t :: t' :: e2 -> has_room 1 (sender n) t ->
  Forall (fun t => k_sendto t = true) (env n) ->
  (forall m, net_ok 1 m -> umem m = umem n -> exists m', write (tx_prod (sender n)) m = Ret m'
     /\ env m' = env m) ->
  exists n', send_with write n = Ret (Ok tt, n').
Proof.
  intros Hn He Hroom Hs Hw. destruct n as [s u c e]. simpl in He. subst e.
  destruct (acquire_returns 1 e1 t (t' :: e2) s u c Hn Hroom Hs)
    as (n1 & e3 & Ha & Hn1 & (Hu & _) & Henv & Hs1).
  destruct (Hw n1 Hn1 Hu) as (m' & Hwm & Hem). unfold send_with. rewrite Ha. cbn [mbind outcome_bind].
  simpl in Hwm. rewrite Hwm. cbn [mbind outcome_bind]. unfold finish. rewrite Hem, Henv in *.
  assert (exists t0 e0, e3 ++ t' :: e2 = t0 :: e0) as (t0 & e0 & Heq) by (destruct e3; eauto).
  rewrite Heq in *. apply Forall_cons in Hs1 as [-> _]. simpl. rewrite andb_false_r. by eexists.
Qed.

End writes.

(** ** Properties *)

Section properties.
Context `{KernelConsts} (l : link) (Hl : link_ok l).
Local Opaque header cookie fold not16.

(** [Sender::new] makes a sender that is ready to send: over frames of the
    area that start at [starting_frame], each descriptor of its ring points at
    a frame of its own that holds the packet template with this host's
    addresses, the two starting sums are those of that template, and no byte
    outside the sender's own frames is written. *)
Theorem sender_new_ready (offload : bool) (u : Umem) (tx : Ring Descriptor) (prod start : Z) c e :
  zlen (ring tx) = size tx -> 0 < size tx -> 0 <= start -> start + size tx < 2 ^ 32 ->
  cached_prod tx = prod -> in_u32 prod ->
  (start + size tx) * frame_size u <= zlen (area u) -> 62 + TxMetadata_LEN <= frame_size u ->
  exists s u', sender_new (gateway l) (interface l) (source_ip l) offload u tx prod start = Ret (s, u')
    /\ net_ok l 0 (mkNet s u' c e) /\ checksum_offload s = offload /\ tx_prod s = prod
    /\ size (Sender.tx s) = size tx
    /\ same_but (start * frame_size u) (size tx * frame_size u) u u'
    /\ forall d, d ∈ ring (Sender.tx s) -> exists i, start <= i < start + size tx
         /\ d_addr d = i * frame_size u + TxMetadata_LEN.
Proof. by apply sender_new_ok. Qed.

(** C18: [send_syn] and [send] put exactly one packet on the transmit ring, at
    the producer counter, and that packet is a TCP packet with the ports,
    numbers and flags asked for (a SYN carries the cookie of its target), with
    the right lengths and with IPv4 and TCP checksums every receiver accepts;
    the incremental sums the sender starts from are right for every address.
    A send that fails before the reservation changes no memory, no send
    panics or touches memory outside the area, and the prepared frames stay
    ready. *)
Theorem send_wire (n : net) (ip : Ipv4Addr) (sp dp seq ack flags seed : Z) :
  net_ok l 0 n -> checksum_offload (sender n) = false ->
  in_u32 ip -> in_u16 sp -> in_u16 dp -> in_u32 seq -> in_u32 ack -> in_u8 flags ->
  submits l n
    (fun frame => is_tcp l ip sp dp (cookie ip dp seed) 0 Syn [] frame /\ packet_valid frame)
    (send_syn (mkTemplate sp ip dp) seed n)
  /\ submits l n
       (fun frame => is_tcp l ip sp dp seq ack flags [] frame /\ packet_valid frame)
       (send flags ip sp dp seq ack n).
Proof.
  intros Hn Hoff Hip Hsp Hdp Hseq Hack Hfl. split.
  - apply (send_with_ok l _ _ _ []); [done|]. intros m Hm (_ & Hpm & Hom & _).
    destruct (write_syn_ok l Hl 1 m (tx_prod (sender n)) sp ip dp seed Hm)
      as (m' & Hw & Hm' & _ & _ & Hp & Hh). rewrite Hom, Hoff in Hh.
    exists m'. eexists. split_and!; [done|done|congruence|exact Hh|]. intros Hs. split; [by do 2 eexists|].
    apply sent_valid_nil; try done; [congruence|apply cookie_width|].
    change (Z.shiftr 0 16) with 0. change (Z.land 0 65535) with 0. unfold Syn. lia.
  - apply (send_with_ok l _ _ _ []); [done|]. intros m Hm (_ & Hpm & Hom & _).
    destruct (write_flags_ok l Hl 1 m (tx_prod (sender n)) flags ip sp dp seq ack Hm)
      as (m' & Hw & Hm' & _ & _ & Hp & Hh). rewrite Hom, Hoff in Hh.
    exists m'. eexists. split_and!; [done|done|congruence|exact Hh|]. intros Hs. split; [by do 2 eexists|].
    apply sent_valid_nil; try done. congruence.
Qed.

(** C19: [send_with_data] does the same for a packet with a body: for every
    body that fits a frame, odd lengths included, the packet submitted carries
    exactly the body after the options and is flagged PSH and ACK; and if
    checksums are not left to the device it verifies (if they are, the code
    seeds the checksum without the length of the body, and it does not:
    [offload_data_invalid]). *)
Theorem send_with_data_wire (n : net) (ip : Ipv4Addr) (sp dp seq ack : Z) (body : list Z) :
  net_ok l 0 n ->
  in_u32 ip -> in_u16 sp -> in_u16 dp -> in_u32 seq -> in_u32 ack ->
  Forall (fun b => 0 <= b < 256) body -> zlen body <= 65000 ->
  62 + TxMetadata_LEN + zlen body <= frame_size (umem n) ->
  submits l n
    (fun frame => is_tcp l ip sp dp seq ack (Z.lor Psh Ack) body frame
       /\ (checksum_offload (sender n) = false -> packet_valid frame))
    (send_with_data ip sp dp seq ack body n).
Proof.
  intros Hn Hip Hsp Hdp Hseq Hack Hb Hlb Hfit.
  apply (send_with_ok l _ _ _ body); [done|]. intros m Hm (Hum & Hpm & Hom & _).
  destruct (write_data_ok l Hl 1 m (tx_prod (sender n)) ip sp dp seq ack body Hm)
    as (m' & Hw & Hm' & _ & _ & Hp & Hh); [by rewrite Hum|done|]. rewrite Hom in Hh.
  exists m'. eexists. split_and!; [done|done|congruence|exact Hh|]. intros Hs. split; [by do 2 eexists|].
  intros Hoff. rewrite Hoff. apply (sent_valid l Hl (sender m) ip sp dp seq ack 24 body Hs); try done. congruence.
Qed.

(** C35: a send waits only for the kernel: once some look at the ring finds room
    and one more follows it, and waking the kernel up does not fail, every kind
    of send returns [Ok]. *)
Theorem send_returns (n : net) e1 t t' e2 (p : PacketTemplate) (ip : Ipv4Addr)
    (sp dp seq ack flags seed : Z) (body : list Z) :
  net_ok l 0 n -> env n = e1 ++ t :: t' :: e2 -> has_room 1 (sender n) t ->
  Forall (fun t => k_sendto t = true) (env n) -> zlen body <= 65000 ->
  62 + TxMetadata_LEN + zlen body <= frame_size (umem n) ->
  (exists n', send_syn p seed n = Ret (Ok tt, n'))
  /\ (exists n', send flags ip sp dp seq ack n = Ret (Ok tt, n'))
  /\ (exists n', send_with_data ip sp dp seq ack body n = Ret (Ok tt, n')).
Proof.
  intros Hn He Hroom Hs Hlb Hfit. split_and!; eapply send_with_returns; try done; intros m Hm Hu.
  - destruct p as [psp pip pdp].
    destruct (write_syn_ok l Hl 1 m (tx_prod (sender n)) psp pip pdp seed Hm) as (m' & ? & _ & _ & ? & _).
    eauto.
  - destruct (write_flags_ok l Hl 1 m (tx_prod (sender n)) flags ip sp dp seq ack Hm)
      as (m' & ? & _ & _ & ? & _). eauto.
  - destruct (write_data_ok l Hl 1 m (tx_prod (sender n)) ip sp dp seq ack body Hm)
      as (m' & ? & _ & _ & ? & _); [by rewrite Hu|done|]. eauto.
Qed.

(** With checksum offload the packets of [send_syn] and [send] leave the
    device valid: the checksum field is seeded with the sum of the pseudo
    header, and a device that completes the checksum as the metadata asks for
    turns the frame into a valid packet with the fields asked for. *)
Theorem offload_wire `{TxChecksum} (n : net) (ip : Ipv4Addr) (sp dp seq ack flags seed : Z) :
  net_ok l 0 n -> checksum_offload (sender n) = true ->
  in_u32 ip -> in_u16 sp -> in_u16 dp -> in_u32 seq -> in_u32 ack -> in_u8 flags ->
  submits l n
    (fun frame => is_tcp l ip sp dp (cookie ip dp seed) 0 Syn [] (tx_checksum 34 16 frame)
       /\ packet_valid (tx_checksum 34 16 frame))
    (send_syn (mkTemplate sp ip dp) seed n)
  /\ submits l n
       (fun frame => is_tcp l ip sp dp seq ack flags [] (tx_checksum 34 16 frame)
          /\ packet_valid (tx_checksum 34 16 frame))
       (send flags ip sp dp seq ack n).
Proof.
  intros Hn Hoff Hip Hsp Hdp Hseq Hack Hfl.
  split; (apply (send_with_ok l _ _ _ []); [done|]); intros m Hm (_ & Hpm & Hom & _).
  - destruct (write_syn_ok l Hl 1 m (tx_prod (sender n)) sp ip dp seed Hm)
      as (m' & Hw & Hm' & _ & _ & Hp & Hh). rewrite Hom, Hoff in Hh.
    exists m'. eexists. split_and!; [done|done|congruence|exact Hh|]. intros Hs.
    eapply offloaded; try done; [congruence|apply cookie_width].
  - destruct (write_flags_ok l Hl 1 m (tx_prod (sender n)) flags ip sp dp seq ack Hm)
      as (m' & Hw & Hm' & _ & _ & Hp & Hh). rewrite Hom, Hoff in Hh.
    exists m'. eexists. split_and!; [done|done|congruence|exact Hh|]. intros Hs.
    eapply offloaded; try done. congruence.
Qed.

(** C22: [send_syn_batch] submits a whole batch at once: for a batch no longer
    than the ring, the descriptors from the producer counter on, one per
    template and in order, each name a valid SYN packet for that template, no
    packet of the batch overwrites another one (also where the ring or the
    counter wraps around), and the counter advances by the batch. *)
Theorem send_syn_batch_wire (n : net) (packets : list PacketTemplate) (seed : Z) :
  net_ok l 0 n -> checksum_offload (sender n) = false -> Forall template_ok packets ->
  (size (tx (sender n)) | 2 ^ 32) -> zlen packets <= size (tx (sender n)) ->
  match send_syn_batch packets seed n with
  | Ret (r, n') =>
      net_ok l 0 n'
      /\ ((r = Err tt /\ tx_prod (sender n') = tx_prod (sender n) /\ umem n' = umem n)
          \/ (tx_prod (sender n') = u32_of (tx_prod (sender n) + zlen packets)
              /\ forall i p, packets !! i = Some p ->
                   exists d frame,
                     desc_at (tx (sender n')) (u32_of (tx_prod (sender n) + Z.of_nat i)) = Ret d
                     /\ load (umem n') (d_addr d) (d_len d) = Ret frame /\ is_syn l seed p frame))
  | Fault f => f = OutOfFuel
  end.
Proof.
  intros Hn Hoff Hp Hdiv Hlen. pose proof (ok_ring _ _ _ Hn) as [_ Hsz].
  unfold send_syn_batch. rewrite (u32_small (zlen packets)) by lia.
  pose proof (acquire_ok l n (zlen packets) Hn) as Ha.
  destruct (acquire _ n) as [[[index|[]] m]|f]; simpl;
    [|destruct Ha as [Ha1 (Ha2 & Ha3 & _)]; auto|done].
  destruct Ha as (-> & Hm & _ & Hpm & Hom & Hszm & _).
  destruct (write_syns_ok l Hl (zlen packets) seed (tx_prod (sender n)) packets 0 m)
    as (m' & -> & Hm' & Hp' & _ & Hnew); rewrite ?Hszm; try done; try congruence; try lia.
  cbn [mbind outcome_bind]. pose proof (finish_ok l m' (zlen packets) ltac:(lia) Hm') as Hf.
  destruct (finish _ m') as [[r n']|f']; [|done]. destruct Hf as (Hn' & Hpr & Htx & Hu).
  split; [done|]. right. rewrite Hpr, Hp', Hpm. split; [done|]. intros i p Hi.
  destruct (Hnew i p Hi) as (f & (d & Hd & Hdl & Hload) & Hsyn).
  exists d, (header l f ++ trailer ++ []). by rewrite Htx, Hu.
Qed.

End properties.

(** ** Witnesses *)

Local Instance demo_consts : KernelConsts :=
  {| NEED_WAKEUP := 1; TX_METADATA := 2; TXMD_CHECKSUM := 2 |}.

#[local] Program Instance demo_nic : TxChecksum :=
  {| tx_checksum start offset frame :=
       list_inserts (start + offset) (be16_bytes (not16 (onec_sum (words (drop start frame))))) frame |}.
Next Obligation. done. Qed.

Definition demo_link : link := mkLink [1; 2; 3; 4; 5; 6] [7; 8; 9; 10; 11; 12] 3232235777.

Definition demo_turn : turn := mkTurn 0 0 true 0 (mkShared 0 0 0).

Definition demo_umem : Umem := mkUmem (replicate 256 0) 128.

Definition demo_ring : Ring Descriptor := mkRing 0 2 2 (replicate 2 (mkDesc 0 0 0)).

(** Two frames of 128 bytes, a ring of two descriptors, and nobody in the way. *)
Definition demo_net (offload : bool) : net :=
  match sender_new (gateway demo_link) (interface demo_link) (source_ip demo_link) offload
          demo_umem demo_ring 0 0 with
  | Ret (s, u) =>
      mkNet s u (completer_new (mkRing 0 0 2 [0; 0]) (mkShared 0 0 0) (f64_of_Z 1) 0 2)
        [demo_turn; demo_turn]
  | Fault _ => mkNet (mkSender 0 0 demo_ring 0 false) demo_umem
                 (completer_new (mkRing 0 0 2 [0; 0]) (mkShared 0 0 0) (f64_of_Z 1) 0 2) []
  end.

Lemma demo_link_ok : link_ok demo_link.
Proof. repeat split; try (unfold in_width; simpl; lia). repeat constructor; lia. Qed.

Lemma demo_net_ok offload : net_ok demo_link 0 (demo_net offload).
Proof.
  destruct (sender_new_ok demo_link demo_link_ok offload demo_umem demo_ring 0 0
    (completer_new (mkRing 0 0 2 [0; 0]) (mkShared 0 0 0) (f64_of_Z 1) 0 2) [demo_turn; demo_turn])
    as (s & u & Hnew & Hok & _); [vm_compute; done..|].
  unfold demo_net. rewrite Hnew. done.
Qed.

Lemma sender_new_ready_witness :
  exists s u', sender_new (gateway demo_link) (interface demo_link) (source_ip demo_link) true
    demo_umem demo_ring 0 0 = Ret (s, u') /\ checksum_offload s = true.
Proof.
  destruct (sender_new_ready demo_link demo_link_ok true demo_umem demo_ring 0 0
    (completer_new (mkRing 0 0 2 [0; 0]) (mkShared 0 0 0) (f64_of_Z 1) 0 2) [])
    as (s & u & Hnew & _ & Hoff & _); [vm_compute; done..|].
  exists s, u. split; [exact Hnew|exact Hoff].
Defined.

Lemma send_wire_witness :
  submits demo_link (demo_net false)
    (fun frame => is_tcp demo_link 134744072 40000 25565 (cookie 134744072 25565 7) 0 Syn [] frame
       /\ packet_valid frame)
    (send_syn (mkTemplate 40000 134744072 25565) 7 (demo_net false)).
Proof.
  refine (proj1 (send_wire demo_link demo_link_ok (demo_net false) 134744072 40000 25565 1 2 Rst 7
    (demo_net_ok false) _ _ _ _ _ _ _)); vm_compute; done.
Defined.

Lemma send_with_data_wire_witness :
  submits demo_link (demo_net false)
    (fun frame => is_tcp demo_link 134744072 40000 25565 5 6 (Z.lor Psh Ack) [1; 2; 3] frame
       /\ (checksum_offload (sender (demo_net false)) = false -> packet_valid frame))
    (send_with_data 134744072 40000 25565 5 6 [1; 2; 3] (demo_net false)).
Proof.
  refine (send_with_data_wire demo_link demo_link_ok (demo_net false) 134744072 40000 25565 5 6 [1; 2; 3]
    (demo_net_ok false) _ _ _ _ _ _ _ _); [vm_compute; done..| |vm_compute; done|vm_compute; done].
  repeat constructor; lia.
Defined.

Lemma send_returns_witness :
  exists n', send_with_data 134744072 40000 25565 5 6 [1; 2; 3] (demo_net false) = Ret (Ok tt, n').
Proof.
  refine (proj2 (proj2 (send_returns demo_link demo_link_ok (demo_net false) [] demo_turn demo_turn []
    (mkTemplate 40000 134744072 25565) 134744072 40000 25565 5 6 Rst 7 [1; 2; 3]
    (demo_net_ok false) _ _ _ _ _))); vm_compute; repeat constructor; done.
Defined.

Lemma offload_wire_witness :
  submits demo_link (demo_net true)
    (fun frame => is_tcp demo_link 134744072 40000 25565 5 6 Rst [] (tx_checksum 34 16 frame)
       /\ packet_valid (tx_checksum 34 16 frame))
    (send Rst 134744072 40000 25565 5 6 (demo_net true)).
Proof.
  refine (proj2 (offload_wire demo_link demo_link_ok (demo_net true) 134744072 40000 25565 5 6 Rst 7
    (demo_net_ok true) _ _ _ _ _ _ _)); vm_compute; done.
Defined.

Lemma send_syn_batch_wire_witness :
  exists n', send_syn_batch [mkTemplate 40000 134744072 25565; mkTemplate 40001 134744073 80] 7
      (demo_net false) = Ret (Ok tt, n')
    /\ exists d frame, desc_at (tx (sender n')) 1 = Ret d
         /\ load (umem n') (d_addr d) (d_len d) = Ret frame
         /\ is_syn demo_link 7 (mkTemplate 40001 134744073 80) frame.
Proof.
  pose proof (send_syn_batch_wire demo_link demo_link_ok (demo_net false)
    [mkTemplate 40000 134744072 25565; mkTemplate 40001 134744073 80] 7 (demo_net_ok false)) as Hb.
  destruct (send_syn_batch _ _ _) as [[r n']|f] eqn:E; [|vm_compute in E; discriminate].
  assert (r = Ok tt) as -> by (vm_compute in E; congruence). exists n'. split; [reflexivity|].
  destruct Hb as (_ & [[? _]|[_ Hb]]);
    [vm_compute; done|repeat constructor; unfold in_width; simpl; lia|by exists (2 ^ 31)
    |vm_compute; done|discriminate|].
  destruct (Hb 1%nat _ eq_refl) as (d & frame & Hd & Hl & Hs).
  assert (Hi : u32_of (tx_prod (sender (demo_net false)) + Z.of_nat 1) = 1) by (vm_compute; done).
  rewrite Hi in Hd. exists d, frame. split; [exact Hd|]. split; [exact Hl|exact Hs].
Defined.

(** With offload, the seed [send_with_data] leaves in the checksum field lacks
    the length of the body, and the packet the device makes of it does not
    verify. *)
Example offload_data_invalid :
  match send_with_data 134744072 40000 25565 5 6 [1; 2; 3] (demo_net true) with
  | Ret (Ok _, n') =>
      match load (umem n') TxMetadata_LEN 65 with
      | Ret frame => onec_sum (pseudo_header (tx_checksum 34 16 frame)
                               ++ words (tcp_segment (tx_checksum 34 16 frame))) <> 65535
      | Fault _ => False
      end
  | _ => False
  end.
Proof. vm_compute. discriminate. Qed.
