(* ===== verification/Link.v ===== *)
(** * Finding the link: [net/mac.rs], [net/interface.rs], [net/ip.rs],
      [net/gateway.rs], and the start of [Controller::new]

    The hardware addresses of the gateway and of the interface and the source
    address, which every packet carries.  The routes, the neighbours, the
    addresses of the interfaces and the file with the hardware address come
    from the system. *)

From S2P Require Import Prelude Ranges Text Tcp Ring Umem Completer Sender.

(** ** [mac.rs] *)

(** The number of bytes of a character in UTF-8, and of a string. *)
Definition utf8_len (c : Z) : Z :=
  if c <? 128 then 1 else if c <? 2048 then 2 else if c <? 65536 then 3 else 4.
Definition str_len (s : str) : Z := zsum (utf8_len <$> s).

Definition hex_digit (c : Z) : option Z :=
  if (48 <=? c) && (c <=? 57) then Some (c - 48)
  else if (65 <=? c) && (c <=? 70) then Some (c - 55)
  else if (97 <=? c) && (c <=? 102) then Some (c - 87)
  else None.

Fixpoint parse_hex (max acc : Z) (s : str) : option Z :=
  match s with
  | [] => Some acc
  | c :: s =>
      d ← hex_digit c;
      let acc := acc * 16 + d in
      if max <? acc then None else parse_hex max acc s
  end.

(** [u8::from_str_radix] with radix 16. *)
Definition u8_from_hex (s : str) : option Z :=
  match s with
  | [] => None
  | c :: rest =>
      if c =? 43 then match rest with [] => None | _ => parse_hex 255 0 rest end
      else parse_hex 255 0 s
  end.

(** The loop over the segments. *)
Fixpoint mac_octets (segments : list str) : result unit (list Z) :=
  match segments with
  | [] => Ok []
  | o :: segments => b ← ok_or (u8_from_hex o); bs ← mac_octets segments; Ok (b :: bs)
  end.

Definition mac_from_str (s : str) : result unit (list Z) :=
  if negb (str_len s =? 17) then Err tt
  else
    let '(first, more) := split_on 58 s in
    if negb (zlen (first :: more) =? 6) then Err tt else mac_octets (first :: more).

(** ** [interface.rs], [ip.rs] *)

(** [get_mac]: [content] is the file, if it can be read. *)
Definition interface_mac (content : result unit str) : result unit (list Z) :=
  s ← content; mac_from_str (trim s).

Record IfAddr : Type := mkIfAddr { if_name : str; if_addr : option Ipv4Addr }.

Fixpoint local_ip_loop (iface : str) (ifaddrs : list IfAddr) : result unit Ipv4Addr :=
  match ifaddrs with
  | [] => Err tt
  | a :: ifaddrs =>
      match if_addr a with
      | Some ip => if bool_decide (if_name a = iface) then Ok ip else local_ip_loop iface ifaddrs
      | None => local_ip_loop iface ifaddrs
      end
  end.

Definition get_local_ip (iface : str) (ifaddrs : result unit (list IfAddr)) : result unit Ipv4Addr :=
  l ← ifaddrs; local_ip_loop iface l.

(** ** [gateway.rs] *)

Inductive RouteAttribute : Type :=
  | Oif (idx : Z)
  | GatewayInet (addr : Ipv4Addr)
  | OtherRoute.

Record Route : Type := mkRoute { destination_prefix_length : Z; r_attributes : list RouteAttribute }.

Inductive NeighbourAttribute : Type :=
  | DestinationInet (addr : Ipv4Addr)
  | LinkLayerAddress (bytes : list Z)
  | OtherNeighbour.

(** [iter().find_map(f)]. *)
Definition find_map {X Y} (f : X -> option Y) (l : list X) : option Y := head (omap f l).

Definition route_oif (a : RouteAttribute) : option Z := match a with Oif i => Some i | _ => None end.
Definition route_gateway (a : RouteAttribute) : option Ipv4Addr :=
  match a with GatewayInet ip => Some ip | _ => None end.

(** The items of a netlink stream; a failing item ends it with an error. *)
Fixpoint gateway_loop (interface_index : Z) (routes : list (result unit Route)) : result unit Ipv4Addr :=
  match routes with
  | [] => Err tt
  | item :: routes =>
      route ← item;
      if negb (destination_prefix_length route =? 0) then gateway_loop interface_index routes
      else if negb (bool_decide (find_map route_oif (r_attributes route) = Some interface_index)) then
        gateway_loop interface_index routes
      else
        match find_map route_gateway (r_attributes route) with
        | Some ip => Ok ip
        | None => gateway_loop interface_index routes
        end
  end.

Definition neigh_ip (a : NeighbourAttribute) : option Ipv4Addr :=
  match a with DestinationInet ip => Some ip | _ => None end.

(** [try_into] gives an array of six bytes. *)
Definition neigh_mac (a : NeighbourAttribute) : option (list Z) :=
  match a with
  | LinkLayerAddress bytes => if bool_decide (length bytes = 6%nat) then Some bytes else None
  | _ => None
  end.

Fixpoint neigh_loop (gateway_ip : Ipv4Addr) (neighs : list (result unit (list NeighbourAttribute)))
    : result unit (list Z) :=
  match neighs with
  | [] => Err tt
  | item :: neighs =>
      attributes ← item;
      if negb (bool_decide (find_map neigh_ip attributes = Some gateway_ip)) then neigh_loop gateway_ip neighs
      else
        match find_map neigh_mac attributes with
        | Some m => Ok m
        | None => neigh_loop gateway_ip neighs
        end
  end.

(** What the system answers: the routes, the neighbours at first and after a
    ping, whether the ping works, and the interface. *)
Record system : Type := mkSystem {
  sys_routes : list (result unit Route);
  sys_neighs : list (result unit (list NeighbourAttribute));
  sys_ping : Ipv4Addr -> bool;
  sys_neighs_pinged : list (result unit (list NeighbourAttribute));
  sys_mac_file : result unit str;
  sys_ifaddrs : result unit (list IfAddr);
  sys_index : result unit Z }.

(** [inner]: a gateway the cache does not know is pinged once. *)
Definition gateway_mac (y : system) (interface_index : Z) : result unit (list Z) :=
  gateway_ip ← gateway_loop interface_index (sys_routes y);
  match neigh_loop gateway_ip (sys_neighs y) with
  | Ok mac => Ok mac
  | Err _ => if sys_ping y gateway_ip then neigh_loop gateway_ip (sys_neighs_pinged y) else Err tt
  end.

(** The first part of [Controller::new]. *)
Definition find_link (y : system) (iface : str) : result unit link :=
  interface_index ← sys_index y;
  gateway_mac ← gateway_mac y interface_index;
  interface_mac ← interface_mac (sys_mac_file y);
  source_ip ← get_local_ip iface (sys_ifaddrs y);
  Ok (mkLink gateway_mac interface_mac source_ip).

(** ** Specification *)

(** [f] of the first item for which it is defined; the items before it are
    intact. *)
Definition first_of {X Y} (f : X -> option Y) (items : list (result unit X)) (y : Y) : Prop :=
  exists pre x post, items = (Ok <$> pre) ++ Ok x :: post /\ Forall (fun x => f x = None) pre /\ f x = Some y.

(** The gateway of a default route through the interface. *)
Definition default_gateway (interface_index : Z) (r : Route) : option Ipv4Addr :=
  if (destination_prefix_length r =? 0) && bool_decide (find_map route_oif (r_attributes r) = Some interface_index)
  then find_map route_gateway (r_attributes r) else None.

(** The hardware address of a neighbour. *)
Definition mac_of (ip : Ipv4Addr) (attributes : list NeighbourAttribute) : option (list Z) :=
  if bool_decide (find_map neigh_ip attributes = Some ip) then find_map neigh_mac attributes else None.

(** Hardware addresses are bytes and addresses 32-bit values. *)
Record system_ok (y : system) : Prop := {
  sys_bytes neighs attributes bytes :
    neighs = sys_neighs y \/ neighs = sys_neighs_pinged y -> Ok attributes ∈ neighs ->
    LinkLayerAddress bytes ∈ attributes -> Forall (fun b => 0 <= b < 256) bytes;
  sys_addrs l a ip : sys_ifaddrs y = Ok l -> a ∈ l -> if_addr a = Some ip -> in_u32 ip }.

(** A hardware address as the system prints it. *)
Definition show_hex (d : Z) : Z := if d <? 10 then d + 48 else d + 87.
Definition show_octet (b : Z) : str := [show_hex (b / 16); show_hex (b mod 16)].
Fixpoint show_mac (mac : list Z) : str :=
  match mac with
  | [] => []
  | [b] => show_octet b
  | b :: mac => show_octet b ++ 58 :: show_mac mac
  end.

(** ** Lemmas *)

Lemma first_of_skip {X Y} (f : X -> option Y) x items y :
  f x = None -> first_of f (Ok x :: items) y <-> first_of f items y.
Proof.
  intros Hx. split.
  - intros (pre & x' & post & E & Hpre & Hy). destruct pre as [|z pre]; simplify_eq/=.
    apply Forall_cons in Hpre as [_ Hpre]. by exists pre, x', post.
  - intros (pre & x' & post & -> & Hpre & Hy). exists (x :: pre), x', post. split_and!; [done| |done].
    by constructor.
Qed.

Lemma first_of_stop {X Y} (f : X -> option Y) x items y y' :
  f x = Some y' -> first_of f (Ok x :: items) y <-> y' = y.
Proof.
  intros Hx. split.
  - intros (pre & x' & post & E & Hpre & Hy). destruct pre as [|z pre]; simplify_eq/=; [done|].
    apply Forall_cons in Hpre as [Hz _]. congruence.
  - intros <-. by exists [], x, items.
Qed.

Lemma first_of_err {X Y} (f : X -> option Y) items y : ~ first_of f (Err tt :: items) y.
Proof. intros (pre & x' & post & E & _). by destruct pre. Qed.

Lemma first_of_nil {X Y} (f : X -> option Y) y : ~ first_of f [] y.
Proof. intros (pre & x' & post & E & _). by destruct pre. Qed.

(** A loop over a stream that looks each item up with [f]. *)
Lemma scan_first {X Y} (f : X -> option Y) (loop : list (result unit X) -> result unit Y) :
  loop [] = Err tt ->
  (forall items, loop (Err tt :: items) = Err tt) ->
  (forall x items, loop (Ok x :: items) = match f x with Some y => Ok y | None => loop items end) ->
  forall items y, loop items = Ok y <-> first_of f items y.
Proof.
  intros Hn He Hc items y. induction items as [|[x|[]] items IH].
  - rewrite Hn. split; [done|]. by intros ?%first_of_nil.
  - rewrite Hc. destruct (f x) as [y'|] eqn:Hx.
    + rewrite first_of_stop by done. split; [by intros [= ->]|by intros ->].
    + by rewrite first_of_skip.
  - rewrite He. split; [done|]. by intros ?%first_of_err.
Qed.

Lemma gateway_loop_first idx routes ip :
  gateway_loop idx routes = Ok ip <-> first_of (default_gateway idx) routes ip.
Proof.
  revert routes ip. apply scan_first; [done..|]. intros r routes. simpl. unfold default_gateway.
  destruct (destination_prefix_length r =? 0); [|done]. simpl.
  destruct (bool_decide _); [|done]. simpl. by destruct (find_map route_gateway _).
Qed.

Lemma neigh_loop_first ip neighs mac :
  neigh_loop ip neighs = Ok mac <-> first_of (mac_of ip) neighs mac.
Proof.
  revert neighs mac. apply scan_first; [done..|]. intros a neighs. simpl. unfold mac_of.
  destruct (bool_decide _); [|done]. simpl. by destruct (find_map neigh_mac _).
Qed.

Lemma mac_of_ok y neighs ip mac :
  system_ok y -> neighs = sys_neighs y \/ neighs = sys_neighs_pinged y -> first_of (mac_of ip) neighs mac ->
  length mac = 6%nat /\ Forall (fun b => 0 <= b < 256) mac.
Proof.
  intros Hy Hn (pre & attributes & post & E & _ & Hm). unfold mac_of in Hm.
  destruct (bool_decide _); [|done]. unfold find_map in Hm.
  assert (Hin : mac ∈ omap neigh_mac attributes).
  { destruct (omap neigh_mac attributes); simplify_eq/=. apply list_elem_of_here. }
  apply list_elem_of_omap in Hin as (a & Ha & Hma). destruct a as [|bytes|]; try done. simpl in Hma.
  case_bool_decide; [|done]. injection Hma as <-. split; [done|]. eapply (sys_bytes y Hy neighs attributes); [done| |done].
  rewrite E. apply elem_of_app. right. apply list_elem_of_here.
Qed.

Lemma local_ip_loop_ok iface l ip :
  local_ip_loop iface l = Ok ip -> exists a, a ∈ l /\ if_name a = iface /\ if_addr a = Some ip.
Proof.
  induction l as [|a l IH]; simpl; [done|]. intros Hl.
  destruct (if_addr a) as [ip'|] eqn:Ha.
  - case_bool_decide as Hn; simplify_eq.
    + exists a. split_and!; [apply list_elem_of_here|done..].
    + destruct (IH Hl) as (a' & Hin & ?). exists a'. split; [by apply list_elem_of_further|done].
  - destruct (IH Hl) as (a' & Hin & ?). exists a'. split; [by apply list_elem_of_further|done].
Qed.

Lemma parse_hex_range s : forall acc v, 0 <= acc <= 255 -> parse_hex 255 acc s = Some v -> 0 <= v < 256.
Proof.
  induction s as [|c s IH]; simpl; intros acc v Hacc Hp; [simplify_eq; lia|].
  destruct (hex_digit c) as [d|] eqn:Hd; [|done]. simpl in Hp. case_cmp_step; [done|].
  apply (IH (acc * 16 + d) v); [|done]. unfold hex_digit in Hd. repeat case_match; simplify_eq; lia.
Qed.

Lemma mac_octets_ok segments bs :
  mac_octets segments = Ok bs -> length bs = length segments /\ Forall (fun b => 0 <= b < 256) bs.
Proof.
  revert bs. induction segments as [|o segments IH]; simpl; intros bs Hb; [by simplify_eq|].
  destruct (u8_from_hex o) as [b|] eqn:Ho; [|done]. simpl in Hb.
  destruct (mac_octets segments) as [bs'|] eqn:Es; [|done]. simplify_eq/=.
  destruct (IH bs' eq_refl) as [Hl Hf]. split; [by rewrite Hl|]. constructor; [|done].
  unfold u8_from_hex in Ho. destruct o as [|c o]; [done|].
  repeat case_match; simplify_eq; (eapply parse_hex_range; [|done]; lia).
Qed.

Lemma mac_from_str_ok s bs : mac_from_str s = Ok bs -> length bs = 6%nat /\ Forall (fun b => 0 <= b < 256) bs.
Proof.
  unfold mac_from_str. destruct (negb _); [done|]. destruct (split_on 58 s) as [first more].
  destruct (Z.eqb_spec (zlen (first :: more)) 6) as [Hl|]; [|done]. simpl negb. cbv iota.
  intros [Hlen Hf]%mac_octets_ok. split; [lia|done].
Qed.

(** *** What is printed is read back *)

Lemma show_hex_digit d : 0 <= d < 16 -> hex_digit (show_hex d) = Some d.
Proof.
  intros Hd. unfold show_hex, hex_digit. repeat case_cmp_step; simpl; try lia; f_equal; lia.
Qed.

Lemma show_hex_plain d : 0 <= d < 16 -> 48 <= show_hex d <= 102 /\ show_hex d <> 58 /\ show_hex d <> 43.
Proof. intros Hd. unfold show_hex. case_cmp_step; lia. Qed.

Lemma octet_digits b : 0 <= b < 256 -> 0 <= b / 16 < 16 /\ 0 <= b mod 16 < 16 /\ b = b / 16 * 16 + b mod 16.
Proof. intros Hb. pose proof (Z.div_mod b 16). pose proof (Z.mod_pos_bound b 16). lia. Qed.

Lemma show_octet_hex b : 0 <= b < 256 -> u8_from_hex (show_octet b) = Some b.
Proof.
  intros Hb. destruct (octet_digits b Hb) as (H1 & H2 & H3). unfold u8_from_hex, show_octet.
  destruct (show_hex_plain _ H1) as (_ & _ & Hp). rewrite (proj2 (Z.eqb_neq _ _) Hp). simpl.
  rewrite !show_hex_digit by done. simpl. repeat case_cmp_step; try lia. f_equal. lia.
Qed.

Lemma show_octet_plain b : 0 <= b < 256 -> Forall (fun c => c <> 58) (show_octet b) /\ str_len (show_octet b) = 2.
Proof.
  intros Hb. destruct (octet_digits b Hb) as (H1 & H2 & _).
  destruct (show_hex_plain _ H1) as (R1 & N1 & _), (show_hex_plain _ H2) as (R2 & N2 & _). split; [by repeat constructor|].
  unfold str_len, show_octet. simpl. unfold utf8_len. rewrite !(proj2 (Z.ltb_lt _ _)) by lia. done.
Qed.

Lemma split_show_mac b mac :
  0 <= b < 256 -> Forall (fun b => 0 <= b < 256) mac ->
  split_on 58 (show_mac (b :: mac)) = (show_octet b, show_octet <$> mac)
  /\ str_len (show_mac (b :: mac)) = 3 * zlen mac + 2.
Proof.
  intros Hb Hm. revert b Hb. induction Hm as [|b' mac Hb' Hm IH]; intros b Hb;
    destruct (show_octet_plain b Hb) as [Hp Hl].
  { split; [by apply split_on_none|done]. }
  change (show_mac (b :: b' :: mac)) with (show_octet b ++ 58 :: show_mac (b' :: mac)).
  destruct (IH b' Hb') as [Hs Hlen]. destruct (split_on_body 58 (show_octet b) (show_mac (b' :: mac)) Hp) as [E1 E2].
  split.
  - destruct (split_on 58 (show_octet b ++ _)) as [p ps]. cbn [fst snd] in E1, E2. by rewrite E1, E2, Hs.
  - unfold str_len in *. rewrite fmap_app, zsum_app, Hl, fmap_cons.
    change (zsum (utf8_len 58 :: ?l)) with (1 + zsum l). rewrite Hlen. cbn [length]. lia.
Qed.

Lemma mac_octets_show mac : Forall (fun b => 0 <= b < 256) mac -> mac_octets (show_octet <$> mac) = Ok mac.
Proof.
  induction 1 as [|b mac Hb Hm IH]; [done|]. rewrite fmap_cons. cbn [mac_octets].
  rewrite show_octet_hex by done. cbn [ok_or mbind result_bind]. by rewrite IH.
Qed.

Lemma mac_from_show mac :
  length mac = 6%nat -> Forall (fun b => 0 <= b < 256) mac -> mac_from_str (show_mac mac) = Ok mac.
Proof.
  intros Hl Hf. destruct mac as [|b mac]; [done|]. simpl in Hl. pose proof Hf as [Hb Hm]%Forall_cons.
  destruct (split_show_mac b mac Hb Hm) as [Hs Hlen]. unfold mac_from_str. rewrite Hs, Hlen.
  rewrite (proj2 (Z.eqb_eq _ 17)) by lia. cbn [negb]. cbn [length]. rewrite length_fmap.
  rewrite (proj2 (Z.eqb_eq _ 6)) by lia. cbn [negb]. exact (mac_octets_show (b :: mac) Hf).
Qed.

(** The file ends with a line feed. *)
Lemma show_mac_visible mac :
  Forall (fun b => 0 <= b < 256) mac -> Forall (fun c => 48 <= c <= 102) (show_mac mac).
Proof.
  assert (Ho : forall b, 0 <= b < 256 -> Forall (fun c => 48 <= c <= 102) (show_octet b)).
  { intros b Hb. destruct (octet_digits b Hb) as (H1 & H2 & _). unfold show_octet.
    repeat constructor; [apply (show_hex_plain _ H1)..|apply (show_hex_plain _ H2)|apply (show_hex_plain _ H2)]. }
  induction 1 as [|b mac Hb Hm IH]; [constructor|]. destruct mac as [|b' mac]; [by apply Ho|].
  apply Forall_app. split; [by apply Ho|]. constructor; [lia|done].
Qed.

Lemma trim_line s : s <> [] -> Forall (fun c => 48 <= c <= 102) s -> trim (s ++ [10]) = s.
Proof.
  intros Hn Hs. assert (Hw : forall c, 48 <= c <= 102 -> is_whitespace c = false).
  { intros c Hc. unfold is_whitespace. repeat case_cmp_step; simpl; lia || done. }
  assert (Hr : Forall (fun c => 48 <= c <= 102) (rev s)) by (by rewrite Forall_rev_iff || apply Forall_rev).
  unfold trim. destruct s as [|c s]; [done|]. apply Forall_cons in Hs as [Hc _].
  cbn [app trim_start]. rewrite (Hw c Hc). change (c :: s ++ [10]) with ((c :: s) ++ [10]).
  rewrite rev_app_distr. cbn [rev app trim_start]. change (is_whitespace 10) with true. cbv iota.
  assert (Hid : trim_start (rev (c :: s)) = rev (c :: s)).
  { destruct (rev (c :: s)) as [|d r]; [done|]. apply Forall_cons in Hr as [Hd _]. simpl. by rewrite (Hw d Hd). }
  cbn [rev] in Hid. rewrite Hid. change (rev s ++ [c]) with (rev (c :: s)). apply rev_involutive.
Qed.

Lemma result_bind_ok {X Y} (m : result unit X) (f : X -> result unit Y) y :
  m ≫= f = Ok y -> exists x, m = Ok x /\ f x = Ok y.
Proof. destruct m; simpl; [eauto|done]. Qed.

Lemma gateway_mac_ok y idx mac :
  gateway_mac y idx = Ok mac ->
  exists ip, first_of (default_gateway idx) (sys_routes y) ip
    /\ (first_of (mac_of ip) (sys_neighs y) mac
        \/ sys_ping y ip = true /\ first_of (mac_of ip) (sys_neighs_pinged y) mac).
Proof.
  intros (ip & Hip%gateway_loop_first & Hm)%result_bind_ok. exists ip. split; [done|].
  destruct (neigh_loop ip (sys_neighs y)) as [m|] eqn:En.
  - injection Hm as ->. left. by apply neigh_loop_first.
  - destruct (sys_ping y ip); [|done]. right. split; [done|]. by apply neigh_loop_first.
Qed.

(** What is found is well formed. *)
Lemma find_link_ok y iface l : system_ok y -> find_link y iface = Ok l -> link_ok l.
Proof.
  intros Hy (idx & Hidx & (gmac & Hg%gateway_mac_ok & (imac & Hi & (ip & Hip & Hl)%result_bind_ok)%result_bind_ok)%result_bind_ok)%result_bind_ok.
  injection Hl as <-. apply result_bind_ok in Hi as (file & _ & Hi). apply result_bind_ok in Hip as (addrs & Haddrs & Hip).
  apply local_ip_loop_ok in Hip as (a & Ha & _ & Haddr).
  destruct Hg as (gw & _ & Hg). destruct (mac_from_str_ok _ _ Hi) as [Hl2 Hf2].
  assert (length gmac = 6%nat /\ Forall (fun b => 0 <= b < 256) gmac) as [Hl1 Hf1].
  { destruct Hg as [Hg|[_ Hg]]; (eapply (mac_of_ok y); [done| |exact Hg]); auto. }
  unfold link_ok. cbn [gateway interface source_ip]. split_and!; [done..|by eapply sys_addrs|by apply Forall_app].
Qed.

(** ** Theorem *)

(** C40: the link that every packet is addressed with is well formed and
    is the right one: two hardware addresses of six bytes and a source address
    of 32 bits; the gateway is that of the first default route through the
    interface, its hardware address is the one the neighbour table has for it
    (after a ping, if it had none before), the interface's is read back from
    what the system prints for it, and the source address is one of the
    interface. *)
Theorem link_found (y : system) (iface : str) (l : link) :
  system_ok y -> find_link y iface = Ok l ->
  link_ok l
  /\ (exists idx ip, sys_index y = Ok idx /\ first_of (default_gateway idx) (sys_routes y) ip
        /\ (first_of (mac_of ip) (sys_neighs y) (gateway l)
            \/ sys_ping y ip = true /\ first_of (mac_of ip) (sys_neighs_pinged y) (gateway l)))
  /\ (forall mac, length mac = 6%nat -> Forall (fun b => 0 <= b < 256) mac ->
        sys_mac_file y = Ok (show_mac mac ++ [10]) -> interface l = mac)
  /\ exists addrs a, sys_ifaddrs y = Ok addrs /\ a ∈ addrs /\ if_name a = iface
       /\ if_addr a = Some (source_ip l).
Proof.
  intros Hy Hfind. pose proof (find_link_ok y iface l Hy Hfind) as Hok.
  apply result_bind_ok in Hfind as (idx & Hidx & (gmac & Hg%gateway_mac_ok & (imac & Hi & (ip & Hip & Hl)%result_bind_ok)%result_bind_ok)%result_bind_ok).
  injection Hl as <-. cbn [gateway interface source_ip] in *.
  apply result_bind_ok in Hi as (file & Hfile & Hi). apply result_bind_ok in Hip as (addrs & Haddrs & Hip).
  apply local_ip_loop_ok in Hip as (a & Ha & Hname & Haddr). split_and!; [done| | |by exists addrs, a].
  - destruct Hg as (gw & ? & ?). by exists idx, gw.
  - intros mac Hl Hf E. rewrite Hfile in E. injection E as ->. rewrite trim_line in Hi.
    + rewrite mac_from_show in Hi by done. by simplify_eq.
    + destruct mac as [|b [|]]; done.
    + by apply show_mac_visible.
Qed.

(** ** Witness *)

Definition demo_system : system :=
  mkSystem [Ok (mkRoute 24 [Oif 2]); Ok (mkRoute 0 [Oif 3; GatewayInet 9]); Ok (mkRoute 0 [Oif 2; GatewayInet 167772414])]
    [Ok [DestinationInet 5; LinkLayerAddress [9; 9; 9; 9; 9; 9]]] (fun _ => true)
    [Ok [DestinationInet 167772414; LinkLayerAddress [1; 2; 3; 4; 5; 6]]]
    (Ok (show_mac [170; 187; 204; 0; 17; 34] ++ [10])) (Ok [mkIfAddr [108; 111] (Some 2130706433); mkIfAddr [101] (Some 167772161)])
    (Ok 2).

Lemma demo_system_ok : system_ok demo_system.
Proof.
  constructor.
  - intros neighs attributes bytes [-> | ->] Ha Hb;
      apply list_elem_of_singleton in Ha; injection Ha as ->; apply elem_of_cons in Hb as [Hb|Hb]; try discriminate;
      apply list_elem_of_singleton in Hb; injection Hb as ->; repeat constructor; lia.
  - intros l a ip [= <-] Ha Hip. apply elem_of_cons in Ha as [-> | Ha]; [|apply list_elem_of_singleton in Ha as ->];
      injection Hip as <-; vm_compute; split; congruence.
Qed.

Lemma link_found_witness :
  find_link demo_system [101] = Ok (mkLink [1; 2; 3; 4; 5; 6] [170; 187; 204; 0; 17; 34] 167772161)
  /\ link_ok (mkLink [1; 2; 3; 4; 5; 6] [170; 187; 204; 0; 17; 34] 167772161).
Proof.
  assert (E : find_link demo_system [101] = Ok (mkLink [1; 2; 3; 4; 5; 6] [170; 187; 204; 0; 17; 34] 167772161))
    by (vm_compute; reflexivity).
  split; [exact E|]. exact (proj1 (link_found demo_system [101] _ demo_system_ok E)).
Defined.
