(* ===== verification/Native.v ===== *)
(** * What crosses the C interface: [Ring::new] of [xdp/ring.rs],
      [net/interface.rs], [net/nic.rs], [ip::parse] of [net/ip.rs]

    Memory that belongs to the kernel or to the C library: where the cells of
    a ring lie in its mapping, the list that [getifaddrs] builds, the name of
    an interface in a request.  Names are compared byte by byte, so a name is
    the list of its bytes here. *)

From S2P Require Import Prelude Ranges Text Tcp Ring Umem Link.

(** ** [Ring::new]: the mapping *)

(** The length of the mapping and the offsets of its cells. *)
Record mapping : Type := mkMapping { m_len : Z; m_prod : Z; m_cons : Z; m_desc : Z; m_flags : Z }.

(** [size_of::<T>()]: a [Descriptor] or a [u64]. *)
Definition entry_size (kind : RingKind) : Z := match kind with Tx | Rx => 16 | Fill | Complete => 8 end.

Definition ring_map (offsets : MmapOffsets) (kind : RingKind) (size : Z) : mapping :=
  let off := get_offset offsets kind in
  mkMapping (u64_of (o_desc off + u64_of (size * entry_size kind))) (o_producer off) (o_consumer off) (o_desc off)
    (o_flags off).

(** [self.ring.as_ptr().add(...)]: where an index leads. *)
Definition slot_addr {T} (m : mapping) (kind : RingKind) (r : Ring T) (ix : Z) : Z :=
  m_desc m + slot_of r ix * entry_size kind.

(** The kernel puts the counters and the flags, cells of four bytes, before
    the entries. *)
Definition offsets_ok (off : RingOffset) : Prop :=
  0 <= o_producer off /\ 0 <= o_consumer off /\ 0 <= o_flags off
  /\ o_producer off + 4 <= o_consumer off
  /\ o_consumer off + 4 <= o_flags off /\ o_flags off + 4 <= o_desc off /\ o_desc off < 2 ^ 32.

(** Whatever the index, an entry lies in the mapping and behind the counters
    and the flags, and different slots do not overlap. *)
Theorem ring_mapped {T} (offsets : MmapOffsets) (kind : RingKind) (sh : Shared) (size : Z) (area : list T) (ix jx : Z) :
  offsets_ok (get_offset offsets kind) -> 0 < size < 2 ^ 32 ->
  let m := ring_map offsets kind size in
  let r := ring_new kind sh size area in
  (forall cell, cell = m_prod m \/ cell = m_cons m \/ cell = m_flags m ->
     0 <= cell /\ cell + 4 <= slot_addr m kind r ix)
  /\ slot_addr m kind r ix + entry_size kind <= m_len m
  /\ (slot_of r ix <> slot_of r jx ->
      slot_addr m kind r ix + entry_size kind <= slot_addr m kind r jx
      \/ slot_addr m kind r jx + entry_size kind <= slot_addr m kind r ix).
Proof.
  intros (H1 & H2 & H3 & H4 & H5 & H6 & H7) Hs m r.
  assert (He : 8 <= entry_size kind <= 16) by (destruct kind; simpl; lia).
  assert (Hr : forall i, 0 <= slot_of r i < size).
  { intros i. unfold r, slot_of, ring_new. destruct (initial_counters _ _ _). simpl. apply Z.mod_pos_bound. lia. }
  assert (Hlen : m_len m = o_desc (get_offset offsets kind) + size * entry_size kind).
  { unfold m, ring_map, u64_of. simpl. rewrite (wrap_small 64 (size * _)) by (unfold in_width; nia).
    apply wrap_small. unfold in_width. nia. }
  pose proof (Hr ix). pose proof (Hr jx). unfold slot_addr. rewrite Hlen. simpl. split_and!.
  - intros cell Hcell. unfold m, ring_map in Hcell. simpl in Hcell. nia.
  - nia.
  - intros Hne. assert (slot_of r ix < slot_of r jx \/ slot_of r jx < slot_of r ix) as [|] by lia; [left|right]; nia.
Qed.

(** ** C strings *)

(** The bytes before the first zero; running out of the allocation is
    undefined. *)
Fixpoint c_str (mem : list Z) : outcome (list Z) :=
  match mem with
  | [] => Fault Undefined
  | c :: mem => if c =? 0 then Ret [] else s ← c_str mem; Ret (c :: s)
  end.

Lemma c_str_app s rest : Forall (fun c => c <> 0) s -> c_str (s ++ 0 :: rest) = Ret s.
Proof. induction 1 as [|c s Hc _ IH]; [done|]. simpl. by rewrite (proj2 (Z.eqb_neq _ _) Hc), IH. Qed.

(** ** [IfAddrs] *)

(** A [sockaddr]: its family and the bytes of [sin_addr]. *)
Record sockaddr : Type := mkSockaddr { sa_family : Z; sin_addr : list Z }.

(** A node of the list of [getifaddrs]; [0] is the null pointer. *)
Record ifnode : Type := mkNode { ifa_next : Z; ifa_name : list Z; ifa_addr : option sockaddr }.

Record IfAddrs : Type := mkIfAddrs { ifaddrs : Z; if_next : Z }.

(** [new]: [getifaddrs] gives the head of the list or fails. *)
Definition ifaddrs_new (head : result unit Z) : result unit IfAddrs := p ← head; Ok (mkIfAddrs p p).

(** [Ipv4Addr::from_octets(s_addr.to_ne_bytes())]: the bytes as they lie. *)
Definition from_octets (bytes : list Z) : Ipv4Addr :=
  match bytes with [a; b; c; d] => be32 a b c d | _ => 0 end.

Section ifaddrs.
(** [AF_INET], and the memory of the C library. *)
Context (AF_INET : Z) (mem : gmap Z ifnode).

Definition node_addr (n : ifnode) : option Ipv4Addr :=
  match ifa_addr n with
  | None => None
  | Some addr => if sa_family addr =? u16_of AF_INET then Some (from_octets (sin_addr addr)) else None
  end.

Definition ifaddrs_next (self : IfAddrs) : outcome (option IfAddr * IfAddrs) :=
  if if_next self =? 0 then Ret (None, self)
  else
    match mem !! if_next self with
    | None => Fault Undefined
    | Some n =>
        let addr := node_addr n in
        name ← c_str (ifa_name n);
        Ret (Some (mkIfAddr name addr), mkIfAddrs (ifaddrs self) (ifa_next n))
    end.

(** The loop of [get_local_ip] over the iterator. *)
Fixpoint find_ip (fuel : nat) (iface : list Z) (self : IfAddrs) : outcome (result unit Ipv4Addr * IfAddrs) :=
  match fuel with
  | O => Fault OutOfFuel
  | S fuel =>
      '(item, self) ← ifaddrs_next self;
      match item with
      | None => Ret (Err tt, self)
      | Some a =>
          match if_addr a with
          | Some ip => if bool_decide (if_name a = iface) then Ret (Ok ip, self) else find_ip fuel iface self
          | None => find_ip fuel iface self
          end
      end
  end.

(** [Drop]: the pointer [freeifaddrs] gets. *)
Definition ifaddrs_drop (self : IfAddrs) : Z := ifaddrs self.

(** The list at [p] in memory holds the entries [l]. *)
Inductive chain : Z -> list IfAddr -> Prop :=
  | chain_nil : chain 0 []
  | chain_cons p n name l : p <> 0 -> mem !! p = Some n -> c_str (ifa_name n) = Ret name ->
      chain (ifa_next n) l -> chain p (mkIfAddr name (node_addr n) :: l).

(** The iterator visits the entries in order, stays in the list, ends, and
    keeps the head for [Drop]; the search is the one over the list. *)
Theorem find_ip_chain iface l : forall fuel head p,
  chain p l -> (length l < fuel)%nat ->
  exists self, find_ip fuel iface (mkIfAddrs head p) = Ret (local_ip_loop iface l, self)
    /\ ifaddrs_drop self = head.
Proof.
  induction l as [|a l IH]; intros [|fuel] head p Hc Hf; simpl in Hf; try lia.
  - inversion Hc; subst. by eexists.
  - inversion Hc as [|? n name ? Hp Hm Hs Hl]; subst. cbn [find_ip ifaddrs_next if_next].
    unfold ifaddrs_next. cbn [if_next ifaddrs]. rewrite (proj2 (Z.eqb_neq _ _)), Hm, Hs by done.
    cbn [mbind outcome_bind if_addr if_name local_ip_loop].
    destruct (node_addr n); [|by apply IH; [|lia]].
    destruct (bool_decide _); [by eexists|by apply IH; [|lia]].
Qed.

End ifaddrs.

(** [name_to_index]: [CString::new] refuses a name with a zero; [index_of] is
    [if_nametoindex], which gives zero for no interface. *)
Definition name_to_index (index_of : list Z -> Z) (name : list Z) : result unit Z :=
  if existsb (Z.eqb 0) name then Err tt
  else
    let if_index := index_of (name ++ [0]) in
    if if_index =? 0 then Err tt else Ok if_index.

(** ** [nic.rs] *)

Record Queue : Type := mkQueue { q_rx : Z; q_tx : Z; q_other : Z; q_combined : Z }.
Record Queues : Type := mkQueues { q_cmd : Z; q_max : Queue; q_current : Queue }.

Record InterfaceInfoGuard : Type := mkGuard { g_fd : Z; ifr_name : list Z }.

Definition ETHTOOL_GCHANNELS : Z := 60.

(** [new]: the two sockets it may try, and the name copied into a field of
    [IFNAMSIZ] zeros. *)
Definition guard_new (IFNAMSIZ : Z) (inet netlink : Z) (dev : list Z) : result unit InterfaceInfoGuard :=
  if IFNAMSIZ - 1 <? zlen dev then Err tt
  else
    let fd := if inet <? 0 then netlink else inet in
    if fd <? 0 then Err tt
    else Ok (mkGuard fd (dev ++ drop (length dev) (replicate (Z.to_nat IFNAMSIZ) 0))).

(** [queues]: the request carries the name and the command; [ioctl] answers
    with the record it filled, or fails. *)
Definition queues (ioctl : list Z -> Queues -> option Queues) (self : InterfaceInfoGuard) : result unit Queues :=
  ok_or (ioctl (ifr_name self) (mkQueues ETHTOOL_GCHANNELS (mkQueue 0 0 0 0) (mkQueue 0 0 0 0))).

(** The request fills its field and names the interface that was asked for;
    a name is refused only when it does not fit. *)
Theorem guard_name (IFNAMSIZ inet netlink : Z) (dev : list Z) :
  1 <= IFNAMSIZ -> Forall (fun c => c <> 0) dev ->
  match guard_new IFNAMSIZ inet netlink dev with
  | Ok g => zlen (ifr_name g) = IFNAMSIZ /\ c_str (ifr_name g) = Ret dev /\ 0 <= g_fd g
  | Err _ => IFNAMSIZ <= zlen dev \/ inet < 0 /\ netlink < 0
  end.
Proof.
  intros HI Hd. unfold guard_new. case_cmp_step; [left; lia|].
  destruct (Z.ltb_spec inet 0); case_cmp_step; try (right; lia).
  all: cbn [ifr_name g_fd]; split_and!; [rewrite length_app, length_drop, length_replicate; lia| |lia].
  all: rewrite drop_replicate; replace (Z.to_nat IFNAMSIZ - length dev)%nat with (S (Z.to_nat (IFNAMSIZ - 1 - zlen dev))) by lia.
  all: by apply c_str_app.
Qed.

(** ** [ip::parse] *)

(** [&s[from..to]]: cutting a character is a panic. *)
Definition is_char_boundary (s : list Z) (i : nat) : bool :=
  match s !! i with Some c => negb ((128 <=? c) && (c <? 192)) | None => (i =? length s)%nat end.
Definition str_slice (s : list Z) (from upto : nat) : outcome (list Z) :=
  if is_char_boundary s from && is_char_boundary s upto && (from <=? upto)%nat
  then Ret (take (upto - from) (drop from s)) else Fault Panic.

Definition hex_at (s : list Z) (from upto : nat) : outcome (result unit Z) :=
  x ← str_slice s from upto; Ret (ok_or (u8_from_hex x)).

(** The octets are written with the least significant byte first, as
    [/proc/net/route] has them. *)
Definition ip_parse (s : list Z) : outcome (result unit Ipv4Addr) :=
  if negb (zlen s =? 8) then Ret (Err tt)
  else
    o1 ← hex_at s 6 8;
    match o1 with
    | Err e => Ret (Err e)
    | Ok o1 =>
        o2 ← hex_at s 4 6;
        match o2 with
        | Err e => Ret (Err e)
        | Ok o2 =>
            o3 ← hex_at s 2 4;
            match o3 with
            | Err e => Ret (Err e)
            | Ok o3 =>
                o4 ← hex_at s 0 2;
                match o4 with
                | Err e => Ret (Err e)
                | Ok o4 => Ret (Ok (be32 o1 o2 o3 o4))
                end
            end
        end
    end.

(** Two digits of a printed address. *)
Lemma hex_at_show (s : list Z) i b :
  0 <= b < 256 -> Forall (fun c => 0 <= c < 128) s -> (i + 2 <= length s)%nat -> take 2 (drop i s) = show_octet b ->
  hex_at s i (i + 2) = Ret (Ok b).
Proof.
  intros Hb Hs Hl Ht. unfold hex_at, str_slice.
  assert (Hbd : forall j, (j <= length s)%nat -> is_char_boundary s j = true).
  { intros j Hj. unfold is_char_boundary. destruct (s !! j) as [c|] eqn:E.
    - pose proof (proj1 (Forall_lookup _ _) Hs j c E). simpl in *. rewrite (proj2 (Z.leb_gt 128 c)) by lia. done.
    - apply lookup_ge_None in E. apply Nat.eqb_eq. lia. }
  rewrite !Hbd, (proj2 (Nat.leb_le _ _)) by lia. replace (i + 2 - i)%nat with 2%nat by lia. simpl.
  by rewrite Ht, show_octet_hex.
Qed.

(** The text of an address in the form of [/proc/net/route]. *)
Definition show_route_ip (a b c d : Z) : list Z := show_octet d ++ show_octet c ++ show_octet b ++ show_octet a.

(** Such a text is read back. *)
Theorem ip_parse_show (a b c d : Z) :
  0 <= a < 256 -> 0 <= b < 256 -> 0 <= c < 256 -> 0 <= d < 256 ->
  ip_parse (show_route_ip a b c d) = Ret (Ok (be32 a b c d)).
Proof.
  intros Ha Hb Hc Hd.
  assert (Hs : Forall (fun c => 0 <= c < 128) (show_route_ip a b c d)).
  { assert (Ho : forall o, 0 <= o < 256 -> Forall (fun c => 0 <= c < 128) (show_octet o)).
    { intros o Ho. destruct (octet_digits o Ho) as (H1 & H2 & _). unfold show_octet.
      pose proof (show_hex_plain _ H1). pose proof (show_hex_plain _ H2). repeat constructor; lia. }
    unfold show_route_ip. repeat apply Forall_app_2; by apply Ho. }
  unfold ip_parse. change (zlen (show_route_ip a b c d) =? 8) with true. simpl negb. cbv iota.
  rewrite (hex_at_show _ 6 a); [|done|done|simpl; lia|done]. cbn [mbind outcome_bind].
  rewrite (hex_at_show _ 4 b); [|done|done|simpl; lia|done]. cbn [mbind outcome_bind].
  rewrite (hex_at_show _ 2 c); [|done|done|simpl; lia|done]. cbn [mbind outcome_bind].
  rewrite (hex_at_show _ 0 d); [|done|done|simpl; lia|done]. done.
Qed.

(** ** Examples *)

(** A loopback interface and one with the address 10.0.0.1. *)
Definition demo_nodes : gmap Z ifnode :=
  <[4096 := mkNode 8192 [108; 111; 0] (Some (mkSockaddr 2 [127; 0; 0; 1]))]>
    (<[8192 := mkNode 0 [101; 0; 7] (Some (mkSockaddr 2 [10; 0; 0; 1]))]> ∅).

Example demo_find_ip :
  find_ip 2 demo_nodes 3 [101] (mkIfAddrs 4096 4096) = Ret (Ok 167772161, mkIfAddrs 4096 0)
  /\ find_ip 2 demo_nodes 3 [102] (mkIfAddrs 4096 4096) = Ret (Err tt, mkIfAddrs 4096 0).
Proof. split; vm_compute; reflexivity. Qed.

(** A text of eight bytes that are not ASCII is a panic, not an error. *)
Example ip_parse_panics : ip_parse [48; 48; 48; 195; 169; 48; 48; 48] = Fault Panic.
Proof. vm_compute. reflexivity. Qed.
