(* ===== verification/Receiver.v ===== *)
(** * Receiving: [controller/receiver.rs]

    A receiver owns a fill ring, where it hands empty frames to the kernel, and
    a receive ring, where the kernel hands them back filled.  A batch of
    received frames is borrowed through a guard; dropping the guard gives all
    of them back, the ones that were never looked at included. *)

From S2P Require Import Prelude Ring Umem Sender.

(** Constants of the kernel headers: how an address and an offset share the
    64 bits of a descriptor. *)
Class UnalignedConsts : Type := {
  BUF_ADDR_MASK : Z;      (* XSK_UNALIGNED_BUF_ADDR_MASK *)
  BUF_OFFSET_SHIFT : Z }. (* XSK_UNALIGNED_BUF_OFFSET_SHIFT *)

(** The rings, with the counters in the shared area only user space writes. *)
Record Receiver : Type := mkReceiver {
  fr : Ring Z;
  fr_prod : Z;
  rx : Ring Descriptor;
  rx_cons : Z;
  rx_batch_size : Z }.

(** What a look at the shared areas finds: the descriptors and the producer
    counter the kernel has written to the receive ring, the consumer counter
    and the flags of the fill ring, and whether [recvfrom] succeeds. *)
Record rlook : Type := mkLook {
  k_rx : list Descriptor;
  k_rx_prod : Z;
  k_fr_cons : Z;
  k_fr_flags : Z;
  k_recvfrom : bool }.

(** [BatchGuard]; the rings it borrows are those of the receiver. *)
Record BatchGuard : Type := mkGuard {
  rx_start : Z;
  fill_start : Z;
  g_count : Z;
  cursor : Z }.

Section receiver.
Context `{KernelConsts} `{UnalignedConsts}.

Definition with_fr (self : Receiver) (r : Ring Z) : Receiver :=
  mkReceiver r (fr_prod self) (rx self) (rx_cons self) (rx_batch_size self).
Definition with_rx (self : Receiver) (r : Ring Descriptor) : Receiver :=
  mkReceiver (fr self) (fr_prod self) r (rx_cons self) (rx_batch_size self).

(** [fr[index] = value]; the area has [size] entries. *)
Definition fill_slot (self : Receiver) (index value : Z) : outcome Receiver :=
  match ring_get (fr self) index with
  | Some _ => Ret (with_fr self (ring_set (fr self) index value))
  | None => Fault Undefined
  end.

(** ** [Receiver::new] *)

Fixpoint fill_frames (n : nat) (i index starting_frame frame_size : Z) (self : Receiver)
    : outcome Receiver :=
  match n with
  | O => Ret self
  | S n =>
      self ← fill_slot self (u32_of (index + i)) (u32_of (u32_of (starting_frame + i) * frame_size));
      fill_frames n (i + 1) index starting_frame frame_size self
  end.

Definition receiver_new (u : Umem) (fill : Ring Z) (prod : Z) (recv : Ring Descriptor) (cons : Z)
    (starting_frame batch_size : Z) (t : rlook) : outcome (result unit Receiver) :=
  let sz := size fill in
  let sh := mkShared prod (k_fr_cons t) (k_fr_flags t) in
  match reserve fill sh sz with
  | (None, _) => Ret (Err tt)
  | (Some index, fill) =>
      self ← fill_frames (Z.to_nat sz) 0 index starting_frame (frame_size u)
               (mkReceiver fill prod recv cons batch_size);
      let '(_, sh) := submit sh sz in
      if k_recvfrom t then
        Ret (Ok (mkReceiver (fr self) (Ring.prod sh) (rx self) cons batch_size))
      else Ret (Err tt)
  end.

(** ** [receive] *)

Definition receive (t : rlook) (self : Receiver) : result unit (option BatchGuard) * Receiver :=
  let r := mkRing (cached_prod (rx self)) (cached_cons (rx self)) (size (rx self)) (k_rx t) in
  match peek r (mkShared (k_rx_prod t) (rx_cons self) 0) (rx_batch_size self) with
  | (None, r) => (Ok None, with_rx self r)
  | (Some (rx_start, count), r) =>
      let sh := mkShared (fr_prod self) (k_fr_cons t) (k_fr_flags t) in
      if needs_wakeup NEED_WAKEUP sh && negb (k_recvfrom t) then
        (Err tt, with_rx self (unpeek r count))
      else
        match reserve (fr self) sh count with
        | (None, f) => (Err tt, with_rx (with_fr self f) (unpeek r count))
        | (Some fill_start, f) =>
            (Ok (Some (mkGuard rx_start fill_start count 0)), with_rx (with_fr self f) r)
        end
  end.

(** ** [BatchGuard] *)

(** The descriptor at [rx_start + i] and the frame it names. *)
Definition guard_desc (g : BatchGuard) (self : Receiver) (i : Z) : outcome Descriptor :=
  match ring_get (rx self) (u32_of (rx_start g + i)) with
  | Some d => Ret d
  | None => Fault Undefined
  end.

Definition comp_addr (d : Descriptor) : Z := Z.land (d_addr d) BUF_ADDR_MASK.

(** [next]: the address and the length of the slice it returns. *)
Definition guard_next (g : BatchGuard) (self : Receiver)
    : outcome (option (Z * Z) * BatchGuard * Receiver) :=
  if g_count g <=? cursor g then Ret (None, g, self)
  else
    d ← guard_desc g self (cursor g);
    let addr := Z.shiftr (d_addr d) BUF_OFFSET_SHIFT + comp_addr d in
    self ← fill_slot self (u32_of (fill_start g + cursor g)) (comp_addr d);
    Ret (Some (addr, d_len d),
         mkGuard (rx_start g) (fill_start g) (g_count g) (u32_of (cursor g + 1)), self).

(** [for i in self.cursor..self.count]. *)
Fixpoint refill (n : nat) (i : Z) (g : BatchGuard) (self : Receiver) : outcome Receiver :=
  match n with
  | O => Ret self
  | S n =>
      d ← guard_desc g self i;
      self ← fill_slot self (u32_of (fill_start g + i)) (comp_addr d);
      refill n (i + 1) g self
  end.

(** [drop]; a wake-up that fails is only logged. *)
Definition guard_drop (t : rlook) (g : BatchGuard) (self : Receiver) (filled : Z)
    : outcome (Receiver * Z) :=
  self ← refill (Z.to_nat (g_count g - cursor g)) (cursor g) g self;
  let '(_, rsh) := release (mkShared (k_rx_prod t) (rx_cons self) 0) (g_count g) in
  let '(_, fsh) := submit (mkShared (fr_prod self) (k_fr_cons t) (k_fr_flags t)) (g_count g) in
  Ret (mkReceiver (fr self) (Ring.prod fsh) (rx self) (Ring.cons rsh) (rx_batch_size self),
       u64_of (filled + cursor g)).

(** ** Specification *)

(** [m] calls of [next]. *)
Fixpoint guard_take (m : nat) (g : BatchGuard) (self : Receiver)
    : outcome (list (Z * Z) * BatchGuard * Receiver) :=
  match m with
  | O => Ret ([], g, self)
  | S m =>
      '(o, g, self) ← guard_next g self;
      match o with
      | None => Ret ([], g, self)
      | Some x => '(l, g, self) ← guard_take m g self; Ret (x :: l, g, self)
      end
  end.

(** The slice a descriptor stands for. *)
Definition slice_of (d : Descriptor) : Z * Z :=
  (Z.shiftr (d_addr d) BUF_OFFSET_SHIFT + comp_addr d, d_len d).

(** Both rings are as large as they say, and a batch fits the fill ring. *)
Record receiver_ok (self : Receiver) : Prop := {
  ok_fr : zlen (ring (fr self)) = size (fr self) /\ 0 < size (fr self);
  ok_fr_pow : (size (fr self) | 2 ^ 32);
  ok_rx : 0 < size (rx self);
  ok_batch : 0 <= rx_batch_size self <= size (fr self) /\ rx_batch_size self < 2 ^ 32 }.

(** The entry of a ring at the index [i] places after [start]. *)
Definition entry_at {T} (r : Ring T) (start i : Z) : option T := ring_get r (u32_of (start + i)).

(** The entries of the batch. *)
Definition batch_descs (g : BatchGuard) (self : Receiver) : list Descriptor :=
  omap (entry_at (rx self) (rx_start g)) (seqZ 0 (g_count g)).

(** ** Lemmas *)

(** [self'] is [self] with the first [c] buffers of the batch written to the
    fill ring, and nothing else changed. *)
Definition recycled (c : Z) (g : BatchGuard) (self self' : Receiver) : Prop :=
  rx self' = rx self /\ rx_cons self' = rx_cons self /\ fr_prod self' = fr_prod self
  /\ rx_batch_size self' = rx_batch_size self
  /\ size (fr self') = size (fr self) /\ length (ring (fr self')) = length (ring (fr self))
  /\ (forall i, 0 <= i < c -> exists d, entry_at (rx self) (rx_start g) i = Some d
        /\ entry_at (fr self') (fill_start g) i = Some (comp_addr d))
  /\ (forall k, (forall i, 0 <= i < c -> k <> Z.to_nat (slot_of (fr self) (u32_of (fill_start g + i)))) ->
        ring (fr self') !! k = ring (fr self) !! k).

Section batch.
Context (g : BatchGuard) (self : Receiver).
Context (Hfr : zlen (ring (fr self)) = size (fr self)) (Hpos : 0 < size (fr self)).
Context (Hpow : (size (fr self) | 2 ^ 32)) (Hfit : g_count g <= size (fr self)).
Context (Hrx : zlen (ring (rx self)) = size (rx self)) (Hrpos : 0 < size (rx self)).
Context (Hw : g_count g < 2 ^ 32).

Lemma entry_ok i : exists d, guard_desc g self i = Ret d /\ entry_at (rx self) (rx_start g) i = Some d.
Proof.
  unfold guard_desc, entry_at, ring_get, slot_of.
  pose proof (Z.mod_pos_bound (u32_of (rx_start g + i)) _ Hrpos).
  destruct (ring (rx self) !! _) as [d|] eqn:E; [by exists d|]. apply lookup_ge_None in E. lia.
Qed.

Lemma recycled_0 : recycled 0 g self self.
Proof. split_and!; try done. intros i Hi. lia. Qed.

(** Writing the next buffer back. *)
Lemma recycled_step c self1 :
  recycled c g self self1 -> 0 <= c < g_count g ->
  exists d self2, guard_desc g self1 c = Ret d /\ entry_at (rx self) (rx_start g) c = Some d
    /\ fill_slot self1 (u32_of (fill_start g + c)) (comp_addr d) = Ret self2
    /\ recycled (c + 1) g self self2.
Proof.
  intros (H1 & H2 & H3 & H4 & H5 & H6 & H7 & H8) Hc. destruct (entry_ok c) as (d & Hd & He).
  exists d. unfold guard_desc in *. rewrite H1. unfold fill_slot, ring_get.
  pose proof (Z.mod_pos_bound (u32_of (fill_start g + c)) _ Hpos) as Hm.
  destruct (ring (fr self1) !! _) as [x|] eqn:Ex.
  2: { exfalso. apply lookup_ge_None in Ex. unfold slot_of in Ex. rewrite H5 in Ex. lia. }
  eexists. split_and!; [done|done|done|]. simpl. split_and!; try done.
  { simpl. by rewrite length_insert. }
  - intros i Hi. unfold entry_at, ring_get in *. simpl.
    change (slot_of (ring_set _ _ _) ?x) with (slot_of (fr self1) x).
    destruct (decide (i = c)) as [->|Hne].
    + exists d. split; [done|]. apply list_lookup_insert_eq. by eapply lookup_lt_Some.
    + destruct (H7 i ltac:(lia)) as (e & Hee & Hi'). exists e. split; [done|].
      rewrite list_lookup_insert_ne; [done|].
      assert (slot_of (fr self1) (u32_of (fill_start g + c)) <> slot_of (fr self1) (u32_of (fill_start g + i)))
        by (apply batch_slots; rewrite ?H5; (done || lia)).
      unfold slot_of in *. pose proof (Z.mod_pos_bound (u32_of (fill_start g + i)) _ Hpos).
      rewrite H5 in *. lia.
  - intros k Hk. simpl. rewrite list_lookup_insert_ne; [|unfold slot_of; rewrite H5; apply not_eq_sym, Hk; lia].
    apply H8. intros i Hi. apply Hk. lia.
Qed.

(** The rest of the batch, as [drop] writes it. *)
Lemma refill_ok n : forall c self1, recycled c g self self1 -> 0 <= c -> c + Z.of_nat n = g_count g ->
  exists self2, refill n c g self1 = Ret self2 /\ recycled (g_count g) g self self2.
Proof.
  induction n as [|n IH]; intros c self1 Hr Hc Hn; simpl.
  { exists self1. split; [done|]. by replace (g_count g) with c by lia. }
  destruct (recycled_step c self1 Hr ltac:(lia)) as (d & self2 & -> & _ & Hs & Hr2).
  cbn [mbind outcome_bind]. rewrite Hs. apply IH; [done|lia..].
Qed.

(** The guard after [c] calls of [next]. *)
Definition advanced (c : Z) : BatchGuard := mkGuard (rx_start g) (fill_start g) (g_count g) c.

(** [drop] does not depend on the cursor beyond where it starts. *)
Lemma refill_advanced n : forall c x self1, refill n c (advanced x) self1 = refill n c g self1.
Proof.
  induction n as [|n IH]; intros c x self1; simpl; [done|].
  change (guard_desc (advanced x) self1 c) with (guard_desc g self1 c).
  destruct (guard_desc g self1 c); simpl; [|done]. by destruct (fill_slot _ _ _); simpl.
Qed.

Lemma guard_take_ok m : forall c self1, recycled c g self self1 -> 0 <= c <= g_count g ->
  exists self2,
    guard_take m (advanced c) self1
    = Ret (slice_of <$> omap (entry_at (rx self) (rx_start g))
             (seqZ c (Z.min (Z.of_nat m) (g_count g - c))),
           advanced (c + Z.min (Z.of_nat m) (g_count g - c)), self2)
    /\ recycled (c + Z.min (Z.of_nat m) (g_count g - c)) g self self2.
Proof.
  induction m as [|m IH]; intros c self1 Hr Hc.
  { exists self1. rewrite Z.min_l, Z.add_0_r by lia. done. }
  cbn [guard_take]. unfold guard_next. cbn [g_count cursor advanced rx_start fill_start].
  destruct (Z.leb_spec (g_count g) c).
  { exists self1. replace c with (g_count g) in * by lia.
    rewrite Z.sub_diag, Z.min_r, Z.add_0_r by lia. done. }
  destruct (recycled_step c self1 Hr ltac:(lia)) as (d & self2 & Hd & He & Hs & Hr2).
  unfold guard_desc in Hd |- *. cbn [rx_start advanced]. rewrite Hd. cbn [mbind outcome_bind].
  rewrite Hs. cbn [mbind outcome_bind]. unfold u32_of at 1. rewrite wrap_small by (unfold in_width; lia).
  destruct (IH (c + 1) self2 Hr2 ltac:(lia)) as (self3 & Ht & Hr3).
  fold (advanced (c + 1)). rewrite Ht. cbn [mbind outcome_bind]. exists self3.
  set (k := Z.min (Z.of_nat m) (g_count g - (c + 1))) in *. assert (0 <= k) by lia.
  replace (Z.min (Z.of_nat (S m)) (g_count g - c)) with (Z.succ k) by lia.
  rewrite (seqZ_cons c), Z.pred_succ by lia. cbn [omap list_omap]. rewrite He.
  replace (c + Z.succ k) with (c + 1 + k) by lia. done.
Qed.

(** The descriptors of the batch, one by one. *)
Lemma batch_descs_ok :
  0 <= g_count g ->
  zlen (batch_descs g self) = g_count g
  /\ (forall i d, batch_descs g self !! i = Some d ->
        Z.of_nat i < g_count g /\ entry_at (rx self) (rx_start g) (Z.of_nat i) = Some d)
  /\ (forall m, take m (batch_descs g self)
        = omap (entry_at (rx self) (rx_start g)) (seqZ 0 (Z.min (Z.of_nat m) (g_count g)))).
Proof.
  intros Hc. unfold batch_descs.
  destruct (omap_total (entry_at (rx self) (rx_start g)) (seqZ 0 (g_count g))) as (Hl & Hlk & Htk).
  { intros i. destruct (entry_ok i) as (d & _ & ->). done. }
  split_and!.
  - rewrite Hl, length_seqZ. lia.
  - intros i d Hi. rewrite Hlk in Hi. apply bind_Some in Hi as (x & Hx & Hd).
    apply lookup_seqZ in Hx as [-> Hi]. by rewrite Z.add_0_l in Hd.
  - intros m. rewrite Htk. f_equal. set (j := Z.min (Z.of_nat m) (g_count g)).
    assert (0 <= j <= g_count g) by lia. replace (g_count g) with (j + (g_count g - j)) by lia.
    rewrite seqZ_app by lia. destruct (decide (Z.of_nat m <= g_count g)).
    + rewrite take_app_length'; [done|]. rewrite length_seqZ. lia.
    + rewrite take_ge by (rewrite length_app, !length_seqZ; lia).
      replace (g_count g - j) with 0 by lia. by rewrite app_nil_r.
Qed.

End batch.

End receiver.

(** ** Properties *)

Section properties.
Context `{KernelConsts} `{UnalignedConsts}.

(** C23: a batch of received frames is handed out in order and given back whole:
    however many frames of it are looked at before the guard is dropped, those
    frames are the first descriptors of the batch, the buffers of all its
    descriptors end up in the reserved slots of the fill ring, in order and
    nowhere else, both rings advance by the batch, only the frames looked at
    are counted, and nothing faults. *)
Theorem batch_recycles (t t' : rlook) (m : nat) (self self1 : Receiver) (filled : Z) (g : BatchGuard) :
  receiver_ok self -> zlen (k_rx t) = size (rx self) ->
  receive t self = (Ok (Some g), self1) ->
  0 < g_count g <= rx_batch_size self /\ zlen (batch_descs g self1) = g_count g
  /\ exists g2 self2 self3,
    guard_take m g self1 = Ret (slice_of <$> take m (batch_descs g self1), g2, self2)
    /\ guard_drop t' g2 self2 filled
       = Ret (self3, u64_of (filled + Z.min (Z.of_nat m) (g_count g)))
    /\ rx_cons self3 = u32_of (rx_cons self + g_count g)
    /\ fr_prod self3 = u32_of (fr_prod self + g_count g)
    /\ (forall i d, batch_descs g self1 !! i = Some d ->
          entry_at (fr self3) (fill_start g) (Z.of_nat i) = Some (comp_addr d))
    /\ (forall k, (forall i, 0 <= i < g_count g ->
             k <> Z.to_nat (slot_of (fr self) (u32_of (fill_start g + i)))) ->
          ring (fr self3) !! k = ring (fr self) !! k).
Proof.
  intros [[Hfr Hpos] Hpow Hrpos [Hb Hbw]] Hlen Hrec. unfold receive in Hrec.
  destruct (peek _ _ _) as [[[ix k]|] r] eqn:Ep; [|done].
  apply peek_facts in Ep as (Hk & Hs & Hr & _ & _); [|lia]. simpl in Hs, Hr.
  destruct (_ && _); [done|]. destruct (reserve _ _ _) as [[fs|] f] eqn:Er; [|done].
  apply reserve_facts in Er as (Hfs & Hfring & _). injection Hrec as <- <-. simpl.
  set (g := mkGuard ix fs k 0). set (self1 := with_rx _ r).
  destruct (guard_take_ok g self1) with (m := m) (c := 0) (self1 := self1)
    as (self2 & Ht & Hr2); try (simpl; rewrite ?Hfs, ?Hfring, ?Hs, ?Hr; (done || lia)).
  { apply recycled_0. }
  destruct (batch_descs_ok g self1) as (Hbl & Hbi & Hbt);
    [simpl; rewrite ?Hs, ?Hr; (done || lia)..|].
  split; [done|]. split; [done|].
  rewrite Z.sub_0_r, Z.add_0_l in *. cbn [g_count g] in Ht, Hr2.
  destruct (refill_ok g self1) with (n := Z.to_nat (k - Z.min (Z.of_nat m) k))
    (c := Z.min (Z.of_nat m) k) (self1 := self2) as (self3 & Hf3 & Hr3);
    try (simpl; rewrite ?Hfs, ?Hfring, ?Hs, ?Hr; (done || lia)).
  exists (advanced g (Z.min (Z.of_nat m) k)), self2. eexists. rewrite Hbt. split; [exact Ht|].
  unfold guard_drop. cbn [g_count cursor advanced g]. fold g. rewrite refill_advanced, Hf3. cbn [mbind outcome_bind].
  destruct Hr3 as (_ & R2 & R3 & _ & R5 & _ & R7 & R8). simpl in R2, R3.
  split; [done|]. simpl. rewrite R2, R3. split_and!; [done..| |].
  - intros i d Hi. destruct (Hbi i d Hi) as [Hlt He].
    destruct (R7 (Z.of_nat i)) as (d' & Hd' & Hf'); [simpl in *; lia|].
    assert (d' = d) as -> by congruence. exact Hf'.
  - intros j Hj. rewrite R8; [simpl; by rewrite Hfring|]. intros i Hi. simpl. unfold slot_of in *. rewrite Hfs. auto.
Qed.

End properties.

(** ** Witnesses *)

Local Instance ex_kconsts : KernelConsts :=
  {| NEED_WAKEUP := 1; TX_METADATA := 2; TXMD_CHECKSUM := 2 |}.
Local Instance ex_uconsts : UnalignedConsts :=
  {| BUF_ADDR_MASK := 2 ^ 48 - 1; BUF_OFFSET_SHIFT := 48 |}.

(** Three frames have arrived on rings of four; the counters are about to wrap. *)
Definition ex_receiver : Receiver :=
  mkReceiver (mkRing 4294967294 2 4 [0; 0; 0; 0]) 4294967294
    (mkRing 4294967295 4294967295 4 []) 4294967295 4.
Definition ex_look : rlook :=
  mkLook [mkDesc 2048 60 0; mkDesc (2 ^ 48 * 256 + 4096) 70 0; mkDesc 0 0 0; mkDesc 6144 80 0]
    2 4294967294 0 true.

Lemma batch_recycles_witness :
  exists g self1 g2 self2 self3, receive ex_look ex_receiver = (Ok (Some g), self1)
    /\ guard_take 1 g self1 = Ret ([(6144, 80)], g2, self2)
    /\ guard_drop ex_look g2 self2 10 = Ret (self3, 11)
    /\ entry_at (fr self3) 4294967294 2 = Some 4096.
Proof.
  destruct (receive ex_look ex_receiver) as [[[g|]|] self1] eqn:E; try (vm_compute in E; discriminate).
  destruct (batch_recycles ex_look ex_look 1 ex_receiver self1 10 g) as (Hc & _ & g2 & self2 & self3
    & Ht & Hd & _ & _ & He & _); [|reflexivity|exact E|].
  { split; [vm_compute; done|by exists (2 ^ 30)|vm_compute; done|vm_compute; split_and!; done]. }
  exists g, self1, g2, self2, self3. vm_compute in E. simplify_eq. split; [done|].
  split; [rewrite Ht; reflexivity|]. split; [exact Hd|].
  exact (He 2%nat (mkDesc (2 ^ 48 * 256 + 4096) 70 0) eq_refl).
Defined.
