(* ===== verification/Deque.v ===== *)
(** * The work-stealing queue: [controller/deque/]

    One worker pushes batches at the back, stealers take from the front.  The
    definitions model calls that run one after the other; [Stealing] cuts them
    at their shared accesses. *)

From S2P Require Import Prelude.

(** ** [buffer.rs] *)

(** The memory of a buffer; [None] is an uninitialised slot.  [cap] is the
    length. *)
Record Buffer (T : Type) : Type := mkBuffer { slots : list (option T) }.
Arguments mkBuffer {T} _.
Arguments slots {T} _.

Definition cap {T} (self : Buffer T) : Z := zlen (slots self).

Definition alloc {T} (cap : Z) : Buffer T := mkBuffer (replicate (Z.to_nat cap) None).

(** A range of counters as one or two runs of slots, each a start and a
    length. *)
Definition split_range {T} (self : Buffer T) (from upto : Z)
    : option (Z * Z) * option (Z * Z) :=
  let len := isize_of (upto - from) in
  if len <=? 0 then (None, None)
  else
    let i := Z.land from (cap self - 1) in
    if i + len <=? cap self then (Some (i, len), None)
    else
      let l1 := cap self - i in
      let l2 := len - l1 in
      (Some (i, l1), Some (0, l2)).

Definition at_ {T} (self : Buffer T) (index : Z) : Z := Z.land index (cap self - 1).

(** [read]: a slot outside the allocation is undefined. *)
Definition read {T} (self : Buffer T) (index : Z) : outcome (option T) :=
  match slots self !! Z.to_nat (at_ self index) with
  | Some s => Ret s
  | None => Fault Undefined
  end.

(** [copy_nonoverlapping]; leaving either allocation is undefined. *)
Definition copy_seg {T} (src dst : list (option T)) (src_start dest_start count : Z)
    : outcome (list (option T)) :=
  if (0 <=? src_start) && (0 <=? dest_start) && (0 <=? count)
     && (src_start + count <=? zlen src) && (dest_start + count <=? zlen dst)
  then Ret (take (Z.to_nat dest_start) dst
            ++ take (Z.to_nat count) (drop (Z.to_nat src_start) src)
            ++ drop (Z.to_nat (dest_start + count)) dst)
  else Fault Undefined.

(** ** [mod.rs] and [worker.rs] *)

(** [Inner] and the worker's own cells.  The worker's copy of the buffer
    pointer and the shared one are always the same buffer. *)
Record Deque (T : Type) : Type := mkDeque {
  consumed : Z;
  produced : Z;
  buffer : Buffer T;
  cached_cons : Z }.
Arguments mkDeque {T} _ _ _ _.
Arguments consumed {T} _.
Arguments produced {T} _.
Arguments buffer {T} _.
Arguments cached_cons {T} _.

Definition MIN_CAP : Z := 64.

Definition worker_new {T} : Deque T := mkDeque 0 0 (alloc MIN_CAP) 0.

(** The copy of [resize], by how the two buffers split the live range. *)
Definition resize_copy {T} (old new : Buffer T) (cons prod : Z) : outcome (list (option T)) :=
  match split_range old cons prod, split_range new cons prod with
  | (Some (s1, l1), Some (s2, l2)), (Some (s3, l3), Some (s4, l4)) =>
      if l1 <=? l3 then
        new ← copy_seg (slots old) (slots new) s1 s3 l1;
        let rem := l3 - l1 in
        new ← copy_seg (slots old) new s2 (s3 + l1) rem;
        copy_seg (slots old) new (s2 + rem) s4 (l2 - rem)
      else
        new ← copy_seg (slots old) (slots new) s1 s3 l3;
        let rem := l1 - l3 in
        new ← copy_seg (slots old) new (s1 + l3) s4 rem;
        copy_seg (slots old) new s2 (s4 + rem) l2
  | (Some (s1, l1), Some (s2, l2)), (Some (s3, l3), None) =>
      new ← copy_seg (slots old) (slots new) s1 s3 l1;
      copy_seg (slots old) new s2 (s3 + l1) l2
  | (Some (s1, l1), None), (Some (s3, l3), Some (s4, l4)) =>
      new ← copy_seg (slots old) (slots new) s1 s3 l3;
      copy_seg (slots old) new (s1 + l3) s4 l4
  | (Some (s1, l1), None), (Some (s3, l3), None) =>
      copy_seg (slots old) (slots new) s1 s3 l1
  | _, _ => Ret (slots new)
  end.

Definition resize {T} (self : Deque T) (new_cap : Z) : outcome (Deque T) :=
  new ← resize_copy (buffer self) (alloc new_cap) (consumed self) (produced self);
  Ret (mkDeque (consumed self) (produced self) (mkBuffer new) (cached_cons self)).

(** The batch written at [prod .. end]. *)
Definition push_copy {T} (buffer : Buffer T) (task : list T) (prod upto : Z)
    : outcome (list (option T)) :=
  match split_range buffer prod upto with
  | (Some (s1, l1), Some (s2, l2)) =>
      new ← copy_seg (Some <$> task) (slots buffer) 0 s1 l1;
      copy_seg (Some <$> task) new l1 s2 l2
  | (Some (s1, l1), None) => copy_seg (Some <$> task) (slots buffer) 0 s1 l1
  | _ => Ret (slots buffer)
  end.

(** The part of [push] before the copy: grows the buffer when it is full. *)
Definition make_room {T} (self : Deque T) : outcome (Deque T) :=
  let prod := produced self in
  if cap (buffer self) <=? isize_of (prod - cached_cons self) then
    let cons := consumed self in
    let self := mkDeque (consumed self) (produced self) (buffer self) cons in
    if cap (buffer self) <=? isize_of (prod - cons) then resize self (2 * cap (buffer self))
    else Ret self
  else Ret self.

Definition push {T} (self : Deque T) (task : list T) : outcome (Deque T) :=
  let prod := produced self in
  self ← make_room self;
  let upto := isize_of (prod + zlen task) in
  new ← push_copy (buffer self) task prod upto;
  Ret (mkDeque (consumed self) upto (mkBuffer new) (cached_cons self)).

(** ** [stealer.rs] *)

Inductive Steal (A : Type) : Type :=
  | Empty
  | Retry
  | Success (a : A).
Arguments Empty {A}.
Arguments Retry {A}.
Arguments Success {A} a.

(** The [compare_exchange] succeeds when nobody else has moved [consumed].
    Reading an uninitialised slot with [assume_init] is undefined. *)
Definition steal {T} (self : Deque T) : outcome (Steal T * Deque T) :=
  let f := consumed self in
  let b := produced self in
  let len := Z.max (isize_of (b - f)) 0 in
  if len =? 0 then Ret (Empty, self)
  else
    task ← read (buffer self) f;
    match task with
    | None => Fault Undefined
    | Some task =>
        Ret (Success task,
             mkDeque (isize_of (f + 1)) (produced self) (buffer self) (cached_cons self))
    end.

(** [dest.set_len] after the copies: every element must be initialised. *)
Definition assume_init {T} (l : list (option T)) : outcome (list T) :=
  match mapM id l with Some l => Ret l | None => Fault Undefined end.

(** The copies of [steal_batch] from slot [i] on. *)
Definition batch_copy {T} (buffer : Buffer T) (dest : list (option T)) (i batch_size : Z)
    : outcome (list (option T)) :=
  if cap buffer <? i + batch_size then
    let l1 := cap buffer - i in
    let l2 := batch_size - l1 in
    dest ← copy_seg (slots buffer) dest i 0 l1;
    copy_seg (slots buffer) dest 0 l1 l2
  else copy_seg (slots buffer) dest i 0 batch_size.

Definition steal_batch {T} (self : Deque T) (dest_capacity : Z)
    : outcome (Steal (list T) * Deque T) :=
  let f := consumed self in
  let b := produced self in
  let len := Z.max (isize_of (b - f)) 0 in
  let batch_size := Z.min ((len + 1) / 2) dest_capacity in
  if batch_size =? 0 then Ret (Empty, self)
  else
    let dest := replicate (Z.to_nat dest_capacity) None in
    let i := Z.land f (cap (buffer self) - 1) in
    dest ← batch_copy (buffer self) dest i batch_size;
    tasks ← assume_init (take (Z.to_nat batch_size) dest);
    Ret (Success tasks,
         mkDeque (isize_of (f + batch_size)) (produced self) (buffer self) (cached_cons self)).

(** ** The end: [Drop for Inner]

    Drops the tasks between the counters; the result is what was dropped.
    Dropping a slot that holds nothing is undefined. *)
Fixpoint drop_loop {T} (fuel : nat) (buffer : Buffer T) (current produced : Z) : outcome (list T) :=
  if current =? produced then Ret []
  else
    match fuel with
    | O => Fault OutOfFuel
    | S fuel =>
        slot ← read buffer current;
        match slot with
        | None => Fault Undefined
        | Some t =>
            l ← drop_loop fuel buffer (isize_of (current + 1)) produced;
            Ret (t :: l)
        end
    end.

Definition drop_inner {T} (self : Deque T) : outcome (list T) :=
  drop_loop (Z.to_nat (produced self - consumed self)) (buffer self) (consumed self) (produced self).

(** ** Specification

    The queue as a list: the tasks between the two counters. *)

Record deque_wf {T} (self : Deque T) (tasks : list T) : Prop := {
  wf_cap : exists k, 0 <= k < 60 /\ cap (buffer self) = 2 ^ k;
  wf_counters : 0 <= cached_cons self <= consumed self
                /\ produced self = consumed self + zlen tasks /\ produced self < 2 ^ 58;
  wf_fits : zlen tasks <= cap (buffer self);
  wf_slots i t : tasks !! i = Some t ->
    slots (buffer self) !! Z.to_nat ((consumed self + Z.of_nat i) mod cap (buffer self))
    = Some (Some t) }.

(** Calls on one queue. *)
Inductive deque_op (T : Type) : Type :=
  | DPush (task : list T)
  | DSteal
  | DStealBatch (dest_capacity : Z).
Arguments DPush {T} task.
Arguments DSteal {T}.
Arguments DStealBatch {T} dest_capacity.

(** What a call hands over. *)
Definition stolen {T} (s : Steal (list T)) : list T :=
  match s with Success l => l | _ => [] end.

Definition deque_exec {T} (o : deque_op T) (self : Deque T) : outcome (list T * Deque T) :=
  match o with
  | DPush task => self ← push self task; Ret ([], self)
  | DSteal =>
      '(s, self) ← steal self;
      Ret (match s with Success t => [t] | _ => [] end, self)
  | DStealBatch c => '(s, self) ← steal_batch self c; Ret (stolen s, self)
  end.

(** The same calls on a list. *)
Definition spec_deque_exec {T} (o : deque_op T) (tasks : list T) : list T * list T :=
  match o with
  | DPush task => ([], tasks ++ task)
  | DSteal => (take 1 tasks, drop 1 tasks)
  | DStealBatch c =>
      let n := Z.to_nat (Z.min ((zlen tasks + 1) / 2) c) in (take n tasks, drop n tasks)
  end.

Fixpoint deque_run {T} (os : list (deque_op T)) (self : Deque T)
    : outcome (list (list T) * Deque T) :=
  match os with
  | [] => Ret ([], self)
  | o :: os =>
      '(a, self) ← deque_exec o self;
      '(l, self) ← deque_run os self;
      Ret (a :: l, self)
  end.

Fixpoint spec_deque_run {T} (os : list (deque_op T)) (tasks : list T)
    : list (list T) * list T :=
  match os with
  | [] => ([], tasks)
  | o :: os =>
      let '(a, tasks) := spec_deque_exec o tasks in
      let '(l, tasks) := spec_deque_run os tasks in (a :: l, tasks)
  end.

(** The number of tasks pushed. *)
Definition pushed {T} (os : list (deque_op T)) : Z :=
  zlen (os ≫= (fun o => match o with DPush task => task | _ => [] end)).

(** There is room for [n] more once the buffer has grown if it was full. *)
Definition has_room {T} (self : Deque T) (n : Z) : Prop :=
  let used := produced self - cached_cons self in
  if cap (buffer self) <=? used then
    let live := produced self - consumed self in
    if cap (buffer self) <=? live then live + n <= 2 * cap (buffer self)
    else live + n <= cap (buffer self)
  else produced self - consumed self + n <= cap (buffer self).

(** ** Lemmas *)

Lemma isize_small z : - 2 ^ 63 <= z < 2 ^ 63 -> isize_of z = z.
Proof.
  intros Hz. unfold isize_of, swrap. rewrite wrap_small; unfold in_width; simpl Z.sub in *; lia.
Qed.

Lemma land_mod c k : 0 <= k -> Z.land c (2 ^ k - 1) = c mod 2 ^ k.
Proof. intros Hk. rewrite <- Z.land_ones, Z.ones_equiv by lia. f_equal. Qed.

(** Stepping [d] slots from the slot of [c], around the end if need be. *)
Lemma mod_shift c d n :
  0 < n -> - n <= c mod n + d < 2 * n ->
  (c + d) mod n = (let x := c mod n + d in
                   if x <? 0 then x + n else if x <? n then x else x - n).
Proof.
  intros Hn Hd. cbv zeta. rewrite <- Zplus_mod_idemp_l. set (x := c mod n + d) in *.
  repeat case_cmp_step.
  - rewrite <- (Z.mod_small (x + n) n) by lia. 
    replace (x + n) with (x + 1 * n) by lia. by rewrite Z.mod_add by lia.
  - apply Z.mod_small. lia.
  - rewrite <- (Z.mod_small (x - n) n) by lia. 
    replace (x - n) with (x + (-1) * n) by lia. by rewrite Z.mod_add by lia.
Qed.

Lemma copy_seg_ok {T} (src dst : list (option T)) s d n :
  0 <= s -> 0 <= d -> 0 <= n -> s + n <= zlen src -> d + n <= zlen dst ->
  exists dst', copy_seg src dst s d n = Ret dst' /\ length dst' = length dst
    /\ forall k, 0 <= k -> dst' !! Z.to_nat k
         = if (d <=? k) && (k <? d + n) then src !! Z.to_nat (s + (k - d)) else dst !! Z.to_nat k.
Proof.
  intros Hs Hd Hn Hsn Hdn. unfold copy_seg. rewrite !(proj2 (Z.leb_le _ _)) by lia. simpl.
  eexists. split; [done|]. split.
  { rewrite !length_app, !length_take, !length_drop. lia. }
  intros k Hk. destruct (Z.leb_spec d k); simpl; [|rewrite lookup_app_l, lookup_take_lt by
    (rewrite ?length_take; lia); done].
  rewrite lookup_app_r; rewrite length_take; [|lia].
  destruct (Z.ltb_spec k (d + n)).
  - rewrite lookup_app_l, lookup_take_lt, lookup_drop
      by (rewrite ?length_take, ?length_drop; lia). f_equal. lia.
  - rewrite lookup_app_r; rewrite length_take, length_drop; [|lia]. rewrite lookup_drop. f_equal. lia.
Qed.

(** How a range of counters lies in a buffer. *)
Lemma split_range_spec {T} (b : Buffer T) k from upto :
  0 <= k < 60 -> cap b = 2 ^ k -> 0 <= from <= upto -> upto < 2 ^ 62 ->
  split_range b from upto =
    if upto - from =? 0 then (None, None)
    else if from mod cap b + (upto - from) <=? cap b then (Some (from mod cap b, upto - from), None)
    else (Some (from mod cap b, cap b - from mod cap b),
          Some (0, upto - from - (cap b - from mod cap b))).
Proof.
  intros Hk Hc Hf Hu. unfold split_range. rewrite isize_small, Hc, land_mod by lia.
  repeat case_cmp_step; done || lia.
Qed.

Lemma cap_pos {T} (b : Buffer T) k : 0 <= k < 60 -> cap b = 2 ^ k -> 0 < cap b < 2 ^ 60.
Proof.
  intros Hk ->. split; [apply Z.pow_pos_nonneg; lia|]. apply Z.pow_lt_mono_r; lia.
Qed.

(** Uses a copy: states its bounds, names its result. *)
Ltac run_copy dst' Hl Hk :=
  match goal with
  | |- context [copy_seg ?src ?dst ?s ?d ?n] =>
      let He := fresh in
      destruct (copy_seg_ok src dst s d n) as (dst' & He & Hl & Hk);
      [try lia..|rewrite He; clear He; cbn [mbind outcome_bind]]
  end.

(** The batch lands at [prod ..] and leaves the [cap - n] slots before it. *)
Lemma push_copy_ok {T} (b : Buffer T) k (task : list T) prod :
  0 <= k < 60 -> cap b = 2 ^ k -> 0 <= prod -> prod + zlen task < 2 ^ 62 -> zlen task <= cap b ->
  exists new, push_copy b task prod (prod + zlen task) = Ret new
    /\ length new = length (slots b)
    /\ (forall i, (i < length task)%nat ->
          new !! Z.to_nat ((prod + Z.of_nat i) mod cap b) = Some <$> task !! i)
    /\ (forall m, 1 <= m <= cap b - zlen task ->
          new !! Z.to_nat ((prod - m) mod cap b) = slots b !! Z.to_nat ((prod - m) mod cap b)).
Proof.
  intros Hk Hc Hp Hb Hn. pose proof (cap_pos b k Hk Hc) as Hcap. unfold push_copy.
  rewrite (split_range_spec b k) by lia.
  replace (prod + zlen task - prod) with (zlen task) by lia.
  pose proof (Z.mod_pos_bound prod (cap b)) as Hi0.
  pose proof (fun d => mod_shift prod d (cap b)) as Hmod. set (i0 := prod mod cap b) in *.
  assert (Hcl : cap b = zlen (slots b)) by done.
  assert (Hlt : length (Some <$> task) = length task) by apply length_fmap.
  destruct (Z.eqb_spec (zlen task) 0) as [Hz|Hz].
  { eexists. split_and!; [done..| |done]. intros i Hi. lia. }
  destruct (Z.leb_spec (i0 + zlen task) (cap b)).
  - run_copy new Hl Hlk. exists new. split_and!; [done..| |].
    + intros i Hi. rewrite Hmod by lia. cbv zeta. rewrite Hlk by (repeat case_cmp_step; lia).
      repeat case_cmp_step; simpl; try lia. rewrite list_lookup_fmap. f_equal. f_equal. lia.
    + intros m Hm. replace (prod - m) with (prod + - m) by lia. rewrite Hmod by lia. cbv zeta.
      rewrite Hlk by (repeat case_cmp_step; lia). repeat case_cmp_step; simpl; done || lia.
  - run_copy new1 Hl1 Hlk1. run_copy new Hl Hlk.
    exists new. split_and!; [done|congruence| |].
    + intros i Hi. rewrite Hmod by lia. cbv zeta. rewrite Hlk by (repeat case_cmp_step; lia).
      rewrite Hlk1 by (repeat case_cmp_step; lia).
      repeat case_cmp_step; simpl; try lia; rewrite list_lookup_fmap; f_equal; f_equal; lia.
    + intros m Hm. replace (prod - m) with (prod + - m) by lia. rewrite Hmod by lia. cbv zeta.
      rewrite Hlk by (repeat case_cmp_step; lia). rewrite Hlk1 by (repeat case_cmp_step; lia).
      repeat case_cmp_step; simpl; done || lia.
Qed.

Lemma cap_alloc {T} c : 0 <= c -> cap (@alloc T c) = c.
Proof. intros Hc. unfold cap, alloc. simpl. rewrite length_replicate. lia. Qed.

(** A slot of a buffer is the same slot of one twice as large, or the slot as
    far into its second half. *)
Lemma mod_double c n :
  0 < n -> c mod (2 * n) = c mod n \/ c mod (2 * n) = c mod n + n.
Proof.
  intros Hn. rewrite Z.mul_comm, Z.rem_mul_r by lia.
  pose proof (Z.mod_pos_bound (c / n) 2). assert ((c / n) mod 2 = 0 \/ (c / n) mod 2 = 1) as [-> | ->]
    by lia; lia.
Qed.

Lemma resize_copy_ok {T} (old : Buffer T) k cons prod :
  0 <= k < 59 -> cap old = 2 ^ k -> 0 <= cons <= prod -> prod < 2 ^ 62 -> prod - cons <= cap old ->
  exists new, resize_copy old (alloc (2 * cap old)) cons prod = Ret new
    /\ zlen new = 2 * cap old
    /\ forall j, 0 <= j < prod - cons ->
         new !! Z.to_nat ((cons + j) mod (2 * cap old))
         = slots old !! Z.to_nat ((cons + j) mod cap old).
Proof.
  intros Hk Hc Hp Hb Hn. pose proof (cap_pos old k ltac:(lia) Hc) as Hcap. unfold resize_copy.
  pose proof (@cap_alloc T (2 * cap old) ltac:(lia)) as Hca.
  assert (Hcn : cap (@alloc T (2 * cap old)) = 2 ^ (k + 1)).
  { rewrite Hca, Hc, Z.pow_add_r by lia. lia. }
  rewrite (split_range_spec old k), (split_range_spec (alloc (2 * cap old)) (k + 1)) by lia.
  rewrite Hca. pose proof (Z.mod_pos_bound cons (cap old)) as Hi0.
  pose proof (fun d => mod_shift cons d (cap old)) as Hmod.
  pose proof (fun d => mod_shift cons d (2 * cap old)) as Hmod2.
  pose proof (mod_double cons (cap old) ltac:(lia)) as Hdbl.
  set (i0 := cons mod cap old) in *. set (i1 := cons mod (2 * cap old)) in *.
  assert (Hcl : cap old = zlen (slots old)) by done.
  assert (Hal : 2 * cap old = zlen (slots (@alloc T (2 * cap old)))) by (rewrite <- Hca at 1; done).
  destruct (Z.eqb_spec (prod - cons) 0) as [Hz|Hz].
  { eexists. split_and!; [done..|]. intros j Hj. lia. }
  destruct (Z.leb_spec (i0 + (prod - cons)) (cap old)) as [H1|H1],
    (Z.leb_spec (i1 + (prod - cons)) (2 * cap old)) as [H2|H2]; try lia.
  - run_copy new Hl Hlk. exists new. split_and!; [done|lia|]. intros j Hj.
    rewrite Hmod, Hmod2 by lia. cbv zeta. rewrite Hlk by (repeat case_cmp_step; lia).
    repeat case_cmp_step; simpl; try lia; f_equal; lia.
  - run_copy new1 Hl1 Hlk1. run_copy new Hl Hlk. exists new. split_and!; [done|lia|]. intros j Hj.
    rewrite Hmod, Hmod2 by lia. cbv zeta. rewrite Hlk by (repeat case_cmp_step; lia).
    rewrite Hlk1 by (repeat case_cmp_step; lia).
    repeat case_cmp_step; simpl; try lia; f_equal; lia.
  - rewrite (proj2 (Z.leb_le (cap old - i0) _)) by lia.
    run_copy new1 Hl1 Hlk1. run_copy new2 Hl2 Hlk2. run_copy new Hl Hlk.
    exists new. split_and!; [done|lia|]. intros j Hj.
    rewrite Hmod, Hmod2 by lia. cbv zeta. rewrite Hlk by (repeat case_cmp_step; lia).
    rewrite Hlk2 by (repeat case_cmp_step; lia). rewrite Hlk1 by (repeat case_cmp_step; lia).
    repeat case_cmp_step; simpl; try lia; f_equal; lia.
Qed.

Section wf.
Context {T : Type}.
Implicit Types (d : Deque T) (tasks task : list T).

Lemma worker_new_wf : deque_wf (@worker_new T) [].
Proof. constructor; simpl; [by exists 6|lia|unfold cap; simpl; lia|done]. Qed.

(** Growing keeps the contents. *)
Lemma resize_wf d tasks :
  deque_wf d tasks -> cap (buffer d) <= zlen tasks ->
  exists d', resize d (2 * cap (buffer d)) = Ret d' /\ deque_wf d' tasks
    /\ consumed d' = consumed d /\ produced d' = produced d
    /\ cap (buffer d') = 2 * cap (buffer d).
Proof.
  intros [(k & Hk & Hc) Hn Hf Hs] Hfull. unfold resize.
  assert (k < 58) by (apply (Z.pow_lt_mono_r_iff 2); lia).
  destruct (resize_copy_ok (buffer d) k (consumed d) (produced d)) as (new & -> & Hl & Hcopy); [lia..|].
  cbn [mbind outcome_bind]. assert (Hcap : cap (mkBuffer new) = 2 * cap (buffer d)) by done.
  eexists. split; [done|]. split_and!; try done. constructor; simpl; try lia.
  - exists (k + 1). rewrite Hcap, Hc, Z.pow_add_r by lia. lia.
  - intros i t Hi. rewrite Hcap, Hcopy by (apply lookup_lt_Some in Hi; lia). by apply Hs.
Qed.

Lemma make_room_wf d tasks n :
  deque_wf d tasks -> has_room d n ->
  exists d', make_room d = Ret d' /\ deque_wf d' tasks
    /\ consumed d' = consumed d /\ produced d' = produced d
    /\ zlen tasks + n <= cap (buffer d').
Proof.
  intros Hwf Hroom. pose proof Hwf as [(k & Hk & Hc) Hn Hf Hs]. unfold make_room.
  unfold has_room in Hroom. cbv zeta in *. rewrite isize_small by lia.
  destruct (Z.leb_spec (cap (buffer d)) (produced d - cached_cons d)) as [Hfull|];
    [|exists d; split_and!; done || lia].
  cbn [consumed produced buffer]. rewrite isize_small by lia.
  set (d1 := mkDeque (consumed d) (produced d) (buffer d) (consumed d)).
  assert (Hwf1 : deque_wf d1 tasks).
  { constructor; simpl; try done; [by exists k|lia]. }
  destruct (Z.leb_spec (cap (buffer d)) (produced d - consumed d)) as [Hlive|].
  - destruct (resize_wf d1 tasks Hwf1) as (d' & Hr & Hw & Hcs & Hpr & Hcp); [simpl; lia|].
    exists d'. simpl in *. split_and!; done || lia.
  - exists d1. split_and!; done || (simpl; lia).
Qed.

Lemma push_wf d tasks task :
  deque_wf d tasks -> has_room d (zlen task) -> produced d + zlen task < 2 ^ 58 ->
  exists d', push d task = Ret d' /\ deque_wf d' (tasks ++ task)
    /\ produced d' = produced d + zlen task.
Proof.
  intros Hwf Hroom Hb. unfold push.
  destruct (make_room_wf d tasks _ Hwf Hroom) as (d1 & -> & Hwf1 & Hcs & Hpr & Hfit).
  cbn [mbind outcome_bind]. destruct Hwf1 as [(k & Hk & Hc) Hn Hf Hs].
  rewrite isize_small by lia. rewrite <- Hpr.
  destruct (push_copy_ok (buffer d1) k task (produced d1)) as (new & -> & Hl & Hnew & Hold); [lia..|].
  cbn [mbind outcome_bind]. eexists. split; [done|]. split; [|done].
  assert (Hcap : cap (mkBuffer new) = cap (buffer d1)) by (unfold cap; simpl; lia).
  constructor; simpl; rewrite ?length_app, ?Hcap; try lia; [by exists k|].
  intros i t [Hi|[Hge Hi]]%lookup_app_Some.
  - apply lookup_lt_Some in Hi as Hlt. rewrite <- (Hs i t Hi).
    replace (consumed d1 + Z.of_nat i) with (produced d1 - (zlen tasks - Z.of_nat i)) by lia.
    apply Hold. lia.
  - apply lookup_lt_Some in Hi as Hlt.
    replace (consumed d1 + Z.of_nat i) with (produced d1 + Z.of_nat (i - length tasks)) by lia.
    by rewrite Hnew, Hi by lia.
Qed.

Lemma steal_wf d tasks :
  deque_wf d tasks ->
  exists s d', steal d = Ret (s, d') /\ s = match tasks with [] => Empty | t :: _ => Success t end
    /\ deque_wf d' (drop 1 tasks) /\ produced d' = produced d.
Proof.
  intros Hwf. pose proof Hwf as [(k & Hk & Hc) Hn Hf Hs]. unfold steal.
  rewrite isize_small by lia. replace (Z.max (produced d - consumed d) 0) with (zlen tasks) by lia.
  destruct tasks as [|t tasks]; [by eauto 6|]. rewrite (proj2 (Z.eqb_neq _ 0)) by (simpl; lia).
  unfold read, at_. rewrite Hc, land_mod, <- Hc by lia.
  pose proof (Hs 0%nat t eq_refl) as H0. rewrite Z.add_0_r in H0. rewrite H0.
  cbn [mbind outcome_bind]. rewrite isize_small by (simpl in Hn; lia).
  eexists _, _. split_and!; [done..| |done]. simpl in *.
  rewrite drop_0. constructor; simpl; try lia; [by exists k|]. intros i t' Hi.
  rewrite <- (Hs (S i) t' Hi). do 3 f_equal. lia.
Qed.

Lemma assume_init_fmap tasks : assume_init (Some <$> tasks) = Ret tasks.
Proof.
  unfold assume_init. replace (mapM id (Some <$> tasks)) with (Some tasks); [done|].
  symmetry. apply mapM_Some_2, Forall2_fmap_l, Forall_Forall2_diag, Forall_true. done.
Qed.

(** The copies of [steal_batch] read the first tasks. *)
Lemma steal_copy d tasks n (dest : list (option T)) :
  deque_wf d tasks -> 0 < n <= zlen tasks -> n <= zlen dest ->
  exists dest', batch_copy (buffer d) dest (consumed d mod cap (buffer d)) n = Ret dest'
    /\ take (Z.to_nat n) dest' = Some <$> take (Z.to_nat n) tasks.
Proof.
  intros [(k & Hk & Hc) Hn Hf Hs] Hnt Hd. pose proof (cap_pos _ k Hk Hc) as Hcap.
  pose proof (Z.mod_pos_bound (consumed d) (cap (buffer d))) as Hi0.
  pose proof (fun x => mod_shift (consumed d) x (cap (buffer d))) as Hmod.
  set (c := cap (buffer d)) in *. set (i0 := consumed d mod c) in *.
  assert (Hcl : c = zlen (slots (buffer d))) by done.
  enough (exists dest', batch_copy (buffer d) dest i0 n = Ret dest'
    /\ forall i, 0 <= i < n -> dest' !! Z.to_nat i
         = slots (buffer d) !! Z.to_nat ((consumed d + i) mod c)) as (dest' & He & Hlk).
  { exists dest'. split; [exact He|]. apply list_eq. intros i.
    destruct (decide (i < Z.to_nat n)%nat) as [Hi|Hi].
    - rewrite list_lookup_fmap, !lookup_take_lt by done.
      destruct (tasks !! i) as [t|] eqn:Ht; [|apply lookup_ge_None in Ht; lia].
      rewrite <- (Nat2Z.id i) at 1. rewrite Hlk by lia. by apply Hs.
    - rewrite list_lookup_fmap, !lookup_take_ge by lia. done. }
  unfold batch_copy. fold c. destruct (Z.ltb_spec c (i0 + n)).
  - run_copy dest1 Hl1 Hlk1. run_copy dest2 Hl2 Hlk2. exists dest2. split; [done|].
    intros i Hi. rewrite Hmod, Hlk2, Hlk1 by lia. cbv zeta.
    repeat case_cmp_step; simpl; try lia; f_equal; lia.
  - run_copy dest1 Hl1 Hlk1. exists dest1. split; [done|].
    intros i Hi. rewrite Hmod, Hlk1 by lia. cbv zeta.
    repeat case_cmp_step; simpl; try lia; f_equal; lia.
Qed.

Lemma steal_batch_wf d tasks c :
  deque_wf d tasks -> 0 <= c < 2 ^ 58 ->
  let n := Z.to_nat (Z.min ((zlen tasks + 1) / 2) c) in
  exists s d', steal_batch d c = Ret (s, d') /\ stolen s = take n tasks
    /\ deque_wf d' (drop n tasks) /\ produced d' = produced d.
Proof.
  intros Hwf Hcp n. pose proof Hwf as [(k & Hk & Hc) Hn Hf Hs]. unfold steal_batch.
  rewrite isize_small by lia. replace (Z.max (produced d - consumed d) 0) with (zlen tasks) by lia.
  set (m := Z.min ((zlen tasks + 1) / 2) c) in *.
  assert (Hm : 0 <= m <= zlen tasks /\ m <= c).
  { pose proof (Z.div_mod (zlen tasks + 1) 2). pose proof (Z.mod_pos_bound (zlen tasks + 1) 2). lia. }
  destruct (Z.eqb_spec m 0) as [Hz|Hz].
  { exists Empty, d. unfold n. rewrite Hz. done. }
  cbv zeta. replace (Z.land (consumed d) (cap (buffer d) - 1))
    with (consumed d mod cap (buffer d)) by (by rewrite Hc, land_mod by lia).
  destruct (steal_copy d tasks m (replicate (Z.to_nat c) None)) as (dest & -> & Ht);
    [done|lia|rewrite length_replicate; lia|].
  cbn [mbind outcome_bind]. rewrite Ht, assume_init_fmap. cbn [mbind outcome_bind].
  eexists _, _. split_and!; [done..| |done]. rewrite isize_small by lia.
  constructor; simpl; rewrite ?length_drop; try lia; [by exists k|].
  intros i t Hi. rewrite lookup_drop in Hi. rewrite <- (Hs _ _ Hi). unfold n. do 3 f_equal. lia.
Qed.

(** The end drops what is still queued, and stays in the buffer. *)
Lemma drop_inner_all tasks : forall d, deque_wf d tasks -> drop_inner d = Ret tasks.
Proof.
  unfold drop_inner. induction tasks as [|t tasks IH]; intros d Hwf.
  - pose proof (wf_counters _ _ Hwf) as Hn. simpl in Hn. replace (produced d) with (consumed d) by lia.
    rewrite Z.sub_diag. simpl. by rewrite Z.eqb_refl.
  - destruct (steal_wf d (t :: tasks) Hwf) as (r & d' & Hs & -> & Hwf' & Hp).
    pose proof (wf_counters _ _ Hwf) as Hn. simpl in Hn.
    unfold steal in Hs. rewrite isize_small, (proj2 (Z.eqb_neq _ 0)) in Hs by lia.
    replace (Z.to_nat (produced d - consumed d)) with (S (length tasks)) by lia. simpl.
    rewrite (proj2 (Z.eqb_neq _ _)) by lia. destruct (read _ _) as [[t'|]|]; simpl in Hs; try done.
    injection Hs as <- <-. simpl. specialize (IH _ Hwf'). simpl in IH.
    rewrite isize_small in IH |- * by lia. 
    replace (Z.to_nat (produced d - (consumed d + 1))) with (length tasks) in IH by lia. by rewrite IH.
Qed.

End wf.

(** Every push of a run meets a queue with room for its batch. *)
Fixpoint rooms {T} (os : list (deque_op T)) (d : Deque T) : Prop :=
  match os with
  | [] => True
  | o :: os =>
      match o with DPush task => has_room d (zlen task) | _ => True end
      /\ match deque_exec o d with Ret (_, d) => rooms os d | Fault _ => True end
  end.

Definition op_ok {T} (o : deque_op T) : Prop :=
  match o with DStealBatch c => 0 <= c < 2 ^ 58 | _ => True end.

Section runs.
Context {T : Type}.
Implicit Types (d : Deque T) (tasks task : list T).

(** A batch of at most one task always finds room. *)
Lemma single_room d tasks task : deque_wf d tasks -> zlen task <= 1 -> has_room d (zlen task).
Proof.
  intros [(k & Hk & Hc) Hn Hf _] Ht. pose proof (cap_pos _ k Hk Hc).
  unfold has_room. cbv zeta. repeat case_cmp_step; lia.
Qed.

Lemma deque_exec_ok o d tasks :
  deque_wf d tasks -> op_ok o -> produced d + pushed [o] < 2 ^ 58 ->
  match o with DPush task => has_room d (zlen task) | _ => True end ->
  exists d', deque_exec o d = Ret ((spec_deque_exec o tasks).1, d')
    /\ deque_wf d' (spec_deque_exec o tasks).2 /\ produced d' = produced d + pushed [o].
Proof.
  intros Hwf Hok Hb Hroom. unfold pushed in *.
  destruct o as [task| |c]; cbn [deque_exec spec_deque_exec mbind list_bind] in *.
  - rewrite app_nil_r in *. destruct (push_wf d tasks task Hwf Hroom Hb) as (d' & -> & Hw & Hp).
    by exists d'.
  - destruct (steal_wf d tasks Hwf) as (s & d' & -> & -> & Hw & Hp). exists d'.
    rewrite Hp, Z.add_0_r. split_and!; [|done..]. by destruct tasks.
  - destruct (steal_batch_wf d tasks c Hwf Hok) as (s & d' & -> & Hs & Hw & Hp). exists d'.
    rewrite Hp, Z.add_0_r, <- Hs. done.
Qed.

Lemma pushed_cons (o : deque_op T) os : pushed (o :: os) = pushed [o] + pushed os.
Proof. unfold pushed. rewrite !bind_cons, length_app. simpl. rewrite app_nil_r. lia. Qed.

Lemma deque_run_ok os : forall d tasks,
  deque_wf d tasks -> Forall op_ok os -> produced d + pushed os < 2 ^ 58 -> rooms os d ->
  exists d', deque_run os d = Ret ((spec_deque_run os tasks).1, d')
    /\ deque_wf d' (spec_deque_run os tasks).2.
Proof.
  induction os as [|o os IH]; intros d tasks Hwf Hok Hb Hroom; [by exists d|].
  apply Forall_cons in Hok as [Ho Hok]. destruct Hroom as [Hr Hroom].
  rewrite pushed_cons in Hb. assert (0 <= pushed os) by (unfold pushed; lia).
  destruct (deque_exec_ok o d tasks) as (d1 & He & Hw & Hp); [done..|lia|done|].
  rewrite He in Hroom. cbn [deque_run spec_deque_run]. rewrite He.
  destruct (spec_deque_exec o tasks) as [a tasks1]. cbn [mbind outcome_bind fst snd] in *.
  destruct (IH d1 tasks1) as (d' & -> & Hw'); [done|done|lia|done|].
  destruct (spec_deque_run os tasks1) as [l tasks']. by exists d'.
Qed.

Lemma single_rooms os : forall d tasks,
  deque_wf d tasks -> Forall op_ok os -> produced d + pushed os < 2 ^ 58 ->
  Forall (fun o => match o with DPush task => zlen task <= 1 | _ => True end) os -> rooms os d.
Proof.
  induction os as [|o os IH]; intros d tasks Hwf Hok Hb Hs; [done|].
  apply Forall_cons in Hok as [Ho Hok]. apply Forall_cons in Hs as [Hso Hs].
  rewrite pushed_cons in Hb. assert (0 <= pushed os) by (unfold pushed; lia).
  assert (Hr : match o with DPush task => has_room d (zlen task) | _ => True end).
  { destruct o; [by eapply single_room|done..]. }
  split; [done|]. destruct (deque_exec_ok o d tasks) as (d1 & -> & Hw & Hp); [done..|lia|done|].
  eapply IH; [done..|lia|done].
Qed.

End runs.

(** ** Properties *)

(** C17: as long as every batch pushed fits, the ring with its wrapped
    counters, its segments and its growth behaves as a list: no access leaves
    a buffer or reads an uninitialised slot, stealers receive the tasks in the
    order pushed, none lost and none twice, and a batch takes half of what is
    there, rounded up, as far as the destination holds it.  At the end exactly
    the tasks still queued are dropped. *)
Theorem deque_fifo {T} (os : list (deque_op T)) :
  Forall op_ok os -> pushed os < 2 ^ 58 -> rooms os worker_new ->
  exists d, deque_run os worker_new = Ret ((spec_deque_run os []).1, d)
    /\ deque_wf d (spec_deque_run os []).2 /\ drop_inner d = Ret (spec_deque_run os []).2.
Proof.
  intros Hok Hb Hr. destruct (deque_run_ok os worker_new []) as (d & Hd & Hw); [apply worker_new_wf|done..|].
  exists d. split_and!; [done..|by apply drop_inner_all].
Qed.

(** Tasks pushed one at a time always fit: the buffer doubles when it is
    full and keeps its contents, so a queue fed one task per push is a FIFO
    queue of any length. *)
Theorem deque_fifo_single {T} (os : list (deque_op T)) :
  Forall op_ok os -> pushed os < 2 ^ 58 ->
  Forall (fun o => match o with DPush task => zlen task <= 1 | _ => True end) os ->
  exists d, deque_run os worker_new = Ret ((spec_deque_run os []).1, d)
    /\ deque_wf d (spec_deque_run os []).2.
Proof.
  intros Hok Hb Hs. apply deque_run_ok; [apply worker_new_wf|done..|].
  eapply single_rooms; [apply worker_new_wf|done..].
Qed.

(** *** Witnesses *)

Lemma deque_fifo_witness :
  exists d, deque_run [DPush [1; 2; 3]; DStealBatch 8; DPush [4; 5]; DSteal; DSteal] worker_new
      = Ret ([[]; [1; 2]; []; [3]; [4]], d)
    /\ deque_wf d [5] /\ drop_inner d = Ret [5].
Proof.
  apply (deque_fifo [DPush [1; 2; 3]; DStealBatch 8; DPush [4; 5]; DSteal; DSteal]).
  - repeat constructor; vm_compute; congruence.
  - vm_compute. reflexivity.
  - vm_compute. intuition congruence.
Defined.

Lemma deque_fifo_single_witness :
  exists d, deque_run (((fun i => DPush [i]) <$> seqZ 0 100) ++ [DStealBatch 3]) worker_new
      = Ret (replicate 100 [] ++ [[0; 1; 2]], d)
    /\ deque_wf d (seqZ 3 97).
Proof.
  destruct (deque_fifo_single (((fun i => DPush [i]) <$> seqZ 0 100) ++ [DStealBatch 3]))
    as (d & Hr & Hw).
  - apply Forall_app. split; [apply Forall_fmap, Forall_true; done|]. repeat constructor; simpl; lia.
  - vm_compute. reflexivity.
  - apply Forall_app. split; [apply Forall_fmap, Forall_true; simpl; lia|]. by repeat constructor.
  - exists d. rewrite Hr. split; [vm_compute; reflexivity|].
    replace (seqZ 3 97) with
      (spec_deque_run (((fun i => DPush [i]) <$> seqZ 0 100) ++ [DStealBatch 3]) []).2
      by (vm_compute; reflexivity). exact Hw.
Defined.

(** The check of [push] does not count the batch: with 63 of 64 slots used, a
    batch of 16 overwrites the 15 oldest tasks, and the first task stolen is
    one pushed after them. *)
Example push_overwrites :
  (pr ← deque_run [DPush (seqZ 0 63); DPush (seqZ 63 16); DSteal] worker_new; Ret pr.1)
  = Ret [[]; []; [64]].
Proof. vm_compute. reflexivity. Qed.

(** A batch longer than the buffer is written past its end. *)
Example push_out_of_bounds : push worker_new (seqZ 0 129) = Fault Undefined.
Proof. vm_compute. reflexivity. Qed.
