(* ===== verification/Stealing.v ===== *)
(** * The queue under contention: [controller/deque/]

    One worker pushes batches while any number of stealers take from the
    front.  Calls overlap: every access to the shared counters, to the shared
    buffer pointer and to a slot is a step of its own, and the steps of all
    threads interleave in any order (as sequentially consistent memory does).
    Buffers that were replaced stay readable: the threads pin the epoch for
    the whole session, so that none is reclaimed while one of them runs. *)

From S2P Require Import Prelude Deque.

Section stealing.
Context {T : Type}.

(** ** The threads *)

(** Where the worker is in [push]: about to load [consumed], about to copy the
    tasks to a larger buffer, about to swap that in, writing the batch, of
    which [k] tasks are written. *)
Inductive wpc : Type :=
  | WIdle
  | WLoad (task : list T)
  | WGrow (task : list T)
  | WSwap (task : list T) (new : Buffer T)
  | WWrite (task : list T) (k : nat).

(** Where a stealer is: [want] is the capacity of the destination, or [None]
    for [steal]; [f] is the value of [consumed] it started from, [n] the number
    of tasks it goes for, [b] the buffer it reads, [got] what it has read. *)
Inductive spc : Type :=
  | SIdle
  | SFront (want : option Z) (f : Z)
  | SLen (f n : Z)
  | SRead (f n : Z) (b : nat) (got : list (option T))
  | SCas (f n : Z) (got : list (option T))
  | SDone (r : Steal (list T)).

(** The shared cells and the threads.  [bufs] are all buffers so far, [cur]
    the one in use.  [log] is the history of the tasks pushed, those of the batch
    being written included. *)
Record cdeque : Type := mkCDeque {
  c_consumed : Z;
  c_produced : Z;
  c_cached : Z;
  bufs : list (Buffer T);
  cur : nat;
  worker : wpc;
  stealers : list spc;
  log : list T }.

Definition with_worker (s : cdeque) (w : wpc) : cdeque :=
  mkCDeque (c_consumed s) (c_produced s) (c_cached s) (bufs s) (cur s) w (stealers s) (log s).
Definition with_stealer (s : cdeque) (i : nat) (p : spc) : cdeque :=
  mkCDeque (c_consumed s) (c_produced s) (c_cached s) (bufs s) (cur s) (worker s) (<[i := p]> (stealers s))
    (log s).

(** A buffer that was never allocated is undefined. *)
Definition buf (s : cdeque) (b : nat) : outcome (Buffer T) :=
  match bufs s !! b with Some x => Ret x | None => Fault Undefined end.

Definition begin_write (s : cdeque) (task : list T) : cdeque :=
  mkCDeque (c_consumed s) (c_produced s) (c_cached s) (bufs s) (cur s) (WWrite task 0) (stealers s)
    (log s ++ task).

(** [push] begins: the own counter and the cached one are compared. *)
Definition push_start (s : cdeque) (task : list T) : outcome cdeque :=
  b ← buf s (cur s);
  if cap b <=? isize_of (c_produced s - c_cached s) then Ret (with_worker s (WLoad task))
  else Ret (begin_write s task).

(** The next step of [push].  The copy of the batch stores one task at a time;
    a batch that fits ([room]) meets each slot once, as its one or two runs of
    slots do. *)
Definition push_step (s : cdeque) : outcome cdeque :=
  b ← buf s (cur s);
  match worker s with
  | WIdle => Ret s
  | WLoad task =>
      let s := mkCDeque (c_consumed s) (c_produced s) (c_consumed s) (bufs s) (cur s) (worker s) (stealers s)
                 (log s) in
      if cap b <=? isize_of (c_produced s - c_cached s) then Ret (with_worker s (WGrow task))
      else Ret (begin_write s task)
  | WGrow task =>
      new ← resize_copy b (alloc (2 * cap b)) (c_consumed s) (c_produced s);
      Ret (with_worker s (WSwap task (mkBuffer new)))
  | WSwap task new =>
      Ret (begin_write (mkCDeque (c_consumed s) (c_produced s) (c_cached s) (bufs s ++ [new]) (length (bufs s))
                          (worker s) (stealers s) (log s)) task)
  | WWrite task k =>
      match task !! k with
      | Some t =>
          let b := mkBuffer (<[Z.to_nat (at_ b (isize_of (c_produced s + Z.of_nat k))) := Some t]> (slots b)) in
          Ret (mkCDeque (c_consumed s) (c_produced s) (c_cached s) (<[cur s := b]> (bufs s)) (cur s)
                 (WWrite task (S k)) (stealers s) (log s))
      | None =>
          Ret (mkCDeque (c_consumed s) (isize_of (c_produced s + zlen task)) (c_cached s) (bufs s) (cur s) WIdle
                 (stealers s) (log s))
      end
  end.

(** How many tasks a stealer goes for. *)
Definition steal_size (want : option Z) (len : Z) : Z :=
  match want with
  | None => Z.min len 1
  | Some capacity => Z.min ((len + 1) / 2) capacity
  end.

(** The next step of stealer [i]; an idle one starts a call, [steal] or
    [steal_batch].  The buffer is loaded, read task by task, loaded again and
    compared; the exchange decides whether what was read counts. *)
Definition steal_step (i : nat) (want : option Z) (s : cdeque) : outcome cdeque :=
  match stealers s !! i with
  | None => Ret s
  | Some SIdle => Ret (with_stealer s i (SFront want (c_consumed s)))
  | Some (SFront want f) =>
      let n := steal_size want (Z.max (isize_of (c_produced s - f)) 0) in
      if n =? 0 then Ret (with_stealer s i (SDone Empty)) else Ret (with_stealer s i (SLen f n))
  | Some (SLen f n) => Ret (with_stealer s i (SRead f n (cur s) []))
  | Some (SRead f n b got) =>
      if zlen got <? n then
        x ← buf s b;
        t ← read x (isize_of (f + zlen got));
        Ret (with_stealer s i (SRead f n b (got ++ [t])))
      else if bool_decide (b = cur s) then Ret (with_stealer s i (SCas f n got))
      else Ret (with_stealer s i (SDone Retry))
  | Some (SCas f n got) =>
      if c_consumed s =? f then
        l ← assume_init got;
        Ret (mkCDeque (isize_of (f + n)) (c_produced s) (c_cached s) (bufs s) (cur s) (worker s)
               (<[i := SDone (Success l)]> (stealers s)) (log s))
      else Ret (with_stealer s i (SDone Retry))
  | Some (SDone _) => Ret (with_stealer s i SIdle)
  end.

(** ** Runs *)

Inductive label : Type :=
  | LPush (task : list T)
  | LWorker
  | LStealer (i : nat) (want : option Z).

Definition cstep (l : label) (s : cdeque) : outcome cdeque :=
  match l with
  | LPush task => match worker s with WIdle => push_start s task | _ => Ret s end
  | LWorker => push_step s
  | LStealer i want => steal_step i want s
  end.

Definition cdeque_new (n : nat) : cdeque := mkCDeque 0 0 0 [alloc MIN_CAP] 0 WIdle (replicate n SIdle) [].

(** A batch that is being written fits, which [push] does not check, and the
    counters are far from their end. *)
Definition room (s : cdeque) : Prop :=
  zlen (log s) < 2 ^ 58
  /\ match worker s with
     | WWrite task _ => forall b, bufs s !! cur s = Some b -> c_produced s + zlen task <= c_consumed s + cap b
     | _ => True
     end.

(** Capacities of destinations are not negative. *)
Definition label_ok (l : label) : Prop := match l with LStealer _ (Some c) => 0 <= c | _ => True end.

(** The tasks between the counters: the queue the threads share. *)
Definition queue (s : cdeque) : list T := drop (Z.to_nat (c_consumed s)) (take (Z.to_nat (c_produced s)) (log s)).

(** What a step does to the queue: a batch is published, a stealer's exchange
    succeeds, a stealer finds nothing; the other steps are silent. *)
Inductive qevent : Type :=
  | QSilent
  | QPushed (task : list T)
  | QStolen (i : nat) (tasks : list T)
  | QEmpty (i : nat).

Definition event (l : label) (s s' : cdeque) : qevent :=
  match l with
  | LPush _ => QSilent
  | LWorker =>
      match worker s, worker s' with WWrite task _, WIdle => QPushed task | _, _ => QSilent end
  | LStealer i _ =>
      match stealers s !! i, stealers s' !! i with
      | Some (SCas _ _ _), Some (SDone (Success tasks)) => QStolen i tasks
      | Some (SFront want _), Some (SDone Empty) => if decide (want = Some 0) then QSilent else QEmpty i
      | _, _ => QSilent
      end
  end.

(** The queue as a list on which each event is one atomic step. *)
Inductive qstep : qevent -> list T -> list T -> Prop :=
  | q_silent q : qstep QSilent q q
  | q_pushed q task : qstep (QPushed task) q (q ++ task)
  | q_stolen i q tasks : qstep (QStolen i tasks) (tasks ++ q) q
  | q_empty i : qstep (QEmpty i) [] [].

Inductive qtrace : list qevent -> list T -> Prop :=
  | qt_nil : qtrace [] []
  | qt_snoc evs e q q' : qtrace evs q -> qstep e q q' -> qtrace (evs ++ [e]) q'.

(** All tasks published, and all tasks handed out, in the order of the events. *)
Definition all_pushed (evs : list qevent) : list T :=
  evs ≫= (fun e => match e with QPushed task => task | _ => [] end).
Definition all_stolen (evs : list qevent) : list T :=
  evs ≫= (fun e => match e with QStolen _ tasks => tasks | _ => [] end).

(** The states [n] stealers and the worker reach, with the events and the
    states so far. *)
Inductive creachable (n : nat) : list qevent -> list cdeque -> cdeque -> Prop :=
  | creach_new : creachable n [] [] (cdeque_new n)
  | creach_step evs passed l s s' : creachable n evs passed s -> label_ok l -> cstep l s = Ret s' ->
      creachable n (evs ++ [event l s s']) (passed ++ [s']) s'.

(** ** Invariant *)

(** The slot of counter [i]. *)
Definition slot (b : Buffer T) (i : Z) : option (option T) := slots b !! Z.to_nat (i mod cap b).

(** The slots of the counters from [lo] to [hi] hold what was pushed there. *)
Definition holds (s : cdeque) (b : Buffer T) (lo hi : Z) : Prop :=
  forall i, lo <= i < hi -> exists t, log s !! Z.to_nat i = Some t /\ slot b i = Some (Some t).

Definition got_ok (s : cdeque) (f : Z) (got : list (option T)) : Prop :=
  f = c_consumed s -> got = Some <$> take (length got) (drop (Z.to_nat f) (log s)).

(** [his] are, for each buffer, the counters up to which it was filled. *)
Definition stealer_ok (s : cdeque) (his : list Z) (p : spc) : Prop :=
  match p with
  | SIdle | SDone _ => True
  | SFront want f => 0 <= f <= c_consumed s /\ label_ok (LStealer 0 want)
  | SLen f n => 0 <= f <= c_consumed s /\ 0 < n /\ f + n <= c_produced s
  | SRead f n b got => 0 <= f <= c_consumed s /\ 0 < n /\ f + n <= c_produced s /\ zlen got <= n
      /\ (exists h, his !! b = Some h /\ f + n <= h) /\ got_ok s f got
  | SCas f n got => 0 <= f <= c_consumed s /\ 0 < n /\ f + n <= c_produced s /\ zlen got = n /\ got_ok s f got
  end.

Definition worker_ok (s : cdeque) (b : Buffer T) : Prop :=
  match worker s with
  | WIdle | WLoad _ => zlen (log s) = c_produced s
  | WGrow _ => zlen (log s) = c_produced s /\ cap b <= c_produced s
  | WSwap _ new => zlen (log s) = c_produced s /\ cap b <= c_produced s /\ cap new = 2 * cap b
      /\ holds s new (c_consumed s) (c_produced s)
  | WWrite task k => zlen (log s) = c_produced s + zlen task /\ (k <= length task)%nat
      /\ c_produced s + zlen task <= c_consumed s + cap b
      /\ forall j, (j < length task)%nat -> log s !! (Z.to_nat (c_produced s) + j)%nat = task !! j
  end.

(** How far the buffer in use is filled. *)
Definition filled_to (s : cdeque) : Z :=
  c_produced s + match worker s with WWrite _ k => Z.of_nat k | _ => 0 end.

Record cinv (s : cdeque) (his : list Z) : Prop := {
  ci_counters : 0 <= c_cached s <= c_consumed s /\ c_consumed s <= c_produced s;
  ci_log : zlen (log s) < 2 ^ 58;
  ci_cur : length (bufs s) = S (cur s);
  ci_his : length his = length (bufs s);
  ci_cap b x : bufs s !! b = Some x -> exists k, 0 <= k < 59 /\ cap x = 2 ^ k;
  ci_bufs b x h : bufs s !! b = Some x -> his !! b = Some h -> holds s x (c_consumed s) h;
  ci_current x : bufs s !! cur s = Some x ->
    his !! cur s = Some (filled_to s) /\ c_produced s <= c_consumed s + cap x /\ worker_ok s x;
  ci_stealers : Forall (stealer_ok s his) (stealers s) }.

(** ** Lemmas *)

Lemma holds_mono s b lo hi lo' hi' : holds s b lo hi -> lo <= lo' -> hi' <= hi -> holds s b lo' hi'.
Proof. intros Hh Hlo Hhi i Hi. apply Hh. lia. Qed.

Lemma at_mod (b : Buffer T) k i : 0 <= k -> cap b = 2 ^ k -> at_ b i = i mod cap b.
Proof. intros Hk Hc. unfold at_. rewrite Hc. by apply land_mod. Qed.

(** The buffer in use. *)
Lemma current_buf s his : cinv s his -> exists x, bufs s !! cur s = Some x /\ buf s (cur s) = Ret x.
Proof.
  intros Hi. destruct (lookup_lt_is_Some_2 (bufs s) (cur s)) as [x Hx].
  { rewrite (ci_cur _ _ Hi). lia. }
  exists x. split; [done|]. unfold buf. by rewrite Hx.
Qed.

(** A stealer moves on. *)
Lemma stealer_step s his i p : cinv s his -> stealer_ok s his p -> cinv (with_stealer s i p) his.
Proof. intros [] Hp. constructor; try done. by apply Forall_insert. Qed.

(** The worker moves on without touching anything. *)
Lemma worker_step s his w :
  cinv s his -> filled_to (with_worker s w) = filled_to s ->
  (forall x, bufs s !! cur s = Some x -> worker_ok (with_worker s w) x) -> cinv (with_worker s w) his.
Proof.
  intros [? ? ? ? ? ? Hc ?] Hf Hw. constructor; try done. intros x Hx. rewrite Hf.
  destruct (Hc x Hx) as (? & ? & _). split_and!; [done..|by apply Hw].
Qed.

(** The tasks of a new batch are logged behind the others. *)
Lemma got_ok_app s s' f n (got : list (option T)) task :
  log s' = log s ++ task -> c_consumed s' = c_consumed s -> 0 <= f -> zlen got <= n ->
  f + n <= c_produced s -> c_produced s <= zlen (log s) -> got_ok s f got -> got_ok s' f got.
Proof.
  intros El Ec Hf Hg Hn Hl Hok. unfold got_ok in *. rewrite El, Ec. intros E. rewrite (Hok E) at 1. f_equal.
  rewrite drop_app_le by lia. rewrite take_app_le; [done|]. rewrite length_drop. lia.
Qed.

Lemma stealer_ok_app s s' his his' p task :
  log s' = log s ++ task -> c_consumed s' = c_consumed s -> c_produced s <= c_produced s' ->
  c_produced s <= zlen (log s) -> (forall b h, his !! b = Some h -> exists h', his' !! b = Some h' /\ h <= h') ->
  stealer_ok s his p -> stealer_ok s' his' p.
Proof.
  intros El Ec Ep Hl Hh. destruct p as [|want f|f n|f n b got|f n got|r]; simpl; rewrite ?Ec; try done.
  - lia.
  - intros (? & ? & ? & ? & (h & Hb & ?) & Hg). destruct (Hh b h Hb) as (h' & ? & ?).
    split; [lia|]. split; [lia|]. split; [lia|]. split; [lia|]. split; [exists h'; split; [done|lia]|].
    eapply got_ok_app; try done; lia.
  - intros (? & ? & ? & ? & Hg). split; [lia|]. split; [lia|]. split; [lia|]. split; [lia|].
    eapply got_ok_app; try done; lia.
Qed.

Lemma holds_app s s' b lo hi task : log s' = log s ++ task -> holds s b lo hi -> holds s' b lo hi.
Proof.
  intros El Hh i Hi. destruct (Hh i Hi) as (t & Ht & Hs). exists t. split; [|done].
  rewrite El, lookup_app_l; [done|]. by eapply lookup_lt_Some.
Qed.

(** The counter [i] belongs to exactly one slot of the [cap] counters around. *)
Lemma slot_other (b : Buffer T) i j v :
  0 < cap b -> i <> j -> - cap b < i - j < cap b ->
  slot (mkBuffer (<[Z.to_nat (j mod cap b) := v]> (slots b))) i = slot b i.
Proof.
  intros Hc Hne Hd. unfold slot. assert (Hcap : cap (mkBuffer (<[Z.to_nat (j mod cap b) := v]> (slots b))) = cap b).
  { unfold cap. simpl. by rewrite length_insert. }
  rewrite Hcap. simpl. pose proof (Z.mod_pos_bound i (cap b) Hc). pose proof (Z.mod_pos_bound j (cap b) Hc).
  apply list_lookup_insert_ne. intros E%Z2Nat.inj; try lia.
  assert (Hz : (i - j) mod cap b = 0) by (rewrite Zminus_mod, E, Z.sub_diag; apply Z.mod_0_l; lia).
  apply Z.mod_divide in Hz as [q Hq]; [|lia]. destruct (Z.lt_trichotomy q 0) as [?|[-> | ?]]; nia.
Qed.

Lemma slot_same (b : Buffer T) j v :
  0 < cap b -> slot (mkBuffer (<[Z.to_nat (j mod cap b) := v]> (slots b))) j = Some v.
Proof.
  intros Hc. unfold slot. assert (Hcap : cap (mkBuffer (<[Z.to_nat (j mod cap b) := v]> (slots b))) = cap b).
  { unfold cap. simpl. by rewrite length_insert. }
  rewrite Hcap. simpl. pose proof (Z.mod_pos_bound j (cap b) Hc). apply list_lookup_insert_eq. unfold cap in *. lia.
Qed.

(** The log is at least as long as what was published. *)
Lemma log_produced s his : cinv s his -> c_produced s <= zlen (log s).
Proof.
  intros Hi. destruct (current_buf s his Hi) as (x & Hx & _). destruct (ci_current _ _ Hi x Hx) as (_ & _ & Hw).
  unfold worker_ok in Hw. destruct (worker s); try destruct Hw; lia.
Qed.

Lemma cap_bounds s his b x : cinv s his -> bufs s !! b = Some x -> 0 < cap x < 2 ^ 60.
Proof. intros Hi Hb. destruct (ci_cap _ _ Hi b x Hb) as (k & ? & Hk). apply (cap_pos x k); [lia|done]. Qed.

(** [push] gets to the copy: the batch is logged. *)
Lemma begin_write_ok s his task :
  cinv s his -> filled_to s = c_produced s -> zlen (log s) = c_produced s ->
  room (begin_write s task) -> cinv (begin_write s task) his.
Proof.
  intros Hi Hf Hl (Hlt & Hroom). pose proof (ci_counters _ _ Hi) as Hcn. destruct Hi. constructor; simpl; try done.
  - intros b x h Hb Hh. eapply holds_app, ci_bufs0; done.
  - intros x Hx. destruct (ci_current0 x Hx) as (Hh & Hc & _). simpl in Hroom. specialize (Hroom x Hx).
    split_and!; [by rewrite Hh, Hf; unfold filled_to; simpl; rewrite Z.add_0_r|done|].
    unfold worker_ok. simpl. rewrite length_app. split_and!; [lia|lia|lia|].
    intros j Hj. rewrite lookup_app_r by lia. f_equal. lia.
  - eapply Forall_impl; [done|]. intros p. eapply stealer_ok_app; try done; [lia|]. intros b h Hb. exists h. by split.
Qed.

(** The worker stores the next task of the batch. *)
Definition store (s : cdeque) (x : Buffer T) (task : list T) (k : nat) (t : T) : cdeque :=
  mkCDeque (c_consumed s) (c_produced s) (c_cached s)
    (<[cur s := mkBuffer (<[Z.to_nat ((c_produced s + Z.of_nat k) mod cap x) := Some t]> (slots x))]> (bufs s))
    (cur s) (WWrite task (S k)) (stealers s) (log s).

Lemma store_holds s his x task k t :
  cinv s his -> bufs s !! cur s = Some x -> worker s = WWrite task k -> task !! k = Some t ->
  holds (store s x task k t)
    (mkBuffer (<[Z.to_nat ((c_produced s + Z.of_nat k) mod cap x) := Some t]> (slots x)))
    (c_consumed s) (c_produced s + Z.of_nat (S k)).
Proof.
  intros Hi Hx Hw Ht i Hr. pose proof (ci_counters _ _ Hi) as Hcn. pose proof (cap_bounds _ _ _ _ Hi Hx) as Hcap.
  destruct (ci_current _ _ Hi x Hx) as (Hh & _ & Hwk). unfold worker_ok in Hwk. rewrite Hw in Hwk.
  destruct Hwk as (_ & _ & Hfit & Hlog). unfold filled_to in Hh. rewrite Hw in Hh.
  pose proof (lookup_lt_Some _ _ _ Ht) as Hlt. simpl.
  destruct (decide (i = c_produced s + Z.of_nat k)) as [-> | Hne].
  - exists t. split; [|apply slot_same; lia]. rewrite <- Ht, <- (Hlog k Hlt). f_equal. lia.
  - destruct (ci_bufs _ _ Hi _ _ _ Hx Hh i ltac:(lia)) as (t' & ? & ?). exists t'. split; [done|].
    rewrite slot_other; [done|lia|done|lia].
Qed.

Lemma push_store_ok s his x task k t :
  cinv s his -> bufs s !! cur s = Some x -> worker s = WWrite task k -> task !! k = Some t ->
  cinv (store s x task k t) (<[cur s := c_produced s + Z.of_nat (S k)]> his).
Proof.
  intros Hi Hx Hw Ht. pose proof (store_holds s his x task k t Hi Hx Hw Ht) as Hst.
  pose proof (log_produced _ _ Hi) as Hlp. pose proof (ci_current _ _ Hi x Hx) as (Hh & Hc & Hwk).
  pose proof (lookup_lt_Some _ _ _ Ht) as Hlt. destruct Hi. unfold worker_ok in Hwk. rewrite Hw in Hwk.
  destruct Hwk as (Hl & _ & Hfit & Hlog).
  constructor; simpl; try done; rewrite ?length_insert; try done.
  - intros b y. rewrite list_lookup_insert_Some. intros [(<- & <- & _) | (_ & Hb)]; [|by eapply ci_cap0].
    destruct (ci_cap0 _ _ Hx) as (e & ? & He). exists e. split; [done|]. unfold cap in *. simpl. by rewrite length_insert.
  - intros b y h. rewrite !list_lookup_insert_Some.
    intros [(<- & <- & _) | (Hn & Hb)] [(Hb' & <- & _) | (Hn' & Hb')]; try done. by eapply ci_bufs0.
  - intros y. rewrite list_lookup_insert_eq by (apply lookup_lt_Some in Hx; done). intros [= <-].
    assert (Hcap : cap (mkBuffer (<[Z.to_nat ((c_produced s + Z.of_nat k) mod cap x) := Some t]> (slots x))) = cap x)
      by (unfold cap; simpl; by rewrite length_insert).
    rewrite list_lookup_insert_eq by (apply lookup_lt_Some in Hh; done). unfold worker_ok. simpl. rewrite Hcap.
    split_and!; try done; lia.
  - eapply Forall_impl; [done|]. intros p. apply stealer_ok_app with (task := []); try done; simpl; [by rewrite app_nil_r|].
    intros b h Hb. destruct (decide (b = cur s)) as [-> | Hn].
    + eexists. rewrite list_lookup_insert_eq by (by eapply lookup_lt_Some). split; [done|].
      rewrite Hh in Hb. injection Hb as <-. unfold filled_to. rewrite Hw. lia.
    + exists h. rewrite list_lookup_insert_ne by done. by split.
Qed.

(** The worker publishes the batch. *)
Definition publish (s : cdeque) (task : list T) : cdeque :=
  mkCDeque (c_consumed s) (c_produced s + zlen task) (c_cached s) (bufs s) (cur s) WIdle (stealers s) (log s).

Lemma publish_ok s his task k :
  cinv s his -> worker s = WWrite task k -> task !! k = None -> cinv (publish s task) his.
Proof.
  intros Hi Hw Ht. pose proof (log_produced _ _ Hi) as Hlp. apply lookup_ge_None in Ht.
  destruct (current_buf s his Hi) as (x & Hx & _). pose proof (ci_current _ _ Hi x Hx) as (Hh & Hc & Hwk).
  unfold worker_ok in Hwk. rewrite Hw in Hwk. destruct Hwk as (Hl & Hk & Hfit & _). destruct Hi.
  constructor; simpl; try done; [lia| |].
  - intros y Hy. assert (y = x) as -> by congruence. unfold worker_ok. simpl. split_and!; [|lia|lia].
    rewrite Hh. unfold filled_to. rewrite Hw. simpl. f_equal. lia.
  - eapply Forall_impl; [done|]. intros p.
    apply stealer_ok_app with (task := []); simpl; try done; [by rewrite app_nil_r|lia|]. intros b h Hb. exists h. by split.
Qed.

(** The worker refreshes its copy of [consumed]. *)
Definition refresh (s : cdeque) : cdeque :=
  mkCDeque (c_consumed s) (c_produced s) (c_consumed s) (bufs s) (cur s) (worker s) (stealers s) (log s).

Lemma refresh_ok s his task : cinv s his -> worker s = WLoad task -> cinv (refresh s) his.
Proof. intros Hi Hw. destruct Hi. constructor; simpl; try done. lia. Qed.

(** The larger buffer is a copy of the live part. *)
Lemma grow_ok s his task x :
  cinv s his -> worker s = WGrow task -> bufs s !! cur s = Some x ->
  exists new, resize_copy x (alloc (2 * cap x)) (c_consumed s) (c_produced s) = Ret new
    /\ cinv (with_worker s (WSwap task (mkBuffer new))) his.
Proof.
  intros Hi Hw Hx. pose proof (ci_counters _ _ Hi) as Hcn. pose proof (log_produced _ _ Hi) as Hlp.
  pose proof (ci_log _ _ Hi) as Hlog. pose proof (ci_current _ _ Hi x Hx) as (Hh & Hc & Hwk).
  unfold worker_ok in Hwk. rewrite Hw in Hwk. unfold filled_to in Hh. rewrite Hw, Z.add_0_r in Hh.
  destruct (ci_cap _ _ Hi _ _ Hx) as (k & Hk & Ek).
  destruct (resize_copy_ok x k (c_consumed s) (c_produced s)) as (new & Hr & Hln & Hcopy); [lia|done|lia|lia|lia|].
  exists new. split; [done|]. apply worker_step; [done|by unfold filled_to; rewrite Hw|].
  intros y Hy. assert (y = x) as -> by congruence. unfold worker_ok. simpl. split_and!; [lia|lia|done|].
  intros i Hr'. destruct (ci_bufs _ _ Hi _ _ _ Hx Hh i Hr') as (t & Hl & Hs). exists t. split; [done|].
  unfold slot in *. unfold cap at 1. simpl. rewrite Hln.
  specialize (Hcopy (i - c_consumed s) ltac:(lia)). rewrite Zplus_minus in Hcopy. by rewrite Hcopy.
Qed.

(** The larger buffer is swapped in. *)
Definition swap (s : cdeque) (task : list T) (new : Buffer T) : cdeque :=
  mkCDeque (c_consumed s) (c_produced s) (c_cached s) (bufs s ++ [new]) (length (bufs s)) (WLoad task) (stealers s)
    (log s).

Lemma swap_ok s his task new :
  cinv s his -> worker s = WSwap task new -> cinv (swap s task new) (his ++ [c_produced s]).
Proof.
  intros Hi Hw. pose proof (log_produced _ _ Hi) as Hlp. destruct (current_buf s his Hi) as (x & Hx & _).
  pose proof (ci_current _ _ Hi x Hx) as (Hh & Hc & Hwk). unfold worker_ok in Hwk. rewrite Hw in Hwk.
  destruct Hwk as (Hl & Hcx & Hcap & Hhold). pose proof (cap_bounds _ _ _ _ Hi Hx) as Hpos. destruct Hi.
  assert (Hnew : forall b y, (bufs s ++ [new]) !! b = Some y -> bufs s !! b = Some y \/ b = length (bufs s) /\ y = new).
  { intros b y [?|(? & Hy)]%lookup_app_Some; [by left|]. apply list_lookup_singleton_Some in Hy as [? <-].
    right. split; [lia|done]. }
  constructor; simpl; try done.
  - rewrite length_app. simpl. lia.
  - rewrite !length_app. simpl. lia.
  - intros b y [Hb|(_ & ->)]%Hnew; [by eapply ci_cap0|]. destruct (ci_cap0 _ _ Hx) as (k & Hk & Ek).
    exists (k + 1). rewrite Hcap, Ek, Z.pow_add_r by lia. split; [|lia].
    assert (2 ^ k < 2 ^ 58) by lia. apply Z.pow_lt_mono_r_iff in H; lia.
  - intros b y h [Hb|(-> & ->)]%Hnew Hb'.
    + rewrite lookup_app_l in Hb' by (apply lookup_lt_Some in Hb; lia). by eapply ci_bufs0.
    + rewrite lookup_app_r, ci_his0, Nat.sub_diag in Hb' by lia. injection Hb' as <-. exact Hhold.
  - intros y Hy. rewrite lookup_app_r, Nat.sub_diag in Hy by lia. injection Hy as <-.
    rewrite lookup_app_r, ci_his0, Nat.sub_diag by lia. unfold filled_to, worker_ok. simpl. rewrite Z.add_0_r.
    split_and!; [done|lia|done].
  - eapply Forall_impl; [done|]. intros p. apply stealer_ok_app with (task := []); simpl; try done; [by rewrite app_nil_r|].
    intros b h Hb. exists h. split; [|done]. rewrite lookup_app_l; [done|]. by eapply lookup_lt_Some.
Qed.

(** ** Steps of the worker *)

Definition step_ok (o : outcome cdeque) : Prop := exists s', o = Ret s' /\ (room s' -> exists his, cinv s' his).

Lemma push_start_ok s his task : cinv s his -> worker s = WIdle -> step_ok (push_start s task).
Proof.
  intros Hi Hw. destruct (current_buf s his Hi) as (x & Hx & Hb). unfold push_start. rewrite Hb. simpl.
  destruct (ci_current _ _ Hi x Hx) as (Hh & Hc & Hwk). unfold worker_ok in Hwk. rewrite Hw in Hwk.
  destruct (_ <=? _); eexists; (split; [done|]); intros Hr; exists his.
  - apply worker_step; [done|by unfold filled_to; rewrite Hw|done].
  - apply begin_write_ok; [done|unfold filled_to; rewrite Hw; lia|done|done].
Qed.

Lemma push_load_ok s his task : cinv s his -> worker s = WLoad task -> step_ok (push_step s).
Proof.
  intros Hi Hw. destruct (current_buf s his Hi) as (x & Hx & Hb). unfold push_step. rewrite Hb, Hw. simpl.
  pose proof (ci_counters _ _ Hi) as Hcn. pose proof (ci_log _ _ Hi) as Hlog. pose proof (log_produced _ _ Hi).
  destruct (ci_current _ _ Hi x Hx) as (Hh & Hc & Hwk). unfold worker_ok in Hwk. rewrite Hw in Hwk.
  pose proof (refresh_ok s his task Hi Hw) as Hrf. unfold refresh in Hrf. rewrite Hw in Hrf.
  rewrite isize_small by lia.
  destruct (Z.leb_spec (cap x) (c_produced s - c_consumed s)); eexists; (split; [done|]); intros Hr; exists his.
  - apply worker_step; [done|done|]. intros y Hy. simpl in Hy. assert (y = x) as -> by congruence.
    unfold worker_ok. simpl. split; [done|lia].
  - apply begin_write_ok; [done|unfold filled_to; simpl; lia|done|done].
Qed.

Lemma write_ok s his task k : cinv s his -> worker s = WWrite task k -> step_ok (push_step s).
Proof.
  intros Hi Hw. destruct (current_buf s his Hi) as (x & Hx & Hb). unfold push_step. rewrite Hb, Hw. simpl.
  pose proof (ci_counters _ _ Hi) as Hcn. pose proof (ci_log _ _ Hi) as Hlog.
  destruct (ci_current _ _ Hi x Hx) as (Hh & Hc & Hwk). unfold worker_ok in Hwk. rewrite Hw in Hwk.
  destruct Hwk as (Hl & Hk & _ & _). destruct (ci_cap _ _ Hi _ _ Hx) as (e & He & Ee).
  destruct (task !! k) as [t|] eqn:Ht; eexists; (split; [done|]); intros _.
  - pose proof (lookup_lt_Some _ _ _ Ht). rewrite isize_small, (at_mod _ e) by lia.
    eexists. by apply push_store_ok.
  - rewrite isize_small by lia. eexists. by eapply publish_ok.
Qed.

Lemma push_step_ok s his : cinv s his -> step_ok (push_step s).
Proof.
  intros Hi. destruct (current_buf s his Hi) as (x & Hx & Hb). destruct (worker s) as [|task|task|task new|task k] eqn:Hw.
  - unfold push_step. rewrite Hb, Hw. simpl. exists s. split; [done|]. by exists his.
  - by eapply push_load_ok.
  - destruct (grow_ok s his task x Hi Hw Hx) as (new & Hr & Hi'). unfold push_step. rewrite Hb, Hw. simpl.
    rewrite Hr. simpl. eexists. split; [done|]. intros _. by exists his.
  - pose proof (swap_ok s his task new Hi Hw) as Hi'. unfold push_step. rewrite Hb, Hw. simpl.
    destruct (ci_current _ _ Hi x Hx) as (_ & _ & Hwk). unfold worker_ok in Hwk. rewrite Hw in Hwk.
    eexists. split; [done|]. intros Hr. eexists.
    apply (begin_write_ok (swap s task new) _ task Hi'); [unfold filled_to; simpl; lia|simpl; lia|done].
  - by eapply write_ok.
Qed.

(** ** Steps of the stealers *)

Lemma steal_size_bounds want len :
  0 <= len -> label_ok (LStealer 0 want) -> 0 <= steal_size want len <= len.
Proof.
  intros Hl Hw. destruct want as [c|]; simpl in *; [|lia].
  assert (0 <= (len + 1) / 2 <= len) by (split; [apply Z.div_pos; lia|];
    destruct (decide (len = 0)) as [-> | ?]; [done|apply Z.div_le_upper_bound; lia]). lia.
Qed.

(** A slot of a buffer can be read at any counter. *)
Lemma read_total s his b x i : cinv s his -> bufs s !! b = Some x -> exists v, read x i = Ret v /\ slot x i = Some v.
Proof.
  intros Hi Hb. destruct (ci_cap _ _ Hi _ _ Hb) as (k & Hk & Ek). pose proof (cap_bounds _ _ _ _ Hi Hb) as Hcap.
  unfold read, slot. rewrite (at_mod _ k) by lia. pose proof (Z.mod_pos_bound i (cap x) ltac:(lia)).
  destruct (lookup_lt_is_Some_2 (slots x) (Z.to_nat (i mod cap x))) as [v Hv]; [unfold cap in *; lia|].
  exists v. by rewrite Hv.
Qed.

(** Reading one more task of the right ones. *)
Lemma got_ok_snoc s f (got : list (option T)) v t :
  got_ok s f got -> 0 <= f -> log s !! Z.to_nat (f + zlen got) = Some t ->
  (f = c_consumed s -> v = Some t) -> got_ok s f (got ++ [v]).
Proof.
  intros Hok Hf Ht Hv E. rewrite (Hv E), length_app. simpl. rewrite Nat.add_1_r.
  rewrite (take_S_r _ _ t), fmap_app; [by rewrite <- (Hok E)|]. rewrite lookup_drop, <- Ht. f_equal. lia.
Qed.

Lemma steal_read_step s his i f n b got :
  cinv s his -> stealers s !! i = Some (SRead f n b got) -> zlen got < n ->
  exists x v, buf s b = Ret x /\ read x (isize_of (f + zlen got)) = Ret v
    /\ cinv (with_stealer s i (SRead f n b (got ++ [v]))) his.
Proof.
  intros Hi Hs Hg. pose proof (ci_counters _ _ Hi) as Hcn. pose proof (ci_log _ _ Hi) as Hlog.
  pose proof (log_produced _ _ Hi) as Hlp.
  pose proof (proj1 (Forall_lookup _ _) (ci_stealers _ _ Hi) _ _ Hs) as (Hf & Hn & Hp & _ & (h & Hb & Hh) & Hok).
  destruct (lookup_lt_is_Some_2 (bufs s) b) as [x Hx].
  { rewrite <- (ci_his _ _ Hi). by eapply lookup_lt_Some. }
  destruct (read_total s his b x (f + zlen got) Hi Hx) as (v & Hv & Hsl).
  exists x, v. unfold buf. rewrite Hx, isize_small by lia. split_and!; [done|done|].
  destruct (lookup_lt_is_Some_2 (log s) (Z.to_nat (f + zlen got))) as [t Ht]; [lia|].
  apply stealer_step; [done|]. split_and!; try lia; [rewrite length_app; simpl; lia|by exists h|].
  apply (got_ok_snoc s f got v t); [done|lia|done|]. intros E.
  destruct (ci_bufs _ _ Hi _ _ _ Hx Hb (f + zlen got) ltac:(lia)) as (t' & Ht' & Hs'). congruence.
Qed.

(** The exchange of a stealer succeeds. *)
Definition take_batch (s : cdeque) (i : nat) (n : Z) (tasks : list T) : cdeque :=
  mkCDeque (c_consumed s + n) (c_produced s) (c_cached s) (bufs s) (cur s) (worker s)
    (<[i := SDone (Success tasks)]> (stealers s)) (log s).

Lemma take_batch_ok s his i n tasks :
  cinv s his -> 0 < n -> c_consumed s + n <= c_produced s -> cinv (take_batch s i n tasks) his.
Proof.
  intros Hi Hn Hp. destruct Hi. constructor; simpl; try done; [lia| | |].
  - intros b x h Hb Hh. specialize (ci_bufs0 b x h Hb Hh). intros j Hj. apply ci_bufs0. lia.
  - intros x Hx. destruct (ci_current0 x Hx) as (Hh & Hc & Hw). split_and!; [done|lia|].
    unfold worker_ok in *. simpl. destruct (worker s); try done.
    + destruct Hw as (? & ? & ? & Hhold). split_and!; try done. intros j Hj. apply Hhold. lia.
    + destruct Hw as (? & ? & ? & ?). split_and!; done || lia.
  - apply Forall_insert; [|done]. eapply Forall_impl; [done|].
    intros [|want f|f m|f m b got|f m got|r]; simpl; try done; try lia.
    + intros (? & ?). split; [lia|done].
    + intros (? & ? & ? & ? & ? & _). split_and!; try lia; [done|]. intros E. simpl in E. lia.
    + intros (? & ? & ? & ? & _). split_and!; try lia. intros E. simpl in E. lia.
Qed.

Lemma queue_take s n :
  0 <= c_consumed s -> 0 <= n -> c_consumed s + n <= c_produced s ->
  queue s = take (Z.to_nat n) (drop (Z.to_nat (c_consumed s)) (log s))
            ++ drop (Z.to_nat (c_consumed s + n)) (take (Z.to_nat (c_produced s)) (log s)).
Proof.
  intros Hc Hn Hp. unfold queue. rewrite Z2Nat.inj_add, <- drop_drop by lia.
  rewrite <- (take_drop (Z.to_nat n) (drop _ (take _ _))) at 1. f_equal.
  rewrite !take_drop_commute, take_take. f_equal. f_equal. lia.
Qed.

(** What a step of stealer [i] must achieve. *)
Definition steal_ok (i : nat) (want : option Z) (s : cdeque) (his : list Z) : Prop :=
  exists s', steal_step i want s = Ret s' /\ cinv s' his
    /\ qstep (event (LStealer i want) s s') (queue s) (queue s').

Lemma steal_silent i want s his p p' :
  cinv s his -> stealers s !! i = Some p -> stealer_ok s his p' -> steal_step i want s = Ret (with_stealer s i p') ->
  event (LStealer i want) s (with_stealer s i p') = QSilent -> steal_ok i want s his.
Proof.
  intros Hi Hs Hp Hst He. eexists. split; [done|]. rewrite He. split; [by apply stealer_step|constructor].
Qed.

(** The stealer's view of the length is the length of the queue, or more. *)
Lemma front_step i want s his w f :
  cinv s his -> stealers s !! i = Some (SFront w f) -> steal_ok i want s his.
Proof.
  intros Hi Hs. pose proof (ci_counters _ _ Hi) as Hcn. pose proof (ci_log _ _ Hi). pose proof (log_produced _ _ Hi).
  pose proof (proj1 (Forall_lookup _ _) (ci_stealers _ _ Hi) _ _ Hs) as (Hf & Hw).
  pose proof (lookup_lt_Some _ _ _ Hs) as Hlt.
  assert (Hst : steal_step i want s
    = let n := steal_size w (c_produced s - f) in
      if n =? 0 then Ret (with_stealer s i (SDone Empty)) else Ret (with_stealer s i (SLen f n))).
  { unfold steal_step. rewrite Hs, isize_small, Z.max_l by lia. done. }
  cbv zeta in Hst. pose proof (steal_size_bounds w (c_produced s - f) ltac:(lia) Hw) as Hb.
  destruct (Z.eqb_spec (steal_size w (c_produced s - f)) 0) as [E|E].
  - eexists. split; [exact Hst|]. split; [by apply stealer_step|]. unfold event. rewrite Hs. simpl.
    rewrite list_lookup_insert_eq by done. destruct (decide (w = Some 0)) as [|Hne]; [constructor|].
    assert (Hq : queue s = []); [|by change (qstep (QEmpty i) (queue s) (queue s)); rewrite Hq; constructor].
    unfold queue. apply drop_ge. rewrite length_take. enough (c_produced s <= c_consumed s) by lia.
    destruct w as [c|]; simpl in *; [|lia]. assert (c <> 0) by congruence.
    destruct (decide (c_produced s - f = 0)); [lia|]. assert (1 <= (c_produced s - f + 1) / 2); [|lia].
    apply Z.div_le_lower_bound; lia.
  - eapply steal_silent; [done..| |exact Hst|].
    + simpl. lia.
    + unfold event. rewrite Hs. simpl. by rewrite list_lookup_insert_eq.
Qed.

Lemma cas_step i want s his f n got :
  cinv s his -> stealers s !! i = Some (SCas f n got) -> steal_ok i want s his.
Proof.
  intros Hi Hs. pose proof (ci_counters _ _ Hi) as Hcn. pose proof (ci_log _ _ Hi). pose proof (log_produced _ _ Hi).
  pose proof (proj1 (Forall_lookup _ _) (ci_stealers _ _ Hi) _ _ Hs) as (Hf & Hn & Hp & Hg & Hok).
  pose proof (lookup_lt_Some _ _ _ Hs) as Hlt. unfold got_ok in Hok.
  destruct (Z.eqb_spec (c_consumed s) f) as [<-|Hne].
  - specialize (Hok eq_refl). replace (length got) with (Z.to_nat n) in Hok by lia.
    exists (take_batch s i n (take (Z.to_nat n) (drop (Z.to_nat (c_consumed s)) (log s)))). split_and!.
    + unfold steal_step. rewrite Hs, Z.eqb_refl. rewrite Hok at 1. rewrite assume_init_fmap. simpl.
      by rewrite isize_small by lia.
    + apply take_batch_ok; [done|lia|lia].
    + unfold event. rewrite Hs. simpl. rewrite list_lookup_insert_eq by done.
      rewrite (queue_take s n) by lia. apply q_stolen.
  - eapply steal_silent with (p' := SDone Retry); [done..| |].
    + unfold steal_step. rewrite Hs. by rewrite (proj2 (Z.eqb_neq _ _)).
    + unfold event. rewrite Hs. simpl. by rewrite list_lookup_insert_eq.
Qed.

Lemma read_any i want s his f n b got :
  cinv s his -> stealers s !! i = Some (SRead f n b got) -> steal_ok i want s his.
Proof.
  intros Hi Hs. pose proof (lookup_lt_Some _ _ _ Hs) as Hlt.
  pose proof (proj1 (Forall_lookup _ _) (ci_stealers _ _ Hi) _ _ Hs) as (Hf & Hn & Hp & Hg & _ & Hok).
  assert (He : forall p, event (LStealer i want) s (with_stealer s i p) = QSilent).
  { intros p. unfold event. rewrite Hs. by destruct (_ !! i). }
  destruct (Z.ltb_spec (zlen got) n).
  - destruct (steal_read_step s his i f n b got Hi Hs ltac:(lia)) as (x & v & Hb & Hr & Hi').
    eexists. split_and!; [|exact Hi'|rewrite He; constructor].
    unfold steal_step. rewrite Hs, (proj2 (Z.ltb_lt _ _)), Hb by lia. simpl. by rewrite Hr.
  - destruct (decide (b = cur s)) as [E|E].
    + eapply steal_silent with (p' := SCas f n got); [done|done| | |apply He].
      * simpl. split_and!; try lia. done.
      * unfold steal_step. rewrite Hs, (proj2 (Z.ltb_ge _ _)) by lia. by rewrite bool_decide_eq_true_2.
    + eapply steal_silent with (p' := SDone Retry); [done..| |apply He].
      unfold steal_step. rewrite Hs, (proj2 (Z.ltb_ge _ _)) by lia. by rewrite bool_decide_eq_false_2.
Qed.

Lemma steal_step_ok i want s his : cinv s his -> label_ok (LStealer i want) -> steal_ok i want s his.
Proof.
  intros Hi Hl. destruct (stealers s !! i) as [p|] eqn:Hs.
  2:{ exists s. unfold steal_step, event. rewrite Hs. split_and!; [done..|constructor]. }
  pose proof (lookup_lt_Some _ _ _ Hs) as Hlt. pose proof (ci_counters _ _ Hi) as Hcn.
  assert (He : match p with SFront _ _ | SCas _ _ _ => True
               | _ => forall p', event (LStealer i want) s (with_stealer s i p') = QSilent end).
  { destruct p; try done; intros p'; unfold event; rewrite Hs; by destruct (_ !! i). }
  destruct p as [|w f|f n|f n b got|f n got|r].
  - eapply (steal_silent i want s his _ (SFront want (c_consumed s))); [done..| | |apply He];
      [split; [lia|done]|unfold steal_step; by rewrite Hs].
  - by eapply front_step.
  - pose proof (proj1 (Forall_lookup _ _) (ci_stealers _ _ Hi) _ _ Hs) as (Hf & Hn & Hp).
    destruct (current_buf s his Hi) as (x & Hx & _). destruct (ci_current _ _ Hi x Hx) as (Hh & _ & _).
    eapply (steal_silent i want s his _ (SRead f n (cur s) [])); [done..| | |apply He];
      [|unfold steal_step; by rewrite Hs]. simpl. split_and!; try lia; [|done]. eexists. split; [done|].
    unfold filled_to. destruct (worker s); lia.
  - by eapply read_any.
  - by eapply cas_step.
  - eapply (steal_silent i want s his _ SIdle); [done..| |apply He]. unfold steal_step. by rewrite Hs.
Qed.

(** ** Runs refine the list *)

Lemma queue_app s task : c_produced s <= zlen (log s) -> queue (begin_write s task) = queue s.
Proof. intros Hl. unfold queue. simpl. by rewrite take_app_le by lia. Qed.

(** Only the publication of a batch changes the queue on the worker's side. *)
Lemma push_step_queue s his s' :
  cinv s his -> push_step s = Ret s' -> qstep (event LWorker s s') (queue s) (queue s').
Proof.
  intros Hi. pose proof (log_produced _ _ Hi) as Hlp. pose proof (ci_counters _ _ Hi) as Hcn.
  pose proof (ci_log _ _ Hi) as Hlog. destruct (current_buf s his Hi) as (x & Hx & Hb). unfold push_step, event.
  rewrite Hb. simpl. destruct (worker s) as [|task|task|task new|task k] eqn:Hw.
  - intros [= <-]. constructor.
  - destruct (_ <=? _); intros [= <-]; [constructor|]. 
    rewrite (queue_app (mkCDeque _ _ _ _ _ _ _ _)) by done. constructor.
  - destruct (resize_copy _ _ _ _); [|done]. intros [= <-]. constructor.
  - intros [= <-]. rewrite (queue_app (mkCDeque _ _ _ _ _ _ _ _)) by done. constructor.
  - destruct (task !! k) as [t|] eqn:Ht; intros [= <-]; simpl; [constructor|].
    destruct (ci_current _ _ Hi x Hx) as (_ & _ & Hwk). unfold worker_ok in Hwk. rewrite Hw in Hwk.
    destruct Hwk as (Hl & _ & _ & Htask).
    assert (Hlt : log s = take (Z.to_nat (c_produced s)) (log s) ++ task); [|].
    { rewrite <- (take_drop (Z.to_nat (c_produced s)) (log s)) at 1. f_equal. apply list_eq. intros j.
      rewrite lookup_drop. destruct (decide (j < length task)%nat); [by apply Htask|].
      rewrite !lookup_ge_None_2 by lia. done. }
    unfold queue. simpl. rewrite isize_small by lia.
    rewrite (take_ge (log s) (Z.to_nat (c_produced s + _))) by lia. rewrite Hlt at 2.
    rewrite drop_app_le by (rewrite length_take; lia). constructor.
Qed.

Lemma push_start_queue s his task s' :
  cinv s his -> push_start s task = Ret s' -> qstep QSilent (queue s) (queue s').
Proof.
  intros Hi. pose proof (log_produced _ _ Hi) as Hlp. destruct (current_buf s his Hi) as (x & Hx & Hb).
  unfold push_start. rewrite Hb. simpl. destruct (_ <=? _); intros [= <-]; [constructor|].
  rewrite queue_app by done. constructor.
Qed.

(** Every step succeeds, keeps the invariant and is a step of the list. *)
Lemma cstep_ok l s his :
  cinv s his -> label_ok l -> exists s', cstep l s = Ret s'
    /\ (room s' -> (exists his', cinv s' his') /\ qstep (event l s s') (queue s) (queue s')).
Proof.
  intros Hi Hl. destruct l as [task| |i want]; simpl cstep.
  - destruct (worker s) eqn:Hw; try by (exists s; split; [done|]; intros _; split; [by exists his|constructor]).
    destruct (push_start_ok s his task Hi Hw) as (s' & Hs & Hr). exists s'. split; [done|]. intros Hrm.
    split; [by apply Hr|]. by eapply push_start_queue.
  - destruct (push_step_ok s his Hi) as (s' & Hs & Hr). exists s'. split; [done|]. intros Hrm.
    split; [by apply Hr|]. by eapply push_step_queue.
  - destruct (steal_step_ok i want s his Hi Hl) as (s' & Hs & Hi' & Hq). exists s'. split; [done|]. intros _.
    split; [by exists his|done].
Qed.

Lemma cinv_new n : cinv (cdeque_new n) [0].
Proof.
  constructor; simpl; try done.
  - intros b x Hb. apply list_lookup_singleton_Some in Hb as [_ <-]. by exists 6.
  - intros b x h Hb Hh i. apply list_lookup_singleton_Some in Hh as [_ <-]. lia.
  - intros x [= <-]. split_and!; [done| |done]. by vm_compute.
  - by apply Forall_replicate.
Qed.

Lemma creachable_inv n evs passed s :
  creachable n evs passed s -> Forall room passed -> (exists his, cinv s his) /\ qtrace evs (queue s).
Proof.
  induction 1 as [|evs passed l s s' Hr IH Hl Hs]; intros Hall.
  - split; [eexists; apply cinv_new|]. constructor.
  - apply Forall_app in Hall as [Hall Hrm]. rewrite Forall_singleton in Hrm. destruct (IH Hall) as [[his Hi] Hq].
    destruct (cstep_ok l s his Hi Hl) as (s'' & Hs' & Hok). assert (s'' = s') as -> by congruence.
    destruct (Hok Hrm) as [Hi' Hq']. split; [done|]. by econstructor.
Qed.

Lemma qtrace_fifo evs q : qtrace evs q -> all_pushed evs = all_stolen evs ++ q.
Proof.
  unfold all_pushed, all_stolen. induction 1 as [|evs e q q' _ IH Hq]; [done|]. rewrite !bind_app. simpl.
  rewrite !app_nil_r, IH. destruct Hq; rewrite ?app_nil_r, <- ?app_assoc; done.
Qed.

(** [room] as a test, and a schedule run from a state. *)
Definition roomb (s : cdeque) : bool :=
  (zlen (log s) <? 2 ^ 58)
  && match worker s, bufs s !! cur s with
     | WWrite task _, Some b => c_produced s + zlen task <=? c_consumed s + cap b
     | _, _ => true
     end.

Definition label_okb (l : label) : bool := match l with LStealer _ (Some c) => 0 <=? c | _ => true end.

Fixpoint crun (ls : list label) (evs : list qevent) (passed : list cdeque) (s : cdeque)
    : option (list qevent * list cdeque * cdeque) :=
  match ls with
  | [] => Some (evs, passed, s)
  | l :: ls =>
      match cstep l s with
      | Ret s' => if label_okb l then crun ls (evs ++ [event l s s']) (passed ++ [s']) s' else None
      | Fault _ => None
      end
  end.

Lemma roomb_room s : roomb s = true -> room s.
Proof.
  unfold roomb, room. intros [H1%Z.ltb_lt H2]%andb_prop. split; [done|]. destruct (worker s); try done.
  intros b Hb. rewrite Hb in H2. by apply Z.leb_le.
Qed.

Lemma crun_reachable n ls evs passed s evs' passed' s' :
  creachable n evs passed s -> crun ls evs passed s = Some (evs', passed', s') -> creachable n evs' passed' s'.
Proof.
  revert evs passed s. induction ls as [|l ls IH]; intros evs passed s Hr; simpl; [by intros [= <- <- <-]|].
  destruct (cstep l s) as [s1|] eqn:Hs; [|done]. destruct (label_okb l) eqn:E; [|done].
  apply IH. apply creach_step; [done| |done]. destruct l as [| |i [c|]]; try done. by apply Z.leb_le.
Qed.

(** C16: as long as every batch the worker pushes fits the buffer (the code does
    not check this; [unfit_batch] shows what happens otherwise), however the
    steps of the worker and of [n] stealers interleave, the queue behaves as a
    list on which each call acts at one instant: a batch is appended when it is
    published, a stealer takes from the front when its exchange succeeds, and is
    told the queue is empty only when it is.  What was handed out is, in order,
    what was pushed, each task once, and the rest is still queued.  No step reads
    outside a buffer or hands out a slot that was not written. *)
Theorem stealing_linear n evs passed s :
  creachable n evs passed s -> Forall room passed ->
  qtrace evs (queue s) /\ all_pushed evs = all_stolen evs ++ queue s
  /\ forall l, label_ok l -> exists s', cstep l s = Ret s'.
Proof.
  intros Hr Hall. destruct (creachable_inv n evs passed s Hr Hall) as [[his Hi] Hq]. split; [done|].
  split; [by apply qtrace_fifo|]. intros l Hl. destruct (cstep_ok l s his Hi Hl) as (s' & ? & _). by exists s'.
Qed.

End stealing.

Arguments cdeque T : clear implicits.
Arguments label T : clear implicits.
Arguments qevent T : clear implicits.

(** Two stealers race for the batch [1, 2, 3]: both read the front, the one
    that takes two tasks wins, the other has to try again and gets the rest
    while the next batch is being written. *)
Definition race : list (label Z) :=
  [LPush [1; 2; 3]; LWorker; LWorker; LWorker; LWorker;
   LStealer 0 (Some 8); LStealer 1 None; LStealer 0 (Some 8); LStealer 1 None; LStealer 0 (Some 8);
   LStealer 1 None; LStealer 1 None; LStealer 1 None;
   LStealer 0 (Some 8); LStealer 0 (Some 8); LStealer 0 (Some 8); LStealer 0 (Some 8); LStealer 1 None;
   LPush [4; 5]; LWorker;
   LStealer 1 None; LStealer 1 None; LStealer 1 None; LStealer 1 None; LStealer 1 None; LStealer 1 None;
   LStealer 1 None].

Example race_events :
  mbind (fun e => match e with QSilent => [] | _ => [e] end) <$> (fst <$> (fst <$> crun race [] [] (cdeque_new 2)))
  = Some [QPushed [1; 2; 3]; QStolen 0 [1; 2]; QStolen 1 [3]].
Proof. vm_compute. reflexivity. Qed.

Lemma stealing_linear_witness :
  exists evs passed s, crun race [] [] (cdeque_new 2) = Some (evs, passed, s)
    /\ all_pushed evs = all_stolen evs ++ queue s /\ exists s', cstep LWorker s = Ret s'.
Proof.
  assert (Hroom : match crun race [] [] (cdeque_new 2) with
    | Some (_, passed, _) => forallb roomb passed | None => false end = true) by (vm_compute; reflexivity).
  destruct (crun race [] [] (cdeque_new 2)) as [[[evs passed] s]|] eqn:E; [|discriminate].
  exists evs, passed, s. split; [done|].
  destruct (stealing_linear 2 evs passed s (crun_reachable 2 race [] [] _ evs passed s (creach_new 2) E))
    as (_ & Hf & Hs).
  { apply Forall_forall. intros x Hx. apply roomb_room. by eapply forallb_forall, list_elem_of_In. }
  split; [done|]. by apply (Hs LWorker).
Defined.

(** The batches of the example configuration: sixteen tasks are pushed, eight
    are taken, and after four more batches there are 72 tasks in 64 slots; the
    next task handed out is the 73rd, not the ninth. *)
Definition pushes (from : Z) : list (label Z) := LPush (seqZ from 16) :: replicate 20 LWorker.

Example unfit_batch :
  mbind (fun e => match e with QStolen _ tasks => [tasks] | _ => [] end)
    <$> (fst <$> (fst <$> crun (pushes 0 ++ replicate 14 (LStealer 0 (Some 8))
                            ++ pushes 16 ++ pushes 32 ++ pushes 48 ++ pushes 64
                            ++ replicate 8 (LStealer 1 None)) [] [] (cdeque_new 2)))
  = Some [seqZ 0 8; [72]].
Proof. vm_compute. reflexivity. Qed.
