(* ===== verification/PortPmap.v ===== *)
(** * Port selection: [controller/strategy/port/pmap.rs] and
    [controller/strategy/port/mod.rs]

    [PmapPortAdapter] keeps a state per address in flight: the ports tried,
    the ports worth trying next, the budget left.  The states come from a
    fixed pool and go back to it. *)

From S2P Require Import Prelude Float Rand Config Tcp Heap PortGraph Deque.

(** [crossbeam_queue::ArrayQueue], from outside the repository: a bounded
    queue whose [push] hands the value back when it is full. *)
Class ArrayQueue (Q : Type -> Type) : Type := {
  q_new {A} : nat -> Q A;
  q_push {A} : Q A -> A -> result A (Q A);
  q_pop {A} : Q A -> option A * Q A;
  (** The contents, the oldest first, and the capacity. *)
  q_items {A} : Q A -> list A;
  q_cap {A} : Q A -> nat;
  q_new_spec {A} n : q_items (@q_new A n) = [] /\ q_cap (@q_new A n) = n;
  q_push_spec {A} (q : Q A) a :
    (length (q_items q) < q_cap q)%nat ->
    exists q', q_push q a = Ok q' /\ q_items q' = q_items q ++ [a] /\ q_cap q' = q_cap q;
  q_push_full {A} (q : Q A) a : (q_cap q <= length (q_items q))%nat -> q_push q a = Err a;
  q_pop_spec {A} (q : Q A) :
    (q_pop q).1 = head (q_items q) /\ q_items (q_pop q).2 = tail (q_items q)
    /\ q_cap (q_pop q).2 = q_cap q }.

(** ** [State] *)

Record PortState : Type := mkState {
  tried_ports : gset Z;
  port_heap : LazyHeap Z score;
  recommendation_index : Z;
  budget_remaining : Z;
  seen_responses : gmap Z Z }.

(** [State::default()]. *)
Definition state_default : PortState := mkState ∅ heap_default 0 0 ∅.

Definition state_clear (self : PortState) (recommendation_index budget : Z) : PortState :=
  mkState ∅ (Heap.clear (port_heap self)) recommendation_index budget ∅.

Definition prob (self : PortState) (graph : PortGraph) (port : Z) : score :=
  match query (port_heap self) port with
  | Some v => v
  | None => base_prob graph port
  end.

(** The [while let] over the recommendations: skips those tried. *)
Fixpoint skip_tried (fuel : nat) (graph : PortGraph) (tried : gset Z) (index : Z) : outcome Z :=
  match fuel with
  | O => Fault OutOfFuel
  | S fuel =>
      match recommend_at graph index with
      | Some port =>
          if bool_decide (port ∈ tried) then skip_tried fuel graph tried (u64_of (index + 1))
          else Ret index
      | None => Ret index
      end
  end.

(** The [loop] over the heap: drops the ports tried from its top. *)
Fixpoint drop_tried (fuel : nat) (tried : gset Z) (heap : LazyHeap Z score)
    : outcome (LazyHeap Z score) :=
  match fuel with
  | O => Fault OutOfFuel
  | S fuel =>
      match top heap with
      | (Some port, heap) =>
          if bool_decide (port ∈ tried) then drop_tried fuel tried (pop heap) else Ret heap
      | (None, heap) => Ret heap
      end
  end.

Definition skip_fuel (graph : PortGraph) (self : PortState) : nat :=
  S (length (recommendations graph) - Z.to_nat (recommendation_index self)).
Definition drop_fuel (self : PortState) : nat := S (size (values (port_heap self))).

Definition next_port (self : PortState) (graph : PortGraph) : outcome (option Z * PortState) :=
  index ← skip_tried (skip_fuel graph self) graph (tried_ports self) (recommendation_index self);
  heap ← drop_tried (drop_fuel self) (tried_ports self) (port_heap self);
  let '(from_heap, heap) := top heap in
  let self := mkState (tried_ports self) heap index (budget_remaining self)
                (seen_responses self) in
  let from_list := recommend_at graph index in
  Ret (match from_heap, from_list with
       | Some a, Some b =>
           (** [prob a > prob b] *)
           if tle (prob self graph a) (prob self graph b) then Some b else Some a
       | Some a, None => Some a
       | None, Some b => Some b
       | None, None => None
       end, self).

(** One turn of the [for] over the co-occurring ports. *)
Definition raise_prob (graph : PortGraph) (base_count : Z) (self : PortState) (e : Z * Z)
    : PortState :=
  let '(other_port, count) := e in
  let conditional_prob := score_ratio count base_count in
  if tle conditional_prob (prob self graph other_port) then self
  else mkState (tried_ports self) (update (port_heap self) other_port conditional_prob)
         (recommendation_index self) (budget_remaining self) (seen_responses self).

Definition record_hit `{HashIter} (self : PortState) (graph : PortGraph) (port hash : Z)
    : bool * PortState :=
  let tried := {[ port ]} ∪ tried_ports self in
  let count := u8_of (default 0 (seen_responses self !! hash) + 1) in
  let self := mkState tried (port_heap self) (recommendation_index self)
                (budget_remaining self) (<[hash := count]> (seen_responses self)) in
  if threshold graph <=? count then (true, self)
  else
    match co_occurring graph port with
    | None => (false, self)
    | Some co =>
        let base_count := open_count graph port in
        if base_count =? 0 then (false, self)
        else (false, foldl (raise_prob graph base_count) self (hiter co))
    end.

Definition record_empty (self : PortState) (port : Z) : PortState :=
  mkState ({[ port ]} ∪ tried_ports self) (port_heap self) (recommendation_index self)
    (budget_remaining self) (seen_responses self).

(** ** [PmapPortAdapter] *)

Record PmapPortAdapter (Q : Type -> Type) : Type := mkPortAdapter {
  states : gmap Ipv4Addr PortState;
  allocated_states : Q PortState;
  pgraph : PortGraph;
  pepsilon : f64;
  budget_per_address : Z;
  source_port : PortRange }.
Arguments mkPortAdapter {Q} _ _ _ _ _ _.
Arguments states {Q} _.
Arguments allocated_states {Q} _.
Arguments pgraph {Q} _.
Arguments pepsilon {Q} _.
Arguments budget_per_address {Q} _.
Arguments source_port {Q} _.

Section adapter.
Context {Q : Type -> Type} `{ArrayQueue Q} `{HashIter} `{Rng R}.
Implicit Types (self : PmapPortAdapter Q) (rng : R).

Definition with_states self (s : gmap Ipv4Addr PortState) (q : Q PortState) : PmapPortAdapter Q :=
  mkPortAdapter s q (pgraph self) (pepsilon self) (budget_per_address self) (source_port self).

(** [allocated_states.push(state).unwrap()]. *)
Definition put_back self (state : PortState) : outcome (PmapPortAdapter Q) :=
  match q_push (allocated_states self) state with
  | Ok q => Ret (with_states self (states self) q)
  | Err _ => Fault Panic
  end.

Fixpoint fill (n : nat) (q : Q PortState) : outcome (Q PortState) :=
  match n with
  | O => Ret q
  | S n =>
      match q_push q state_default with
      | Ok q => fill n q
      | Err _ => Fault Panic
      end
  end.

(** [PortAdapter::new], the graph read from the database.  [ArrayQueue::new]
    panics on a zero capacity. *)
Definition port_new (graph : PortGraph) (epsilon : f64) (budget max_in_flight : Z)
    (source_port : PortRange) : outcome (PmapPortAdapter Q) :=
  if max_in_flight =? 0 then Fault Panic
  else
    q ← fill (Z.to_nat max_in_flight) (q_new (Z.to_nat max_in_flight));
    Ret (mkPortAdapter ∅ q graph epsilon budget source_port).

Definition remove_state self (addr : Ipv4Addr) : outcome (PmapPortAdapter Q) :=
  match states self !! addr with
  | Some state => put_back (with_states self (delete addr (states self)) (allocated_states self)) state
  | None => Ret self
  end.

(** [PmapPortGenerator::guard]: takes a state from the pool. *)
Definition guard self : option PortState * PmapPortAdapter Q :=
  let '(state, q) := q_pop (allocated_states self) in (state, with_states self (states self) q).

Definition first_port self (exploit : bool) rng : Z * R :=
  if exploit then
    match recommend_at (pgraph self) 0 with
    | Some port => (port, rng)
    | None => explore_empty rng
    end
  else explore_empty rng.

(** [PmapPortGenerationGuard::generate]: [state] is the guard's. *)
Definition generate self (state : PortState) (addr : Ipv4Addr) rng
    : outcome (PacketTemplate * PmapPortAdapter Q * R) :=
  let '(u, rng) := random_unit rng in
  let exploit := f64_ge u (pepsilon self) in
  let state := state_clear state (if exploit then 1 else 0) (budget_per_address self) in
  let '(port, rng) := first_port self exploit rng in
  let old := states self !! addr in
  let self := with_states self (<[addr := state]> (states self)) (allocated_states self) in
  self ← match old with Some old => put_back self old | None => Ret self end;
  '(src, rng) ← sample (source_port self) rng;
  Ret (mkTemplate src addr port, self, rng).

(** The next port of [on_result], at random with probability [epsilon]. *)
Definition choose (fuel : nat) self (state : PortState) (u : f64) rng
    : outcome (option Z * PortState * R) :=
  if f64_lt u (pepsilon self) then
    '(next, rng) ← explore fuel (tried_ports state) rng; Ret (next, state, rng)
  else
    '(next, state) ← next_port state (pgraph self);
    match next with
    | Some p => Ret (Some p, state, rng)
    | None => '(next, rng) ← explore fuel (tried_ports state) rng; Ret (next, state, rng)
    end.

(** [on_result] after the result has been recorded in [state]. *)
Definition pick_next (fuel : nat) self (addr : Ipv4Addr) (state : PortState) rng
    : outcome (option PacketTemplate * PmapPortAdapter Q * R) :=
  let state := mkState (tried_ports state) (port_heap state) (recommendation_index state)
                 (Z.max (budget_remaining state - 1) 0) (seen_responses state) in
  let put state := with_states self (<[addr := state]> (states self)) (allocated_states self) in
  if budget_remaining state =? 0 then
    self ← remove_state (put state) addr; Ret (None, self, rng)
  else
    let '(u, rng) := random_unit rng in
    '(next, state, rng) ← choose fuel self state u rng;
    match next with
    | None => self ← remove_state (put state) addr; Ret (None, self, rng)
    | Some next_port =>
        let self := put state in
        '(src, rng) ← sample (source_port self) rng;
        Ret (Some (mkTemplate src addr next_port), self, rng)
    end.

Definition on_result (fuel : nat) self (addr : Ipv4Addr) (port : Z) (hash : option Z) rng
    : outcome (option PacketTemplate * PmapPortAdapter Q * R) :=
  match states self !! addr with
  | None => Ret (None, self, rng)
  | Some state =>
      if bool_decide (port ∈ tried_ports state) then Ret (None, self, rng)
      else
        match hash with
        | Some hash =>
            let '(honeypot, state) := record_hit state (pgraph self) port hash in
            if honeypot then
              let self := with_states self (<[addr := state]> (states self))
                            (allocated_states self) in
              self ← remove_state self addr; Ret (None, self, rng)
            else pick_next fuel self addr state rng
        | None => pick_next fuel self addr (record_empty state port) rng
        end
  end.

(** ** [PmapPortExpirer] *)

Definition Expiry : Type := Z * Ipv4Addr.

Record PmapPortExpirer : Type := mkExpirer {
  expiries : Deque Expiry;
  pending : option Expiry;
  exp_batch_size : nat }.

(** The inner [loop]: steals until it is not asked to retry. *)
Fixpoint steal_next (fuel : nat) (d : Deque Expiry) : outcome (option Expiry * Deque Expiry) :=
  match fuel with
  | O => Fault OutOfFuel
  | S fuel =>
      '(s, d) ← steal d;
      match s with
      | Empty => Ret (None, d)
      | Success e => Ret (Some e, d)
      | Retry => steal_next fuel d
      end
  end.

(** The entry left over from the last call, or the next one of the queue. *)
Definition next_expiry (exp : PmapPortExpirer) : outcome (option Expiry * Deque Expiry) :=
  match pending exp with
  | Some e => Ret (Some e, expiries exp)
  | None => steal_next 1 (expiries exp)
  end.

Fixpoint expire_loop (n : nat) (exp : PmapPortExpirer) self (now : Z)
    : outcome (PmapPortExpirer * PmapPortAdapter Q) :=
  match n with
  | O => Ret (exp, self)
  | S n =>
      '(e, d) ← next_expiry exp;
      let exp := mkExpirer d None (exp_batch_size exp) in
      match e with
      | None => Ret (exp, self)
      | Some (expires_at, key) =>
          if now <? expires_at then Ret (mkExpirer d (Some (expires_at, key)) (exp_batch_size exp), self)
          else
            self ← remove_state self key;
            expire_loop n exp self now
      end
  end.

Definition expire (exp : PmapPortExpirer) self (now : Z)
    : outcome (PmapPortExpirer * PmapPortAdapter Q) :=
  expire_loop (exp_batch_size exp) exp self now.

End adapter.

(** ** Specification *)

Definition graph_ok (graph : PortGraph) : Prop := zlen (recommendations graph) < 2 ^ 63.

Record state_wf (graph : PortGraph) (s : PortState) : Prop := {
  st_heap : heap_wf (port_heap s);
  st_index : 0 <= recommendation_index s <= zlen (recommendations graph) + 1 }.

(** Every state is in the pool, in the map or held by one of [held] guards. *)
Record pool_wf {Q} `{ArrayQueue Q} (cap held : nat) (self : PmapPortAdapter Q) : Prop := {
  pool_graph : graph_ok (pgraph self);
  pool_ports : port_range_ok (source_port self);
  pool_cap : q_cap (allocated_states self) = cap;
  pool_count : (length (q_items (allocated_states self)) + size (states self) + held <= cap)%nat;
  pool_states addr s : states self !! addr = Some s -> state_wf (pgraph self) s }.

(** ** Lemmas on one state *)

Section state_lemmas.
Context (graph : PortGraph) (Hgraph : graph_ok graph).
Implicit Types (s : PortState) (h : LazyHeap Z score) (tried : gset Z).

Lemma skip_tried_ok fuel : forall tried index,
  0 <= index <= zlen (recommendations graph) + 1 ->
  (length (recommendations graph) - Z.to_nat index < fuel)%nat ->
  exists index', skip_tried fuel graph tried index = Ret index'
    /\ index <= index' <= zlen (recommendations graph) + 1
    /\ (forall j p, index <= j < index' -> recommend_at graph j = Some p -> p ∈ tried)
    /\ (forall p, recommend_at graph index' = Some p -> p ∉ tried).
Proof.
  induction fuel as [|fuel IH]; intros tried index Hi Hf; [lia|]. cbn [skip_tried].
  destruct (recommend_at graph index) as [p|] eqn:Er.
  - unfold recommend_at in Er. apply lookup_lt_Some in Er as Hlt.
    case_bool_decide as Hin.
    + unfold graph_ok in Hgraph. assert (Hu : u64_of (index + 1) = index + 1).
      { apply wrap_small. unfold in_width. lia. }
      rewrite Hu. destruct (IH tried (index + 1)) as (index' & -> & Hle & Hsk & Hnt); [lia..|].
      exists index'. split_and!; [done|lia..| |done]. intros j q Hj Hq.
      destruct (decide (j = index)) as [->|]; [|apply (Hsk j); [lia|done]].
      unfold recommend_at in Hq. congruence.
    + exists index. split_and!; [done|lia..| |]; [lia|].
      intros q Hq. unfold recommend_at in Hq. congruence.
  - exists index. split_and!; [done|lia..| |]; [lia|]. intros q Hq. congruence.
Qed.

Lemma drop_tried_ok fuel : forall tried h,
  heap_wf h -> (size (values h) < fuel)%nat ->
  exists h', drop_tried fuel tried h = Ret h' /\ heap_wf h'
    /\ (forall p, p ∉ tried -> values h' !! p = values h !! p)
    /\ (forall p v, values h' !! p = Some v -> values h !! p = Some v)
    /\ match (top h').1 with Some p => p ∉ tried | None => True end.
Proof.
  induction fuel as [|fuel IH]; intros tried h Hh Hf; [lia|]. cbn [drop_tried].
  pose proof (top_wf h Hh) as (Hw & Hv & Ht). destruct (top h) as [[p|] h1] eqn:Et; cbn [fst snd] in *.
  - pose proof (top_wf h1 Hw) as (Hw2 & _ & Ht2). destruct Ht as (v & Hpv & Hmax).
    assert (Htop : (top h1).1 = Some p).
    { rewrite Hv in Ht2. destruct (top h1).1 as [p'|].
      - destruct Ht2 as (v' & Hp' & Hmax'). f_equal.
        pose proof (Hmax _ _ Hp') as Hle1. pose proof (Hmax' _ _ Hpv) as Hle2.
        pose proof (tle_antisym _ _ Hle1 Hle2). by simplify_eq.
      - by rewrite Ht2 in Hpv. }
    pose proof (pop_wf h1 Hw) as [Hwp Hvp]. rewrite Htop, Hv in Hvp.
    case_bool_decide as Hin.
    + destruct (IH tried (pop h1) Hwp) as (h' & -> & Hw' & Hkeep & Hsub & Hnt).
      { rewrite Hvp, map_size_delete_Some by eauto.
        assert (size (values h) <> 0%nat) by (rewrite map_size_empty_iff; intros He; by rewrite He in Hpv).
        lia. }
      exists h'. split_and!; [done..| | |done].
      * intros q Hq. rewrite Hkeep, Hvp, lookup_delete_ne; [done| |done]. by intros ->.
      * intros q w Hq. apply Hsub in Hq. rewrite Hvp in Hq.
        by apply lookup_delete_Some in Hq as [_ ?].
    + exists h1. rewrite Hv, Htop. done.
  - exists h1. split_and!; [done..| | |]; [by rewrite Hv..|].
    pose proof (top_wf h1 Hw) as (_ & _ & Ht2). rewrite Hv, Ht in Ht2.
    destruct (top h1).1; [|done]. destruct Ht2 as (? & Hn & _). done.
Qed.

(** The first recommendation not tried is where the scan of them stops. *)
Lemma first_untried index0 tried index j p :
  index0 <= index ->
  (forall j p, index0 <= j < index -> recommend_at graph j = Some p -> p ∈ tried) ->
  (forall p, recommend_at graph index = Some p -> p ∉ tried) ->
  index0 <= j -> 0 <= index0 -> recommend_at graph j = Some p -> p ∉ tried ->
  (forall i q, index0 <= i < j -> recommend_at graph i = Some q -> q ∈ tried) ->
  recommend_at graph index = Some p.
Proof.
  intros Hle Hskip Hnot Hj H0 Hp Hnt Hall.
  destruct (Z.lt_trichotomy index j) as [Hlt|[->|Hgt]]; [|done|].
  - destruct (recommend_at graph index) as [q|] eqn:Eq.
    + exfalso. apply (Hnot q eq_refl). apply (Hall index); [lia|done].
    + unfold recommend_at in *. apply lookup_ge_None in Eq. apply lookup_lt_Some in Hp. lia.
  - exfalso. apply Hnt. apply (Hskip j); [lia|done].
Qed.

(** What [next_port] chooses from: the top of the heap once the ports tried
    are dropped, and the first recommendation not tried. *)
Lemma next_port_sources s :
  state_wf graph s ->
  exists a b s',
    next_port s graph = Ret (match a, b with
      | Some a, Some b =>
          if tle (prob s graph a) (prob s graph b) then Some b else Some a
      | Some a, None => Some a
      | None, b => b
      end, s')
    /\ state_wf graph s' /\ tried_ports s' = tried_ports s
    /\ budget_remaining s' = budget_remaining s /\ seen_responses s' = seen_responses s
    /\ (forall p, a = Some p \/ b = Some p -> p ∉ tried_ports s)
    /\ (forall p v, p ∉ tried_ports s -> query (port_heap s) p = Some v ->
          exists q, a = Some q /\ tle v (prob s graph q) = true)
    /\ (forall j p, recommendation_index s <= j -> recommend_at graph j = Some p ->
          p ∉ tried_ports s ->
          (forall i q, recommendation_index s <= i < j -> recommend_at graph i = Some q ->
             q ∈ tried_ports s) -> b = Some p).
Proof.
  intros [Hh Hi]. unfold next_port.
  destruct (skip_tried_ok (skip_fuel graph s) (tried_ports s) (recommendation_index s))
    as (index & -> & Hix & Hskip & Hnot); [done|unfold skip_fuel; lia|].
  destruct (drop_tried_ok (drop_fuel s) (tried_ports s) (port_heap s))
    as (h & -> & Hw & Hkeep & Hsub & Htop); [done|unfold drop_fuel; lia|].
  cbn [mbind outcome_bind]. pose proof (top_wf h Hw) as (Hw' & Hv & Ht).
  destruct (top h) as [a h'] eqn:Et. cbn [fst snd] in *. set (s' := mkState _ _ _ _ _).
  assert (Hprob : forall p, p ∉ tried_ports s -> prob s' graph p = prob s graph p).
  { intros p Hp. unfold prob, query. simpl. by rewrite Hv, Hkeep. }
  exists a, (recommend_at graph index), s'. split_and!; try done.
  - destruct a as [a|], (recommend_at graph index) as [b|]; try done.
    by rewrite !Hprob by auto.
  - constructor; [done|simpl; lia].
  - intros p [->|Hb]; auto.
  - intros p v Hp Hq. unfold query in Hq. rewrite <- Hkeep in Hq by done.
    destruct a as [a|]; [|by rewrite Ht in Hq]. exists a. split; [done|].
    destruct Ht as (w & Ha & Hmax). unfold prob, query. rewrite (Hsub _ _ Ha).
    by apply (tle_fst _ _ p a), Hmax.
  - intros j p Hj Hp Hnt Hall.
    apply (first_untried (recommendation_index s) (tried_ports s) index j); auto with lia.
Qed.

(** The port chosen has not been tried and is the best on offer. *)
Lemma next_port_ok s :
  state_wf graph s ->
  exists o s', next_port s graph = Ret (o, s') /\ state_wf graph s'
    /\ tried_ports s' = tried_ports s /\ budget_remaining s' = budget_remaining s
    /\ seen_responses s' = seen_responses s
    /\ (forall p, o = Some p -> p ∉ tried_ports s)
    /\ (forall p, p ∉ tried_ports s -> is_Some (query (port_heap s) p) ->
          exists q, o = Some q /\ tle (prob s graph p) (prob s graph q) = true)
    /\ (forall j p, recommendation_index s <= j -> recommend_at graph j = Some p ->
          p ∉ tried_ports s ->
          (forall i q, recommendation_index s <= i < j -> recommend_at graph i = Some q ->
             q ∈ tried_ports s) ->
          exists q, o = Some q /\ tle (prob s graph p) (prob s graph q) = true).
Proof.
  intros Hwf. destruct (next_port_sources s Hwf)
    as (a & b & s' & -> & Hs' & Htr & Hbu & Hse & Hnt & Hheap & Hlist).
  eexists _, _. split; [done|]. split_and!; try done.
  - intros p Hp. destruct a as [a|], b as [b|]; simplify_eq; auto.
    destruct (tle _ _); simplify_eq; auto.
  - intros p Hp [v Hq]. destruct (Hheap p v Hp Hq) as (q & -> & Hle).
    assert (Hpv : prob s graph p = v) by (unfold prob; by rewrite Hq). rewrite Hpv.
    destruct b as [b|]; [|by eauto].
    destruct (tle (prob s graph q) (prob s graph b)) eqn:E; eauto using tle_trans.
  - intros j p Hj Hp Hn Hall. rewrite (Hlist j p Hj Hp Hn Hall).
    destruct a as [a|]; [|eauto using tle_refl].
    destruct (tle (prob s graph a) (prob s graph p)) eqn:E; [eauto using tle_refl|].
    apply tle_false in E as [? _]. eauto.
Qed.

(** A turn of the loop over the co-occurring ports. *)
Lemma raise_prob_spec base s p c q :
  prob (raise_prob graph base s (p, c)) graph q
  = if decide (q = p) then
      if tle (score_ratio c base) (prob s graph p) then prob s graph p else score_ratio c base
    else prob s graph q.
Proof.
  unfold raise_prob. destruct (tle _ _); case_decide; subst; try done.
  - unfold prob at 1, query, update. simpl. by rewrite lookup_insert_eq.
  - unfold prob, query, update. simpl. by rewrite lookup_insert_ne.
Qed.

Lemma raise_prob_frame base s e :
  let s' := raise_prob graph base s e in
  tried_ports s' = tried_ports s /\ recommendation_index s' = recommendation_index s
  /\ budget_remaining s' = budget_remaining s /\ seen_responses s' = seen_responses s
  /\ (heap_wf (port_heap s) -> heap_wf (port_heap s')).
Proof.
  destruct e as [p c]. unfold raise_prob. destruct (tle _ _); [done|]. simpl. split_and!; try done.
  intros Hh. by apply update_wf.
Qed.

Lemma raise_all_frame base l : forall s,
  let s' := foldl (raise_prob graph base) s l in
  tried_ports s' = tried_ports s /\ recommendation_index s' = recommendation_index s
  /\ budget_remaining s' = budget_remaining s /\ seen_responses s' = seen_responses s
  /\ (heap_wf (port_heap s) -> heap_wf (port_heap s')).
Proof.
  induction l as [|e l IH]; intros s; simpl; [done|].
  destruct (raise_prob_frame base s e) as (E1 & E2 & E3 & E4 & Hh).
  destruct (IH (raise_prob graph base s e)) as (F1 & F2 & F3 & F4 & Hh').
  split_and!; congruence || auto.
Qed.

(** Whatever the order of the iteration, each co-occurring port ends with the
    greater of its probability and the conditional one. *)
Lemma raise_all_spec base l : forall s q,
  NoDup l.*1 ->
  prob (foldl (raise_prob graph base) s l) graph q
  = match (list_to_map l : gmap Z Z) !! q with
    | Some c => if tle (score_ratio c base) (prob s graph q) then prob s graph q
                else score_ratio c base
    | None => prob s graph q
    end.
Proof.
  induction l as [|[p c] l IH]; intros s q Hnd; [done|].
  apply NoDup_cons in Hnd as [Hn Hnd]. cbn [foldl]. rewrite IH, raise_prob_spec by done.
  cbn [list_to_map foldr]. simpl. case_decide as He.
  - subst. rewrite lookup_insert_eq, not_elem_of_list_to_map_1 by done. done.
  - by rewrite lookup_insert_ne by congruence.
Qed.

End state_lemmas.

Section hit.
Context `{HashIter}.

Lemma record_hit_frame graph s port hash :
  let s' := (record_hit s graph port hash).2 in
  tried_ports s' = {[ port ]} ∪ tried_ports s
  /\ recommendation_index s' = recommendation_index s
  /\ budget_remaining s' = budget_remaining s
  /\ seen_responses s' =
       <[hash := u8_of (default 0 (seen_responses s !! hash) + 1)]> (seen_responses s)
  /\ (heap_wf (port_heap s) -> heap_wf (port_heap s')).
Proof.
  unfold record_hit. case_cmp_step; [done|]. destruct (co_occurring graph port) as [co|]; [|done].
  case_cmp_step; [done|]. cbn [snd].
  match goal with
  | |- context [foldl (raise_prob graph ?b) ?s1 ?l] =>
      destruct (raise_all_frame graph b l s1) as (-> & -> & -> & -> & Hh)
  end. done.
Qed.

Lemma record_hit_honeypot graph s port hash :
  (record_hit s graph port hash).1
  = (threshold graph <=? u8_of (default 0 (seen_responses s !! hash) + 1)).
Proof.
  unfold record_hit. case_cmp_step; [done|]. destruct (co_occurring graph port); [|done].
  by case_cmp_step.
Qed.

Lemma record_hit_prob graph s port hash q :
  (record_hit s graph port hash).1 = false ->
  prob (record_hit s graph port hash).2 graph q
  = match default ∅ (co_occurring graph port) !! q with
    | Some c =>
        if open_count graph port =? 0 then prob s graph q
        else if tle (score_ratio c (open_count graph port)) (prob s graph q) then prob s graph q
        else score_ratio c (open_count graph port)
    | None => prob s graph q
    end.
Proof.
  unfold record_hit. case_cmp_step; [done|]. intros _.
  destruct (co_occurring graph port) as [co|]; cbn [fst snd default from_option]; [|done].
  case_cmp_step; [by destruct (id co !! q)|]. cbn [snd]. rewrite raise_all_spec.
  - rewrite (list_to_map_proper _ _) by
      (try apply hiter_perm; rewrite hiter_perm; apply NoDup_fst_map_to_list).
    rewrite list_to_map_to_list. unfold id. by destruct (co !! q).
  - rewrite hiter_perm. apply NoDup_fst_map_to_list.
Qed.

End hit.

(** ** Lemmas on the adapter *)

Section adapter_lemmas.
Context {Q : Type -> Type} `{ArrayQueue Q} `{HashIter} `{Rng R}.
Implicit Types (self : PmapPortAdapter Q) (rng : R).

Definition same_config self self' : Prop :=
  pgraph self' = pgraph self /\ pepsilon self' = pepsilon self
  /\ budget_per_address self' = budget_per_address self /\ source_port self' = source_port self.

Lemma same_config_refl self : same_config self self.
Proof. done. Qed.

(** A state in hand fits in the pool. *)
Lemma put_back_ok cap held self st :
  pool_wf cap (S held) self ->
  exists self', put_back self st = Ret self' /\ pool_wf cap held self'
    /\ states self' = states self /\ same_config self self'.
Proof.
  intros [Hg Hp Hc Hn Hs]. unfold put_back.
  destruct (q_push_spec (allocated_states self) st) as (q & -> & Hi & Hcap); [lia|].
  eexists. split; [done|]. split_and!; [|done..].
  constructor; simpl; try done; [congruence|]. rewrite Hi, length_app. simpl. lia.
Qed.

Lemma take_out cap held self addr st :
  pool_wf cap held self -> states self !! addr = Some st ->
  pool_wf cap (S held)
    (with_states self (delete addr (states self)) (allocated_states self)).
Proof.
  intros [Hg Hp Hc Hn Hs] Ha. constructor; simpl; try done.
  - rewrite map_size_delete_Some by eauto.
    assert (size (states self) <> 0%nat)
      by (rewrite map_size_empty_iff; intros He; by rewrite He in Ha). lia.
  - intros a s [_ Hin]%lookup_delete_Some. by eapply Hs.
Qed.

Lemma remove_state_ok cap held self addr :
  pool_wf cap held self ->
  exists self', remove_state self addr = Ret self' /\ pool_wf cap held self'
    /\ states self' = delete addr (states self) /\ same_config self self'.
Proof.
  intros Hwf. unfold remove_state. destruct (states self !! addr) as [st|] eqn:Ha.
  - destruct (put_back_ok cap held _ st (take_out _ _ _ _ _ Hwf Ha)) as (self' & -> & Hw & Hst & Hcfg).
    by exists self'.
  - exists self. split_and!; [done..| |apply same_config_refl]. by rewrite delete_id.
Qed.

(** Overwriting the entry of an address keeps the count. *)
Lemma overwrite cap held self addr old st :
  pool_wf cap held self -> states self !! addr = Some old -> state_wf (pgraph self) st ->
  pool_wf cap held (with_states self (<[addr := st]> (states self)) (allocated_states self)).
Proof.
  intros [Hg Hp Hc Hn Hs] Ha Hst. constructor; simpl; try done.
  - rewrite map_size_insert_Some by eauto. done.
  - intros a s [[<- <-]|[_ Hin]]%lookup_insert_Some; [done|]. by eapply Hs.
Qed.

Lemma guard_ok cap held self :
  pool_wf cap held self ->
  states (guard self).2 = states self /\ same_config self (guard self).2
  /\ match (guard self).1 with
     | Some _ => pool_wf cap (S held) (guard self).2
     | None => pool_wf cap held (guard self).2 /\ q_items (allocated_states self) = []
     end.
Proof.
  intros [Hg Hp Hc Hn Hs]. unfold guard.
  pose proof (q_pop_spec (allocated_states self)) as (Hh & Ht & Hcap).
  destruct (q_pop (allocated_states self)) as [o q]. cbn [fst snd] in *.
  split_and!; [done..|]. subst o. destruct (q_items (allocated_states self)) as [|st l] eqn:Ei;
    simpl in *.
  - split; [|done]. constructor; simpl; try done; [congruence|]. rewrite Ht. simpl. lia.
  - constructor; simpl; try done; [congruence|]. rewrite Ht. lia.
Qed.

(** The state a probe of an address starts from. *)
Definition fresh_state (budget : Z) (s : PortState) : Prop :=
  tried_ports s = ∅ /\ values (port_heap s) = ∅ /\ budget_remaining s = budget
  /\ seen_responses s = ∅.

Lemma generate_ok cap held self st addr rng :
  pool_wf cap (S held) self ->
  exists t self' rng' st', generate self st addr rng = Ret (t, self', rng')
    /\ pool_wf cap held self' /\ same_config self self'
    /\ states self' = <[addr := st']> (states self)
    /\ fresh_state (budget_per_address self) st'
    /\ t_ip t = addr /\ t_source_port t ∈ as_vec (source_port self).
Proof.
  intros Hwf. unfold generate. destruct (random_unit rng) as [u rng1].
  set (st' := state_clear _ _ _). destruct (first_port self _ rng1) as [port rng2].
  assert (Hst : state_wf (pgraph self) st').
  { constructor; [apply heap_default_wf|]. simpl. destruct (f64_ge _ _); lia. }
  set (self1 := with_states self (<[addr := st']> (states self)) (allocated_states self)).
  assert (exists self2, match states self !! addr with
      | Some old => put_back self1 old | None => Ret self1 end = Ret self2
    /\ pool_wf cap held self2 /\ states self2 = states self1 /\ same_config self self2)
    as (self2 & -> & Hw & Hs & Hcfg).
  { destruct (states self !! addr) as [old|] eqn:Ha.
    - destruct (put_back_ok cap held self1 old) as (self2 & ? & ? & ? & ?);
        [by eapply overwrite|]. by exists self2.
    - exists self1. split_and!; [done| |done..]. destruct Hwf as [Hg Hp Hc Hn Hall].
      constructor; simpl; try done.
      + rewrite map_size_insert_None by done. lia.
      + intros a s [[<- <-]|[_ Hin]]%lookup_insert_Some; [done|]. by eapply Hall. }
  cbn [mbind outcome_bind]. destruct (sample_ok (source_port self2) rng2) as (p & rng3 & -> & Hp).
  { apply Hw. }
  cbn [mbind outcome_bind]. destruct Hcfg as (? & ? & ? & Hsp).
  eexists _, _, _, st'. split; [done|]. split_and!; try done. simpl. congruence.
Qed.

Lemma explore_cases fuel tried rng :
  match explore fuel tried rng with
  | Fault f => f = OutOfFuel
  | Ret (Some p, _) => p ∉ tried
  | Ret (None, _) => 65535 <= Z.of_nat (size tried)
  end.
Proof.
  destruct (explore fuel tried rng) as [[[p|] rng']|f] eqn:E.
  - by apply explore_ok in E as [_ ?].
  - unfold explore in E. case_cmp_step; [done|]. by apply explore_loop_ok in E as (? & ? & _).
  - unfold explore in E. case_cmp_step; [done|]. clear -E. revert rng E.
    induction fuel as [|fuel IH]; intros rng E; simpl in E; [by simplify_eq|].
    destruct (explore_empty rng) as [c rng']. case_bool_decide; [by eapply IH|done].
Qed.

(** What a recorded result leads to: another probe, or the end of the budget
    or of the ports. *)
Definition next_probe self (addr : Ipv4Addr) (st : PortState) (t : option PacketTemplate)
    self' : Prop :=
  match t with
  | Some t =>
      t_ip t = addr /\ t_source_port t ∈ as_vec (source_port self)
      /\ (t_destination_port t ∉ tried_ports st)
      /\ exists st', states self' = <[addr := st']> (states self)
           /\ tried_ports st' = tried_ports st /\ seen_responses st' = seen_responses st
           /\ budget_remaining st' = budget_remaining st - 1 /\ 0 < budget_remaining st'
  | None =>
      states self' = delete addr (states self)
      /\ (budget_remaining st <= 1 \/ 65535 <= Z.of_nat (size (tried_ports st)))
  end.

Lemma choose_cases fuel self st u rng :
  graph_ok (pgraph self) -> state_wf (pgraph self) st ->
  match choose fuel self st u rng with
  | Fault f => f = OutOfFuel
  | Ret (o, st', _) =>
      state_wf (pgraph self) st' /\ tried_ports st' = tried_ports st
      /\ budget_remaining st' = budget_remaining st /\ seen_responses st' = seen_responses st
      /\ match o with
         | Some p => p ∉ tried_ports st
         | None => 65535 <= Z.of_nat (size (tried_ports st))
         end
  end.
Proof.
  intros Hg Hst. unfold choose. destruct (f64_lt u (pepsilon self)).
  - pose proof (explore_cases fuel (tried_ports st) rng) as He.
    destruct (explore fuel (tried_ports st) rng) as [[[p|] rng']|f]; done.
  - destruct (next_port_ok (pgraph self) Hg st Hst)
      as (o & st' & -> & Hw & Htr & Hbu & Hse & Hnt & _). cbn [mbind outcome_bind].
    destruct o as [p|]; [auto 6|]. rewrite Htr.
    pose proof (explore_cases fuel (tried_ports st) rng) as He.
    destruct (explore fuel (tried_ports st) rng) as [[[p|] rng']|f]; simpl; done.
Qed.

Lemma choose_total `{!FairRng R} self st u rng :
  graph_ok (pgraph self) -> state_wf (pgraph self) st ->
  exists fuel a, choose fuel self st u rng = Ret a.
Proof.
  intros Hg Hst. unfold choose. destruct (f64_lt u (pepsilon self)).
  - destruct (explore_total (tried_ports st) rng) as (fuel & o & rng' & He). exists fuel.
    rewrite He. by eexists.
  - destruct (next_port_ok (pgraph self) Hg st Hst) as (o & st' & -> & _).
    cbn [mbind outcome_bind]. destruct o as [p|]; [by exists 0%nat; eexists|].
    destruct (explore_total (tried_ports st') rng) as (fuel & o & rng' & He). exists fuel.
    rewrite He. by eexists.
Qed.

Lemma pick_next_cases cap held fuel self addr old st rng :
  pool_wf cap held self -> states self !! addr = Some old -> state_wf (pgraph self) st ->
  match pick_next fuel self addr st rng with
  | Fault f => f = OutOfFuel
  | Ret (t, self', _) =>
      pool_wf cap held self' /\ same_config self self' /\ next_probe self addr st t self'
  end.
Proof.
  intros Hwf Ha Hst. unfold pick_next. set (st1 := mkState _ _ _ _ _).
  assert (Hst1 : state_wf (pgraph self) st1) by (destruct Hst; by constructor).
  assert (Hput : forall s, state_wf (pgraph self) s -> pool_wf cap held
    (with_states self (<[addr := s]> (states self)) (allocated_states self))).
  { intros s Hs. by eapply overwrite. }
  destruct (Z.eqb_spec (budget_remaining st1) 0) as [Hb|Hb].
  { destruct (remove_state_ok cap held _ addr (Hput st1 Hst1)) as (self' & -> & Hw & Hs & Hcfg).
    cbn [mbind outcome_bind]. split_and!; [done..|]. simpl in *. split; [|lia].
    rewrite Hs. by rewrite delete_insert_eq. }
  destruct (random_unit rng) as [u rng1].
  pose proof (choose_cases fuel self st1 u rng1 (pool_graph _ _ _ Hwf) Hst1) as Hch.
  destruct (choose fuel self st1 u rng1) as [[[[p|] st2] rng2]|f]; cbn [mbind outcome_bind]; [| |done].
  - destruct Hch as (Hst2 & Htr & Hbu & Hse & Hp). specialize (Hput st2 Hst2).
    destruct (sample_ok (source_port self) rng2) as (src & rng3 & Hsrc & Hin); [apply Hwf|].
    cbn [source_port with_states]. rewrite Hsrc. cbn [mbind outcome_bind].
    split_and!; [done..|]. split_and!; try done. exists st2. simpl in *. split_and!; [done..|lia|lia].
  - destruct Hch as (Hst2 & Htr & Hbu & Hse & Hfull).
    destruct (remove_state_ok cap held _ addr (Hput st2 Hst2)) as (self' & -> & Hw & Hs & Hcfg).
    cbn [mbind outcome_bind]. split_and!; [done..|]. simpl in *. split; [|by right].
    rewrite Hs. by rewrite delete_insert_eq.
Qed.

Lemma pick_next_total `{!FairRng R} cap held self addr old st rng :
  pool_wf cap held self -> states self !! addr = Some old -> state_wf (pgraph self) st ->
  exists fuel a, pick_next fuel self addr st rng = Ret a.
Proof.
  intros Hwf Ha Hst. unfold pick_next. set (st1 := mkState _ _ _ _ _).
  assert (Hst1 : state_wf (pgraph self) st1) by (destruct Hst; by constructor).
  assert (Hput : forall s, state_wf (pgraph self) s -> exists self', remove_state
    (with_states self (<[addr := s]> (states self)) (allocated_states self)) addr = Ret self').
  { intros s Hs. assert (Hw : pool_wf cap held
      (with_states self (<[addr := s]> (states self)) (allocated_states self)))
      by (by eapply overwrite).
    destruct (remove_state_ok cap held _ addr Hw) as (self' & -> & _). eauto. }
  destruct (budget_remaining st1 =? 0).
  { exists 0%nat. destruct (Hput st1 Hst1) as [self' ->]. simpl. eauto. }
  destruct (random_unit rng) as [u rng1].
  destruct (choose_total self st1 u rng1 (pool_graph _ _ _ Hwf) Hst1) as (fuel & [[o st2] rng2] & Hc).
  exists fuel. pose proof (choose_cases fuel self st1 u rng1 (pool_graph _ _ _ Hwf) Hst1) as Hch.
  rewrite Hc in *. cbn [mbind outcome_bind]. destruct Hch as (Hst2 & _). destruct o as [p|].
  - cbn [source_port with_states].
    destruct (sample_ok (source_port self) rng2) as (src & rng3 & -> & _); [apply Hwf|]. simpl. eauto.
  - destruct (Hput st2 Hst2) as [self' ->]. simpl. eauto.
Qed.

(** The state with the result recorded, and whether it is a honeypot's. *)
Definition recorded self (st : PortState) (port : Z) (hash : option Z) : bool * PortState :=
  match hash with
  | Some hash => record_hit st (pgraph self) port hash
  | None => (false, record_empty st port)
  end.

Lemma recorded_wf self st port hash :
  state_wf (pgraph self) st ->
  state_wf (pgraph self) (recorded self st port hash).2
  /\ tried_ports (recorded self st port hash).2 = {[ port ]} ∪ tried_ports st
  /\ budget_remaining (recorded self st port hash).2 = budget_remaining st.
Proof.
  intros [Hh Hi]. destruct hash as [hash|]; simpl.
  - destruct (record_hit_frame (pgraph self) st port hash) as (Ht & Hx & Hb & _ & Hw).
    split_and!; [|done..]. constructor; [auto|by rewrite Hx].
  - split_and!; try done.
Qed.

(** What one call of [on_result] does, by what is known of the address. *)
Definition result_spec self (addr : Ipv4Addr) (port : Z) (hash : option Z)
    (t : option PacketTemplate) self' : Prop :=
  match states self !! addr with
  | None => t = None /\ states self' = states self
  | Some st =>
      if decide (port ∈ tried_ports st) then t = None /\ states self' = states self
      else if (recorded self st port hash).1 then
        t = None /\ states self' = delete addr (states self)
      else next_probe self addr (recorded self st port hash).2 t self'
  end.

Lemma on_result_unfold fuel self addr port hash rng :
  on_result fuel self addr port hash rng =
  match states self !! addr with
  | None => Ret (None, self, rng)
  | Some st =>
      if decide (port ∈ tried_ports st) then Ret (None, self, rng)
      else
        let '(honeypot, st) := recorded self st port hash in
        if honeypot then
          self ← remove_state (with_states self (<[addr := st]> (states self))
                   (allocated_states self)) addr; Ret (None, self, rng)
        else pick_next fuel self addr st rng
  end.
Proof.
  unfold on_result. destruct (states self !! addr) as [st|]; [|done].
  case_bool_decide; case_decide; try done. by destruct hash.
Qed.

Lemma on_result_cases cap held fuel self addr port hash rng :
  pool_wf cap held self ->
  match on_result fuel self addr port hash rng with
  | Fault f => f = OutOfFuel
  | Ret (t, self', _) =>
      pool_wf cap held self' /\ same_config self self' /\ result_spec self addr port hash t self'
  end.
Proof.
  intros Hwf. rewrite on_result_unfold. unfold result_spec.
  destruct (states self !! addr) as [st|] eqn:Ha; [|done]. case_decide as Hin; [done|].
  pose proof (pool_states _ _ _ Hwf _ _ Ha) as Hst.
  destruct (recorded_wf self st port hash Hst) as (Hst1 & _ & _).
  destruct (recorded self st port hash) as [honeypot st1]; cbn [fst snd] in *.
  destruct honeypot; [|by eapply pick_next_cases].
  destruct (remove_state_ok cap held _ addr (overwrite _ _ _ _ _ _ Hwf Ha Hst1))
    as (self' & -> & Hw & Hs & Hcfg). cbn [mbind outcome_bind]. split_and!; [done..|].
  rewrite Hs. simpl. by rewrite delete_insert_eq.
Qed.

(** No address is started: those that have a state had one before. *)
Definition starts_none self self' : Prop := dom (states self') ⊆ dom (states self).

#[global] Instance starts_none_preorder : PreOrder starts_none.
Proof. unfold starts_none. split; [intros x|intros x y z]; set_solver. Qed.

Lemma starts_none_delete self self' addr :
  states self' = delete addr (states self) -> starts_none self self'.
Proof. intros E. unfold starts_none. rewrite E, dom_delete_L. set_solver. Qed.

Lemma on_result_starts_none self addr port hash t self' :
  result_spec self addr port hash t self' -> starts_none self self'.
Proof.
  unfold result_spec. destruct (states self !! addr) as [st|] eqn:Ha.
  2: { intros [_ E]. unfold starts_none. by rewrite E. }
  case_decide; [intros [_ E]; unfold starts_none; by rewrite E|].
  destruct (recorded self st port hash).1; [by intros [_ ?%starts_none_delete]|].
  destruct t as [t|]; [|by intros [?%starts_none_delete _]].
  intros (_ & _ & _ & st' & E & _). unfold starts_none. rewrite E, dom_insert_L.
  apply elem_of_dom_2 in Ha. set_solver.
Qed.

Lemma on_result_total `{!FairRng R} cap held self addr port hash rng :
  pool_wf cap held self -> exists fuel a, on_result fuel self addr port hash rng = Ret a.
Proof.
  intros Hwf. setoid_rewrite on_result_unfold.
  destruct (states self !! addr) as [st|] eqn:Ha; [|by exists 0%nat; eexists].
  case_decide as Hin; [by exists 0%nat; eexists|].
  pose proof (pool_states _ _ _ Hwf _ _ Ha) as Hst.
  destruct (recorded_wf self st port hash Hst) as (Hst1 & _ & _).
  destruct (recorded self st port hash) as [honeypot st1]; cbn [fst snd] in *.
  destruct honeypot; [|by eapply pick_next_total].
  destruct (remove_state_ok cap held _ addr (overwrite _ _ _ _ _ _ Hwf Ha Hst1))
    as (self' & -> & _). by exists 0%nat; eexists.
Qed.

(** The deadlines an expirer has yet to see. *)
Definition waiting (exp : PmapPortExpirer) (tasks : list Expiry) : list Expiry :=
  match pending exp with Some e => e :: tasks | None => tasks end.

Lemma next_expiry_ok exp tasks :
  deque_wf (expiries exp) tasks ->
  exists d' tasks', next_expiry exp = Ret (head (waiting exp tasks), d') /\ deque_wf d' tasks'
    /\ tasks' = tail (waiting exp tasks).
Proof.
  intros Hd. unfold next_expiry, waiting. destruct (pending exp) as [e|]; [by eauto|].
  destruct (steal_wf (expiries exp) tasks Hd) as (s & d' & Hs & -> & Hw & _). simpl. rewrite Hs.
  destruct tasks; simpl; eauto.
Qed.

(** Whatever the queue holds: if [expire] returns, the states are together. *)
Lemma expire_kept cap held now n : forall exp self exp' self',
  pool_wf cap held self -> expire_loop n exp self now = Ret (exp', self') -> pool_wf cap held self'.
Proof.
  induction n as [|n IH]; intros exp self exp' self' Hwf; cbn [expire_loop]; [by intros [= _ <-]|].
  destruct (next_expiry exp) as [[[[at_ key]|] d]|]; [|by intros [= _ <-]|done]. cbn [mbind outcome_bind].
  case_cmp_step; [by intros [= _ <-]|].
  destruct (remove_state_ok cap held self key Hwf) as (self1 & -> & Hw & _). by apply IH.
Qed.

Lemma expire_ok cap held now n : forall exp self tasks,
  pool_wf cap held self -> deque_wf (expiries exp) tasks ->
  exists exp' self' tasks', expire_loop n exp self now = Ret (exp', self')
    /\ pool_wf cap held self' /\ same_config self self' /\ deque_wf (expiries exp') tasks'
    /\ tasks' `suffix_of` tasks /\ starts_none self self'
    /\ forall addr, addr ∈ dom (states self') ->
         addr ∈ (waiting exp tasks).*2 -> addr ∈ (waiting exp' tasks').*2.
Proof.
  induction n as [|n IH]; intros exp self tasks Hwf Hd; cbn [expire_loop].
  { exists exp, self, tasks. split_and!; try done. }
  destruct (next_expiry_ok exp tasks Hd) as (d' & tasks' & -> & Hd' & Htl). cbn [mbind outcome_bind].
  assert (Hsuf : tasks' `suffix_of` tasks).
  { subst tasks'. unfold waiting. destruct (pending exp) as [e|]; [done|].
    destruct tasks; [done|by apply suffix_cons_r]. }
  destruct (waiting exp tasks) as [|[at_ key] rest] eqn:Ew; simpl in Htl; subst tasks'; cbn [head].
  { eexists _, self, []. split_and!; done. }
  case_cmp_step; [by eexists _, self, rest|].
  destruct (remove_state_ok cap held self key Hwf) as (self1 & -> & Hw & Hst & Hcfg).
  cbn [mbind outcome_bind]. destruct (IH (mkExpirer d' None (exp_batch_size exp)) self1 rest)
    as (exp' & self' & tasks'' & -> & Hw' & Hcfg' & Hd'' & Hsuf' & Hnone & Hwait); [done..|].
  exists exp', self', tasks''. split_and!; try done.
  - destruct Hcfg as (? & ? & ? & ?), Hcfg' as (? & ? & ? & ?). split_and!; congruence.
  - by etrans.
  - etrans; [by eapply starts_none_delete|exact Hnone].
  - intros addr Hin Hx. apply (Hwait addr Hin). apply elem_of_cons in Hx as [->|Hx]; [|done].
    exfalso. apply Hnone in Hin. rewrite Hst, dom_delete_L in Hin. set_solver.
Qed.

End adapter_lemmas.

(** ** The start, and results in a row *)

Section system.
Context {Q : Type -> Type} `{ArrayQueue Q} `{HashIter} `{Rng R}.

Lemma fill_ok n : forall q : Q PortState,
  (length (q_items q) + n <= q_cap q)%nat ->
  exists q', fill n q = Ret q' /\ length (q_items q') = (length (q_items q) + n)%nat
    /\ q_cap q' = q_cap q.
Proof.
  induction n as [|n IH]; intros q Hn; cbn [fill]; [by exists q; split_and!; try lia|].
  destruct (q_push_spec q state_default) as (q1 & -> & Hi & Hc); [lia|].
  destruct (IH q1) as (q' & -> & Hl & Hc').
  { rewrite Hi, Hc, length_app. simpl. lia. }
  exists q'. rewrite Hl, Hi, length_app. simpl. split_and!; [done|lia|congruence].
Qed.

Lemma port_new_ok graph eps budget n src :
  0 < n -> graph_ok graph -> port_range_ok src ->
  exists a : PmapPortAdapter Q, port_new graph eps budget n src = Ret a
    /\ pool_wf (Z.to_nat n) 0 a.
Proof.
  intros Hn Hg Hs. unfold port_new. rewrite (proj2 (Z.eqb_neq n 0)) by lia.
  destruct (q_new_spec (A := PortState) (Z.to_nat n)) as [Hi Hc].
  destruct (fill_ok (Z.to_nat n) (q_new (Z.to_nat n))) as (q & -> & Hl & Hcap).
  { rewrite Hi, Hc. simpl. lia. }
  eexists. split; [done|]. constructor; simpl; try done; [congruence|].
  rewrite Hl, Hi, map_size_empty. simpl. lia.
Qed.

Lemma port_new_states graph eps budget n src (a : PmapPortAdapter Q) :
  port_new graph eps budget n src = Ret a -> states a = ∅.
Proof. unfold port_new. case_cmp_step; [done|]. destruct (fill _ _); [|done]. by intros [= <-]. Qed.

(** Results for one address in a row. *)
Fixpoint probe_run (fuel : nat) (self : PmapPortAdapter Q) (addr : Ipv4Addr)
    (results : list (Z * option Z)) (rng : R) : outcome (list (option PacketTemplate)) :=
  match results with
  | [] => Ret []
  | (port, hash) :: results =>
      '(t, self, rng) ← on_result fuel self addr port hash rng;
      ts ← probe_run fuel self addr results rng;
      Ret (t :: ts)
  end.

(** The probes an address may still get. *)
Definition probes_left (self : PmapPortAdapter Q) (addr : Ipv4Addr) : Z :=
  match states self !! addr with
  | Some st => Z.max 0 (budget_remaining st - 1)
  | None => 0
  end.

(** Port [p] will not be probed: it is tried, or the address is done with. *)
Definition never_again (self : PmapPortAdapter Q) (addr : Ipv4Addr) (p : Z) : Prop :=
  match states self !! addr with Some st => p ∈ tried_ports st | None => True end.

Lemma on_result_probes cap held fuel self addr port hash (rng : R) t self' rng' :
  pool_wf cap held self -> on_result fuel self addr port hash rng = Ret (t, self', rng') ->
  pool_wf cap held self'
  /\ match t with
     | Some t => probes_left self' addr + 1 = probes_left self addr
                 /\ ~ never_again self addr (t_destination_port t)
     | None => probes_left self' addr <= probes_left self addr
     end
  /\ never_again self' addr port
  /\ forall p, never_again self addr p ->
       never_again self' addr p /\ forall u, t = Some u -> t_destination_port u <> p.
Proof.
  intros Hwf He. pose proof (on_result_cases cap held fuel self addr port hash rng Hwf) as Hc.
  rewrite He in Hc. destruct Hc as (Hw & _ & Hsp). split; [done|]. unfold result_spec in Hsp.
  unfold never_again, probes_left in *. destruct (states self !! addr) as [st|] eqn:Ha.
  2:{ destruct Hsp as [-> ->]. rewrite Ha. split_and!; done || lia. }
  case_decide as Hin; [destruct Hsp as [-> ->]; rewrite Ha; split_and!; done || lia|].
  pose proof (recorded_wf self st port hash (pool_states _ _ _ Hwf _ _ Ha)) as (_ & Htr & Hbu).
  destruct (recorded self st port hash) as [hp st1]; cbn [fst snd] in *.
  destruct hp.
  { destruct Hsp as [-> ->]. rewrite lookup_delete_eq. split_and!; done || lia. }
  destruct t as [t|]; cbn [next_probe] in Hsp.
  - destruct Hsp as (_ & _ & Hp & st' & Hs & Htr' & _ & Hb & Hpos). rewrite Hs, lookup_insert_eq.
    rewrite Htr in *. split_and!; [lia|set_solver|set_solver|].
    intros p Hp'. rewrite Htr'. split; [set_solver|]. intros u [= <-]. set_solver.
  - destruct Hsp as [-> _]. rewrite lookup_delete_eq. split_and!; done || lia.
Qed.

Lemma probe_run_ok cap held fuel addr results : forall self (rng : R) ts,
  pool_wf cap held self -> probe_run fuel self addr results rng = Ret ts ->
  Z.of_nat (length (omap id ts)) <= probes_left self addr
  /\ forall t p, Some t ∈ ts -> never_again self addr p -> t_destination_port t <> p.
Proof.
  induction results as [|[port hash] results IH]; intros self rng ts Hwf Hr; cbn [probe_run] in Hr.
  { simplify_eq. simpl. split; [unfold probes_left; destruct (states self !! addr); lia|].
    intros t p Ht. by apply elem_of_nil in Ht. }
  destruct (on_result fuel self addr port hash rng) as [[[t self1] rng1]|f] eqn:E; [|done].
  cbn [mbind outcome_bind] in Hr.
  destruct (probe_run fuel self1 addr results rng1) as [ts1|f] eqn:E1; [|done].
  cbn [mbind outcome_bind] in Hr. simplify_eq.
  destruct (on_result_probes cap held fuel self addr port hash rng t self1 rng1 Hwf E)
    as (Hw & Hp & _ & Hna). destruct (IH self1 rng1 ts1 Hw E1) as [Hl Hnt]. split.
  - destruct t as [t|]; [|change (omap id (None :: ts1)) with (omap id ts1); lia].
    destruct Hp as [Hp _]. change (omap id (Some t :: ts1)) with (t :: omap id ts1). cbn [length]. lia.
  - intros u p [<-|Hu]%elem_of_cons Hp'; [by apply Hna|]. apply (Hnt u p Hu). by apply Hna.
Qed.

End system.

(** ** Properties *)

(** C27: every call of [on_result], by what is known of the address: nothing
    happens for an unknown address or a port already tried; otherwise the port
    is recorded as tried, a suspected honeypot is dropped, and the answer is
    either one more probe of a port not tried, from a source port in range,
    against a budget one smaller, or the end when the budget or the ports are
    used up.  It cannot panic. *)
Theorem port_on_result {Q R} `{ArrayQueue Q, HashIter, Rng R} (cap held fuel : nat)
    (self : PmapPortAdapter Q) (addr : Ipv4Addr) (port : Z) (hash : option Z) (rng : R) :
  pool_wf cap held self ->
  match on_result fuel self addr port hash rng with
  | Fault f => f = OutOfFuel
  | Ret (t, self', _) =>
      pool_wf cap held self'
      /\ match states self !! addr with
         | None => t = None /\ states self' = states self
         | Some st =>
             if decide (port ∈ tried_ports st) then t = None /\ states self' = states self
             else
               let '(honeypot, st1) := recorded self st port hash in
               tried_ports st1 = {[ port ]} ∪ tried_ports st
               /\ if honeypot then t = None /\ states self' = delete addr (states self)
                  else next_probe self addr st1 t self'
         end
  end.
Proof.
  intros Hwf. pose proof (on_result_cases cap held fuel self addr port hash rng Hwf) as Hc.
  destruct (on_result fuel self addr port hash rng) as [[[t self'] rng']|f]; [|done].
  destruct Hc as (Hw & _ & Hsp). split; [done|]. revert Hsp. unfold result_spec.
  destruct (states self !! addr) as [st|] eqn:Ha; [|done]. case_decide; [done|].
  destruct (recorded_wf self st port hash (pool_states _ _ _ Hwf _ _ Ha)) as (_ & Htr & _).
  destruct (recorded self st port hash) as [[] st1]; cbn [fst snd] in *; by split.
Qed.

(** C28: an address is probed at most as often as its budget allows, the
    first probe included, and never on a port whose result is recorded. *)
Theorem port_budget {Q R} `{ArrayQueue Q, HashIter, Rng R} (cap held fuel : nat)
    (self : PmapPortAdapter Q) (st : PortState) (addr : Ipv4Addr) (results : list (Z * option Z))
    (rng : R) (ts : list (option PacketTemplate)) :
  pool_wf cap held self -> states self !! addr = Some st -> 1 <= budget_remaining st ->
  probe_run fuel self addr results rng = Ret ts ->
  1 + Z.of_nat (length (omap id ts)) <= budget_remaining st
  /\ forall t, Some t ∈ ts -> t_destination_port t ∉ tried_ports st.
Proof.
  intros Hwf Ha Hb Hr. destruct (probe_run_ok cap held fuel addr results self rng ts Hwf Hr) as [Hl Hn].
  unfold probes_left, never_again in *. rewrite Ha in *. split; [lia|].
  intros t Ht Hin. by apply (Hn t _ Ht Hin).
Qed.

(** C31: a hit raises every port seen together with the port that answered to
    the conditional probability of the pair, if that is greater, and changes
    no other port, in whatever order the pairs are visited. *)
Theorem record_hit_conditional `{HashIter} (graph : PortGraph) (s : PortState) (port hash q : Z) :
  (record_hit s graph port hash).1 = false ->
  prob (record_hit s graph port hash).2 graph q
  = match default ∅ (co_occurring graph port) !! q with
    | Some c =>
        if open_count graph port =? 0 then prob s graph q
        else if tle (score_ratio c (open_count graph port)) (prob s graph q) then prob s graph q
        else score_ratio c (open_count graph port)
    | None => prob s graph q
    end.
Proof. apply record_hit_prob. Qed.

(** Hits in a row, up to the first that looks like a honeypot's. *)
Fixpoint record_hits `{HashIter} (graph : PortGraph) (s : PortState) (hits : list (Z * Z))
    : option PortState :=
  match hits with
  | [] => Some s
  | (port, hash) :: hits =>
      let '(honeypot, s) := record_hit s graph port hash in
      if honeypot then None else record_hits graph s hits
  end.

Lemma record_hits_seen `{HashIter} graph hits : forall s s' h,
  record_hits graph s hits = Some s' -> 0 <= threshold graph < 256 ->
  (forall h, 0 <= default 0 (seen_responses s !! h) <= 254) ->
  default 0 (seen_responses s' !! h)
  = default 0 (seen_responses s !! h) + zlen (filter (fun e => e.2 = h) hits)
  /\ (forall h, 0 <= default 0 (seen_responses s' !! h) <= 254).
Proof.
  induction hits as [|[port hash] hits IH]; intros s s' h Hr Ht Hb; cbn [record_hits] in Hr.
  { simplify_eq. simpl. split; [lia|done]. }
  pose proof (record_hit_honeypot graph s port hash) as Hh.
  pose proof (record_hit_frame graph s port hash) as (_ & _ & _ & Hs & _).
  destruct (record_hit s graph port hash) as [[] s1]; [done|]. cbn [fst snd] in *.
  pose proof (Hb hash) as Hbh. unfold u8_of in *. rewrite wrap_small in Hh, Hs by (unfold in_width; lia).
  symmetry in Hh. apply Z.leb_gt in Hh.
  destruct (IH s1 s' h Hr Ht) as [He Hb'].
  { intros h'. rewrite Hs. destruct (decide (h' = hash)) as [->|].
    - rewrite lookup_insert_eq. simpl. lia.
    - by rewrite lookup_insert_ne. }
  split; [|done]. rewrite He, Hs, filter_cons. simpl. case_decide as Hd; subst.
  - rewrite lookup_insert_eq. simpl. lia.
  - by rewrite lookup_insert_ne.
Qed.

(** An address is taken for a honeypot exactly when it gives the
    [threshold]-th response with one hash. *)
Theorem honeypot_threshold `{HashIter} (graph : PortGraph) (s s' : PortState)
    (idx budget : Z) (hits : list (Z * Z)) (port hash : Z) :
  0 <= threshold graph < 256 ->
  record_hits graph (state_clear s idx budget) hits = Some s' ->
  (record_hit s' graph port hash).1
  = (threshold graph <=? 1 + zlen (filter (fun e => e.2 = hash) hits)).
Proof.
  intros Ht Hr. rewrite record_hit_honeypot.
  destruct (record_hits_seen graph hits _ s' hash Hr Ht) as [He Hb].
  { intros h. simpl. rewrite lookup_empty. simpl. lia. }
  specialize (Hb hash). unfold u8_of. rewrite wrap_small by (unfold in_width; lia).
  rewrite He. simpl. rewrite lookup_empty. simpl. f_equal. lia.
Qed.

(** The port chosen next has not been tried, and no port on offer (a
    port of the heap, the first recommendation not tried) is more likely; when
    there is one on offer, one is chosen. *)
Theorem next_port_best (graph : PortGraph) (s : PortState) :
  graph_ok graph -> state_wf graph s ->
  exists o s', next_port s graph = Ret (o, s') /\ tried_ports s' = tried_ports s
    /\ (forall p, o = Some p -> p ∉ tried_ports s)
    /\ (forall p, p ∉ tried_ports s -> is_Some (query (port_heap s) p) ->
          exists q, o = Some q /\ tle (prob s graph p) (prob s graph q) = true)
    /\ (forall j p, recommendation_index s <= j -> recommend_at graph j = Some p ->
          p ∉ tried_ports s ->
          (forall i q, recommendation_index s <= i < j -> recommend_at graph i = Some q ->
             q ∈ tried_ports s) ->
          exists q, o = Some q /\ tle (prob s graph p) (prob s graph q) = true).
Proof.
  intros Hg Hs. destruct (next_port_ok graph Hg s Hs)
    as (o & s' & ? & ? & ? & ? & ? & ? & ? & ?). by exists o, s'.
Qed.

(** *** Witnesses *)

(** A bounded queue on lists. *)
Record list_queue (A : Type) : Type := mkLQ { lq_items : list A; lq_cap : nat }.
Arguments mkLQ {A} _ _.
Arguments lq_items {A} _.
Arguments lq_cap {A} _.

Global Program Instance list_array_queue : ArrayQueue list_queue := {|
  q_new A n := mkLQ [] n;
  q_push A q a :=
    if decide (length (lq_items q) < lq_cap q)%nat then Ok (mkLQ (lq_items q ++ [a]) (lq_cap q))
    else Err a;
  q_pop A q := (head (lq_items q), mkLQ (tail (lq_items q)) (lq_cap q));
  q_items A q := lq_items q;
  q_cap A q := lq_cap q |}.
Next Obligation. done. Qed.
Next Obligation. intros A q a Hl. simpl in *. rewrite decide_True by done. eauto. Qed.
Next Obligation. intros A q a Hl. simpl in *. by rewrite decide_False by lia. Qed.
Next Obligation. done. Qed.

Definition ex_pg : PortGraph :=
  PortGraph_from_counts {[ 25565 := 10; 80 := 4 ]} {[ (25565, 25566) := 5 ]} 20 [25570] 2.

Definition ex_adapter : PmapPortAdapter list_queue :=
  match port_new ex_pg (f64_of_Z 0) 3 4 (Range 40000 40010) with
  | Ret a => a
  | Fault _ => mkPortAdapter ∅ (mkLQ [] 0) ex_pg (f64_of_Z 0) 3 (Single 1)
  end.

(** The adapter with one address being probed. *)
Definition ex_probing : PmapPortAdapter list_queue :=
  match guard ex_adapter with
  | (Some st, a) =>
      match generate a st 7 (mkReplay [] [f64_of_Z 1] 0) with
      | Ret (_, a, _) => a
      | Fault _ => a
      end
  | (None, a) => a
  end.

Lemma ex_graph_ok : graph_ok ex_pg.
Proof. vm_compute. reflexivity. Qed.

Lemma ex_probing_wf : pool_wf 4 0 ex_probing.
Proof.
  constructor; [apply ex_graph_ok|vm_compute; congruence|vm_compute; reflexivity| |].
  - vm_compute. lia.
  - intros addr s Hs. assert (Hd : (addr, s) ∈ map_to_list (states ex_probing))
      by (by apply elem_of_map_to_list).
    vm_compute in Hd. apply list_elem_of_singleton in Hd as [= -> ->].
    constructor; [apply heap_default_wf|vm_compute; split; congruence].
Qed.

Lemma port_on_result_witness :
  match on_result 5 ex_probing 7 25565 (Some 99) (mkReplay [] [f64_of_Z 1] 0) with
  | Fault f => f = OutOfFuel
  | Ret (t, self', _) => pool_wf 4 0 self'
  end.
Proof.
  pose proof (port_on_result 4 0 5 ex_probing 7 25565 (Some 99) (mkReplay [] [f64_of_Z 1] 0)
    ex_probing_wf) as Hw.
  destruct (on_result 5 ex_probing 7 25565 (Some 99) (mkReplay [] [f64_of_Z 1] 0))
    as [[[t s] r]|f]; [exact (proj1 Hw)|exact Hw].
Defined.

Lemma port_budget_witness :
  exists st ts, states ex_probing !! 7 = Some st
    /\ probe_run 5 ex_probing 7 [(25565, Some 99); (80, None); (25566, None)]
         (mkReplay [] [f64_of_Z 1; f64_of_Z 1; f64_of_Z 1] 0) = Ret ts
    /\ 1 + Z.of_nat (length (omap id ts)) <= budget_remaining st.
Proof.
  eexists _, _. split; [vm_compute; reflexivity|]. split; [vm_compute; reflexivity|].
  refine (proj1 (port_budget 4 0 5 ex_probing _ 7 [(25565, Some 99); (80, None); (25566, None)]
    (mkReplay [] [f64_of_Z 1; f64_of_Z 1; f64_of_Z 1] 0) _ _ _ _ _)).
  - exact ex_probing_wf.
  - vm_compute. reflexivity.
  - vm_compute. congruence.
  - vm_compute. reflexivity.
Defined.

Lemma record_hit_conditional_witness :
  prob (record_hit state_default ex_pg 25565 99).2 ex_pg 25566
  = if tle (score_ratio 5 10) (prob state_default ex_pg 25566) then prob state_default ex_pg 25566
    else score_ratio 5 10.
Proof.
  refine (record_hit_conditional ex_pg state_default 25565 99 25566 _). vm_compute. reflexivity.
Defined.

Lemma honeypot_threshold_witness :
  exists s', record_hits ex_pg (state_clear state_default 0 3) [(25565, 99)] = Some s'
    /\ (record_hit s' ex_pg 80 99).1 = true.
Proof.
  eexists. split; [vm_compute; reflexivity|].
  refine (honeypot_threshold ex_pg state_default _ 0 3 [(25565, 99)] 80 99 _ _).
  - vm_compute. split; congruence.
  - vm_compute. reflexivity.
Defined.

Lemma next_port_best_witness :
  exists o s', next_port (record_hit state_default ex_pg 25565 99).2 ex_pg = Ret (o, s')
    /\ forall p, o = Some p -> p ∉ tried_ports (record_hit state_default ex_pg 25565 99).2.
Proof.
  destruct (next_port_best ex_pg (record_hit state_default ex_pg 25565 99).2) as (o & s' & He & _ & Hn & _).
  - exact ex_graph_ok.
  - constructor; [|vm_compute; split; congruence].
    destruct (record_hit_frame ex_pg state_default 25565 99) as (_ & _ & _ & _ & Hh).
    apply Hh, heap_default_wf.
  - exists o, s'. split; [exact He|exact Hn].
Defined.

(** After 25565 answers, 25566, seen with it half of the time, goes before 80. *)
Example next_port_run :
  (r ← next_port (record_hit state_default ex_pg 25565 99).2 ex_pg; Ret r.1) = Ret (Some 25566).
Proof. vm_compute. reflexivity. Qed.
