(* ===== verification/Pool.v ===== *)
(** * The pool of port states under contention: [controller/strategy/port/pmap.rs]

    The feeder, the responders and the housekeeping thread use the port
    strategy at the same time.  Its states move between a bounded queue and a
    map; each access to either is a step of its own, and the steps of all
    threads interleave in any order.  [on_result] works on the entry of an
    address under the lock of that entry, which is one step, and gives the lock
    back before it removes the entry. *)

From S2P Require Import Prelude Float Rand Heap Tcp Config PortGraph Deque PortPmap.

Section pool.
Context {Q : Type -> Type} `{ArrayQueue Q} `{HashIter} `{Rng R}.
Implicit Types (a : PmapPortAdapter Q) (rng : R).

(** ** Calls *)

(** What a call returns: nothing, or the probe to send, if any, and the
    generator. *)
Inductive reply : Type :=
  | RDone
  | RProbe (t : option PacketTemplate) (rng : R).

(** What is left to do behind the last access: nothing, or the choice of a
    source port for the probe. *)
Inductive leftover : Type :=
  | Answer (r : reply)
  | Sample (addr : Ipv4Addr) (port : Z) (rng : R).

(** Where a thread is.  [GuardHeld] has a state that was taken for an address
    to come. *)
Inductive visit : Type :=
  | GuardPop
  | GuardHeld (state : PortState)
  | GenInsert (state : PortState) (addr : Ipv4Addr) (rng : R)
  | ResultLock (addr : Ipv4Addr) (port : Z) (hash : option Z) (rng : R)
  | StateRemove (addr : Ipv4Addr) (k : leftover)
  | StatePush (state : PortState) (k : leftover)
  | Returned (r : reply).

(** What a thread that is not in a call may begin. *)
Inductive pool_call : Type :=
  | BeginGuard
  | BeginGenerate (addr : Ipv4Addr) (rng : R)
  | BeginDrop
  | BeginResult (addr : Ipv4Addr) (port : Z) (hash : option Z) (rng : R)
  | BeginRemove (addr : Ipv4Addr).

Definition begin (o : pool_call) (v : visit) : visit :=
  match v, o with
  | GuardHeld state, BeginGenerate addr rng => GenInsert state addr rng
  | GuardHeld _, BeginDrop => Returned RDone
  | Returned _, BeginGuard => GuardPop
  | Returned _, BeginResult addr port hash rng => ResultLock addr port hash rng
  | Returned _, BeginRemove addr => StateRemove addr (Answer RDone)
  | _, _ => v
  end.

(** ** Steps *)

Definition finish (a : PmapPortAdapter Q) (k : leftover) : outcome visit :=
  match k with
  | Answer r => Ret (Returned r)
  | Sample addr port rng =>
      '(src, rng) ← sample (source_port a) rng;
      Ret (Returned (RProbe (Some (mkTemplate src addr port)) rng))
  end.

(** [on_result] while it holds the entry: the state to leave there, and what
    follows. *)
Definition result_locked (fuel : nat) (a : PmapPortAdapter Q) (state : PortState) (addr : Ipv4Addr) (port : Z)
    (hash : option Z) (rng : R) : outcome (PortState * visit) :=
  if bool_decide (port ∈ tried_ports state) then Ret (state, Returned (RProbe None rng))
  else
    let '(honeypot, state) :=
      match hash with
      | Some hash => record_hit state (pgraph a) port hash
      | None => (false, record_empty state port)
      end in
    if honeypot then Ret (state, StateRemove addr (Answer (RProbe None rng)))
    else
      let state := mkState (tried_ports state) (port_heap state) (recommendation_index state)
                     (Z.max (budget_remaining state - 1) 0) (seen_responses state) in
      if budget_remaining state =? 0 then Ret (state, StateRemove addr (Answer (RProbe None rng)))
      else
        let '(u, rng) := random_unit rng in
        '(next, state, rng) ← choose fuel a state u rng;
        match next with
        | None => Ret (state, StateRemove addr (Answer (RProbe None rng)))
        | Some next_port => v ← finish a (Sample addr next_port rng); Ret (state, v)
        end.

(** One access to the pool or to the map, and what the thread does until the
    next one. *)
Definition visit_step (fuel : nat) (a : PmapPortAdapter Q) (v : visit) : outcome (PmapPortAdapter Q * visit) :=
  match v with
  | GuardPop =>
      match guard a with
      | (Some state, a) => Ret (a, GuardHeld state)
      | (None, a) => Ret (a, Returned RDone)
      end
  | GenInsert state addr rng =>
      let '(u, rng) := random_unit rng in
      let exploit := f64_ge u (pepsilon a) in
      let state := state_clear state (if exploit then 1 else 0) (budget_per_address a) in
      let '(port, rng) := first_port a exploit rng in
      let old := states a !! addr in
      let a := with_states a (<[addr := state]> (states a)) (allocated_states a) in
      match old with
      | Some old => Ret (a, StatePush old (Sample addr port rng))
      | None => v ← finish a (Sample addr port rng); Ret (a, v)
      end
  | ResultLock addr port hash rng =>
      match states a !! addr with
      | None => Ret (a, Returned (RProbe None rng))
      | Some state =>
          '(state, v) ← result_locked fuel a state addr port hash rng;
          Ret (with_states a (<[addr := state]> (states a)) (allocated_states a), v)
      end
  | StateRemove addr k =>
      match states a !! addr with
      | Some state => Ret (with_states a (delete addr (states a)) (allocated_states a), StatePush state k)
      | None => v ← finish a k; Ret (a, v)
      end
  | StatePush state k => a ← put_back a state; v ← finish a k; Ret (a, v)
  | GuardHeld _ | Returned _ => Ret (a, v)
  end.

(** The strategy and the threads that use it; [pool_lost] counts the guards that
    were dropped unused: a guard has no [Drop], so that its state is freed and
    does not go back to the pool. *)
Record pool : Type := mkPool {
  pool_adapter : PmapPortAdapter Q;
  pool_visits : list visit;
  pool_lost : nat }.

Definition loses (o : pool_call) (v : visit) : nat :=
  match v, o with GuardHeld _, BeginDrop => 1 | _, _ => 0 end.

(** Thread [i] begins a call, or makes a step. *)
Definition pool_begin (i : nat) (o : pool_call) (s : pool) : pool :=
  match pool_visits s !! i with
  | None => s
  | Some v => mkPool (pool_adapter s) (<[i := begin o v]> (pool_visits s)) (pool_lost s + loses o v)
  end.

Definition pool_advance (fuel i : nat) (s : pool) : outcome pool :=
  match pool_visits s !! i with
  | None => Ret s
  | Some v =>
      '(a, v) ← visit_step fuel (pool_adapter s) v;
      Ret (mkPool a (<[i := v]> (pool_visits s)) (pool_lost s))
  end.

Inductive pool_reachable (s0 : pool) : pool -> Prop :=
  | pool_start : pool_reachable s0 s0
  | pool_begins s i o : pool_reachable s0 s -> pool_reachable s0 (pool_begin i o s)
  | pool_steps s fuel i s' : pool_reachable s0 s -> pool_advance fuel i s = Ret s' -> pool_reachable s0 s'.

(** A schedule: who begins what, and who makes a step. *)
Definition moves : Type := list (nat * option pool_call).

Definition pool_move (fuel : nat) (x : nat * option pool_call) (s : pool) : outcome pool :=
  match x.2 with Some o => Ret (pool_begin x.1 o s) | None => pool_advance fuel x.1 s end.

Fixpoint pool_run (fuel : nat) (l : moves) (s : pool) : outcome pool :=
  match l with
  | [] => Ret s
  | x :: l => s ← pool_move fuel x s; pool_run fuel l s
  end.

(** A call that is not interrupted. *)
Fixpoint visit_run (fuel n : nat) (a : PmapPortAdapter Q) (v : visit) : outcome (PmapPortAdapter Q * visit) :=
  match n with
  | O => Ret (a, v)
  | S n => '(a, v) ← visit_step fuel a v; visit_run fuel n a v
  end.

(** ** Specification *)

(** The states in the hands of threads. *)
Definition hand (v : visit) : nat :=
  match v with GuardHeld _ | GenInsert _ _ _ | StatePush _ _ => 1 | _ => 0 end.
Definition hands (vs : list visit) : nat := sum_list (hand <$> vs).

(** How many steps a call has left at most. *)
Definition visit_left (v : visit) : nat :=
  match v with
  | GuardPop => 1 | GuardHeld _ => 0 | GenInsert _ _ _ => 2 | ResultLock _ _ _ _ => 3
  | StateRemove _ _ => 2 | StatePush _ _ => 1 | Returned _ => 0
  end.

(** The states in the pool and in the map. *)
Definition kept (a : PmapPortAdapter Q) : nat := length (q_items (allocated_states a)) + size (states a).

(** Every state is in the pool, in the map, in a hand ([extra] of them in the
    hands of a thread that is not listed) or lost. *)
Definition pool_ok (cap extra : nat) (s : pool) : Prop :=
  pool_wf cap (extra + hands (pool_visits s)) (pool_adapter s)
  /\ (kept (pool_adapter s) + extra + hands (pool_visits s) + pool_lost s = cap)%nat.

(** ** Lemmas *)

Lemma finish_keeps a k : port_range_ok (source_port a) -> exists r, finish a k = Ret (Returned r).
Proof.
  intros Hp. destruct k as [r|addr port rng]; simpl; [by eexists|].
  destruct (sample_ok (source_port a) rng Hp) as (src & rng' & -> & _). by eexists.
Qed.

(** Under the lock nothing faults but exploration; the state stays in order. *)
Lemma result_locked_ok fuel a state addr port hash rng :
  graph_ok (pgraph a) -> port_range_ok (source_port a) -> state_wf (pgraph a) state ->
  match result_locked fuel a state addr port hash rng with
  | Ret (state', v) => state_wf (pgraph a) state' /\ hand v = 0%nat /\ (visit_left v <= 2)%nat
  | Fault f => f = OutOfFuel
  end.
Proof.
  intros Hg Hp Hst. unfold result_locked. case_bool_decide; [by split_and!; try (simpl; lia)|].
  destruct (recorded_wf a state port hash Hst) as (Hst1 & _ & _). unfold recorded in Hst1.
  destruct (match hash with Some _ => _ | None => _ end) as [[] st1]; cbn [snd] in Hst1; [by split_and!|].
  set (st2 := mkState _ _ _ _ _). assert (Hst2 : state_wf (pgraph a) st2) by (destruct Hst1; by constructor).
  destruct (budget_remaining st2 =? 0); [by split_and!|]. destruct (random_unit rng) as [u rng1].
  pose proof (choose_cases fuel a st2 u rng1 Hg Hst2) as Hc.
  destruct (choose fuel a st2 u rng1) as [[[[p|] st3] rng2]|f]; [|cbn; split_and!; [apply Hc|done..]|done].
  cbn [mbind outcome_bind]. destruct (finish_keeps a (Sample addr p rng2) Hp) as [r ->]. cbn.
  split_and!; [apply Hc|done|lia].
Qed.

(** A state from a hand goes to the map; what was there is in the hand then. *)
Lemma insert_wf cap h a addr state :
  pool_wf cap (S h) a -> state_wf (pgraph a) state ->
  pool_wf cap (match states a !! addr with Some _ => S h | None => h end)
    (with_states a (<[addr := state]> (states a)) (allocated_states a)).
Proof.
  intros Hwf Hst. destruct (states a !! addr) as [old|] eqn:Ha; [by eapply overwrite|].
  destruct Hwf as [Hg Hp Hc Hn Hs]. constructor; simpl; try done.
  - rewrite map_size_insert_None by done. lia.
  - intros x s [[<- <-]|[_ Hin]]%lookup_insert_Some; [done|]. by eapply Hs.
Qed.

Lemma state_clear_wf (graph : PortGraph) state (exploit : bool) budget :
  state_wf graph (state_clear state (if exploit then 1 else 0) budget).
Proof. constructor; [apply heap_default_wf|]. simpl. destruct exploit; lia. Qed.

(** A step keeps the states together; only exploration may go on for ever. *)
Lemma visit_step_ok cap h fuel a v :
  pool_wf cap (h + hand v) a ->
  match visit_step fuel a v with
  | Ret (a', v') => pool_wf cap (h + hand v') a' /\ (visit_left v' <= pred (visit_left v))%nat
  | Fault f => f = OutOfFuel /\ (exists addr port hash rng, v = ResultLock addr port hash rng)
  end.
Proof.
  intros Hwf. destruct v as [|st|st addr rng|addr port hash rng|addr k|st k|r]; cbn [visit_step hand] in *; try done.
  - pose proof (guard_ok _ _ _ Hwf) as (_ & _ & Hg). rewrite Nat.add_0_r in Hwf, Hg.
    destruct (guard a) as [[st|] a']; cbn in *; rewrite ?Nat.add_0_r, ?Nat.add_1_r; [done|]. split; [apply Hg|lia].
  - destruct (random_unit rng) as [u rng1]. destruct (first_port a _ rng1) as [port rng2].
    rewrite Nat.add_1_r in Hwf. pose proof (insert_wf cap h a addr _ Hwf (state_clear_wf (pgraph a) st
      (f64_ge u (pepsilon a)) (budget_per_address a))) as Hi.
    destruct (states a !! addr) as [old|]; [cbn [hand]; rewrite Nat.add_1_r; by split|].
    destruct (finish_keeps (with_states a (<[addr := state_clear st (if f64_ge u (pepsilon a) then 1 else 0)
      (budget_per_address a)]> (states a)) (allocated_states a)) (Sample addr port rng2) (pool_ports _ _ _ Hwf))
      as [r ->]. cbn. rewrite Nat.add_0_r. split; [done|lia].
  - rewrite Nat.add_0_r in Hwf. destruct (states a !! addr) as [st|] eqn:Ha; [|cbn; rewrite Nat.add_0_r; split; [done|lia]].
    pose proof (result_locked_ok fuel a st addr port hash rng (pool_graph _ _ _ Hwf) (pool_ports _ _ _ Hwf)
      (pool_states _ _ _ Hwf _ _ Ha)) as Hr.
    destruct (result_locked _ _ _ _ _ _ _) as [[st' v']|f]; [|by split; [|eexists _, _, _, _]]. destruct Hr as (Hst & Hh & Hl). cbn.
    rewrite Hh, Nat.add_0_r. split; [by eapply overwrite|lia].
  - rewrite Nat.add_0_r in Hwf. destruct (states a !! addr) as [st|] eqn:Ha.
    + cbn. rewrite Nat.add_1_r. split; [by eapply take_out|lia].
    + destruct (finish_keeps a k (pool_ports _ _ _ Hwf)) as [r ->]. cbn. rewrite Nat.add_0_r. split; [done|lia].
  - rewrite Nat.add_1_r in Hwf. destruct (put_back_ok cap h a st Hwf) as (a' & -> & Hw & _). cbn [mbind outcome_bind].
    destruct (finish_keeps a' k (pool_ports _ _ _ Hw)) as [r ->]. cbn. rewrite Nat.add_0_r. split; [done|lia].
Qed.

(** *** Counting *)

Lemma put_back_kept cap held a st a' : pool_wf cap (S held) a -> put_back a st = Ret a' -> kept a' = S (kept a).
Proof.
  intros [_ _ Hc Hn _] E. unfold put_back in E.
  destruct (q_push_spec (allocated_states a) st) as (q & Hq & Hi & _); [lia|]. rewrite Hq in E. injection E as <-.
  unfold kept. cbn. rewrite Hi, length_app. simpl. lia.
Qed.

Lemma guard_kept a : match guard a with (Some _, a') => S (kept a') = kept a | (None, a') => kept a' = kept a end.
Proof.
  unfold guard. pose proof (q_pop_spec (allocated_states a)) as (Hh & Ht & _).
  destruct (q_pop (allocated_states a)) as [o q]. cbn [fst snd] in *. unfold kept. cbn. rewrite Ht, Hh.
  destruct (q_items (allocated_states a)); simpl; lia.
Qed.

Lemma finish_hand a k v : finish a k = Ret v -> hand v = 0%nat.
Proof. destruct k as [r|addr port rng]; simpl; [by intros [= <-]|]. destruct (sample _ _) as [[? ?]|]; [|done]. by intros [= <-]. Qed.

(** A step neither makes nor loses a state. *)
Lemma visit_step_kept cap h fuel a v a' v' :
  pool_wf cap (h + hand v) a -> visit_step fuel a v = Ret (a', v') ->
  (kept a' + hand v' = kept a + hand v)%nat.
Proof.
  intros Hwf. destruct v as [|st|st addr rng|addr port hash rng|addr k|st k|r]; cbn [visit_step hand] in *.
  - pose proof (guard_kept a) as Hg. destruct (guard a) as [[st|] a1]; intros [= <- <-]; simpl; lia.
  - by intros [= <- <-].
  - destruct (random_unit rng) as [u rng1]. destruct (first_port a _ rng1) as [port rng2].
    destruct (states a !! addr) as [old|] eqn:Ha.
    + intros [= <- <-]. unfold kept. cbn. by rewrite map_size_insert_Some by eauto.
    + destruct (finish _ _) as [v1|] eqn:Ef; [|done]. intros [= <- <-]. apply finish_hand in Ef as ->.
      unfold kept. cbn. rewrite map_size_insert_None by done. lia.
  - destruct (states a !! addr) as [st|] eqn:Ha; [|by intros [= <- <-]].
    pose proof (result_locked_ok fuel a st addr port hash rng (pool_graph _ _ _ Hwf) (pool_ports _ _ _ Hwf)
      (pool_states _ _ _ Hwf _ _ Ha)) as Hr.
    destruct (result_locked _ _ _ _ _ _ _) as [[st' v1]|]; [|done]. destruct Hr as (_ & Hh & _). intros [= <- <-].
    rewrite Hh. unfold kept. cbn. by rewrite map_size_insert_Some by eauto.
  - destruct (states a !! addr) as [st|] eqn:Ha.
    + intros [= <- <-]. unfold kept. cbn. rewrite map_size_delete_Some by eauto.
      assert (size (states a) <> 0%nat) by (rewrite map_size_empty_iff; intros He; by rewrite He in Ha). lia.
    + destruct (finish a k) as [v1|] eqn:Ef; [|done]. intros [= <- <-]. by apply finish_hand in Ef as ->.
  - destruct (put_back a st) as [a1|] eqn:Ep; [|done]. rewrite Nat.add_1_r in Hwf. apply (put_back_kept _ _ _ _ _ Hwf) in Ep.
    cbn [mbind outcome_bind]. destruct (finish a1 k) as [v1|] eqn:Ef; [|done]. intros [= <- <-].
    apply finish_hand in Ef as ->. lia.
  - by intros [= <- <-].
Qed.

Lemma result_locked_total `{!FairRng R} a state addr port hash rng :
  graph_ok (pgraph a) -> port_range_ok (source_port a) -> state_wf (pgraph a) state ->
  exists fuel x, result_locked fuel a state addr port hash rng = Ret x.
Proof.
  intros Hg Hp Hst. unfold result_locked. case_bool_decide; [by exists 0%nat; eexists|].
  destruct (recorded_wf a state port hash Hst) as (Hst1 & _ & _). unfold recorded in Hst1.
  destruct (match hash with Some _ => _ | None => _ end) as [[] st1]; cbn [snd] in Hst1; [by exists 0%nat; eexists|].
  set (st2 := mkState _ _ _ _ _). assert (Hst2 : state_wf (pgraph a) st2) by (destruct Hst1; by constructor).
  destruct (budget_remaining st2 =? 0); [by exists 0%nat; eexists|]. destruct (random_unit rng) as [u rng1].
  destruct (choose_total a st2 u rng1 Hg Hst2) as (fuel & [[[p|] st3] rng2] & E); exists fuel; rewrite E;
    cbn [mbind outcome_bind]; [|by eexists].
  destruct (finish_keeps a (Sample addr p rng2) Hp) as [r ->]. by eexists.
Qed.

Lemma visit_step_total `{!FairRng R} cap held a v :
  pool_wf cap (held + hand v) a -> exists fuel x, visit_step fuel a v = Ret x.
Proof.
  intros Hwf. destruct v as [| | |addr port hash rng| | |].
  4:{ destruct (states a !! addr) as [st|] eqn:Ha; [|by exists 0%nat; cbn; rewrite Ha; eexists].
      destruct (result_locked_total a st addr port hash rng (pool_graph _ _ _ Hwf) (pool_ports _ _ _ Hwf)
        (pool_states _ _ _ Hwf _ _ Ha)) as (fuel & [st' v'] & E). exists fuel. cbn. rewrite Ha, E. by eexists. }
  all: exists 0%nat; pose proof (visit_step_ok cap held 0 a _ Hwf) as Hs; destruct (visit_step 0 a _) as [x|f];
    [by eexists|]; destruct Hs as (_ & ? & ? & ? & ? & E); discriminate.
Qed.

(** *** Calls that are not interrupted *)

Lemma finish_run fuel n a k : ('(a, v) ← (v ← finish a k; Ret (a, v)); visit_run fuel n a v) = (v ← finish a k; Ret (a, v)).
Proof.
  assert (Hr : forall n r, visit_run fuel n a (Returned r) = Ret (a, Returned r)) by (by intros m r; induction m).
  destruct k as [r|addr port rng]; cbn; [apply Hr|]. destruct (sample _ _) as [[src rng']|]; [apply Hr|done].
Qed.

Lemma remove_alone fuel a addr k :
  visit_run fuel 2 a (StateRemove addr k) = (a ← remove_state a addr; v ← finish a k; Ret (a, v)).
Proof.
  cbn [visit_run visit_step]. unfold remove_state. destruct (states a !! addr) as [st|].
  - cbn [mbind outcome_bind visit_run visit_step]. destruct (put_back _ _) as [a'|]; [|done]. cbn [mbind outcome_bind].
    by destruct (finish a' k).
  - cbn [mbind outcome_bind]. apply (finish_run fuel 1).
Qed.

Lemma generate_alone fuel a st addr rng :
  visit_run fuel 2 a (GenInsert st addr rng)
  = ('(t, a, rng) ← generate a st addr rng; Ret (a, Returned (RProbe (Some t) rng))).
Proof.
  cbn [visit_run visit_step]. unfold generate. destruct (random_unit rng) as [u rng1].
  destruct (first_port a _ rng1) as [port rng2]. destruct (states a !! addr) as [old|].
  - cbn [mbind outcome_bind visit_run visit_step]. destruct (put_back _ _) as [a'|]; [|done].
    cbn [mbind outcome_bind finish]. by destruct (sample _ _) as [[src rng3]|].
  - cbn [mbind outcome_bind finish]. by destruct (sample _ _) as [[src rng3]|].
Qed.

Lemma with_states_id a : with_states a (states a) (allocated_states a) = a.
Proof. by destruct a. Qed.

Lemma on_result_alone fuel a addr port hash rng :
  visit_run fuel 3 a (ResultLock addr port hash rng)
  = ('(t, a, rng) ← on_result fuel a addr port hash rng; Ret (a, Returned (RProbe t rng))).
Proof.
  change (visit_run fuel 3 a ?x) with ('(a, v) ← visit_step fuel a x; visit_run fuel 2 a v).
  cbn [visit_step]. rewrite on_result_unfold. destruct (states a !! addr) as [st|] eqn:Ha; [|reflexivity].
  unfold result_locked. case_bool_decide as Hin; case_decide; try done.
  { cbn [mbind outcome_bind visit_run visit_step]. by rewrite insert_id, with_states_id. }
  fold (recorded a st port hash). destruct (recorded a st port hash) as [honeypot st1].
  assert (Hrem : forall st' rng', visit_run fuel 2 (with_states a (<[addr := st']> (states a)) (allocated_states a))
      (StateRemove addr (Answer (RProbe None rng')))
    = ('(t, a, rng) ← (a ← remove_state (with_states a (<[addr := st']> (states a)) (allocated_states a)) addr;
         Ret (None, a, rng')); Ret (a, Returned (RProbe t rng)))).
  { intros st' rng'. rewrite remove_alone. by destruct (remove_state _ _). }
  destruct honeypot; [apply Hrem|]. unfold pick_next. set (st2 := mkState _ _ _ _ _).
  destruct (budget_remaining st2 =? 0); [apply Hrem|]. destruct (random_unit rng) as [u rng1].
  destruct (choose fuel a st2 u rng1) as [[[[p|] st3] rng2]|f]; [|apply Hrem|reflexivity].
  cbn [mbind outcome_bind finish source_port with_states].
  by destruct (sample (source_port a) rng2) as [[src rng3]|f].
Qed.

(** *** All threads *)

Lemma hands_insert vs i v v' : vs !! i = Some v -> (hands (<[i := v']> vs) + hand v = hands vs + hand v')%nat.
Proof.
  intros Hv. unfold hands. rewrite list_fmap_insert. apply sum_list_insert. by rewrite list_lookup_fmap, Hv.
Qed.

(** Fewer states in hands is fine: a guard may be dropped with its state. *)
Lemma pool_wf_le cap held held' a : (held' <= held)%nat -> pool_wf cap held a -> pool_wf cap held' a.
Proof. intros Hle [Hg Hp Hc Hn Hs]. constructor; try done. lia. Qed.

Lemma hands_idle n : hands (replicate n (Returned RDone)) = 0%nat.
Proof. unfold hands. by induction n. Qed.

Lemma pool_begin_ok cap extra i o s : pool_ok cap extra s -> pool_ok cap extra (pool_begin i o s).
Proof.
  unfold pool_ok, pool_begin. destruct (pool_visits s !! i) as [v|] eqn:Ev; [|done]. cbn [pool_visits pool_adapter pool_lost].
  pose proof (hands_insert _ i v (begin o v) Ev). intros [Hwf Hn].
  assert (hand (begin o v) + loses o v = hand v)%nat by (destruct v, o; simpl; lia).
  split; [|lia]. revert Hwf. apply pool_wf_le. lia.
Qed.

Lemma pool_advance_ok cap extra fuel i s :
  pool_ok cap extra s ->
  match pool_advance fuel i s with Ret s' => pool_ok cap extra s' | Fault f => f = OutOfFuel end.
Proof.
  unfold pool_ok, pool_advance. intros [Hwf Hn]. destruct (pool_visits s !! i) as [v|] eqn:Ev; [|done].
  pose proof (hands_insert _ i v (Returned RDone) Ev) as Hh. simpl in Hh. rewrite Nat.add_0_r in Hh. rewrite <- Hh, Nat.add_assoc in Hwf.
  pose proof (visit_step_ok cap _ fuel (pool_adapter s) v Hwf) as Hs.
  destruct (visit_step fuel _ v) as [[a v']|f] eqn:E; [|by destruct Hs]. cbn [mbind outcome_bind pool_adapter pool_visits pool_lost].
  pose proof (visit_step_kept cap _ fuel _ v a v' Hwf E). pose proof (hands_insert _ i v v' Ev). destruct Hs as [Hs _].
  split; [|lia]. revert Hs. apply pool_wf_le. lia.
Qed.

Lemma pool_reachable_ok cap extra s0 s : pool_ok cap extra s0 -> pool_reachable s0 s -> pool_ok cap extra s.
Proof.
  intros H0' Hr. induction Hr as [|s i o _ IH|s fuel i s' _ IH E]; [done|by apply pool_begin_ok|].
  pose proof (pool_advance_ok cap extra fuel i s IH) as Hs. by rewrite E in Hs.
Qed.

Lemma pool_run_ok cap extra fuel l : forall s,
  pool_ok cap extra s -> match pool_run fuel l s with Ret s' => pool_ok cap extra s' | Fault f => f = OutOfFuel end.
Proof.
  induction l as [|[i [o|]] l IH]; intros s Hs; cbn [pool_run pool_move fst snd]; [done|by apply IH, pool_begin_ok|].
  pose proof (pool_advance_ok cap extra fuel i s Hs) as Ha. destruct (pool_advance fuel i s) as [s1|]; [by apply IH|done].
Qed.

Lemma pool_run_reachable fuel l s0 : forall s s',
  pool_reachable s0 s -> pool_run fuel l s = Ret s' -> pool_reachable s0 s'.
Proof.
  induction l as [|[i [o|]] l IH]; intros s s' Hs; cbn [pool_run pool_move fst snd].
  - by intros [= <-].
  - apply IH. by constructor.
  - destruct (pool_advance fuel i s) as [s1|] eqn:E; [|done]. apply IH. by eapply pool_steps.
Qed.

(** All states are in the pool at first. *)
Lemma port_new_kept graph eps budget n src a : port_new graph eps budget n src = Ret a -> kept a = Z.to_nat n.
Proof.
  intros E. pose proof (port_new_states _ _ _ _ _ _ E) as Hs. unfold kept. rewrite Hs, map_size_empty.
  unfold port_new in E. destruct (_ =? _); [done|]. destruct (q_new_spec (A := PortState) (Z.to_nat n)) as [Hi Hc].
  destruct (fill_ok (Z.to_nat n) (q_new (Z.to_nat n))) as (q & Eq & Hl & _); [rewrite Hi, Hc; simpl; lia|].
  rewrite Eq in E. injection E as <-. cbn. rewrite Hl, Hi. simpl. lia.
Qed.

End pool.
Arguments visit : clear implicits.
Arguments pool Q R : clear implicits.

(** ** Theorem *)

(** C12: states are accounted for under contention.  Whatever calls any number
    of threads make, and however the single accesses of these calls to the pool
    and to the map are interleaved: the states in the pool, in the map and in
    the hands of threads and those of guards that were dropped unused are
    exactly [max_in_flight], so that no state is made twice or lost otherwise,
    and giving one back never finds the pool full.  No step panics, and with a
    fair generator every step returns; a call takes at most three steps, never
    waits for another thread, and when it is not interrupted does what the whole
    call does. *)
Theorem pool_interleaved {Q R} `{ArrayQueue Q, HashIter, FairRng R} (graph : PortGraph) (eps : f64) (budget n : Z)
    (src : PortRange) (a : PmapPortAdapter Q) (threads : nat) (s : pool Q R) :
  0 < n -> graph_ok graph -> port_range_ok src -> port_new graph eps budget n src = Ret a ->
  pool_reachable (mkPool a (replicate threads (Returned RDone)) 0) s ->
  Z.of_nat (length (q_items (allocated_states (pool_adapter s))) + size (states (pool_adapter s))
            + hands (pool_visits s) + pool_lost s) = n
  /\ (forall i v, pool_visits s !! i = Some v ->
       (forall fuel f, pool_advance fuel i s = Fault f -> f = OutOfFuel)
       /\ (exists fuel s', pool_advance fuel i s = Ret s')
       /\ (forall fuel s', pool_advance fuel i s = Ret s' ->
            exists v', pool_visits s' !! i = Some v' /\ (visit_left v' <= pred (visit_left v) <= 2)%nat))
  /\ (forall fuel addr port hash rng, visit_run fuel 3 (pool_adapter s) (ResultLock addr port hash rng)
       = ('(t, a, rng) ← on_result fuel (pool_adapter s) addr port hash rng; Ret (a, Returned (RProbe t rng))))
  /\ (forall fuel state addr rng, visit_run fuel 2 (pool_adapter s) (GenInsert state addr rng)
       = ('(t, a, rng) ← generate (pool_adapter s) state addr rng; Ret (a, Returned (RProbe (Some t) rng))))
  /\ (forall fuel addr, visit_run (R := R) fuel 2 (pool_adapter s) (StateRemove addr (Answer RDone))
       = (a ← remove_state (pool_adapter s) addr; Ret (a, Returned RDone))).
Proof.
  intros Hn Hg Hs Ha Hr. destruct (port_new_ok (Q := Q) graph eps budget n src Hn Hg Hs) as (a' & Ha' & Hw).
  rewrite Ha in Ha'. injection Ha' as <-.
  assert (Hok : pool_ok (Z.to_nat n) 0 s).
  { apply (pool_reachable_ok _ _ (mkPool a (replicate threads (Returned RDone)) 0)); [|done]. unfold pool_ok.
    cbn [pool_visits pool_adapter pool_lost]. rewrite hands_idle. split; [done|].
    apply port_new_kept in Ha. lia. }
  destruct Hok as [Hok Hall]. split_and!; [unfold kept in Hall; lia| |intros; apply on_result_alone|intros; apply generate_alone|
    intros; rewrite remove_alone; by destruct (remove_state _ _)].
  intros i v Ev. pose proof (hands_insert _ i v (Returned RDone) Ev) as Hh.
  simpl in Hh. rewrite Nat.add_0_r in Hh. rewrite <- Hh in Hok. split_and!.
  - intros fuel f E. pose proof (visit_step_ok _ _ fuel _ v Hok) as Hst. unfold pool_advance in E. rewrite Ev in E.
    destruct (visit_step fuel _ v) as [[? ?]|]; [done|]. destruct Hst as [-> _]. by injection E as <-.
  - destruct (visit_step_total _ _ _ v Hok) as (fuel & [a1 v1] & E). exists fuel. unfold pool_advance. rewrite Ev, E.
    by eexists.
  - intros fuel s' E. pose proof (visit_step_ok _ _ fuel _ v Hok) as Hst. unfold pool_advance in E. rewrite Ev in E.
    destruct (visit_step fuel _ v) as [[a1 v1]|]; [|done]. injection E as <-. exists v1.
    split; [apply list_lookup_insert_eq; by eapply lookup_lt_Some|]. destruct Hst as [_ Hst].
    split; [done|]. destruct v; simpl; lia.
Qed.

(** ** Witness *)

(** The feeder takes a state for the address 7 and puts it in the map; a result
    arrives, and while its thread has yet to remove the entry the housekeeping
    thread does. *)
Definition race_steps : moves (R := replay) :=
  [(0%nat, Some BeginGuard); (0%nat, None); (0%nat, Some (BeginGenerate 7 (mkReplay [] [f64_of_Z 1] 0))); (0%nat, None);
   (1%nat, Some (BeginResult 7 80 None (mkReplay [] [f64_of_Z 1] 0))); (2%nat, Some (BeginRemove 7));
   (1%nat, None); (2%nat, None); (1%nat, None); (2%nat, None)].

Abbreviation race_run s := (pool_run (Q := list_queue) 9 race_steps s).

Definition race_adapter : PmapPortAdapter list_queue :=
  match port_new ex_pg (f64_of_Z 0) 1 4 (Range 40000 40010) with Ret a => a | Fault _ => ex_adapter end.

Lemma pool_interleaved_witness :
  exists s, race_run (mkPool race_adapter (replicate 3 (Returned RDone)) 0) = Ret s
    /\ length (q_items (allocated_states (pool_adapter s))) = 4%nat
    /\ Z.of_nat (length (q_items (allocated_states (pool_adapter s))) + size (states (pool_adapter s))
                 + hands (pool_visits s) + pool_lost s) = 4.
Proof.
  assert (Hok : match race_run (mkPool race_adapter (replicate 3 (Returned RDone)) 0) with
    | Ret s => Nat.eqb (length (q_items (allocated_states (pool_adapter s)))) 4 | Fault _ => false end = true)
    by (vm_compute; reflexivity).
  destruct (race_run _) as [s|] eqn:E; [|discriminate]. exists s. split; [reflexivity|].
  split; [by apply Nat.eqb_eq|].
  refine (proj1 (pool_interleaved ex_pg (f64_of_Z 0) 1 4 (Range 40000 40010) race_adapter 3 s _ _ _ _ _)).
  - lia.
  - exact ex_graph_ok.
  - vm_compute. congruence.
  - vm_compute. reflexivity.
  - refine (pool_run_reachable 9 race_steps _ _ s _ E). constructor.
Defined.
