(* ===== verification/Feeder.v ===== *)
(** * Feeding targets: [controller/feeder.rs]

    The feeder takes addresses from the address strategy, asks the port
    strategy for the first packet to each of them, and queues the packets for
    the scanners together with the time at which the port strategy is to give
    up on them. *)

From S2P Require Import Prelude Float Rand Ranges Heap Prefix IpPmap Tcp Config PortGraph Deque PortPmap.

(** The strategies, which the responders and the expirer use at the same time. *)
Record strategies (Q : Type -> Type) : Type := mkStrategies {
  ports : PmapPortAdapter Q;
  ips : PmapIpAdapter }.
Arguments mkStrategies {Q} _ _.
Arguments ports {Q} _.
Arguments ips {Q} _.

(** The queues of [PmapPortGuard]. *)
Record queues : Type := mkQueues {
  results : Deque PacketTemplate;
  deadlines : Deque PortPmap.Expiry }.

(** [rate], [tokens] and [last_refill] are set and never used. *)
Record Feeder (R : Type) : Type := mkFeeder {
  f_rng : R;
  f_index : Z;
  f_start : Z;
  f_duration : Z;
  f_timeout : Z;
  f_batch_size : nat }.
Arguments mkFeeder {R} _ _ _ _ _ _.
Arguments f_rng {R} _.
Arguments f_index {R} _.
Arguments f_start {R} _.
Arguments f_duration {R} _.
Arguments f_timeout {R} _.
Arguments f_batch_size {R} _.

Definition feeder_new {R} `{Rng R} (rng : R) (now duration timeout : Z) (batch_size : nat) : Feeder R :=
  mkFeeder rng 0 now duration timeout batch_size.

(** [PmapPortBatcher::batch]. *)
Definition batch (q : queues) (result_batch : list PacketTemplate)
    (expiries_batch : list PortPmap.Expiry) : outcome queues :=
  r ← push (results q) result_batch;
  d ← push (deadlines q) expiries_batch;
  Ret (mkQueues r d).

Section feeder.
Context {Q : Type -> Type} `{ArrayQueue Q} `{PerfectRng} `{HashIter} `{Rng R}.

(** What happened in the loop: the strategies, the cursor and the generator,
    and the batch, or none when there was no address left. *)
Record fed : Type := mkFed {
  fed_strategies : strategies Q;
  fed_index : Z;
  fed_rng : R;
  fed_batch : option (list PacketTemplate * list PortPmap.Expiry) }.

(** The [for] loop of [tick].  [env] is what other threads do to the
    strategies before each turn; a turn without a free state is skipped. *)
Fixpoint feed_loop (env : list (strategies Q -> strategies Q)) (s : strategies Q) (index : Z) (rng : R)
    (timeout : Z) (result_batch : list PacketTemplate) (expiries_batch : list PortPmap.Expiry)
    : outcome fed :=
  match env with
  | [] => Ret (mkFed s index rng (Some (result_batch, expiries_batch)))
  | e :: env =>
      let s := e s in
      match guard (ports s) with
      | (None, a) =>
          feed_loop env (mkStrategies a (ips s)) index rng timeout result_batch expiries_batch
      | (Some state, a) =>
          '(addr, i, index, rng) ← next_address (ips s) index rng;
          match addr with
          | None => Ret (mkFed (mkStrategies a i) index rng None)
          | Some addr =>
              '(result, a, rng) ← generate a state addr rng;
              feed_loop env (mkStrategies a i) index rng timeout
                (result_batch ++ [result]) (expiries_batch ++ [(timeout, addr)])
          end
      end
  end.

(** [tick]: true when the session is over.  [env] has one entry per turn of
    the loop, [q] are the queues when the batch is pushed. *)
Definition feeder_tick (env : list (strategies Q -> strategies Q)) (now : Z) (self : Feeder R)
    (s : strategies Q) (q : queues) : outcome (bool * Feeder R * strategies Q * queues) :=
  if f_duration self <=? now - f_start self then Ret (true, self, s, q)
  else
    let timeout := now + f_timeout self in
    f ← feed_loop env s (f_index self) (f_rng self) timeout [] [];
    let self := mkFeeder (fed_rng f) (fed_index f) (f_start self) (f_duration self) (f_timeout self)
                  (f_batch_size self) in
    match fed_batch f with
    | None => Ret (true, self, fed_strategies f, q)
    | Some (result_batch, expiries_batch) =>
        q ← batch q result_batch expiries_batch;
        Ret (false, self, fed_strategies f, q)
    end.

(** ** Invariant *)

Section proofs.
Context (r : Ipv4Ranges) (Hord : ordered_from 0 (inner r)) (sd : Z).
Context (allowed : Z -> Prop) (Hallowed : forall x, covers (inner r) x -> allowed (x / 256)).
Context (capacity : nat).

(** [hist] are the addresses handed out so far. *)
Record strategies_ok (hist : list Z) (s : strategies Q) : Prop := {
  ok_ports : pool_wf capacity 0 (ports s);
  ok_ips : ip_inv r sd allowed hist (ips s) }.

(** What other threads may do: they hand out no address and start none. *)
Definition keeps (e : strategies Q -> strategies Q) : Prop :=
  forall hist s, strategies_ok hist s ->
    strategies_ok hist (e s) /\ starts_none (ports s) (ports (e s)).

(** Reporting results and expiring states is of that kind. *)
Lemma on_result_keeps fuel addr port hash (rng : R) :
  in_u32 addr -> allowed (addr / 256) ->
  keeps (fun s => mkStrategies
    match on_result fuel (ports s) addr port hash rng with
    | Ret (_, a, _) => a
    | Fault _ => ports s
    end (IpPmap.on_result (ips s) addr)).
Proof.
  intros Ha Hal hist s [Hp Hi].
  pose proof (on_result_cases capacity 0 fuel (ports s) addr port hash rng Hp) as Hc.
  destruct (on_result fuel (ports s) addr port hash rng) as [[[t a] rng']|f].
  - destruct Hc as (Hw & _ & Hr). split; [split; [done|by apply on_result_inv]|].
    by eapply on_result_starts_none.
  - split; [split; [done|by apply on_result_inv]|done].
Qed.

Lemma expire_keeps exp now :
  (exists tasks, deque_wf (expiries exp) tasks) ->
  keeps (fun s => mkStrategies
    match expire exp (ports s) now with Ret (_, a) => a | Fault _ => ports s end (ips s)).
Proof.
  intros [tasks Hd] hist s [Hp Hi].
  destruct (expire_ok capacity 0 now (exp_batch_size exp) exp (ports s) tasks Hp Hd)
    as (exp' & a & tasks' & He & Hw & _ & _ & _ & Hn & _). unfold expire. rewrite He. by split.
Qed.

(** The addresses of the packets [new], handed out after those of [hist]. *)
Definition after (new : list PacketTemplate) (hist : list Z) : list Z := rev (t_ip <$> new) ++ hist.

Lemma after_cons t new hist : after (t :: new) hist = after new (t_ip t :: hist).
Proof. unfold after. simpl. by rewrite <- app_assoc. Qed.

(** Addresses that are new, distinct and allowed. *)
Definition fresh (hist : list Z) (new : list PacketTemplate) : Prop :=
  NoDup (t_ip <$> new)
  /\ forall t, t ∈ new -> in_u32 (t_ip t) /\ (t_ip t ∉ hist) /\ allowed (t_ip t / 256).

Lemma fresh_cons hist t new :
  in_u32 (t_ip t) -> t_ip t ∉ hist -> allowed (t_ip t / 256) -> fresh (t_ip t :: hist) new ->
  fresh hist (t :: new).
Proof.
  intros Ha Hn Hal [Hnd Hf]. split.
  - cbn. constructor; [|done]. intros (u & Hu & Hin)%list_elem_of_fmap.
    destruct (Hf u Hin) as (_ & Hnu & _). set_solver.
  - intros u [->|Hu]%elem_of_cons; [done|]. destruct (Hf u Hu) as (? & ? & ?). set_solver.
Qed.

(** The addresses with a state had one before or were started by [new]. *)
Definition started (s : strategies Q) (new : list PacketTemplate) (s' : strategies Q) : Prop :=
  forall x, x ∈ dom (states (ports s')) -> x ∈ dom (states (ports s)) \/ x ∈ t_ip <$> new.

Lemma feed_loop_ok timeout env : forall s index (rng : R) rb eb hist,
  strategies_ok hist s -> cursor_inv r sd hist index -> Forall keeps env ->
  exists f new, feed_loop env s index rng timeout rb eb = Ret f
    /\ strategies_ok (after new hist) (fed_strategies f) /\ cursor_inv r sd (after new hist) (fed_index f)
    /\ (length new <= length env)%nat /\ fresh hist new /\ started s new (fed_strategies f)
    /\ match fed_batch f with
       | Some b => b = (rb ++ new, eb ++ ((fun t => (timeout, t_ip t)) <$> new))
       | None => forall x, covers (inner r) x -> x ∈ after new hist
       end.
Proof.
  assert (Hnil : forall hist, fresh hist []) by (intros; split; [constructor|intros t Ht; by apply elem_of_nil in Ht]).
  induction env as [|e env IH]; intros s index rng rb eb hist Hs Hc He; cbn [feed_loop].
  { exists (mkFed s index rng (Some (rb, eb))), []. simpl. rewrite !app_nil_r. split_and!; try done. by left. }
  apply Forall_cons in He as [He Hes]. destruct (He hist s Hs) as [[Hp Hi] Hnone].
  destruct (guard_ok capacity 0 (ports (e s)) Hp) as (Hst & _ & Hg).
  destruct (guard (ports (e s))) as [[state|] a]; cbn [fst snd] in Hg, Hst.
  2: { destruct (IH (mkStrategies a (ips (e s))) index rng rb eb hist) as (f & new & Hf); [split; tauto|done..|].
       exists f, new. destruct Hf as (? & ? & ? & ? & ? & Hd & ?). cbn [length]. split_and!; try done; [lia|].
       intros x [Hx|Hx]%Hd; [|by right]. left. apply Hnone. by rewrite <- Hst. }
  destruct (next_address_ok r Hord sd allowed Hallowed hist (ips (e s)) index rng Hi Hc)
    as ([addr|] & i & index' & rng1 & -> & Ha); cbn [mbind outcome_bind answered] in *.
  - destruct Ha as (Ha & Hn & Hal & Hi' & Hc').
    destruct (generate_ok capacity 0 a state addr rng1 Hg) as (t & a' & rng2 & st & -> & Hw & _ & Hsa & _ & Ht & _).
    cbn [mbind outcome_bind]. subst addr.
    destruct (IH (mkStrategies a' i) index' rng2 (rb ++ [t]) (eb ++ [(timeout, t_ip t)]) (t_ip t :: hist))
      as (f & new & -> & Hs' & Hc'' & Hl & Hf & Hd & Hb); [by split|done..|].
    exists f, (t :: new). rewrite after_cons. split_and!; try done; [simpl; lia|by apply fresh_cons| |].
    + intros x [Hx|Hx]%Hd; [|right; simpl; by apply list_elem_of_further].
      cbn [ports] in Hx. rewrite Hsa, dom_insert_L, Hst in Hx.
      apply elem_of_union in Hx as [->%elem_of_singleton|Hx]; [right; simpl; apply list_elem_of_here|].
      left. by apply Hnone.
    + destruct (fed_batch f); [|done]. by rewrite Hb, <- !app_assoc.
  - destruct Ha as (Hi' & Hc' & Hall). eexists _, []. cbn. split_and!; try done; [|simpl; lia|].
    + split; [|done]. simpl. destruct Hg as [H1' H2' H3' H4' H5']. constructor; try done. lia.
    + intros x Hx. left. apply Hnone. cbn [ports fed_strategies] in Hx. by rewrite <- Hst.
Qed.

End proofs.
End feeder.

(** ** Lemmas: queues *)

Lemma has_room_mono {T} (d : Deque T) n m : has_room d n -> m <= n -> has_room d m.
Proof. unfold has_room. intros Hr Hm. repeat case_cmp_step; lia. Qed.

(** Room for a batch of up to [n], far from the end of the counter. *)
Definition takes {T} (d : Deque T) (n : Z) : Prop := has_room d n /\ produced d + n < 2 ^ 58.

Lemma batch_ok q (tasks new : list PacketTemplate) (exps more : list PortPmap.Expiry) n :
  deque_wf (results q) tasks -> deque_wf (deadlines q) exps ->
  takes (results q) n -> takes (deadlines q) n -> zlen new <= n -> zlen more <= n ->
  exists q', batch q new more = Ret q'
    /\ deque_wf (results q') (tasks ++ new) /\ deque_wf (deadlines q') (exps ++ more).
Proof.
  intros Hr Hd [Hr1 Hr2] [Hd1 Hd2] Hn Hm. unfold batch.
  destruct (push_wf (results q) tasks new) as (r' & -> & Hw & _); [done|by eapply has_room_mono|lia|].
  destruct (push_wf (deadlines q) exps more) as (d' & -> & Hw' & _); [done|by eapply has_room_mono|lia|].
  cbn [mbind outcome_bind]. eauto.
Qed.

(** ** Theorem *)

(** A tick, with the addresses it starts. *)
(** Whatever the queues hold: if a tick returns, the strategies are in order. *)
Lemma feeder_tick_kept {Q R} `{ArrayQueue Q, PerfectRng, HashIter, Rng R}
    (r : Ipv4Ranges) (sd : Z) (allowed : Z -> Prop) (capacity : nat) (hist : list Z)
    (env : list (strategies Q -> strategies Q)) (now : Z) (self self' : Feeder R) (s s' : strategies Q)
    (q q' : queues) over :
  ordered_from 0 (inner r) -> (forall x, covers (inner r) x -> allowed (x / 256)) ->
  strategies_ok r sd allowed capacity hist s -> cursor_inv r sd hist (f_index self) ->
  Forall (keeps r sd allowed capacity) env -> feeder_tick env now self s q = Ret (over, self', s', q') ->
  exists new, strategies_ok r sd allowed capacity (after new hist) s'
    /\ cursor_inv r sd (after new hist) (f_index self') /\ fresh allowed hist new.
Proof.
  intros Hord Hal Hs Hc Henv. unfold feeder_tick. destruct (_ <=? _).
  { intros [= _ <- <- _]. exists []. split_and!; [done..|]. split; [constructor|]. by intros t ?%elem_of_nil. }
  destruct (feed_loop_ok r Hord sd allowed Hal capacity (now + f_timeout self) env s (f_index self)
    (f_rng self) [] [] hist Hs Hc Henv) as (f & new & -> & Hs' & Hc' & _ & Hf & _ & _).
  cbn [mbind outcome_bind]. intros E. exists new. destruct (fed_batch f) as [[rb eb]|]; [|by injection E as _ <- <- _].
  destruct (batch q rb eb) as [q1|]; [|done]. by injection E as _ <- <- _.
Qed.

Lemma feeder_tick_ok {Q R} `{ArrayQueue Q, PerfectRng, HashIter, Rng R}
    (r : Ipv4Ranges) (sd : Z) (allowed : Z -> Prop) (capacity : nat) (hist : list Z)
    (env : list (strategies Q -> strategies Q)) (now : Z) (self : Feeder R) (s : strategies Q)
    (q : queues) (tasks : list PacketTemplate) (exps : list PortPmap.Expiry) :
  ordered_from 0 (inner r) -> (forall x, covers (inner r) x -> allowed (x / 256)) ->
  strategies_ok r sd allowed capacity hist s -> cursor_inv r sd hist (f_index self) ->
  length env = f_batch_size self -> Forall (keeps r sd allowed capacity) env ->
  deque_wf (results q) tasks -> deque_wf (deadlines q) exps ->
  f_duration self <= now - f_start self
  \/ (takes (results q) (Z.of_nat (f_batch_size self)) /\ takes (deadlines q) (Z.of_nat (f_batch_size self))) ->
  exists over self' s' q' new, feeder_tick env now self s q = Ret (over, self', s', q')
    /\ strategies_ok r sd allowed capacity (after new hist) s'
    /\ cursor_inv r sd (after new hist) (f_index self') /\ fresh allowed hist new
    /\ started s new s'
    /\ match over with
       | true => q' = q /\ ((f_duration self <= now - f_start self /\ new = [])
                            \/ forall x, covers (inner r) x -> x ∈ after new hist)
       | false => now - f_start self < f_duration self
           /\ deque_wf (results q') (tasks ++ new)
           /\ deque_wf (deadlines q') (exps ++ ((fun t => (now + f_timeout self, t_ip t)) <$> new))
       end.
Proof.
  intros Hord Hal Hs Hc Hlen Henv Hr Hd Htake. unfold feeder_tick.
  destruct (Z.leb_spec (f_duration self) (now - f_start self)) as [Ht|Ht].
  { exists true, self, s, q, []. split_and!; try done; [|by left|by left].
    split; [constructor|]. intros t Hin. by apply elem_of_nil in Hin. }
  destruct Htake as [?|[Htr Htd]]; [lia|].
  destruct (feed_loop_ok r Hord sd allowed Hal capacity (now + f_timeout self) env s (f_index self)
    (f_rng self) [] [] hist Hs Hc Henv) as (f & new & -> & Hs' & Hc' & Hl & Hf & Hst & Hb).
  cbn [mbind outcome_bind]. destruct (fed_batch f) as [b|].
  - subst b. destruct (batch_ok q tasks new exps ((fun t => (now + f_timeout self, t_ip t)) <$> new)
      (Z.of_nat (f_batch_size self))) as (q' & Hq & Hw1 & Hw2); [done..|lia|rewrite length_fmap; lia|].
    cbn [app]. rewrite Hq. cbn [mbind outcome_bind].
    eexists false, _, _, q', new. split_and!; done.
  - eexists true, _, _, q, new. split_and!; try done. by right.
Qed.

(** C15: a tick of the feeder, whatever the other threads do to the strategies
    meanwhile, provided that both queues have room for a batch if one is to be
    pushed (the code does not check this: [push_overwrites]).  It does not
    fault; every address it takes is new, in a /24 that may be probed and taken
    once.  If the session goes on, the queue of packets and the queue of
    deadlines grow by just these addresses in the same order, each with the
    deadline [now + timeout].  If it ends the session, nothing is queued, and
    then the time is over and no address was taken, or every address in scope
    has been handed out (the addresses taken in that last turn are not probed:
    [last_batch_dropped]). *)
Theorem feeder_tick_batches {Q R} `{ArrayQueue Q, PerfectRng, HashIter, Rng R}
    (r : Ipv4Ranges) (sd : Z) (allowed : Z -> Prop) (capacity : nat) (hist : list Z)
    (env : list (strategies Q -> strategies Q)) (now : Z) (self : Feeder R) (s : strategies Q)
    (q : queues) (tasks : list PacketTemplate) (exps : list PortPmap.Expiry) :
  ordered_from 0 (inner r) -> (forall x, covers (inner r) x -> allowed (x / 256)) ->
  strategies_ok r sd allowed capacity hist s -> cursor_inv r sd hist (f_index self) ->
  length env = f_batch_size self -> Forall (keeps r sd allowed capacity) env ->
  deque_wf (results q) tasks -> deque_wf (deadlines q) exps ->
  f_duration self <= now - f_start self
  \/ (takes (results q) (Z.of_nat (f_batch_size self)) /\ takes (deadlines q) (Z.of_nat (f_batch_size self))) ->
  exists over self' s' q' new, feeder_tick env now self s q = Ret (over, self', s', q')
    /\ strategies_ok r sd allowed capacity (after new hist) s'
    /\ cursor_inv r sd (after new hist) (f_index self') /\ fresh allowed hist new
    /\ match over with
       | true => q' = q /\ ((f_duration self <= now - f_start self /\ new = [])
                            \/ forall x, covers (inner r) x -> x ∈ after new hist)
       | false => now - f_start self < f_duration self
           /\ deque_wf (results q') (tasks ++ new)
           /\ deque_wf (deadlines q') (exps ++ ((fun t => (now + f_timeout self, t_ip t)) <$> new))
       end.
Proof.
  intros Hord Hal Hs Hc Hlen Henv Hr Hd Htake.
  destruct (feeder_tick_ok r sd allowed capacity hist env now self s q tasks exps)
    as (over & self' & s' & q' & new & ? & ? & ? & ? & _ & Hover); [done..|].
  by exists over, self', s', q', new.
Qed.

(** ** Witness *)

Definition demo_strategies : strategies list_queue :=
  mkStrategies ex_adapter (ip_new ex_graph (f64_of_Z 1) (compile ex_ranges) 1).
Definition demo_feeder : Feeder replay := feeder_new (mkReplay [9; 11] [] 0) 0 1000 50 3.
Definition demo_env : list (strategies list_queue -> strategies list_queue) :=
  [id; (fun s => mkStrategies
    match on_result 9 (ports s) 167772160 25565 None (mkReplay [] [] 0) with
    | Ret (_, a, _) => a
    | Fault _ => ports s
    end (IpPmap.on_result (ips s) 167772160)); id].
Definition demo_queues : queues := mkQueues worker_new worker_new.

Lemma demo_adapter_wf : pool_wf 4 0 ex_adapter.
Proof.
  destruct (port_new_ok (Q := list_queue) ex_pg (f64_of_Z 0) 3 4 (Range 40000 40010)) as (a & Ha & Hw);
    [lia|apply ex_graph_ok|vm_compute; congruence|]. unfold ex_adapter. by rewrite Ha.
Qed.

Lemma feeder_tick_batches_witness :
  exists over self' s' q' new, feeder_tick demo_env 10 demo_feeder demo_strategies demo_queues
      = Ret (over, self', s', q')
    /\ strategies_ok ex_ranges 1 (fun _ => True) 4 (after new []) s'
    /\ cursor_inv ex_ranges 1 (after new []) (f_index self') /\ fresh (fun _ => True) [] new
    /\ match over with
       | true => q' = demo_queues /\ ((1000 <= 10 - 0 /\ new = [])
                            \/ forall x, covers (inner ex_ranges) x -> x ∈ after new [])
       | false => 10 - 0 < 1000
           /\ deque_wf (results q') ([] ++ new)
           /\ deque_wf (deadlines q') ([] ++ ((fun t => (10 + 50, t_ip t)) <$> new))
       end.
Proof.
  assert (Hord : ordered_from 0 (inner ex_ranges)) by (vm_compute; intuition congruence).
  destruct (ip_new_inv ex_ranges Hord 1 (fun _ => True) ex_graph (f64_of_Z 1)) as [Hi Hc].
  refine (feeder_tick_batches ex_ranges 1 (fun _ => True) 4 [] demo_env 10 demo_feeder demo_strategies
    demo_queues [] [] Hord (fun _ _ => I) _ Hc eq_refl _ (worker_new_wf) (worker_new_wf) _).
  - split; [apply demo_adapter_wf|exact Hi].
  - assert (Hid : keeps ex_ranges 1 (fun _ => True) 4 (Q := list_queue) id) by (intros hist s Hs; split; [exact Hs|reflexivity]).
    apply Forall_cons_2; [exact Hid|]. apply Forall_cons_2; [|apply Forall_cons_2; [exact Hid|apply Forall_nil_2]].
    apply on_result_keeps; [vm_compute; intuition congruence|exact I].
  - right. split; split; vm_compute; congruence.
Defined.

(** The packets of that tick: two addresses of the scope, with their ports. *)
Example feeder_demo :
  match feeder_tick demo_env 10 demo_feeder demo_strategies demo_queues with
  | Ret (over, _, _, q) =>
      (over, match steal_batch (results q) 8 with Ret (Success l, _) => t_ip <$> l | _ => [] end)
  | Fault _ => (true, [])
  end = (false, [167772161; 167772416]).
Proof. vm_compute. reflexivity. Qed.

(** The end of the addresses drops the batch it falls into: the 256 addresses
    of a /24, taken with batches of 257, are all handed out and none is queued. *)
Example last_batch_dropped :
  match port_new (Q := list_queue) ex_pg (f64_of_Z 0) 3 300 (Range 40000 40010) with
  | Ret a =>
      match feeder_tick (replicate 257 id) 10 (feeder_new (mkReplay [] [] 0) 0 1000 50 257)
              (mkStrategies a (ip_new ex_graph (f64_of_Z 1)
                 (compile (from_range (mkRange 167772160 167772415))) 1)) demo_queues with
      | Ret (over, self, _, q) => Some (over, f_index self, produced (results q))
      | Fault _ => None
      end
  | Fault _ => None
  end = Some (true, 256, 0).
Proof. vm_compute. reflexivity. Qed.
