(* ===== verification/Responder.v ===== *)
(** * Answering: [controller/responder.rs]

    The responder turns every received packet into the next step of a
    handshake that keeps no state until the peer has echoed the cookie: it
    sends the payload, collects the answer, reports the result to the
    strategies and sends the next probe. *)

From S2P Require Import Prelude Rand Tcp Ring Umem Completer Sender Receiver Minecraft.

(** ** The interfaces of the strategies and of the protocol *)

(** [PortAdapter::on_result]: the next packet to send to the address, if any. *)
Class PortAdapter (A R : Type) : Type := {
  port_on_result : A -> Ipv4Addr -> Z -> option Z -> R -> outcome (option PacketTemplate * A * R) }.

(** What a port strategy promises the responder: reporting a result keeps it
    in order and starts no new address ([port_le]); it may only loop for a bad
    random generator. *)
Class PortAdapterLaws (A R : Type) `{PortAdapter A R} : Type := {
  port_inv : A -> Prop;
  port_le : relation A;
  port_le_preorder : PreOrder port_le;
  port_on_result_ok a ip port hash r : port_inv a ->
    match port_on_result a ip port hash r with
    | Ret (_, a', _) => port_inv a' /\ port_le a a'
    | Fault f => f = OutOfFuel
    end }.
#[global] Existing Instance port_le_preorder.

(** [IpAdapter::on_result]. *)
Class IpAdapter (I : Type) : Type := { ip_on_result : I -> Ipv4Addr -> I }.

(** [Payload::build]. *)
Class Payload : Type := { build : Ipv4Addr -> Z -> result unit (list Z) }.

(** [fxhash::hash64] of a parsed answer. *)
Class Hash64 (Output : Type) : Type := { hash64 : Output -> Z }.

(** ** State *)

(** [State]; times are in nanoseconds. *)
Record State : Type := mkState {
  s_ip : Ipv4Addr;
  s_port : Z;
  s_data : list Z;
  next_expected_seq : Z;
  next_expected_ack : Z;
  reorder_buffer : gmap Z (list Z);
  expires_at : Z }.

Definition Key : Type := Ipv4Addr * Z.
Definition Expiry : Type := Z * Key.

(** A row for the database; its timestamp is left out. *)
Record Scanling (Output : Type) : Type := mkScanling {
  sc_ip : Ipv4Addr; sc_port : Z; response : Output }.
Arguments mkScanling {Output} _ _ _.

(** [clock] and [looks] are the readings of the clock and the looks at the
    receive rings still to come. *)
Record Responder (A I R Output : Type) : Type := mkResponder {
  port_adapter : A;
  ip_adapter : I;
  filled : Z;
  receiver : Receiver;
  r_net : net;
  connections : gmap Key State;
  scanlings : list (Scanling Output);
  expiries : list Expiry;
  pending_expiry : option Expiry;
  rng : R;
  seed : Z;
  max_reorder_segments : Z;
  max_reorder_bytes : Z;
  timeout : Z;
  clock : list Z;
  looks : list rlook }.
Arguments mkResponder {A I R Output} _ _ _ _ _ _ _ _ _ _ _ _ _ _ _ _.
Arguments port_adapter {A I R Output} _.
Arguments ip_adapter {A I R Output} _.
Arguments filled {A I R Output} _.
Arguments receiver {A I R Output} _.
Arguments r_net {A I R Output} _.
Arguments connections {A I R Output} _.
Arguments scanlings {A I R Output} _.
Arguments expiries {A I R Output} _.
Arguments pending_expiry {A I R Output} _.
Arguments rng {A I R Output} _.
Arguments seed {A I R Output} _.
Arguments max_reorder_segments {A I R Output} _.
Arguments max_reorder_bytes {A I R Output} _.
Arguments timeout {A I R Output} _.
Arguments clock {A I R Output} _.
Arguments looks {A I R Output} _.

(** ** Pieces of [process_ack] that work on one connection *)

Definition with_buffer (s : State) (b : gmap Z (list Z)) : State :=
  mkState (s_ip s) (s_port s) (s_data s) (next_expected_seq s) (next_expected_ack s) b (expires_at s).

Definition buffered_bytes (s : State) : Z :=
  map_fold (fun _ v acc => zlen v + acc) 0 (reorder_buffer s).

(** A segment that is not the next one: kept if it is close ahead and the
    limits allow it. *)
Definition hold_back (max_bytes max_segments : Z) (s : State) (seq : Z) (payload : list Z) : State :=
  let diff := u32_of (seq - next_expected_seq s) in
  if (diff <? 65535) && negb (bool_decide (payload = []))
     && (Z.of_nat (base.size (reorder_buffer s)) <? max_segments)
     && (buffered_bytes s + zlen payload <=? max_bytes)
  then with_buffer s (<[seq := payload]> (reorder_buffer s))
  else s.

(** The [while let] loop; every turn takes a segment out of the buffer. *)
Fixpoint stitch (fuel : nat) (s : State) : State :=
  match fuel with
  | O => s
  | S fuel =>
      match reorder_buffer s !! next_expected_seq s with
      | None => s
      | Some buffered =>
          stitch fuel
            (mkState (s_ip s) (s_port s) (s_data s ++ buffered)
               (u32_of (next_expected_seq s + zlen buffered)) (next_expected_ack s)
               (delete (next_expected_seq s) (reorder_buffer s)) (expires_at s))
      end
  end.

(** The segment that is expected next, then whatever it makes contiguous. *)
Definition accept (s : State) (seq : Z) (payload : list Z) : State :=
  stitch (base.size (reorder_buffer s))
    (mkState (s_ip s) (s_port s) (s_data s ++ payload) (u32_of (seq + zlen payload))
       (next_expected_ack s) (reorder_buffer s) (expires_at s)).

Section responder.
Context {A I R Output : Type} `{KernelConsts} `{UnalignedConsts}.
Context `{PortAdapter A R} `{IpAdapter I} `{Payload} `{Parser Output} `{Hash64 Output}.

Abbreviation Resp := (Responder A I R Output).

(** ** The monad the handlers run in: state, [anyhow::Error]s and faults *)

Definition M (X : Type) : Type := Resp -> outcome (result unit X * Resp).

Definition pure {X} (x : X) : M X := fun self => Ret (Ok x, self).
Definition bail {X} : M X := fun self => Ret (Err tt, self).
Definition get : M Resp := fun self => Ret (Ok self, self).
Definition put (self : Resp) : M unit := fun _ => Ret (Ok tt, self).
Definition lift {X} (o : outcome X) : M X := fun self => x ← o; Ret (Ok x, self).
Definition bind {X Y} (m : M X) (k : X -> M Y) : M Y := fun self =>
  '(r, self) ← m self;
  match r with Ok x => k x self | Err e => Ret (Err e, self) end.

Declare Scope responder_scope.
Delimit Scope responder_scope with resp.
Notation "'let!' x := m 'in' k" := (bind m (fun x => k))
  (at level 10, x pattern, k at level 200) : responder_scope.
Notation "m ;; k" := (bind m (fun _ => k))
  (at level 100, k at level 200, right associativity) : responder_scope.
Open Scope responder_scope.

Definition set_net (n : net) (self : Resp) : Resp :=
  mkResponder (port_adapter self) (ip_adapter self) (filled self) (receiver self) n (connections self)
    (scanlings self) (expiries self) (pending_expiry self) (rng self) (seed self)
    (max_reorder_segments self) (max_reorder_bytes self) (timeout self) (clock self) (looks self).
Definition set_connections (c : gmap Key State) (self : Resp) : Resp :=
  mkResponder (port_adapter self) (ip_adapter self) (filled self) (receiver self) (r_net self) c
    (scanlings self) (expiries self) (pending_expiry self) (rng self) (seed self)
    (max_reorder_segments self) (max_reorder_bytes self) (timeout self) (clock self) (looks self).
Definition set_port (a : A) (r : R) (self : Resp) : Resp :=
  mkResponder a (ip_adapter self) (filled self) (receiver self) (r_net self) (connections self)
    (scanlings self) (expiries self) (pending_expiry self) r (seed self)
    (max_reorder_segments self) (max_reorder_bytes self) (timeout self) (clock self) (looks self).
Definition set_hit (i : I) (self : Resp) : Resp :=
  mkResponder (port_adapter self) i (filled self) (receiver self) (r_net self) (connections self)
    (scanlings self) (expiries self) (pending_expiry self) (rng self) (seed self)
    (max_reorder_segments self) (max_reorder_bytes self) (timeout self) (clock self) (looks self).
Definition set_scanlings (l : list (Scanling Output)) (self : Resp) : Resp :=
  mkResponder (port_adapter self) (ip_adapter self) (filled self) (receiver self) (r_net self)
    (connections self) l (expiries self) (pending_expiry self) (rng self) (seed self)
    (max_reorder_segments self) (max_reorder_bytes self) (timeout self) (clock self) (looks self).
Definition set_expiries (l : list Expiry) (p : option Expiry) (self : Resp) : Resp :=
  mkResponder (port_adapter self) (ip_adapter self) (filled self) (receiver self) (r_net self)
    (connections self) (scanlings self) l p (rng self) (seed self)
    (max_reorder_segments self) (max_reorder_bytes self) (timeout self) (clock self) (looks self).
Definition set_clock (l : list Z) (self : Resp) : Resp :=
  mkResponder (port_adapter self) (ip_adapter self) (filled self) (receiver self) (r_net self)
    (connections self) (scanlings self) (expiries self) (pending_expiry self) (rng self) (seed self)
    (max_reorder_segments self) (max_reorder_bytes self) (timeout self) l (looks self).
Definition set_receiver (r : Receiver) (f : Z) (l : list rlook) (self : Resp) : Resp :=
  mkResponder (port_adapter self) (ip_adapter self) f r (r_net self) (connections self)
    (scanlings self) (expiries self) (pending_expiry self) (rng self) (seed self)
    (max_reorder_segments self) (max_reorder_bytes self) (timeout self) (clock self) l.

Definition modify (f : Resp -> Resp) : M unit := fun self => Ret (Ok tt, f self).

(** A call of the sender. *)
Definition sending (op : net -> outcome (result unit unit * net)) : M unit := fun self =>
  '(r, n) ← op (r_net self);
  Ret (r, set_net n self).

(** [Instant::now()]. *)
Definition now : M Z := fun self =>
  match clock self with
  | [] => Fault OutOfFuel
  | t :: ts => Ret (Ok t, set_clock ts self)
  end.

(** ** [Responder::new]; the limits and the timeout come from the configuration. *)

Definition responder_new (rcv : Receiver) (n : net) (a : A) (i : I) (r : R) (fill sd : Z)
    (max_segments max_bytes time : Z) (ts : list Z) (ls : list rlook) : Resp :=
  mkResponder a i fill rcv n ∅ [] [] None r sd max_segments max_bytes time ts ls.

(** ** Reporting results *)

(** [record_empty] and [record_hit] differ in the hash only. *)
Definition record (ip : Ipv4Addr) (port : Z) (hash : option Z) : M unit :=
  let! self := get in
  let! (template, a, r) := lift (port_on_result (port_adapter self) ip port hash (rng self)) in
  modify (set_port a r) ;;
  match template with
  | None => pure tt
  | Some template => sending (send_syn template (seed self))
  end.

Definition record_empty (ip : Ipv4Addr) (port : Z) : M unit := record ip port None.
Definition record_hit (ip : Ipv4Addr) (port hash : Z) : M unit := record ip port (Some hash).

Definition set_conn (k : Key) (s : State) (self : Resp) : Resp :=
  set_connections (<[k := s]> (connections self)) self.
Definition drop_conn (k : Key) (self : Resp) : Resp :=
  set_connections (delete k (connections self)) self.
Definition push_expiry (e : Expiry) (self : Resp) : Resp :=
  set_expiries (expiries self ++ [e]) (pending_expiry self) self.

(** ** [process_syn_ack] *)

Definition process_syn_ack (ip : Ipv4Addr) (hdr : TcpHdr) : M unit :=
  let source_port := h_dest_port hdr in
  let port := h_source_port hdr in
  let ack := h_ack hdr in
  let seq := h_seq hdr in
  let! self := get in
  let expected_ack := u32_of (cookie ip port (seed self) + 1) in
  if negb (ack =? expected_ack) then record_empty ip port
  else
    match build ip port with
    | Err _ =>
        sending (send Rst ip source_port port ack seq) ;;
        record_empty ip port ;;
        bail
    | Ok payload =>
        let seq := u32_of (seq + 1) in
        sending (send_with_data ip source_port port ack seq payload) ;;
        let! t := now in
        let expires_at := t + timeout self in
        modify (push_expiry (expires_at, (ip, port))) ;;
        modify (set_conn (ip, port)
          (mkState ip port [] seq (u32_of (ack + u32_of (zlen payload))) ∅ expires_at))
    end.

(** ** [process_ack] *)

(** The [match parser.parse(&state.data)] at its end. *)
Definition finish_ack (ip : Ipv4Addr) (source_port port : Z) (s : State) : M unit :=
  match parse (s_data s) with
  | Ok banner =>
      modify (drop_conn (ip, port)) ;;
      sending (send Rst ip source_port port (next_expected_ack s) (next_expected_seq s)) ;;
      modify (fun self => set_hit (ip_on_result (ip_adapter self) ip) self) ;;
      record_hit ip port (hash64 banner) ;;
      modify (fun self => set_scanlings (scanlings self ++ [mkScanling ip port banner]) self)
  | Err Invalid =>
      record_empty ip port ;;
      modify (drop_conn (ip, port)) ;;
      sending (send Rst ip source_port port (next_expected_ack s) (next_expected_seq s))
  | Err Incomplete =>
      let! self := get in
      let s := mkState (s_ip s) (s_port s) (s_data s) (next_expected_seq s) (next_expected_ack s)
                 (reorder_buffer s) (expires_at s + timeout self) in
      modify (set_conn (ip, port) s) ;;
      modify (push_expiry (expires_at s, (ip, port))) ;;
      sending (send Ack ip source_port port (next_expected_ack s) (next_expected_seq s))
  end.

Definition process_ack (ip : Ipv4Addr) (hdr : TcpHdr) (payload : list Z) : M unit :=
  let source_port := h_dest_port hdr in
  let port := h_source_port hdr in
  let ack := h_ack hdr in
  let seq := h_seq hdr in
  let! self := get in
  match connections self !! (ip, port) with
  | None =>
      record_empty ip port ;;
      sending (send Rst ip source_port port ack (u32_of (seq + u32_of (zlen payload))))
  | Some state =>
      if negb (ack =? next_expected_ack state) then pure tt
      else if negb (seq =? next_expected_seq state) then
        let state := hold_back (max_reorder_bytes self) (max_reorder_segments self) state seq payload in
        modify (set_conn (ip, port) state) ;;
        sending (send Ack ip source_port port (next_expected_ack state) (next_expected_seq state))
      else if bool_decide (payload = []) then pure tt
      else
        let state := accept state seq payload in
        modify (set_conn (ip, port) state) ;;
        finish_ack ip source_port port state
  end.

(** ** [process_fin] *)

Definition process_fin (ip : Ipv4Addr) (hdr : TcpHdr) (payload : list Z) : M unit :=
  let source_port := h_dest_port hdr in
  let port := h_source_port hdr in
  let ack := h_ack hdr in
  let seq := h_seq hdr in
  sending (send Rst ip source_port port ack (u32_of (u32_of (seq + 1) + u32_of (zlen payload)))) ;;
  let! self := get in
  match connections self !! (ip, port) with
  | None => record_empty ip port
  | Some state =>
      modify (drop_conn (ip, port)) ;;
      if bool_decide (payload = []) then record_empty ip port
      else
        match parse (s_data state ++ payload) with
        | Ok banner =>
            modify (fun self => set_hit (ip_on_result (ip_adapter self) ip) self) ;;
            record_hit ip port (hash64 banner) ;;
            modify (fun self => set_scanlings (scanlings self ++ [mkScanling ip port banner]) self)
        | Err Invalid => record_empty ip port
        | Err Incomplete => record_empty ip port
        end
  end.

(** ** [process_packet] *)

(** [&data[a..b]] and [data[i]], which panic out of range. *)
Definition slice (data : list Z) (a b : Z) : outcome (list Z) :=
  if (a <=? b) && (b <=? zlen data) then
    Ret (take (Z.to_nat (b - a)) (drop (Z.to_nat a) data))
  else Fault Panic.
Definition at_index (data : list Z) (i : Z) : outcome Z :=
  match data !! Z.to_nat i with Some b => Ret b | None => Fault Panic end.

(** [Ipv4Addr::from_octets] and [u16::from_be_bytes] of slices of their size. *)
Definition addr_of (l : list Z) : Ipv4Addr :=
  match l with [a; b; c; d] => be32 a b c d | _ => 0 end.
Definition word_of (l : list Z) : Z := match l with [a; b] => be16 a b | _ => 0 end.

Definition process_packet (data : list Z) : M unit :=
  let! addr := lift (slice data 26 30) in
  let ip := addr_of addr in
  let! b := lift (at_index data 14) in
  let tcp_start := 14 + u8_of (Z.shiftl (Z.land b 0x0F) 2) in
  let! len := lift (slice data 16 18) in
  let packet_end := Z.min (14 + word_of len) (zlen data) in
  let! off := lift (at_index data (tcp_start + 12)) in
  let data_start := tcp_start + Z.shiftr (Z.land off 0xF0) 2 in
  if packet_end <? data_start then pure tt
  else
    let! tcp_payload := lift (slice data data_start packet_end) in
    let! h := lift (slice data tcp_start (tcp_start + Z.of_nat TcpHdr_size)) in
    match TcpHdr_ref_from_bytes h with
    | None => pure tt
    | Some hdr =>
        if contains (h_flags hdr) Rst then
          record_empty ip (h_source_port hdr) ;;
          modify (drop_conn (ip, h_source_port hdr))
        else if contains (h_flags hdr) Fin then process_fin ip hdr tcp_payload
        else if contains (h_flags hdr) (Z.lor Syn Ack) then process_syn_ack ip hdr
        else if contains (h_flags hdr) Ack then process_ack ip hdr tcp_payload
        else pure tt
    end.

(** ** [tick] *)

(** An error of one packet is logged and the next one is processed. *)
Definition attempt (m : M unit) : M unit := fun self =>
  '(_, self) ← m self;
  Ret (Ok tt, self).

(** [for data in data_batch]: the bytes of a slice are those of the packet
    memory when it is handed out. *)
Fixpoint process_batch (n : nat) (g : BatchGuard) : M BatchGuard := fun self =>
  '(o, g, rcv) ← guard_next g (receiver self);
  let self := set_receiver rcv (filled self) (looks self) self in
  match o, n with
  | None, _ => Ret (Ok g, self)
  | Some _, O => Fault OutOfFuel
  | Some (addr, len), S n =>
      data ← load (umem (r_net self)) addr len;
      '(_, self) ← attempt (process_packet data) self;
      process_batch n g self
  end.

(** The [loop] over the deadlines; every turn but the last takes one from the
    queue. *)
Fixpoint expire_loop (n : nat) (t : Z) : M unit :=
  let! self := get in
  let next :=
    match pending_expiry self with
    | Some e => Some (e, expiries self)
    | None => match expiries self with [] => None | e :: l => Some (e, l) end
    end in
  match next, n with
  | None, _ => pure tt
  | Some _, O => lift (Fault OutOfFuel)
  | Some ((expiry, key), l), S n =>
      modify (set_expiries l None) ;;
      match connections self !! key with
      | None => expire_loop n t
      | Some connection =>
          if t <? expiry then modify (set_expiries l (Some (expiry, key)))
          else
            modify (drop_conn key) ;;
            record_empty (s_ip connection) (s_port connection) ;;
            expire_loop n t
      end
  end.

Definition expire_fuel (self : Resp) : nat := S (length (expiries self)).

(** A look at the receive rings. *)
Definition look : M rlook := fun self =>
  match looks self with
  | [] => Fault OutOfFuel
  | t :: ts => Ret (Ok t, set_receiver (receiver self) (filled self) ts self)
  end.

Definition tick : M (option unit) :=
  let! t := look in
  let! self := get in
  let '(r, rcv) := receive t (receiver self) in
  modify (fun self => set_receiver rcv (filled self) (looks self) self) ;;
  match r with
  | Err _ => bail
  | Ok None => pure None
  | Ok (Some g) =>
      let! g := process_batch (Z.to_nat (g_count g)) g in
      let! t := look in
      let! self := get in
      let! (rcv, f) := lift (guard_drop t g (receiver self) (filled self)) in
      modify (fun self => set_receiver rcv f (looks self) self) ;;
      let! time := now in
      let! self := get in
      expire_loop (expire_fuel self) time ;;
      pure (Some tt)
  end.

End responder.

(** ** Specification: the byte stream of a peer *)

(** The segment with sequence number [seq] carries bytes of the stream that
    starts at sequence number [isn]. *)
Definition segment_of (stream : list Z) (isn seq : Z) (payload : list Z) : Prop :=
  exists o : nat, (o + length payload <= length stream)%nat
    /\ seq = u32_of (isn + Z.of_nat o) /\ payload = take (length payload) (drop o stream).

(** What a connection knows of the stream: a prefix of it, the number of the
    byte after that prefix, and pieces further ahead. *)
Definition follows (stream : list Z) (isn : Z) (s : State) : Prop :=
  (exists n : nat, (n <= length stream)%nat /\ s_data s = take n stream
     /\ next_expected_seq s = u32_of (isn + Z.of_nat n))
  /\ forall k v, reorder_buffer s !! k = Some v -> v <> [] /\ segment_of stream isn k v.

(** The reorder buffer is within the limits. *)
Definition bounded (max_bytes max_segments : Z) (s : State) : Prop :=
  Z.of_nat (base.size (reorder_buffer s)) <= Z.max 0 max_segments
  /\ buffered_bytes s <= Z.max 0 max_bytes.

(** ** Lemmas: one connection *)

Lemma buffered_bytes_insert s k v :
  reorder_buffer s !! k = None ->
  buffered_bytes (with_buffer s (<[k := v]> (reorder_buffer s))) = zlen v + buffered_bytes s.
Proof. intros Hk. unfold buffered_bytes. simpl. rewrite map_fold_insert_L; [done| |done]. intros. lia. Qed.

Lemma map_fold_bytes_nonneg (m : gmap Z (list Z)) : 0 <= map_fold (fun _ v acc => zlen v + acc) 0 m.
Proof. apply (map_fold_weak_ind (fun r _ => 0 <= r)); intros; lia. Qed.

Lemma map_fold_bytes_delete (m : gmap Z (list Z)) k v :
  m !! k = Some v ->
  map_fold (fun _ v acc => zlen v + acc) 0 m = zlen v + map_fold (fun _ v acc => zlen v + acc) 0 (delete k m).
Proof.
  intros Hk. apply (map_fold_delete_L (fun (_ : Z) v acc => zlen v + acc) 0 k v m); [intros; lia|done].
Qed.

Lemma hold_back_frame mb ms s seq payload :
  let s' := hold_back mb ms s seq payload in
  s_ip s' = s_ip s /\ s_port s' = s_port s /\ s_data s' = s_data s
  /\ next_expected_seq s' = next_expected_seq s /\ next_expected_ack s' = next_expected_ack s
  /\ expires_at s' = expires_at s.
Proof. unfold hold_back. by destruct (_ && _). Qed.

Lemma hold_back_nil mb ms s seq : hold_back mb ms s seq [] = s.
Proof. unfold hold_back. by rewrite andb_false_r. Qed.

Lemma hold_back_bounded mb ms s seq payload :
  bounded mb ms s -> bounded mb ms (hold_back mb ms s seq payload).
Proof.
  intros [Hs Hb]. unfold hold_back. destruct (_ && _) eqn:E; [|done].
  apply andb_true_iff in E as [[_ E1%Z.ltb_lt]%andb_true_iff E2%Z.leb_le].
  split; simpl.
  - rewrite map_size_insert. destruct (reorder_buffer s !! seq); simpl; lia.
  - unfold buffered_bytes in *. simpl.
    destruct (reorder_buffer s !! seq) as [v|] eqn:Ek.
    + rewrite <- insert_delete_eq, map_fold_insert_L;
        [|intros; lia|by rewrite lookup_delete_eq].
      rewrite (map_fold_bytes_delete _ _ _ Ek) in E2. lia.
    + rewrite map_fold_insert_L; [lia|intros; lia|done].
Qed.

Lemma stitch_frame fuel : forall s,
  s_ip (stitch fuel s) = s_ip s /\ s_port (stitch fuel s) = s_port s
  /\ next_expected_ack (stitch fuel s) = next_expected_ack s
  /\ expires_at (stitch fuel s) = expires_at s.
Proof.
  induction fuel as [|fuel IH]; intros s; simpl; [done|].
  destruct (reorder_buffer s !! _); [|done].
  destruct (IH (mkState (s_ip s) (s_port s) (s_data s ++ l) (u32_of (next_expected_seq s + zlen l))
    (next_expected_ack s) (delete (next_expected_seq s) (reorder_buffer s)) (expires_at s)))
    as (-> & -> & -> & ->). done.
Qed.

Lemma stitch_bounded mb ms fuel : forall s, bounded mb ms s -> bounded mb ms (stitch fuel s).
Proof.
  induction fuel as [|fuel IH]; intros s [Hs Hb]; simpl; [done|].
  destruct (reorder_buffer s !! _) as [v|] eqn:Ek; [|done]. apply IH. split; simpl.
  - rewrite map_size_delete, Ek. lia.
  - unfold buffered_bytes in *. simpl. rewrite (map_fold_bytes_delete _ _ _ Ek) in Hb. lia.
Qed.

(** The loop runs until the next byte is missing. *)
Lemma stitch_complete fuel : forall s, (base.size (reorder_buffer s) <= fuel)%nat ->
  reorder_buffer (stitch fuel s) !! next_expected_seq (stitch fuel s) = None.
Proof.
  induction fuel as [|fuel IH]; intros s Hf; simpl.
  - rewrite (map_size_empty_inv (reorder_buffer s)) by lia. apply lookup_empty.
  - destruct (reorder_buffer s !! _) as [v|] eqn:Ek; [|done]. apply IH. simpl.
    rewrite map_size_delete, Ek. lia.
Qed.

Section stream.
Context (stream : list Z) (isn : Z) (Hlen : zlen stream < 2 ^ 32).

Lemma hold_back_follows mb ms s seq payload :
  follows stream isn s -> segment_of stream isn seq payload ->
  follows stream isn (hold_back mb ms s seq payload).
Proof.
  intros [Hn Hb] Hseg. unfold hold_back. destruct (_ && _) eqn:E; [|done]. split; [done|].
  simpl. intros k v [[-> <-]|[_ Hk]]%lookup_insert_Some; [|by apply Hb].
  apply andb_true_iff in E as [[[_ E]%andb_true_iff _]%andb_true_iff _].
  apply negb_true_iff, bool_decide_eq_false in E. done.
Qed.

(** A segment whose number is that of the next byte continues the prefix. *)
Lemma segment_continues (n : nat) seq payload :
  (n <= length stream)%nat -> payload <> [] -> segment_of stream isn seq payload ->
  seq = u32_of (isn + Z.of_nat n) ->
  (n + length payload <= length stream)%nat
  /\ take n stream ++ payload = take (n + length payload) stream
  /\ u32_of (seq + zlen payload) = u32_of (isn + Z.of_nat (n + length payload)).
Proof.
  intros Hn Hp (o & Ho & Hso & Hpl) Hseq.
  assert (o = n) as ->.
  { assert (0 < length payload)%nat by (destruct payload; simpl; [done|lia]).
    rewrite Hseq in Hso. unfold u32_of in Hso. rewrite !(Z.add_comm isn) in Hso.
    apply wrap_add_cancel in Hso. rewrite !wrap_small in Hso by (unfold in_width; lia). lia. }
  split_and!; [done| |].
  - rewrite Hpl at 1. apply take_take_drop.
  - rewrite Hseq. unfold u32_of. rewrite wrap_add_l. f_equal. lia.
Qed.

Lemma stitch_follows fuel : forall s, follows stream isn s -> follows stream isn (stitch fuel s).
Proof.
  induction fuel as [|fuel IH]; intros s [(n & Hn & Hd & Hs) Hb]; simpl; [by split; [exists n|]|].
  destruct (reorder_buffer s !! _) as [v|] eqn:Ek; [|by split; [exists n|]]. apply IH.
  destruct (Hb _ _ Ek) as [Hv Hseg].
  destruct (segment_continues n _ v Hn Hv Hseg Hs) as (H1 & H2 & H3). split; simpl.
  - exists (n + length v)%nat. rewrite Hd. done.
  - intros k w [_ Hk]%lookup_delete_Some. by apply Hb.
Qed.

Lemma accept_follows s payload :
  follows stream isn s -> payload <> [] -> segment_of stream isn (next_expected_seq s) payload ->
  follows stream isn (accept s (next_expected_seq s) payload).
Proof.
  intros [(n & Hn & Hd & Hs) Hb] Hp Hseg. apply stitch_follows.
  destruct (segment_continues n _ payload Hn Hp Hseg Hs) as (H1 & H2 & H3).
  split; simpl; [|done]. exists (n + length payload)%nat. rewrite Hd. done.
Qed.

End stream.

Lemma stitch_prefix fuel : forall s, s_data s `prefix_of` s_data (stitch fuel s).
Proof.
  induction fuel as [|fuel IH]; intros s; simpl; [done|].
  destruct (reorder_buffer s !! _) as [v|]; [|done].
  etrans; [|apply IH]. simpl. by apply prefix_app_r.
Qed.

Lemma accept_grows s seq payload :
  s_data s ++ payload `prefix_of` s_data (accept s seq payload).
Proof. apply stitch_prefix. Qed.

Lemma accept_frame s seq payload :
  let s' := accept s seq payload in
  s_ip s' = s_ip s /\ s_port s' = s_port s /\ next_expected_ack s' = next_expected_ack s
  /\ expires_at s' = expires_at s.
Proof.
  exact (stitch_frame (base.size (reorder_buffer s))
    (mkState (s_ip s) (s_port s) (s_data s ++ payload) (u32_of (seq + zlen payload))
       (next_expected_ack s) (reorder_buffer s) (expires_at s))).
Qed.

Lemma accept_bounded mb ms s seq payload : bounded mb ms s -> bounded mb ms (accept s seq payload).
Proof. intros Hb. by apply stitch_bounded. Qed.
