(* ===== verification/Handshake.v ===== *)
(** * Connections: what [controller/responder.rs] does to its table

    The handlers of the responder refine a small state machine on the
    connections, the answers found and the deadlines; what the program relies
    on (connections open on an echoed cookie only, streams are put together in
    order, buffers are bounded, nothing waits for ever) is proved of that
    machine. *)

From S2P Require Import Prelude Rand Tcp Ring Umem Completer Sender Receiver Minecraft Xdp Responder.

(** ** Specification: the connection table as a state machine

    What is left of the responder when the packets it sends and the strategies
    are forgotten: the connections, the answers found and the deadlines. *)

Record conns (Output : Type) : Type := mkConns {
  c_map : gmap Key State;
  c_hits : list (Scanling Output);
  c_queue : list Expiry }.
Arguments mkConns {Output} _ _ _.
Arguments c_map {Output} _.
Arguments c_hits {Output} _.
Arguments c_queue {Output} _.

Section machine.
Context {A I R Output : Type} `{Payload} `{Parser Output}.
Abbreviation Resp := (Responder A I R Output).

Definition view (self : Resp) : conns Output :=
  mkConns (connections self) (scanlings self) (option_list (pending_expiry self) ++ expiries self).

(** The kinds of packets, by the flags that are looked at in turn. *)
Definition is_rst (h : TcpHdr) : bool := contains (h_flags h) Rst.
Definition is_fin (h : TcpHdr) : bool := negb (is_rst h) && contains (h_flags h) Fin.
Definition is_syn_ack (h : TcpHdr) : bool :=
  negb (is_rst h) && negb (is_fin h) && contains (h_flags h) (Z.lor Syn Ack).
Definition is_ack (h : TcpHdr) : bool :=
  negb (is_rst h) && negb (is_fin h) && negb (is_syn_ack h) && contains (h_flags h) Ack.

(** The segment is the one a connection waits for. *)
Definition in_order (h : TcpHdr) (payload : list Z) (s : State) : Prop :=
  is_ack h = true /\ h_ack h = next_expected_ack s /\ h_seq h = next_expected_seq s /\ payload <> [].

(** There is nothing to do: processing failed, or the packet asks for nothing.
    It is a SYN and ACK for something else than the cookie, or of a peer
    without a connection, or it acknowledges something else or brings nothing,
    or it is of no kind that is looked at. *)
Definition idle (self : Resp) (ip : Ipv4Addr) (h : TcpHdr) (payload : list Z) (r : result unit unit) : Prop :=
  r = Err tt
  \/ (is_syn_ack h = true /\ h_ack h <> u32_of (cookie ip (h_source_port h) (seed self) + 1))
  \/ (is_syn_ack h = false /\ connections self !! (ip, h_source_port h) = None)
  \/ (exists s, is_ack h = true /\ connections self !! (ip, h_source_port h) = Some s
        /\ (h_ack h <> next_expected_ack s \/ h_seq h = next_expected_seq s /\ payload = []))
  \/ (is_rst h = false /\ is_fin h = false /\ is_syn_ack h = false /\ is_ack h = false).

(** One packet from [ip], by how processing it ends ([r]). *)
Inductive conn_step (self : Resp) (ip : Ipv4Addr) (h : TcpHdr) (payload : list Z)
    (r : result unit unit) : conns Output -> Prop :=
  | step_none : idle self ip h payload r -> conn_step self ip h payload r (view self)
  | step_open p t :
      (* a SYN and ACK that echoes the cookie *)
      is_syn_ack h = true -> h_ack h = u32_of (cookie ip (h_source_port h) (seed self) + 1) ->
      build ip (h_source_port h) = Ok p ->
      conn_step self ip h payload r
        (mkConns
           (<[(ip, h_source_port h) :=
                mkState ip (h_source_port h) [] (u32_of (h_seq h + 1))
                  (u32_of (h_ack h + u32_of (zlen p))) ∅ (t + timeout self)]> (connections self))
           (scanlings self)
           (c_queue (view self) ++ [(t + timeout self, (ip, h_source_port h))]))
  | step_hold s :
      (* a segment out of order *)
      connections self !! (ip, h_source_port h) = Some s ->
      is_ack h = true -> h_ack h = next_expected_ack s -> h_seq h <> next_expected_seq s ->
      conn_step self ip h payload r
        (mkConns
           (<[(ip, h_source_port h) :=
                hold_back (max_reorder_bytes self) (max_reorder_segments self) s (h_seq h) payload]>
              (connections self)) (scanlings self) (c_queue (view self)))
  | step_more s :
      (* the answer is not complete yet *)
      connections self !! (ip, h_source_port h) = Some s -> in_order h payload s ->
      parse (s_data (accept s (h_seq h) payload)) = Err Incomplete ->
      let s' := accept s (h_seq h) payload in
      conn_step self ip h payload r
        (mkConns
           (<[(ip, h_source_port h) :=
                mkState (s_ip s') (s_port s') (s_data s') (next_expected_seq s') (next_expected_ack s')
                  (reorder_buffer s') (expires_at s' + timeout self)]> (connections self))
           (scanlings self)
           (c_queue (view self) ++ [(expires_at s' + timeout self, (ip, h_source_port h))]))
  | step_stuck s :
      (* the answer is not one, and reporting that failed *)
      connections self !! (ip, h_source_port h) = Some s -> in_order h payload s ->
      parse (s_data (accept s (h_seq h) payload)) = Err Invalid -> r = Err tt ->
      conn_step self ip h payload r
        (mkConns (<[(ip, h_source_port h) := accept s (h_seq h) payload]> (connections self))
           (scanlings self) (c_queue (view self)))
  | step_close s :
      (* the peer gave up, or the answer is not one, or a send failed *)
      connections self !! (ip, h_source_port h) = Some s ->
      (is_rst h = true \/ is_fin h = true
       \/ (in_order h payload s /\ parse (s_data (accept s (h_seq h) payload)) <> Err Incomplete)) ->
      (r = Ok tt -> forall banner, in_order h payload s ->
         parse (s_data (accept s (h_seq h) payload)) <> Ok banner) ->
      conn_step self ip h payload r
        (mkConns (delete (ip, h_source_port h) (connections self)) (scanlings self)
           (c_queue (view self)))
  | step_hit s data banner :
      connections self !! (ip, h_source_port h) = Some s -> parse data = Ok banner ->
      (in_order h payload s /\ data = s_data (accept s (h_seq h) payload)
       \/ is_fin h = true /\ payload <> [] /\ data = s_data s ++ payload) ->
      conn_step self ip h payload r
        (mkConns (delete (ip, h_source_port h) (connections self))
           (scanlings self ++ [mkScanling ip (h_source_port h) banner]) (c_queue (view self))).

End machine.

(** The packet in a frame: sender, header and payload, without the padding
    behind the length of the IPv4 header; [None] when the offset of the data
    lies behind it. *)
Definition packet_of (data : list Z) : option (Ipv4Addr * TcpHdr * list Z) :=
  let tcp := 14 + 4 * Z.land (byte data 14) 15 in
  let packet_end := Z.min (14 + be16 (byte data 16) (byte data 17)) (zlen data) in
  let data_start := tcp + 4 * (byte data (tcp + 12) / 16) in
  if packet_end <? data_start then None
  else
    Some (be32 (byte data 26) (byte data 27) (byte data 28) (byte data 29),
          mkTcpHdr (be16 (byte data tcp) (byte data (tcp + 1)))
            (be16 (byte data (tcp + 2)) (byte data (tcp + 3)))
            (be32 (byte data (tcp + 4)) (byte data (tcp + 5)) (byte data (tcp + 6)) (byte data (tcp + 7)))
            (be32 (byte data (tcp + 8)) (byte data (tcp + 9)) (byte data (tcp + 10)) (byte data (tcp + 11)))
            (byte data (tcp + 13)),
          take (Z.to_nat (packet_end - data_start)) (drop (Z.to_nat data_start) data)).

(** What the table keeps: a connection is filed under its own address and
    port, its reorder buffer is within the limits, and a deadline is waiting
    for it. *)
Record table_ok {Output} (max_bytes max_segments : Z) (c : conns Output) : Prop := {
  t_key k s : c_map c !! k = Some s -> (s_ip s, s_port s) = k;
  t_bound k s : c_map c !! k = Some s -> bounded max_bytes max_segments s;
  t_queue k s : c_map c !! k = Some s -> exists t, (t, k) ∈ c_queue c }.

(** ** Lemmas: the machine *)

Section machine_lemmas.
Context {Output : Type}.
Implicit Types c : conns Output.

Lemma table_ok_insert mb ms c k s s' q :
  table_ok mb ms c -> c_map c !! k = Some s -> (s_ip s', s_port s') = (s_ip s, s_port s) ->
  bounded mb ms s' -> c_queue c `prefix_of` q ->
  table_ok mb ms (mkConns (<[k := s']> (c_map c)) (c_hits c) q).
Proof.
  intros [Hk Hb Hq] Hs Hkey Hb' [q' ->]. split; simpl; intros k0 s0.
  - intros [[<- <-]|[_ H0]]%lookup_insert_Some; [rewrite Hkey; by apply Hk|by apply Hk].
  - intros [[<- <-]|[_ H0]]%lookup_insert_Some; [done|by eapply Hb].
  - intros [[<- <-]|[_ H0]]%lookup_insert_Some.
    + destruct (Hq _ _ Hs) as [t Ht]. exists t. apply elem_of_app. by left.
    + destruct (Hq _ _ H0) as [t Ht]. exists t. apply elem_of_app. by left.
Qed.

Lemma table_ok_delete mb ms c k (hits : list (Scanling Output)) :
  table_ok mb ms c -> table_ok mb ms (mkConns (delete k (c_map c)) hits (c_queue c)).
Proof.
  intros [Hk Hb Hq]. split; simpl; intros k0 s0 [_ H0]%lookup_delete_Some; eauto.
Qed.

End machine_lemmas.

Section machine_steps.
Context {A I R Output : Type} `{Payload} `{Parser Output}.
Abbreviation Resp := (Responder A I R Output).

Lemma conn_step_table_ok (self : Resp) ip h payload r c :
  conn_step self ip h payload r c ->
  table_ok (max_reorder_bytes self) (max_reorder_segments self) (view self) ->
  table_ok (max_reorder_bytes self) (max_reorder_segments self) c.
Proof.
  intros Hstep Ht.
  assert (Hb : forall s, connections self !! (ip, h_source_port h) = Some s ->
    bounded (max_reorder_bytes self) (max_reorder_segments self) s) by (intros s Hs; by eapply (t_bound _ _ _ Ht)).
  destruct Hstep as [|p t Hf Hc Hp|s Hs Hf Ha Hq|s Hs Hin Hp s'|s Hs Hin Hp Hr|s Hs Hwhy Hr|s data banner Hs Hp Hin].
  - done.
  - destruct Ht as [Hk Hbd Hq]. split; simpl; intros k0 s0 [[<- <-]|[_ H1]]%lookup_insert_Some; eauto.
    + split; simpl; [rewrite map_size_empty; lia|]. unfold buffered_bytes. simpl. rewrite map_fold_empty. lia.
    + exists (t + timeout self). apply elem_of_app. right. by apply list_elem_of_singleton.
    + destruct (Hq _ _ H1) as [t0 Ht0]. exists t0. apply elem_of_app. by left.
  - destruct (hold_back_frame (max_reorder_bytes self) (max_reorder_segments self) s (h_seq h) payload)
      as (E1 & E2 & _).
    by apply (table_ok_insert _ _ (view self) _ s); [..|rewrite E1, E2|apply hold_back_bounded, Hb|].
  - destruct (accept_frame s (h_seq h) payload) as (E1 & E2 & _).
    apply (table_ok_insert _ _ (view self) _ s); [done|done|subst s'; cbn [s_ip s_port]; by rewrite E1, E2| |by apply prefix_app_r].
    apply (accept_bounded _ _ s (h_seq h) payload), Hb, Hs.
  - destruct (accept_frame s (h_seq h) payload) as (E1 & E2 & _).
    apply (table_ok_insert _ _ (view self) _ s); [done|done|congruence|by apply accept_bounded, Hb|done].
  - by apply (table_ok_delete _ _ (view self)).
  - by apply (table_ok_delete _ _ (view self)).
Qed.

(** The entries of other peers stay as they are. *)
Lemma conn_step_others (self : Resp) ip h payload r c k :
  conn_step self ip h payload r c -> k <> (ip, h_source_port h) ->
  c_map c !! k = connections self !! k.
Proof.
  intros Hstep Hk. destruct Hstep; simpl;
    rewrite ?lookup_insert_ne, ?lookup_delete_ne by congruence; done.
Qed.

End machine_steps.

(** *** Following a stream *)

Section streaming.
Context {A I R Output : Type} `{Payload} `{Parser Output}.
Abbreviation Resp := (Responder A I R Output).
Context (stream : list Z) (isn : Z).

(** A SYN and ACK that opens a connection (again). *)
Definition opens (sd : Z) (ip : Ipv4Addr) (h : TcpHdr) : Prop :=
  is_syn_ack h = true /\ h_ack h = u32_of (cookie ip (h_source_port h) sd + 1).

(** What is known of one peer in [self'], which comes after [self]; [grows] when
    it does not start again. *)
Definition streaming (grows : Prop) (self : Resp) (ip : Ipv4Addr) (port : Z) (s : State) (self' : Resp) : Prop :=
  seed self' = seed self
  /\ (forall s', connections self' !! (ip, port) = Some s' ->
     follows stream isn s' /\ (grows -> s_data s `prefix_of` s_data s'))
  /\ forall hit, hit ∈ scanlings self' -> sc_ip _ hit = ip -> sc_port _ hit = port ->
       hit ∈ scanlings self \/ exists n, parse (take n stream) = Ok (response _ hit).

(** The segment in order makes the prefix longer. *)
Lemma accept_streaming (grows : Prop) h payload s0 s1 :
  zlen stream < 2 ^ 32 -> follows stream isn s1 -> (grows -> s_data s0 `prefix_of` s_data s1) ->
  in_order h payload s1 -> (is_ack h = true -> payload = [] \/ segment_of stream isn (h_seq h) payload) ->
  follows stream isn (accept s1 (h_seq h) payload)
  /\ (grows -> s_data s0 `prefix_of` s_data (accept s1 (h_seq h) payload)).
Proof.
  intros Hlen Hf Hpre (Hack & _ & Hseq & Hne) Hseg. destruct (Hseg Hack) as [?|Hseg']; [done|]. clear Hseg.
  rewrite Hseq in *. split.
  - by apply accept_follows.
  - intros Hg. etrans; [exact (Hpre Hg)|]. etrans; [|apply accept_grows]. by apply prefix_app_r.
Qed.

(** What the peer sends keeps to the stream; it starts again only if [grows] is
    false. *)
Definition honest (grows : Prop) (sd : Z) (ip : Ipv4Addr) (h : TcpHdr) (payload : list Z) : Prop :=
  (is_fin h = true -> payload = [])
  /\ (opens sd ip h -> u32_of (h_seq h + 1) = isn /\ ~ grows)
  /\ (is_ack h = true -> payload = [] \/ segment_of stream isn (h_seq h) payload).

(** A connection that was just opened has seen nothing of the stream. *)
Lemma opened_follows ip port ack t seq :
  u32_of seq = isn -> follows stream isn (mkState ip port [] (u32_of seq) ack ∅ t).
Proof.
  intros Hs. split; [|intros k v; cbn; by rewrite lookup_empty]. exists 0%nat. cbn.
  split_and!; [lia|done|]. rewrite <- Hs, Z.add_0_r. symmetry. apply wrap_wrap.
Qed.

Lemma streaming_step (grows : Prop) (self s1 s2 : Resp) ip port s ip' h payload r :
  zlen stream < 2 ^ 32 -> streaming grows self ip port s s1 -> seed s2 = seed s1 ->
  conn_step s1 ip' h payload r (view s2) ->
  (ip' = ip -> h_source_port h = port -> honest grows (seed self) ip h payload) ->
  streaming grows self ip port s s2.
Proof.
  intros Hlen (HP0 & HP1 & HP2) Hseed Hstep Hhon. split; [congruence|]. rewrite <- HP0 in Hhon.
  destruct (decide ((ip', h_source_port h) = (ip, port))) as [Hk|Hk].
  - injection Hk as -> <-. destruct (Hhon eq_refl eq_refl) as (Hfin & Hopen & Hseg). clear Hhon HP0 Hseed.
    change (connections s2) with (c_map (view s2)).
    change (scanlings s2) with (c_hits (view s2)).
    revert Hstep. generalize (view s2). intros c2 Hstep.
    destruct Hstep as [|p t Hf Hck|s' Hs Hf Ha Hq|s' Hs Hin Hp s''|s' Hs Hin Hp Hr|s' Hs Hwhy Hr|s' data banner Hs Hp Hin];
      cbn [c_map c_hits].
    + done.
    + split; [|done]. intros s3. rewrite lookup_insert_eq. intros [= <-].
      destruct (Hopen (conj Hf Hck)) as [Hisn Hng]. split; [by apply opened_follows|by intros Hg].
    + split; [|done]. intros s3. rewrite lookup_insert_eq. intros [= <-]. destruct (HP1 _ Hs) as [H1 H2].
      split; [|by destruct (hold_back_frame (max_reorder_bytes s1) (max_reorder_segments s1) s' (h_seq h) payload)
        as (_ & _ & -> & _)].
      destruct (Hseg Hf) as [->|Hseg']; [by rewrite hold_back_nil|by apply hold_back_follows].
    + split; [|done]. intros s3. rewrite lookup_insert_eq. intros [= <-]. destruct (HP1 _ Hs) as [H1 H2].
      by apply (accept_streaming grows h payload s s').
    + split; [|done]. intros s3. rewrite lookup_insert_eq. intros [= <-]. destruct (HP1 _ Hs) as [H1 H2].
      by apply (accept_streaming grows h payload s s').
    + split; [|done]. intros s3. by rewrite lookup_delete_eq.
    + split; [intros s3; by rewrite lookup_delete_eq|]. destruct (HP1 _ Hs) as [H1 H2].
      intros hit [Hh|Hh]%elem_of_app E1 E2; [by apply HP2|]. apply list_elem_of_singleton in Hh as ->.
      right. destruct Hin as [[Hin ->]|(Hf & Hne & _)]; [|by apply Hfin in Hf].
      destruct (accept_streaming grows h payload s s' Hlen H1 H2 Hin Hseg) as [[(n & _ & Hn & _) _] _].
      exists n. simpl. congruence.
  - split.
    + intros s'. change (connections s2) with (c_map (view s2)).
      rewrite (conn_step_others _ _ _ _ _ _ _ Hstep) by congruence. apply HP1.
    + intros hit Hh E1 E2. change (scanlings s2) with (c_hits (view s2)) in Hh.
      destruct Hstep; cbn [c_hits] in Hh; try (by apply HP2).
      apply elem_of_app in Hh as [Hh|Hh]; [by apply HP2|]. apply list_elem_of_singleton in Hh as ->.
      simpl in *. congruence.
Qed.

End streaming.

(** ** Lemmas: reading a frame *)

Lemma slice_bytes data a n :
  0 <= a -> a + Z.of_nat n <= zlen data ->
  slice data a (a + Z.of_nat n) = Ret ((fun i => byte data (a + Z.of_nat i)) <$> seq 0 n).
Proof.
  intros Ha Hb. unfold slice. rewrite !(proj2 (Z.leb_le _ _)) by lia. simpl. f_equal.
  replace (a + Z.of_nat n - a) with (Z.of_nat n) by lia. rewrite Nat2Z.id.
  apply list_eq. intros i. rewrite list_lookup_fmap. destruct (decide (i < n)%nat) as [Hi|Hi].
  - rewrite lookup_take_lt, lookup_drop by done. rewrite lookup_seq_lt by done. simpl. unfold byte.
    replace (Z.to_nat (a + Z.of_nat i)) with (Z.to_nat a + i)%nat by lia.
    destruct (nth_lookup_or_length data (Z.to_nat a + i) 0) as [->|]; [done|lia].
  - rewrite lookup_take_ge by lia. rewrite lookup_seq_ge by lia. done.
Qed.

Lemma at_index_byte data i : 0 <= i < zlen data -> at_index data i = Ret (byte data i).
Proof.
  intros Hi. unfold at_index, byte. destruct (data !! Z.to_nat i) as [b|] eqn:E.
  - by rewrite (nth_lookup_Some _ _ _ _ E).
  - apply lookup_ge_None in E. lia.
Qed.

(** The data offset in bytes. *)
Lemma data_offset b : 0 <= b < 256 -> Z.shiftr (Z.land b 240) 2 = 4 * (b / 16).
Proof.
  intros Hb.
  assert (Hall : forallb (fun b => Z.shiftr (Z.land b 240) 2 =? 4 * (b / 16)) (seqZ 0 256) = true)
    by (vm_compute; done).
  rewrite forallb_forall in Hall. apply Z.eqb_eq, Hall, list_elem_of_In, elem_of_seqZ. lia.
Qed.

(** ** Lemmas: the handlers *)

Section handlers.
Context {A I R Output : Type} `{KernelConsts} `{UnalignedConsts}.
Context `{PortAdapter A R, !PortAdapterLaws A R} `{IpAdapter I} `{Payload} `{Parser Output} `{Hash64 Output}.
Abbreviation Resp := (Responder A I R Output).

Context (l : link) (Hl : link_ok l) (fs : Z).
(** The payload fits a frame. *)
Context (Hpay : forall ip port p, build ip port = Ok p ->
  zlen p <= 65000 /\ 62 + TxMetadata_LEN + zlen p <= fs).

(** The responder before: what it receives with is left alone, and so is the
    packet memory outside the frames of its sender. *)
Context (before : Resp).

(** [m] run from [self] ends in [Q], or waits for ever. *)
Definition wp {X} (m : M X) (Q : result unit X -> Resp -> Prop) (self : Resp) : Prop :=
  match m self with Ret (r, self') => Q r self' | Fault f => f = OutOfFuel end.

Lemma wp_bind {X Y} (m : M X) (k : X -> M Y) Q self :
  wp m (fun r self' => match r with Ok x => wp (k x) Q self' | Err e => Q (Err e) self' end) self ->
  wp (bind m k) Q self.
Proof. unfold wp, bind. by destruct (m self) as [[[x|e] self']|f]. Qed.

Lemma wp_get Q (self : Resp) : Q (Ok self) self -> wp get Q self.
Proof. done. Qed.
Lemma wp_pure {X} (x : X) Q (self : Resp) : Q (Ok x) self -> wp (pure x) Q self.
Proof. done. Qed.
Lemma wp_modify f Q (self : Resp) : Q (Ok tt) (f self) -> wp (modify f) Q self.
Proof. done. Qed.
Lemma wp_lift_ret {X} (x : X) Q (self : Resp) : Q (Ok x) self -> wp (lift (Ret x)) Q self.
Proof. done. Qed.

(** The address strategy after some reports. *)
Definition reported (i i' : I) : Prop :=
  exists ips, Forall (in_width 32) ips /\ i' = fold_left ip_on_result ips i.

#[global] Instance reported_preorder : PreOrder reported.
Proof.
  split; [by exists []|]. intros x y z (a & Ha & ->) (b & Hb & ->). exists (a ++ b).
  by rewrite fold_left_app, Forall_app.
Qed.

Lemma reported_one i ip : in_width 32 ip -> reported i (ip_on_result i ip).
Proof. intros Hip. exists [ip]. by rewrite Forall_singleton. Qed.

(** What sends and reports leave alone, and what they keep in order. *)
Record ok (self : Resp) : Prop := {
  ok_net : ready l fs (r_net self);
  ok_port : port_inv (port_adapter self);
  ok_memory : untouched (r_net before) (r_net self);
  ok_receiver : receiver self = receiver before /\ filled self = filled before /\ looks self = looks before;
  ok_ips : reported (ip_adapter before) (ip_adapter self);
  ok_port_le : port_le (port_adapter before) (port_adapter self) }.

Definition config (self : Resp) : Z * Z * Z * Z :=
  (seed self, max_reorder_bytes self, max_reorder_segments self, timeout self).

Definition quiet (self self' : Resp) : Prop :=
  connections self' = connections self /\ scanlings self' = scanlings self
  /\ expiries self' = expiries self /\ pending_expiry self' = pending_expiry self
  /\ config self' = config self.

#[global] Instance quiet_preorder : PreOrder quiet.
Proof.
  split; [done|]. unfold quiet. intros x y z Hxy Hyz. decompose [and] Hxy. decompose [and] Hyz.
  split_and!; congruence.
Qed.

Lemma wp_sending op (Q : result unit unit -> Resp -> Prop) self :
  ok self -> stays_ready l fs (r_net self) (op (r_net self)) ->
  (forall r self', ok self' -> quiet self self' -> Q r self') -> wp (sending op) Q self.
Proof.
  intros [Hn Hp Hm Hr Hi Hle] Hop HQ. unfold wp, sending.
  destruct (op (r_net self)) as [[r n]|f]; simpl in *; [|done]. destruct Hop as [Hn' Hu].
  apply HQ; [|done]. constructor; try done. by etrans.
Qed.

Lemma wp_send flags ip sp dp seq ack Q self :
  ok self -> (forall r self', ok self' -> quiet self self' -> Q r self') ->
  wp (sending (send flags ip sp dp seq ack)) Q self.
Proof. intros Hok HQ. apply wp_sending; [done|by apply (sends_safe l Hl), Hok|done]. Qed.

Lemma wp_record ip port hash Q self :
  ok self -> (forall r self', ok self' -> quiet self self' -> Q r self') ->
  wp (record ip port hash) Q self.
Proof.
  intros Hok HQ. unfold record. apply wp_bind, wp_get. apply wp_bind.
  pose proof (port_on_result_ok (port_adapter self) ip port hash (rng self) (ok_port _ Hok)) as Hp.
  unfold wp at 1, lift. destruct (port_on_result _ _ _ _ _) as [[[t a] r]|f]; simpl; [|done].
  apply wp_bind, wp_modify.
  assert (Hok' : ok (set_port a r self)).
  { destruct Hok as [Hn Hp0 Hm Hr Hi Hle]. destruct Hp as [Hp Hle']. constructor; try done. by etrans. }
  destruct t as [t|]; [|by apply wp_pure, HQ].
  apply wp_sending; [done|by apply (sends_safe l Hl), Hok'|].
  intros r' self' Ho Hq. by apply HQ; [|etrans; [|exact Hq]].
Qed.

(** Updates of the table leave the rest in order. *)
Lemma ok_update (self self' : Resp) :
  r_net self' = r_net self -> port_adapter self' = port_adapter self ->
  receiver self' = receiver self -> filled self' = filled self -> looks self' = looks self ->
  reported (ip_adapter self) (ip_adapter self') -> ok self -> ok self'.
Proof.
  intros E1 E2 E3 E4 E5 E6 [Hn Hp Hm Hr Hi Hle]. constructor; rewrite ?E1, ?E2, ?E3, ?E4, ?E5; try done. by etrans.
Qed.

(** [self'] has the same table as [self]; used as the end of a handler. *)
Lemma view_quiet (self self' : Resp) : quiet self self' -> view self' = view self.
Proof. intros (E1 & E2 & E3 & E4 & _). unfold view. congruence. Qed.

(** How a handler ends: in order, with the table one step further. *)
Definition stepped (self : Resp) (ip : Ipv4Addr) (h : TcpHdr) (payload : list Z)
    (r : result unit unit) (self' : Resp) : Prop :=
  ok self' /\ config self' = config self /\ conn_step self ip h payload r (view self').

Lemma stepped_none self ip h payload r self' :
  ok self' -> quiet self self' -> idle self ip h payload r -> stepped self ip h payload r self'.
Proof.
  intros Hok Hq Hi. split_and!; [done|apply Hq|]. rewrite (view_quiet _ _ Hq). by constructor.
Qed.

(** Ends with the table of [self1]. *)
Lemma stepped_view self ip h payload r self1 self' :
  ok self' -> quiet self1 self' -> config self1 = config self ->
  conn_step self ip h payload r (view self1) -> stepped self ip h payload r self'.
Proof.
  intros Hok Hq Hc Hs. split_and!; [done|destruct Hq as (_ & _ & _ & _ & ->); done|].
  by rewrite (view_quiet _ _ Hq).
Qed.

Ltac in_ok := match goal with H : ok ?s |- ok _ => by apply (ok_update s); simpl; auto using reported_one end.

Ltac wp_next :=
  lazymatch goal with
  | |- wp (bind _ _) _ _ => apply wp_bind
  | |- wp get _ _ => apply wp_get
  | |- wp (pure _) _ _ => apply wp_pure
  | |- wp (modify _) _ _ => apply wp_modify
  | |- wp (sending (send _ _ _ _ _ _)) _ _ => apply wp_send; [in_ok|intros [[]|[]] ?self ?Hok ?Hq]
  | |- wp (record_empty _ _) _ _ => apply wp_record; [in_ok|intros [[]|[]] ?self ?Hok ?Hq]
  | |- wp (record_hit _ _ _) _ _ => apply wp_record; [in_ok|intros [[]|[]] ?self ?Hok ?Hq]
  end.
Ltac wp_go := repeat wp_next.

Lemma process_syn_ack_ok self ip h payload :
  ok self -> is_syn_ack h = true ->
  wp (process_syn_ack ip h) (stepped self ip h payload) self.
Proof.
  intros Hself Hf. unfold process_syn_ack. wp_next. wp_next.
  destruct (Z.eqb_spec (h_ack h) (u32_of (cookie ip (h_source_port h) (seed self) + 1))) as [Hack|Hack];
    cbn [negb].
  2: { wp_next; apply stepped_none; try done; right; left; done. }
  destruct (build ip (h_source_port h)) as [p|] eqn:Hb.
  - destruct (Hpay _ _ _ Hb) as [Hp1 Hp2]. wp_next. apply wp_sending; [done| |].
    { destruct (sends_safe l Hl fs (r_net self) (ok_net _ Hself)) as (_ & _ & Hd). by apply Hd. }
    intros [[]|[]] self1 Hok1 Hq1; [|by apply stepped_none; [..|left]]. wp_next. unfold now, wp.
    destruct (clock self1) as [|t ts]; [done|]. cbn [mbind outcome_bind]. wp_go.
    split_and!; [by destruct Hok1|apply Hq1|].
    destruct Hq1 as (E1 & E2 & E3 & E4 & E5).
    unfold view. simpl. rewrite E1, E2, E3, E4, app_assoc. by apply step_open.
  - wp_go; apply stepped_none; try done; solve [by etrans|by left].
Qed.

(** Reads the table of a state reached by quiet steps. *)
Ltac table :=
  repeat match goal with
  | Hq : quiet _ _ |- _ => destruct Hq as (?E & ?E & ?E & ?E & ?E)
  end;
  unfold view, config in *; simpl in *;
  repeat match goal with
  | E : connections _ = _ |- _ => rewrite E in *; clear E
  | E : scanlings _ = _ |- _ => rewrite E in *; clear E
  | E : expiries _ = _ |- _ => rewrite E in *; clear E
  | E : pending_expiry _ = _ |- _ => rewrite E in *; clear E
  end.

Lemma finish_ack_ok self (ip : Ipv4Addr) h payload s :
  ok self -> in_width 32 ip -> connections self !! (ip, h_source_port h) = Some s -> in_order h payload s ->
  wp (finish_ack ip (h_dest_port h) (h_source_port h) (accept s (h_seq h) payload))
    (stepped self ip h payload)
    (set_conn (ip, h_source_port h) (accept s (h_seq h) payload) self).
Proof.
  intros Hself Hip Hs Hin. unfold finish_ack.
  assert (Hself' : ok (set_conn (ip, h_source_port h) (accept s (h_seq h) payload) self))
    by in_ok.
  destruct (parse _) as [banner|[|]] eqn:Hp.
  - wp_go; (split_and!; [in_ok|table; congruence|]).
    + table. rewrite delete_insert_eq. by eapply (step_hit _ _ _ _ _ s _ banner); [..|left].
    + table. rewrite delete_insert_eq. eapply step_close; eauto. right. right. by rewrite Hp.
    + table. rewrite delete_insert_eq. eapply step_close; eauto. right. right. by rewrite Hp.
  - wp_go; (split_and!; [in_ok|table; congruence|]).
    + table. rewrite delete_insert_eq. eapply step_close; [done|right; right; by rewrite Hp|].
      intros _ b _. by rewrite Hp.
    + table. rewrite delete_insert_eq. eapply step_close; [done|right; right; by rewrite Hp|done].
    + table. by apply (step_stuck _ _ _ _ _ s).
  - wp_next. wp_next. cbv zeta.
    wp_go; (split_and!; [in_ok|table; congruence|]);
      table; rewrite insert_insert_eq, app_assoc; by apply (step_more _ _ _ _ _ s).
Qed.

Lemma process_ack_ok self (ip : Ipv4Addr) h payload :
  ok self -> in_width 32 ip -> is_ack h = true ->
  wp (process_ack ip h payload) (stepped self ip h payload) self.
Proof.
  intros Hself Hip Hf. unfold process_ack. wp_next. wp_next.
  assert (Hnone : is_syn_ack h = false) by (unfold is_ack in Hf; destruct (is_syn_ack h); [by rewrite andb_false_r in Hf|done]).
  destruct (connections self !! (ip, h_source_port h)) as [s|] eqn:Hs.
  2: { wp_go; apply stepped_none; try done; solve [by etrans|by right; right; left]. }
  destruct (Z.eqb_spec (h_ack h) (next_expected_ack s)) as [Hack|Hack]; cbn [negb].
  2: { wp_go. apply stepped_none; [done..|]. right. right. right. left. exists s. by auto. }
  destruct (Z.eqb_spec (h_seq h) (next_expected_seq s)) as [Hseq|Hseq]; cbn [negb].
  - case_bool_decide as Hpl.
    { wp_go. apply stepped_none; [done..|]. right. right. right. left. exists s. by auto. }
    wp_next. wp_next.
    by apply finish_ack_ok.
  - wp_go; (split_and!; [done|table; congruence|]); table; by eapply step_hold.
Qed.

Lemma process_fin_ok self (ip : Ipv4Addr) h payload :
  ok self -> in_width 32 ip -> is_fin h = true ->
  wp (process_fin ip h payload) (stepped self ip h payload) self.
Proof.
  intros Hself Hip Hf. unfold process_fin. wp_next. wp_next; [|by apply stepped_none; [..|left]]. wp_next. wp_next.
  assert (Hna : is_ack h = false).
  { unfold is_ack. rewrite Hf. by rewrite andb_false_r. }
  assert (Hno : forall s, ~ in_order h payload s) by (intros s (? & _); congruence).
  assert (Hns : is_syn_ack h = false) by (unfold is_syn_ack; rewrite Hf; by rewrite andb_false_r).
  destruct (connections self0 !! (ip, h_source_port h)) as [s|] eqn:Hs.
  2: { destruct Hq as (E & Hq). rewrite E in Hs.
       wp_go; apply stepped_none; try done; solve [by etrans; [split; [exact E|exact Hq]|]|by right; right; left]. }
  wp_next. wp_next. case_bool_decide as Hpl.
  { wp_go; (split_and!; [done|table; congruence|]); table;
      (eapply step_close; [done|by right; left|by intros _ b ?%Hno]). }
  destruct (parse _) as [banner|[|]] eqn:Hp.
  - wp_go; (split_and!; [in_ok|table; congruence|]).
    + table. by eapply (step_hit _ _ _ _ _ s _ banner); [..|right].
    + table. eapply step_close; [done|by right; left|done].
  - wp_go; (split_and!; [done|table; congruence|]); table;
      (eapply step_close; [done|by right; left|by intros _ b ?%Hno]).
  - wp_go; (split_and!; [done|table; congruence|]); table;
      (eapply step_close; [done|by right; left|by intros _ b ?%Hno]).
Qed.

(** The choice of a handler by the flags. *)
Lemma dispatch_ok self (ip : Ipv4Addr) h payload :
  ok self -> in_width 32 ip ->
  wp (if contains (h_flags h) Rst then
        bind (record_empty ip (h_source_port h)) (fun _ => modify (drop_conn (ip, h_source_port h)))
      else if contains (h_flags h) Fin then process_fin ip h payload
      else if contains (h_flags h) (Z.lor Syn Ack) then process_syn_ack ip h
      else if contains (h_flags h) Ack then process_ack ip h payload
      else pure tt) (stepped self ip h payload) self.
Proof.
  intros Hself Hip. destruct (contains (h_flags h) Rst) eqn:Er.
  { assert (Hr : is_rst h = true) by done.
    wp_go; [|by apply stepped_none; [..|left]]. split_and!; [in_ok|table; congruence|]. table.
    destruct (connections self !! (ip, h_source_port h)) as [s|] eqn:Hs.
    - eapply step_close; [done|by left|]. intros _ b (Ha & _). unfold is_ack in Ha. by rewrite Hr in Ha.
    - rewrite delete_id by done. apply step_none. right. right. left. unfold is_syn_ack. by rewrite Hr. }
  destruct (contains (h_flags h) Fin) eqn:Ef.
  { apply process_fin_ok; [done..|]. unfold is_fin, is_rst. by rewrite Er, Ef. }
  destruct (contains (h_flags h) (Z.lor Syn Ack)) eqn:Es.
  { apply process_syn_ack_ok; [done|]. unfold is_syn_ack, is_fin, is_rst. by rewrite Er, Ef, Es. }
  destruct (contains (h_flags h) Ack) eqn:Ea.
  { apply process_ack_ok; [done..|]. unfold is_ack, is_syn_ack, is_fin, is_rst. by rewrite Er, Ef, Es, Ea. }
  apply wp_pure. apply stepped_none; [done..|]. right. right. right. right.
  unfold is_ack, is_syn_ack, is_fin, is_rst. by rewrite Er, Ef, Es, Ea.
Qed.

Lemma process_packet_ok self g data :
  ok self -> is_bytes data -> for_us g data ->
  wp (process_packet data)
    (fun r self' => match packet_of data with
                    | None => r = Ok tt /\ self' = self
                    | Some (ip, h, payload) => stepped self ip h payload r self'
                    end) self.
Proof.
  intros Hself Hb (_ & _ & Hw & Hlen & _). unfold process_packet, packet_of.
  pose proof (byte_range data 14 Hb) as Hb14. set (w := Z.land (byte data 14) 15) in *.
  assert (Hw15 : w < 16).
  { unfold w. change 15 with (Z.ones 4). rewrite Z.land_ones by lia. apply Z.mod_pos_bound. lia. }
  assert (H26 : slice data 26 30 = Ret [byte data 26; byte data 27; byte data 28; byte data 29])
    by (exact (slice_bytes data 26 4 ltac:(lia) ltac:(lia))).
  wp_next. rewrite H26. apply wp_lift_ret.
  wp_next. rewrite at_index_byte by lia. apply wp_lift_ret. fold w.
  assert (u8_of (Z.shiftl w 2) = 4 * w) as ->.
  { unfold u8_of. rewrite Z.shiftl_mul_pow2, wrap_small by (unfold in_width; lia). lia. }
  set (tcp := 14 + 4 * w) in *.
  assert (H16 : slice data 16 18 = Ret [byte data 16; byte data 17])
    by (exact (slice_bytes data 16 2 ltac:(lia) ltac:(lia))).
  wp_next. rewrite H16. apply wp_lift_ret.
  wp_next. rewrite at_index_byte by lia. apply wp_lift_ret.
  pose proof (byte_range data (tcp + 12) Hb) as Hoff.
  assert (Z.shiftr (Z.land (byte data (tcp + 12)) 240) 2 = 4 * (byte data (tcp + 12) / 16)) as ->.
  { apply data_offset. done. }
  cbn [addr_of word_of].
  set (pe := Z.min _ (zlen data)). set (ds := tcp + 4 * _).
  destruct (Z.ltb_spec pe ds); [by apply wp_pure|].
  assert (Hpl : slice data ds pe = Ret (take (Z.to_nat (pe - ds)) (drop (Z.to_nat ds) data)))
    by (unfold slice; rewrite !(proj2 (Z.leb_le _ _)) by lia; done).
  wp_next. rewrite Hpl. apply wp_lift_ret. clear Hpl.
  wp_next. rewrite (slice_bytes data tcp TcpHdr_size) by (unfold TcpHdr_size; lia). apply wp_lift_ret.
  cbn [TcpHdr_size seq fmap list_fmap TcpHdr_ref_from_bytes]. rewrite Z.add_0_r.
  set (h := mkTcpHdr _ _ _ _ _). set (payload := take _ _). set (ip := be32 _ _ _ _).
  apply dispatch_ok; [done|]. unfold ip, be32, in_width.
  pose proof (byte_range data 26 Hb). pose proof (byte_range data 27 Hb).
  pose proof (byte_range data 28 Hb). pose proof (byte_range data 29 Hb). lia.
Qed.

(** *** Deadlines *)

(** What the loop over the deadlines leaves: fewer connections, each still
    waited for, the later deadlines, and, if no report failed, none that has
    passed at the front of the queue. *)
Definition expired (t : Z) (self : Resp) (r : result unit unit) (self' : Resp) : Prop :=
  ok self' /\ config self' = config self /\ scanlings self' = scanlings self
  /\ connections self' ⊆ connections self
  /\ c_queue (view self') `suffix_of` c_queue (view self)
  /\ (forall k s, connections self !! k = Some s -> connections self' !! k = None ->
        exists e, (e, k) ∈ c_queue (view self) /\ e <= t)
  /\ (forall k s, connections self' !! k = Some s -> (exists e, (e, k) ∈ c_queue (view self)) ->
        exists e, (e, k) ∈ c_queue (view self'))
  /\ (r = Ok tt -> forall e k l, c_queue (view self') = (e, k) :: l -> t < e).

Lemma expired_same t self self' r :
  ok self' -> view self' = view self -> config self' = config self ->
  (r = Ok tt -> forall e k q, c_queue (view self) = (e, k) :: q -> t < e) -> expired t self r self'.
Proof.
  intros Hok Hv Hc Hr. pose proof (f_equal c_map Hv) as E1. pose proof (f_equal c_hits Hv) as E2.
  simpl in E1, E2. split_and!; try done; try (by rewrite ?E1, ?Hv).
  intros k s Hs Hn. congruence.
Qed.

(** A deadline is taken from the queue, with its connection if it has passed. *)
Lemma expired_step t self self1 r self' e k q :
  c_queue (view self) = (e, k) :: q -> c_queue (view self1) = q ->
  config self1 = config self -> scanlings self1 = scanlings self ->
  (connections self1 = connections self /\ connections self !! k = None)
  \/ (connections self1 = delete k (connections self) /\ e <= t) ->
  expired t self1 r self' -> expired t self r self'.
Proof.
  intros Hq Hq1 Hc Hs Hcase (H1' & H2' & H3' & H4' & H5' & H6' & H7' & H8').
  assert (Hsub : connections self1 ⊆ connections self).
  { destruct Hcase as [[-> _]|[-> _]]; [done|apply delete_subseteq]. }
  split_and!; try done; try congruence.
  - by etrans.
  - rewrite Hq. rewrite Hq1 in H5'. by apply suffix_cons_r.
  - intros k0 s0 Hs0 Hn. rewrite Hq. destruct (connections self1 !! k0) as [s1|] eqn:E1.
    + destruct (H6' k0 s1 E1 Hn) as (e0 & He0 & Hle). exists e0. rewrite Hq1 in He0.
      split; [by apply list_elem_of_further|done].
    + destruct Hcase as [[E _]|[E Hle]]; [congruence|]. exists e. split; [|done].
      rewrite E in E1. apply lookup_delete_None in E1 as [->|E1]; [apply list_elem_of_here|congruence].
  - intros k0 s0 Hs0 [e0 He0]. apply (H7' k0 s0 Hs0). rewrite Hq1. rewrite Hq in He0.
    apply elem_of_cons in He0 as [[= -> ->]|He0]; [|by exists e0]. exfalso.
    pose proof (lookup_weaken _ _ _ _ Hs0 H4') as Hk1.
    destruct Hcase as [[E Hn]|[E _]]; [congruence|]. by rewrite E, lookup_delete_eq in Hk1.
Qed.

Lemma wp_mono {X} (m : M X) (Q Q' : result unit X -> Resp -> Prop) self :
  wp m Q self -> (forall r self', Q r self' -> Q' r self') -> wp m Q' self.
Proof. unfold wp. destruct (m self) as [[r self']|f]; auto. Qed.

Lemma expire_loop_ok t n : forall self, ok self -> (length (c_queue (view self)) <= n)%nat ->
  wp (expire_loop n t) (expired t self) self.
Proof.
  induction n as [|n IH]; intros self Hok Hlen; cbn [expire_loop]; wp_next; wp_next; cbv zeta.
  all: assert (Hnext : match pending_expiry self with
    | Some e => Some (e, expiries self)
    | None => match expiries self with [] => None | e :: l0 => Some (e, l0) end end
    = match c_queue (view self) with [] => None | e :: l0 => Some (e, l0) end)
    by (unfold view; simpl; by destruct (pending_expiry self), (expiries self)).
  all: rewrite Hnext; clear Hnext; destruct (c_queue (view self)) as [|[e k] q] eqn:Hq.
  1, 3: apply wp_pure, expired_same; [done|done|done|by rewrite Hq].
  { simpl in Hlen. lia. }
  wp_next. wp_next. simpl in Hlen. destruct (connections self !! k) as [s|] eqn:Hk.
  - destruct (Z.ltb_spec t e) as [Hlt|Hle].
    + apply wp_modify, expired_same; [in_ok|unfold view in *; simpl in *; congruence|done|].
      intros _ e0 k0 q0 E. rewrite Hq in E. by simplify_eq.
    + wp_next. wp_next. wp_next.
      wp_next; [eapply wp_mono; [apply IH; [done|]|]|].
      * rewrite (view_quiet _ _ Hq0). simpl. lia.
      * intros r self' Hx. pose proof (view_quiet _ _ Hq0) as Hv.
        destruct Hq0 as (E1 & E2 & _ & _ & E5).
        apply (expired_step t self self0 r self' e k q); [done|by rewrite Hv|done|done|by right|done].
      * eapply (expired_step t self (drop_conn k (set_expiries q None self))); try done; [by right|].
        apply expired_same; [done|by apply view_quiet|by table|done].
  - eapply wp_mono; [apply IH; [in_ok|simpl; lia]|].
    intros r self' Hx. eapply (expired_step t self (set_expiries q None self)); try done. by left.
Qed.

Lemma expire_fuel_ok (self : Resp) : (length (c_queue (view self)) <= expire_fuel self)%nat.
Proof. unfold expire_fuel, view. simpl. rewrite length_app. destruct (pending_expiry self); simpl; lia. Qed.

(** Expiring keeps the table sound. *)
Lemma expired_table t self r self' mb ms :
  expired t self r self' -> table_ok mb ms (view self) ->
  table_ok mb ms (view self')
  /\ forall k s, connections self' !! k = Some s -> exists e, (e, k) ∈ c_queue (view self').
Proof.
  intros (_ & _ & _ & Hsub & _ & _ & Hcov & _) Ht.
  assert (Hq : forall k s, connections self' !! k = Some s -> exists e, (e, k) ∈ c_queue (view self')).
  { intros k s Hs. apply (Hcov k s Hs), (t_queue _ _ _ Ht k s). by eapply lookup_weaken. }
  split; [|done]. split; intros k s Hs; [|..|by eapply Hq]; pose proof (lookup_weaken _ _ _ _ Hs Hsub).
  - by eapply (t_key _ _ _ Ht).
  - by eapply (t_bound _ _ _ Ht).
Qed.

(** One packet keeps the table sound. *)
Lemma packet_table mb ms (self self' : Resp) data r :
  (match packet_of data with
   | None => view self' = view self
   | Some (ip, h, payload) => conn_step self ip h payload r (view self')
   end) ->
  mb = max_reorder_bytes self -> ms = max_reorder_segments self ->
  table_ok mb ms (view self) -> table_ok mb ms (view self').
Proof.
  intros Hstep -> -> Ht. destruct (packet_of data) as [[[ip h] payload]|]; [|by rewrite Hstep].
  by eapply conn_step_table_ok.
Qed.

End handlers.

(** *** Runs of packets *)

Section runs.
Context {A I R Output : Type} `{KernelConsts} `{UnalignedConsts}.
Context `{PortAdapter A R, !PortAdapterLaws A R} `{IpAdapter I} `{Payload} `{Parser Output} `{Hash64 Output}.
Abbreviation Resp := (Responder A I R Output).

(** The frames of a batch, one after the other, as [tick] processes them. *)
Fixpoint process_all (frames : list (list Z)) : M unit :=
  match frames with
  | [] => pure tt
  | data :: frames => bind (attempt (process_packet data)) (fun _ => process_all frames)
  end.

Context (l : link) (Hl : link_ok l) (fs : Z).
Context (Hpay : forall ip port p, build ip port = Ok p ->
  zlen p <= 65000 /\ 62 + TxMetadata_LEN + zlen p <= fs).
Context (before : Resp).

Definition delivered (g : Globals) (data : list Z) : Prop := is_bytes data /\ for_us g data.

(** An invariant of the table that every packet of the run keeps. *)
Lemma process_all_inv g (P : Resp -> Prop) (Ok_data : list Z -> Prop) :
  (forall (self self' : Resp) data, Ok_data data -> P self -> config self' = config self ->
     match packet_of data with
     | None => self' = self
     | Some (ip, h, payload) => exists r, conn_step self ip h payload r (view self')
     end -> P self') ->
  forall frames (self : Resp), Forall (delivered g) frames -> Forall Ok_data frames ->
    ok l fs before self -> P self ->
    wp (process_all frames) (fun r self' => r = Ok tt /\ ok l fs before self' /\ config self' = config self /\ P self') self.
Proof.
  intros Hstep frames. induction frames as [|data frames IH]; intros self Hd Hdat Hok HP; [done|].
  apply Forall_cons in Hd as [[Hb Hf] Hd]. apply Forall_cons in Hdat as [Hdat1 Hdat].
  cbn [process_all]. apply wp_bind. unfold attempt.
  pose proof (process_packet_ok l Hl fs Hpay before self g data Hok Hb Hf) as Hp. unfold wp in Hp |- * at 1.
  destruct (process_packet data self) as [[r self']|f]; [|done]. cbn [mbind outcome_bind].
  destruct (packet_of data) as [[[ip h] payload]|] eqn:E.
  - destruct Hp as (Hok' & Hc & Hs). eapply wp_mono; [apply IH; try done|].
    + apply (Hstep self self' data Hdat1 HP Hc). rewrite E. by exists r.
    + intros r' self'' (-> & ? & ? & ?). split_and!; congruence || done.
  - destruct Hp as [_ ->]. by apply IH.
Qed.

End runs.

(** ** Properties *)

Section properties.
Context {A I R Output : Type} `{KernelConsts} `{UnalignedConsts}.
Context `{PortAdapter A R, !PortAdapterLaws A R} `{IpAdapter I} `{Payload} `{Parser Output} `{Hash64 Output}.
Abbreviation Resp := (Responder A I R Output).
Context (l : link) (Hl : link_ok l) (fs : Z).
Context (Hpay : forall ip port p, build ip port = Ok p ->
  zlen p <= 65000 /\ 62 + TxMetadata_LEN + zlen p <= fs).
Context (before : Resp).

(** C8: the responder refines the connection machine: every frame the packet
    filter lets through is processed without a panic and without an access
    outside the packet memory, the sender and the port strategy stay in order,
    packet memory outside the frames of the sender is left as it is, and the
    table takes exactly one step of the machine for the packet in the
    frame (or none, when the frame holds no packet); a packet is ignored only
    if processing it failed or it asks for nothing. *)
Theorem packet_refines (g : Globals) (self : Resp) (data : list Z) :
  ok l fs before self -> is_bytes data -> for_us g data ->
  wp (process_packet data)
    (fun r self' => ok l fs before self' /\ config self' = config self
       /\ match packet_of data with
          | None => view self' = view self
          | Some (ip, h, payload) => conn_step self ip h payload r (view self')
          end) self.
Proof.
  intros Hok Hb Hf. eapply wp_mono; [by apply (process_packet_ok l Hl fs Hpay before self g)|].
  intros r self'. destruct (packet_of data) as [[[ip h] payload]|]; [done|]. by intros [_ ->].
Qed.

(** C11: no state is kept for a peer that has not proved it receives what is
    sent to its address: in any run of packets a connection appears only if
    one of the packets is a SYN and ACK from that very address and port that
    acknowledges the cookie of the session. *)
Theorem cookie_gate (g : Globals) (self : Resp) (frames : list (list Z)) (ip : Ipv4Addr) (port : Z) :
  ok l fs before self -> Forall (delivered g) frames -> connections self !! (ip, port) = None ->
  (forall data h payload, data ∈ frames -> packet_of data = Some (ip, h, payload) ->
     h_source_port h = port -> is_syn_ack h = true ->
     h_ack h <> u32_of (cookie ip port (seed self) + 1)) ->
  wp (process_all frames) (fun _ self' => connections self' !! (ip, port) = None) self.
Proof.
  intros Hok Hd Hn Hno.
  eapply wp_mono; [eapply (process_all_inv l Hl fs Hpay before g
    (fun s => config s = config self /\ connections s !! (ip, port) = None) (fun data => data ∈ frames))|].
  - intros s s' data Hin [Hc Hnone] Hc' Hstep. split; [congruence|].
    destruct (packet_of data) as [[[ip' h] payload]|] eqn:E; [|by rewrite Hstep].
    destruct Hstep as [r Hs]. change (connections s') with (c_map (view s')).
    destruct (decide ((ip', h_source_port h) = (ip, port))) as [Hk|Hk].
    2: { rewrite (conn_step_others s ip' h payload r); [done|done|congruence]. }
    injection Hk as -> Hport. inversion Hs; simpl; rewrite ?Hport in *; try congruence.
    exfalso. eapply (Hno data h payload); try done. unfold config in Hc. congruence.
  - done.
  - by apply Forall_forall.
  - done.
  - done.
  - intros r s' (_ & _ & _ & _ & Hs'). done.
Qed.

(** C20: the table stays sound over any run of packets: every connection is
    filed under its own address and port, its reorder buffer holds at most the
    configured number of segments and bytes, and a deadline is queued for it. *)
Theorem table_invariant (g : Globals) (self : Resp) (frames : list (list Z)) :
  ok l fs before self -> Forall (delivered g) frames ->
  table_ok (max_reorder_bytes self) (max_reorder_segments self) (view self) ->
  wp (process_all frames)
    (fun _ self' => table_ok (max_reorder_bytes self) (max_reorder_segments self) (view self')) self.
Proof.
  intros Hok Hd Ht.
  eapply wp_mono; [eapply (process_all_inv l Hl fs Hpay before g
    (fun s => config s = config self
       /\ table_ok (max_reorder_bytes self) (max_reorder_segments self) (view s)) (fun _ => True))|].
  - intros s s' data _ [Hc Hts] Hc' Hstep. split; [congruence|].
    destruct (packet_of data) as [[[ip' h] payload]|] eqn:E; [|by rewrite Hstep].
    destruct Hstep as [r Hs]. unfold config in Hc. injection Hc as _ E1 E2 _. rewrite <- E1, <- E2 in *.
    by eapply conn_step_table_ok.
  - done.
  - by apply Forall_true.
  - done.
  - done.
  - intros r s' (_ & _ & _ & _ & Hs'). done.
Qed.

(** C10: a peer's answer is put together right.  Let the packets of a peer that
    acknowledge data carry segments of one byte stream (of less than 2^32
    bytes), however they are cut, reordered, repeated, overlapping or lost; let
    its SYN and ACKs that echo the cookie repeat the first one, and its FINs
    carry no data (the data of a FIN is taken without a look at its number:
    [fin_out_of_order]).  Then what the connection has collected is a prefix of
    the stream at any time, which only grows unless a SYN and ACK was repeated
    (which starts the collection again), and every answer recorded for the peer
    was parsed from a prefix of the stream. *)
Theorem stream_reassembly (g : Globals) (self : Resp) (frames : list (list Z))
    (ip : Ipv4Addr) (port : Z) (s : State) (stream : list Z) (isn : Z) :
  ok l fs before self -> Forall (delivered g) frames -> zlen stream < 2 ^ 32 ->
  connections self !! (ip, port) = Some s -> follows stream isn s ->
  (forall data h payload, data ∈ frames -> packet_of data = Some (ip, h, payload) ->
     h_source_port h = port ->
     (is_fin h = true -> payload = [])
     /\ (opens (seed self) ip h -> u32_of (h_seq h + 1) = isn)
     /\ (is_ack h = true -> payload = [] \/ segment_of stream isn (h_seq h) payload)) ->
  wp (process_all frames)
    (fun _ self' =>
       (forall s', connections self' !! (ip, port) = Some s' -> follows stream isn s')
       /\ ((forall data h payload, data ∈ frames -> packet_of data = Some (ip, h, payload) ->
              h_source_port h = port -> ~ opens (seed self) ip h) ->
           forall s', connections self' !! (ip, port) = Some s' -> s_data s `prefix_of` s_data s')
       /\ forall hit, hit ∈ scanlings self' -> sc_ip _ hit = ip -> sc_port _ hit = port ->
            hit ∈ scanlings self \/ exists n, parse (take n stream) = Ok (response _ hit)) self.
Proof.
  intros Hok Hd Hlen Hs Hfol Hhon.
  set (grows := forall data h payload, data ∈ frames -> packet_of data = Some (ip, h, payload) ->
    h_source_port h = port -> ~ opens (seed self) ip h).
  eapply wp_mono; [eapply (process_all_inv l Hl fs Hpay before g
    (streaming stream isn grows self ip port s) (fun data => data ∈ frames))|]; try done.
  - intros s1 s2 data Hin HP Hc Hstep.
    destruct (packet_of data) as [[[ip' h] payload]|] eqn:E; [|by rewrite Hstep].
    destruct Hstep as [r Hstep]. eapply streaming_step; try done; [unfold config in Hc; congruence|].
    intros -> Hport. destruct (Hhon data h payload Hin E Hport) as (H1' & H2' & H3').
    split_and!; [done| |done]. intros Ho. split; [by apply H2'|]. intros Hg. by apply (Hg data h payload).
  - by apply Forall_forall.
  - split; [done|]. split; [|auto]. intros s' Hs'. simplify_eq. done.
  - intros r self' (_ & _ & _ & _ & HP & Hh). split_and!; [by apply HP| |done]. intros Hg s' Hs'.
    by apply HP.
Qed.


End properties.

(** ** Witnesses *)

Section witnesses.

(** A port strategy that never asks for another probe, and a protocol whose
    answers are four bytes long. *)
Local Instance quiet_ports : PortAdapter unit unit := {| port_on_result a _ _ _ r := Ret (None, a, r) |}.
#[local] Program Instance quiet_laws : PortAdapterLaws unit unit := {| port_inv _ := True; port_le _ _ := True |}.
Next Obligation. done. Qed.
Local Instance no_ips : IpAdapter unit := {| ip_on_result i _ := i |}.
Local Instance three_bytes : Payload := {| build _ _ := Ok [1; 2; 3] |}.
Local Instance four_bytes : Parser (list Z) :=
  {| parse d := if (length d <? 4)%nat then Err Incomplete else Ok d |}.
Local Instance no_hash : Hash64 (list Z) := {| hash64 _ := 0 |}.
Local Instance ex_unaligned : UnalignedConsts := {| BUF_ADDR_MASK := 2 ^ 48 - 1; BUF_OFFSET_SHIFT := 48 |}.
Local Existing Instance demo_consts.

Definition ex_globals : Globals := mkGlobals 40000 41000 2.

(** A connection to 1.2.3.4:25565 that waits for byte 100. *)
Definition ex_conn : State := mkState 16909060 25565 [] 100 5 ∅ 50.

Definition ex_resp (c : gmap Key State) (q : list Expiry) : Responder unit unit unit (list Z) :=
  mkResponder tt tt 0 (mkReceiver (mkRing 0 0 2 [0; 0]) 0 (mkRing 0 0 2 []) 0 2) (demo_net false)
    c [] q None tt 7 4 100 1000 [10; 20] [].

(** A data segment of that connection, two bytes at [seq]. *)
Definition ex_segment (seq b0 b1 : Z) : list Z :=
  [0;0;0;0;0;0; 0;0;0;0;0;0; 8;0; 69;0; 0;42; 0;1; 64;0; 64;6; 0;0; 1;2;3;4; 10;0;0;1;
   99;221; 156;64; 0;0;0;seq; 0;0;0;5; 80;24; 0;0; 0;0; 0;0; b0; b1].

Lemma ex_ok c q : ok demo_link 128 (ex_resp c q) (ex_resp c q).
Proof. split; [|done..]. split; [apply demo_net_ok|vm_compute; done]. Qed.

Lemma ex_fits : forall (ip : Ipv4Addr) port p, build ip port = Ok p ->
  zlen p <= 65000 /\ 62 + TxMetadata_LEN + zlen p <= 128.
Proof. intros ip port p [= <-]. vm_compute. split; discriminate. Qed.

Lemma ex_delivered : delivered ex_globals ex_frame /\ delivered ex_globals (ex_segment 100 1 2)
  /\ delivered ex_globals (ex_segment 102 3 4).
Proof. split_and!; (split; [repeat constructor; lia|vm_compute; split_and!; congruence]). Qed.

Lemma packet_refines_witness :
  wp (process_packet ex_frame)
    (fun r self' => exists h payload, conn_step (ex_resp ∅ []) 16909060 h payload r (view self'))
    (ex_resp ∅ []).
Proof.
  destruct ex_delivered as ([Hb Hf] & _). eapply wp_mono.
  { apply (packet_refines demo_link demo_link_ok 128 ex_fits (ex_resp ∅ []) ex_globals (ex_resp ∅ []) ex_frame);
      [apply ex_ok|exact Hb|exact Hf]. }
  intros r self' (_ & _ & Hs). vm_compute in Hs. eauto.
Defined.

Lemma cookie_gate_witness :
  wp (process_all [ex_frame]) (fun _ self' => connections self' !! (16909060, 25565) = None) (ex_resp ∅ []).
Proof.
  refine (cookie_gate demo_link demo_link_ok 128 ex_fits _ ex_globals (ex_resp ∅ []) [ex_frame]
    16909060 25565 (ex_ok _ _) _ _ _).
  - constructor; [apply ex_delivered|constructor].
  - reflexivity.
  - intros data h payload ->%list_elem_of_singleton Hp _ _. vm_compute in Hp. simplify_eq.
    vm_compute. discriminate.
Defined.

Lemma table_invariant_witness :
  wp (process_all [ex_segment 102 3 4]) (fun _ self' => table_ok 100 4 (view self'))
    (ex_resp {[ (16909060, 25565) := ex_conn ]} [(50, (16909060, 25565))]).
Proof.
  refine (table_invariant demo_link demo_link_ok 128 ex_fits _ ex_globals
    (ex_resp {[ (16909060, 25565) := ex_conn ]} [(50, (16909060, 25565))]) [ex_segment 102 3 4]
    (ex_ok _ _) _ _).
  - constructor; [apply ex_delivered|constructor].
  - split; simpl; intros k s [<- <-]%lookup_singleton_Some; [done|vm_compute; split; discriminate|].
    exists 50. apply list_elem_of_here.
Defined.

Lemma stream_reassembly_witness :
  wp (process_all [ex_segment 102 3 4; ex_segment 100 1 2])
    (fun _ self' => forall hit, hit ∈ scanlings self' -> sc_ip _ hit = 16909060 -> sc_port _ hit = 25565 ->
       hit ∈ ([] : list (Scanling (list Z)))
       \/ exists n, parse (take n [1; 2; 3; 4]) = Ok (response _ hit))
    (ex_resp {[ (16909060, 25565) := ex_conn ]} []).
Proof.
  eapply wp_mono; [refine (stream_reassembly demo_link demo_link_ok 128 ex_fits _ ex_globals
    (ex_resp {[ (16909060, 25565) := ex_conn ]} []) [ex_segment 102 3 4; ex_segment 100 1 2]
    16909060 25565 ex_conn [1; 2; 3; 4] 100 (ex_ok _ _) _ _ _ _ _)|intros r self' (_ & _ & Hh); exact Hh].
  - repeat constructor; apply ex_delivered.
  - done.
  - apply lookup_singleton_eq.
  - split; [by exists 0%nat; vm_compute; split_and!; [lia|..]|]. intros k v. simpl. by rewrite lookup_empty.
  - intros data h payload Hin Hp _. apply elem_of_cons in Hin as [->|Hin].
    + vm_compute in Hp. simplify_eq. split_and!; [done|by intros [? _]|]. right. by exists 2%nat.
    + apply list_elem_of_singleton in Hin as ->. vm_compute in Hp. simplify_eq.
      split_and!; [done|by intros [? _]|]. right. by exists 0%nat; split; [simpl; lia|].
Defined.


(** The payload of a FIN is taken without a look at its number: a FIN whose
    four bytes belong a hundred places further on is parsed as the answer. *)
Example fin_out_of_order :
  match process_packet ((fun b => if b =? 24 then 25 else b) <$> ex_segment 200 9 9)
          (ex_resp {[ (16909060, 25565) := mkState 16909060 25565 [1; 2] 102 5 ∅ 50 ]} []) with
  | Ret (Ok _, self') => scanlings self' = [mkScanling 16909060 25565 [1; 2; 9; 9]]
  | _ => False
  end.
Proof. vm_compute. reflexivity. Qed.

(** Data that arrives in pieces moves the deadline of a connection, but the
    deadline queued first still closes it. *)
Example extension_ignored :
  match process_packet (ex_segment 100 1 2)
          (ex_resp {[ (16909060, 25565) := ex_conn ]} [(50, (16909060, 25565))]) with
  | Ret (Ok _, self1) =>
      (expires_at <$> connections self1 !! (16909060, 25565)) = Some 1050
      /\ match expire_loop (expire_fuel self1) 60 self1 with
         | Ret (Ok _, self2) => connections self2 !! (16909060, 25565) = None
         | _ => False
         end
  | _ => False
  end.
Proof. vm_compute. split; reflexivity. Qed.

End witnesses.
