(* ===== verification/Answer.v ===== *)
(** * From an open port to a row: [controller/responder.rs]

    What the responder is for: a server that answers the probe, echoes the
    cookie and sends its status is recorded.  [Handshake] says what a packet
    may do to the table; here the packets of one server are followed from the
    SYN and ACK to the answer, with those of other peers in between. *)

From S2P Require Import Prelude Float Rand Tcp Ring Umem Completer Sender Receiver Minecraft Xdp Responder Handshake.

Section answer.
Context {A I R Output : Type} `{KernelConsts} `{UnalignedConsts}.
Context `{PortAdapter A R, !PortAdapterLaws A R} `{IpAdapter I} `{Payload} `{Parser Output} `{Hash64 Output}.
Abbreviation Resp := (Responder A I R Output).

(** ** When nothing refuses to work *)

(** Waking the kernel up will not fail, the transmit ring has [slots] free
    entries, and there are [turns] more turns of the kernel. *)
Definition can_send (slots turns : nat) (n : net) : Prop :=
  Forall (fun t => k_sendto t = true) (env n)
  /\ Z.of_nat slots <= u32_of (cached_cons (tx (sender n)) - cached_prod (tx (sender n)))
  /\ (turns <= length (env n))%nat.

(** The resources for [k] sends, and for reading the clock as often. *)
Definition willing (k : nat) (self : Resp) : Prop :=
  can_send k (2 * k) (r_net self) /\ (k <= length (clock self))%nat.

(** A computation that comes to an end without an error then; it may still
    panic, which is excluded elsewhere. *)
Definition smooth {X} (cost : nat) (m : M X) : Prop := forall k (self : Resp), willing (cost + k) self ->
  match m self with
  | Ret (Ok _, self') => willing k self'
  | Ret (Err _, _) => False
  | Fault f => f <> OutOfFuel
  end.

Lemma willing_less k k' (self : Resp) : (k' <= k)%nat -> willing k self -> willing k' self.
Proof. intros Hk ((Hs & Hr & He) & Hc). split; [split_and!; [done|lia..]|lia]. Qed.

Lemma smooth_pure {X} c (x : X) : smooth c (pure x).
Proof. intros k self Hw. simpl. eapply willing_less; [|done]. lia. Qed.
Lemma smooth_get c : smooth c get.
Proof. intros k self Hw. simpl. eapply willing_less; [|done]. lia. Qed.
Lemma smooth_lift {X} c (o : outcome X) : o <> Fault OutOfFuel -> smooth c (lift o).
Proof.
  intros Ho k self Hw. unfold lift. destruct o; simpl; [|congruence]. eapply willing_less; [|done]. lia.
Qed.
Lemma smooth_modify c f :
  (forall self : Resp, r_net (f self) = r_net self /\ clock (f self) = clock self) -> smooth c (modify f).
Proof.
  intros Hf k self Hw. unfold modify. destruct (Hf self) as [E1 E2]. apply (willing_less _ k) in Hw; [|lia].
  unfold willing in *. by rewrite E1, E2.
Qed.
Lemma smooth_bind {X Y} a b (m : M X) (g : X -> M Y) :
  smooth a m -> (forall x, smooth b (g x)) -> smooth (a + b) (bind m g).
Proof.
  intros Hm Hg k self Hw. rewrite <- Nat.add_assoc in Hw. specialize (Hm (b + k)%nat self Hw). unfold bind.
  destruct (m self) as [[[x|e] self']|]; [|done..]. cbn [mbind outcome_bind]. by apply Hg.
Qed.
Lemma smooth_now c : smooth (S c) now.
Proof.
  intros k self (Hn & Hc). unfold now. destruct (clock self) as [|t ts] eqn:E; [simpl in Hc; lia|]. simpl in Hc.
  apply (willing_less (c + k)); [lia|]. split; simpl; [|lia]. destruct Hn as (? & ? & ?). split_and!; [done|lia..].
Qed.

(** *** Sends *)

Lemma acquire_room slots turns n :
  can_send (S slots) (S turns) n ->
  exists ix n', acquire 1 n = Ret (Ok ix, n') /\ can_send slots turns n'.
Proof.
  destruct n as [s u c [|t e]]; intros (Hs & Hr & He); cbn [env sender] in *; [simpl in He; lia|].
  apply Forall_cons in Hs as [Ht Hs]. unfold acquire. cbn [env acquire_loop sender umem completer].
  rewrite Ht, andb_false_r. unfold reserve, free.
  rewrite (proj2 (Z.leb_le 1 _)), (proj2 (Z.ltb_ge _ 1)) by lia. eexists _, _. split; [done|].
  split_and!; [done| |simpl in *; lia]. cbn [sender tx with_tx cached_cons cached_prod].
  unfold u32_of, wrap in *. rewrite Zminus_mod_idemp_r.
  replace (cached_cons (tx s) - (cached_prod (tx s) + 1)) with (cached_cons (tx s) - cached_prod (tx s) - 1) by lia.
  rewrite <- Zminus_mod_idemp_l, Z.mod_small; [lia|].
  pose proof (Z.mod_pos_bound (cached_cons (tx s) - cached_prod (tx s)) (2 ^ 32)). lia.
Qed.

Lemma finish_room slots turns n :
  can_send slots (S turns) n -> exists n', finish 1 n = Ret (Ok tt, n') /\ can_send slots turns n'.
Proof.
  destruct n as [s u c [|t e]]; intros (Hs & Hr & He); cbn [env sender] in *; [simpl in He; lia|].
  apply Forall_cons in Hs as [Ht Hs]. unfold finish. cbn [env]. destruct (submit _ _) as [? sh].
  rewrite Ht, andb_false_r. eexists. split; [done|]. split_and!; [done..|simpl in *; lia].
Qed.

(** Writing a frame uses nothing up. *)
Definition local (write : Z -> net -> outcome net) : Prop := forall ix n,
  match write ix n with
  | Ret n' => env n' = env n /\ cached_cons (tx (sender n')) = cached_cons (tx (sender n))
              /\ cached_prod (tx (sender n')) = cached_prod (tx (sender n))
  | Fault f => f <> OutOfFuel
  end.

Lemma smooth_sending c write : local write -> smooth (S c) (sending (send_with write)).
Proof.
  intros Hl k self (Hn & Hc). unfold sending, send_with.
  assert (can_send (S k) (S (S (2 * k))) (r_net self)) as (ix & n & -> & Ha)%acquire_room.
  { destruct Hn as (? & ? & ?). split_and!; [done|lia..]. }
  cbn [mbind outcome_bind]. specialize (Hl ix n). destruct (write ix n) as [n1|]; [|done]. cbn [mbind outcome_bind].
  destruct Hl as (E1 & E2 & E3).
  assert (can_send k (S (2 * k)) n1) as (n2 & -> & Hf)%finish_room
    by (destruct Ha as (? & ? & ?); split_and!; congruence).
  split; [done|]. simpl. lia.
Qed.

Lemma local_bind {X} (o : outcome X) (g : X -> outcome net) (P : net -> Prop) :
  o <> Fault OutOfFuel ->
  (forall x, match g x with Ret n => P n | Fault f => f <> OutOfFuel end) ->
  match o ≫= g with Ret n => P n | Fault f => f <> OutOfFuel end.
Proof. intros Ho Hg. destruct o; simpl; [apply Hg|congruence]. Qed.

Lemma memory_settles :
  (forall r ix, desc_at r ix <> Fault OutOfFuel) /\ (forall u addr bytes, store u addr bytes <> Fault OutOfFuel)
  /\ (forall u addr f, edit_header u addr f <> Fault OutOfFuel).
Proof.
  assert (Hst : forall u addr bytes, store u addr bytes <> Fault OutOfFuel) by (intros; unfold store; by case_match).
  split_and!; [intros; unfold desc_at; by case_match|done|]. intros u addr f. unfold edit_header, load.
  case_match; [done|]. case_match; [apply Hst|done].
Qed.

Lemma writes_local :
  (forall p sd, local (fun ix => write_syn ix p sd))
  /\ (forall flags ip sp dp seq ack, local (fun ix => write_flags ix flags ip sp dp seq ack))
  /\ (forall ip sp dp seq ack body, local (fun ix => write_data ix ip sp dp seq ack body)).
Proof.
  destruct memory_settles as (Hd & Hs & He). split_and!.
  - intros [sp ip dp] sd ix n. unfold write_syn. repeat (apply local_bind; [done|intros ?]). done.
  - intros flags ip sp dp seq ack ix n. unfold write_flags. repeat (apply local_bind; [done|intros ?]). done.
  - intros ip sp dp seq ack body ix n. unfold write_data. apply local_bind; [done|intros d].
    destruct (_ <? _); [done|]. repeat (apply local_bind; [done|intros ?]). done.
Qed.

Lemma smooth_send c flags ip sp dp seq ack : smooth (S c) (sending (send flags ip sp dp seq ack)).
Proof. apply smooth_sending, writes_local. Qed.
Lemma smooth_send_data c ip sp dp seq ack body : smooth (S c) (sending (send_with_data ip sp dp seq ack body)).
Proof. apply smooth_sending, writes_local. Qed.
Lemma smooth_send_syn c p sd : smooth (S c) (sending (send_syn p sd)).
Proof. apply smooth_sending, writes_local. Qed.

(** A bind whose first part uses nothing up, or one send. *)
Lemma smooth_free {X Y} c (m : M X) (g : X -> M Y) :
  smooth 0 m -> (forall x, smooth c (g x)) -> smooth c (bind m g).
Proof. apply (smooth_bind 0). Qed.
Lemma smooth_pay {X Y} c (m : M X) (g : X -> M Y) :
  smooth 1 m -> (forall x, smooth c (g x)) -> smooth (S c) (bind m g).
Proof. apply (smooth_bind 1). Qed.

Ltac smooth_leaf known :=
  lazymatch goal with
  | |- smooth _ (pure _) => apply smooth_pure
  | |- smooth _ get => apply smooth_get
  | |- smooth _ now => apply smooth_now
  | |- smooth _ (modify _) => apply smooth_modify; intros ?; split; reflexivity
  | |- smooth _ (sending (send _ _ _ _ _ _)) => apply smooth_send
  | |- smooth _ (sending (send_with_data _ _ _ _ _ _)) => apply smooth_send_data
  | |- smooth _ (sending (send_syn _ _)) => apply smooth_send_syn
  | |- _ => known
  end.
Ltac smooth_with known :=
  repeat (cbv zeta;
    lazymatch goal with
    | |- smooth _ (bind _ _) =>
        first [ apply smooth_free; [solve [smooth_leaf known]|intros ?]
              | apply smooth_pay; [solve [smooth_leaf known]|intros ?] ]
    | |- smooth _ (match ?x with _ => _ end) => destruct x eqn:?
    | |- _ => smooth_leaf known
    end).

(** *** Handlers; the port strategy comes to a decision, and the request can
    be built for every host. *)

Context (Hport : forall (a : A) ip port hash (r : R), port_on_result a ip port hash r <> Fault OutOfFuel).
Context (Hbuild : forall ip port, exists p, build ip port = Ok p).

Lemma smooth_record c ip port hash : smooth (S c) (record ip port hash).
Proof. unfold record. smooth_with ltac:(apply smooth_lift, Hport). Qed.

Lemma smooth_syn_ack ip h : smooth 2 (process_syn_ack ip h).
Proof.
  unfold process_syn_ack. smooth_with ltac:(apply smooth_record).
  destruct (Hbuild ip (h_source_port h)). congruence.
Qed.

Lemma smooth_ack ip h payload : smooth 2 (process_ack ip h payload).
Proof. unfold process_ack, finish_ack. smooth_with ltac:(apply smooth_record). Qed.

Lemma smooth_fin ip h payload : smooth 2 (process_fin ip h payload).
Proof. unfold process_fin. smooth_with ltac:(apply smooth_record). Qed.

Lemma slice_settles data a b : slice data a b <> Fault OutOfFuel.
Proof. unfold slice. by case_match. Qed.
Lemma at_index_settles data i : at_index data i <> Fault OutOfFuel.
Proof. unfold at_index. by case_match. Qed.

(** Two sends are enough for any packet. *)
Lemma smooth_packet data : smooth 2 (process_packet data).
Proof.
  unfold process_packet.
  smooth_with ltac:(first [apply smooth_lift, slice_settles | apply smooth_lift, at_index_settles
    | apply smooth_record | apply smooth_syn_ack | apply smooth_ack | apply smooth_fin]).
Qed.

(** ** A server that speaks *)

(** The packets of one peer, in the order of arrival. *)
Definition from_peer (ip : Ipv4Addr) (port : Z) (data : list Z) : option (TcpHdr * list Z) :=
  match packet_of data with
  | Some (ip', h, payload) => if bool_decide ((ip', h_source_port h) = (ip, port)) then Some (h, payload) else None
  | None => None
  end.

(** Segments that continue what was received, in order, up to the one that
    completes an answer. *)
Fixpoint completes (ack seq : Z) (data : list Z) (segments : list (TcpHdr * list Z)) (banner : Output) : Prop :=
  match segments with
  | [] => False
  | (h, payload) :: segments =>
      is_ack h = true /\ h_ack h = ack /\ h_seq h = seq /\ payload <> []
      /\ match parse (data ++ payload) with
         | Ok b => b = banner /\ segments = []
         | Err Incomplete => completes ack (u32_of (seq + zlen payload)) (data ++ payload) segments banner
         | Err Invalid => False
         end
  end.

(** What the responder knows of the peer, by the packets still to come. *)
Definition progress (ip : Ipv4Addr) (port : Z) (banner : Output) (packets : list (TcpHdr * list Z)) (self : Resp) : Prop :=
  match connections self !! (ip, port) with
  | None =>
      match packets with
      | (h, _) :: segments =>
          is_syn_ack h = true /\ h_ack h = u32_of (cookie ip port (seed self) + 1)
          /\ exists p, build ip port = Ok p
               /\ completes (u32_of (h_ack h + u32_of (zlen p))) (u32_of (h_seq h + 1)) [] segments banner
      | [] => mkScanling ip port banner ∈ scanlings self
      end
  | Some s => reorder_buffer s = ∅ /\ completes (next_expected_ack s) (next_expected_seq s) (s_data s) packets banner
  end.

Lemma is_ack_not_syn h : is_ack h = true -> is_syn_ack h = false /\ is_rst h = false /\ is_fin h = false.
Proof. unfold is_ack. destruct (is_syn_ack h), (is_rst h), (is_fin h); done. Qed.

(** Nothing was held back: the segment is appended. *)
Lemma accept_plain s seq payload :
  reorder_buffer s = ∅ ->
  accept s seq payload
  = mkState (s_ip s) (s_port s) (s_data s ++ payload) (u32_of (seq + zlen payload)) (next_expected_ack s) ∅ (expires_at s).
Proof. intros Hbuf. unfold accept. by rewrite Hbuf, map_size_empty. Qed.

(** A packet of the peer moves it on. *)
Lemma progress_own ip port banner packets (self self' : Resp) h payload :
  progress ip port banner ((h, payload) :: packets) self -> h_source_port h = port ->
  conn_step self ip h payload (Ok tt) (view self') -> seed self' = seed self ->
  progress ip port banner packets self'.
Proof.
  intros Hp <- Hstep Hseed. unfold progress in *. change (connections self') with (c_map (view self')).
  change (scanlings self') with (c_hits (view self')). revert Hstep. generalize (view self'). intros c Hstep.
  destruct (connections self !! (ip, h_source_port h)) as [s|] eqn:Es.
  - destruct Hp as (Hbuf & Hack & Ha & Hq & Hne & Hp). destruct (is_ack_not_syn h Hack) as (Hns & Hnr & Hnf).
    assert (Hin : in_order h payload s) by done.
    destruct Hstep as [Hi|p t Hf|s' Hs Hf Hb Hn|s' Hs _ Hm s''|s' Hs _ Hm Hr|s' Hs Hwhy Hr|s' data b Hs Hm Hd];
      try congruence; cbn [c_map c_hits]; rewrite ?lookup_insert_eq, ?lookup_delete_eq.
    + exfalso. unfold idle in Hi. destruct Hi as [?|[[? _]|[[_ ?]|[(s' & _ & ? & [?|[_ ?]])|(_ & _ & _ & ?)]]]]; congruence.
    + subst s''. assert (s' = s) as -> by congruence. rewrite (accept_plain s (h_seq h) payload Hbuf) in *.
      cbn [s_data next_expected_ack next_expected_seq reorder_buffer] in *. rewrite Hm in Hp. by rewrite Hq.
    + exfalso. assert (s' = s) as -> by congruence. rewrite (accept_plain s (h_seq h) payload Hbuf) in *.
      cbn [s_data] in *. destruct (parse (s_data s ++ payload)) as [b|[]] eqn:E; [by eapply Hr|done|].
      destruct Hwhy as [?|[?|[_ ?]]]; congruence.
    + assert (s' = s) as -> by congruence. destruct Hd as [[_ ->]|[? _]]; [|congruence].
      rewrite (accept_plain s (h_seq h) payload Hbuf) in Hm. cbn [s_data] in Hm. rewrite Hm in Hp.
      destruct Hp as [-> ->]. apply elem_of_app. right. by apply list_elem_of_singleton.
  - destruct Hp as (Hsyn & Hc & p & Hb & Hp).
    destruct Hstep as [Hi|p' t Hf Hc' Hb'|s' Hs|s' Hs|s' Hs|s' Hs|s' data b Hs]; try congruence.
    + exfalso. unfold idle in Hi. destruct Hi as [?|[[_ ?]|[[? _]|[(s' & _ & ? & _)|(_ & _ & ? & _)]]]]; congruence.
    + cbn [c_map]. rewrite lookup_insert_eq. assert (p' = p) as -> by congruence. done.
Qed.

(** A packet of another peer changes nothing. *)
Lemma progress_others ip port banner packets (self self' : Resp) ip' h payload r :
  progress ip port banner packets self -> (ip', h_source_port h) <> (ip, port) ->
  conn_step self ip' h payload r (view self') -> seed self' = seed self ->
  progress ip port banner packets self'.
Proof.
  intros Hp Hk Hstep Hseed. unfold progress in *. change (connections self') with (c_map (view self')).
  rewrite (conn_step_others self ip' h payload r (view self') (ip, port)), Hseed by congruence.
  assert (Hhits : scanlings self ⊆ scanlings self').
  { change (scanlings self') with (c_hits (view self')). destruct Hstep; cbn [c_hits]; set_solver. }
  destruct (connections self !! (ip, port)); [done|]. destruct packets as [|[h' ?] ?]; [by apply Hhits|done].
Qed.

(** *** Runs *)

Context (l : link) (Hl : link_ok l) (fs : Z).
Context (Hpay : forall ip port p, build ip port = Ok p ->
  zlen p <= 65000 /\ 62 + TxMetadata_LEN + zlen p <= fs).
Context (before : Resp).

(** Two sends for every frame. *)
Lemma progress_run g ip port banner frames (self : Resp) :
  ok l fs before self -> willing (2 * length frames) self -> Forall (delivered g) frames ->
  progress ip port banner (omap (from_peer ip port) frames) self ->
  exists self', process_all frames self = Ret (Ok tt, self') /\ progress ip port banner [] self'.
Proof.
  revert self. induction frames as [|data frames IH]; intros self Hok Hw Hd Hp; [eexists; split; [done|exact Hp]|].
  apply Forall_cons in Hd as [[Hb Hf] Hd]. cbn [process_all]. unfold bind at 1, attempt.
  pose proof (process_packet_ok l Hl fs Hpay before self g data Hok Hb Hf) as Hs.
  assert (Hw2 : willing (2 + 2 * length frames) self) by (eapply willing_less; [|exact Hw]; simpl; lia).
  pose proof (smooth_packet data _ self Hw2) as Hw'. unfold wp in Hs.
  destruct (process_packet data self) as [[[[]|e] self']|f]; [|done..]. cbn [mbind outcome_bind].
  cbn [omap list_omap] in Hp. unfold from_peer at 1 in Hp.
  destruct (packet_of data) as [[[ip' h] payload]|] eqn:E.
  - destruct Hs as (Hok' & Hc & Hs). apply IH; [done..|].
    assert (Hseed : seed self' = seed self) by (unfold config in Hc; congruence).
    case_bool_decide as Hk; [injection Hk as -> Hk; by eapply progress_own|by eapply progress_others].
  - destruct Hs as [_ ->]. by apply IH.
Qed.

(** C9: a server that answers is recorded: of the frames the filter lets
    through, let those of one address and port be a SYN and ACK that echoes the
    cookie of the session and then segments, in order, acknowledging the
    request, that complete an answer; then, whatever packets of other peers
    come in between, the frames are all processed, the answer is among the
    results and the connection is closed.  What it takes is that the request
    can be built, that the port strategy comes to its decisions, and that the
    kernel can be woken up and has room in the transmit ring for two packets
    for every frame. *)
Theorem answer_collected (g : Globals) (self : Resp) (frames : list (list Z)) (ip : Ipv4Addr) (port : Z)
    (syn : TcpHdr) (rest request : list Z) (segments : list (TcpHdr * list Z)) (banner : Output) :
  ok l fs before self -> willing (2 * length frames) self -> Forall (delivered g) frames ->
  connections self !! (ip, port) = None ->
  omap (from_peer ip port) frames = (syn, rest) :: segments ->
  is_syn_ack syn = true -> h_ack syn = u32_of (cookie ip port (seed self) + 1) -> build ip port = Ok request ->
  completes (u32_of (h_ack syn + u32_of (zlen request))) (u32_of (h_seq syn + 1)) [] segments banner ->
  exists self', process_all frames self = Ret (Ok tt, self')
    /\ mkScanling ip port banner ∈ scanlings self' /\ connections self' !! (ip, port) = None.
Proof.
  intros Hok Hw Hd Hn Hfr Hsyn Hc Hreq Hcomp.
  destruct (progress_run g ip port banner frames self) as (self' & Hrun & Hp); [done..| |].
  - unfold progress. rewrite Hn, Hfr. eauto 6.
  - exists self'. split; [done|]. unfold progress in Hp.
    destruct (connections self' !! (ip, port)); [by destruct Hp|done].
Qed.

End answer.

(** ** Witness *)

Section witnesses.

(** A port strategy that never asks for another probe, and a protocol whose
    answers are four bytes long. *)
Local Instance still_ports : PortAdapter unit unit := {| port_on_result a _ _ _ r := Ret (None, a, r) |}.
#[local] Program Instance still_laws : PortAdapterLaws unit unit := {| port_inv _ := True; port_le _ _ := True |}.
Next Obligation. done. Qed.
Local Instance still_ips : IpAdapter unit := {| ip_on_result i _ := i |}.
Local Instance fixed_request : Payload := {| build _ _ := Ok [1; 2; 3] |}.
Local Instance four_byte_answer : Parser (list Z) :=
  {| parse d := if (length d <? 4)%nat then Err Incomplete else Ok d |}.
Local Instance zero_hash : Hash64 (list Z) := {| hash64 _ := 0 |}.
Local Instance mask_consts : UnalignedConsts := {| BUF_ADDR_MASK := 2 ^ 48 - 1; BUF_OFFSET_SHIFT := 48 |}.
Local Existing Instance demo_consts.

(** A ring of eight frames, all free. *)
Definition room_umem : Umem := mkUmem (replicate 1024 0) 128.
Definition room_ring : Ring Descriptor := mkRing 0 8 8 (replicate 8 (mkDesc 0 0 0)).
Definition room_completer : Completer := completer_new (mkRing 0 0 2 [0; 0]) (mkShared 0 0 0) (f64_of_Z 1) 0 2.
Definition room_net : net :=
  match sender_new (gateway demo_link) (interface demo_link) (source_ip demo_link) false room_umem room_ring 0 0 with
  | Ret (s, u) => mkNet s u room_completer (replicate 16 demo_turn)
  | Fault _ => mkNet (mkSender 0 0 room_ring 0 false) room_umem room_completer []
  end.

Definition room_resp : Responder unit unit unit (list Z) :=
  mkResponder tt tt 0 (mkReceiver (mkRing 0 0 2 [0; 0]) 0 (mkRing 0 0 2 []) 0 2) room_net
    ∅ [] [] None tt 7 4 100 1000 (replicate 8 10) [].

(** A frame from 1.2.3.[host]:25565 with two bytes of payload. *)
Definition wire (host flags seq ack b0 b1 : Z) : list Z :=
  [0;0;0;0;0;0; 0;0;0;0;0;0; 8;0; 69;0; 0;42; 0;1; 64;0; 64;6; 0;0; 1;2;3;host; 10;0;0;1;
   99;221; 156;64] ++ octets seq ++ octets ack ++ [80;flags; 0;0; 0;0; 0;0; b0; b1].

Definition room_cookie : Z := cookie 16909060 25565 7.

(** The server at 1.2.3.4 answers in two segments; 1.2.3.5 cuts in. *)
Definition conversation : list (list Z) :=
  [wire 4 18 99 (room_cookie + 1) 0 0; wire 4 24 100 (room_cookie + 4) 1 2;
   wire 5 24 100 9 7 7; wire 4 24 102 (room_cookie + 4) 3 4].

Lemma room_ok : ok demo_link 128 room_resp room_resp.
Proof.
  split; [|done..]. split; [|vm_compute; done].
  destruct (sender_new_ok demo_link demo_link_ok false room_umem room_ring 0 0 room_completer (replicate 16 demo_turn))
    as (s & u & Hnew & Hok & _); [vm_compute; done..|].
  cbn [r_net room_resp]. unfold room_net. rewrite Hnew. done.
Qed.

Lemma answer_collected_witness :
  exists self', process_all conversation room_resp = Ret (Ok tt, self')
    /\ mkScanling 16909060 25565 [1; 2; 3; 4] ∈ scanlings self' /\ connections self' !! (16909060, 25565) = None.
Proof.
  assert (Hfits : forall (ip : Ipv4Addr) port p, build ip port = Ok p ->
    zlen p <= 65000 /\ 62 + TxMetadata_LEN + zlen p <= 128).
  { intros ip port p [= <-]. vm_compute. split; discriminate. }
  refine (answer_collected _ _ demo_link demo_link_ok 128 Hfits room_resp (mkGlobals 40000 41000 2) room_resp
    conversation 16909060 25565 (mkTcpHdr 25565 40000 99 (room_cookie + 1) 18) [0; 0] [1; 2; 3]
    [(mkTcpHdr 25565 40000 100 (room_cookie + 4) 24, [1; 2]); (mkTcpHdr 25565 40000 102 (room_cookie + 4) 24, [3; 4])]
    [1; 2; 3; 4] room_ok _ _ _ _ _ _ _ _).
  - intros [] ip port hash []. discriminate.
  - intros ip port. eauto.
  - split; [split_and!; [repeat constructor|vm_compute; discriminate|vm_compute; lia]|vm_compute; lia].
  - repeat constructor; vm_compute; try congruence; split_and!; congruence.
  - reflexivity.
  - vm_compute. reflexivity.
  - reflexivity.
  - vm_compute. reflexivity.
  - reflexivity.
  - vm_compute. split_and!; congruence.
Defined.

End witnesses.
