(* ===== verification/Saturator.v ===== *)
(** * Saturators: [controller/scanner.rs] and [spawn_saturator] of
    [controller/session.rs]

    A saturator owns a queue of the network card.  Its thread in turn sends
    the probes that are queued, answers the packets that have arrived and
    collects completions; the scanner's sender, the responder's sender and the
    receive buffers share one packet memory. *)

From S2P Require Import Prelude Rand Tcp Ring Umem Completer Sender Receiver Minecraft Xdp Responder.
From S2P Require Import Handshake Deque.

(** ** [scanner.rs] *)

(** [sc_capacity] is the capacity of the vector of targets, the ring size. *)
Record Scanner : Type := mkScanner {
  sc_sender : Sender;
  sc_seed : Z;
  sc_capacity : Z }.

Definition scanner_new (s : Sender) (sd ring_size : Z) : Scanner := mkScanner s sd ring_size.

Section saturator.
Context {A I R Output : Type} `{KernelConsts} `{UnalignedConsts}.
Context `{PortAdapter A R, !PortAdapterLaws A R} `{IpAdapter I} `{Payload} `{Parser Output} `{Hash64 Output}.
Abbreviation Resp := (Responder A I R Output).

(** [tick]: [Some] is an error.  The memory and the completer are the
    saturator's, [d] is the queue of probes; a lost race is retried. *)
Fixpoint scanner_tick (fuel : nat) (self : Scanner) (u : Umem) (c : Completer) (e : list turn)
    (d : Deque PacketTemplate) : outcome (option unit * net * Deque PacketTemplate) :=
  let n := mkNet (sc_sender self) u c e in
  match fuel with
  | O => Fault OutOfFuel
  | S fuel =>
      '(s, d) ← steal_batch d (sc_capacity self);
      match s with
      | Empty => Ret (None, n, d)
      | Success targets =>
          '(r, n) ← send_syn_batch targets (sc_seed self) n;
          Ret (match r with Ok _ => None | Err e => Some e end, n, d)
      | Retry => scanner_tick fuel self u c e d
      end
  end.

(** ** [spawn_saturator] *)

(** [sat_queue] is what has been sent to the housekeeping thread. *)
Record saturator : Type := mkSaturator {
  sat_scanner : Scanner;
  sat_responder : Resp;
  sat_queue : list (Scanling Output);
  sat_steps : Z (* snoozes since the backoff was last reset *) }.

Definition with_net (self : Resp) (u : Umem) (c : Completer) (e : list turn) : Resp :=
  set_net (mkNet (sender (r_net self)) u c e) self.

(** What the outside does in a turn: what the kernel writes to the packet
    memory before the responder looks, the cells of the completion ring and
    the time when the completer ticks, and whether the session is over. *)
Record outside : Type := mkOutside {
  o_memory : Umem -> Umem;
  o_cr : Shared;
  o_now : Z;
  o_done : bool }.

(** One turn of the [loop]: true when it breaks. *)
Definition saturator_turn (o : outside) (self : saturator) (d : Deque PacketTemplate)
    : outcome (bool * saturator * Deque PacketTemplate) :=
  let resp := sat_responder self in
  let n := r_net resp in
  '(error, n, d) ← scanner_tick 1 (sat_scanner self) (umem n) (completer n) (env n) d;
  let scanner := mkScanner (sender n) (sc_seed (sat_scanner self)) (sc_capacity (sat_scanner self)) in
  let resp := with_net resp (o_memory o (umem n)) (completer n) (env n) in
  '(result, resp) ← tick resp;
  let queue := sat_queue self ++ scanlings resp in
  let resp := set_scanlings [] resp in
  let '(completed, c) := completer_tick (completer (r_net resp)) (o_cr o) (o_now o) in
  let resp := with_net resp (umem (r_net resp)) c (env (r_net resp)) in
  let progressed :=
    bool_decide (error = None) || bool_decide (result = Ok (Some tt)) || completed in
  let steps := if progressed then 0 else sat_steps self + 1 in
  Ret (o_done o, mkSaturator scanner resp queue steps, d).

(** ** Lemmas: a tick of the responder *)

Section proofs.
Context (l : link) (Hl : link_ok l) (fs : Z).
Context (Hpay : forall ip port p, build ip port = Ok p ->
  zlen p <= 65000 /\ 62 + TxMetadata_LEN + zlen p <= fs).
Context (g : Globals).

(** The descriptor names bytes outside the frames of the sender that hold a
    frame the packet filter lets through. *)
Definition arrives (n : net) (d : Descriptor) : Prop :=
  0 <= (slice_of d).1 /\ 0 <= (slice_of d).2 /\ apart n (slice_of d).1 (slice_of d).2
  /\ exists data, load (umem n) (slice_of d).1 (slice_of d).2 = Ret data /\ delivered g data.

(** Everything in order: the sender, the port strategy, the table. *)
Definition in_shape (self : Resp) : Prop :=
  ok l fs self self /\ table_ok (max_reorder_bytes self) (max_reorder_segments self) (view self).

Lemma ok_reset before (self : Resp) : ok l fs before self -> ok l fs self self.
Proof. intros [Hn Hp _ _]. by constructor. Qed.

Lemma in_shape_step before (self self' : Resp) data r :
  in_shape self -> ok l fs before self' -> config self' = config self ->
  (match packet_of data with
   | None => view self' = view self
   | Some (ip, h, payload) => conn_step self ip h payload r (view self')
   end) -> in_shape self'.
Proof.
  intros [_ Ht] Hok Hc Hs. split; [by eapply ok_reset|]. unfold config in Hc. injection Hc as _ E1 E2 _.
  rewrite E1, E2. by eapply packet_table.
Qed.

(** The receiver may be replaced. *)
Lemma in_shape_receiver rcv f ls (self : Resp) : in_shape self -> in_shape (set_receiver rcv f ls self).
Proof. intros [[Hn Hp _ _] Ht]. split; [by constructor|done]. Qed.

(** What happened to the strategies: addresses were reported to the one, no
    address was started in the other. *)
Definition later (self self' : Resp) : Prop :=
  reported (ip_adapter self) (ip_adapter self') /\ port_le (port_adapter self) (port_adapter self').

#[global] Instance later_preorder : PreOrder later.
Proof. split; [by split|]. intros x y z [? ?] [? ?]. split; by etrans. Qed.

Lemma ok_later before (self : Resp) : ok l fs before self -> later before self.
Proof. by intros [_ _ _ _ Hi Hp]. Qed.

Section batch.
Context (gd : BatchGuard) (rcv : Receiver) (n0 : net).
Context (Hfr : zlen (ring (fr rcv)) = Ring.size (fr rcv)) (Hpos : 0 < Ring.size (fr rcv)).
Context (Hpow : (Ring.size (fr rcv) | 2 ^ 32)) (Hfit : g_count gd <= Ring.size (fr rcv)).
Context (Hrx : zlen (ring (rx rcv)) = Ring.size (rx rcv)) (Hrpos : 0 < Ring.size (rx rcv)).
Context (Hw : g_count gd < 2 ^ 32).

(** The state in the middle of a batch, of which [c] frames are done. *)
Definition mid (c : Z) (start self : Resp) : Prop :=
  in_shape self /\ untouched n0 (r_net self) /\ recycled c gd rcv (receiver self)
  /\ config self = config start /\ looks self = looks start /\ filled self = filled start
  /\ later start self.

Lemma process_batch_ok start n : forall c (self : Resp),
  mid c start self -> 0 <= c <= g_count gd -> g_count gd - c <= Z.of_nat n ->
  (forall i d, c <= i < g_count gd -> entry_at (rx rcv) (rx_start gd) i = Some d -> arrives n0 d) ->
  wp (process_batch n (advanced gd c))
    (fun r self' => r = Ok (advanced gd (g_count gd)) /\ mid (g_count gd) start self') self.
Proof.
  induction n as [|n IH]; intros c self Hmid Hc Hn Harr; unfold wp; cbn [process_batch];
    unfold guard_next; cbn [g_count cursor advanced rx_start fill_start].
  { rewrite (proj2 (Z.leb_le _ _)) by lia. cbn [mbind outcome_bind].
    destruct self. replace (g_count gd) with c by lia. done. }
  destruct (Z.leb_spec (g_count gd) c).
  { cbn [mbind outcome_bind]. destruct self. replace (g_count gd) with c by lia. done. }
  destruct Hmid as (Hin & Hun & Hrec & Hcfg & Hlk & Hfl & Hip).
  destruct (recycled_step gd rcv Hfr Hpos Hpow Hfit Hrx Hrpos c (receiver self) Hrec ltac:(lia))
    as (d & rcv2 & Hd & He & Hs & Hrec2).
  unfold guard_desc in Hd |- *. cbn [rx_start advanced]. rewrite Hd. cbn [mbind outcome_bind].
  rewrite Hs. cbn [mbind outcome_bind]. unfold u32_of at 1. rewrite wrap_small by (unfold in_width; lia).
  fold (advanced gd (c + 1)).
  destruct (Harr c d ltac:(lia) He) as (Ha0 & Hm0 & Hap & data & Hload & Hb & Hf). cbn [fst snd slice_of] in *.
  change (umem (r_net (set_receiver rcv2 (filled self) (looks self) self))) with (umem (r_net self)).
  destruct Hun as (U1 & U2 & U3 & U4). rewrite U4, Hload by done. cbn [mbind outcome_bind].
  set (self1 := set_receiver rcv2 (filled self) (looks self) self).
  assert (Hin1 : in_shape self1) by (by apply in_shape_receiver).
  pose proof (process_packet_ok l Hl fs Hpay self1 self1 g data (proj1 Hin1) Hb Hf) as Hp.
  unfold wp in Hp. unfold attempt. destruct (process_packet data self1) as [[r self2]|f]; [|done].
  cbn [mbind outcome_bind].
  assert (Hst : ok l fs self1 self2 /\ config self2 = config self1 /\ match packet_of data with
     | None => view self2 = view self1
     | Some (ip, h, payload) => conn_step self1 ip h payload r (view self2)
     end).
  { destruct (packet_of data) as [[[ip h] payload]|]; [done|]. destruct Hp as [_ ->]. by split; [apply Hin1|]. }
  destruct Hst as (Hok2 & Hcfg2 & Hstep). apply IH; [|lia|lia|].
  - destruct Hok2 as [Hn2 Hp2 Hu2 (R1 & R2 & R3) Hi2 Hq2] eqn:E. split_and!.
    + by eapply in_shape_step; [exact Hin1|exact Hok2|done|exact Hstep].
    + etrans; [|exact Hu2]. done.
    + rewrite R1. exact Hrec2.
    + rewrite Hcfg2. exact Hcfg.
    + rewrite R3. exact Hlk.
    + rewrite R2. exact Hfl.
    + etrans; [exact Hip|]. by split.
  - intros i d' Hi. apply Harr. lia.
Qed.

End batch.

(** Looking for packets keeps the rings in order, whatever it finds. *)
Lemma receive_ok t (rcv rcv' : Receiver) res :
  receiver_ok rcv -> zlen (k_rx t) = Ring.size (rx rcv) -> receive t rcv = (res, rcv') ->
  receiver_ok rcv'
  /\ match res with
     | Ok (Some gd) => cursor gd = 0 /\ 0 < g_count gd <= rx_batch_size rcv'
         /\ zlen (ring (rx rcv')) = Ring.size (rx rcv')
     | _ => True
     end.
Proof.
  intros [[Hfr Hpos] Hpow Hrpos [Hb Hbw]] Hlen. unfold receive.
  destruct (peek _ _ _) as [o r] eqn:Ep. pose proof (peek_size _ _ _ _ _ Ep) as Hsz. simpl in Hsz.
  destruct o as [[ix k]|]; [|intros [= <- <-]; split; [|done]; by constructor; simpl; rewrite ?Hsz].
  apply peek_facts in Ep as (Hk & _ & Hr & _ & _); [|lia]. simpl in Hr.
  destruct (_ && _); [intros [= <- <-]; split; [|done]; by constructor; simpl; rewrite ?Hsz|].
  destruct (reserve _ _ _) as [o f] eqn:Er. apply reserve_facts in Er as (Hfs & Hfring & _).
  destruct o as [ix'|]; intros [= <- <-]; (split; [by constructor; simpl; rewrite ?Hsz, ?Hfs, ?Hfring|]);
    [|done]. simpl. rewrite Hr, Hsz. done.
Qed.

(** After a batch, dropping the guard only moves the counters. *)
Lemma drop_ok t gd rcv (rcv' : Receiver) f :
  receiver_ok rcv -> recycled (g_count gd) gd rcv rcv' ->
  exists rcv'', guard_drop t (advanced gd (g_count gd)) rcv' f = Ret (rcv'', u64_of (f + g_count gd))
    /\ receiver_ok rcv''.
Proof.
  intros [[Hfr Hpos] Hpow Hrpos Hb] (E1 & E2 & E3 & E4 & E5 & E6 & _ & _). unfold guard_drop.
  cbn [g_count cursor advanced]. rewrite Z.sub_diag. cbn [refill Z.to_nat mbind outcome_bind].
  eexists. split; [done|]. constructor; simpl; rewrite ?E1, ?E4, ?E5, ?E6; done.
Qed.

(** The kernel keeps its side: a look finds rings of the right size, and what
    it delivers has arrived. *)
Definition delivers (self : Resp) : Prop :=
  forall t ts, looks self = t :: ts ->
    zlen (k_rx t) = Ring.size (rx (receiver self))
    /\ forall gd rcv, receive t (receiver self) = (Ok (Some gd), rcv) ->
         Forall (arrives (r_net self)) (batch_descs gd rcv).

Definition ticked (self self' : Resp) : Prop :=
  in_shape self' /\ receiver_ok (receiver self') /\ untouched (r_net self) (r_net self')
  /\ config self' = config self /\ later self self'.

(** The last part: the deadlines. *)
Lemma tick_end (self self4 : Resp) :
  in_shape self4 -> receiver_ok (receiver self4) -> untouched (r_net self) (r_net self4) ->
  config self4 = config self -> later self self4 ->
  wp (bind now (fun time => bind get (fun self =>
        bind (expire_loop (expire_fuel self) time) (fun _ => pure (Some tt)))))
    (fun _ self' => ticked self self') self4.
Proof.
  intros [[Hn4 Hp4 _ _] Ht4] Hrcv4 Hun4 Hcfg4 Hip4. apply wp_bind. unfold wp at 1, now.
  destruct (clock self4) as [|time ts]; [done|]. set (self5 := set_clock ts self4).
  apply wp_bind, wp_get. apply wp_bind.
  assert (Hok5 : ok l fs self5 self5) by (by constructor).
  eapply wp_mono; [by apply (expire_loop_ok l Hl fs self5 time _ self5), expire_fuel_ok|].
  intros r self' Hx. assert (Hend : ticked self self').
  { destruct (expired_table l fs self5 time self5 r self' _ _ Hx Ht4) as [Ht' _].
    destruct Hx as (Hok' & Hcfg' & _). pose proof Hok' as [_ _ Hu' (Hr' & _) _ _].
    split_and!.
    - split; [by eapply ok_reset|]. unfold config in Hcfg'. injection Hcfg' as _ E1 E2 _. by rewrite E1, E2.
    - by rewrite Hr'.
    - etrans; [exact Hun4|exact Hu'].
    - rewrite Hcfg'. exact Hcfg4.
    - etrans; [exact Hip4|by apply ok_later in Hok']. }
  by destruct r.
Qed.

Lemma tick_ok (self : Resp) :
  in_shape self -> receiver_ok (receiver self) -> delivers self ->
  wp tick (fun _ self' => ticked self self') self.
Proof.
  intros Hin Hrcv Hdel. unfold tick. apply wp_bind. unfold wp at 1, look.
  destruct (looks self) as [|t ts] eqn:Elk; [done|]. destruct (Hdel t ts Elk) as [Hlen Harr].
  set (self1 := set_receiver _ _ _ _). apply wp_bind, wp_get. simpl.
  change (receiver self1) with (receiver self).
  destruct (receive t (receiver self)) as [res rcv] eqn:Er.
  destruct (receive_ok t _ _ _ Hrcv Hlen Er) as [Hrcv1 Hg].
  apply wp_bind, wp_modify. set (self2 := set_receiver rcv _ _ _).
  assert (Hin2 : in_shape self2) by (by apply in_shape_receiver, in_shape_receiver).
  destruct res as [[gd|]|[]]; [|done..]. destruct Hg as (Hcur & Hcnt & Hrx).
  specialize (Harr gd rcv eq_refl). pose proof Hrcv1 as [[Hfr Hpos] Hpow Hrpos [Hb Hbw]].
  assert (gd = advanced gd 0) as Hgd by (destruct gd; simpl in *; by subst).
  apply wp_bind. rewrite Hgd at 2. eapply wp_mono;
    [apply (process_batch_ok gd rcv (r_net self) Hfr Hpos Hpow ltac:(lia) Hrx Hrpos ltac:(lia) self2 _ 0)|].
  - split_and!; try done. apply recycled_0.
  - lia.
  - lia.
  - intros i d Hi He. rewrite Forall_forall in Harr. apply Harr. unfold batch_descs.
    apply list_elem_of_omap. exists i. split; [apply elem_of_seqZ; lia|done].
  - intros r self3 [-> (Hin3 & Hun3 & Hrec3 & Hcfg3 & Hlk3 & Hfl3 & Hip3)].
    apply wp_bind. unfold wp at 1, look. destruct (looks self3) as [|t' ts'] eqn:Elk3; [done|].
    apply wp_bind, wp_get. apply wp_bind.
    change (receiver (set_receiver (receiver self3) (filled self3) ts' self3)) with (receiver self3).
    change (filled (set_receiver (receiver self3) (filled self3) ts' self3)) with (filled self3).
    destruct (drop_ok t' gd rcv (receiver self3) (filled self3) Hrcv1 Hrec3) as (rcv4 & -> & Hrcv4).
    unfold wp at 1, lift. cbn [mbind outcome_bind]. apply wp_bind, wp_modify.
    set (self4 := set_receiver rcv4 _ _ _).
    assert (Hin4 : in_shape self4) by (by apply in_shape_receiver, in_shape_receiver).
    by apply (tick_end self self4).
Qed.

(** ** Lemmas: a turn *)

(** The addresses of the frames of a sender. *)
Definition frames (s : Sender) : list Z := d_addr <$> ring (tx s).

(** A sender stays ready when its frames keep their headers. *)
Lemma ready_memory (n : net) u c e :
  ready l fs n -> frame_size u = fs -> length (area u) = length (area (umem n)) ->
  (forall x, x ∈ frames (sender n) -> load u x 62 = load (umem n) x 62) ->
  ready l fs (mkNet (sender n) u c e).
Proof.
  intros [[Hs Hsl Hr Hp Hfr] Hfs] Hfu Hlen Hload. split; [|done]. constructor; simpl; try done.
  - intros i d Hd. destruct (Hsl i d Hd) as ((Ha & Hb & f & Hf) & Hroom & Hap).
    assert (Hx : d_addr d ∈ frames (sender n))
      by (apply list_elem_of_fmap; exists d; split; [done|by eapply list_elem_of_lookup_2]).
    rewrite Hfu, Hlen. rewrite Hfs in Hroom, Hap. split; [|by split].
    split; [done|]. split; [by rewrite Hlen|]. exists f. by rewrite Hload.
  - rewrite Hfu. by rewrite Hfs in Hfr.
Qed.

(** A write by one sender leaves the frames of the other alone. *)
Definition frames_apart (n : net) (xs : list Z) : Prop := Forall (fun x => 0 <= x /\ apart n x 62) xs.

Lemma untouched_frames n n' xs :
  untouched n n' -> frames_apart n xs ->
  (forall x, x ∈ xs -> load (umem n') x 62 = load (umem n) x 62) /\ frames_apart n' xs.
Proof.
  intros (U1 & U2 & _ & U4) Hap. split.
  - intros x Hx. unfold frames_apart in Hap. rewrite Forall_forall in Hap.
    destruct (Hap x Hx). apply U4; (done || lia).
  - eapply Forall_impl; [exact Hap|]. intros x [Hx Ha]. split; [done|]. unfold apart in *. by rewrite U1, U2.
Qed.

Definition scan_net (self : saturator) : net :=
  mkNet (sc_sender (sat_scanner self)) (umem (r_net (sat_responder self)))
    (completer (r_net (sat_responder self))) (env (r_net (sat_responder self))).

Record sat_ok (self : saturator) : Prop := {
  so_scan : ready l fs (scan_net self);
  so_resp : in_shape (sat_responder self);
  so_receiver : receiver_ok (receiver (sat_responder self));
  so_apart1 : frames_apart (scan_net self) (frames (sender (r_net (sat_responder self))));
  so_apart2 : frames_apart (r_net (sat_responder self)) (frames (sc_sender (sat_scanner self)));
  so_capacity : 0 <= sc_capacity (sat_scanner self) < 2 ^ 58 }.

(** The kernel writes to receive buffers only, and has done so when it says so. *)
Definition kernel_ok (o : outside) (self : saturator) : Prop :=
  let resp := sat_responder self in
  forall u c e, frame_size u = fs -> length (area u) = length (area (umem (r_net resp))) ->
    frame_size (o_memory o u) = fs /\ length (area (o_memory o u)) = length (area u)
    /\ (forall x, x ∈ frames (sc_sender (sat_scanner self)) \/ x ∈ frames (sender (r_net resp)) ->
          load (o_memory o u) x 62 = load u x 62)
    /\ delivers (with_net resp (o_memory o u) c e).

Lemma scanner_ok (self : Scanner) u c e d tasks :
  ready l fs (mkNet (sc_sender self) u c e) -> deque_wf d tasks -> 0 <= sc_capacity self < 2 ^ 58 ->
  match scanner_tick 1 self u c e d with
  | Ret (_, n', d') => ready l fs n' /\ untouched (mkNet (sc_sender self) u c e) n'
      /\ exists k, deque_wf d' (drop k tasks)
  | Fault f => f = OutOfFuel
  end.
Proof.
  intros Hn Hd Hc. cbn [scanner_tick].
  destruct (steal_batch_wf d tasks (sc_capacity self) Hd Hc) as (s & d' & -> & _ & Hd' & _).
  cbn [mbind outcome_bind]. destruct s as [| |targets]; [split_and!; [done|reflexivity|by eauto]|done|].
  pose proof (send_syn_batch_safe l Hl fs _ targets (sc_seed self) Hn) as Hs.
  destruct (send_syn_batch targets (sc_seed self) _) as [[r n']|f]; [|done]. cbn [mbind outcome_bind].
  destruct Hs as [? ?]. eauto.
Qed.

(** Whatever the queue holds: if the scanner returns, it has sent from its own
    frames only. *)
Lemma scanner_kept (self : Scanner) u c e d :
  ready l fs (mkNet (sc_sender self) u c e) ->
  match scanner_tick 1 self u c e d with
  | Ret (_, n', _) => ready l fs n' /\ untouched (mkNet (sc_sender self) u c e) n'
  | Fault _ => True
  end.
Proof.
  intros Hn. cbn [scanner_tick]. destruct (steal_batch _ _) as [[s d']|]; [|done]. cbn [mbind outcome_bind].
  destruct s as [| |targets]; [by split|done|].
  pose proof (send_syn_batch_safe l Hl fs _ targets (sc_seed self) Hn) as Hs.
  by destruct (send_syn_batch targets (sc_seed self) _) as [[r n']|f].
Qed.

(** The responder after the scanner has sent and the kernel has delivered. *)
Lemma with_net_shape (resp : Resp) u c e :
  in_shape resp -> frame_size u = fs -> length (area u) = length (area (umem (r_net resp))) ->
  (forall x, x ∈ frames (sender (r_net resp)) -> load u x 62 = load (umem (r_net resp)) x 62) ->
  in_shape (with_net resp u c e).
Proof.
  intros [[Hn Hp _ _] Ht] Hfu Hlen Hload. split; [|done]. constructor; try done. by apply ready_memory.
Qed.

Lemma frames_apart_memory (n : net) u c e xs :
  frame_size u = frame_size (umem n) -> frames_apart n xs -> frames_apart (mkNet (sender n) u c e) xs.
Proof.
  intros Hfu Hap. eapply Forall_impl; [exact Hap|]. intros x [Hx Ha]. split; [done|].
  unfold apart in *. simpl. by rewrite Hfu.
Qed.

Lemma sat_memory (self : saturator) (n1 : net) u :
  sat_ok self -> untouched (scan_net self) n1 -> ready l fs n1 ->
  frame_size u = fs -> length (area u) = length (area (umem n1)) ->
  (forall x, x ∈ frames (sc_sender (sat_scanner self)) \/ x ∈ frames (sender (r_net (sat_responder self))) ->
     load u x 62 = load (umem n1) x 62) ->
  let resp := with_net (sat_responder self) u (completer n1) (env n1) in
  in_shape resp /\ ready l fs (mkNet (sender n1) u (completer n1) (env n1))
  /\ frames_apart (mkNet (sender n1) u (completer n1) (env n1)) (frames (sender (r_net resp)))
  /\ frames_apart (r_net resp) (frames (sender n1)).
Proof.
  intros [H1' H2' H3' H4' H5' H6'] Hun Hn1 Hfu Hlen Hload resp.
  destruct (untouched_frames _ _ _ Hun H4') as [Hkeep Hap].
  destruct Hun as (U1 & U2 & U3 & U4). simpl in U1, U2, U3. fold (frames (sender n1)) in U1.
  assert (Hfs : frame_size (umem (r_net (sat_responder self))) = fs) by (by destruct H1' as [_ ?]).
  split_and!.
  - apply with_net_shape; [done|done|congruence|].
    intros x Hx. rewrite Hload by auto. by rewrite Hkeep.
  - apply ready_memory; [done|done|done|]. intros x Hx. apply Hload. left. by rewrite U1 in Hx.
  - apply (frames_apart_memory n1); [by rewrite Hfu, U2|done].
  - rewrite U1. apply (frames_apart_memory (r_net (sat_responder self))); [by rewrite Hfu|done].
Qed.

(** The responder has ticked: the scanner's frames are as they were. *)
Lemma sat_ticked (scanner : Scanner) (resp resp' : Resp) q k c :
  let n1 r := mkNet (sc_sender scanner) (umem (r_net r)) (completer (r_net r)) (env (r_net r)) in
  ready l fs (n1 resp) -> frames_apart (n1 resp) (frames (sender (r_net resp))) ->
  frames_apart (r_net resp) (frames (sc_sender scanner)) -> 0 <= sc_capacity scanner < 2 ^ 58 ->
  ticked resp resp' ->
  sat_ok (mkSaturator scanner
    (with_net (set_scanlings [] resp') (umem (r_net resp')) c (env (r_net resp'))) q k).
Proof.
  intros n1 Hn1 Hap1 Hap2 Hcap (Hin & Hrcv & Hun & _).
  destruct (untouched_frames _ _ _ Hun Hap2) as [Hkeep Hap2'].
  assert (Hfr : frames (sender (r_net resp')) = frames (sender (r_net resp))) by (by destruct Hun).
  pose proof Hun as (_ & U2 & U3 & _). assert (Hfs : frame_size (umem (r_net resp)) = fs) by (by destruct Hn1).
  constructor; simpl; try done.
  - apply (ready_memory (n1 resp)); [done|simpl; congruence|done|done].
  - destruct Hin as [[Hn Hp _ _] Ht]. split.
    + constructor; try done. destruct Hn as [Hn Hf]. split; [|done]. destruct Hn; by constructor.
    + destruct Ht as [T1 T2 T3]. by split.
  - rewrite Hfr. by apply (frames_apart_memory (n1 resp)).
Qed.

(** What the turn writes: the scanner to its frames, then the kernel, then the
    responder to its frames. *)
Definition own_writes (o : outside) (self self' : saturator) : Prop :=
  exists u c e, untouched (scan_net self) (mkNet (sc_sender (sat_scanner self')) u c e)
    /\ untouched (r_net (with_net (sat_responder self) (o_memory o u) c e)) (r_net (sat_responder self')).

Definition turned (o : outside) (self : saturator) (over : bool) (self' : saturator) : Prop :=
  over = o_done o /\ sat_ok self' /\ own_writes o self self'
  /\ sat_queue self `prefix_of` sat_queue self' /\ scanlings (sat_responder self') = []
  /\ later (sat_responder self) (sat_responder self').

(** The turn, by what the scanner makes of the queue. *)
Lemma saturator_turn_by (P : Deque PacketTemplate -> Prop) (F : fault -> Prop) (o : outside) (self : saturator)
    (d : Deque PacketTemplate) :
  sat_ok self -> kernel_ok o self -> F OutOfFuel ->
  (match scanner_tick 1 (sat_scanner self) (umem (r_net (sat_responder self)))
           (completer (r_net (sat_responder self))) (env (r_net (sat_responder self))) d with
   | Ret (_, n', d') => (ready l fs n' /\ untouched (scan_net self) n') /\ P d'
   | Fault f => F f
   end) ->
  match saturator_turn o self d with
  | Ret (over, self', d') => turned o self over self' /\ P d'
  | Fault f => F f
  end.
Proof.
  intros Hsat Hk HF Hsc. pose proof Hsat as [Hs1 Hs2 Hs3 Hs4 Hs5 Hs6]. unfold saturator_turn.
  destruct (scanner_tick 1 _ _ _ _ d) as [[[err n1] d1]|f]; [|done]. cbn [mbind outcome_bind].
  destruct Hsc as ((Hn1 & Hun1) & Hd1).
  destruct (Hk (umem n1) (completer n1) (env n1)) as (K1 & K2 & K3 & K4).
  { by destruct Hn1. }
  { by destruct Hun1 as (_ & _ & ? & _). }
  destruct (sat_memory self n1 (o_memory o (umem n1)) Hsat Hun1 Hn1 K1 K2 K3) as (M1 & M2 & M3 & M4).
  set (resp := with_net (sat_responder self) _ _ _) in *.
  pose proof (tick_ok resp M1 Hs3 K4) as Ht. unfold wp in Ht.
  destruct (tick resp) as [[r resp2]|f]; [|by rewrite Ht]. cbn [mbind outcome_bind].
  destruct (completer_tick _ _ _) as [completed c]. split; [|done].
  split_and!; [done| | |by eexists|done|by destruct Ht as (_ & _ & _ & _ & ?)].
  - by apply (sat_ticked (mkScanner (sender n1) _ _) resp resp2).
  - exists (umem n1), (completer n1), (env n1). split; [by destruct n1|]. by destruct Ht as (_ & _ & Hun & _).
Qed.

(** With a queue in order the turn does not fault, and takes from the front. *)
Lemma saturator_turn_ok (o : outside) (self : saturator) (d : Deque PacketTemplate)
    (tasks : list PacketTemplate) :
  sat_ok self -> kernel_ok o self -> deque_wf d tasks ->
  match saturator_turn o self d with
  | Ret (over, self', d') => turned o self over self' /\ exists k, deque_wf d' (drop k tasks)
  | Fault f => f = OutOfFuel
  end.
Proof.
  intros Hsat Hk Hd. apply saturator_turn_by; [done..|].
  pose proof (scanner_ok (sat_scanner self) _ _ _ d tasks (so_scan _ Hsat) Hd (so_capacity _ Hsat)) as Hsc.
  destruct (scanner_tick 1 _ _ _ _ d) as [[[err n1] d1]|f]; [|done]. destruct Hsc as (? & ? & ?). by split.
Qed.

(** With any queue, if the turn returns. *)
Lemma saturator_turn_kept (o : outside) (self : saturator) (d d' : Deque PacketTemplate) over self' :
  sat_ok self -> kernel_ok o self -> saturator_turn o self d = Ret (over, self', d') -> turned o self over self'.
Proof.
  intros Hsat Hk E. pose proof (saturator_turn_by (fun _ => True) (fun _ => True) o self d Hsat Hk ltac:(done)) as Hb.
  rewrite E in Hb. apply Hb. pose proof (scanner_kept (sat_scanner self) _ _ _ d (so_scan _ Hsat)) as Hsc.
  by destruct (scanner_tick 1 _ _ _ _ d) as [[[err n1] d1]|f].
Qed.

End proofs.
End saturator.
