(* ===== verification/Socket.v ===== *)
(** * Sockets and system calls: [xdp/socket.rs], [RingAllocator] of
      [xdp/ring.rs], [Umem::bind] of [xdp/umem.rs]

    The program talks to the kernel through calls on file descriptors.  A
    computation runs on the history of the calls made so far, each with the
    value the kernel returned, and ends with a result; a negative value, or
    whatever else the code takes for a failure, is an error with the number
    the kernel left behind.  [rules] are the conditions that the documentation
    of AF_XDP sets on the order of the calls. *)

From S2P Require Import Prelude Float Rand Config Ring Umem Ranges Text Tcp Link Native.

(** ** Constants of the C library *)

Class LibcConsts : Type := {
  AF_XDP : Z; SOCK_RAW_CLOEXEC : Z; SOL_XDP : Z; SOL_SOCKET : Z; PF_XDP : Z; MAP_FAILED : Z;
  XDP_MMAP_OFFSETS : Z; XDP_STATISTICS : Z; XDP_UMEM_REG : Z;
  XDP_RX_RING : Z; XDP_TX_RING : Z; XDP_UMEM_FILL_RING : Z; XDP_UMEM_COMPLETION_RING : Z;
  XDP_PGOFF_RX_RING : Z; XDP_PGOFF_TX_RING : Z; XDP_UMEM_PGOFF_FILL_RING : Z; XDP_UMEM_PGOFF_COMPLETION_RING : Z;
  SO_PREFER_BUSY_POLL : Z; SO_BUSY_POLL : Z; SO_BUSY_POLL_BUDGET : Z;
  XDP_USE_NEED_WAKEUP : Z; XDP_ZEROCOPY : Z; XDP_COPY : Z; XDP_SHARED_UMEM : Z; XDP_USE_SG : Z;
  XDP_UMEM_TX_METADATA_LEN : Z;
  EAGAIN : Z; EBUSY : Z; ENOBUFS : Z; ENETDOWN : Z }.

(** ** Calls *)

Record UmemReg : Type := mkReg {
  reg_addr : Z; reg_len : Z; reg_frame_size : Z; reg_headroom : Z; reg_flags : Z; reg_tx_metadata_len : Z }.

Record sockaddr_xdp : Type := mkSxdp {
  sxdp_family : Z; sxdp_flags : Z; sxdp_ifindex : Z; sxdp_queue_id : Z; sxdp_shared_umem_fd : Z }.

Record Statistics : Type := mkStatistics {
  rx_dropped : Z; rx_invalid_descs : Z; tx_invalid_descs : Z; rx_ring_full : Z;
  rx_fill_ring_empty_descs : Z; tx_ring_empty_descs : Z }.

Inductive optval : Type := OptInt (z : Z) | OptReg (r : UmemReg).

Inductive syscall : Type :=
  | SysSocket (family type protocol : Z)
  | SysSetsockopt (fd level name : Z) (v : optval)
  | SysGetsockopt (fd level name : Z)
  | SysMmap (fd len offset : Z)
  | SysBind (fd : Z) (addr : sockaddr_xdp)
  | SysMapSet (queue_id fd : Z)
  | SysSendto (fd : Z)
  | SysRecvfrom (fd : Z).

(** A call and what it returned. *)
Definition entry : Type := syscall * Z.

(** What the kernel answers after a history: the value returned, [errno], the
    records that [getsockopt] fills, and the entries of a ring it maps. *)
Record kernel : Type := mkKernel {
  k_ret : list entry -> syscall -> Z;
  k_errno : list entry -> syscall -> Z;
  k_offsets : list entry -> MmapOffsets;
  k_statistics : list entry -> Statistics;
  k_descs : Z -> RingKind -> list Descriptor;
  k_addrs : Z -> RingKind -> list Z }.

(** ** The monad *)

Definition sys (A : Type) : Type := list entry -> result Z A * list entry.

Global Instance sys_ret : MRet sys := fun A a h => (Ok a, h).
Global Instance sys_bind : MBind sys := fun A B f m h =>
  match m h with (Ok a, h) => f a h | (Err e, h) => (Err e, h) end.

Definition or_else {A} (m n : sys A) : sys A := fun h =>
  match m h with (Ok a, h) => (Ok a, h) | (Err _, h) => n h end.

Section socket.
Context `{LibcConsts} (k : kernel).

(** A call that fails with [errno] when [bad] holds of its value: [cbail!]. *)
Definition invoke (bad : Z -> bool) (c : syscall) : sys Z := fun h =>
  let r := k_ret k h c in (if bad r then Err (k_errno k h c) else Ok r, h ++ [(c, r)]).

Definition negative (r : Z) : bool := r <? 0.
Definition nonzero (r : Z) : bool := negb (r =? 0).

(** ** [Socket] *)

Definition socket_new : sys Z := invoke negative (SysSocket AF_XDP SOCK_RAW_CLOEXEC 0).

Definition set_opt (fd level name : Z) (value : optval) : sys unit :=
  _ ← invoke nonzero (SysSetsockopt fd level name value); mret tt.

(** [filled] is the record the kernel writes. *)
Definition get_opt {T} (filled : list entry -> T) (fd level name : Z) : sys T := fun h =>
  (_ ← invoke nonzero (SysGetsockopt fd level name); mret (filled h)) h.

Definition set_umem_reg (fd : Z) (reg : UmemReg) : sys unit := set_opt fd SOL_XDP XDP_UMEM_REG (OptReg reg).

Definition set_busy_poll (fd budget microseconds : Z) : sys unit :=
  _ ← set_opt fd SOL_SOCKET SO_PREFER_BUSY_POLL (OptInt 1);
  _ ← set_opt fd SOL_SOCKET SO_BUSY_POLL (OptInt microseconds);
  set_opt fd SOL_SOCKET SO_BUSY_POLL_BUDGET (OptInt budget).

Definition statistics (fd : Z) : sys Statistics := get_opt (k_statistics k) fd SOL_XDP XDP_STATISTICS.

(** The failures that [sendto] and [recvfrom] pass over. *)
Definition forgiven (errno : Z) : bool :=
  (errno =? EAGAIN) || (errno =? EBUSY) || (errno =? ENOBUFS) || (errno =? ENETDOWN).

Definition kick (c : syscall) : sys unit := fun h =>
  let r := k_ret k h c in
  (if r <? 0 then if forgiven (k_errno k h c) then Ok tt else Err (k_errno k h c) else Ok tt, h ++ [(c, r)]).

Definition sendto (fd : Z) : sys unit := kick (SysSendto fd).
Definition recvfrom (fd : Z) : sys unit := kick (SysRecvfrom fd).

Definition bind (fd flags if_index queue_id shared_umem_fd : Z) : sys unit :=
  _ ← invoke negative (SysBind fd (mkSxdp PF_XDP flags if_index queue_id shared_umem_fd)); mret tt.

(** [BindFlags] and [XdpMode::to_flags]. *)
Definition to_flags (self : XdpMode) : Z :=
  match self with Copy => XDP_COPY | ZeroCopy => XDP_ZEROCOPY | Fallback => 0 end.
Definition bind_flags (mode : XdpMode) : Z := Z.lor XDP_USE_NEED_WAKEUP (to_flags mode).

(** ** [RingAllocator] *)

Definition get_page_offset (self : RingKind) : Z :=
  match self with
  | Fill => XDP_UMEM_PGOFF_FILL_RING
  | Complete => XDP_UMEM_PGOFF_COMPLETION_RING
  | Tx => XDP_PGOFF_TX_RING
  | Rx => XDP_PGOFF_RX_RING
  end.

Definition get_opt_name (self : RingKind) : Z :=
  match self with
  | Fill => XDP_UMEM_FILL_RING
  | Complete => XDP_UMEM_COMPLETION_RING
  | Tx => XDP_TX_RING
  | Rx => XDP_RX_RING
  end.

Record RingAllocator : Type := mkAllocator { ra_socket : Z; ra_offsets : MmapOffsets }.

(** [Socket::rings]. *)
Definition rings (fd : Z) : sys RingAllocator :=
  offsets ← get_opt (k_offsets k) fd SOL_XDP XDP_MMAP_OFFSETS;
  mret (mkAllocator fd offsets).

(** [Ring::new] after the option that asks for the ring; the counters of a new
    ring are zero. *)
Definition alloc_ring {T} (self : RingAllocator) (kind : RingKind) (size : Z) (area : list T) : sys (Ring T) :=
  _ ← set_opt (ra_socket self) SOL_XDP (get_opt_name kind) (OptInt size);
  _ ← invoke (Z.eqb MAP_FAILED)
        (SysMmap (ra_socket self) (m_len (ring_map (ra_offsets self) kind size)) (get_page_offset kind));
  mret (ring_new kind (mkShared 0 0 0) size area).

Definition alloc_tx (self : RingAllocator) (size : Z) : sys (Ring Descriptor) :=
  alloc_ring self Tx size (k_descs k (ra_socket self) Tx).
Definition alloc_fr (self : RingAllocator) (size : Z) : sys (Ring Z) :=
  alloc_ring self Fill size (k_addrs k (ra_socket self) Fill).
Definition alloc_rx (self : RingAllocator) (size : Z) : sys (Ring Descriptor) :=
  alloc_ring self Rx size (k_descs k (ra_socket self) Rx).
Definition alloc_cr (self : RingAllocator) (size : Z) : sys (Ring Z) :=
  alloc_ring self Complete size (k_addrs k (ra_socket self) Complete).

(** ** [Umem]: the registration; [base] is the address of the area. *)

Definition as_reg (base : Z) (u : Umem) : UmemReg :=
  mkReg base (zlen (area u)) (frame_size u) 0 XDP_UMEM_TX_METADATA_LEN TxMetadata_LEN.

Definition remove_flags (r : UmemReg) : UmemReg :=
  mkReg (reg_addr r) (reg_len r) (reg_frame_size r) (reg_headroom r) 0 (reg_tx_metadata_len r).

Definition umem_bind (base : Z) (u : Umem) (fd : Z) : sys unit :=
  let reg := as_reg base u in
  or_else (set_umem_reg fd reg) (set_umem_reg fd (remove_flags reg)).

End socket.

(** ** The rules of AF_XDP *)

Global Instance RingKind_eq_dec : EqDecision RingKind.
Proof. solve_decision. Defined.

(** What the constants are chosen for: names, offsets and flags differ. *)
Class LibcLaws `{LibcConsts} : Prop := {
  levels_differ : SOL_SOCKET <> SOL_XDP;
  reg_name kind : get_opt_name kind <> XDP_UMEM_REG;
  opt_names kind kind' : get_opt_name kind = get_opt_name kind' -> kind = kind';
  page_offsets kind kind' : get_page_offset kind = get_page_offset kind' -> kind = kind';
  shared_flag : XDP_SHARED_UMEM <> 0;
  other_flags mode : Z.land (bind_flags mode) XDP_SHARED_UMEM = 0 }.

(** A socket: whether memory is registered with it, which rings it has, and
    whether it is bound. *)
Record sock : Type := mkSock { s_reg : bool; s_rings : list RingKind; s_bound : bool }.

Section rules.
Context `{LibcConsts}.

Definition all_kinds : list RingKind := [Fill; Complete; Tx; Rx].

Definition kind_of_opt (name : Z) : option RingKind :=
  head (filter (fun kind => get_opt_name kind = name) all_kinds).
Definition kind_of_offset (offset : Z) : option RingKind :=
  head (filter (fun kind => get_page_offset kind = offset) all_kinds).

Definition has (s : sock) (kind : RingKind) : bool := bool_decide (kind ∈ s_rings s).

(** A call is allowed: the sockets after it.  Calls that fail change nothing.
    - memory and rings are asked for on a socket that is not bound, each once;
    - a ring is mapped after it was asked for;
    - a socket is bound once, with a ring to send or to receive, and either
      with memory of its own and the rings that go with it, or, with the flag
      for sharing alone, with the memory of a socket that is bound;
    - only a bound socket is used. *)
Definition obey (st : gmap Z sock) (e : entry) : option (gmap Z sock) :=
  let '(c, r) := e in
  match c with
  | SysSocket _ _ _ => Some (if r <? 0 then st else <[r := mkSock false [] false]> st)
  | SysSetsockopt fd level name _ =>
      s ← st !! fd;
      if negb (level =? SOL_XDP) then Some st
      else if name =? XDP_UMEM_REG then
        if s_bound s || s_reg s then None
        else Some (if r =? 0 then <[fd := mkSock true (s_rings s) false]> st else st)
      else
        kind ← kind_of_opt name;
        if s_bound s || has s kind then None
        else Some (if r =? 0 then <[fd := mkSock (s_reg s) (kind :: s_rings s) false]> st else st)
  | SysGetsockopt fd _ _ => _ ← st !! fd; Some st
  | SysMmap fd _ offset =>
      s ← st !! fd;
      kind ← kind_of_offset offset;
      if has s kind then Some st else None
  | SysBind fd a =>
      s ← st !! fd;
      if s_bound s || negb (has s Tx || has s Rx) then None
      else
        let bound := Some (if r <? 0 then st else <[fd := mkSock (s_reg s) (s_rings s) true]> st) in
        if Z.land (sxdp_flags a) XDP_SHARED_UMEM =? 0 then
          if s_reg s && has s Fill && has s Complete then bound else None
        else
          other ← st !! sxdp_shared_umem_fd a;
          if (sxdp_flags a =? XDP_SHARED_UMEM) && negb (s_reg s) && s_reg other && s_bound other then bound else None
  | SysMapSet _ fd | SysSendto fd | SysRecvfrom fd =>
      s ← st !! fd;
      if s_bound s then Some st else None
  end.

(** The sockets after a history that obeys the rules. *)
Definition rules (h : list entry) : option (gmap Z sock) :=
  foldl (fun st e => st ≫= fun st => obey st e) (Some ∅) h.

(** What the code takes for a failure. *)
Definition failed (e : entry) : bool :=
  match e.1 with
  | SysSetsockopt _ _ _ _ | SysGetsockopt _ _ _ => nonzero e.2
  | SysMmap _ _ _ => MAP_FAILED =? e.2
  | _ => negative e.2
  end.

Lemma rules_snoc h e : rules (h ++ [e]) = rules h ≫= fun st => obey st e.
Proof. unfold rules. by rewrite foldl_app. Qed.

(** Descriptors are [int]s, and the kernel hands out one that is not in use. *)
Definition fds_ok (k : kernel) : Prop :=
  forall h st a b c, rules h = Some st -> k_ret k h (SysSocket a b c) < 2 ^ 31
    /\ (0 <= k_ret k h (SysSocket a b c) -> st !! k_ret k h (SysSocket a b c) = None).

(** *** Weakest preconditions *)

(** From a history that leaves the sockets [st], the calls of [m] obey the
    rules; the result satisfies [Q], or some call has failed. *)
Definition wps {A} (st : gmap Z sock) (m : sys A) (Q : A -> gmap Z sock -> Prop) : Prop :=
  forall h, rules h = Some st ->
    let '(r, h') := m h in
    exists st', rules h' = Some st'
      /\ match r with Ok a => Q a st' | Err _ => Exists (fun e => failed e = true) h' end.

Lemma wps_ret {A} st (a : A) (Q : A -> _ -> Prop) : Q a st -> wps st (mret a) Q.
Proof. intros HQ h Hh. by exists st. Qed.

Lemma wps_bind {A B} st (m : sys A) (f : A -> sys B) Q :
  wps st m (fun a st' => wps st' (f a) Q) -> wps st (m ≫= f) Q.
Proof.
  intros Hm h Hh. specialize (Hm h Hh). unfold mbind, sys_bind. destruct (m h) as [[a|e] h1].
  - destruct Hm as (st1 & Hh1 & Hf). exact (Hf h1 Hh1).
  - exact Hm.
Qed.

Lemma wps_mono {A} st (m : sys A) (Q Q' : A -> _ -> Prop) :
  wps st m Q -> (forall a st', Q a st' -> Q' a st') -> wps st m Q'.
Proof.
  intros Hm HQ h Hh. specialize (Hm h Hh). destruct (m h) as [[a|e] h1]; [|done].
  destruct Hm as (st1 & ? & ?). exists st1. auto.
Qed.

(** One call: it is allowed, whatever it returns. *)
Lemma wps_invoke (k : kernel) st bad c (Q : Z -> _ -> Prop) :
  (forall r, bad r = true -> failed (c, r) = true) ->
  (forall r, exists st', obey st (c, r) = Some st' /\ (bad r = false -> Q r st')) ->
  wps st (invoke k bad c) Q.
Proof.
  intros Hbad Hall h Hh. unfold invoke. destruct (Hall (k_ret k h c)) as (st' & Ho & HQ).
  exists st'. rewrite rules_snoc, Hh. split; [done|]. destruct (bad _) eqn:E; [|by apply HQ].
  apply Exists_app. right. apply Exists_cons. left. by apply Hbad.
Qed.

End rules.

(** ** Every operation obeys the rules *)

Section operations.
Context `{LibcLaws} (k : kernel).
Implicit Types (st : gmap Z sock) (s : sock).

Lemma kind_of_name kind : kind_of_opt (get_opt_name kind) = Some kind.
Proof.
  unfold kind_of_opt, all_kinds. rewrite !filter_cons, filter_nil.
  destruct kind; repeat case_decide; simpl; try done; exfalso;
    match goal with
    | E : get_opt_name _ = get_opt_name _ |- _ => apply opt_names in E; discriminate
    | E : get_opt_name _ <> get_opt_name _ |- _ => by apply E
    end.
Qed.

Lemma kind_of_page kind : kind_of_offset (get_page_offset kind) = Some kind.
Proof.
  unfold kind_of_offset, all_kinds. rewrite !filter_cons, filter_nil.
  destruct kind; repeat case_decide; simpl; try done; exfalso;
    match goal with
    | E : get_page_offset _ = get_page_offset _ |- _ => apply page_offsets in E; discriminate
    | E : get_page_offset _ <> get_page_offset _ |- _ => by apply E
    end.
Qed.

Lemma socket_new_wps st (Q : Z -> _ -> Prop) :
  fds_ok k ->
  (forall fd, 0 <= fd < 2 ^ 31 -> st !! fd = None -> Q fd (<[fd := mkSock false [] false]> st)) ->
  wps st (socket_new k) Q.
Proof.
  intros Hfd HQ h Hh. unfold socket_new, invoke. set (c := SysSocket _ _ _).
  destruct (Hfd h st AF_XDP SOCK_RAW_CLOEXEC 0 Hh) as [Hlt Hnew]. fold c in Hlt, Hnew.
  rewrite rules_snoc, Hh. unfold negative. simpl. destruct (Z.ltb_spec (k_ret k h c) 0) as [Hr|Hr].
  - exists st. split; [done|]. apply Exists_app. right. apply Exists_cons. left. by apply Z.ltb_lt.
  - eexists. split; [done|]. apply HQ; [lia|by apply Hnew].
Qed.

(** An option of the socket layer changes nothing here. *)
Lemma set_opt_plain st fd s name v (Q : unit -> _ -> Prop) :
  st !! fd = Some s -> Q tt st -> wps st (set_opt k fd SOL_SOCKET name v) Q.
Proof.
  intros Hs HQ. apply wps_bind, wps_invoke; [done|]. intros r. exists st. split.
  - simpl. rewrite Hs. simpl. by rewrite (proj2 (Z.eqb_neq _ _)) by apply levels_differ.
  - intros _. by apply wps_ret.
Qed.

Lemma set_busy_poll_wps st fd s budget us (Q : unit -> _ -> Prop) :
  st !! fd = Some s -> Q tt st -> wps st (set_busy_poll k fd budget us) Q.
Proof.
  intros Hs HQ. unfold set_busy_poll. do 2 (eapply wps_bind, set_opt_plain; [done|]). by eapply set_opt_plain.
Qed.

Lemma get_opt_wps {T} (filled : list entry -> T) st fd s level name (Q : T -> _ -> Prop) :
  st !! fd = Some s -> (forall x, Q x st) -> wps st (get_opt k filled fd level name) Q.
Proof.
  intros Hs HQ h. unfold get_opt. generalize (filled h). intros x. revert h.
  apply wps_bind, wps_invoke; [done|]. intros r. exists st. simpl. rewrite Hs. split; [done|]. intros _. by apply wps_ret.
Qed.

(** The ring is asked for and mapped. *)
Lemma alloc_ring_wps {T} st ra reg l kind size (area : list T) (Q : Ring T -> _ -> Prop) :
  st !! ra_socket ra = Some (mkSock reg l false) -> kind ∉ l ->
  Q (ring_new kind (mkShared 0 0 0) size area) (<[ra_socket ra := mkSock reg (kind :: l) false]> st) ->
  wps st (alloc_ring k ra kind size area) Q.
Proof.
  intros Hs Hk HQ. unfold alloc_ring, set_opt. do 2 apply wps_bind. apply wps_invoke; [done|]. intros r.
  simpl. rewrite Hs. simpl. rewrite Z.eqb_refl, (proj2 (Z.eqb_neq _ _)) by apply reg_name. simpl.
  rewrite kind_of_name. simpl. unfold has. rewrite bool_decide_eq_false_2 by done. eexists. split; [done|].
  unfold nonzero. destruct (r =? 0); [|done]. intros _. apply wps_ret, wps_bind, wps_invoke; [done|].
  intros r'. simpl. rewrite lookup_insert_eq, kind_of_page. simpl. unfold has. simpl.
  rewrite bool_decide_eq_true_2 by (apply elem_of_cons; by left). eexists. split; [done|]. intros _. by apply wps_ret.
Qed.

(** The memory is registered, with the flags or without them. *)
Lemma umem_bind_wps st base u fd l (Q : unit -> _ -> Prop) :
  st !! fd = Some (mkSock false l false) -> Q tt (<[fd := mkSock true l false]> st) ->
  wps st (umem_bind k base u fd) Q.
Proof.
  intros Hs HQ.
  assert (Hreg : forall reg h, rules h = Some st ->
    match set_umem_reg k fd reg h with
    | (Ok _, h') => rules h' = Some (<[fd := mkSock true l false]> st)
    | (Err _, h') => rules h' = Some st /\ Exists (fun e => failed e = true) h'
    end).
  { intros reg h Hh. unfold set_umem_reg, set_opt, mbind, sys_bind, invoke, nonzero. set (c := SysSetsockopt _ _ _ _).
    assert (Ho : obey st (c, k_ret k h c)
      = Some (if k_ret k h c =? 0 then <[fd := mkSock true l false]> st else st)).
    { simpl. rewrite Hs. simpl. by rewrite !Z.eqb_refl. }
    assert (Hr : rules (h ++ [(c, k_ret k h c)]) = obey st (c, k_ret k h c)) by (by rewrite rules_snoc, Hh).
    rewrite Ho in Hr. destruct (k_ret k h c =? 0) eqn:E; simpl negb; cbv iota; [exact Hr|]. split; [exact Hr|]. apply Exists_app. right. apply Exists_cons. left. unfold failed, nonzero. simpl. by rewrite E. }
  intros h Hh. unfold umem_bind, or_else. pose proof (Hreg (as_reg base u) h Hh) as H1.
  destruct (set_umem_reg k fd (as_reg base u) h) as [[[]|e] h1]; [by eexists|]. destruct H1 as [Hh1 _].
  pose proof (Hreg (remove_flags (as_reg base u)) h1 Hh1) as H2.
  destruct (set_umem_reg _ _ _ _) as [[[]|e'] h2]; [by eexists|]. destruct H2 as [Hh2 Hf]. by exists st.
Qed.

(** The first socket of a queue is bound with its own memory. *)
Lemma bind_own_wps st fd l mode if_index queue_id (Q : unit -> _ -> Prop) :
  st !! fd = Some (mkSock true l false) -> Tx ∈ l -> Fill ∈ l -> Complete ∈ l ->
  Q tt (<[fd := mkSock true l true]> st) -> wps st (bind k fd (bind_flags mode) if_index queue_id 0) Q.
Proof.
  intros Hs Ht Hf Hc HQ. apply wps_bind, wps_invoke; [done|]. intros r. simpl. rewrite Hs. simpl. unfold has.
  rewrite (bool_decide_eq_true_2 _ Ht), (bool_decide_eq_true_2 _ Hf), (bool_decide_eq_true_2 _ Hc).
  simpl. rewrite other_flags. simpl. eexists. split; [done|].
  unfold negative. intros ->. by apply wps_ret.
Qed.

(** The second one shares it. *)
Lemma bind_shared_wps st fd l other l' if_index queue_id (Q : unit -> _ -> Prop) :
  st !! fd = Some (mkSock false l false) -> Tx ∈ l -> 0 <= other < 2 ^ 31 ->
  st !! other = Some (mkSock true l' true) ->
  Q tt (<[fd := mkSock false l true]> st) ->
  wps st (bind k fd XDP_SHARED_UMEM if_index queue_id (u32_of other)) Q.
Proof.
  intros Hs Ht Hr Ho HQ. apply wps_bind, wps_invoke; [done|]. intros r. simpl. rewrite Hs. simpl. unfold has.
  rewrite (bool_decide_eq_true_2 _ Ht). simpl. rewrite Z.land_diag, (proj2 (Z.eqb_neq _ _)) by apply shared_flag.
  unfold u32_of. rewrite wrap_small, Ho by (unfold in_width; lia). simpl. rewrite Z.eqb_refl. simpl.
  eexists. split; [done|]. unfold negative. intros ->. by apply wps_ret.
Qed.

(** A bound socket is used. *)
Lemma kick_wps st c fd reg l (Q : unit -> _ -> Prop) :
  st !! fd = Some (mkSock reg l true) -> c = SysSendto fd \/ c = SysRecvfrom fd -> Q tt st -> wps st (kick k c) Q.
Proof.
  intros Hs Hc HQ h Hh. unfold kick. exists st. rewrite rules_snoc, Hh. simpl.
  assert (Ho : obey st (c, k_ret k h c) = Some st) by (destruct Hc as [-> | ->]; simpl; by rewrite Hs).
  split; [done|]. destruct (Z.ltb_spec (k_ret k h c) 0) as [Hr|Hr]; [|done]. destruct (forgiven _); [done|].
  apply Exists_app. right. apply Exists_cons. left. destruct Hc as [-> | ->]; by apply Z.ltb_lt.
Qed.

End operations.

(** ** Histories grow *)

Definition grows {A} (m : sys A) : Prop := forall h, h `prefix_of` (m h).2.

Create HintDb grows.

Lemma grows_ret {A} (a : A) : grows (mret a).
Proof. intros h. done. Qed.

Lemma grows_bind {A B} (m : sys A) (f : A -> sys B) : grows m -> (forall a, grows (f a)) -> grows (m ≫= f).
Proof.
  intros Hm Hf h. specialize (Hm h). unfold mbind, sys_bind. destruct (m h) as [[a|e] h1]; [|done].
  etrans; [exact Hm|]. apply Hf.
Qed.

Lemma grows_or_else {A} (m n : sys A) : grows m -> grows n -> grows (or_else m n).
Proof.
  intros Hm Hn h. specialize (Hm h). unfold or_else. destruct (m h) as [[a|e] h1]; [done|]. etrans; [exact Hm|apply Hn].
Qed.

Lemma grows_invoke (k : kernel) bad c : grows (invoke k bad c).
Proof. intros h. by eexists. Qed.

Lemma grows_kick `{LibcConsts} (k : kernel) c : grows (kick k c).
Proof. intros h. by eexists. Qed.

Lemma grows_get_opt (k : kernel) {T} (filled : list entry -> T) fd level name : grows (get_opt k filled fd level name).
Proof. intros h. apply (grows_bind (invoke _ _ _)); [apply grows_invoke|]. intros. apply grows_ret. Qed.

#[export] Hint Resolve grows_ret grows_bind grows_or_else grows_invoke grows_kick grows_get_opt : grows.

(** What a successful sequence did last. *)
Lemma sys_bind_ok {A B} (m : sys A) (f : A -> sys B) h b h' :
  (m ≫= f) h = (Ok b, h') -> exists a h1, m h = (Ok a, h1) /\ f a h1 = (Ok b, h').
Proof. unfold mbind, sys_bind. destruct (m h) as [[a|e] h1]; [|done]. eauto. Qed.
