(* ===== verification/Setup.v ===== *)
(** * Start-up: [Controller::new] of [controller/mod.rs], [main.rs]

    How many queues are used, how the packet memory of a queue is shared out
    between its two senders and its receiver, and the saturator that comes out
    of it. *)

From S2P Require Import Prelude Float Rand Tcp Ring Umem Completer Sender Receiver Minecraft Xdp Responder.
From S2P Require Import Handshake Deque Saturator Ranges Text Prefix Config PortGraph Database Link Native Socket.

(** ** [main.rs] *)

(** The check of the number of queues: [None] is [bail!]. *)
Definition usable_queue_count (queue_count parallelism : Z) : option Z :=
  if queue_count =? 0 then None
  else
    let usable := u32_of (Z.min (Z.max (Z.max 0 (parallelism - 2)) 1) queue_count) in
    if usable <? queue_count then None else Some usable.

(** The ports of all configured ranges, collected in a [HashSet]. *)
Definition seed_ports `{HashIter} (ranges : list PortRange) : list Z :=
  (hiter (gset_to_gmap tt (list_to_set (ranges ≫= as_vec) : gset Z))).*1.

(** One [Umem::new] per queue. *)
Definition queue_umem (ring_size page_size : Z) : Umem := umem_new 2048 (u32_of (3 * ring_size)) page_size.

(** The selector of the next session. *)
Definition next_selector {R} `{Rng R} (epsilon : f64) (max_count : Z) (rng : R) : Selector * R :=
  let '(u, rng) := random_unit rng in
  if f64_ge u epsilon then (AllSelector, rng) else (RescanSelector max_count, rng).

(** ** [Controller::new], one queue *)

(** What is made for one queue: the scanner's sender, the responder's receiver
    and sender, the completion ring, and the packet memory. *)
Record parts : Type := mkParts {
  p_sender : Sender;
  p_receiver : Receiver;
  p_responder : Sender;
  p_cr : Ring Z;
  p_umem : Umem }.

Section setup.
Context `{KernelConsts} `{UnalignedConsts} `{LibcConsts} (k : kernel).

Definition busy_poll (c : BusyPollingConfig) (fd : Z) : sys unit :=
  if c_enabled c then set_busy_poll k fd (c_budget c) (c_microseconds c) else mret tt.

(** [XskMap::set]. *)
Definition socks_set (queue_id fd : Z) : sys unit := _ ← invoke k negative (SysMapSet queue_id fd); mret tt.

(** The first socket of a queue and its rings. *)
Definition open_queue (c : XdpConfig) (if_index queue_id base : Z) (u : Umem)
    : sys (Z * (Ring Descriptor * Ring Z * Ring Descriptor * Ring Z)) :=
  socket ← socket_new k;
  _ ← busy_poll (c_busy_polling c) socket;
  _ ← umem_bind k base u socket;
  allocator ← rings k socket;
  tx ← alloc_tx k allocator (c_ring_size c);
  fr ← alloc_fr k allocator (c_ring_size c);
  rx ← alloc_rx k allocator (c_ring_size c);
  cr ← alloc_cr k allocator (c_ring_size c);
  _ ← bind k socket (bind_flags (c_mode c)) if_index queue_id 0;
  _ ← socks_set queue_id socket;
  mret (socket, (tx, fr, rx, cr)).

(** The socket that shares its memory. *)
Definition open_shared (c : XdpConfig) (if_index queue_id socket : Z) : sys (Ring Descriptor) :=
  socket_shared ← socket_new k;
  _ ← busy_poll (c_busy_polling c) socket_shared;
  allocator ← rings k socket_shared;
  tx ← alloc_tx k allocator (c_ring_size c);
  _ ← bind k socket_shared XDP_SHARED_UMEM if_index queue_id (u32_of socket);
  mret tx.

(** A new fill ring: nothing consumed, no flags. *)
Definition fresh_look : rlook := mkLook [] 0 0 0 true.

(** One turn of the [for] over the queues, from the history [h]; the kick of
    the fill ring ends [Receiver::new]. *)
Definition setup_queue (c : XdpConfig) (if_index : Z) (l : link) (queue_id base : Z) (u : Umem) (h : list entry)
    : outcome (result unit parts * list entry) :=
  match open_queue c if_index queue_id base u h with
  | (Err _, h) => Ret (Err tt, h)
  | (Ok (socket, (tx, fr, rx, cr)), h) =>
      '(s, u) ← sender_new (gateway l) (interface l) (source_ip l) (c_checksum_offload c) u tx 0 0;
      match open_shared c if_index queue_id socket h with
      | (Err _, h) => Ret (Err tt, h)
      | (Ok tx2, h) =>
          r ← receiver_new u fr 0 rx 0 (c_ring_size c) (c_rx (c_batches c)) fresh_look;
          match r with
          | Err e => Ret (Err e, h)
          | Ok rcv =>
              match recvfrom k socket h with
              | (Err _, h) => Ret (Err tt, h)
              | (Ok _, h) =>
                  '(s2, u) ← sender_new (gateway l) (interface l) (source_ip l) (c_checksum_offload c) u tx2 0
                               (u32_of (2 * c_ring_size c));
                  Ret (Ok (mkParts s rcv s2 cr u), h)
              end
          end
      end
  end.

(** The [for]: one queue after the other, each with its own memory. *)
Fixpoint setup_queues (c : XdpConfig) (if_index : Z) (l : link) (queue_id : Z) (umems : list (Z * Umem))
    (h : list entry) : outcome (result unit (list parts) * list entry) :=
  match umems with
  | [] => Ret (Ok [], h)
  | (base, u) :: umems =>
      '(r, h) ← setup_queue c if_index l queue_id base u h;
      match r with
      | Err e => Ret (Err e, h)
      | Ok p =>
          '(r, h) ← setup_queues c if_index l (u32_of (queue_id + 1)) umems h;
          Ret (ps ← r; Ok (p :: ps), h)
      end
  end.

(** [spawn_saturator] of what was made, at the start of a session. *)
Definition saturator_new {A I R Output} (p : parts) (ring_size : Z) (c : Completer) (e : list turn)
    (a : A) (i : I) (r : R) (sd max_segments max_bytes time : Z) (ts : list Z) (ls : list rlook)
    : @saturator A I R Output :=
  mkSaturator (scanner_new (p_sender p) sd ring_size)
    (responder_new (p_receiver p) (mkNet (p_responder p) (p_umem p) c e) a i r 0 sd max_segments max_bytes
       time ts ls) [] 0.

End setup.

(** ** Lemmas *)

Section lemmas.
Context `{KernelConsts} `{UnalignedConsts} `{LibcLaws} (k : kernel).

(** The fill ring after [fill_frames]. *)
Lemma fill_frames_ok start fs n : forall i (self : Receiver),
  zlen (ring (fr self)) = Ring.size (fr self) -> 0 <= i -> i + Z.of_nat n <= Ring.size (fr self) ->
  Ring.size (fr self) < 2 ^ 32 -> 0 <= start -> 0 <= fs -> (start + Ring.size (fr self)) * fs < 2 ^ 32 ->
  start + Ring.size (fr self) < 2 ^ 32 ->
  exists r, fill_frames n i 0 start fs self = Ret (with_fr self r)
    /\ Ring.size r = Ring.size (fr self) /\ length (ring r) = length (ring (fr self))
    /\ forall j, 0 <= j < i + Z.of_nat n ->
         ring r !! Z.to_nat j = if j <? i then ring (fr self) !! Z.to_nat j else Some ((start + j) * fs).
Proof.
  induction n as [|n IH]; intros i self Hlen Hi Hin Hs Hst Hfs Hb Hb2; cbn [fill_frames].
  { exists (fr self). split; [by destruct self|]. split_and!; [done..|].
    intros j Hj. by rewrite (proj2 (Z.ltb_lt j i)) by lia. }
  unfold u32_of. rewrite (wrap_small 32 (start + i)), (wrap_small 32 (0 + i)) by (unfold in_width; lia).
  rewrite (wrap_small 32 ((start + i) * fs)) by (unfold in_width; nia). unfold fill_slot, ring_get, slot_of.
  rewrite Z.add_0_l, Z.mod_small by lia.
  destruct (ring (fr self) !! Z.to_nat i) as [x|] eqn:Ex; [|apply lookup_ge_None in Ex; lia].
  cbn [mbind outcome_bind]. set (self1 := with_fr self _).
  destruct (IH (i + 1) self1) as (r & -> & E1 & E2 & E3); simpl; rewrite ?length_insert; try done; try lia.
  exists r. simpl in E1, E2, E3. rewrite length_insert in E2. split_and!; [done..|].
  intros j Hj. rewrite E3 by lia. unfold slot_of. rewrite Z.mod_small by lia.
  destruct (Z.ltb_spec j (i + 1)), (Z.ltb_spec j i); try lia; try done.
  - rewrite list_lookup_insert_ne by lia. done.
  - assert (j = i) as -> by lia. rewrite list_lookup_insert_eq; [done|]. by eapply lookup_lt_Some.
Qed.

Lemma receiver_new_ok (u : Umem) sz (area : list Z) (rarea : list Descriptor) start batch t :
  zlen area = sz -> 0 < sz -> (sz | 2 ^ 32) -> 0 <= batch <= sz ->
  0 <= start -> 0 <= frame_size u -> (start + sz) * frame_size u < 2 ^ 32 -> start + sz < 2 ^ 32 ->
  exists rcv, receiver_new u (ring_new Fill (mkShared 0 0 0) sz area) 0
      (ring_new Rx (mkShared 0 0 0) sz rarea) 0 start batch t = Ret (if k_recvfrom t then Ok rcv else Err tt)
    /\ receiver_ok rcv /\ Ring.size (rx rcv) = sz /\ Ring.size (fr rcv) = sz /\ rx_batch_size rcv = batch
    /\ forall j, 0 <= j < sz -> ring (fr rcv) !! Z.to_nat j = Some ((start + j) * frame_size u).
Proof.
  intros Hlen Hs Hpow Hb Hst Hfs Hb1 Hb2. unfold receiver_new. cbn [ring_new initial_counters Ring.size].
  assert (Hres : forall sh, reserve (mkRing 0 sz sz area) sh sz = (Some 0, mkRing sz sz sz area)).
  { intros sh. unfold reserve, free, u32_of. simpl. rewrite Z.sub_0_r, (wrap_small 32 sz) by (unfold in_width; lia).
    rewrite Z.leb_refl, Z.ltb_irrefl. cbn [Ring.cached_prod Ring.cached_cons Ring.size Ring.ring]. rewrite Z.add_0_l, (wrap_small 32 sz) by (unfold in_width; lia). done. }
  rewrite Hres.
  set (self0 := mkReceiver _ _ _ _ _).
  destruct (fill_frames_ok start (frame_size u) (Z.to_nat sz) 0 self0) as (r & -> & E1 & E2 & E3);
    simpl; try done; try lia.
  eexists. split; [by destruct (k_recvfrom t)|]. simpl in *. split_and!; try done.
  - constructor; simpl; rewrite ?E1, ?E2; try done; lia.
  - intros j Hj. rewrite E3 by lia. by rewrite (proj2 (Z.ltb_ge j 0)) by lia.
Qed.

(** Both sockets of a queue are opened by the rules, and the rings are new. *)
Lemma busy_poll_wps st c fd sk (Q : unit -> _ -> Prop) :
  st !! fd = Some sk -> Q tt st -> wps st (busy_poll k c fd) Q.
Proof. intros Hs HQ. unfold busy_poll. destruct (c_enabled c); [by eapply set_busy_poll_wps|by apply wps_ret]. Qed.

Lemma open_queue_wps st c if_index queue_id base u :
  fds_ok k ->
  wps st (open_queue k c if_index queue_id base u) (fun '(socket, (tx, fr, rx, cr)) st' =>
    0 <= socket < 2 ^ 31 /\ st' !! socket = Some (mkSock true [Complete; Rx; Fill; Tx] true)
    /\ tx = ring_new Tx (mkShared 0 0 0) (c_ring_size c) (k_descs k socket Tx)
    /\ fr = ring_new Fill (mkShared 0 0 0) (c_ring_size c) (k_addrs k socket Fill)
    /\ rx = ring_new Rx (mkShared 0 0 0) (c_ring_size c) (k_descs k socket Rx)).
Proof.
  intros Hfd. unfold open_queue. apply wps_bind, socket_new_wps; [done|]. intros fd Hr Hnew.
  eapply wps_bind, busy_poll_wps; [apply lookup_insert_eq|].
  eapply wps_bind, umem_bind_wps; [apply lookup_insert_eq|]. rewrite insert_insert_eq.
  apply wps_bind. unfold rings. apply wps_bind. eapply get_opt_wps; [apply lookup_insert_eq|]. intros offs. apply wps_ret.
  do 4 (eapply wps_bind, alloc_ring_wps; [apply lookup_insert_eq|set_solver|]; cbn [ra_socket]; rewrite insert_insert_eq).
  eapply wps_bind, bind_own_wps; [apply lookup_insert_eq|set_solver..|]. rewrite insert_insert_eq.
  apply wps_bind. unfold socks_set. apply wps_bind, wps_invoke; [done|]. intros r. simpl. rewrite lookup_insert_eq. simpl.
  eexists. split; [done|]. intros _. do 2 apply wps_ret. split_and!; try done; [lia..|by rewrite lookup_insert_eq].
Qed.

Lemma open_shared_wps st c if_index queue_id socket l :
  fds_ok k -> 0 <= socket < 2 ^ 31 -> st !! socket = Some (mkSock true l true) ->
  wps st (open_shared k c if_index queue_id socket) (fun tx st' =>
    st' !! socket = Some (mkSock true l true)
    /\ exists fd, tx = ring_new Tx (mkShared 0 0 0) (c_ring_size c) (k_descs k fd Tx)).
Proof.
  intros Hfd Hr Hs. unfold open_shared. apply wps_bind, socket_new_wps; [done|]. intros fd Hr' Hnew.
  assert (Hne : fd <> socket) by congruence.
  eapply wps_bind, busy_poll_wps; [apply lookup_insert_eq|].
  apply wps_bind. unfold rings. apply wps_bind. eapply get_opt_wps; [apply lookup_insert_eq|]. intros offs. apply wps_ret.
  eapply wps_bind, alloc_ring_wps; [apply lookup_insert_eq|set_solver|]. cbn [ra_socket]. rewrite insert_insert_eq.
  eapply wps_bind, bind_shared_wps; [apply lookup_insert_eq|set_solver|done|by rewrite lookup_insert_ne|].
  rewrite insert_insert_eq. apply wps_ret. split; [by rewrite lookup_insert_ne|by eexists].
Qed.

(** The map of sockets has the first socket of every queue that was opened. *)
Definition in_socks (h : list entry) (queue_id : Z) : bool :=
  existsb (fun e => match e with (SysMapSet q _, r) => (q =? queue_id) && (0 <=? r) | _ => false end) h.

Lemma in_socks_prefix h h' q : h `prefix_of` h' -> in_socks h q = true -> in_socks h' q = true.
Proof. intros [more ->] Hq. unfold in_socks. rewrite existsb_app. by apply orb_true_intro; left. Qed.

Lemma open_queue_socks c if_index queue_id base u h x h' :
  open_queue k c if_index queue_id base u h = (Ok x, h') -> in_socks h' queue_id = true.
Proof.
  unfold open_queue. do 9 (intros (? & ? & _ & E)%sys_bind_ok; revert E).
  intros (? & h1 & E & E')%sys_bind_ok. injection E' as <- <-. unfold socks_set in E.
  apply sys_bind_ok in E as (r & h2 & E & E'). injection E' as <- <-. unfold invoke, negative in E.
  case_cmp_step; simplify_eq.
  unfold in_socks. rewrite existsb_app. apply orb_true_intro. right. simpl.
  rewrite Z.eqb_refl, (proj2 (Z.leb_le _ _)) by lia. done.
Qed.

Lemma opening_grows c if_index queue_id :
  (forall base u, grows (open_queue k c if_index queue_id base u))
  /\ forall socket, grows (open_shared k c if_index queue_id socket).
Proof.
  assert (Hb : forall fd, grows (busy_poll k (c_busy_polling c) fd)).
  { intros fd. unfold busy_poll, set_busy_poll, set_opt. destruct (c_enabled _); auto 10 with grows. }
  assert (Hr : forall T ra kind (area : list T), grows (alloc_ring k ra kind (c_ring_size c) area)).
  { intros. unfold alloc_ring, set_opt. auto 10 with grows. }
  split; intros; unfold open_queue, open_shared, umem_bind, set_umem_reg, set_opt, rings, bind, socks_set, socket_new,
    alloc_tx, alloc_fr, alloc_rx, alloc_cr;
    repeat (apply grows_bind; [by auto 10 with grows|intros ?]); auto with grows.
Qed.

Lemma setup_queue_socks c if_index l queue_id base u h p h' :
  setup_queue k c if_index l queue_id base u h = Ret (Ok p, h') -> h `prefix_of` h' /\ in_socks h' queue_id = true.
Proof.
  destruct (opening_grows c if_index queue_id) as [Hg1 Hg2]. unfold setup_queue. specialize (Hg1 base u h).
  destruct (open_queue _ _ _ _ _ _ h) as [[[socket [[[tx fr] rx] cr]]|e] h1] eqn:E1; [|done].
  apply open_queue_socks in E1. destruct (sender_new _ _ _ _ _ _ _ _) as [[s u1]|]; [|done]. cbn [mbind outcome_bind].
  specialize (Hg2 socket h1). destruct (open_shared _ _ _ _ _ h1) as [[tx2|e] h2]; [|done].
  destruct (receiver_new _ _ _ _ _ _ _ _) as [[rcv|e]|]; [|done..]. cbn [mbind outcome_bind].
  pose proof (grows_kick k (SysRecvfrom socket) h2) as Hg3. fold (recvfrom k socket) in Hg3.
  destruct (recvfrom k socket h2) as [[a|e] h3]; [|done].
  destruct (sender_new _ _ _ _ _ _ _ _) as [[s2 u2]|]; [|done]. intros [= _ <-]. simpl in *.
  split; [by do 2 (etrans; [done|])|]. eapply in_socks_prefix; [|exact E1]. by etrans.
Qed.

Lemma setup_queues_socks c if_index l umems : forall queue_id h ps h',
  0 <= queue_id -> queue_id + zlen umems <= 2 ^ 32 ->
  setup_queues k c if_index l queue_id umems h = Ret (Ok ps, h') ->
  h `prefix_of` h' /\ forall q, queue_id <= q < queue_id + zlen umems -> in_socks h' q = true.
Proof.
  induction umems as [|[base u] umems IH]; intros queue_id h ps h' Hq Hb; simpl in *.
  { intros [= <- <-]. split; [done|lia]. }
  destruct (setup_queue _ _ _ _ _ _ _ h) as [[[p|e] h1]|] eqn:E1; [|done..]. cbn [mbind outcome_bind].
  destruct (setup_queue_socks _ _ _ _ _ _ _ _ _ E1) as [Hg1 Hs1].
  destruct (setup_queues _ _ _ _ _ umems h1) as [[[ps'|e] h2]|] eqn:E2; [|done..]. intros [= _ <-].
  destruct umems as [|x umems].
  { simpl in E2. injection E2 as _ <-. split; [done|]. intros q Hq'. simpl in Hq'. assert (q = queue_id) as -> by lia. done. }
  unfold u32_of in E2. rewrite wrap_small in E2 by (unfold in_width; simpl in Hb; lia).
  destruct (IH (queue_id + 1) h1 ps' h2) as [Hg2 Hs2]; [lia|cbn [length] in *; lia|done|].
  split; [by etrans|]. intros q Hq'.
  destruct (decide (q = queue_id)) as [->|]; [by eapply in_socks_prefix|]. apply Hs2.
  cbn [length] in *. lia.
Qed.

(** A transmit ring as the kernel maps it. *)
Lemma fresh_tx rs (area : list Descriptor) :
  zlen area = rs -> 0 < rs < 2 ^ 32 ->
  let r := ring_new Tx (mkShared 0 0 0) rs area in
  zlen (ring r) = Ring.size r /\ 0 < Ring.size r /\ cached_prod r = 0 /\ Ring.size r = rs.
Proof. intros Hl Hr r. unfold r, ring_new. simpl. lia. Qed.

(** The memory of a queue holds three frames per ring entry. *)
Lemma queue_umem_ok rs p :
  0 < rs -> 3 * rs * 2048 < 2 ^ 32 -> 0 <= p < 63 ->
  frame_size (queue_umem rs (2 ^ p)) = 2048 /\ 3 * rs * 2048 <= zlen (area (queue_umem rs (2 ^ p))).
Proof.
  intros Hr Hb Hp. unfold queue_umem, umem_new. cbn [frame_size area]. split; [done|].
  rewrite length_replicate. unfold umem_size, u32_of. rewrite (wrap_small 32 (3 * rs)) by (unfold in_width; lia).
  rewrite Z.min_l by lia. destruct (align_to_bounds (2048 * (3 * rs)) p) as [[Hle _] _]; lia.
Qed.

(** Frames with different numbers do not meet. *)
Lemma apart_frames (n : net) lo hi a m :
  (forall d, d ∈ ring (tx (sender n)) -> exists i, lo <= i < hi /\ d_addr d = i * 2048 + TxMetadata_LEN) ->
  frame_size (umem n) = 2048 -> 0 <= m -> (a + m <= lo * 2048 \/ hi * 2048 <= a) -> apart n a m.
Proof.
  intros Hf Hfs Hm Ha. unfold apart. rewrite Hfs. apply Forall_fmap, Forall_forall.
  intros d Hd. destruct (Hf d Hd) as (i & Hi & E). simpl. rewrite E. unfold TxMetadata_LEN. lia.
Qed.

End lemmas.

(** ** Theorem *)

Section theorem.
Context {A I R Output : Type} `{KernelConsts} `{UnalignedConsts} `{LibcLaws}.
Context `{PortAdapter A R, !PortAdapterLaws A R} `{IpAdapter I} `{Payload} `{Parser Output} `{Hash64 Output}.
Context (l : link) (Hl : link_ok l).

(** A buffer of the receiver: inside the memory and in no frame of a sender. *)
Definition buffer_ok (p : parts) (addr : Z) : Prop :=
  0 <= addr /\ addr + 2048 <= zlen (area (p_umem p))
  /\ forall s c e, s = p_sender p \/ s = p_responder p -> apart (mkNet s (p_umem p) c e) addr 2048.

(** What the parts of a queue with rings of [rs] entries are good for. *)
Definition queue_ready (rs : Z) (p : parts) : Prop :=
  (forall j, 0 <= j < rs ->
     ring (fr (p_receiver p)) !! Z.to_nat j = Some ((rs + j) * 2048) /\ buffer_ok p ((rs + j) * 2048))
  /\ (forall comp e (a : A) (i : I) (r : R) sd segments bytes time ts ls, port_inv a ->
        sat_ok (Output := Output) l 2048 (saturator_new p rs comp e a i r sd segments bytes time ts ls)).

(** The two senders on the final memory. *)
Lemma setup_senders offload rs pages (a1 a2 : list Descriptor) c e :
  0 < rs -> 3 * rs * 2048 < 2 ^ 32 -> 0 <= pages < 63 -> zlen a1 = rs -> zlen a2 = rs ->
  let u := queue_umem rs (2 ^ pages) in
  exists s u1 s2 u2,
    sender_new (gateway l) (interface l) (source_ip l) offload u (ring_new Tx (mkShared 0 0 0) rs a1) 0 0
      = Ret (s, u1)
    /\ sender_new (gateway l) (interface l) (source_ip l) offload u1 (ring_new Tx (mkShared 0 0 0) rs a2) 0
         (u32_of (2 * rs)) = Ret (s2, u2)
    /\ frame_size u1 = 2048 /\ 3 * rs * 2048 <= zlen (area u2)
    /\ ready l 2048 (mkNet s u2 c e) /\ ready l 2048 (mkNet s2 u2 c e)
    /\ (forall d, d ∈ ring (tx s) -> exists i, 0 <= i < rs /\ d_addr d = i * 2048 + TxMetadata_LEN)
    /\ forall d, d ∈ ring (tx s2) -> exists i, 2 * rs <= i < 3 * rs /\ d_addr d = i * 2048 + TxMetadata_LEN.
Proof.
  intros Hr Hb Hp Hk1 Hk2 u. destruct (queue_umem_ok rs pages Hr Hb Hp) as [Hfs Hlen]. fold u in Hfs, Hlen.
  unfold u32_of. rewrite (wrap_small 32 (2 * rs)) by (unfold in_width; lia).
  destruct (fresh_tx rs a1 Hk1 ltac:(lia)) as (T1 & T2 & T3 & T4).
  destruct (fresh_tx rs a2 Hk2 ltac:(lia)) as (S1 & S2 & S3 & S4).
  set (r1 := ring_new Tx _ rs a1) in *. set (r2 := ring_new Tx _ rs a2) in *.
  assert (Hmeta : 62 + TxMetadata_LEN <= 2048) by (vm_compute; congruence).
  destruct (sender_new_ok l Hl offload u r1 0 0 c e) as (s & u1 & E1 & Hn1 & _ & _ & _ & Hs1 & Hf1);
    rewrite ?T4, ?Hfs; try done; try lia.
  pose proof Hs1 as (Hfs1 & Hlen1 & _). rewrite Hfs in Hfs1.
  destruct (sender_new_ok l Hl offload u1 r2 0 (2 * rs) c e) as (s2 & u2 & E2 & Hn2 & _ & _ & _ & Hs2 & Hf2);
    rewrite ?S4, ?Hfs1; try done; try lia.
  destruct Hs2 as (Hfs2 & Hlen2 & Hsame). rewrite T4, Hfs in Hf1. rewrite S4, Hfs1 in Hf2.
  assert (Hf1' : forall d, d ∈ ring (tx s) -> exists i, 0 <= i < rs /\ d_addr d = i * 2048 + TxMetadata_LEN) by done.
  exists s, u1, s2, u2. split_and!; try done; try lia.
  - apply (ready_memory l 2048 (mkNet s u1 c e)); [by split|congruence|done|].
    intros x (d & -> & Hd)%list_elem_of_fmap. destruct (Hf1' d Hd) as (i & Hi & ->).
    apply Hsame; unfold TxMetadata_LEN; rewrite ?Hfs1; lia.
  - split; [done|]. simpl. congruence.
  - intros d Hd. destruct (Hf2 d Hd) as (i & Hi & Ha). exists i. split; [lia|done].
Qed.

(** The outcome of the start-up of a queue; [setup_safe] states it of all queues. *)
Lemma setup_ok (k : kernel) (c : XdpConfig) (if_index queue_id base pages : Z) (h : list entry) (st : gmap Z sock) :
  let rs := c_ring_size c in
  fds_ok k -> 0 < rs -> (rs | 2 ^ 32) -> 3 * rs * 2048 < 2 ^ 32 -> 0 <= pages < 63 -> 0 <= c_rx (c_batches c) <= rs ->
  (forall fd kind, zlen (k_descs k fd kind) = rs /\ zlen (k_addrs k fd kind) = rs) -> rules h = Some st ->
  match setup_queue k c if_index l queue_id base (queue_umem rs (2 ^ pages)) h with
  | Ret (Ok p, h') =>
      (exists st', rules h' = Some st')
      /\ queue_ready rs p
  | Ret (Err _, h') => (exists st', rules h' = Some st') /\ Exists (fun e => failed e = true) h'
  | Fault _ => False
  end.
Proof.
  intros rs Hfd Hr Hpow Hb Hp Hbatch Hk Hh. unfold setup_queue.
  pose proof (open_queue_wps k st c if_index queue_id base (queue_umem rs (2 ^ pages)) Hfd h Hh) as Ho.
  destruct (open_queue _ _ _ _ _ _ h) as [[[socket [[[tx fr] rx] cr]]|e] h1];
    [|destruct Ho as (st1 & ? & ?); split; [by exists st1|done]].
  destruct Ho as (st1 & Hh1 & Hsr & Hs1 & -> & -> & ->). fold rs.
  pose proof (open_shared_wps k st1 c if_index queue_id socket _ Hfd Hsr Hs1 h1 Hh1) as Hsh.
  set (c0 := completer_new (mkRing 0 0 0 []) (mkShared 0 0 0) (f64_of_Z 0) 0 0).
  destruct (open_shared _ _ _ _ _ h1) as [[tx2|e] h2].
  2:{ destruct (setup_senders (c_checksum_offload c) rs pages (k_descs k socket Tx) (k_descs k socket Tx) c0 [] Hr Hb Hp
        (proj1 (Hk _ _)) (proj1 (Hk _ _))) as (s & u1 & _ & _ & -> & _). cbn [mbind outcome_bind].
      destruct Hsh as (st2 & ? & ?). split; [by exists st2|done]. }
  destruct Hsh as (st2 & Hh2 & Hs2 & fd2 & ->). fold rs.
  destruct (setup_senders (c_checksum_offload c) rs pages (k_descs k socket Tx) (k_descs k fd2 Tx) c0 [] Hr Hb Hp
    (proj1 (Hk _ _)) (proj1 (Hk _ _)))
    as (s & u1 & s2 & u2 & -> & E2 & Hfs1 & Hlen & Hn1 & Hn2 & Hf1 & Hf2). cbn [mbind outcome_bind].
  destruct (receiver_new_ok u1 rs (k_addrs k socket Fill) (k_descs k socket Rx) rs (c_rx (c_batches c))
    fresh_look) as (rcv & -> & Hrcv & Hrx & Hfr & _ & Hfill); rewrite ?Hfs1; try done; try lia; [by apply Hk|].
  cbn [mbind outcome_bind k_recvfrom fresh_look].
  pose proof (kick_wps k st2 (SysRecvfrom socket) socket true _ (fun _ st' => st' = st2) Hs2 ltac:(by right) eq_refl
    h2 Hh2) as Hkick. fold (recvfrom k socket) in Hkick.
  destruct (recvfrom k socket h2) as [[[]|e] h3]; destruct Hkick as (st3 & Hh3 & Hk3); [|split; [by exists st3|done]].
  rewrite E2.
  cbn [mbind outcome_bind p_receiver]. split; [by exists st3|]. split.
  - intros j Hj. rewrite Hfill, Hfs1 by lia. split; [done|]. unfold buffer_ok. cbn [p_umem p_sender p_responder].
    split_and!; [lia|lia|]. intros s' comp e [-> | ->].
    + apply (apart_frames _ 0 rs); [done|apply Hn1|lia|lia].
    + apply (apart_frames _ (2 * rs) (3 * rs)); [done|apply Hn2|lia|lia].
  - intros comp e a i r sd segments bytes time ts ls Ha.
    pose proof (ready_memory l 2048 _ u2 comp e Hn1 (proj2 Hn1) eq_refl ltac:(done)) as Hn1'.
    pose proof (ready_memory l 2048 _ u2 comp e Hn2 (proj2 Hn2) eq_refl ltac:(done)) as Hn2'.
    constructor; simpl; try done.
    + apply Forall_fmap, Forall_forall. intros d Hd. destruct (Hf2 d Hd) as (ix & Hix & E). simpl. rewrite E.
      unfold TxMetadata_LEN. split; [lia|]. apply (apart_frames _ 0 rs); [done|apply Hn1|lia|lia].
    + apply Forall_fmap, Forall_forall. intros d Hd. destruct (Hf1 d Hd) as (ix & Hix & E). simpl. rewrite E.
      unfold TxMetadata_LEN. split; [lia|]. apply (apart_frames _ (2 * rs) (3 * rs)); [done|apply Hn2|lia|lia].
    + unfold scanner_new. simpl. lia.
Qed.

(** The start-up of all queues. *)
Lemma setup_queues_ok (k : kernel) (c : XdpConfig) (if_index pages : Z) (bases : list Z) :
  let rs := c_ring_size c in
  fds_ok k -> 0 < rs -> (rs | 2 ^ 32) -> 3 * rs * 2048 < 2 ^ 32 -> 0 <= pages < 63 -> 0 <= c_rx (c_batches c) <= rs ->
  (forall fd kind, zlen (k_descs k fd kind) = rs /\ zlen (k_addrs k fd kind) = rs) ->
  forall h st queue_id, rules h = Some st ->
  match setup_queues k c if_index l queue_id ((fun base => (base, queue_umem rs (2 ^ pages))) <$> bases) h with
  | Ret (Ok ps, h') => (exists st', rules h' = Some st') /\ length ps = length bases /\ Forall (queue_ready rs) ps
  | Ret (Err _, h') => (exists st', rules h' = Some st') /\ Exists (fun e => failed e = true) h'
  | Fault _ => False
  end.
Proof.
  intros rs Hfd Hr Hpow Hb Hp Hbatch Hk. induction bases as [|base bases IH]; intros h st queue_id Hh.
  { simpl. split; [by exists st|done]. }
  cbn [setup_queues fmap list_fmap].
  pose proof (setup_ok k c if_index queue_id base pages h st Hfd Hr Hpow Hb Hp Hbatch Hk Hh) as Hs. fold rs in Hs.
  destruct (setup_queue _ _ _ _ _ _ _ h) as [[[p|e] h1]|f]; [|done..]. cbn [mbind outcome_bind].
  destruct Hs as ((st1 & Hh1) & Hp1). specialize (IH h1 st1 (u32_of (queue_id + 1)) Hh1).
  destruct (setup_queues _ _ _ _ _ _ h1) as [[[ps|e] h2]|f]; [|done..]. cbn [mbind outcome_bind result_bind].
  destruct IH as (Hst & Hlen & Hall). split; [done|]. split; [simpl; congruence|]. by constructor.
Qed.

(** C7: the start-up.  The calls to the kernel obey the rules for sockets that
    share memory, whatever each of them returns.  Unless one of them fails, the
    memory of every queue is shared out so that the scanner's sender, the
    responder's sender and the receiver never meet: each sender has a prepared
    frame per descriptor, the fill ring is handed one whole buffer per entry,
    all of them inside the mapping and none overlapping a frame of a sender,
    and the saturator built from the parts is in the state its turns need and
    keep.  A failed call is an error, and nothing faults. *)
Theorem setup_safe (k : kernel) (c : XdpConfig) (if_index pages : Z) (bases : list Z) :
  let rs := c_ring_size c in
  fds_ok k -> 0 < rs -> (rs | 2 ^ 32) -> 3 * rs * 2048 < 2 ^ 32 -> 0 <= pages < 63 -> 0 <= c_rx (c_batches c) <= rs ->
  (forall fd kind, zlen (k_descs k fd kind) = rs /\ zlen (k_addrs k fd kind) = rs) ->
  match setup_queues k c if_index l 0 ((fun base => (base, queue_umem rs (2 ^ pages))) <$> bases) [] with
  | Ret (Ok ps, h') => (exists st', rules h' = Some st') /\ length ps = length bases /\ Forall (queue_ready rs) ps
  | Ret (Err _, h') => (exists st', rules h' = Some st') /\ Exists (fun e => failed e = true) h'
  | Fault _ => False
  end.
Proof. intros rs Hfd Hr Hpow Hb Hp Hbatch Hk. by eapply setup_queues_ok. Qed.

End theorem.

(** ** Witnesses *)

Section witnesses.
Local Existing Instances quiet_ports quiet_laws no_ips three_bytes four_bytes no_hash ex_unaligned demo_consts.

(** The values of the constants, a kernel that agrees to everything and hands
    out descriptors one after the other, and rings of two entries; one frame
    will have arrived in the first buffer. *)
Local Instance linux : LibcConsts := {|
  AF_XDP := 44; SOCK_RAW_CLOEXEC := 524291; SOL_XDP := 283; SOL_SOCKET := 1; PF_XDP := 44; MAP_FAILED := -1;
  XDP_MMAP_OFFSETS := 1; XDP_STATISTICS := 7; XDP_UMEM_REG := 4;
  XDP_RX_RING := 2; XDP_TX_RING := 3; XDP_UMEM_FILL_RING := 5; XDP_UMEM_COMPLETION_RING := 6;
  XDP_PGOFF_RX_RING := 0; XDP_PGOFF_TX_RING := 2147483648;
  XDP_UMEM_PGOFF_FILL_RING := 4294967296; XDP_UMEM_PGOFF_COMPLETION_RING := 6442450944;
  SO_PREFER_BUSY_POLL := 69; SO_BUSY_POLL := 46; SO_BUSY_POLL_BUDGET := 70;
  XDP_USE_NEED_WAKEUP := 8; XDP_ZEROCOPY := 4; XDP_COPY := 2; XDP_SHARED_UMEM := 1; XDP_USE_SG := 16;
  XDP_UMEM_TX_METADATA_LEN := 4; EAGAIN := 11; EBUSY := 16; ENOBUFS := 105; ENETDOWN := 100 |}.

Local Instance linux_laws : LibcLaws.
Proof.
  constructor; try (simpl; lia).
  - by intros [].
  - by intros [] [].
  - by intros [] [].
  - by intros [].
Qed.

Definition demo_look : rlook := mkLook [mkDesc 4096 54 0; mkDesc 0 0 0] 1 1 0 true.

(** The first descriptor above those in use. *)
Definition next_fd (h : list entry) : Z :=
  foldl (fun m e => match e with (SysSocket _ _ _, r) => Z.max m (r + 1) | _ => m end) 3 h.

Definition demo_kernel : kernel :=
  mkKernel (fun h c => match c with SysSocket _ _ _ => if next_fd h <? 2 ^ 31 then next_fd h else -1 | _ => 0 end)
    (fun _ _ => 0) (fun _ => let o := mkOffset 0 64 192 128 in mkOffsets o o o o) (fun _ => mkStatistics 0 0 0 0 0 0)
    (fun _ _ => replicate 2 (mkDesc 0 0 0)) (fun _ _ => replicate 2 0).

(** A call adds at most the socket it opens. *)
Lemma obey_dom st e st' fd :
  obey st e = Some st' -> fd ∈ dom st' -> fd ∈ dom st \/ exists a b c, e = (SysSocket a b c, fd).
Proof.
  destruct e as [c r]. unfold obey. intros Ho Hd. destruct c.
  { destruct (r <? 0); simplify_eq; [by left|].
    apply dom_insert, elem_of_union in Hd as [->%elem_of_singleton|Hd]; [right; by eauto|by left]. }
  all: left; repeat (case_match || simplify_option_eq); try done.
  all: rewrite dom_insert_lookup_L in Hd by (by eexists); done.
Qed.

Lemma fds_below h : forall st, rules h = Some st -> forall fd, fd ∈ dom st -> fd < next_fd h.
Proof.
  induction h as [|e h IH] using rev_ind; intros st Hr fd Hd; [injection Hr as <-; set_solver|].
  rewrite rules_snoc in Hr. destruct (rules h) as [st0|] eqn:E; [|done]. unfold next_fd. rewrite foldl_app. simpl.
  fold (next_fd h). destruct (obey_dom _ _ _ fd Hr Hd) as [Hd0|(a & b & c & ->)]; [|lia].
  pose proof (IH st0 eq_refl fd Hd0). destruct e as [[] ?]; lia.
Qed.

Lemma demo_fds : fds_ok demo_kernel.
Proof.
  intros h st a b c Hh. unfold demo_kernel. cbn [k_ret]. pose proof (fds_below h st Hh) as Hb.
  destruct (Z.ltb_spec (next_fd h) (2 ^ 31)); split; try lia. intros _. apply not_elem_of_dom.
  intros Hd%Hb. lia.
Qed.

Definition demo_xdp : XdpConfig := mkXdpConfig Copy Skb false false 2 (mkBusyPollingConfig true 20 64) (mkBatchesConfig 2 2).

Definition demo_setup : outcome (result unit parts) :=
  '(r, _) ← setup_queue demo_kernel demo_xdp 3 demo_link 0 65536 (queue_umem 2 (2 ^ 12)) [];
  Ret r.

Definition demo_completer : Completer :=
  completer_new (mkRing 0 0 2 [0; 0]) (mkShared 0 0 0) (f64_of_Z 1000) 0 2.

Definition demo_saturator (p : parts) : @saturator unit unit unit (list Z) :=
  saturator_new p 2 demo_completer (replicate 8 demo_turn) tt tt tt 7 4 100 1000 [10; 20] [demo_look; demo_look].

(** In a turn, the kernel writes a frame to the first receive buffer. *)
Definition arrive (frame : list Z) (u : Umem) : Umem :=
  match store u 4096 frame with Ret u' => u' | Fault _ => u end.

Definition demo_parts (p : parts) : Prop :=
  p_receiver p = mkReceiver (mkRing 2 2 2 [4096; 6144]) 2 (mkRing 0 0 2 (replicate 2 (mkDesc 0 0 0))) 0 2
  /\ frames (p_sender p) = [24; 2072] /\ frames (p_responder p) = [8216; 10264]
  /\ zlen (area (p_umem p)) = 12288.

Lemma demo_setup_parts : exists p, demo_setup = Ret (Ok p) /\ demo_parts p.
Proof.
  destruct demo_setup as [[p|e]|f] eqn:E; [|vm_compute in E; discriminate..].
  exists p. split; [done|].
  assert (Hp : match demo_setup with Ret (Ok p) => demo_parts p | _ => False end).
  { vm_compute. by split_and!. }
  by rewrite E in Hp.
Qed.

Lemma ex_fits_2048 : forall (ip : Ipv4Addr) port p, build ip port = Ok p ->
  zlen p <= 65000 /\ 62 + TxMetadata_LEN + zlen p <= 2048.
Proof. intros ip port p [= <-]. vm_compute. split; discriminate. Qed.

(** A saturator of these parts, to which one frame is delivered. *)
Lemma arrive_kernel {A I R Output} p frame o (self : @saturator A I R Output) ts :
  demo_parts p -> o_memory o = arrive frame -> zlen frame = 54 -> delivered ex_globals frame ->
  sc_sender (sat_scanner self) = p_sender p -> sender (r_net (sat_responder self)) = p_responder p ->
  umem (r_net (sat_responder self)) = p_umem p -> receiver (sat_responder self) = p_receiver p ->
  looks (sat_responder self) = demo_look :: ts -> kernel_ok 2048 ex_globals o self.
Proof.
  intros (Hrcv & Hf1 & Hf2 & Hlen) Ho H54 Hdel Es1 Es2 Eu Er Elk u c e Hfs Hu. rewrite Eu in Hu.
  assert (Hu' : zlen (area u) = 12288) by (rewrite Hu; exact Hlen).
  destruct (store_ok u 4096 frame) as (u' & E & E1 & E2 & E3 & E4); [lia|lia|].
  assert (Hw : o_memory o u = u') by (rewrite Ho; unfold arrive; by rewrite E).
  rewrite Hw. split_and!; [congruence|done| |].
  - intros x Hx. rewrite Es1, Es2, Hf1, Hf2 in Hx. apply E3; (set_unfold; lia).
  - intros t ts' Ht. cbn in Ht. rewrite Elk in Ht. injection Ht as <- <-.
    split; [simpl; by rewrite Er, Hrcv|]. intros gd rcv Hr. simpl in Hr. rewrite Er, Hrcv in Hr. vm_compute in Hr. simplify_eq.
    change (batch_descs _ _) with [mkDesc 4096 54 0]. constructor; [|constructor].
    assert (Es : slice_of (mkDesc 4096 54 0) = (4096, 54)) by reflexivity.
    split_and!; rewrite ?Es; simpl; [lia|lia| |].
    + unfold apart. simpl. rewrite Es2. fold (frames (p_responder p)). rewrite Hf2. repeat constructor; lia.
    + exists frame. rewrite <- H54. by split.
Qed.

Lemma demo_areas fd kind :
  zlen (k_descs demo_kernel fd kind) = c_ring_size demo_xdp /\ zlen (k_addrs demo_kernel fd kind) = c_ring_size demo_xdp.
Proof. done. Qed.

(** Two queues. *)
Abbreviation demo_queues :=
  (setup_queues demo_kernel demo_xdp 3 demo_link 0
     ((fun base => (base, queue_umem (c_ring_size demo_xdp) (2 ^ 12))) <$> [65536; 131072]) []).

Lemma setup_safe_witness :
  exists ps h st, demo_queues = Ret (Ok ps, h) /\ rules h = Some st /\ length ps = 2%nat
    /\ Forall (fun p => sat_ok demo_link 2048 (demo_saturator p) /\ buffer_ok p 4096) ps.
Proof.
  pose proof (setup_safe (A := unit) (I := unit) (R := unit) (Output := list Z) demo_link demo_link_ok
    demo_kernel demo_xdp 3 12 [65536; 131072] demo_fds) as Hs. cbv zeta in Hs.
  assert (Hok : match demo_queues with Ret (Ok _, _) => true | _ => false end = true) by (vm_compute; reflexivity).
  destruct demo_queues as [[[ps|e] h]|f]; [|discriminate..].
  destruct Hs as ((st & Hst) & Hl & Hall); [simpl; lia|by exists (2 ^ 31)|simpl; lia|lia|simpl; lia|exact demo_areas|].
  exists ps, h, st. split; [reflexivity|]. split; [exact Hst|]. split; [exact Hl|].
  eapply Forall_impl; [exact Hall|]. intros p [Hb Hsat]. split; [exact (Hsat _ _ _ _ _ _ _ _ _ _ _ I)|].
  exact (proj2 (Hb 0 ltac:(simpl; lia))).
Defined.

End witnesses.
