(* ===== verification/Run.v ===== *)
(** * A running session: [Session::start] of [controller/session.rs]

    The feeder, the saturators and the housekeeping thread run side by side.
    They share the two strategies, the queues of probes and of deadlines, the
    queue of answers and the flag that ends the session.  Here their turns are
    interleaved in any order; what the threads do to each other within one turn
    of the feeder is in [Feeder], and within one of a saturator in
    [Interleave]. *)

From S2P Require Import Prelude Float Rand Ranges Text Config Tcp Ring Umem Link Native Socket.
From S2P Require Import Prefix IpPmap Tcp Ring Umem Completer Sender Receiver Minecraft Xdp.
From S2P Require Import PortGraph Database Session Config Deque PortPmap Feeder Responder Handshake Saturator Setup.

(** ** The strategies as the responders use them *)

Section instances.
Context {Q : Type -> Type} `{ArrayQueue Q} `{HashIter} `{Rng R} (fuel capacity : nat).

Definition pmap_ports : PortAdapter (PmapPortAdapter Q) R := {| port_on_result := PortPmap.on_result fuel |}.
Definition pmap_ips : IpAdapter PmapIpAdapter := {| ip_on_result := IpPmap.on_result |}.

(** The pool of port states keeps what the responders rely on. *)
Local Existing Instance pmap_ports.
Program Definition pmap_laws : PortAdapterLaws (PmapPortAdapter Q) R :=
  {| port_inv := pool_wf capacity 0; port_le := starts_none |}.
Next Obligation.
  intros a ip port hash r Ha. simpl.
  pose proof (on_result_cases capacity 0 fuel a ip port hash r Ha) as Hc.
  destruct (PortPmap.on_result fuel a ip port hash r) as [[[t a'] r']|f]; [|done].
  destruct Hc as (Hw & _ & Hs). split; [done|by eapply on_result_starts_none].
Qed.

End instances.

(** ** The state

    The expirer works on the port strategy, which is shared: its part of a turn
    of the housekeeping thread is in [housekeep], and the writer has none. *)

Section running.
Context {Q : Type -> Type} `{ArrayQueue Q} `{PerfectRng} `{HashIter} `{Rng R}.
Context {Db Output : Type} `{Clickhouse Db (Scanling Output)}.
Context `{KernelConsts} `{UnalignedConsts} `{Payload} `{Parser Output} `{Hash64 Output}.
Context (fuel : nat).
#[local] Instance run_ports : PortAdapter (PmapPortAdapter Q) R := pmap_ports fuel.
#[local] Existing Instance pmap_ips.

Abbreviation Saturator := (@saturator (PmapPortAdapter Q) PmapIpAdapter R Output).
Abbreviation Writer := (@writer Db (Scanling Output) unit).

(** A saturator's thread, and whether it has ended. *)
Record thread : Type := mkThread { th_saturator : Saturator; th_over : bool }.

(** [run_sent] is all that was sent to the housekeeping thread, of which the
    first [run_received] have been received; [run_writer] is [inr] when that
    thread has ended. *)
Record running : Type := mkRunning {
  run_feeder : Feeder R;
  run_strategies : strategies Q;
  run_queues : queues;
  run_pending : option PortPmap.Expiry;
  run_timeout_batch : nat;
  run_threads : list thread;
  run_sent : list (Scanling Output);
  run_received : nat;
  run_writer : Writer + Writer;
  run_done : bool }.

(** ** The threads *)

(** One turn of [loop { if feeder.tick() { break; } }], and the store to
    [done] behind it. *)
Definition feed (now : Z) (w : running) : outcome running :=
  if run_done w then Ret w
  else
    '(over, f, s, q) ← feeder_tick (replicate (f_batch_size (run_feeder w)) id) now (run_feeder w)
                          (run_strategies w) (run_queues w);
    Ret (mkRunning f s q (run_pending w) (run_timeout_batch w) (run_threads w) (run_sent w) (run_received w)
           (run_writer w) over).

(** The responder of a saturator works on the shared strategies. *)
Definition plug (s : strategies Q) (self : Saturator) : Saturator :=
  mkSaturator (sat_scanner self)
    (set_hit (ips s) (set_port (ports s) (rng (sat_responder self)) (sat_responder self)))
    (sat_queue self) (sat_steps self).

Definition unplug (self : Saturator) : strategies Q :=
  mkStrategies (port_adapter (sat_responder self)) (ip_adapter (sat_responder self)).

(** A turn of saturator [ix]: [o] is what the outside does, with [done] as it
    is now. *)
Definition saturate (ix : nat) (o : outside) (w : running) : outcome running :=
  match run_threads w !! ix with
  | Some (mkThread self false) =>
      let o := mkOutside (o_memory o) (o_cr o) (o_now o) (run_done w) in
      '(over, self', d) ← saturator_turn o (plug (run_strategies w) self) (results (run_queues w));
      Ret (mkRunning (run_feeder w) (unplug self') (mkQueues d (deadlines (run_queues w))) (run_pending w)
             (run_timeout_batch w) (<[ix := mkThread self' over]> (run_threads w))
             (run_sent w ++ drop (length (sat_queue self)) (sat_queue self')) (run_received w) (run_writer w)
             (run_done w))
  | _ => Ret w
  end.

(** What [select!] may find: the answers next in the queue, nothing, or, once
    all saturators have ended and all answers are received, the end. *)
Definition offers (w : running) (t : wake (Scanling Output)) : Prop :=
  match w_event t with
  | Received row more => (row :: more) `prefix_of` drop (run_received w) (run_sent w)
  | Housekeeping => True
  | Closed => Forall (fun th => th_over th = true) (run_threads w) /\ run_received w = length (run_sent w)
  end.

(** A turn of [spawn_printer_and_database] with the limits [fc] and [fi]. *)
Definition housekeep (fc fi : Z) (t : wake (Scanling Output)) (w : running) : outcome running :=
  match run_writer w with
  | inr _ => Ret w
  | inl self =>
      match wake_up fc fi t self with
      | inr self =>
          Ret (mkRunning (run_feeder w) (run_strategies w) (run_queues w) (run_pending w) (run_timeout_batch w)
                 (run_threads w) (run_sent w) (run_received w) (inr (wind_up self)) (run_done w))
      | inl self =>
          '(exp, a) ← PortPmap.expire (mkExpirer (deadlines (run_queues w)) (run_pending w) (run_timeout_batch w))
                        (ports (run_strategies w)) (w_now t);
          Ret (mkRunning (run_feeder w) (mkStrategies a (ips (run_strategies w)))
                 (mkQueues (results (run_queues w)) (PortPmap.expiries exp)) (PortPmap.pending exp)
                 (run_timeout_batch w) (run_threads w) (run_sent w) (run_received w + length (arrived [t]))
                 (inl self) (run_done w))
      end
  end.

(** ** The interleaving *)

(** The batch that the feeder would push fits both queues, or it would push
    none.  The code does not check this: a batch that does not fit overwrites
    probes that are queued, or is written past the buffer. *)
Definition batch_fits (now : Z) (w : running) : Prop :=
  run_done w = true \/ f_duration (run_feeder w) <= now - f_start (run_feeder w)
  \/ (takes (results (run_queues w)) (Z.of_nat (f_batch_size (run_feeder w)))
      /\ takes (deadlines (run_queues w)) (Z.of_nat (f_batch_size (run_feeder w)))).

(** The feeder takes its turns as the code does, whatever the queues hold. *)
Definition anytime (now : Z) (w : running) : Prop := True.

(** [fs] is the frame size, [g] the globals of the packet filter; [may] says when
    the turns of the feeder that are looked at are taken. *)
Inductive session_step (may : Z -> running -> Prop) (fs : Z) (g : Globals) (fc fi : Z) (w : running)
    : outcome running -> Prop :=
  | step_feed now : may now w -> session_step may fs g fc fi w (feed now w)
  | step_saturate ix o :
      (forall self over, run_threads w !! ix = Some (mkThread self over) -> kernel_ok fs g o self) ->
      session_step may fs g fc fi w (saturate ix o w)
  | step_housekeep t : offers w t -> session_step may fs g fc fi w (housekeep fc fi t w).

Inductive session_reachable (may : Z -> running -> Prop) (fs : Z) (g : Globals) (fc fi : Z) (w0 : running)
    : running -> Prop :=
  | reach_start : session_reachable may fs g fc fi w0 w0
  | reach_step w w' : session_reachable may fs g fc fi w0 w -> session_step may fs g fc fi w (Ret w') ->
      session_reachable may fs g fc fi w0 w'.

(** ** The start *)

(** What a saturator's thread is given: the rings and memory of its queue, the
    cells of its completion ring, and what the kernel and the clock will
    answer. *)
Record seat : Type := mkSeat {
  seat_parts : parts;
  seat_cr : Shared;
  seat_env : list turn;
  seat_clock : list Z;
  seat_looks : list rlook }.

(** [PmapPortAdapter::guard]: a pair of empty queues, whose ends its [batcher]
    and its [expirer] hold; the states and the graph are those of the
    strategy. *)
Record PmapPortGuard : Type := mkPortGuard {
  pg_results : Deque PacketTemplate;
  pg_expiries : Deque PortPmap.Expiry }.

Definition port_guard : PmapPortGuard := mkPortGuard worker_new worker_new.
Definition batcher (self : PmapPortGuard) : queues := mkQueues (pg_results self) (pg_expiries self).
Definition expirer (self : PmapPortGuard) (batch_size : nat) : PmapPortExpirer :=
  mkExpirer (pg_expiries self) None batch_size.

(** [Scanner::new], [Responder::new] and [Completer::new] of one thread. *)
Definition thread_start (c : Config) (timeout rate_sd : Z) (rate : f64) (now : Z) (a : PmapPortAdapter Q)
    (i : PmapIpAdapter) (rng : R) (s : seat) : thread :=
  mkThread
    (saturator_new (seat_parts s) (c_ring_size (c_xdp c))
       (completer_new (p_cr (seat_parts s)) (seat_cr s) rate now (c_completion (c_batches (c_xdp c))))
       (seat_env s) a i rng rate_sd (c_max_reorder_segments (c_tcp c)) (c_max_reorder_bytes (c_tcp c)) timeout
       (seat_clock s) (seat_looks s)) false.

(** [feeder_rng] and [responder_rng] are the generators seeded with a value. *)
Definition session_start (c : Config) (timeout : Z) (feeder_rng responder_rng : Z -> R) (db : Db)
    (seed_ports : list Z) (ranges : CompiledRanges) (sd now : Z) (seats : list seat)
    : outcome (result unit running) :=
  match build_graph db seed_ports (c_catchall_threshold (c_strategy c)) with
  | Err e => Ret (Err e)
  | Ok graph =>
      a ← port_new graph (c_epsilon_port (c_epsilon (c_strategy c))) (c_budget_per_address (c_strategy c))
            (c_max_in_flight (c_strategy c)) (c_source_port (c_controller c));
      match build_prefix_graph db with
      | Err e => Ret (Err e)
      | Ok prefixes =>
          let i := ip_new prefixes (c_epsilon_ip (c_epsilon (c_strategy c))) ranges sd in
          let guard := port_guard in
          let exp := expirer guard (c_timeout_batch (c_strategy c)) in
          let rate := f64_div (c_max_rate (c_controller c)) (f64_of_Z (zlen seats)) in
          Ret (Ok (mkRunning
            (feeder_new (feeder_rng sd) now (c_duration (c_session c)) timeout (c_batch_size (c_session c)))
            (mkStrategies a i) (batcher guard) (PortPmap.pending exp) (exp_batch_size exp)
            (thread_start c timeout sd rate now a i (responder_rng sd) <$> seats) [] 0
            (inl (writer_new db tt now (c_print_every (c_controller c)))) false))
      end
  end.

(** What a thread gives back when it has ended: [into_inner]. *)
Definition into_parts (self : Saturator) : parts :=
  mkParts (sc_sender (sat_scanner self)) (receiver (sat_responder self))
    (sender (r_net (sat_responder self))) (cr (completer (r_net (sat_responder self))))
    (umem (r_net (sat_responder self))).

(** ** Answers

    These hold whatever the queues of probes and deadlines hold. *)

Section answers.
Context `{!ClickhouseLaws Db (Scanling Output)} (fs : Z) (g : Globals) (fc fi : Z) (db0 : Db).

(** Every answer that was sent is in the channel or with the writer, in order
    and once; when the writer has ended it has tried to write all of them. *)
Definition answers_ok (w : running) : Prop :=
  (run_received w <= length (run_sent w))%nat
  /\ match run_writer w with
     | inl self => stored db0 self /\ handed self = take (run_received w) (run_sent w)
     | inr self => stored db0 self /\ wr_task self = None /\ attempted self = run_sent w
         /\ Forall (fun th => th_over th = true) (run_threads w)
     end.

(** What was sent is what the saturators have found. *)
Definition sent_found (w : running) : Prop :=
  run_sent w ≡ₚ run_threads w ≫= (fun th => sat_queue (th_saturator th)).

Lemma saturator_turn_queue o (self self' : Saturator) d over d' :
  saturator_turn o self d = Ret (over, self', d') -> sat_queue self `prefix_of` sat_queue self'.
Proof.
  unfold saturator_turn. destruct (scanner_tick _ _ _ _ _ _) as [[[e n] d1]|]; [|done]. cbn [mbind outcome_bind].
  destruct (tick _) as [[x resp]|]; [|done]. cbn [mbind outcome_bind].
  destruct (completer_tick _ _ _) as [b c]. intros [= _ <- _]. by eexists.
Qed.

Lemma bind_insert {X Y} (f : X -> list Y) (l : list X) i x y more :
  l !! i = Some x -> f y = f x ++ more -> (<[i := y]> l ≫= f) ≡ₚ (l ≫= f) ++ more.
Proof.
  revert i. induction l as [|z l IH]; intros [|i] Hi Hf; simplify_eq/=.
  - rewrite Hf, <- !app_assoc. apply Permutation_app_head, Permutation_app_comm.
  - rewrite (IH i) by done. by rewrite app_assoc.
Qed.

Lemma answers_step may w w' :
  answers_ok w /\ sent_found w -> session_step may fs g fc fi w (Ret w') -> answers_ok w' /\ sent_found w'.
Proof.
  intros [[Hlen Ha] Hsent] Hs. inversion Hs as [now ? E|ix o ? E|t Ho E]; clear Hs.
  - unfold feed in E. destruct (run_done w); [by simplify_eq|].
    destruct (feeder_tick _ _ _ _ _) as [[[[over f] s] q]|]; [|done]. cbn in E. by simplify_eq.
  - unfold saturate in E. destruct (run_threads w !! ix) as [[self []]|] eqn:Ex; [by simplify_eq| |by simplify_eq].
    destruct (saturator_turn _ _ _) as [[[over self'] d]|] eqn:Et; [|done]. cbn in E. simplify_eq.
    apply saturator_turn_queue in Et as [more Hq]. cbn in Hq. rewrite Hq, drop_app_length. split.
    + split; cbn; [rewrite length_app; lia|]. destruct (run_writer w) as [wr|wr].
      * destruct Ha as [Hst Hha]. split; [done|]. by rewrite take_app_le.
      * exfalso. destruct Ha as (_ & _ & _ & Hov). by pose proof (Forall_lookup_1 _ _ _ _ Hov Ex).
    + unfold sent_found in *. cbn. rewrite Hsent. symmetry. by apply (bind_insert _ _ ix (mkThread self false)).
  - unfold housekeep in E. destruct (run_writer w) as [self|self] eqn:Ew;
      [|by simplify_eq; unfold answers_ok; rewrite Ew].
    destruct Ha as [Hst Hha]. pose proof (wake_up_ok db0 fc fi t self Hst) as Hwake.
    destruct (wake_up fc fi t self) as [self'|self'].
    + destruct Hwake as (_ & Hst' & Hha' & _). destruct (PortPmap.expire _ _ _) as [[exp a]|]; [|done].
      cbn in E. simplify_eq. split; [|done]. unfold offers in Ho. unfold arrived in Hha'. simpl in Hha'.
      rewrite app_nil_r in Hha'. split; [|split; [done|]]; cbn; unfold arrived; simpl; rewrite app_nil_r.
      * destruct (w_event t) as [row more| |]; simpl; [|lia|lia].
        apply prefix_length in Ho. rewrite length_drop in Ho. simpl in Ho. lia.
      * rewrite Hha', Hha. destruct (w_event t) as [row more| |]; simpl; [|by rewrite Nat.add_0_r, app_nil_r..].
        destruct Ho as [rest Ho]. rewrite <- (take_drop (run_received w) (run_sent w)) at 2.
        rewrite Ho, take_app_add' by (rewrite length_take; lia). by rewrite (take_app_length (row :: more)).
    + destruct Hwake as (Hcl & Hst' & Hha'). destruct (wind_up_ok db0 self' Hst') as (Hst'' & Hat & Hnone).
      cbn in E. simplify_eq. split; [|done]. split; [done|]. cbn. unfold closes, offers in *.
      destruct (w_event t); try done. destruct Ho as [Hov Hrec].
      split_and!; try done. rewrite Hat, Hha', Hha, Hrec. by apply take_ge.
Qed.

Lemma session_start_answers c timeout feeder_rng responder_rng seed_ports ranges sd now seats w0 :
  session_start c timeout feeder_rng responder_rng db0 seed_ports ranges sd now seats = Ret (Ok w0) ->
  answers_ok w0 /\ sent_found w0.
Proof.
  unfold session_start. destruct (build_graph _ _ _); [|done]. destruct (port_new _ _ _ _ _); [|done].
  cbn [mbind outcome_bind]. destruct (build_prefix_graph db0); [|done]. intros [= <-]. split.
  - split; simpl; [lia|]. split; [|done]. intros _. symmetry. apply app_nil_r.
  - unfold sent_found. cbn [run_sent run_threads]. generalize (f64_div (c_max_rate (c_controller c)) (f64_of_Z (zlen seats))).
    intros rate. induction seats as [|x seats IH]; [done|]. exact IH.
Qed.

Lemma session_answers_ok may w0 w :
  answers_ok w0 /\ sent_found w0 -> session_reachable may fs g fc fi w0 w -> answers_ok w /\ sent_found w.
Proof. intros H0' Hr. induction Hr as [|w w' Hr IH Hs]; [done|]. by eapply answers_step. Qed.


End answers.

(** ** Invariant *)

Section proofs.
Context `{!ClickhouseLaws Db (Scanling Output)} (capacity : nat).
#[local] Instance run_laws : PortAdapterLaws (PmapPortAdapter Q) R := pmap_laws fuel capacity.
Context (l : link) (Hl : link_ok l) (fs : Z) (g : Globals) (fc fi : Z).
Context (Hpay : forall ip port p, build ip port = Ok p -> zlen p <= 65000 /\ 62 + TxMetadata_LEN + zlen p <= fs).
Context (r : Ipv4Ranges) (Hord : ordered_from 0 (inner r)) (sd : Z) (db0 : Db).

Abbreviation anywhere := (fun _ : Z => True).

(** The deadlines still to come, of which [exps] are queued. *)
Definition deadlines_ahead (w : running) (exps : list PortPmap.Expiry) : list PortPmap.Expiry :=
  waiting (mkExpirer (deadlines (run_queues w)) (run_pending w) (run_timeout_batch w)) exps.

(** [hist] are the addresses handed out, [tasks] the probes that are queued,
    [exps] the queued deadlines.  Every address that has a port state has a
    deadline ahead, unless the scope is used up. *)
Record feeding_ok (w : running) (hist : list Z) (tasks : list PacketTemplate) (exps : list PortPmap.Expiry)
    : Prop := {
  fo_strategies : strategies_ok r sd anywhere capacity hist (run_strategies w);
  fo_cursor : cursor_inv r sd hist (f_index (run_feeder w));
  fo_results : deque_wf (results (run_queues w)) tasks;
  fo_deadlines : deque_wf (deadlines (run_queues w)) exps;
  fo_distinct : NoDup (t_ip <$> tasks);
  fo_hist t : t ∈ tasks -> t_ip t ∈ hist;
  fo_waiting : (forall x, covers (inner r) x -> x ∈ hist)
    \/ forall addr, addr ∈ dom (states (ports (run_strategies w))) -> addr ∈ (deadlines_ahead w exps).*2 }.

(** What holds whatever the queues hold: the saturators are in order, and the
    addresses handed out, none of them twice, are those marked. *)
Record session_kept (w : running) : Prop := {
  kept_threads : Forall (fun th => sat_ok l fs (th_saturator th)) (run_threads w);
  kept_strategies : exists hist, NoDup hist /\ strategies_ok r sd anywhere capacity hist (run_strategies w)
    /\ cursor_inv r sd hist (f_index (run_feeder w)) }.

Record session_ok (w : running) : Prop := {
  ses_threads : Forall (fun th => sat_ok l fs (th_saturator th)) (run_threads w);
  ses_feeding : exists hist tasks exps, feeding_ok w hist tasks exps }.

(** A saturator can be started on these parts. *)
Definition parts_ok (rs : Z) (p : parts) : Prop :=
  forall c e a i rng seed segments bytes time ts ls, pool_wf capacity 0 a ->
    sat_ok l fs (saturator_new (Output := Output) p rs c e a i rng seed segments bytes time ts ls).

(** What a thread gives back can be used for the next session. *)
Lemma into_parts_ok rs (self : Saturator) : 0 <= rs < 2 ^ 58 -> sat_ok l fs self -> parts_ok rs (into_parts self).
Proof.
  intros Hrs [Hs1 [[Hn Hp _ _ _ _] Ht] Hs3 Hs4 Hs5 Hs6] c e a i rng seed segments bytes time ts ls Ha.
  assert (Hfs : frame_size (umem (r_net (sat_responder self))) = fs) by (by destruct Hn).
  constructor; simpl; try done.
  - by apply (ready_memory l fs (scan_net self)).
  - split; [|done]. constructor; try done. by apply (ready_memory l fs (r_net (sat_responder self))).
Qed.

(** *** One lemma per thread *)

Lemma feed_ok now w :
  session_ok w -> batch_fits now w -> exists w', feed now w = Ret w' /\ session_ok w'.
Proof.
  intros [Ht (hist & tasks & exps & Hf)] Hfit. unfold feed. destruct (run_done w) eqn:Edone.
  { exists w. split; [done|]. split; eauto. }
  destruct Hfit as [?|Hfit]; [congruence|].
  destruct Hf as [Hs Hc Hdr Hdd Hnd Hh Hw].
  destruct (feeder_tick_ok r sd anywhere capacity hist (replicate (f_batch_size (run_feeder w)) id) now
    (run_feeder w) (run_strategies w) (run_queues w) tasks exps)
    as (over & f & s' & q' & new & -> & Hs' & Hc' & [Hnd' Hfr] & Hst & Hover); try done.
  { apply length_replicate. }
  { apply Forall_replicate. by split. }
  cbn [mbind outcome_bind]. eexists. split; [done|]. split; [done|].
  assert (Hin : forall x, x ∈ hist -> x ∈ after new hist) by (intros x Hx; apply elem_of_app; by right).
  assert (Hnew : forall t, t ∈ new -> t_ip t ∈ after new hist).
  { intros t Hn. apply elem_of_app. left. apply list_elem_of_In, in_rev.
    rewrite rev_involutive. apply list_elem_of_In, list_elem_of_fmap. eauto. }
  destruct over.
  - destruct Hover as [-> Hend]. exists (after new hist), tasks, exps. constructor; simpl; try done; [by auto|].
    destruct Hend as [[_ ->]|Hend]; [|by left]. destruct Hw as [Hw|Hw]; [by left; auto|right].
    intros addr Haddr. destruct (Hst addr Haddr) as [Hx|Hx]; [by apply Hw|by apply elem_of_nil in Hx].
  - destruct Hover as (_ & Hw1 & Hw2).
    exists (after new hist), (tasks ++ new), (exps ++ ((fun t => (now + f_timeout (run_feeder w), t_ip t)) <$> new)).
    constructor; simpl; try done.
    + rewrite fmap_app. apply NoDup_app. split_and!; [done| |done].
      intros x (t & -> & Hin')%list_elem_of_fmap (t' & E & Hin'')%list_elem_of_fmap.
      destruct (Hfr t' Hin'') as (_ & Hno & _). apply Hno. rewrite <- E. by apply Hh.
    + intros t [Hx|Hx]%elem_of_app; auto.
    + destruct Hw as [Hw|Hw]; [by left; auto|right]. unfold deadlines_ahead, waiting in *. simpl in *.
      intros addr [Hx%Hw|Hx]%Hst; destruct (run_pending w); cbn in *; rewrite ?fmap_app; set_solver.
Qed.

(** The shared strategies may be put in place of the ones seen last. *)
Lemma plug_ok s (self : Saturator) : sat_ok l fs self -> pool_wf capacity 0 (ports s) -> sat_ok l fs (plug s self).
Proof.
  intros [Hs1 [[Hn Hp _ _ _ _] Ht] Hs3 Hs4 Hs5 Hs6] Hw. by constructor.
Qed.

(** Reports keep the addresses handed out as they are. *)
Lemma reported_inv hist (i i' : PmapIpAdapter) :
  reported i i' -> ip_inv r sd anywhere hist i -> ip_inv r sd anywhere hist i'.
Proof.
  intros (addrs & Hall & ->). revert i. induction Hall as [|x addrs Hx Hall IH]; intros i Hi; [done|].
  simpl. apply IH. by apply on_result_inv.
Qed.

Lemma saturate_ok ix o w :
  session_ok w ->
  (forall self over, run_threads w !! ix = Some (mkThread self over) -> kernel_ok fs g o self) ->
  match saturate ix o w with Ret w' => session_ok w' | Fault f => f = OutOfFuel end.
Proof.
  intros Hses Hk. pose proof Hses as [Ht (hist & tasks & exps & Hf)]. unfold saturate.
  destruct (run_threads w !! ix) as [[self []]|] eqn:Ex; [done| |done].
  pose proof Hf as [[Hsp Hsi] Hc Hdr Hdd Hnd Hh Hw].
  pose proof (Forall_lookup_1 _ _ _ _ Ht Ex) as Hsat. cbn [th_saturator] in Hsat.
  set (o' := mkOutside _ _ _ _).
  pose proof (saturator_turn_ok l Hl fs Hpay g o' (plug (run_strategies w) self) (results (run_queues w)) tasks
    (plug_ok _ _ Hsat Hsp) (Hk self false eq_refl) Hdr) as Hturn.
  destruct (saturator_turn o' _ _) as [[[over self'] d]|f]; [|done]. cbn [mbind outcome_bind].
  destruct Hturn as ((-> & Hsat' & _ & _ & _ & Hips & Hle) & k & Hd'). split; cbn; [by apply Forall_insert|].
  exists hist, (drop k tasks), exps. constructor; simpl; try done.
  - split; [apply Hsat'|]. by eapply reported_inv.
  - rewrite fmap_drop. eapply sublist_NoDup; [exact Hnd|]. apply sublist_drop.
  - intros t Hin. apply Hh. eapply elem_of_sublist; [exact Hin|apply sublist_drop].
  - destruct Hw as [Hw|Hw]; [by left|right]. intros addr Haddr. apply Hw. by apply Hle.
Qed.

Lemma housekeep_ok t w : session_ok w -> exists w', housekeep fc fi t w = Ret w' /\ session_ok w'.
Proof.
  intros Hses. pose proof Hses as [Ht (hist & tasks & exps & Hf)]. unfold housekeep.
  destruct (run_writer w) as [self|self]; [|by exists w]. destruct (wake_up fc fi t self) as [self'|self'].
  - pose proof Hf as [[Hsp Hsi] Hc Hdr Hdd Hnd Hh Hw]. set (exp := mkExpirer _ _ _).
    destruct (expire_ok capacity 0 (w_now t) (exp_batch_size exp) exp (ports (run_strategies w)) exps Hsp Hdd)
      as (exp' & a & exps' & He & Hw' & _ & Hd' & _ & Hnone & Hwait).
    unfold PortPmap.expire. rewrite He. cbn [mbind outcome_bind]. eexists. split; [done|]. split; cbn; [done|].
    exists hist, tasks, exps'. constructor; simpl; try done.
    destruct Hw as [Hw|Hw]; [by left|right]. intros addr Haddr. apply (Hwait addr Haddr), Hw. by apply Hnone.
  - eexists. split; [done|]. split; cbn; [done|]. exists hist, tasks, exps. by destruct Hf.
Qed.

Lemma session_step_ok w o :
  session_ok w -> session_step batch_fits fs g fc fi w o ->
  match o with Ret w' => session_ok w' | Fault f => f = OutOfFuel end.
Proof.
  intros Hw Hs. inversion Hs; subst.
  - by destruct (feed_ok now w) as (w' & -> & ?).
  - by apply saturate_ok.
  - by destruct (housekeep_ok t w) as (w' & -> & ?).
Qed.

Lemma session_reachable_ok w0 w : session_ok w0 -> session_reachable batch_fits fs g fc fi w0 w -> session_ok w.
Proof. intros H0' Hr. induction Hr as [|w w' Hr IH Hs]; [done|]. exact (session_step_ok w (Ret w') IH Hs). Qed.

(** *** Whatever the queues hold *)

Lemma fresh_distinct hist new : NoDup hist -> fresh anywhere hist new -> NoDup (after new hist).
Proof.
  intros Hn [Hd Hf]. unfold after. rewrite <- Permutation_rev. apply NoDup_app. split_and!; [done| |done].
  intros x (t & -> & Ht)%list_elem_of_fmap. by apply Hf.
Qed.

Lemma feed_kept now w w' : session_kept w -> feed now w = Ret w' -> session_kept w'.
Proof.
  intros [Ht (hist & Hn & Hs & Hc)] E. unfold feed in E. destruct (run_done w).
  { simplify_eq. split; eauto. }
  destruct (feeder_tick _ _ _ _ _) as [[[[over f] s] q]|] eqn:Ef; [|done]. cbn in E. simplify_eq.
  eapply (feeder_tick_kept r sd anywhere capacity hist) in Ef as (new & Hs' & Hc' & Hf); try done.
  - split; [done|]. exists (after new hist). split_and!; [by apply fresh_distinct|done..].
  - apply Forall_replicate. by split.
Qed.

Lemma saturate_kept ix o w w' :
  session_kept w -> (forall self over, run_threads w !! ix = Some (mkThread self over) -> kernel_ok fs g o self) ->
  saturate ix o w = Ret w' -> session_kept w'.
Proof.
  intros Hw Hk E. pose proof Hw as [Ht (hist & Hn & [Hsp Hsi] & Hc)]. unfold saturate in E.
  destruct (run_threads w !! ix) as [[self []]|] eqn:Ex; [by simplify_eq| |by simplify_eq].
  destruct (saturator_turn _ _ _) as [[[over self'] d]|] eqn:Et; [|done]. cbn in E. simplify_eq.
  pose proof (Forall_lookup_1 _ _ _ _ Ht Ex) as Hsat. cbn [th_saturator] in Hsat.
  apply (saturator_turn_kept l Hl fs Hpay g) in Et as (_ & Hsat' & _ & _ & _ & Hips & _);
    [|by apply plug_ok|exact (Hk self false eq_refl)].
  split; cbn; [by apply Forall_insert|]. exists hist. split_and!; [done| |done].
  split; [apply Hsat'|]. by eapply reported_inv.
Qed.

Lemma housekeep_kept t w w' : session_kept w -> housekeep fc fi t w = Ret w' -> session_kept w'.
Proof.
  intros Hw E. pose proof Hw as [Ht (hist & Hn & [Hsp Hsi] & Hc)]. unfold housekeep in E.
  destruct (run_writer w) as [self|self]; [|by simplify_eq]. destruct (wake_up fc fi t self) as [self'|self'].
  - destruct (PortPmap.expire _ _ _) as [[exp a]|] eqn:Ee; [|done]. cbn in E. simplify_eq. split; [done|].
    exists hist. split_and!; [done| |done]. split; [|done]. by eapply expire_kept.
  - simplify_eq. split; [done|]. by exists hist.
Qed.

Lemma session_reachable_kept may w0 w :
  session_kept w0 -> session_reachable may fs g fc fi w0 w -> session_kept w.
Proof.
  intros H0' Hr. induction Hr as [|w w' Hr IH Hs]; [done|]. inversion Hs as [now ? E|ix o ? E|t ? E].
  - by eapply feed_kept.
  - by eapply saturate_kept.
  - by eapply housekeep_kept.
Qed.

(** What a session is started with: a usable configuration, a port graph that
    fits in memory, and parts that are in order. *)
Record startable (c : Config) (seed_ports : list Z) (seats : list seat) : Prop := {
  sta_pool : 0 < c_max_in_flight (c_strategy c);
  sta_capacity : capacity = Z.to_nat (c_max_in_flight (c_strategy c));
  sta_ports : port_range_ok (c_source_port (c_controller c));
  sta_graph graph :
    build_graph db0 seed_ports (c_catchall_threshold (c_strategy c)) = Ok graph -> graph_ok graph;
  sta_ring : 0 <= c_ring_size (c_xdp c) < 2 ^ 58;
  sta_seats : Forall (fun s => parts_ok (c_ring_size (c_xdp c)) (seat_parts s)) seats }.

Lemma session_start_ok c timeout feeder_rng responder_rng seed_ports now seats :
  startable c seed_ports seats ->
  match session_start c timeout feeder_rng responder_rng db0 seed_ports (compile r) sd now seats with
  | Ret (Ok w) => session_ok w /\ session_kept w
  | Ret (Err _) => build_graph db0 seed_ports (c_catchall_threshold (c_strategy c)) = Err tt
                   \/ build_prefix_graph db0 = Err tt
  | Fault _ => False
  end.
Proof.
  intros [Hm Hcap Hsrc Hg Hrs Hseats]. unfold session_start.
  destruct (build_graph db0 seed_ports _) as [graph|[]]; [|by left].
  destruct (port_new_ok (Q := Q) graph (c_epsilon_port (c_epsilon (c_strategy c)))
    (c_budget_per_address (c_strategy c)) (c_max_in_flight (c_strategy c)) (c_source_port (c_controller c)))
    as (a & Ha & Hw); [done|by apply Hg|done|]. rewrite <- Hcap in Hw. rewrite Ha. cbn [mbind outcome_bind].
  destruct (build_prefix_graph db0) as [prefixes|[]]; [|by right].
  set (i := ip_new prefixes _ _ _). set (rate := f64_div _ _).
  destruct (ip_new_inv r Hord sd anywhere prefixes (c_epsilon_ip (c_epsilon (c_strategy c)))) as [Hi Hc].
  assert (Ht : Forall (fun th => sat_ok l fs (th_saturator th))
    (thread_start c timeout sd rate now a i (responder_rng sd) <$> seats)).
  { apply Forall_fmap. eapply Forall_impl; [exact Hseats|]. intros s Hs. by apply Hs. }
  split; (split; [exact Ht|]).
  - exists [], [], []. constructor; simpl; try apply worker_new_wf; try done; [constructor|by intros t ?%elem_of_nil|].
    right. rewrite (port_new_states _ _ _ _ _ _ Ha). set_solver.
  - exists []. split_and!; [constructor|done..].
Qed.

Lemma session_start_threads c timeout feeder_rng responder_rng seed_ports ranges sd' now seats w0 :
  session_start c timeout feeder_rng responder_rng db0 seed_ports ranges sd' now seats = Ret (Ok w0) ->
  length (run_threads w0) = length seats.
Proof.
  unfold session_start. destruct (build_graph _ _ _); [|done]. destruct (port_new _ _ _ _ _); [|done].
  cbn [mbind outcome_bind]. destruct (build_prefix_graph db0); [|done]. intros [= <-]. apply length_fmap.
Qed.

(** No thread is lost. *)
Lemma session_threads may w0 w :
  session_reachable may fs g fc fi w0 w -> length (run_threads w) = length (run_threads w0).
Proof.
  induction 1 as [|w w' _ IH Hs]; [done|]. rewrite <- IH. inversion Hs as [now ? E|ix o ? E|t ? E].
  - unfold feed in E. destruct (run_done w); [by simplify_eq|].
    destruct (feeder_tick _ _ _ _ _) as [[[[over f] s] q]|]; [|done]. cbn in E. by simplify_eq.
  - unfold saturate in E. destruct (run_threads w !! ix) as [[self []]|]; [by simplify_eq| |by simplify_eq].
    destruct (saturator_turn _ _ _) as [[[over self'] d]|]; [|done]. cbn in E. simplify_eq. apply length_insert.
  - unfold housekeep in E. destruct (run_writer w); [|by simplify_eq].
    destruct (wake_up _ _ _ _); [|by simplify_eq]. destruct (PortPmap.expire _ _ _) as [[exp a]|]; [|done].
    cbn in E. by simplify_eq.
Qed.

(** ** Theorems *)


End proofs.
End running.

(** ** Witnesses *)

Section witnesses.
Local Existing Instances pmap_ips three_bytes four_bytes no_hash ex_unaligned demo_consts linux linux_laws.

(** A database in memory for the answers, and a configuration for pools of
    four states, batches of three and rings of two entries. *)
Definition demo_key (s : Scanling (list Z)) : Z * Z := (sc_ip _ s, sc_port _ s).
Local Instance demo_server : Clickhouse (list (Z * Z)) (Scanling (list Z)) := mem_clickhouse demo_key.
Local Instance demo_server_laws : ClickhouseLaws (list (Z * Z)) (Scanling (list Z)) :=
  mem_clickhouse_laws demo_key.

Definition demo_config : Config :=
  mkConfig (mkControllerConfig (Range 40000 40010) [] 1000 (f64_of_Z 1000))
    (mkDatabaseConfig [] [] [] [] [] 15 2)
    (mkStrategyConfig 4 3 (mkEpsilonConfig (f64_of_Z 1) (f64_of_Z 0)) 3 8 [Single 25565])
    (mkSessionConfig 1000 3 (mkRescanConfig 10 (f64_of_Z 0))) (mkPingConfig [] 25565 770)
    demo_xdp
    (mkTcpConfig 4 100).

Definition demo_seat (p : parts) : seat := mkSeat p (mkShared 0 0 0) (replicate 8 demo_turn) [10; 20] [demo_look; demo_look].

Definition demo_rng (sd : Z) : replay := mkReplay [9; 11] [] sd.

Definition demo_start (p : parts) : outcome (result unit (running (Q := list_queue) (R := replay))) :=
  session_start demo_config 50 demo_rng demo_rng demo_db [25565] (compile ex_ranges) 1 0 [demo_seat p].

Lemma demo_parts_ok p : demo_setup = Ret (Ok p) ->
  parts_ok (Q := list_queue) (R := replay) (Output := list Z) 9 4 demo_link 2048 2 p.
Proof.
  pose proof (setup_ok (A := PmapPortAdapter list_queue) (I := PmapIpAdapter) (R := replay) (Output := list Z)
    (PortAdapterLaws0 := pmap_laws 9 4) demo_link demo_link_ok demo_kernel demo_xdp 3 0 65536 12 [] ∅ demo_fds) as Hs.
  unfold demo_setup. change (c_ring_size demo_xdp) with 2 in Hs.
  destruct (setup_queue _ _ _ _ _ _ _ _) as [[[q|e] h]|f]; [|done..]. intros [= <-].
  destruct Hs as (_ & _ & Hs); [lia|by exists (2 ^ 31)|lia|lia|simpl; lia|exact demo_areas|done|].
  exact Hs.
Qed.

Lemma demo_startable p : demo_setup = Ret (Ok p) ->
  startable (Q := list_queue) (R := replay) (Output := list Z) 9 4 demo_link 2048 demo_db demo_config [25565]
    [demo_seat p].
Proof.
  intros Hp. constructor; try (simpl; lia); try reflexivity.
  - vm_compute. congruence.
  - intros graph Hg.
    assert (Hb : match build_graph demo_db [25565] 3 with
      | Ok graph => zlen (recommendations graph) <? 2 ^ 63 | Err _ => true end = true) by (vm_compute; reflexivity).
    change (c_catchall_threshold _) with 3 in Hg. rewrite Hg in Hb. by apply Z.ltb_lt in Hb.
  - apply Forall_singleton. by apply demo_parts_ok.
Qed.

Lemma demo_ordered : ordered_from 0 (inner ex_ranges).
Proof. vm_compute. intuition congruence. Qed.

(** The session after one turn of the feeder. *)
Lemma demo_fed p : demo_setup = Ret (Ok p) ->
  exists w0 w1, demo_start p = Ret (Ok w0) /\ feed 10 w0 = Ret w1
    /\ (forall may : Z -> running -> Prop, may 10 w0 -> session_reachable 9 may 2048 ex_globals 2 15 w0 w1) /\ batch_fits 10 w0.
Proof.
  intros Hp.
  assert (exists w0, demo_start p = Ret (Ok w0) /\ takes (results (run_queues w0)) (Z.of_nat (f_batch_size (run_feeder w0)))
    /\ takes (deadlines (run_queues w0)) (Z.of_nat (f_batch_size (run_feeder w0)))) as (w0 & E & Ht1 & Ht2).
  { eexists. split; [reflexivity|]. split; split; vm_compute; congruence. }
  pose proof (session_start_ok 9 4 demo_link demo_link_ok 2048 ex_fits_2048 ex_ranges demo_ordered 1 demo_db demo_config 50 demo_rng demo_rng
    [25565] 0 [demo_seat p] (demo_startable p Hp)) as Hok.
  unfold demo_start in E. rewrite E in Hok. destruct Hok as [Hok _].
  assert (Hfit : batch_fits 10 w0) by (right; right; split; [exact Ht1|exact Ht2]).
  destruct (feed_ok 9 4 demo_link demo_link_ok 2048 ex_fits_2048 ex_ranges demo_ordered 1 10 w0 Hok Hfit) as (w1 & Ef & _).
  exists w0, w1. split_and!; [exact E|exact Ef| |exact Hfit]. intros may Hm. eapply reach_step; [apply reach_start|].
  rewrite <- Ef. by apply step_feed.
Qed.



End witnesses.
