(* ===== verification/Interleave.v ===== *)
(** * A saturator among the other threads: [controller/session.rs]

    In [Run] the turns of the threads are interleaved as wholes.  Here one turn
    of a saturator is taken apart: before every access that its responder makes
    to the port strategy ([Pool]) or to the address strategy ([Addresses]) the
    other threads make as many accesses of theirs as they like.  The responder
    is proved against an interface, so that it is enough to give the strategies
    with the steps of the others as instances of that interface.  The steal from
    the queue of probes is one step here; [Stealing] takes it apart. *)

From S2P Require Import Prelude Float Rand Ranges Text Config Tcp Ring Umem Link Native Socket.
From S2P Require Import Prefix IpPmap Addresses Completer Sender Receiver Minecraft Xdp PortGraph Database Session.
From S2P Require Import Deque PortPmap Pool Feeder Responder Handshake Saturator Setup.

Section interleave.
Context {Q : Type -> Type} `{ArrayQueue Q} `{PerfectRng} `{HashIter} `{Rng R}.
Context (fuel : nat).

(** ** The port strategy *)

(** The pool with the other threads, and what they do before each access to
    come. *)
Record contended : Type := mkContended {
  cp_pool : pool Q R;
  cp_moves : list (moves (R := R)) }.

(** [n] steps of a call, the others moving in between. *)
Fixpoint drive (n : nat) (v : visit R) (w : contended) : outcome (visit R * contended) :=
  match n with
  | O => Ret (v, w)
  | S n =>
      s ← pool_run fuel (default [] (head (cp_moves w))) (cp_pool w);
      '(a, v) ← visit_step fuel (pool_adapter s) v;
      drive n v (mkContended (mkPool a (pool_visits s) (pool_lost s)) (tail (cp_moves w)))
  end.

(** [on_result]: a call has returned after three steps. *)
Definition contended_result (w : contended) (addr : Ipv4Addr) (port : Z) (hash : option Z) (rng : R)
    : outcome (option PacketTemplate * contended * R) :=
  '(v, w) ← drive 3 (ResultLock addr port hash rng) w;
  match v with
  | Returned (RProbe t rng) => Ret (t, w, rng)
  | _ => Fault Panic
  end.

Definition contended_ports : PortAdapter contended R := {| port_on_result := contended_result |}.

(** ** The address strategy *)

(** The strategy with the other threads, and what they do before each access to
    come. *)
Record shared_ips : Type := mkSharedIps {
  si_world : ip_world (R := R);
  si_moves : list (list ip_move) }.

(** [n] steps of a call, the others moving in between. *)
Fixpoint ip_drive (n : nat) (v : ip_visit) (w : shared_ips) : outcome (ip_visit * shared_ips) :=
  match n with
  | O => Ret (v, w)
  | S n =>
      x ← ip_moves (default [] (head (si_moves w))) (si_world w);
      '(s, v) ← ip_access (iw_state x) v;
      ip_drive n v (mkSharedIps (mkIpWorld s (iw_feeder x) (iw_reports x)) (tail (si_moves w)))
  end.

(** [on_result]: a report has returned after six steps.  A fault, be it of
    another thread, stays on record. *)
Definition shared_result (i : outcome shared_ips) (addr : Ipv4Addr) : outcome shared_ips :=
  w ← i;
  '(v, w) ← ip_drive 6 (ReportGet addr) w;
  match v with
  | IpReturned _ => Ret w
  | _ => Fault Panic
  end.

Definition contended_ips : IpAdapter (outcome shared_ips) := {| ip_on_result := shared_result |}.

(** ** What the responder relies on *)

Context (capacity : nat).

(** A call that reports a result ends with an answer. *)
Definition reporting (v : visit R) : Prop :=
  match v with
  | ResultLock _ _ _ _ => True
  | StateRemove _ (Answer (RProbe _ _)) | StatePush _ (Answer (RProbe _ _)) => True
  | Returned (RProbe _ _) => True
  | _ => False
  end.

Lemma result_locked_reporting a st addr port hash (rng : R) st' v :
  result_locked (Q := Q) fuel a st addr port hash rng = Ret (st', v) -> reporting v.
Proof.
  unfold result_locked. case_bool_decide; [by intros [= _ <-]|].
  destruct (match hash with Some _ => _ | None => _ end) as [[] st1]; [by intros [= _ <-]|].
  set (st2 := PortPmap.mkState _ _ _ _ _). destruct (budget_remaining st2 =? 0); [by intros [= _ <-]|].
  destruct (random_unit rng) as [u rng1]. destruct (choose _ _ _ _ _) as [[[[p|] st3] rng2]|]; [|by intros [= _ <-]|done].
  cbn [mbind outcome_bind finish]. destruct (sample _ _) as [[src rng3]|]; [|done]. by intros [= _ <-].
Qed.

Lemma visit_step_reporting a v a' v' :
  reporting v -> visit_step (Q := Q) fuel a v = Ret (a', v') -> reporting v'.
Proof.
  destruct v as [|st|st addr rng|addr port hash rng|addr [[|t rng]|]|st [[|t rng]|]|r]; cbn [visit_step reporting];
    try done; intros Hv.
  - destruct (states a !! addr) as [st|]; [|by intros [= _ <-]].
    destruct (result_locked _ _ _ _ _ _ _) as [[st' v0]|] eqn:E; [|done]. intros [= _ <-].
    by eapply result_locked_reporting.
  - by destruct (states a !! addr) as [st|]; intros [= _ <-].
  - destruct (put_back a st) as [a1|]; [|done]. by intros [= _ <-].
  - intros [= _ <-]. by destruct r.
Qed.

(** The call has its state in hand like any other thread. *)
Lemma drive_ok n : forall v w,
  pool_ok capacity (hand v) (cp_pool w) -> reporting v ->
  match drive n v w with
  | Ret (v', w') => pool_ok capacity (hand v') (cp_pool w')
      /\ reporting v' /\ (visit_left v' <= visit_left v - n)%nat
  | Fault f => f = OutOfFuel
  end.
Proof.
  induction n as [|n IH]; intros v w Hw Hv; cbn [drive]; [split_and!; [done|done|lia]|].
  pose proof (pool_run_ok capacity (hand v) fuel (default [] (head (cp_moves w))) (cp_pool w) Hw) as Hs.
  destruct (pool_run _ _ _) as [s|]; [|done]. cbn [mbind outcome_bind]. destruct Hs as [Hwf Hn].
  rewrite Nat.add_comm in Hwf. pose proof (visit_step_ok capacity _ fuel _ v Hwf) as Hv'.
  destruct (visit_step fuel _ v) as [[a v']|] eqn:E; [|by destruct Hv']. cbn [mbind outcome_bind].
  destruct Hv' as [Hw' Hl]. pose proof (visit_step_kept capacity _ fuel _ v a v' Hwf E) as Hk.
  apply visit_step_reporting in E; [|done]. rewrite Nat.add_comm in Hw'.
  assert (Hok : pool_ok capacity (hand v') (mkPool a (pool_visits s) (pool_lost s))) by (split; [exact Hw'|cbn [pool_adapter pool_visits pool_lost]; lia]).
  specialize (IH v' (mkContended (mkPool a (pool_visits s) (pool_lost s)) (tail (cp_moves w))) Hok E).
  destruct (drive n v' _) as [[v2 w2]|]; [|done]. destruct IH as (? & ? & ?). split_and!; [done|done|lia].
Qed.

#[local] Existing Instances contended_ports contended_ips.

(** Reporting a result keeps the states together, whatever the others do. *)
Program Definition contended_laws : PortAdapterLaws contended R :=
  {| port_inv w := pool_ok capacity 0 (cp_pool w); port_le _ _ := True |}.
Next Obligation. done. Qed.
Next Obligation.
  intros w addr port hash rng Hw. simpl. unfold contended_result.
  pose proof (drive_ok 3 (ResultLock addr port hash rng) w Hw I) as Hd.
  destruct (drive 3 _ w) as [[v w']|]; [|done]. destruct Hd as (Hw' & Hv & Hl). cbn [mbind outcome_bind].
  destruct v as [| | | |addr' [[]|]|st [[]|]|[|t rng']]; simpl in Hv, Hl; try done; lia.
Qed.

(** ** The addresses *)

Section addresses.
Context (r : Ipv4Ranges) (Hord : ordered_from 0 (inner r)) (sd : Z).
Abbreviation anywhere := (fun _ : Z => True).

(** The strategy and the calls that are under way are in order, and the calls to
    come report addresses. *)
Record ips_ok (w : shared_ips) : Prop := {
  io_world : ip_world_ok r sd (si_world w);
  io_moves : Forall (Forall move_ok) (si_moves w) }.

(** The addresses handed out; the list grows. *)
Definition addresses (w : shared_ips) : list Ipv4Addr := is_handed (iw_state (si_world w)).
Definition grown (w w' : shared_ips) : Prop := addresses w `suffix_of` addresses w'.

#[local] Instance grown_preorder : PreOrder grown.
Proof. unfold grown. split; [by intros w|by intros x y z; etrans]. Qed.

(** A report that is under way, among the others. *)
Lemma ip_drive_ok n : forall v w,
  ips_ok w -> visit_ok v -> is_report v = true ->
  exists v' w', ip_drive n v w = Ret (v', w') /\ ips_ok w' /\ grown w w'
    /\ visit_ok v' /\ is_report v' = true /\ (report_left v' <= report_left v - n)%nat.
Proof.
  induction n as [|n IH]; intros v w Hw Hv Hr; cbn [ip_drive]; [exists v, w; split_and!; done || lia|].
  destruct Hw as [Hw Hm]. destruct (ip_moves_ok r Hord sd (default [] (head (si_moves w))) (si_world w) Hw)
    as (x & -> & Hx & Hg).
  { destruct (si_moves w); [constructor|by apply Forall_cons in Hm as [? _]]. }
  cbn [mbind outcome_bind]. pose proof Hx as [Hs Hf Hrs].
  destruct (ip_access_ok r Hord sd (iw_state x) v Hs Hv) as ([s v1] & E & Hs1 & Hv1 & Hg1).
  destruct (report_step r sd _ _ _ Hs Hv Hr E) as [Hr1 Hl1]. rewrite E. cbn [mbind outcome_bind fst snd] in *.
  destruct (IH v1 (mkSharedIps (mkIpWorld s (iw_feeder x) (iw_reports x)) (tail (si_moves w)))) as
    (v2 & w2 & -> & Hw2 & Hg2 & Hv2 & Hr2 & Hl2); [|done|done|].
  { constructor; cbn; [by constructor|]. destruct (si_moves w); [done|by apply Forall_cons in Hm as [_ ?]]. }
  exists v2, w2. split_and!; try done; [|lia]. etrans; [|exact Hg2]. unfold grown, addresses. cbn. by etrans.
Qed.

Lemma shared_result_ok w addr :
  ips_ok w -> in_u32 addr -> exists w', shared_result (Ret w) addr = Ret w' /\ ips_ok w' /\ grown w w'.
Proof.
  intros Hw Ha. unfold shared_result. cbn [mbind outcome_bind].
  destruct (ip_drive_ok 6 (ReportGet addr) w Hw Ha eq_refl) as (v & w' & -> & Hw' & Hg & Hv & Hr & Hl).
  cbn [mbind outcome_bind]. exists w'. split_and!; [|done..].
  destruct v as [| | | | | |?|p k|p|?]; simpl in Hr, Hl, Hv; try done; try lia.
  destruct Hv as [_ Hn]. destruct p; simpl in *; done || lia.
Qed.

Lemma reported_ok i i' w :
  reported i i' -> i = Ret w -> ips_ok w -> exists w', i' = Ret w' /\ ips_ok w' /\ grown w w'.
Proof.
  intros (addrs & Hall & ->) ->. revert w. induction Hall as [|x addrs Hx Hall IH]; intros w Hw; [by exists w; split_and!|].
  cbn [fold_left]. destruct (shared_result_ok w x Hw Hx) as (w1 & E & Hw1 & Hg1).
  change (ip_on_result (Ret w) x) with (shared_result (Ret w) x). rewrite E.
  destruct (IH w1 Hw1) as (w2 & -> & Hw2 & Hg2). exists w2. split_and!; [done|done|]. by etrans.
Qed.

(** ** Theorem *)

Section theorem.
Context {Output : Type} `{KernelConsts} `{UnalignedConsts} `{Payload} `{Parser Output} `{Hash64 Output}.
#[local] Existing Instance contended_laws.
Context (l : link) (Hl : link_ok l) (fs : Z) (g : Globals).
Context (Hpay : forall ip port p, build ip port = Ok p -> zlen p <= 65000 /\ 62 + TxMetadata_LEN + zlen p <= fs).

(** C6: the turn of a saturator is safe among the other threads.  Two senders
    and the receiver share one packet memory, the kernel writes to the receive
    buffers, and in one turn probes are sent, a batch of packets is answered,
    deadlines expire and completions are collected.  Before every access that
    the responder makes to the shared strategies the other threads may make
    accesses of theirs: take guards, use or drop them, report results, expire
    states, ask for addresses.  Whatever they do and whatever arrives, the turn
    does not panic or make a bad access; it may only wait.  In the packet memory
    the scanner and the responder write to the frames of their own senders only.
    The turn ends with everything in order again: both senders ready, the rings
    consistent, every connection filed, bounded and waited for, probes taken
    from the front of the queue only, and every answer found passed on.  The
    port states in the pool, in the map, in hands and in guards that were dropped
    unused make up [max_in_flight] exactly.  No thread has faulted in the address
    strategy, and no address was handed out twice. *)
Theorem interleaved_turn (o : outside) (self : @saturator contended (outcome shared_ips) R Output)
    (d : Deque PacketTemplate) (tasks : list PacketTemplate) (w : shared_ips) :
  sat_ok l fs self -> kernel_ok fs g o self -> deque_wf d tasks ->
  ip_adapter (sat_responder self) = Ret w -> ips_ok w ->
  match saturator_turn o self d with
  | Ret (over, self', d') =>
      over = o_done o /\ sat_ok l fs self' /\ own_writes o self self' /\ (exists k, deque_wf d' (drop k tasks))
      /\ sat_queue self `prefix_of` sat_queue self' /\ scanlings (sat_responder self') = []
      /\ (let s := cp_pool (port_adapter (sat_responder self')) in
          length (q_items (allocated_states (pool_adapter s))) + base.size (states (pool_adapter s))
          + hands (pool_visits s) + pool_lost s = capacity)%nat
      /\ exists w', ip_adapter (sat_responder self') = Ret w' /\ NoDup (addresses w') /\ grown w w' /\ ips_ok w'
  | Fault f => f = OutOfFuel
  end.
Proof.
  intros Hs Hk Hd Ei Hw. pose proof (saturator_turn_ok l Hl fs Hpay g o self d tasks Hs Hk Hd) as Ht.
  destruct (saturator_turn o self d) as [[[over self'] d']|]; [|done].
  destruct Ht as [(-> & Hs' & Hown & Hq & Hsc & [Hr _]) Hd']. split_and!; try done.
  - destruct Hs' as [_ [[_ Hp _ _ _ _] _] _ _ _ _]. destruct Hp as [_ Hn]. cbv zeta. unfold kept in Hn. lia.
  - destruct (reported_ok _ _ w Hr Ei Hw) as (w' & E & Hw' & Hg). exists w'. split_and!; try done. apply Hw'.
Qed.

End theorem.
End addresses.

End interleave.

(** ** Witness *)

Section witnesses.
Local Existing Instances three_bytes four_bytes no_hash ex_unaligned demo_consts linux linux_laws.

(** A RST of the host 1.2.3.4. *)
Definition ex_rst : list Z :=
  [0;0;0;0;0;0; 0;0;0;0;0;0; 8;0; 69;0; 0;40; 0;1; 64;0; 64;6; 0;0; 1;2;3;4; 10;0;0;1;
   99;221; 156;64; 0;0;0;9; 0;0;0;5; 80;20; 0;0; 0;0; 0;0].

(** Just before the result is looked up the feeder starts the address; the
    budget is one, so that the entry is to be removed, and before that is done
    the housekeeping thread removes it. *)
Definition busy_pool : contended (Q := list_queue) (R := replay) :=
  mkContended (mkPool race_adapter (replicate 2 (Returned RDone)) 0)
    [[(0%nat, Some BeginGuard); (0%nat, None);
      (0%nat, Some (BeginGenerate 16909060 (mkReplay [] [f64_of_Z 1] 0))); (0%nat, None)];
     [(1%nat, Some (BeginRemove 16909060)); (1%nat, None)]; [(1%nat, None)]].

(** While the address is reported the feeder asks for one, and another responder
    reports one of the same network. *)
Definition busy_ips : shared_ips (R := replay) :=
  mkSharedIps (mkIpWorld (mkIpState (ip_new ex_graph (f64_of_Z 1) (compile ex_ranges) 1) 0 ex_rng [])
      (IpReturned None) [IpReturned None])
    [[FeederBegin; FeederStep; ReportBegin 0 16909061]; [ReportStep 0; FeederStep]; replicate 3 (ReportStep 0);
     [FeederStep; ReportStep 0]; [ReportStep 0]; [FeederStep]].

(** The report returns, and the feeder has been given an address in between.
    Both reports have read the score before either has written it, so that the
    network is counted up once only. *)
Example busy_report :
  match shared_result (Ret busy_ips) 16909060 with
  | Ret w => length (addresses w) = 1%nat /\ iw_reports (si_world w) = [IpReturned None]
             /\ proj1_sig <$> (Heap.values (heap (is_adapter (iw_state (si_world w)))) !! 66051) = Some (f64_of_Z 1)
  | Fault _ => False
  end.
Proof. vm_compute. split_and!; reflexivity. Qed.

Definition busy_outside : outside := mkOutside (arrive ex_rst) (mkShared 0 0 0) 5 true.

Definition busy_saturator (p : parts) : @saturator contended (outcome shared_ips) replay (list Z) :=
  saturator_new p 2 demo_completer (replicate 8 demo_turn) busy_pool (Ret busy_ips) (mkReplay [] [f64_of_Z 1] 0)
    7 4 100 1000 [10; 20] [demo_look; demo_look].

Local Instance busy_ports : PortAdapter (contended (Q := list_queue) (R := replay)) replay := contended_ports 9.
Local Instance busy_addresses : IpAdapter (outcome (shared_ips (R := replay))) := contended_ips.

Lemma busy_pool_ok : pool_ok 4 0 (cp_pool busy_pool).
Proof.
  destruct (port_new_ok (Q := list_queue) ex_pg (f64_of_Z 0) 1 4 (Range 40000 40010)) as (a & E & Hw);
    [lia|exact ex_graph_ok|vm_compute; congruence|].
  split; [|vm_compute; reflexivity]. unfold busy_pool, race_adapter. rewrite E. exact Hw.
Qed.

Lemma busy_ips_ok : ips_ok ex_ranges 1 busy_ips.
Proof.
  destruct (ip_new_inv ex_ranges ltac:(vm_compute; intuition congruence) 1 (fun _ => True) ex_graph (f64_of_Z 1)) as [Hi Hc].
  constructor; [|by repeat constructor]. constructor; [|done|by repeat constructor].
  constructor; [exact Hi|constructor|exact Hc|constructor].
Qed.

Lemma busy_sat_ok p : demo_setup = Ret (Ok p) ->
  sat_ok (PortAdapterLaws0 := contended_laws 9 4) demo_link 2048 (busy_saturator p).
Proof.
  pose proof (setup_ok (A := contended) (I := outcome shared_ips) (R := replay) (Output := list Z)
    (PortAdapterLaws0 := contended_laws 9 4) demo_link demo_link_ok demo_kernel demo_xdp 3 0 65536 12 [] ∅ demo_fds) as Hs.
  unfold demo_setup. change (c_ring_size demo_xdp) with 2 in Hs.
  destruct (setup_queue _ _ _ _ _ _ _ _) as [[[q|e] h]|f]; [|done..]. intros [= <-].
  destruct Hs as (_ & _ & Hs); [lia|by exists (2 ^ 31)|lia|lia|simpl; lia|exact demo_areas|done|].
  exact (Hs _ _ _ _ _ _ _ _ _ _ _ busy_pool_ok).
Qed.

Definition busy_turn (p : parts) := saturator_turn busy_outside (busy_saturator p) worker_new.

Lemma busy_turn_returns p : demo_setup = Ret (Ok p) ->
  exists over self' d', busy_turn p = Ret (over, self', d')
    /\ length (q_items (allocated_states (pool_adapter (cp_pool (port_adapter (sat_responder self')))))) = 4%nat.
Proof.
  assert (Hok : match demo_setup with
    | Ret (Ok p) => match busy_turn p with
        | Ret (_, self', _) => Nat.eqb (length (q_items (allocated_states (pool_adapter (cp_pool
                                 (port_adapter (sat_responder self'))))))) 4
        | Fault _ => false end
    | _ => false end = true) by (vm_compute; reflexivity).
  intros Hp. rewrite Hp in Hok. clear Hp. destruct (busy_turn p) as [[[over self'] d']|]; [|discriminate].
  exists over, self', d'. split; [reflexivity|]. by apply Nat.eqb_eq.
Qed.

Lemma interleaved_turn_witness :
  exists p over self' d', demo_setup = Ret (Ok p) /\ busy_turn p = Ret (over, self', d') /\ over = true
    /\ sat_ok (PortAdapterLaws0 := contended_laws 9 4) demo_link 2048 self'
    /\ length (q_items (allocated_states (pool_adapter (cp_pool (port_adapter (sat_responder self')))))) = 4%nat.
Proof.
  destruct demo_setup_parts as (p & Hp & Hparts). destruct (busy_turn_returns p Hp) as (over & self' & d' & E & Hn).
  assert (Hk : kernel_ok 2048 ex_globals busy_outside (busy_saturator p)).
  { apply (arrive_kernel p ex_rst busy_outside (busy_saturator p) [demo_look]); try reflexivity; [exact Hparts|].
    split; [repeat constructor; lia|vm_compute; split_and!; congruence]. }
  pose proof (interleaved_turn 9 4 ex_ranges ltac:(vm_compute; intuition congruence) 1 demo_link demo_link_ok 2048
    ex_globals ex_fits_2048 busy_outside (busy_saturator p) worker_new [] busy_ips (busy_sat_ok p Hp) Hk
    worker_new_wf eq_refl busy_ips_ok) as Ht.
  pose proof E as E'. unfold busy_turn, busy_ports, busy_addresses in E'. rewrite E' in Ht. destruct Ht as (-> & Hs & _).
  exists p, true, self', d'. split; [exact Hp|]. split; [exact E|]. split; [reflexivity|]. split; [exact Hs|exact Hn].
Defined.

End witnesses.
