(* ===== verification/Ending.v ===== *)
(** * How a session ends: [Session::start] of [controller/session.rs]

    The turns of the threads as a schedule, and the end of the session: the
    feeder stops when the time is over and raises the flag, every saturator
    sees it in its next turn, the last of them closes the channel, and the
    housekeeping thread ends when the channel is empty. *)

From S2P Require Import Prelude Float Rand Ranges Text Config Tcp Ring Umem Link Native Socket.
From S2P Require Import Prefix IpPmap Completer Sender Receiver Minecraft Xdp.
From S2P Require Import PortGraph Database Session Deque PortPmap Feeder Responder Handshake Saturator Setup Run.

(** ** Schedules *)

Section schedules.
Context {Q : Type -> Type} `{ArrayQueue Q} `{PerfectRng} `{HashIter} `{Rng R}.
Context {Db Output : Type} `{Clickhouse Db (Scanling Output)}.
Context `{KernelConsts} `{UnalignedConsts} `{Payload} `{Parser Output} `{Hash64 Output}.
Context (fuel : nat).
#[local] Instance end_ports : PortAdapter (PmapPortAdapter Q) R := pmap_ports fuel.
#[local] Existing Instance pmap_ips.

Abbreviation Running := (running (Q := Q) (R := R) (Db := Db) (Output := Output)).

(** A turn of one of the threads. *)
Inductive act : Type :=
  | TFeed (now : Z)
  | TSaturate (ix : nat) (o : outside)
  | THousekeep (t : wake (Scanling Output)).

Context (fs : Z) (g : Globals) (fc fi : Z).

Implicit Types w : Running.

Definition take_turn (a : act) (w : Running) : outcome Running :=
  match a with
  | TFeed now => feed now w
  | TSaturate ix o => saturate fuel ix o w
  | THousekeep t => housekeep fc fi t w
  end.

(** What the surroundings keep to in a turn.  The feeder takes its turns
    whatever the queues hold. *)
Definition permitted (w : Running) (a : act) : Prop :=
  match a with
  | TFeed now => anytime now w
  | TSaturate ix o => forall self over, run_threads w !! ix = Some (mkThread self over) -> kernel_ok fs g o self
  | THousekeep t => offers w t
  end.

(** The turns of [acts], one after the other, lead from one state to another. *)
Inductive schedule : Running -> list act -> Running -> Prop :=
  | schedule_nil w : schedule w [] w
  | schedule_cons w a w1 acts w2 :
      permitted w a -> take_turn a w = Ret w1 -> schedule w1 acts w2 -> schedule w (a :: acts) w2.

Lemma schedule_app w acts1 acts2 w2 :
  schedule w (acts1 ++ acts2) w2 -> exists w1, schedule w acts1 w1 /\ schedule w1 acts2 w2.
Proof.
  revert w. induction acts1 as [|a acts1 IH]; intros w Hs; [by exists w; split; [constructor|]|].
  inversion Hs; subst. edestruct IH as (w1' & ? & ?); [done|]. exists w1'. split; [by econstructor|done].
Qed.

Lemma schedule_trans w acts1 w1 acts2 w2 :
  schedule w acts1 w1 -> schedule w1 acts2 w2 -> schedule w (acts1 ++ acts2) w2.
Proof. induction 1; intros Hs; [done|]. simpl. econstructor; eauto. Qed.

Lemma permitted_step w a : permitted w a -> session_step fuel anytime fs g fc fi w (take_turn a w).
Proof. destruct a; by constructor. Qed.

Lemma schedule_reachable w0 w acts w' :
  session_reachable fuel anytime fs g fc fi w0 w -> schedule w acts w' ->
  session_reachable fuel anytime fs g fc fi w0 w'.
Proof.
  intros Hr Hs. induction Hs as [|w a w1 acts w2 Hp E _ IH]; [done|]. apply IH. eapply reach_step; [done|].
  rewrite <- E. by apply permitted_step.
Qed.

(** ** What turns leave as it is *)

(** The flag stays up, threads that have ended stay so, and the time a session
    is given does not change. *)
Definition onward (w w' : Running) : Prop :=
  (run_done w = true -> run_done w' = true)
  /\ (forall ix th, run_threads w !! ix = Some th -> th_over th = true -> run_threads w' !! ix = Some th)
  /\ length (run_threads w') = length (run_threads w)
  /\ f_start (run_feeder w') = f_start (run_feeder w) /\ f_duration (run_feeder w') = f_duration (run_feeder w).

#[local] Instance onward_preorder : PreOrder onward.
Proof.
  split; [by intros w; split_and!|]. intros w1 w2 w3 (H1' & H2' & H3' & H4' & H5') (? & ? & ? & ? & ?).
  split_and!; eauto; congruence.
Qed.

Lemma feeder_tick_times env now (f : Feeder R) (s : strategies Q) q over f' s' q' :
  feeder_tick env now f s q = Ret (over, f', s', q') -> f_start f' = f_start f /\ f_duration f' = f_duration f.
Proof.
  unfold feeder_tick. destruct (_ <=? _); [by intros [= _ <- _ _]|].
  destruct (feed_loop _ _ _ _ _ _ _) as [x|]; [|done]. cbn [mbind outcome_bind].
  destruct (fed_batch x) as [[rb eb]|]; [|by intros [= _ <- _ _]].
  destruct (batch _ _ _) as [q1|]; [|done]. by intros [= _ <- _ _].
Qed.

(** A turn of a saturator is its last when the flag is up. *)
Lemma saturator_turn_over o (self : saturator) d over self' d' :
  saturator_turn (A := PmapPortAdapter Q) (I := PmapIpAdapter) (R := R) (Output := Output) o self d
    = Ret (over, self', d') -> over = o_done o.
Proof.
  unfold saturator_turn. destruct (scanner_tick _ _ _ _ _ _) as [[[e n] d1]|]; [|done]. cbn [mbind outcome_bind].
  destruct (tick _) as [[r resp]|]; [|done]. cbn [mbind outcome_bind].
  destruct (completer_tick _ _ _) as [b c]. by intros [= <- _ _].
Qed.

Lemma take_turn_onward a w w' : take_turn a w = Ret w' -> onward w w'.
Proof.
  destruct a as [now|ix o|t]; cbn [take_turn].
  - unfold feed. destruct (run_done w) eqn:Ed; [by intros [= <-]|].
    destruct (feeder_tick _ _ _ _ _) as [[[[over f] s] q]|] eqn:Ef; [|done]. intros [= <-].
    apply feeder_tick_times in Ef as [? ?]. unfold onward. rewrite Ed. by split_and!.
  - unfold saturate. destruct (run_threads w !! ix) as [[self []]|] eqn:Ex; [by intros [= <-]| |by intros [= <-]].
    destruct (saturator_turn _ _ _) as [[[over self'] d]|]; [|done]. intros [= <-]. unfold onward. cbn.
    split_and!; [done| |apply length_insert|done..]. intros ix' th Hth Hov.
    destruct (decide (ix' = ix)) as [->|?]; [rewrite Ex in Hth; by simplify_eq|by rewrite list_lookup_insert_ne].
  - unfold housekeep. destruct (run_writer w); [|by intros [= <-]]. destruct (wake_up _ _ _ _); [|by intros [= <-]].
    destruct (PortPmap.expire _ _ _) as [[exp a]|]; [|done]. by intros [= <-].
Qed.

Lemma schedule_onward w acts w' : schedule w acts w' -> onward w w'.
Proof. induction 1 as [|w a w1 acts w2 _ E _ IH]; [done|]. etrans; [by eapply take_turn_onward|done]. Qed.

(** ** The end of each thread *)

Lemma feed_over now w w' :
  f_duration (run_feeder w) <= now - f_start (run_feeder w) -> feed now w = Ret w' -> run_done w' = true.
Proof.
  intros Ht. unfold feed. destruct (run_done w) eqn:Ed; [by intros [= <-]|]. unfold feeder_tick.
  rewrite (proj2 (Z.leb_le _ _) Ht). by intros [= <-].
Qed.

Lemma saturate_over ix o w w' :
  run_done w = true -> (ix < length (run_threads w))%nat -> saturate fuel ix o w = Ret w' ->
  exists th, run_threads w' !! ix = Some th /\ th_over th = true.
Proof.
  intros Hd [[self over] Ex]%lookup_lt_is_Some. unfold saturate. rewrite Ex.
  destruct over; [intros [= <-]; by eexists|].
  destruct (saturator_turn _ _ _) as [[[over self'] d]|] eqn:Es; [|done]. intros [= <-]. cbn.
  apply saturator_turn_over in Es as ->. eexists. split; [apply list_lookup_insert_eq; by eapply lookup_lt_Some|exact Hd].
Qed.

(** All saturators have ended. *)
Definition all_over (w : Running) : Prop := Forall (fun th => th_over th = true) (run_threads w).

Lemma schedule_all_over w acts w' :
  run_done w = true -> schedule w acts w' ->
  (forall ix, (ix < length (run_threads w))%nat -> exists o, TSaturate ix o ∈ acts) -> all_over w'.
Proof.
  intros Hd Hs Hall. apply Forall_lookup_2. intros ix th Hth.
  pose proof (schedule_onward _ _ _ Hs) as (_ & _ & Hl & _). apply lookup_lt_Some in Hth as Hix. rewrite Hl in Hix.
  destruct (Hall ix Hix) as (o & (acts1 & acts2 & ->)%list_elem_of_split).
  apply schedule_app in Hs as (w1 & H1' & H2'). inversion H2' as [|? ? w2 ? ? _ E Hs2]; subst.
  pose proof (schedule_onward _ _ _ H1') as (Hd1 & _ & Hl1 & _).
  destruct (saturate_over ix o w1 w2) as (th' & Hth' & Hov); [auto|lia|done|].
  pose proof (schedule_onward _ _ _ Hs2) as (_ & Hk & _). rewrite (Hk ix th' Hth' Hov) in Hth. by simplify_eq.
Qed.

(** A wake-up of the housekeeping thread that is not the timer. *)
Definition eventful (a : act) : bool :=
  match a with
  | THousekeep t => match w_event t with Housekeeping => false | _ => true end
  | _ => false
  end.

(** Once the saturators have ended, only the housekeeping thread moves on, and
    not when it has ended too. *)
Lemma all_ended a w w' self :
  run_done w = true -> all_over w -> run_writer w = inr self -> take_turn a w = Ret w' -> w' = w.
Proof.
  intros Hd Hov Ew. destruct a as [now|ix o|t]; cbn.
  - unfold feed. rewrite Hd. by intros [= <-].
  - unfold saturate. destruct (run_threads w !! ix) as [[s []]|] eqn:Ex; [by intros [= <-]| |by intros [= <-]].
    by pose proof (Forall_lookup_1 _ _ _ _ Hov Ex).
  - unfold housekeep. rewrite Ew. by intros [= <-].
Qed.

(** It receives [n] answers at least. *)
Definition received_more (n : nat) w w' : Prop :=
  match run_writer w' with
  | inr _ => True
  | inl _ => run_sent w' = run_sent w /\ (run_received w + n <= run_received w' <= length (run_sent w))%nat
  end.

Lemma last_turn a w w' :
  run_done w = true -> all_over w -> permitted w a -> take_turn a w = Ret w' ->
  (run_received w <= length (run_sent w))%nat -> received_more (if eventful a then 1 else 0) w w'.
Proof.
  intros Hd Hov Hp E Hlen. destruct (run_writer w) as [self|self] eqn:Ew.
  2:{ apply (all_ended a w w' self) in E as ->; [|done..]. unfold received_more. by rewrite Ew. }
  unfold received_more. destruct a as [now|ix o|t]; cbn in E.
  - unfold feed in E. rewrite Hd in E. simplify_eq. rewrite Ew. simpl. split; [done|lia].
  - assert (w' = w) as ->; [|rewrite Ew; simpl; split; [done|lia]].
    unfold saturate in E. destruct (run_threads w !! ix) as [[s []]|] eqn:Ex; [by simplify_eq| |by simplify_eq].
    by pose proof (Forall_lookup_1 _ _ _ _ Hov Ex).
  - unfold housekeep in E. rewrite Ew in E. unfold wake_up in E. cbn in Hp. unfold offers in Hp. unfold eventful.
    destruct (w_event t) as [row more| |] eqn:Et; [| |by simplify_eq];
      destruct (printer_tick _ _ _ _) as [[[? ?] ?] ?]; destruct (PortPmap.expire _ _ _) as [[exp a]|]; try done;
      cbn in E; simplify_eq; unfold arrived; cbn; rewrite Et; (split; [done|]); simpl; [|lia].
    apply prefix_length in Hp. rewrite length_drop in Hp. simpl in Hp. rewrite app_nil_r. simpl. lia.
Qed.

Lemma onward_over w w' : all_over w -> onward w w' -> all_over w'.
Proof.
  intros Hov (_ & Hk & Hl & _). apply Forall_lookup_2. intros ix th Hth. apply lookup_lt_Some in Hth as Hix.
  rewrite Hl in Hix. apply lookup_lt_is_Some in Hix as [th' Hth'].
  pose proof (Forall_lookup_1 _ _ _ _ Hov Hth') as Hov'. rewrite (Hk ix th' Hth' Hov') in Hth. by simplify_eq.
Qed.

Lemma last_turns w acts w' :
  run_done w = true -> all_over w -> schedule w acts w' -> (run_received w <= length (run_sent w))%nat ->
  received_more (length (filter (fun a => eventful a = true) acts)) w w'.
Proof.
  intros Hd Hov Hs. induction Hs as [w|w a w1 acts w2 Hp E Hs IH]; intros Hlen.
  { unfold received_more. destruct (run_writer w); simpl; [split; [done|lia]|done]. }
  pose proof (take_turn_onward a w w1 E) as Hon. pose proof (last_turn a w w1 Hd Hov Hp E Hlen) as H1'.
  pose proof (onward_over w w1 Hov Hon) as Hov1. assert (Hd1 : run_done w1 = true) by (by apply Hon).
  specialize (IH Hd1 Hov1). unfold received_more in *. destruct (run_writer w1) as [self|self] eqn:Ew.
  - destruct H1' as [Es H1']. rewrite Es in IH. specialize (IH ltac:(lia)).
    destruct (run_writer w2); [|done]. destruct IH as [Es2 IH]. split; [congruence|].
    rewrite filter_cons. destruct (eventful a) eqn:Ea; case_decide; simpl in *; try done; lia.
  - destruct (run_writer w2) eqn:Ew2; [|done]. exfalso. clear IH H1' E.
    induction Hs as [w1|w1 a1 w3 acts w4 _ E1 _ IH]; [congruence|].
    apply (all_ended a1 w1 w3 self) in E1 as ->; [|done..]. by apply IH.
Qed.

(** The housekeeping thread always has something to do: the next answer, or to
    end. *)
Lemma never_stuck w :
  all_over w -> (run_received w <= length (run_sent w))%nat ->
  exists t, permitted w (THousekeep t) /\ eventful (THousekeep t) = true.
Proof.
  intros Hov Hlen. destruct (drop (run_received w) (run_sent w)) as [|row rest] eqn:E.
  - exists (mkWake Closed false 0 0 0 0 0). split; [|done]. split; [done|].
    apply (f_equal length) in E. rewrite length_drop in E. simpl in E. lia.
  - exists (mkWake (Received row []) false 0 0 0 0 0). split; [|done]. cbn. rewrite E. by exists rest.
Qed.

(** What a session starts with. *)
Lemma session_start_times (c : Config) timeout feeder_rng responder_rng (db : Db) seed_ports ranges sd now seats
    (w0 : Running) :
  session_start c timeout feeder_rng responder_rng db seed_ports ranges sd now seats = Ret (Ok w0) ->
  length (run_threads w0) = length seats /\ f_start (run_feeder w0) = now
  /\ f_duration (run_feeder w0) = c_duration (c_session c).
Proof.
  unfold session_start. destruct (build_graph _ _ _); [|done]. destruct (port_new _ _ _ _ _); [|done].
  cbn [mbind outcome_bind]. destruct (build_prefix_graph db); [|done]. intros [= <-]. cbn.
  split_and!; [apply length_fmap|done..].
Qed.

(** ** Theorem *)

Section theorem.
Context `{!ClickhouseLaws Db (Scanling Output)} (db0 : Db).

(** C4: a session ends.  However the turns of the threads are interleaved and
    whatever the queues hold, as long as the turns return: once the feeder has
    had a turn after the time of the session was over and every saturator has
    had a turn after that, all saturators have ended; from then on the
    housekeeping thread always has an answer to receive or ends, and it has ended
    when it has woken up, the timer not counted, once more than there were
    answers left in the channel. *)
Theorem session_ends (c : Config) (timeout : Z) (feeder_rng responder_rng : Z -> R) (seed_ports : list Z)
    (ranges : CompiledRanges) (sd now later : Z) (seats : list seat) (w0 w : Running) (before after : list act) :
  session_start c timeout feeder_rng responder_rng db0 seed_ports ranges sd now seats = Ret (Ok w0) ->
  schedule w0 (before ++ TFeed later :: after) w -> c_duration (c_session c) <= later - now ->
  (forall ix, (ix < length seats)%nat -> exists o, TSaturate ix o ∈ after) ->
  run_done w = true /\ all_over w
  /\ forall acts w', schedule w acts w' ->
       all_over w'
       /\ (exists t, permitted w' (THousekeep t) /\ eventful (THousekeep t) = true)
       /\ (length (run_sent w) - run_received w < length (filter (fun a => eventful a = true) acts) ->
           exists self, run_writer w' = inr self)%nat.
Proof.
  intros E Hs Htime Hall.
  assert (Hok : forall w1 acts, schedule w0 acts w1 -> (run_received w1 <= length (run_sent w1))%nat).
  { intros w1 acts Hs1. pose proof (session_start_answers db0 c timeout feeder_rng responder_rng seed_ports ranges sd
      now seats w0 E) as Ha.
    eapply session_answers_ok in Ha as [[Hlen _] _]; [exact Hlen|].
    eapply schedule_reachable; [apply reach_start|exact Hs1]. }
  pose proof Hs as (w1 & Hs1 & Hs2)%schedule_app. inversion Hs2 as [|? ? w2 ? ? _ Ef Hs3]; subst.
  pose proof (schedule_onward _ _ _ Hs1) as (_ & _ & Hn1 & Hst1 & Hdu1).
  apply session_start_times in E as (Hn0 & Hst0 & Hdu0).
  apply feed_over in Ef as Hd2; [|lia]. apply take_turn_onward in Ef as (_ & _ & Hn2 & _).
  assert (Hov : all_over w) by (eapply schedule_all_over; [exact Hd2|exact Hs3|]; intros ix ?; apply Hall; lia).
  assert (Hd : run_done w = true) by (exact (proj1 (schedule_onward _ _ _ Hs3) Hd2)).
  split; [done|]. split; [done|]. intros acts w' Hs'.
  assert (Hov' : all_over w') by (eapply onward_over; [exact Hov|by eapply schedule_onward]).
  split; [done|]. split.
  { apply never_stuck; [done|]. exact (Hok _ _ (schedule_trans _ _ _ _ _ Hs Hs')). }
  intros Hlt. pose proof (last_turns w acts w' Hd Hov Hs' (Hok _ _ Hs)) as Hm. unfold received_more in Hm.
  destruct (run_writer w') as [self|self]; [lia|by exists self].
Qed.

End theorem.
End schedules.

(** ** Witness *)

Section witnesses.
Local Existing Instances pmap_ips three_bytes four_bytes no_hash ex_unaligned demo_consts linux linux_laws.
Local Existing Instances demo_server demo_server_laws.

(** Nothing arrives: three addresses are probed, the time is over, the saturator
    sends what is queued and ends, and so does the housekeeping thread. *)
Definition quiet_seat (p : parts) : seat :=
  mkSeat p (mkShared 0 0 0) (replicate 8 demo_turn) [10; 20] [mkLook (replicate 2 (mkDesc 0 0 0)) 0 0 0 true].

Definition quiet_outside : outside := mkOutside id (mkShared 0 0 0) 2005 true.

Definition quiet_start (p : parts) : outcome (result unit (running (Q := list_queue) (R := replay))) :=
  session_start demo_config 50 demo_rng demo_rng demo_db [25565] (compile ex_ranges) 1 0 [quiet_seat p].

Abbreviation Demo := (running (Q := list_queue) (R := replay) (Db := list (Z * Z)) (Output := list Z)).

(** Where the session is after each turn. *)
Definition quiet_run (p : parts) : outcome (Demo * Demo * Demo * Demo) :=
  match quiet_start p with
  | Ret (Ok w0) =>
      w1 ← feed 10 w0;
      w2 ← feed 2000 w1;
      w3 ← saturate 9 0 quiet_outside w2;
      Ret (w0, w1, w2, w3)
  | _ => Fault Panic
  end.

Lemma quiet_run_returns p : demo_setup = Ret (Ok p) ->
  exists w0 w1 w2 w3, quiet_run p = Ret (w0, w1, w2, w3) /\ run_received w3 = length (run_sent w3) /\ length (run_sent w3) = 0%nat.
Proof.
  assert (Hok : match demo_setup with
    | Ret (Ok p) => match quiet_run p with
                    | Ret (_, _, _, w3) => run_received w3 = length (run_sent w3) /\ length (run_sent w3) = 0%nat
                    | _ => False end
    | _ => False end).
  { vm_compute. repeat split; intros; discriminate. }
  intros Hp. rewrite Hp in Hok. clear Hp. destruct (quiet_run p) as [[[[w0 w1] w2] w3]|]; [|by destruct Hok].
  exists w0, w1, w2, w3. split; [reflexivity|exact Hok].
Qed.

(** Nothing is written to memory, and there is nothing to receive. *)
Lemma quiet_kernel p (self : @saturator (PmapPortAdapter list_queue) PmapIpAdapter replay (list Z)) :
  demo_parts p -> receiver (sat_responder self) = p_receiver p ->
  looks (sat_responder self) = seat_looks (quiet_seat p) -> kernel_ok 2048 ex_globals quiet_outside self.
Proof.
  intros (Hrcv & _) Hr Hlk u c e Hfs Hu. split_and!; [exact Hfs|reflexivity|reflexivity|].
  intros t ts Ht. simpl in Ht. rewrite Hlk in Ht. injection Ht as <- <-. simpl. rewrite Hr, Hrcv. split; [reflexivity|].
  intros gd rcv E. vm_compute in E. discriminate.
Qed.

(** The thread a session is started with. *)
Lemma quiet_thread p w0 : quiet_start p = Ret (Ok w0) ->
  exists self, run_threads w0 = [mkThread self false] /\ receiver (sat_responder self) = p_receiver p
    /\ looks (sat_responder self) = seat_looks (quiet_seat p).
Proof.
  unfold quiet_start, session_start. destruct (build_graph _ _ _); [|discriminate].
  destruct (port_new _ _ _ _ _); [|discriminate]. cbn [mbind outcome_bind].
  destruct (build_prefix_graph _); [|discriminate]. intros [= <-]. eexists. split; [reflexivity|]. split; reflexivity.
Qed.

Lemma feed_threads now (w w' : Demo) : feed now w = Ret w' -> run_threads w' = run_threads w.
Proof.
  unfold feed. destruct (run_done w); [by intros [= <-]|].
  destruct (feeder_tick _ _ _ _ _) as [[[[over f] s] q]|]; [|discriminate]. by intros [= <-].
Qed.

Abbreviation quiet_schedule := (schedule (Q := list_queue) (R := replay) (Db := list (Z * Z)) 9 2048 ex_globals 2 15).
Abbreviation quiet_acts := [TFeed 10; TFeed 2000; TSaturate 0 quiet_outside].

Lemma quiet_schedule_ok p : demo_setup = Ret (Ok p) -> demo_parts p ->
  exists w0 w3, quiet_start p = Ret (Ok w0) /\ quiet_schedule w0 quiet_acts w3 /\ run_received w3 = length (run_sent w3) /\ length (run_sent w3) = 0%nat.
Proof.
  intros Hp Hparts. destruct (quiet_run_returns p Hp) as (w0 & w1 & w2 & w3 & Hrun & Hsent).
  unfold quiet_run in Hrun. destruct (quiet_start p) as [[w0'|]|] eqn:E0; [|discriminate..].
  destruct (feed 10 w0') as [w1'|] eqn:E1; [|discriminate]. cbn [mbind outcome_bind] in Hrun.
  destruct (feed 2000 w1') as [w2'|] eqn:E2; [|discriminate]. cbn [mbind outcome_bind] in Hrun.
  destruct (saturate 9 0 quiet_outside w2') as [w3'|] eqn:E3; [|discriminate]. injection Hrun as -> -> -> ->.
  exists w0, w3. split; [reflexivity|]. split; [|exact Hsent].
  apply (schedule_cons _ _ _ _ _ _ _ w1); [exact Logic.I|exact E1|].
  apply (schedule_cons _ _ _ _ _ _ _ w2); [exact Logic.I|exact E2|].
  apply (schedule_cons _ _ _ _ _ _ _ w3); [|exact E3|constructor].
  intros self over Hth. rewrite (feed_threads _ _ _ E2), (feed_threads _ _ _ E1) in Hth.
  destruct (quiet_thread p w0 E0) as (self' & Eth & Hrcv & Hlk). rewrite Eth in Hth. injection Hth as <- _.
  exact (quiet_kernel p self' Hparts Hrcv Hlk).
Qed.

Lemma session_ends_witness :
  exists p w0 w w', demo_setup = Ret (Ok p) /\ quiet_start p = Ret (Ok w0) /\ quiet_schedule w0 quiet_acts w
    /\ all_over w /\ housekeep 2 15 (mkWake Closed false 2010 2010 2010 0 0) w = Ret w'
    /\ exists self, run_writer w' = inr self.
Proof.
  destruct demo_setup_parts as (p & Hp & Hparts). destruct (quiet_schedule_ok p Hp Hparts) as (w0 & w & E & Hs & Hrec & Hsent).
  destruct (session_ends 9 2048 ex_globals 2 15 demo_db demo_config 50 demo_rng demo_rng [25565] (compile ex_ranges) 1 0 2000
    [quiet_seat p] w0 w [TFeed 10] [TSaturate 0 quiet_outside] E Hs) as (_ & Hov & Hend); [simpl; lia| |].
  { intros ix Hix. exists quiet_outside. simpl in Hix. assert (ix = 0%nat) as -> by lia. left. }
  assert (exists w', housekeep 2 15 (mkWake Closed false 2010 2010 2010 0 0) w = Ret w') as [w' Hw'].
  { unfold housekeep. destruct (run_writer w); eexists; reflexivity. }
  exists p, w0, w, w'. split; [exact Hp|]. split; [exact E|]. split; [exact Hs|]. split; [exact Hov|].
  split; [exact Hw'|]. clear Hp.
  refine (proj2 (proj2 (Hend [THousekeep (mkWake Closed false 2010 2010 2010 0 0)] w' _)) _).
  - eapply schedule_cons; [split; [exact Hov|exact Hrec]|exact Hw'|constructor].
  - rewrite Hsent. simpl. lia.
Defined.

End witnesses.
