(* ===== verification/Main.v ===== *)
(** * The program: [main.rs], [Controller::new] of [controller/mod.rs]

    The start-up as a whole, from the limits of the process to the saturators
    of all queues, and the loop that runs one session after the other on
    them. *)

From Stdlib Require Import SpecFloat.
From S2P Require Import Prelude Float Rand Ranges Text Config Tcp Ring Umem Link Native Socket.
From S2P Require Import Prefix IpPmap Completer Sender Receiver Minecraft Xdp.
From S2P Require Import PortGraph Database Session Deque PortPmap Feeder Responder Handshake Saturator Setup Run.

(** ** [Controller::new] *)

(** How long a probe is waited for: as long as the pool of states lasts at the
    full rate, and not longer than a session. *)
Definition controller_timeout (c : Config) : outcome Z :=
  t ← from_secs_f64 (f64_div (f64_of_Z (c_max_in_flight (c_strategy c))) (c_max_rate (c_controller c)));
  Ret (Z.min t (c_duration (c_session c))).

Record Controller (Db : Type) : Type := mkController {
  ct_shared : SharedData;
  ct_database : Db;
  ct_saturators : list parts }.
Arguments mkController {Db} _ _ _.
Arguments ct_shared {Db} _.
Arguments ct_database {Db} _.
Arguments ct_saturators {Db} _.

(** What the machine answers at the start: the request for the queues, the
    number of processors, whether the filter loads, its logger starts and it
    attaches, whether its map of sockets can be used, the addresses of mappings, the sizes of pages, and
    what is in [/proc/meminfo]. *)
Record machine : Type := mkMachine {
  mc_limit : result unit unit;
  mc_ifnamsiz : Z;
  mc_sockets : Z * Z;
  mc_ioctl : list Z -> Native.Queues -> option Native.Queues;
  mc_parallelism : result unit Z;
  mc_load : result unit unit;
  mc_logger : result unit unit;
  mc_attach : result unit unit;
  mc_socks : result unit unit;
  mc_mmap : nat -> option Z;
  mc_page_size : Z;
  mc_meminfo : str;
  mc_system : system;
  mc_kernel : kernel }.

Section boot.
Context {Db : Type} `{KernelConsts} `{UnalignedConsts} `{LibcConsts} (m : machine).

Definition controller_new (c : Config) (umems : list (Z * Umem)) (db : Db)
    : outcome (result unit (Controller Db) * list Socket.entry) :=
  match interface_index ← sys_index (mc_system m);
        l ← find_link (mc_system m) (c_interface (c_controller c));
        _ ← mc_attach m;
        Ok (interface_index, l) with
  | Err e => Ret (Err e, [])
  | Ok (interface_index, l) =>
      timeout ← controller_timeout c;
      let shared := mkSharedData (source_ip l) (gateway l) (interface l) c timeout in
      match mc_socks m with
      | Err e => Ret (Err e, [])
      | Ok _ =>
          '(r, h) ← setup_queues (mc_kernel m) (c_xdp c) interface_index l 0 umems [];
          Ret (saturators ← r; Ok (mkController shared db saturators), h)
      end
  end.

(** ** [main] up to the loop *)

(** The size that mappings are rounded to; without the size of huge pages the
    program panics. *)
Definition align_size (c : XdpConfig) : outcome Z :=
  if c_huge_pages c then
    match parse_hugepage_size (mc_meminfo m) with Some size => Ret size | None => Fault Panic end
  else Ret (mc_page_size m).

(** One area per queue, or the error of the first mapping that fails. *)
Fixpoint umems_new (ring_size page : Z) (queues : list nat) : result unit (list (Z * Umem)) :=
  match queues with
  | [] => Ok []
  | i :: queues =>
      base ← ok_or (mc_mmap m i);
      rest ← umems_new ring_size page queues;
      Ok ((base, queue_umem ring_size page) :: rest)
  end.

(** What the loop works with. *)
Record program : Type := mkProgram {
  pg_controller : Controller Db;
  pg_excludes : Ipv4Ranges;
  pg_globals : Globals;
  pg_payload : list Z;
  pg_seed_ports : list Z }.

(** The checks before memory is mapped; [config] and [excludes] are the files
    as they were read. *)
Definition prepare (config : result unit Config) (excludes : result unit str)
    : result unit (Config * Ipv4Ranges * Z) :=
  _ ← mc_limit m;
  c ← config;
  text ← excludes;
  ex ← Text.parse text;
  guard ← guard_new (mc_ifnamsiz m) (fst (mc_sockets m)) (snd (mc_sockets m)) (c_interface (c_controller c));
  q ← Native.queues (mc_ioctl m) guard;
  parallelism ← mc_parallelism m;
  usable ← ok_or (usable_queue_count (q_combined (q_current q)) parallelism);
  _ ← mc_load m;
  _ ← mc_logger m;
  Ok (c, ex, usable).

Definition boot `{HashIter} (config : result unit Config) (excludes : result unit str) (db : Db)
    : outcome (result unit program * list Socket.entry) :=
  match prepare config excludes with
  | Err e => Ret (Err e, [])
  | Ok (c, ex, usable) =>
      let g := mkGlobals (start (c_source_port (c_controller c))) (last (c_source_port (c_controller c))) usable in
      payload ← build_latest_request (c_host (c_ping c)) (c_port (c_ping c)) (c_protocol_version (c_ping c));
      let seeds := seed_ports (c_seed_ports (c_strategy c)) in
      page ← align_size (c_xdp c);
      match umems_new (c_ring_size (c_xdp c)) page (seq 0 (Z.to_nat usable)) with
      | Err e => Ret (Err e, [])
      | Ok umems =>
          '(r, h) ← controller_new c umems db;
          Ret (ct ← r; Ok (mkProgram ct ex g payload seeds), h)
      end
  end.

End boot.
Arguments mkProgram {Db} _ _ _ _ _.
Arguments pg_controller {Db} _.
Arguments pg_excludes {Db} _.
Arguments pg_globals {Db} _.
Arguments pg_payload {Db} _.
Arguments pg_seed_ports {Db} _.
Arguments program Db : clear implicits.

(** ** The loop *)

Section loop.
Context {Q : Type -> Type} `{ArrayQueue Q} `{PerfectRng} `{HashIter} `{Rng R}.
Context {Db : Type} `{Clickhouse Db (Scanling (list Z))}.
Context `{KernelConsts} `{UnalignedConsts} `{SerdeJson} `{Hash64 (list Z)}.
Context (fuel : nat) (feeder_rng responder_rng : Z -> R) (pg : program Db).

(** [impl Payload for T: Deref<Target = [u8]>]. *)
#[local] Instance bytes_payload : Payload := {| build _ _ := Ok (pg_payload pg) |}.
#[local] Instance loop_ports : PortAdapter (PmapPortAdapter Q) R := pmap_ports fuel.
#[local] Existing Instance pmap_ips.

Abbreviation Running := (running (Q := Q) (R := R) (Db := Db) (Output := list Z)).

(** The random choices of a session, and what its threads are given. *)
Record choice : Type := mkChoice {
  ch_rng : R;
  ch_seed : Z;
  ch_now : Z;
  ch_seats : list seat }.

(** [controller.session(..)] and the start of the session, for the choice made
    by the generator. *)
Definition session_of (ct : Controller Db) (ch : choice) : outcome (result unit Running) :=
  let c := sh_config (ct_shared ct) in
  let '(selector, _) := next_selector (c_rescan_epsilon (c_rescan (c_session c)))
                          (c_max_count (c_rescan (c_session c))) (ch_rng ch) in
  r ← session (ct_database ct) (pg_excludes pg) selector;
  match r with
  | Err e => Ret (Err e)
  | Ok ranges =>
      session_start c (sh_timeout (ct_shared ct)) feeder_rng responder_rng (ct_database ct) (pg_seed_ports pg)
        ranges (ch_seed ch) (ch_now ch) (ch_seats ch)
  end.

(** The threads are given the saturators of the controller. *)
Definition seated (ct : Controller Db) (ch : choice) : Prop := seat_parts <$> ch_seats ch = ct_saturators ct.

(** The recommendations made from the database fit in memory. *)
Definition fits (ct : Controller Db) : Prop :=
  forall graph, build_graph (ct_database ct) (pg_seed_ports pg)
                  (c_catchall_threshold (c_strategy (sh_config (ct_shared ct)))) = Ok graph -> graph_ok graph.

(** The turns of a session of this program; [may] says which turns of the feeder
    are looked at. *)
Definition turns (may : Z -> Running -> Prop) (ct : Controller Db) : Running -> outcome Running -> Prop :=
  session_step fuel may 2048 (pg_globals pg) (c_flush_capacity (c_db (sh_config (ct_shared ct))))
    (c_flush_interval (c_db (sh_config (ct_shared ct)))).
Definition runs_to (may : Z -> Running -> Prop) (ct : Controller Db) : Running -> Running -> Prop :=
  session_reachable fuel may 2048 (pg_globals pg) (c_flush_capacity (c_db (sh_config (ct_shared ct))))
    (c_flush_interval (c_db (sh_config (ct_shared ct)))).

(** One round: an error leaves the controller as it is; after a session the
    saturators are what their threads gave back, in the order of the handles,
    and the database is what the writer left. *)
Inductive round (ct : Controller Db) : Controller Db -> Prop :=
  | round_failed ch e : seated ct ch -> fits ct -> session_of ct ch = Ret (Err e) -> round ct ct
  | round_done ch w0 w self :
      seated ct ch -> fits ct -> session_of ct ch = Ret (Ok w0) -> runs_to anytime ct w0 w ->
      run_done w = true -> Forall (fun th => th_over th = true) (run_threads w) -> run_writer w = inr self ->
      round ct (mkController (ct_shared ct) (wr_db self) ((fun th => into_parts (th_saturator th)) <$> run_threads w)).

End loop.

(** ** Lemmas *)

(** The ranges of a session are in order. *)
Lemma session_ranges {Db Row} `{ClickhouseLaws Db Row} (db : Db) ex selector :
  starts_sorted 0 (inner ex) ->
  match session db ex selector with
  | Ret (Ok ranges) => exists r, ranges = compile r /\ ordered_from 0 (inner r)
  | Ret (Err _) => unanswered selector db
  | Fault _ => False
  end.
Proof.
  intros Hex. unfold session. pose proof (select_spec selector db) as Hs.
  destruct (select selector db) as [r|[]]; [|done]. destruct Hs as [Ho _].
  destruct (exclude_ok 0 0 r ex) as (r' & -> & Ho' & _); [lia..|done|done|]. by exists r'.
Qed.

(** The request is as long as the host name and at most 21 bytes. *)
Lemma request_length host port version :
  zlen host < 2 ^ 30 -> - 2 ^ 31 <= version < 2 ^ 31 ->
  exists bytes, build_latest_request host port version = Ret bytes /\ zlen bytes <= zlen host + 21.
Proof.
  intros Hh Hv. unfold build_latest_request.
  pose proof (varint_length version). pose proof (varint_length (zlen host)).
  assert (Hi : forall n, 0 <= n < 2 ^ 31 -> i32_of n = n) by (intros n Hn; rewrite i32_of_spec by lia; case_cmp).
  rewrite write_varint_ok by done. cbn [mbind outcome_bind].
  rewrite Hi, write_varint_ok by (unfold in_i32; lia). cbn [mbind outcome_bind]. set (buffer := (_ ++ host) ++ _).
  assert (Hlen : zlen buffer <= zlen host + 14) by (unfold buffer; rewrite !length_app; simpl; lia).
  clearbody buffer. rewrite Hi, write_varint_ok by (unfold in_i32; lia). eexists. split; [done|].
  pose proof (varint_length (zlen buffer)). rewrite app_nil_l, !length_app. simpl. lia.
Qed.

(** ** What a configuration and a machine must offer *)

Record config_ok (c : Config) : Prop := {
  co_ring : 0 < c_ring_size (c_xdp c);
  co_power : (c_ring_size (c_xdp c) | 2 ^ 32);
  co_memory : 3 * c_ring_size (c_xdp c) * 2048 < 2 ^ 32;
  co_batch : 0 <= c_rx (c_batches (c_xdp c)) <= c_ring_size (c_xdp c);
  co_pool : 0 < c_max_in_flight (c_strategy c);
  co_ports : port_range_ok (c_source_port (c_controller c));
  co_host : zlen (c_host (c_ping c)) <= 1900;
  co_version : - 2 ^ 31 <= c_protocol_version (c_ping c) < 2 ^ 31;
  co_timeout : exists t, controller_timeout c = Ret t }.

Record machine_ok `{LibcConsts} (m : machine) (c : Config) : Prop := {
  mo_system : system_ok (mc_system m);
  mo_queues name q q' : mc_ioctl m name q = Some q' -> in_u32 (q_combined (q_current q'));
  mo_fds : fds_ok (mc_kernel m);
  mo_rings fd kind : zlen (k_descs (mc_kernel m) fd kind) = c_ring_size (c_xdp c)
                     /\ zlen (k_addrs (mc_kernel m) fd kind) = c_ring_size (c_xdp c);
  mo_page : exists p, 0 <= p < 63 /\ align_size m (c_xdp c) = Ret (2 ^ p) }.

Definition link_of (s : SharedData) : link := mkLink (sh_gateway s) (sh_interface s) (sh_source_ip s).

Section proofs.
Context {Q : Type -> Type} `{ArrayQueue Q} `{PerfectRng} `{HashIter} `{Rng R}.
Context {Db : Type} `{ClickhouseLaws Db (Scanling (list Z))}.
Context `{KernelConsts} `{UnalignedConsts} `{LibcLaws} `{SerdeJson} `{Hash64 (list Z)}.
Context (fuel : nat) (feeder_rng responder_rng : Z -> R).

#[local] Existing Instance pmap_ips.
#[local] Instance proof_ports : PortAdapter (PmapPortAdapter Q) R := pmap_ports fuel.

Abbreviation capacity_of c := (Z.to_nat (c_max_in_flight (c_strategy c))).

(** The parts of all queues are in order. *)
Definition parts_all (s : SharedData) (ps : list parts) : Prop :=
  Forall (parts_ok (Q := Q) (R := R) (Output := list Z) fuel (capacity_of (sh_config s)) (link_of s) 2048
            (c_ring_size (c_xdp (sh_config s)))) ps.

(** A program that was started. *)
Record program_ok (pg : program Db) : Prop := {
  po_config : config_ok (sh_config (ct_shared (pg_controller pg)));
  po_link : link_ok (link_of (ct_shared (pg_controller pg)));
  po_excludes : starts_sorted 0 (inner (pg_excludes pg));
  po_payload : zlen (pg_payload pg) <= 1921;
  po_parts : parts_all (ct_shared (pg_controller pg)) (ct_saturators (pg_controller pg)) }.

(** A session of a started program either starts, or the database failed; in
    a session what its threads hold stays in order, and nothing faults as long as
    the batches fit. *)
Lemma session_of_ok (pg : program Db) (ct : Controller Db) (ch : choice) :
  program_ok pg -> ct_shared ct = ct_shared (pg_controller pg) -> parts_all (ct_shared ct) (ct_saturators ct) ->
  seated ct ch -> fits pg ct ->
  match session_of (Q := Q) feeder_rng responder_rng pg ct ch with
  | Ret (Ok w0) => length (run_threads w0) = length (ct_saturators ct)
      /\ (forall w, runs_to fuel pg anytime ct w0 w ->
           parts_all (ct_shared ct) ((fun th => into_parts (th_saturator th)) <$> run_threads w))
      /\ (forall w o f, runs_to fuel pg batch_fits ct w0 w -> turns fuel pg batch_fits ct w o -> o = Fault f ->
           f = OutOfFuel)
  | Ret (Err _) => exists selector, unanswered selector (ct_database ct)
      \/ build_graph (ct_database ct) (pg_seed_ports pg)
           (c_catchall_threshold (c_strategy (sh_config (ct_shared ct)))) = Err tt
      \/ build_prefix_graph (ct_database ct) = Err tt
  | Fault _ => False
  end.
Proof.
  intros [Hc Hl Hex Hpay _] Hsh Hps Hseat Hfits. rewrite <- Hsh in Hc, Hl. unfold session_of.
  destruct (next_selector _ _ _) as [selector rng]. pose proof (session_ranges (ct_database ct) _ selector Hex) as Hr.
  destruct (session _ _ _) as [[ranges|e]|f]; [|by exists selector; left|done]. cbn [mbind outcome_bind].
  destruct Hr as (r & -> & Hord). set (c := sh_config (ct_shared ct)) in *.
  assert (Hbuild : forall ip port p, @build (bytes_payload pg) ip port = Ok p ->
    zlen p <= 65000 /\ 62 + TxMetadata_LEN + zlen p <= 2048).
  { intros ip port p [= <-]. unfold TxMetadata_LEN. lia. }
  assert (Hst : startable (Q := Q) (R := R) (Output := list Z) fuel (capacity_of c) (link_of (ct_shared ct)) 2048
    (ct_database ct) c (pg_seed_ports pg) (ch_seats ch)).
  { destruct Hc. constructor; try done; [lia|]. unfold seated in Hseat. unfold parts_all in Hps.
    rewrite <- Hseat in Hps. rewrite Forall_fmap in Hps. exact Hps. }
  pose proof (session_start_ok (H6 := bytes_payload pg) fuel (capacity_of c) (link_of (ct_shared ct)) Hl 2048 Hbuild r Hord
    (ch_seed ch) (ct_database ct) c (sh_timeout (ct_shared ct)) feeder_rng responder_rng (pg_seed_ports pg) (ch_now ch)
    (ch_seats ch) Hst) as H0'.
  destruct (session_start _ _ _ _ _ _ _ _ _ _) as [[w0|e]|f] eqn:E; [|by exists selector; right|done].
  destruct H0' as [Hok Hkept]. split_and!.
  { apply session_start_threads in E. by rewrite E, <- Hseat, length_fmap. }
  - intros w Hrun. pose proof (session_reachable_kept (H6 := bytes_payload pg) fuel (capacity_of c)
      (link_of (ct_shared ct)) Hl 2048 _ _ _ Hbuild r Hord (ch_seed ch) anytime w0 w Hkept Hrun) as [Ht _].
    apply Forall_fmap. eapply Forall_impl; [exact Ht|]. intros th. apply into_parts_ok. fold c. destruct Hc. lia.
  - intros w o f Hrun Hs ->. pose proof (session_reachable_ok (H6 := bytes_payload pg) fuel (capacity_of c)
      (link_of (ct_shared ct)) Hl 2048 _ _ _ Hbuild r Hord (ch_seed ch) w0 w Hok Hrun) as Hw.
    exact (session_step_ok (H6 := bytes_payload pg) fuel (capacity_of c) (link_of (ct_shared ct)) Hl 2048
      _ _ _ Hbuild r Hord (ch_seed ch) w (Fault f) Hw Hs).
Qed.

(** *** The start *)

Lemma umems_new_ok m rs page qs umems :
  umems_new m rs page qs = Ok umems ->
  exists bases, umems = (fun base => (base, queue_umem rs page)) <$> bases /\ length bases = length qs.
Proof.
  revert umems. induction qs as [|i qs IH]; intros umems; simpl; [intros [= <-]; by exists []|].
  destruct (ok_or (mc_mmap m i)) as [base|]; [|done]. simpl. destruct (umems_new m rs page qs) as [rest|]; [|done].
  intros [= <-]. destruct (IH rest eq_refl) as (bases & -> & Hl). exists (base :: bases). simpl. split; [done|lia].
Qed.

Lemma prepare_ok m c excludes c' ex usable :
  machine_ok m c -> prepare m (Ok c) excludes = Ok (c', ex, usable) -> c' = c /\ starts_sorted 0 (inner ex) /\ 0 < usable < 2 ^ 32.
Proof.
  intros Hm. unfold prepare. destruct (mc_limit m); [|done]. cbn. destruct excludes as [text|]; [|done]. cbn.
  destruct (Text.parse text) as [ex'|] eqn:Ep; [|done]. cbn. destruct (guard_new _ _ _ _) as [gd|]; [|done]. cbn.
  unfold Native.queues. destruct (mc_ioctl m _ _) as [q|] eqn:Eq; [|done]. cbn.
  destruct (mc_parallelism m) as [par|]; [|done]. cbn.
  destruct (usable_queue_count _ _) as [u|] eqn:Eu; [|done]. cbn. destruct (mc_load m); [|done]. cbn.
  destruct (mc_logger m); [|done]. intros [= <- <- <-].
  split; [done|]. split.
  - unfold Text.parse in Ep. destruct (parse_lines (lines text) []) as [rs|] eqn:El; [|done]. injection Ep as <-.
    apply sorted_ranges. by eapply parse_lines_ok; [exact El|].
  - pose proof (mo_queues m c Hm _ _ _ Eq) as Hq. unfold in_width in Hq.
    revert Eu. unfold usable_queue_count. set (x := u32_of _). assert (in_u32 x) as [_ Hx] by (by apply (wrap_width 32)).
    repeat case_cmp_step; try done. intros [= <-]. lia.
Qed.

(** The controller is made with the link of the interface, and its calls to the
    kernel obey the rules. *)
Lemma controller_new_ok m c (db : Db) bases p :
  config_ok c -> machine_ok m c -> 0 <= p < 63 ->
  match controller_new m c ((fun base => (base, queue_umem (c_ring_size (c_xdp c)) (2 ^ p))) <$> bases) db with
  | Ret (Ok ct, h) => (exists st, rules h = Some st) /\ sh_config (ct_shared ct) = c /\ ct_database ct = db
      /\ link_ok (link_of (ct_shared ct)) /\ length (ct_saturators ct) = length bases
      /\ parts_all (ct_shared ct) (ct_saturators ct)
  | Ret (Err _, h) => exists st, rules h = Some st
  | Fault _ => False
  end.
Proof.
  intros Hc Hm Hp. unfold controller_new. destruct (sys_index (mc_system m)) as [idx|]; [|by exists ∅]. cbn.
  destruct (find_link _ _) as [l|] eqn:El; [|by exists ∅]. cbn. destruct (mc_attach m); [|by exists ∅]. cbn.
  destruct (co_timeout c Hc) as (t & ->). cbn. destruct (mc_socks m); [|by exists ∅].
  pose proof (find_link_ok _ _ _ (mo_system m c Hm) El) as Hl.
  pose proof (setup_queues_ok (A := PmapPortAdapter Q) (I := PmapIpAdapter) (R := R) (Output := list Z)
    (PortAdapterLaws0 := pmap_laws fuel (capacity_of c)) l Hl (mc_kernel m) (c_xdp c) idx p bases (mo_fds m c Hm)
    (co_ring c Hc) (co_power c Hc) (co_memory c Hc) Hp (co_batch c Hc) (mo_rings m c Hm) [] ∅ 0 eq_refl) as Hs.
  destruct (setup_queues _ _ _ _ _ _ _) as [[[ps|e] h]|f]; cbn in Hs |- *; [|by destruct Hs|done].
  destruct Hs as (Hst & Hlen & Hall). split_and!; try done. unfold parts_all, link_of. cbn.
  eapply Forall_impl; [exact Hall|]. intros q [_ Hq]. by destruct l.
Qed.

Lemma boot_ok m c excludes (db : Db) :
  config_ok c -> machine_ok m c ->
  match boot m (Ok c) excludes db with
  | Ret (Ok pg, h) => (exists st, rules h = Some st) /\ program_ok pg
      /\ sh_config (ct_shared (pg_controller pg)) = c
      /\ exists usable, 0 < usable /\ length (ct_saturators (pg_controller pg)) = Z.to_nat usable
           /\ pg_globals pg = mkGlobals (start (c_source_port (c_controller c))) (last (c_source_port (c_controller c))) usable
  | Ret (Err _, h) => exists st, rules h = Some st
  | Fault _ => False
  end.
Proof.
  intros Hc Hm. unfold boot. destruct (prepare m (Ok c) excludes) as [[[c' ex] usable]|] eqn:Ep; [|by exists ∅].
  destruct (prepare_ok m c excludes c' ex usable Hm Ep) as (-> & Hex & Hu).
  pose proof (co_host c Hc). destruct (request_length (c_host (c_ping c)) (c_port (c_ping c)) (c_protocol_version (c_ping c)))
    as (payload & -> & Hpay); [lia|apply Hc|]. cbn. destruct (mo_page m c Hm) as (p & Hp & ->). cbn.
  destruct (umems_new _ _ _ _) as [umems|] eqn:Eu; [|by exists ∅].
  destruct (umems_new_ok _ _ _ _ _ Eu) as (bases & -> & Hl). rewrite length_seq in Hl.
  pose proof (controller_new_ok m c db bases p Hc Hm Hp) as Hn.
  destruct (controller_new _ _ _ _) as [[[ct|e] h]|f]; [|done..]. cbn in Hn |- *.
  destruct Hn as (Hst & Hcfg & _ & Hlink & Hlen & Hall). split_and!; [done| |done|].
  - constructor; cbn; [by rewrite Hcfg|done|done|lia|done].
  - exists usable. split_and!; [lia|lia|done].
Qed.

(** *** The loop *)

(** Rounds keep what the controller shares, and its saturators in order. *)
Lemma rounds_ok (pg : program Db) ct :
  program_ok pg -> rtc (round (Q := Q) fuel feeder_rng responder_rng pg) (pg_controller pg) ct ->
  ct_shared ct = ct_shared (pg_controller pg)
  /\ length (ct_saturators ct) = length (ct_saturators (pg_controller pg))
  /\ parts_all (ct_shared ct) (ct_saturators ct).
Proof.
  intros Hpg Hr. refine (rtc_ind_r (R := round fuel feeder_rng responder_rng pg) (fun ct => ct_shared ct = ct_shared (pg_controller pg)
    /\ length (ct_saturators ct) = length (ct_saturators (pg_controller pg))
    /\ parts_all (ct_shared ct) (ct_saturators ct)) (pg_controller pg) _ _ ct Hr); [|clear ct Hr].
  { split_and!; [done..|apply Hpg]. }
  intros ct ct' _ Hround (Hsh & Hlen & Hps). destruct Hround as [ch e|ch w0 w self Hseat Hfits E Hrun _ _ _]; [done|].
  pose proof (session_of_ok pg ct ch Hpg Hsh Hps Hseat Hfits) as Hs. rewrite E in Hs. destruct Hs as (Hl0 & Hs & _).
  cbn. split_and!; [done| |by apply Hs].
  rewrite length_fmap, <- Hlen, <- Hl0. by eapply session_threads.
Qed.

(** After the start every queue in use has its socket in the map. *)
Lemma boot_socks m c excludes (db : Db) pg h :
  machine_ok m c -> boot m (Ok c) excludes db = Ret (Ok pg, h) ->
  forall q, 0 <= q < USABLE_QUEUES (pg_globals pg) -> in_socks h q = true.
Proof.
  intros Hm. unfold boot. destruct (prepare m (Ok c) excludes) as [[[c' ex] usable]|] eqn:Ep; [|done].
  destruct (prepare_ok m c excludes c' ex usable Hm Ep) as (-> & _ & Hu).
  destruct (build_latest_request _ _ _) as [payload|]; [|done]. cbn. destruct (align_size m _) as [page|]; [|done]. cbn.
  destruct (umems_new _ _ _ _) as [umems|] eqn:Eu; [|done].
  destruct (umems_new_ok _ _ _ _ _ Eu) as (bases & -> & Hl). rewrite length_seq in Hl.
  unfold controller_new. destruct (sys_index _) as [idx|]; [|done]. destruct (find_link _ _) as [l|]; [|done].
  destruct (mc_attach m); [|done]. cbn. destruct (controller_timeout c); [|done]. cbn.
  destruct (mc_socks m); [|done]. destruct (setup_queues _ _ _ _ _ _ _) as [[[ps|e] h1]|] eqn:Es; [|done..].
  intros [= <- <-] q Hq. cbn in Hq. apply setup_queues_socks in Es as [_ Hs]; [|lia|rewrite length_fmap; lia].
  apply Hs. rewrite length_fmap. lia.
Qed.

(** The frame is a TCP segment over IPv4 to this port. *)
Definition tcp_to (data : list Z) (port : Z) : Prop := for_us (mkGlobals port port 1) data.

(** ** Theorems *)

(** C5: the whole program is safe.  With a usable configuration and a machine
    that keeps its word, the start either fails with an error or brings up one
    saturator per queue in use, its calls to the kernel obeying the rules in
    both cases.  From then on, whatever sessions are run one after the other
    and however the turns of their threads are interleaved: no saturator is
    lost, what the saturators hold is in order before, during and after every
    session, and a session starts unless the database fails.  As long as every
    batch that the feeder pushes in a session fits its queues ([batch_fits]; the
    code does not check it), no turn of any thread panics or touches memory it
    must not (it may only wait). *)
Theorem program_safe (m : machine) (c : Config) (excludes : result unit str) (db : Db) :
  config_ok c -> machine_ok m c ->
  match boot m (Ok c) excludes db with
  | Ret (Ok pg, h) =>
      (exists st, rules h = Some st)
      /\ forall ct, rtc (round (Q := Q) fuel feeder_rng responder_rng pg) (pg_controller pg) ct ->
        length (ct_saturators ct) = Z.to_nat (USABLE_QUEUES (pg_globals pg))
        /\ parts_all (ct_shared ct) (ct_saturators ct)
        /\ forall ch, seated ct ch -> fits pg ct ->
           match session_of (Q := Q) feeder_rng responder_rng pg ct ch with
           | Ret (Ok w0) =>
               (forall w, runs_to fuel pg anytime ct w0 w ->
                  parts_all (ct_shared ct) ((fun th => into_parts (th_saturator th)) <$> run_threads w))
               /\ (forall w o f, runs_to fuel pg batch_fits ct w0 w -> turns fuel pg batch_fits ct w o ->
                  o = Fault f -> f = OutOfFuel)
           | Ret (Err _) => exists selector, unanswered selector (ct_database ct)
               \/ build_graph (ct_database ct) (pg_seed_ports pg)
                    (c_catchall_threshold (c_strategy (sh_config (ct_shared ct)))) = Err tt
               \/ build_prefix_graph (ct_database ct) = Err tt
           | Fault _ => False
           end
  | Ret (Err _, h) => exists st, rules h = Some st
  | Fault _ => False
  end.
Proof.
  intros Hc Hm. pose proof (boot_ok m c excludes db Hc Hm) as Hb.
  destruct (boot m (Ok c) excludes db) as [[[pg|e] h]|f]; [|done..].
  destruct Hb as (Hst & Hpg & _ & usable & Hu & Hlen & Hg). split; [done|]. intros ct Hr.
  destruct (rounds_ok pg ct Hpg Hr) as (Hsh & Hl & Hps). split; [by rewrite Hl, Hlen, Hg|]. split; [done|].
  intros ch Hseat Hfits. pose proof (session_of_ok pg ct ch Hpg Hsh Hps Hseat Hfits) as Hs.
  destruct (session_of _ _ _ _ _) as [[w0|e]|f]; [|done..]. by destruct Hs.
Qed.

(** C34: the answers to probes reach the program.  Once it has started, the
    packet filter hands every TCP frame over IPv4 for a port that probes are
    sent from to the socket of the queue the frame arrived on, and lets every
    other frame pass to the network stack. *)
Theorem answers_delivered `{NetworkTypes} (m : machine) (c : Config) (excludes : result unit str) (db : Db)
    (pg : program Db) (h : list Socket.entry) (data : list Z) (q : Z) :
  config_ok c -> machine_ok m c -> 0 < start (c_source_port (c_controller c)) ->
  boot m (Ok c) excludes db = Ret (Ok pg, h) -> is_bytes data -> 0 <= q < USABLE_QUEUES (pg_globals pg) ->
  (forall source_port, source_port ∈ as_vec (c_source_port (c_controller c)) ->
     tcp_to data source_port -> farsight_xdp (in_socks h) (pg_globals pg) data q = Ret (XDP_REDIRECT q))
  /\ ((forall source_port, source_port ∈ as_vec (c_source_port (c_controller c)) -> ~ tcp_to data source_port) ->
      farsight_xdp (in_socks h) (pg_globals pg) data q = Ret XDP_PASS).
Proof.
  intros Hc Hm Hs E Hb Hq. pose proof (boot_ok m c excludes db Hc Hm) as Hok. rewrite E in Hok.
  destruct Hok as (_ & _ & _ & usable & Hu & _ & Hg). pose proof (boot_socks m c excludes db pg h Hm E q Hq) as Hsock.
  pose proof (co_ports c Hc) as Hports. unfold port_range_ok in Hports. rewrite Hg in *. cbn [USABLE_QUEUES] in Hq.
  destruct (xdp_filter_exact (in_socks h) (mkGlobals (start (c_source_port (c_controller c)))
    (last (c_source_port (c_controller c))) usable) data q) as (v & -> & Hyes & Hno); [done|simpl; lia..|].
  cbn [USABLE_QUEUES] in Hyes. rewrite Z.mod_small, Hsock in Hyes by lia. split.
  - intros port Hp%elem_of_as_vec (H1' & H2' & H3' & H4' & H5'). rewrite Hyes; [done|].
    split_and!; try done; cbn in *; lia.
  - intros Hnone. rewrite Hno; [done|]. intros (H1' & H2' & H3' & H4' & H5').
    apply (Hnone (be16 (byte data (14 + 4 * Z.land (byte data 14) 15 + 2)) (byte data (14 + 4 * Z.land (byte data 14) 15 + 3)))).
    + apply elem_of_as_vec. cbn in H5'. lia.
    + split_and!; try done; cbn; lia.
Qed.

End proofs.

(** ** Witnesses *)

Section witnesses.
Local Existing Instances no_hash ex_unaligned demo_consts linux linux_laws demo_server demo_server_laws ex_json ex_types.

(** Two queues, an interface [e], the host name [a.b]. *)
Definition main_config : Config :=
  mkConfig (mkControllerConfig (Range 40000 40010) [101] 1000 (f64_of_Z 1000))
    (mkDatabaseConfig [] [] [] [] [] 15 2)
    (mkStrategyConfig 4 3 (mkEpsilonConfig (f64_of_Z 1) (f64_of_Z 0)) 3 8 [Config.Single 25565])
    (mkSessionConfig 1000000 3 (mkRescanConfig 10 (f64_of_Z 0))) (mkPingConfig [97; 46; 98] 25565 770) demo_xdp
    (mkTcpConfig 4 100).

Definition main_machine : machine :=
  mkMachine (Ok tt) 16 (3, -1) (fun _ q => Some (Native.mkQueues (q_cmd q) (mkQueue 0 0 0 4) (mkQueue 0 0 0 2))) (Ok 8) (Ok tt)
    (Ok tt) (Ok tt) (Ok tt) (fun i => Some (65536 * (Z.of_nat i + 1))) 4096 [] demo_system demo_kernel.

Lemma main_config_ok : config_ok main_config.
Proof.
  constructor; try (simpl; lia); [by exists (2 ^ 31)|by vm_compute|].
  eexists. vm_compute. reflexivity.
Qed.

Lemma main_machine_ok : machine_ok main_machine main_config.
Proof.
  constructor; [apply demo_system_ok| |apply demo_fds|by intros|by exists 12].
  intros name q q' [= <-]. by vm_compute.
Qed.

Abbreviation main_boot := (boot main_machine (Ok main_config) (Ok [49; 46; 50; 46; 51; 46; 52]) demo_db).

Lemma program_safe_witness :
  exists pg h st, main_boot = Ret (Ok pg, h) /\ rules h = Some st
    /\ length (ct_saturators (pg_controller pg)) = 2%nat
    /\ parts_all (Q := list_queue) (R := replay) 9 (ct_shared (pg_controller pg)) (ct_saturators (pg_controller pg)).
Proof.
  pose proof (program_safe (Q := list_queue) 9 demo_rng demo_rng main_machine main_config
    (Ok [49; 46; 50; 46; 51; 46; 52]) demo_db main_config_ok main_machine_ok) as Hs.
  assert (Hok : match main_boot with Ret (Ok pg, _) => USABLE_QUEUES (pg_globals pg) =? 2 | _ => false end = true)
    by (vm_compute; reflexivity).
  destruct main_boot as [[[pg|e] h]|f]; [|discriminate..]. destruct Hs as ((st & Hst) & Hs).
  destruct (Hs (pg_controller pg) (rtc_refl _ _)) as (Hl & Hp & _). apply Z.eqb_eq in Hok. rewrite Hok in Hl.
  exists pg, h, st. split; [reflexivity|]. split; [exact Hst|]. split; [exact Hl|exact Hp].
Defined.

(** The SYN and ACK to port 40000 arrives on the second queue. *)
Lemma answers_delivered_witness :
  exists pg h, main_boot = Ret (Ok pg, h)
    /\ farsight_xdp (in_socks h) (pg_globals pg) ex_frame 1 = Ret (XDP_REDIRECT 1).
Proof.
  pose proof (fun pg h => answers_delivered (Q := list_queue) (R := replay) 9 main_machine main_config
    (Ok [49; 46; 50; 46; 51; 46; 52]) demo_db pg h ex_frame 1 main_config_ok main_machine_ok) as Hs.
  assert (Hok : match main_boot with Ret (Ok pg, _) => USABLE_QUEUES (pg_globals pg) =? 2 | _ => false end = true)
    by (vm_compute; reflexivity).
  destruct main_boot as [[[pg|e] h]|f]; [|discriminate..]. apply Z.eqb_eq in Hok.
  exists pg, h. split; [reflexivity|].
  refine (proj1 (Hs pg h _ eq_refl _ _) 40000 _ _); [simpl; lia|repeat constructor; lia|lia| |].
  - apply elem_of_as_vec. simpl. lia.
  - vm_compute. split_and!; congruence.
Defined.

End witnesses.
